(* ===== verification/_CoqProject ===== *)
-Q . S2P
Prelude.v
OrderedSet.v
Frame.v
StakeTypes.v
BondMap.v
Inflation.v
Stake.v
StakeLogic.v
Registry.v
Books.v
Solvency.v
Rounds.v
Payouts.v
PayoutBound.v
Rewards.v
Spec.v
Refinement.v
RoundRefinement.v
Drift.v
ExitProgress.v
Widths.v
Reference.v
Scenarios.v
StakeTheorems.v
RoundTheorems.v
Divergences.v
SpecTheorems.v
Departure.v
ChainTheorems.v
Exposures.v
SetTheorems.v
InflationTheorems.v
AuthorInherent.v
AuthorFilter.v
AuthorTheorems.v
Runtime.v
RuntimeTheorems.v
RuntimeApi.v
Block.v
BlockTheorems.v
RuntimeConfig.v
RuntimeApis.v
Chain.v
ChainPoints.v
BlockChain.v
Account.v
TxPool.v
Node.v
NodeTheorems.v
DevChain.v
Service.v
CommandLine.v
ServiceTheorems.v
TokenDealer.v
DealerTheorems.v
Channels.v
