(* ===== verification/Prelude.v ===== *)
(** * A verification of the Moonbeam parachain's own logic

    Moonbeam is a parachain built on Substrate's FRAME. This development models the code
    of the repository (all paths below are under [src/]) and proves what it guarantees.
    The code that it calls from other repositories is a parameter everywhere, with
    the documented behaviour the proofs rely on stated in classes of laws.

    ** The program

    - The stake pallet ([pallets/stake]) keeps candidates and nominators, their bonds,
      the pool from which validators are chosen, the queue of exits, and the points and
      exposures from which rounds are paid. Its state changes through fifteen
      dispatchables, at the end of a block ([on_finalize]), when an author is noted, and
      at genesis.
    - The author inherent ([pallets/author-inherent]) stores the stated author of a block,
      after a check ([CanAuthor]), and tells an [EventHandler]. The runtime
      ([runtime/src/lib.rs]) makes the stake pallet the event handler and the preliminary
      check, and the author filter ([pallets/author-filter]), which draws a part of the
      validators at random, the final check.
    - The node ([node/src]) provides the inherent data, seals blocks, builds the genesis of
      its chain specifications and maintains the Ethereum caches; an RPC
      ([client/rpc/txpool]) shows the transaction pool. Accounts are Ethereum addresses
      ([runtime/account]). The token dealer ([pallets/token-dealer]) is not part of the
      runtime.

    ** The files

    Generic:
    - [Prelude.v]: machine integers (numbers with the wrap-around of the release profile
      written out), the monad [Prog] of programs that read and write a world, fail, or
      trap, its program logic [wp], and lemmas on sums.
    - [Frame.v]: currencies, [Perbill], sorting and iteration order, as classes of
      operations and of laws; [Reference.v] has instances that satisfy them.

    Components:
    - [OrderedSet.v] ([stake/src/set.rs]), [StakeTypes.v] (the data of
      [stake/src/lib.rs] and its [impl] blocks), [Inflation.v] ([stake/src/inflation.rs]),
      [Stake.v] (the pallet). [World] is the storage of the pallet with the currency and
      the events; a definition has the name of its function.
    - [AuthorInherent.v], [AuthorFilter.v], [Runtime.v] (the parameters, the gas mapping,
      the transaction filter, and the pallets joined: [Host]), [RuntimeApi.v] (limits,
      origins, precompiles, and the calls of the Ethereum API), [Block.v] (the pallets of
      [construct_runtime!], their inherents, the execution of a block), [RuntimeConfig.v]
      (the configuration of every pallet, with the wiring that follows from it, and those of
      the mock runtimes), [RuntimeApis.v] (what [impl_runtime_apis!] answers the node).
    - [Account.v], [TxPool.v], [TokenDealer.v] with [Channels.v] (chains that run the dealer,
      and the channels between them); [Node.v] (sealing, chain specifications,
      start-up, inherent data, caches), [Service.v] ([service.rs], [rpc.rs], [command.rs]
      and [cli.rs] as the sequence of the calls they make, any of which may fail) and
      [CommandLine.v] (the two command lines, and the relay chain node's configuration).

    Theory of the stake pallet:
    - [BondMap.v]: vectors of bonds as finite maps; [StakeLogic.v]: symbolic execution.
    - [Registry.v]: the pool, the queue and the candidates agree ([pool_inv]) in every
      world that is [reachable]: from a genesis build, by any sequence of calls with any
      origin and arguments, ends of blocks, authors, and whatever other pallets do to the
      currency.
    - [Books.v], [Solvency.v]: the books of the stake, an abstract ledger, which every
      step keeps except a switch into an existing nomination ([orderly_step]); with
      [pool_inv] they make a world [sound].
    - [Rounds.v], [Payouts.v], [PayoutBound.v], [Rewards.v]: what the end of a round does, what
      it pays, how much that is together, and the list of rewards that it amounts to.
    - [Spec.v]: the pallet as an abstract machine on two finite maps, who is a candidate and
      who has nominated whom, without vectors, totals, pool, queue or currency.
      [Refinement.v] (the calls) and [RoundRefinement.v] (the end of a round) prove that
      the pallet implements it, so that an invariant of the machine is one of the pallet
      ([orderly_steps_invariant]).
    - [Drift.v]: how far every operation moves [Total] away from what the candidates have at
      stake. [ExitProgress.v]: exits along chains, counted in rounds; [Widths.v]: the types
      of the stored numbers.
    - [Scenarios.v]: the geneses of [mock.rs] and all unit tests of the pallet, replayed; the
      unit tests of the inflation and of the author inherent are in [InflationTheorems.v]
      and [AuthorTheorems.v].

    Theory of blocks:
    - [Exposures.v]: the exposures stay exact along every orderly chain; what a round pays.
    - [Chain.v]: the chain that grows on a genesis by accepted blocks with any inherents and
      extrinsics ([chain_of]), and what such a block does to the stake pallet
      ([block_effect]): calls, one author among the validators, calls, the end of the block.
      [ChainPoints.v]: rounds and points along it.

    Theorems, each with a witness that instantiates its hypotheses:
    - [StakeTheorems.v] (C1, C4 to C6, C11): the books hold along every orderly chain,
      nothing panics in any reachable world, a call that fails leaves no trace although the
      runtime does not roll back, all stake is backed, nominators can leave.
    - [SpecTheorems.v] (C2, C3, C7, C10): the calls and the rounds implement the abstract
      machine, which determines the rest of the registry ([registry_determined]), so that
      joining the nominators and leaving them cancel; the limits of the configuration hold
      along every orderly chain. [Departure.v] (C25): a candidacy that nobody backs leaves no
      trace, once the rounds of its exit have passed in blocks without calls.
    - [ChainTheorems.v] (C8, C16): every exit happens, after the bond duration; a round pays
      exactly the rewards that can be computed from its records beforehand, to its authors
      and to who was exposed with them.
    - [InflationTheorems.v] (C9): the rates of a round are those of the year, divided; what the
      rounds of a year issue stays within the annual rate, but for the rounding.
    - [RoundTheorems.v] (C12, C13, C18): the best candidates are selected, exposed and
      paid; exits are executed when due.
    - [BlockChain.v] (C14, C15, C17): along every chain of blocks, each block is credited to
      its author and to nobody else; the chain can go on unless root has set the eligible
      ratio to zero or a round ended without an active candidate, and then it has halted for
      good; the payments of a round are at most its issuance and two units for each.
    - [Divergences.v] (C26 to C30): where the pallet does not do what it says: merged
      nominations, the exact law of the drift of [Total] along every orderly chain, the cap
      on nominators, an event.
    - [SetTheorems.v] (C31, C32): the ordered set refines the finite set.
    - [BlockTheorems.v] (C19, C20): a block goes through exactly when its author is drawn,
      somebody can always be drawn, and the inherents have to come in the runtime's order.
    - [DevChain.v] (C36): the chain of the development service goes on as long as nobody stops
      it, from the command line and the inherent data of the node to the execution of each
      block.
    - [AuthorTheorems.v] (C21 to C23), [RuntimeTheorems.v] (C24), [NodeTheorems.v]
      (C34, C35, C37, C39, C40), [ServiceTheorems.v] (C33), [DealerTheorems.v] (C38):
      authorship, the runtime, the node with its RPC and accounts, the services and
      sub-commands, the conservation of tokens across the messages of the token dealer.
    - Without an id: the wiring has no cycles, one ledger, and an implementation in every
      slot ([RuntimeConfig.v]); a block that is built through the APIs is the block that they
      execute ([RuntimeApis.v]); what one parachain sends to another is moved there, refused
      there, or on its way ([Channels.v]).

    ** Choices

    - Integers are [Z]. Additions and subtractions of the source are reduced to the width
      of their type ([u128], [u32], ...); where the exact sum is meant, the theorems prove
      that it fits.
    - A dispatchable that fails keeps its earlier writes in the model, as in this version
      of FRAME; that there are none is a theorem (C5).
    - A panic ([expect], [assert!], a division by zero, an index out of range) is the
      outcome [Panicked], or [None] in pure functions.
    - Fuel occurs once, in [binary_search_loop]: the length of the slice, which halves in
      every iteration ([binary_search_logarithmic]). All other recursion is structural.
    - Aliasing does not occur: the source works on owned values that it reads from
      storage and writes back, and the model threads the same reads and writes.

    ** What is not modelled

    SCALE and JSON encodings, weights and fees, and what Substrate, Frontier, Cumulus and
    Polkadot do with the configuration, the genesis and the calls they are given: their
    behaviour is not in this repository. So the APIs that only forward are forwarded to
    parameters, and the calls that the services make are names in a log; a call may fail,
    and nothing else is assumed of it. The execution of a block follows what the
    repository's comments say of FRAME: inherents in the order of the pallets, a failing
    inherent invalidates the block, a failing extrinsic does not. The order in which FRAME
    runs the hooks of two pallets is a parameter. The validation data are of one block:
    each starts without any. The calls of third-party pallets change the currency at most,
    so root's calls that write to raw storage are left out. A channel between parachains hands its
    messages over once and in order, as documented. The build scripts ([build.rs]), the
    derived codecs and the opaque session keys (an empty struct) have no logic of their
    own. *)

From stdpp Require Export base numbers list gmap strings sorting.
From Stdlib Require Export ZArith Lia.

#[export] Set Default Goal Selector "!".
Declare Scope mach_scope.
Delimit Scope mach_scope with mach.
Open Scope Z_scope.

(** ** Machine integers

    The runtime is compiled with the release profile of [src/Cargo.toml], which
    does not turn overflow checks on: the operators [+], [-], [+=] and [-=] of the
    source wrap around at the width of their type. *)

(** The number of values of a [u128], a [u64], a [u32] and a [u8]. *)
Definition U128 : Z := 340282366920938463463374607431768211456.
Definition U64 : Z := 18446744073709551616.
Definition U32 : Z := 4294967296.
Definition U8 : Z := 256.

(** What holds of each handler of a component; filled where the handlers are proved, used
    where they are dispatched. *)
Create HintDb handlers discriminated.

(** Reduction to a width. *)
Definition u128 (x : Z) : Z := x mod U128.
Definition u64 (x : Z) : Z := x mod U64.
Definition u32 (x : Z) : Z := x mod U32.
Definition u8 (x : Z) : Z := x mod U8.

(** The values of two types. *)
Definition is_u128 (x : Z) : Prop := 0 <= x < U128.
Definition is_u32 (x : Z) : Prop := 0 <= x < U32.

#[export] Instance is_u128_dec x : Decision (is_u128 x).
Proof. unfold is_u128. apply _. Defined.
#[export] Instance is_u32_dec x : Decision (is_u32 x).
Proof. unfold is_u32. apply _. Defined.

Notation "x ⊕ y" := (u128 (x + y)) (at level 50, left associativity) : mach_scope.
Notation "x ⊖ y" := (u128 (x - y)) (at level 50, left associativity) : mach_scope.
Notation "x ⊞ y" := (u32 (x + y)) (at level 50, left associativity) : mach_scope.
Notation "x ⊟ y" := (u32 (x - y)) (at level 50, left associativity) : mach_scope.
Open Scope mach_scope.

(** ** Results, and programs that thread a world

    [Prog W E A] is the shape of every function that reads or writes chain
    storage: from a world it returns a value and a new world, or an error of [E]
    and the world as it was left at that point (a dispatchable that returns an
    error after a write does not undo the write), or it traps (Rust's panic). *)

Inductive Outcome (W E A : Type) : Type :=
| Done (a : A) (w : W)
| Failed (e : E) (w : W)
| Panicked.
Arguments Done {W E A} _ _.
Arguments Failed {W E A} _ _.
Arguments Panicked {W E A}.

Definition Prog (W E A : Type) : Type := W → Outcome W E A.

#[export] Instance Prog_ret {W E} : MRet (Prog W E) := λ A a w, Done a w.
#[export] Instance Prog_bind {W E} : MBind (Prog W E) := λ A B k m w,
  match m w with
  | Done a w' => k a w'
  | Failed e w' => Failed e w'
  | Panicked => Panicked
  end.

(** Reading and writing the world, and the ways a handler stops early. *)
Definition gets {W E A} (f : W → A) : Prog W E A := λ w, Done (f w) w.
Definition modify {W E} (f : W → W) : Prog W E unit := λ w, Done tt (f w).
Definition fail {W E A} (e : E) : Prog W E A := λ w, Failed e w.
Definition panic {W E A} : Prog W E A := λ _, Panicked.
(** [ensure!(b, e)] *)
Definition ensure {W E} (b : bool) (e : E) : Prog W E unit :=
  if b then mret tt else fail e.
(** [assert!(b)] *)
Definition assert {W E} (b : bool) : Prog W E unit :=
  if b then mret tt else panic.
(** [o.ok_or(e)?] *)
Definition ok_or {W E A} (o : option A) (e : E) : Prog W E A :=
  match o with Some a => mret a | None => fail e end.
(** [o.expect(..)] *)
Definition expect {W E A} (o : option A) : Prog W E A :=
  match o with Some a => mret a | None => panic end.
(** [if b { m }] *)
Definition when {W E} (b : bool) (m : Prog W E unit) : Prog W E unit :=
  if b then m else mret tt.
(** [let _ = m;]: the error of [m] is dropped, its writes stay. *)
Definition ignore_error {W E A} (m : Prog W E A) : Prog W E unit := λ w,
  match m w with
  | Done _ w' => Done tt w'
  | Failed _ w' => Done tt w'
  | Panicked => Panicked
  end.
(** [for x in l { body(x) }] *)
Fixpoint for_each {W E X} (l : list X) (body : X → Prog W E unit) : Prog W E unit :=
  match l with
  | [] => mret tt
  | x :: l => body x;; for_each l body
  end.
(** [l.into_iter().filter_map(f).collect()] for an [f] with effects. *)
Fixpoint filter_map_each {W E X Y} (l : list X) (f : X → Prog W E (option Y)) :
    Prog W E (list Y) :=
  match l with
  | [] => mret []
  | x :: l =>
      o ← f x;
      ys ← filter_map_each l f;
      mret (match o with Some y => y :: ys | None => ys end)
  end.

(** Sums over lists and over the values of a finite map. *)
Definition zsum {A} (f : A → Z) (l : list A) : Z := foldr (λ x acc, f x + acc) 0 l.
Definition map_zsum {V} (f : V → Z) (m : gmap Z V) : Z :=
  zsum (λ kv, f kv.2) (map_to_list m).

(** ** Program logic

    [wp m Q w]: running [m] in [w] ends in an outcome that satisfies [Q]. The rules
    below execute a handler symbolically, one branch per guard; [wp_run] applies
    them until no statement is left. *)

Definition wp {W E A} (m : Prog W E A) (Q : Outcome W E A → Prop) (w : W) : Prop :=
  Q (m w).
#[global] Arguments wp : simpl never.
Definition bind_post {W E A B} (k : A → Prog W E B) (Q : Outcome W E B → Prop)
    (o : Outcome W E A) : Prop :=
  match o with
  | Done a w => wp (k a) Q w
  | Failed e w => Q (Failed e w)
  | Panicked => Q Panicked
  end.
(** Every way of ending leaves [I], and there is no panic. *)
Definition keeps {W E A} (I : W → Prop) (o : Outcome W E A) : Prop :=
  match o with
  | Done _ w => I w
  | Failed _ w => I w
  | Panicked => False
  end.
(** The program ends normally, in [I]. *)
Definition ends {W E A} (I : W → Prop) (o : Outcome W E A) : Prop :=
  match o with Done _ w => I w | _ => False end.
(** The program does not panic. *)
Definition no_panic {W E A} (o : Outcome W E A) : Prop :=
  match o with Panicked => False | _ => True end.
(** An error leaves the world as it was. *)
Definition atomic {W E A} (w : W) (o : Outcome W E A) : Prop :=
  match o with Failed _ w' => w' = w | _ => True end.

Section wp_rules.
Context {W E : Type}.
Implicit Types (w : W) (e : E).

Lemma wp_mono {A} (m : Prog W E A) (Q Q' : Outcome W E A → Prop) w :
  (∀ o, Q o → Q' o) → wp m Q w → wp m Q' w.
Proof. unfold wp. auto. Qed.

Lemma wp_and {A} (m : Prog W E A) (Q Q' : Outcome W E A → Prop) w :
  wp m Q w → wp m Q' w → wp m (λ o, Q o ∧ Q' o) w.
Proof. unfold wp. auto. Qed.

Lemma wp_bind {A B} (m : Prog W E A) (k : A → Prog W E B) Q w :
  wp m (bind_post k Q) w → wp (m ≫= k) Q w.
Proof. unfold wp, mbind, Prog_bind, bind_post. by destruct (m w). Qed.

Lemma wp_ret {A} (a : A) (Q : Outcome W E A → Prop) w :
  Q (Done a w) → wp (mret a) Q w.
Proof. done. Qed.

Lemma wp_gets {A} (f : W → A) (Q : Outcome W E A → Prop) w :
  Q (Done (f w) w) → wp (gets f) Q w.
Proof. done. Qed.

Lemma wp_modify (f : W → W) (Q : Outcome W E unit → Prop) w :
  Q (Done tt (f w)) → wp (modify f) Q w.
Proof. done. Qed.

Lemma wp_fail {A} e (Q : Outcome W E A → Prop) w : Q (Failed e w) → wp (fail e) Q w.
Proof. done. Qed.

Lemma wp_panic {A} (Q : Outcome W E A → Prop) w : Q Panicked → wp panic Q w.
Proof. done. Qed.

Lemma wp_ensure b e (Q : Outcome W E unit → Prop) w :
  (b = true → Q (Done tt w)) → (b = false → Q (Failed e w)) → wp (ensure b e) Q w.
Proof. intros HT HF. destruct b; [by apply HT|by apply HF]. Qed.

Lemma wp_assert b (Q : Outcome W E unit → Prop) w :
  (b = true → Q (Done tt w)) → (b = false → Q Panicked) → wp (assert b) Q w.
Proof. intros HT HF. destruct b; [by apply HT|by apply HF]. Qed.

Lemma wp_ok_or {A} (o : option A) e Q w :
  (∀ a, o = Some a → Q (Done a w)) → (o = None → Q (Failed e w)) →
  wp (ok_or o e) Q w.
Proof. intros HS HN. destruct o; [by apply HS|by apply HN]. Qed.

Lemma wp_expect {A} (o : option A) (Q : Outcome W E A → Prop) w :
  (∀ a, o = Some a → Q (Done a w)) → (o = None → Q Panicked) → wp (expect o) Q w.
Proof. intros HS HN. destruct o; [by apply HS|by apply HN]. Qed.

Lemma wp_when b (m : Prog W E unit) Q w :
  (b = true → wp m Q w) → (b = false → Q (Done tt w)) → wp (when b m) Q w.
Proof. intros HT HF. destruct b; [by apply HT|by apply HF]. Qed.

Lemma wp_ignore_error {A} (m : Prog W E A) (Q : Outcome W E unit → Prop) w :
  wp m (λ o, match o with
             | Done _ w' | Failed _ w' => Q (Done tt w')
             | Panicked => Q Panicked
             end) w →
  wp (ignore_error m) Q w.
Proof. unfold wp, ignore_error. by destruct (m w). Qed.

(** A loop over two lists is two loops. *)
Lemma for_each_app {X} (l1 l2 : list X) (body : X → Prog W E unit) w :
  for_each (l1 ++ l2) body w = (for_each l1 body;; for_each l2 body) w.
Proof.
  revert w. induction l1 as [|x l1 IH]; intros w; cbn [app for_each]; [done|].
  unfold mbind, Prog_bind in *. destruct (body x w); [apply IH|done..].
Qed.

(** A loop, with an invariant over the elements already visited. An early stop
    of the body has to meet [Q] itself. *)
Lemma wp_for_each_visited {X} (I : list X → W → Prop) (l : list X)
    (body : X → Prog W E unit) Q w :
  I [] w →
  (∀ x xs w', (xs ++ [x]) `prefix_of` l → I xs w' →
    wp (body x) (λ o, match o with
                      | Done _ w'' => I (xs ++ [x]) w''
                      | Failed e w'' => Q (Failed e w'')
                      | Panicked => Q Panicked
                      end) w') →
  (∀ w', I l w' → Q (Done tt w')) →
  wp (for_each l body) Q w.
Proof.
  intros Hw Hbody HQ.
  assert (∀ rest xs w', l = xs ++ rest → I xs w' → wp (for_each rest body) Q w')
    as Hgen; [|by apply (Hgen l [])].
  intros rest. induction rest as [|x rest IH]; intros xs w' Hl HI; cbn [for_each].
  { apply wp_ret. apply HQ. by rewrite Hl, app_nil_r. }
  apply wp_bind. eapply wp_mono; [|apply (Hbody x xs); [|done]].
  2: { exists rest. by rewrite <-app_assoc. }
  intros [u w''|e w''|]; cbn; [|done..]. intros HI'.
  apply (IH (xs ++ [x])); [|done]. by rewrite <-app_assoc.
Qed.

Lemma wp_for_each {X} (I : W → Prop) (l : list X) (body : X → Prog W E unit) Q w :
  I w →
  (∀ x w', x ∈ l → I w' →
    wp (body x) (λ o, match o with
                      | Done _ w'' => I w''
                      | Failed e w'' => Q (Failed e w'')
                      | Panicked => Q Panicked
                      end) w') →
  (∀ w', I w' → Q (Done tt w')) →
  wp (for_each l body) Q w.
Proof.
  intros Hw Hbody HQ. apply (wp_for_each_visited (λ _, I)); [done| |done].
  intros x xs w' [rest ->]. apply Hbody. set_solver.
Qed.

(** The same for a [filter_map] with effects; [ys] is what has been kept. *)
Lemma wp_filter_map_each {X Y} (I : list X → list Y → W → Prop) (l : list X)
    (f : X → Prog W E (option Y)) Q w :
  I [] [] w →
  (∀ x xs ys w', x ∈ l → xs `prefix_of` l → I xs ys w' →
    wp (f x) (λ o, match o with
                   | Done o w'' =>
                       I (xs ++ [x]) (ys ++ match o with Some y => [y] | None => [] end) w''
                   | Failed e w'' => Q (Failed e w'')
                   | Panicked => Q Panicked
                   end) w') →
  (∀ ys w', I l ys w' → Q (Done ys w')) →
  wp (filter_map_each l f) Q w.
Proof.
  intros Hw Hf HQ.
  assert (∀ rest xs ys w', l = xs ++ rest → I xs ys w' →
    wp (filter_map_each rest f)
      (λ o, match o with
            | Done ys' w'' => I l (ys ++ ys') w''
            | Failed e w'' => Q (Failed e w'')
            | Panicked => Q Panicked
            end) w') as Hgen.
  { intros rest. induction rest as [|x rest IH]; intros xs ys w' Hl HI;
      cbn [filter_map_each].
    { apply wp_ret. rewrite !app_nil_r in *. by subst. }
    apply wp_bind. eapply wp_mono; [|apply (Hf x xs ys); [set_solver|by eexists|done]].
    intros [o w''|e w''|]; cbn; [|done..]. intros HI'. apply wp_bind.
    eapply wp_mono; [|apply (IH (xs ++ [x])); [by rewrite <-app_assoc|exact HI']].
    intros [zs w3|e w3|]; cbn; [|done..]. intros HI3. apply wp_ret.
    destruct o; by rewrite <-app_assoc in HI3. }
  eapply wp_mono; [|by apply (Hgen l [] [])].
  intros [ys w'|e w'|]; cbn; auto.
Qed.
End wp_rules.

(** One symbolic step, and all of them. A [match] on data in statement position is
    split; what is left are the outcomes of the branches. *)
Ltac wp_step :=
  lazymatch goal with
  | |- wp (mbind _ _) _ _ => apply wp_bind
  | |- wp (mret _) _ _ => apply wp_ret
  | |- wp (gets _) _ _ => apply wp_gets
  | |- wp (modify _) _ _ => apply wp_modify
  | |- wp (fail _) _ _ => apply wp_fail
  | |- wp panic _ _ => apply wp_panic
  | |- wp (ensure _ _) _ _ => apply wp_ensure; intros ?
  | |- wp (assert _) _ _ => apply wp_assert; intros ?
  | |- wp (ok_or _ _) _ _ => apply wp_ok_or; [intros ? ?|intros ?]
  | |- wp (expect _) _ _ => apply wp_expect; [intros ? ?|intros ?]
  | |- wp (when _ _) _ _ => apply wp_when; intros ?
  | |- wp (ignore_error _) _ _ => apply wp_ignore_error
  | |- wp (match ?x with _ => _ end) _ _ => destruct x eqn:?
  | |- bind_post _ _ _ => cbn [bind_post]
  end.
Ltac wp_run := repeat (wp_step; cbn beta iota).

(** Turn a goal on the outcome of running [m] in [w] into a [wp]. *)
Ltac wp_start m w :=
  lazymatch goal with
  | |- ?G =>
      let G := eval pattern (m w) in G in
      lazymatch G with ?Q _ => change (wp m Q w) end
  end.

(** ** Lemmas on machine integers *)

Lemma u128_small x : 0 <= x < U128 → u128 x = x.
Proof. apply Z.mod_small. Qed.
Lemma u32_small x : 0 <= x < U32 → u32 x = x.
Proof. apply Z.mod_small. Qed.
Lemma u64_small x : 0 <= x < U64 → u64 x = x.
Proof. apply Z.mod_small. Qed.
Lemma u128_range x : 0 <= u128 x < U128.
Proof. by apply Z.mod_pos_bound. Qed.
Lemma u32_range x : 0 <= u32 x < U32.
Proof. by apply Z.mod_pos_bound. Qed.
Lemma u8_range x : 0 <= u8 x < U8.
Proof. by apply Z.mod_pos_bound. Qed.

(** ** Lemmas on sums *)

Lemma zsum_app {A} (f : A → Z) l l' : zsum f (l ++ l') = zsum f l + zsum f l'.
Proof. induction l as [|x l IH]; cbn; [done|]. unfold zsum in *. rewrite IH. lia. Qed.

#[export] Instance zsum_proper {A} (f : A → Z) : Proper ((≡ₚ) ==> (=)) (zsum f).
Proof.
  intros l l' H. induction H; cbn in *; unfold zsum in *; lia.
Qed.

Lemma zsum_cons {A} (f : A → Z) x l : zsum f (x :: l) = f x + zsum f l.
Proof. done. Qed.

Lemma zsum_nonneg {A} (f : A → Z) l : (∀ x, x ∈ l → 0 <= f x) → 0 <= zsum f l.
Proof.
  induction l as [|x l IH]; cbn; [done|]. intros H.
  pose proof (H x ltac:(set_solver)).
  assert (0 <= zsum f l) by (apply IH; set_solver). unfold zsum in *. lia.
Qed.

Lemma zsum_ext {A} (f g : A → Z) l : (∀ x, x ∈ l → f x = g x) → zsum f l = zsum g l.
Proof.
  induction l as [|x l IH]; cbn; [done|]. intros H.
  rewrite (H x) by set_solver. unfold zsum in *. rewrite IH by set_solver. done.
Qed.

Lemma zsum_le {A} (f g : A → Z) l : (∀ x, x ∈ l → f x <= g x) → zsum f l <= zsum g l.
Proof.
  induction l as [|x l IH]; [done|]. intros H. rewrite !zsum_cons.
  pose proof (H x ltac:(set_solver)). assert (zsum f l <= zsum g l); [|lia]. apply IH. set_solver.
Qed.

Lemma zsum_add {A} (f g : A → Z) l : zsum (λ x, f x + g x) l = zsum f l + zsum g l.
Proof. induction l as [|x l IH]; [done|]. rewrite !zsum_cons, IH. lia. Qed.

(** The order of two sums does not matter. *)
Lemma zsum_swap {A B} (f : A → B → Z) l k :
  zsum (λ a, zsum (f a) k) l = zsum (λ b, zsum (λ a, f a b) l) k.
Proof.
  induction l as [|a l IH]; [by induction k|]. rewrite zsum_cons, IH, <-zsum_add.
  by apply zsum_ext.
Qed.

Lemma map_zsum_empty {V} (f : V → Z) : map_zsum f ∅ = 0.
Proof. unfold map_zsum. by rewrite map_to_list_empty. Qed.

Lemma map_zsum_insert_new {V} (f : V → Z) (m : gmap Z V) k v :
  m !! k = None → map_zsum f (<[k:=v]> m) = f v + map_zsum f m.
Proof. intros H. unfold map_zsum. by rewrite map_to_list_insert. Qed.

Lemma map_zsum_delete {V} (f : V → Z) (m : gmap Z V) k v :
  m !! k = Some v → map_zsum f (delete k m) = map_zsum f m - f v.
Proof.
  intros H. rewrite <-(insert_delete_id m k v H) at 2.
  rewrite map_zsum_insert_new by apply lookup_delete_eq. lia.
Qed.

Lemma map_zsum_insert {V} (f : V → Z) (m : gmap Z V) k v v' :
  m !! k = Some v → map_zsum f (<[k:=v']> m) = map_zsum f m - f v + f v'.
Proof.
  intros H. rewrite <-insert_delete_eq, map_zsum_insert_new by apply lookup_delete_eq.
  rewrite (map_zsum_delete f m k v H). lia.
Qed.

(** A sum over a map, as a sum over keys. *)
Lemma map_zsum_keys {V} (f : V → Z) (m : gmap Z V) l :
  NoDup l → (∀ k, is_Some (m !! k) → k ∈ l) →
  map_zsum f m = zsum (λ k, match m !! k with Some v => f v | None => 0 end) l.
Proof.
  intros Hl. revert m. induction Hl as [|k l Hk Hl IH]; intros m Hm.
  { assert (m = ∅) as ->; [|by rewrite map_zsum_empty].
    apply map_empty. intros k. destruct (m !! k) eqn:E; [|done].
    by destruct (not_elem_of_nil k (Hm k ltac:(by eexists))). }
  rewrite zsum_cons. destruct (m !! k) as [v|] eqn:E.
  - assert (map_zsum f m = f v + map_zsum f (delete k m)) as ->.
    { rewrite (map_zsum_delete _ _ _ v) by done. lia. }
    f_equal. rewrite IH.
    + apply zsum_ext. intros j Hj. rewrite lookup_delete_ne; [done|]. by intros ->.
    + intros j [x [Hne Hj]%lookup_delete_Some]. specialize (Hm j ltac:(by eexists)). set_solver.
  - apply IH. intros j Hj. specialize (Hm j Hj). apply elem_of_cons in Hm as [->|?]; [|done].
    rewrite E in Hj. by destruct Hj.
Qed.

Lemma map_zsum_nonneg {V} (f : V → Z) (m : gmap Z V) :
  (∀ k v, m !! k = Some v → 0 <= f v) → 0 <= map_zsum f m.
Proof.
  intros H. apply zsum_nonneg. intros [k v] Hkv%elem_of_map_to_list. by eapply H.
Qed.

Lemma map_zsum_lookup_le {V} (f : V → Z) (m : gmap Z V) k v :
  (∀ k v, m !! k = Some v → 0 <= f v) → m !! k = Some v → f v <= map_zsum f m.
Proof.
  intros Hf Hk. pose proof (map_zsum_delete f m k v Hk).
  assert (0 <= map_zsum f (delete k m)); [|lia].
  apply map_zsum_nonneg. intros k' v' [_ ?]%lookup_delete_Some. by eapply Hf.
Qed.
