(* ===== verification/OrderedSet.v ===== *)
(** * Ordered sets backed by a vector ([src/pallets/stake/src/set.rs])

    [OrderedSet<T>(pub Vec<T>)] is a sorted vector without duplicates, searched by
    bisection. The trait bound [T: Ord] is the class [Ord] with its laws in
    [OrdLaws]: a total preorder whose equivalence is [==]. It is not assumed to be
    antisymmetric for Leibniz equality, because the bonds of the stake pallet
    compare by owner only.

    The functions of the standard library that the file calls come first:
    [slice::binary_search], [slice::sort] (stable), [Vec::dedup], [Vec::insert] and
    [Vec::remove], as the toolchain of the repository defines them. *)

From S2P Require Import Prelude.

(** [Ord] (and [PartialEq]) of Rust. *)
Class Ord (T : Type) := { cmp : T → T → comparison; eqb : T → T → bool }.

Class OrdLaws (T : Type) `{!Ord T} := {
  cmp_flip : ∀ x y : T, cmp y x = CompOpp (cmp x y);
  cmp_lt_trans : ∀ x y z : T, cmp x y = Lt → cmp y z = Lt → cmp x z = Lt;
  cmp_eq_l : ∀ x y z : T, cmp x y = Eq → cmp x z = cmp y z;
  eqb_cmp : ∀ x y : T, eqb x y = true ↔ cmp x y = Eq;
}.

(** The order on account identifiers and on other integers. *)
#[export] Instance Z_ord : Ord Z := { cmp := Z.compare; eqb := Z.eqb }.
#[export] Instance Z_ord_laws : OrdLaws Z.
Proof.
  split; cbn.
  - intros. apply Z.compare_antisym.
  - intros x y z. rewrite !Z.compare_lt_iff. lia.
  - intros x y z ->%Z.compare_eq. done.
  - intros. rewrite Z.eqb_eq. by rewrite Z.compare_eq_iff.
Qed.

(** ** The standard library's slices and vectors *)

Section vec.
Context {T : Type} `{!Ord T}.

(** The result of a search: [Ok(i)] or [Err(i)]. *)
Inductive SearchResult := Found (i : nat) | Missing (i : nat).

(** The loop of [binary_search_by]: [size] elements from [base] on are left. The
    read is unchecked in the source; an index out of range leaves [base]. *)
Fixpoint binary_search_loop (fuel : nat) (s : list T) (value : T) (size base : nat) : nat :=
  match fuel with
  | O => base
  | S fuel =>
      if (1 <? size)%nat then
        let half := (size / 2)%nat in
        let mid := (base + half)%nat in
        let base :=
          match s !! mid with
          | Some x => match cmp x value with Gt => base | _ => mid end
          | None => base
          end in
        binary_search_loop fuel s value (size - half) base
      else base
  end.

Definition binary_search (s : list T) (value : T) : SearchResult :=
  let size := length s in
  if (size =? 0)%nat then Missing 0
  else
    let base := binary_search_loop size s value size 0 in
    match s !! base with
    | Some x =>
        match cmp x value with
        | Eq => Found base
        | Lt => Missing (base + 1)
        | Gt => Missing base
        end
    | None => Missing base
    end.

(** [Vec::insert] and [Vec::remove], at an index in range. *)
Definition vec_insert (s : list T) (loc : nat) (value : T) : list T :=
  take loc s ++ value :: drop loc s.
Definition vec_remove (s : list T) (loc : nat) : list T :=
  take loc s ++ drop (S loc) s.

(** [slice::sort]: stable, equal elements keep their order. *)
Fixpoint sort_insert (x : T) (l : list T) : list T :=
  match l with
  | [] => [x]
  | y :: l' => match cmp x y with Gt => y :: sort_insert x l' | _ => x :: l end
  end.
Definition sort (l : list T) : list T := foldr sort_insert [] l.

(** [Vec::dedup]: of consecutive equal elements the first is kept. *)
Fixpoint dedup (l : list T) : list T :=
  match l with
  | [] => []
  | x :: l' =>
      match dedup l' with
      | [] => [x]
      | y :: r => if eqb x y then x :: r else x :: y :: r
      end
  end.
End vec.

(** ** The type of the repository *)

Module OrderedSet.
Section ordered_set.
Context {T : Type} `{!Ord T}.

Definition new : list T := [].

Definition from_sorted_set (v : list T) : list T := v.

Definition from (v : list T) : list T := from_sorted_set (dedup (sort v)).

(** [insert] and [remove] return the boolean of the source and the new vector. *)
Definition insert (s : list T) (value : T) : bool * list T :=
  match binary_search s value with
  | Found _ => (false, s)
  | Missing loc => (true, vec_insert s loc value)
  end.

Definition remove (s : list T) (value : T) : bool * list T :=
  match binary_search s value with
  | Found loc => (true, vec_remove s loc)
  | Missing _ => (false, s)
  end.

Definition contains (s : list T) (value : T) : bool :=
  match binary_search s value with Found _ => true | Missing _ => false end.

Definition clear (s : list T) : list T := [].
End ordered_set.
End OrderedSet.

(** Well-formedness: strictly increasing. *)
Definition before {T} `{!Ord T} (x y : T) : Prop := cmp x y = Lt.
Definition sorted {T} `{!Ord T} (s : list T) : Prop := StronglySorted before s.

Section ord_facts.
Context {T : Type} `{!Ord T, !OrdLaws T}.
Implicit Types (x y z v : T) (s l : list T).

Lemma cmp_refl x : cmp x x = Eq.
Proof. pose proof (cmp_flip x x). by destruct (cmp x x). Qed.

Lemma cmp_eq_r x y z : cmp x y = Eq → cmp z x = cmp z y.
Proof. intros H. by rewrite (cmp_flip x z), (cmp_flip y z), (cmp_eq_l x y z H). Qed.

Lemma cmp_eq_sym x y : cmp x y = Eq → cmp y x = Eq.
Proof. intros H. rewrite cmp_flip, H. done. Qed.

Lemma cmp_gt_lt x y : cmp x y = Gt ↔ cmp y x = Lt.
Proof. rewrite (cmp_flip x y). by destruct (cmp x y). Qed.

Lemma before_irrefl x : ¬ before x x.
Proof. unfold before. by rewrite cmp_refl. Qed.

Lemma sorted_cons x s : sorted (x :: s) ↔ Forall (before x) s ∧ sorted s.
Proof. split; [intros H; by inversion H|intros []; by constructor]. Qed.

Lemma sorted_app s l :
  sorted (s ++ l) ↔ sorted s ∧ sorted l ∧ ∀ x y, x ∈ s → y ∈ l → before x y.
Proof.
  induction s as [|a s IH]; cbn.
  { split; [|naive_solver]. intros H. split; [constructor|]. set_solver. }
  rewrite !sorted_cons, IH, Forall_app, !Forall_forall. split.
  - intros ([H1 H2] & H3 & H4 & H5). split_and!; [done..|].
    intros x y [->|Hx]%elem_of_cons Hy; eauto.
  - intros ([H1 H2] & H3 & H4). split_and!; [done| |done|done|].
    + intros y Hy. apply H4; set_solver.
    + intros x y Hx Hy. apply H4; set_solver.
Qed.

Lemma sorted_lookup s i j x y :
  sorted s → s !! i = Some x → s !! j = Some y → (i < j)%nat → before x y.
Proof.
  intros Hs Hi Hj Hij. rewrite <-(take_drop j s) in Hs.
  apply sorted_app in Hs as (_ & _ & Hs). apply Hs.
  - apply list_elem_of_lookup. exists i. by rewrite lookup_take_lt.
  - apply list_elem_of_lookup. exists 0%nat. by rewrite lookup_drop, Nat.add_0_r.
Qed.

Lemma sorted_unique s x y : sorted s → x ∈ s → y ∈ s → cmp x y = Eq → x = y.
Proof.
  intros Hs [i Hi]%list_elem_of_lookup [j Hj]%list_elem_of_lookup Hxy.
  destruct (Nat.lt_trichotomy i j) as [Hij|[->|Hij]].
  - pose proof (sorted_lookup s i j x y Hs Hi Hj Hij). unfold before in *. congruence.
  - congruence.
  - pose proof (sorted_lookup s j i y x Hs Hj Hi Hij) as Hlt.
    unfold before in Hlt. rewrite (cmp_flip x y), Hxy in Hlt. done.
Qed.

(** A strictly increasing vector is determined by its elements. *)
Lemma sorted_perm_eq s l : sorted s → sorted l → s ≡ₚ l → s = l.
Proof.
  revert l. induction s as [|x s IH]; intros [|y l] Hs Hl Hp.
  - done.
  - apply Permutation_nil_l in Hp. done.
  - apply Permutation_nil_r in Hp. done.
  - apply sorted_cons in Hs as [Hx Hs], Hl as [Hy Hl].
    rewrite Forall_forall in Hx, Hy.
    assert (x = y) as <-.
    { assert (x ∈ y :: l) as [?|Hxl]%elem_of_cons by (rewrite <-Hp; set_solver); [done|].
      assert (y ∈ x :: s) as [?|Hys]%elem_of_cons by (rewrite Hp; set_solver); [done|].
      exfalso. apply (before_irrefl x). unfold before in *.
      eapply cmp_lt_trans; [by apply Hx|by apply Hy]. }
    f_equal. apply IH; [done..|]. by apply Permutation_cons_inv in Hp.
Qed.

Lemma sorted_NoDup s : sorted s → NoDup s.
Proof.
  induction s as [|x s IH]; [constructor|]. intros [Hx Hs]%sorted_cons.
  constructor; [|auto]. intros Hin. rewrite Forall_forall in Hx.
  by apply (before_irrefl x), Hx.
Qed.
End ord_facts.

(** ** Bisection *)

Section search.
Context {T : Type} `{!Ord T, !OrdLaws T}.
Implicit Types (x y z v : T) (s l : list T).

(** [at_or_after i s v]: position [i] splits [s] at [v]. *)
Definition splits_at (s : list T) (v : T) (lo hi : nat) : Prop :=
  (∀ j x, s !! j = Some x → (j < lo)%nat → cmp x v = Lt) ∧
  (∀ j x, s !! j = Some x → (hi ≤ j)%nat → cmp x v = Gt).

Lemma splits_at_left s v lo hi mid x :
  sorted s → splits_at s v lo hi → s !! mid = Some x → cmp x v ≠ Gt →
  splits_at s v mid hi.
Proof.
  intros Hs [Hlo Hhi] Hmid Hx. split; [|done]. intros j y Hj Hlt.
  pose proof (sorted_lookup s j mid y x Hs Hj Hmid Hlt) as Hyx.
  destruct (cmp x v) eqn:E; [|eapply cmp_lt_trans; eauto|done].
  by rewrite <-(cmp_eq_r x v y E).
Qed.

Lemma splits_at_right s v lo hi mid x :
  sorted s → splits_at s v lo hi → s !! mid = Some x → cmp x v = Gt →
  splits_at s v lo mid.
Proof.
  intros Hs [Hlo Hhi] Hmid Hx. split; [done|]. intros j y Hj Hle.
  apply cmp_gt_lt. apply cmp_gt_lt in Hx.
  destruct (decide (j = mid)) as [->|]; [congruence|].
  eapply cmp_lt_trans; [done|]. eapply sorted_lookup; eauto. lia.
Qed.

Lemma splits_at_weaken s v lo hi hi' :
  splits_at s v lo hi → (hi ≤ hi')%nat → splits_at s v lo hi'.
Proof. intros [H1 H2] Hle. split; [done|]. intros j x Hj ?. eapply H2; eauto. lia. Qed.

Lemma binary_search_loop_correct fuel s v size base :
  sorted s → (1 ≤ size ≤ S fuel)%nat → (base + size ≤ length s)%nat →
  splits_at s v base (base + size) →
  let b := binary_search_loop fuel s v size base in
  (b < length s)%nat ∧ splits_at s v b (S b).
Proof.
  intros Hs. revert size base.
  induction fuel as [|fuel IH]; intros size base Hsize Hlen Hsp; cbn [binary_search_loop].
  { assert (size = 1%nat) as -> by lia. split; [lia|]. by rewrite Nat.add_1_r in Hsp. }
  destruct (Nat.ltb_spec 1 size) as [Hgt|Hle]; cycle 1.
  { assert (size = 1%nat) as -> by lia. split; [lia|]. by rewrite Nat.add_1_r in Hsp. }
  pose proof (Nat.div_mod_eq size 2) as Hdm.
  pose proof (Nat.mod_upper_bound size 2 ltac:(lia)) as Hmod.
  assert (1 ≤ size / 2)%nat by lia.
  destruct (lookup_lt_is_Some_2 s (base + size / 2)) as [x Hx]; [lia|]. rewrite Hx.
  destruct (cmp x v) eqn:E.
  - apply IH; [lia..|]. eapply splits_at_weaken; [eapply splits_at_left|]; eauto;
      [congruence|lia].
  - apply IH; [lia..|]. eapply splits_at_weaken; [eapply splits_at_left|]; eauto;
      [congruence|lia].
  - apply IH; [lia..|]. eapply splits_at_weaken; [eapply splits_at_right|]; eauto. lia.
Qed.

(** What a search returns on a strictly increasing vector. *)
Lemma binary_search_cases s v :
  sorted s →
  match binary_search s v with
  | Found i => ∃ x, s !! i = Some x ∧ cmp x v = Eq
  | Missing i => (i ≤ length s)%nat ∧ splits_at s v i i
  end.
Proof.
  intros Hs. unfold binary_search.
  destruct (Nat.eqb_spec (length s) 0) as [H0|H0].
  { apply nil_length_inv in H0 as ->. split; [done|]. by split; intros j x; rewrite lookup_nil. }
  destruct (binary_search_loop_correct (length s) s v (length s) 0) as [Hlt Hsp];
    [done|lia|lia| |].
  { split; intros j x Hj; [lia|]. apply lookup_lt_Some in Hj. lia. }
  set (b := binary_search_loop _ _ _ _ _) in *.
  destruct (lookup_lt_is_Some_2 s b Hlt) as [x Hx]. rewrite Hx.
  destruct Hsp as [Hlo Hhi]. destruct (cmp x v) eqn:E.
  - eauto.
  - rewrite Nat.add_1_r. split; [lia|]. split; [|done]. intros j y Hj Hjb.
    destruct (decide (j = b)) as [->|]; [congruence|]. eapply Hlo; eauto. lia.
  - split; [lia|]. split; [done|]. intros j y Hj Hjb.
    destruct (decide (j = b)) as [->|]; [congruence|]. eapply Hhi; eauto. lia.
Qed.

(** Whatever the vector, sorted or not, the index returned is one at which
    [Vec::remove] (resp. [Vec::insert]) does not panic. *)
Lemma binary_search_loop_lt fuel s v size base :
  (1 ≤ size)%nat → (base + size ≤ length s)%nat →
  (binary_search_loop fuel s v size base < length s)%nat.
Proof.
  revert size base. induction fuel as [|fuel IH]; intros size base H1 H2; cbn [binary_search_loop]; [lia|].
  destruct (Nat.ltb_spec 1 size) as [Hgt|]; [|lia].
  pose proof (Nat.div_lt size 2 ltac:(lia) ltac:(lia)).
  destruct (s !! (base + size / 2)%nat) as [x|]; [destruct (cmp x v)|]; apply IH; lia.
Qed.

Lemma binary_search_in_range s v :
  match binary_search s v with
  | Found i => (i < length s)%nat
  | Missing i => (i ≤ length s)%nat
  end.
Proof.
  unfold binary_search. destruct (Nat.eqb_spec (length s) 0) as [|H0]; [lia|].
  pose proof (binary_search_loop_lt (length s) s v (length s) 0 ltac:(lia) ltac:(lia)).
  destruct (s !! _); [destruct (cmp _ v)|]; lia.
Qed.
End search.

(** ** The set operations *)

(** [v] has an equal in [s]. *)
Definition has_equal {T} `{!Ord T} (v : T) (s : list T) : Prop :=
  ∃ x, x ∈ s ∧ cmp x v = Eq.

Section set_facts.
Context {T : Type} `{!Ord T, !OrdLaws T}.
Implicit Types (x y z v : T) (s l : list T).

Lemma splits_at_no_equal s v i : splits_at s v i i → ¬ has_equal v s.
Proof.
  intros [Hlo Hhi] (x & [j Hj]%list_elem_of_lookup & Hx).
  destruct (decide (j < i)%nat).
  - rewrite (Hlo j x Hj) in Hx; done.
  - rewrite (Hhi j x Hj) in Hx; [done|lia].
Qed.

Lemma found_has_equal s v i x : s !! i = Some x → cmp x v = Eq → has_equal v s.
Proof. intros Hi Hx. exists x. split; [|done]. by eapply list_elem_of_lookup_2. Qed.

Lemma contains_has_equal s v :
  sorted s → OrderedSet.contains s v = true ↔ has_equal v s.
Proof.
  intros Hs. unfold OrderedSet.contains. pose proof (binary_search_cases s v Hs) as H.
  destruct (binary_search s v) as [i|i].
  - destruct H as (x & ? & ?). split; [|done]. intros _. by eapply found_has_equal.
  - destruct H as [_ H]. split; [done|]. intros. by destruct (splits_at_no_equal s v i H).
Qed.

(** Inserting an element with an equal in the set is refused and changes nothing. *)
Lemma insert_present s v :
  sorted s → has_equal v s → OrderedSet.insert s v = (false, s).
Proof.
  intros Hs Hin. unfold OrderedSet.insert.
  pose proof (binary_search_cases s v Hs) as H.
  destruct (binary_search s v) as [i|i]; [done|]. destruct H as [_ H].
  by destruct (splits_at_no_equal s v i H).
Qed.

(** Inserting a new element puts it in its place. *)
Lemma insert_absent s v :
  sorted s → ¬ has_equal v s →
  ∃ s', OrderedSet.insert s v = (true, s') ∧ sorted s' ∧ s' ≡ₚ v :: s.
Proof.
  intros Hs Hin. unfold OrderedSet.insert.
  pose proof (binary_search_cases s v Hs) as H.
  destruct (binary_search s v) as [i|i].
  { destruct H as (x & ? & ?). destruct Hin. by eapply found_has_equal. }
  destruct H as [Hi [Hlo Hhi]]. eexists. split; [done|].
  unfold vec_insert. split.
  - rewrite <-(take_drop i s) in Hs. apply sorted_app in Hs as (H1 & H2 & H3).
    apply sorted_app. split_and!; [done| |].
    + apply sorted_cons. split; [|done]. apply Forall_forall. intros y Hy.
      apply list_elem_of_lookup in Hy as [j Hj]. rewrite lookup_drop in Hj.
      apply cmp_gt_lt. eapply Hhi; eauto. lia.
    + intros x y Hx [->|Hy]%elem_of_cons; [|by apply H3].
      apply list_elem_of_lookup in Hx as [j Hj].
      apply lookup_take_Some in Hj as [Hj ?]. by eapply Hlo.
  - rewrite <-(take_drop i s) at 3. by rewrite Permutation_middle.
Qed.

(** Removing. *)
Lemma remove_absent s v :
  sorted s → ¬ has_equal v s → OrderedSet.remove s v = (false, s).
Proof.
  intros Hs Hin. unfold OrderedSet.remove.
  pose proof (binary_search_cases s v Hs) as H.
  destruct (binary_search s v) as [i|i]; [|done].
  destruct H as (x & ? & ?). destruct Hin. by eapply found_has_equal.
Qed.

Lemma remove_present s v :
  sorted s → has_equal v s →
  ∃ x s', OrderedSet.remove s v = (true, s') ∧ cmp x v = Eq ∧ sorted s' ∧ s ≡ₚ x :: s'.
Proof.
  intros Hs Hin. unfold OrderedSet.remove.
  pose proof (binary_search_cases s v Hs) as H.
  destruct (binary_search s v) as [i|i]; cycle 1.
  { destruct H as [_ H]. by destruct (splits_at_no_equal s v i H). }
  destruct H as (x & Hi & Hx). exists x, (vec_remove s i). unfold vec_remove.
  pose proof (take_drop_middle s i x Hi) as Hsplit. split_and!; [done..| |].
  - rewrite <-Hsplit in Hs. apply sorted_app in Hs as (H1 & H2 & H3).
    apply sorted_cons in H2 as [_ H2]. apply sorted_app. split_and!; [done..|].
    intros y z Hy Hz. apply H3; [done|set_solver].
  - rewrite <-Hsplit at 1. by rewrite Permutation_middle.
Qed.

(** ** [from] *)

Lemma sort_insert_perm x l : sort_insert x l ≡ₚ x :: l.
Proof.
  induction l as [|y l IH]; cbn; [done|]. destruct (cmp x y); try done.
  rewrite IH. apply Permutation_swap.
Qed.

Lemma sort_perm l : sort l ≡ₚ l.
Proof. induction l as [|x l IH]; cbn; [done|]. by rewrite sort_insert_perm, IH. Qed.

Definition not_after (x y : T) : Prop := cmp x y ≠ Gt.

Lemma not_after_trans x y z : not_after x y → not_after y z → not_after x z.
Proof.
  unfold not_after. intros Hxy Hyz. destruct (cmp x y) eqn:E1; [|clear Hxy|done].
  - by rewrite (cmp_eq_l x y z E1).
  - destruct (cmp y z) eqn:E2; [|clear Hyz|done].
    + by rewrite <-(cmp_eq_r y z x E2), E1.
    + by rewrite (cmp_lt_trans x y z).
Qed.

Lemma sort_insert_ordered x l :
  StronglySorted not_after l → StronglySorted not_after (sort_insert x l).
Proof.
  induction l as [|y l IH]; cbn; intros Hl; [repeat constructor|].
  inversion Hl as [|? ? Hl' Hy]; subst. rewrite Forall_forall in Hy.
  destruct (cmp x y) eqn:E.
  3:{ constructor; [auto|]. apply Forall_forall. intros z.
    rewrite sort_insert_perm. intros [->|Hz]%elem_of_cons; [|auto].
    unfold not_after. apply cmp_gt_lt in E. by rewrite E. }
  all: constructor; [done|]; apply Forall_forall; intros z Hz%elem_of_cons;
    destruct Hz as [->|Hz]; [unfold not_after; by rewrite E|];
    apply (not_after_trans x y); [unfold not_after; by rewrite E|auto].
Qed.

Lemma sort_ordered l : StronglySorted not_after (sort l).
Proof. induction l as [|x l IH]; cbn; [constructor|]. by apply sort_insert_ordered. Qed.

Lemma dedup_sublist l : dedup l `sublist_of` l.
Proof.
  induction l as [|x l IH]; cbn; [done|].
  destruct (dedup l) as [|y r] eqn:E; [by apply sublist_skip, sublist_nil_l|].
  destruct (eqb x y).
  - apply sublist_skip. etrans; [|exact IH]. by apply sublist_cons.
  - by apply sublist_skip.
Qed.

Lemma dedup_has_equal l v : has_equal v l → has_equal v (dedup l).
Proof.
  induction l as [|x l IH]; cbn; [done|]. intros (z & Hz & Hzv).
  apply elem_of_cons in Hz as [->|Hz].
  - exists x. split; [|done]. destruct (dedup l) as [|y r]; [set_solver|].
    destruct (eqb x y); set_solver.
  - destruct IH as (z' & Hz' & Hzv'); [by exists z|].
    destruct (dedup l) as [|y r]; [set_solver|]. destruct (eqb x y) eqn:E.
    + apply eqb_cmp in E. apply elem_of_cons in Hz' as [->|Hz'].
      * exists x. split; [set_solver|]. by rewrite (cmp_eq_l x y v E).
      * exists z'. split; [set_solver|done].
    + exists z'. split; [set_solver|done].
Qed.

Lemma dedup_sorted l : StronglySorted not_after l → sorted (dedup l).
Proof.
  induction l as [|x l IH]; cbn; intros Hl; [constructor|].
  inversion Hl as [|? ? Hl' Hx]; subst. specialize (IH Hl').
  rewrite Forall_forall in Hx.
  pose proof (dedup_sublist l) as Hsub.
  assert (∀ z, z ∈ dedup l → not_after x z) as Hx'.
  { intros z Hz. apply Hx. by eapply elem_of_sublist. }
  destruct (dedup l) as [|y r]; [by apply sorted_cons|].
  apply sorted_cons in IH as [Hy Hr].
  destruct (eqb x y) eqn:E.
  - apply eqb_cmp in E. apply sorted_cons. split; [|done].
    apply (Forall_impl _ _ _ Hy). intros z. unfold before. by rewrite (cmp_eq_l x y z E).
  - assert (before x y) as Hxy.
    { unfold before. pose proof (Hx' y ltac:(set_solver)) as Hn. unfold not_after in Hn.
      destruct (cmp x y) eqn:E'; [|done..]. apply eqb_cmp in E'. congruence. }
    apply sorted_cons. split; [|by apply sorted_cons]. constructor; [done|].
    apply (Forall_impl _ _ _ Hy). intros z. by apply cmp_lt_trans.
Qed.

(** Any vector becomes a set with the same members up to [==]. *)
Lemma from_sorted l : sorted (OrderedSet.from l).
Proof. apply dedup_sorted, sort_ordered. Qed.

Lemma from_members l x : x ∈ OrderedSet.from l → x ∈ l.
Proof.
  intros Hx. rewrite <-(sort_perm l). eapply elem_of_sublist; [apply Hx|].
  apply dedup_sublist.
Qed.

Lemma from_has_equal l v : has_equal v l ↔ has_equal v (OrderedSet.from l).
Proof.
  split.
  - intros (x & Hx & Hv). apply dedup_has_equal. exists x. by rewrite sort_perm.
  - intros (x & Hx & Hv). exists x. split; [|done]. by apply from_members.
Qed.

(** A vector that is already a set is left as it is. *)
Lemma sort_insert_sorted x s : Forall (before x) s → sort_insert x s = x :: s.
Proof. intros H. destruct s as [|y s]; [done|]. inversion H; subst. cbn. by rewrite H2. Qed.

Lemma sort_sorted s : sorted s → sort s = s.
Proof.
  induction s as [|x s IH]; [done|]. intros [Hx Hs]%sorted_cons.
  change (sort_insert x (sort s) = x :: s). rewrite IH by done.
  by apply sort_insert_sorted.
Qed.

Lemma dedup_id s : sorted s → dedup s = s.
Proof.
  induction s as [|x s IH]; [done|]. intros [Hx Hs]%sorted_cons. cbn.
  rewrite IH by done. destruct s as [|y s]; [done|]. inversion Hx; subst.
  destruct (eqb x y) eqn:E; [|done]. apply eqb_cmp in E. unfold before in *. congruence.
Qed.

Lemma from_id s : sorted s → OrderedSet.from s = s.
Proof.
  intros Hs. unfold OrderedSet.from, OrderedSet.from_sorted_set.
  by rewrite sort_sorted, dedup_id.
Qed.
End set_facts.
