(* ===== verification/Frame.v ===== *)
(** * What the pallets call outside the repository

    Substrate's traits and types are parameters of the model: a class of
    operations, and a second class with the documented behaviour the theorems rely
    on. [Reference.v] gives concrete instances of all of them. *)

From S2P Require Import Prelude.

(** Identifiers and quantities of the runtime. [AccountId] is an [H160] (a [u64] in
    the tests), read as the number its big-endian bytes denote, which preserves [Eq]
    and [Ord]; a [Perbill] is its number of parts per billion. *)
Notation AccountId := Z (only parsing).
Notation Balance := Z (only parsing).
Notation RoundIndex := Z (only parsing).
Notation RewardPoint := Z (only parsing).
Notation Perbill := Z (only parsing).

(** [sp_runtime::DispatchError]: a bad origin, an error of the pallet itself, or one
    that a called pallet returned. *)
Inductive DispatchError (Error : Type) : Type :=
| BadOrigin
| Module_ (e : Error)
| External (reason : string).
Arguments BadOrigin {Error}.
Arguments Module_ {Error} _.
Arguments External {Error} _.

(** [frame_system]'s origins and its three checks. *)
Class FrameOrigin (Origin : Type) := {
  ensure_signed : Origin → option AccountId;
  ensure_root : Origin → bool;
  ensure_none : Origin → bool;
}.

(** [Currency] and [ReservableCurrency] of [frame_support], with the state of the
    pallet that implements them. A [PositiveImbalance] is the amount it holds;
    dropping it adds the amount to the total issuance. *)
Class Currency (Cur : Type) := {
  free_balance : Cur → AccountId → Balance;
  reserved_balance : Cur → AccountId → Balance;
  total_issuance : Cur → Balance;
  minimum_balance : Balance;
  reserve : Cur → AccountId → Balance → Cur + string;
  unreserve : Cur → AccountId → Balance → Cur * Balance;
  deposit_into_existing : Cur → AccountId → Balance → (Cur * Balance) + string;
  drop_positive_imbalance : Cur → Balance → Cur;
}.

(** What the documentation of the two traits promises, for the amounts a [u128] can
    hold: [reserve] moves exactly the amount from free to reserved or fails;
    [unreserve] moves as much as there is back and returns the rest; a deposit adds
    exactly its amount to the free balance; none of them touches another account.
    [cur_valid] is the currency's own invariant: all balances of distinct accounts
    together fit in the total issuance, a [u128]. *)
Class CurrencyLaws (Cur : Type) `{!Currency Cur} := {
  cur_valid : Cur → Prop;
  minimum_balance_nonneg : 0 <= minimum_balance;
  balances_nonneg c a : cur_valid c → 0 <= free_balance c a ∧ 0 <= reserved_balance c a;
  balances_issued c (l : list AccountId) :
    cur_valid c → NoDup l →
    zsum (λ a, free_balance c a + reserved_balance c a) l <= total_issuance c;
  issuance_range c : cur_valid c → 0 <= total_issuance c < U128;
  reserve_valid c a x c' :
    cur_valid c → 0 <= x → reserve c a x = inl c' → cur_valid c';
  reserve_reserved c a x c' b :
    cur_valid c → 0 <= x → reserve c a x = inl c' →
    reserved_balance c' b = reserved_balance c b + (if decide (b = a) then x else 0);
  reserve_free c a x c' b :
    cur_valid c → 0 <= x → reserve c a x = inl c' →
    free_balance c' b = free_balance c b - (if decide (b = a) then x else 0);
  unreserve_valid c a x : cur_valid c → 0 <= x → cur_valid (unreserve c a x).1;
  unreserve_reserved c a x b :
    cur_valid c → 0 <= x →
    reserved_balance (unreserve c a x).1 b =
      reserved_balance c b - (if decide (b = a) then x `min` reserved_balance c a else 0);
  unreserve_free c a x b :
    cur_valid c → 0 <= x →
    free_balance (unreserve c a x).1 b =
      free_balance c b + (if decide (b = a) then x `min` reserved_balance c a else 0);
  deposit_then_drop_valid c a x c' imb :
    cur_valid c → 0 <= x → deposit_into_existing c a x = inl (c', imb) →
    cur_valid (drop_positive_imbalance c' imb);
  deposit_imbalance c a x c' imb :
    cur_valid c → 0 <= x → deposit_into_existing c a x = inl (c', imb) → imb = x;
  deposit_reserved c a x c' imb b :
    cur_valid c → 0 <= x → deposit_into_existing c a x = inl (c', imb) →
    reserved_balance (drop_positive_imbalance c' imb) b = reserved_balance c b;
  deposit_free c a x c' imb b :
    cur_valid c → 0 <= x → deposit_into_existing c a x = inl (c', imb) →
    free_balance (drop_positive_imbalance c' imb) b =
      free_balance c b + (if decide (b = a) then x else 0);
}.

(** [Perbill] of [sp_arithmetic]: multiplication with a balance, the approximation of
    a fraction, and construction from parts. *)
Definition PERBILL_ACCURACY : Z := 1000000000.

Definition is_perbill (p : Z) : Prop := 0 <= p <= PERBILL_ACCURACY.

#[export] Instance is_perbill_dec p : Decision (is_perbill p).
Proof. unfold is_perbill. apply _. Defined.

Class PerbillOps := {
  perbill_mul : Perbill → Balance → Balance;
  from_rational_approximation : Z → Z → Perbill;
  from_parts : Z → Perbill;
}.

Class PerbillLaws `{!PerbillOps} := {
  from_parts_id p : 0 <= p <= PERBILL_ACCURACY → from_parts p = p;
  from_rational_range p q :
    0 <= p → 0 <= q → 0 <= from_rational_approximation p q <= PERBILL_ACCURACY;
  perbill_mul_range p x :
    0 <= p <= PERBILL_ACCURACY → 0 <= x → 0 <= perbill_mul p x <= x;
  perbill_mul_mono p p' x :
    0 <= p → p <= p' → p' <= PERBILL_ACCURACY → 0 <= x →
    perbill_mul p x <= perbill_mul p' x;
}.

(** The approximation of a fraction "always rounds down", and the product with a balance is
    rounded: it exceeds the exact one by less than one unit. *)
Class PerbillAccuracy `{!PerbillOps} := {
  from_rational_floor p q :
    0 <= p → 0 <= q → (q `max` 1) * from_rational_approximation p q <= p * PERBILL_ACCURACY;
  perbill_mul_accurate p x :
    is_perbill p → 0 <= x →
    PERBILL_ACCURACY * perbill_mul p x < p * x + PERBILL_ACCURACY;
}.

(** [sort_unstable_by] of the standard library promises a sorted permutation, and
    leaves the order of equal elements open. *)
Class UnstableSort :=
  sort_unstable_by : ∀ {A : Type}, (A → A → comparison) → list A → list A.

Class UnstableSortLaws `{!UnstableSort} := {
  sort_unstable_perm {A} (key : A → Z) l :
    sort_unstable_by (λ x y, key x ?= key y) l ≡ₚ l;
  sort_unstable_sorted {A} (key : A → Z) l :
    StronglySorted (λ x y, key x <= key y) (sort_unstable_by (λ x y, key x ?= key y) l);
}.

(** The order in which the entries of a storage map are visited is the order of the
    hashed keys. *)
Class IterationOrder :=
  iteration_order : ∀ {V : Type}, RoundIndex → list (AccountId * V) → list (AccountId * V).

Class IterationOrderLaws `{!IterationOrder} :=
  iteration_order_perm : ∀ {V : Type} (r : RoundIndex) (l : list (AccountId * V)),
    iteration_order r l ≡ₚ l.
