(* ===== verification/StakeTypes.v ===== *)
(** * The data of the stake pallet ([src/pallets/stake/src/lib.rs])

    Bonds, validators (candidates) and nominators, with the methods of their [impl]
    blocks. A method with [&mut self] returns its result and the new value. *)

From S2P Require Import Prelude OrderedSet Frame.

(** [Bond<AccountId, Balance>], also used as [Bond<AccountId, RoundIndex>]. *)
Record Bond := { owner : AccountId; amount : Z }.

Definition Bond_from_owner (owner : AccountId) : Bond :=
  {| owner := owner; amount := 0 |}.

Definition Bond_cmp (self other : Bond) : comparison := cmp (owner self) (owner other).

Definition Bond_eq (self other : Bond) : bool := eqb (owner self) (owner other).

#[export] Instance Bond_ord : Ord Bond := { cmp := Bond_cmp; eqb := Bond_eq }.

Inductive ValidatorStatus :=
| Active
| Idle
| Leaving (round : RoundIndex).

Definition ValidatorStatus_default : ValidatorStatus := Active.

(** [filter_map] with a captured [Option]: drop the bonds of [who], remember the
    amount of the last one dropped. *)
Fixpoint extract_bond (who : AccountId) (l : list Bond) (found : option Z) :
    option Z * list Bond :=
  match l with
  | [] => (found, [])
  | x :: l =>
      if owner x =? who then extract_bond who l (Some (amount x))
      else let '(found, l) := extract_bond who l found in (found, x :: l)
  end.

(** [ValidatorSnapshot] *)
Module ValidatorSnapshot.
Record t := Build {
  fee : Perbill;
  bond : Balance;
  nominators : list Bond;
  total : Balance;
}.

Definition default : t := {| fee := 0; bond := 0; nominators := []; total := 0 |}.
End ValidatorSnapshot.

(** [Validator] *)
Module Validator.
Record t := Build {
  id : AccountId;
  fee : Perbill;
  bond : Balance;
  nominators : list Bond;
  total : Balance;
  state : ValidatorStatus;
}.

Definition set_bond_total (self : t) (b tot : Balance) : t :=
  {| id := id self; fee := fee self; bond := b; nominators := nominators self;
     total := tot; state := state self |}.

Definition set_nominators_total (self : t) (noms : list Bond) (tot : Balance) : t :=
  {| id := id self; fee := fee self; bond := bond self; nominators := noms;
     total := tot; state := state self |}.

Definition set_state (self : t) (s : ValidatorStatus) : t :=
  {| id := id self; fee := fee self; bond := bond self; nominators := nominators self;
     total := total self; state := s |}.

Definition new (id : AccountId) (fee : Perbill) (bond : Balance) : t :=
  {| id := id; fee := fee; bond := bond; nominators := OrderedSet.new;
     total := bond; state := ValidatorStatus_default |}.

Definition is_active (self : t) : bool :=
  match state self with Active => true | _ => false end.

Definition is_leaving (self : t) : bool :=
  match state self with Leaving _ => true | _ => false end.

Definition bond_more (self : t) (more : Balance) : t :=
  set_bond_total self (bond self ⊕ more) (total self ⊕ more).

Definition bond_less (self : t) (less : Balance) : option Balance * t :=
  if bond self >? less then
    let self := set_bond_total self (bond self ⊖ less) (total self ⊖ less) in
    (Some (bond self), self)
  else (None, self).

(** The [filter_map] of [rm_nominator], which also decrements [total]. *)
Fixpoint rm_nominator_loop (nominator : AccountId) (l : list Bond) (total : Balance) :
    Balance * list Bond :=
  match l with
  | [] => (total, [])
  | x :: l =>
      if owner x =? nominator then rm_nominator_loop nominator l (total ⊖ amount x)
      else let '(total, l) := rm_nominator_loop nominator l total in (total, x :: l)
  end.

Definition rm_nominator (self : t) (nominator : AccountId) : Balance * t :=
  let '(tot, noms) := rm_nominator_loop nominator (nominators self) (total self) in
  (tot, set_nominators_total self (OrderedSet.from noms) tot).

Definition add_nominator (self : t) (owner : AccountId) (amount : Balance) : Balance * t :=
  let '(_, noms) :=
    OrderedSet.insert (nominators self) {| owner := owner; amount := amount |} in
  let self := set_nominators_total self noms (total self ⊕ amount) in
  (total self, self).

(** The [map] of [update_nominator], which also sets [difference]. *)
Fixpoint update_nominator_loop (nominator : AccountId) (new_amount : Balance)
    (l : list Bond) (difference : Balance) : Balance * list Bond :=
  match l with
  | [] => (difference, [])
  | x :: l =>
      if owner x =? nominator then
        let '(difference, l) :=
          update_nominator_loop nominator new_amount l (new_amount ⊖ amount x) in
        (difference, {| owner := owner x; amount := new_amount |} :: l)
      else
        let '(difference, l) := update_nominator_loop nominator new_amount l difference in
        (difference, x :: l)
  end.

Definition update_nominator (self : t) (nominator : AccountId) (amount : Balance) :
    Balance * t :=
  let '(difference, noms) :=
    update_nominator_loop nominator amount (nominators self) 0 in
  let self :=
    set_nominators_total self (OrderedSet.from noms) (total self ⊕ difference) in
  (total self, self).

(** The loop of [inc_nominator] and [dec_nominator]: the first bond of [nominator] is
    changed by [f]; [None] when there is none. *)
Fixpoint change_first (nominator : AccountId) (f : Balance → Balance) (l : list Bond) :
    option (list Bond) :=
  match l with
  | [] => None
  | x :: l =>
      if owner x =? nominator then Some ({| owner := owner x; amount := f (amount x) |} :: l)
      else match change_first nominator f l with
           | Some l => Some (x :: l)
           | None => None
           end
  end.

Definition inc_nominator (self : t) (nominator : AccountId) (more : Balance) : t :=
  match change_first nominator (λ amount, amount ⊕ more) (nominators self) with
  | Some noms => set_nominators_total self noms (total self ⊕ more)
  | None => self
  end.

Definition dec_nominator (self : t) (nominator : AccountId) (less : Balance) : t :=
  match change_first nominator (λ amount, amount ⊖ less) (nominators self) with
  | Some noms => set_nominators_total self noms (total self ⊖ less)
  | None => self
  end.

Definition go_offline (self : t) : t := set_state self Idle.

Definition go_online (self : t) : t := set_state self Active.

Definition leave_candidates (self : t) (round : RoundIndex) : t :=
  set_state self (Leaving round).

(** [impl From<Validator> for ValidatorSnapshot] *)
Definition into_snapshot (other : t) : ValidatorSnapshot.t :=
  {| ValidatorSnapshot.fee := fee other;
     ValidatorSnapshot.bond := bond other;
     ValidatorSnapshot.nominators := nominators other;
     ValidatorSnapshot.total := total other |}.
End Validator.

(** [Nominator] *)
Module Nominator.
Record t := Build {
  nominations : list Bond;
  total : Balance;
}.

Definition new (validator : AccountId) (nomination : Balance) : t :=
  {| nominations := OrderedSet.from [{| owner := validator; amount := nomination |}];
     total := nomination |}.

Definition add_nomination (self : t) (bond : Bond) : bool * t :=
  let amt := amount bond in
  let '(inserted, noms) := OrderedSet.insert (nominations self) bond in
  if inserted then (true, {| nominations := noms; total := total self ⊕ amt |})
  else (false, {| nominations := noms; total := total self |}).

Definition rm_nomination (self : t) (validator : AccountId) : option Balance * t :=
  let '(amt, noms) := extract_bond validator (nominations self) None in
  match amt with
  | Some balance =>
      let self := {| nominations := OrderedSet.from noms; total := total self ⊖ balance |} in
      (Some (total self), self)
  | None => (None, self)
  end.

Definition swap_nomination (self : t) (old new : AccountId) :
    option (Balance * Balance) * t :=
  let '(amt, noms) := extract_bond old (nominations self) None in
  match amt with
  | Some swapped_amt =>
      let '(old_new_amt, noms2) := extract_bond new (nominations self) None in
      match old_new_amt with
      | Some old_amt =>
          let new_amt := old_amt ⊕ swapped_amt in
          let '(_, noms2) :=
            OrderedSet.insert (OrderedSet.from noms2) {| owner := new; amount := new_amt |} in
          (Some (swapped_amt, new_amt), {| nominations := noms2; total := total self |})
      | None =>
          let '(_, noms) :=
            OrderedSet.insert (OrderedSet.from noms)
              {| owner := new; amount := swapped_amt |} in
          (Some (swapped_amt, swapped_amt), {| nominations := noms; total := total self |})
      end
  | None => (None, self)
  end.

(** The loop of [inc_nomination]. *)
Fixpoint inc_nomination_loop (validator : AccountId) (more : Balance) (l : list Bond) :
    option (Balance * list Bond) :=
  match l with
  | [] => None
  | x :: l =>
      if owner x =? validator then
        let new_amount := amount x ⊕ more in
        Some (new_amount, {| owner := owner x; amount := new_amount |} :: l)
      else match inc_nomination_loop validator more l with
           | Some (a, l) => Some (a, x :: l)
           | None => None
           end
  end.

Definition inc_nomination (self : t) (validator : AccountId) (more : Balance) :
    option Balance * t :=
  match inc_nomination_loop validator more (nominations self) with
  | Some (a, noms) => (Some a, {| nominations := noms; total := total self ⊕ more |})
  | None => (None, self)
  end.

(** The loop of [dec_nomination]: [Some(None)] when the bond is not larger. *)
Fixpoint dec_nomination_loop (validator : AccountId) (less : Balance) (l : list Bond) :
    option (option (Balance * list Bond)) :=
  match l with
  | [] => None
  | x :: l =>
      if owner x =? validator then
        if amount x >? less then
          let new_amount := amount x ⊖ less in
          Some (Some (new_amount, {| owner := owner x; amount := new_amount |} :: l))
        else Some None
      else match dec_nomination_loop validator less l with
           | Some (Some (a, l)) => Some (Some (a, x :: l))
           | Some None => Some None
           | None => None
           end
  end.

Definition dec_nomination (self : t) (validator : AccountId) (less : Balance) :
    option (option Balance) * t :=
  match dec_nomination_loop validator less (nominations self) with
  | Some (Some (a, noms)) =>
      (Some (Some a), {| nominations := noms; total := total self ⊖ less |})
  | Some None => (Some None, self)
  | None => (None, self)
  end.
End Nominator.

(** The constants of the pallet's [Config]. *)
Class StakeConfig := {
  BlocksPerRound : Z;
  BondDuration : RoundIndex;
  MaxValidators : Z;
  MaxNominatorsPerValidator : Z;
  MaxValidatorsPerNominator : Z;
  MaxFee : Perbill;
  MinValidatorStk : Balance;
  MinNomination : Balance;
  MinNominatorStk : Balance;
}.

(** [SetMonetaryPolicyOrigin: EnsureOrigin] of the [Config]. *)
Class MonetaryPolicyOrigin (Origin : Type) :=
  SetMonetaryPolicyOrigin : Origin → bool.
