(* ===== verification/BondMap.v ===== *)
(** * Sets of bonds as finite maps

    A sorted vector of bonds represents the finite map from owners to amounts. Every
    operation of [OrderedSet] and of the methods of [StakeTypes.v] is described here by
    its effect on that map; later files reason about maps only. *)

From S2P Require Import Prelude OrderedSet Frame StakeTypes.

Definition bond_map (l : list Bond) : gmap Z Z :=
  list_to_map ((λ b, (owner b, amount b)) <$> l).
#[global] Arguments bond_map : simpl never.

(** The bonds of the other owners. *)
Definition without (who : AccountId) (l : list Bond) : list Bond :=
  filter (λ b, owner b ≠ who) l.

#[export] Instance Bond_ord_laws : OrdLaws Bond.
Proof.
  split; intros; change (cmp ?x ?y) with (cmp (owner x) (owner y)) in *;
    change (eqb ?x ?y) with (eqb (owner x) (owner y)) in *.
  - apply cmp_flip.
  - by eapply cmp_lt_trans.
  - by apply cmp_eq_l.
  - apply eqb_cmp.
Qed.

Lemma Bond_cmp_Eq (x y : Bond) : cmp x y = Eq ↔ owner x = owner y.
Proof. cbn. unfold Bond_cmp. cbn. apply Z.compare_eq_iff. Qed.

Lemma Bond_before (x y : Bond) : before x y ↔ owner x < owner y.
Proof. unfold before. cbn. unfold Bond_cmp. cbn. apply Z.compare_lt_iff. Qed.

(** ** The representation *)

Lemma bond_map_cons b l : bond_map (b :: l) = <[owner b:=amount b]> (bond_map l).
Proof. done. Qed.

Lemma sorted_owners_NoDup l : sorted l → NoDup (owner <$> l).
Proof.
  induction l as [|x l IH]; [constructor|]. intros [Hx Hl]%sorted_cons.
  rewrite fmap_cons. constructor; [|auto]. intros (y & Hy & Hin)%list_elem_of_fmap.
  rewrite Forall_forall in Hx. specialize (Hx y Hin). rewrite Bond_before in Hx. lia.
Qed.

Lemma sorted_pairs_NoDup l : sorted l → NoDup ((λ b, (owner b, amount b)) <$> l).*1.
Proof. intros Hl. rewrite <-list_fmap_compose. by apply sorted_owners_NoDup. Qed.

Lemma bond_map_perm l l' :
  NoDup (owner <$> l) → l ≡ₚ l' → bond_map l = bond_map l'.
Proof.
  intros Hnd Hp. unfold bond_map. apply list_to_map_proper; [|by rewrite Hp].
  by rewrite <-list_fmap_compose.
Qed.

Lemma bond_map_elem l a x :
  sorted l → bond_map l !! a = Some x ↔ {| owner := a; amount := x |} ∈ l.
Proof.
  intros Hl. unfold bond_map. rewrite <-elem_of_list_to_map by by apply sorted_pairs_NoDup.
  rewrite list_elem_of_fmap. split.
  - intros ([o v] & [= -> ->] & ?). done.
  - intros H. by exists {| owner := a; amount := x |}.
Qed.

Lemma bond_map_None l a : bond_map l !! a = None ↔ a ∉ owner <$> l.
Proof.
  unfold bond_map. rewrite <-not_elem_of_list_to_map.
  by rewrite <-list_fmap_compose.
Qed.

Lemma has_equal_bond_map l v : has_equal v l ↔ is_Some (bond_map l !! owner v).
Proof.
  destruct (bond_map l !! owner v) as [x|] eqn:E.
  - split; [by eexists|]. intros _.
    assert (owner v ∈ owner <$> l) as (b & Hb & Hin)%list_elem_of_fmap.
    { destruct (decide (owner v ∈ owner <$> l)) as [|Hn]; [done|].
      apply bond_map_None in Hn. congruence. }
    exists b. split; [done|]. by apply Bond_cmp_Eq.
  - split; [|intros []; done]. intros (b & Hin & Hb%Bond_cmp_Eq).
    apply bond_map_None in E. destruct E. apply list_elem_of_fmap. by exists b.
Qed.

(** Two sets with the same map are the same vector. *)
Lemma bond_map_inj l l' : sorted l → sorted l' → bond_map l = bond_map l' → l = l'.
Proof.
  intros Hl Hl' H. apply sorted_perm_eq; [done..|].
  apply NoDup_Permutation; [by apply sorted_NoDup..|]. intros [a x].
  by rewrite <-!bond_map_elem, H.
Qed.

Lemma bond_sum_map l : sorted l → zsum amount l = map_zsum (λ x, x) (bond_map l).
Proof.
  intros Hl. unfold map_zsum, bond_map.
  rewrite map_to_list_to_map by by apply sorted_pairs_NoDup.
  clear Hl. induction l as [|b l IH]; [done|]. rewrite fmap_cons, !zsum_cons. cbn. lia.
Qed.

Lemma bond_map_size l : sorted l → size (bond_map l) = length l.
Proof.
  intros Hl. unfold bond_map. rewrite map_size_list_to_map by by apply sorted_pairs_NoDup.
  by rewrite length_fmap.
Qed.

(** ** Set operations *)

Lemma insert_bond l b :
  sorted l →
  let '(inserted, l') := OrderedSet.insert l b in
  sorted l' ∧
  match bond_map l !! owner b with
  | Some _ => inserted = false ∧ l' = l
  | None => inserted = true ∧ bond_map l' = <[owner b:=amount b]> (bond_map l) ∧ l' ≡ₚ b :: l
  end.
Proof.
  intros Hl. destruct (bond_map l !! owner b) as [x|] eqn:E.
  - rewrite insert_present; [done..|]. apply has_equal_bond_map. by eexists.
  - destruct (insert_absent l b) as (l' & -> & Hl' & Hp); [done| |].
    + rewrite has_equal_bond_map, E. by intros [].
    + split_and!; [done..| |done]. rewrite <-bond_map_cons. apply bond_map_perm; [|done].
      by apply sorted_owners_NoDup.
Qed.

Lemma remove_bond l b :
  sorted l →
  let '(removed, l') := OrderedSet.remove l b in
  sorted l' ∧ bond_map l' = delete (owner b) (bond_map l) ∧
  (removed = false → l' = l).
Proof.
  intros Hl. destruct (bond_map l !! owner b) as [x|] eqn:E.
  - destruct (remove_present l b) as (y & l' & -> & Hy%Bond_cmp_Eq & Hl' & Hp); [done| |].
    { apply has_equal_bond_map. by eexists. }
    split_and!; [done| |done].
    rewrite (bond_map_perm l (y :: l')); [|by apply sorted_owners_NoDup|done].
    rewrite bond_map_cons, Hy. symmetry. apply delete_insert_id.
    apply bond_map_None. pose proof (sorted_owners_NoDup l Hl) as Hnd.
    rewrite Hp, fmap_cons in Hnd. rewrite <-Hy. by inversion Hnd.
  - rewrite remove_absent; [|done|].
    + split_and!; [done| |done]. by rewrite delete_id.
    + rewrite has_equal_bond_map, E. by intros [].
Qed.

(** [OrderedSet::from] of a sorted vector, and of parts of one. *)
Lemma sorted_filter (P : Bond → Prop) `{!∀ b, Decision (P b)} l :
  sorted l → sorted (filter P l).
Proof.
  induction l as [|x l IH]; [done|]. intros [Hx Hl]%sorted_cons.
  rewrite filter_cons. case_decide; [|auto]. apply sorted_cons. split; [|auto].
  apply Forall_forall. rewrite Forall_forall in Hx. intros y Hy.
  apply Hx. by apply list_elem_of_filter in Hy as [_ ?].
Qed.

Lemma without_sorted who l : sorted l → sorted (without who l).
Proof. apply sorted_filter. Qed.

Lemma without_cons who x l :
  without who (x :: l) = if owner x =? who then without who l else x :: without who l.
Proof.
  unfold without. rewrite filter_cons.
  destruct (Z.eqb_spec (owner x) who), (decide (owner x ≠ who)); done.
Qed.

Lemma bond_map_without who l : bond_map (without who l) = delete who (bond_map l).
Proof.
  induction l as [|x l IH].
  { cbn. symmetry. apply delete_empty. }
  rewrite without_cons. destruct (Z.eqb_spec (owner x) who) as [<-|Hne].
  - by rewrite IH, bond_map_cons, delete_insert_eq.
  - by rewrite !bond_map_cons, IH, delete_insert_ne.
Qed.

Lemma without_absent who l : bond_map l !! who = None → without who l = l.
Proof.
  rewrite bond_map_None. induction l as [|x l IH]; [done|]. rewrite fmap_cons. intros H.
  rewrite without_cons. destruct (Z.eqb_spec (owner x) who); [set_solver|].
  f_equal. apply IH. set_solver.
Qed.

(** The [filter_map] with a captured [Option] removes the bond and returns its
    amount. *)
Lemma extract_bond_found who l x :
  who ∉ owner <$> l → extract_bond who l x = (x, l).
Proof.
  induction l as [|b l IH]; [done|]. rewrite fmap_cons. intros H. cbn.
  destruct (Z.eqb_spec (owner b) who); [set_solver|]. rewrite IH by set_solver. done.
Qed.

Lemma extract_bond_map who l :
  sorted l → extract_bond who l None = (bond_map l !! who, without who l).
Proof.
  intros Hl. apply sorted_owners_NoDup in Hl. induction l as [|b l IH]; [done|].
  rewrite fmap_cons in Hl. inversion Hl as [|? ? Hb Hl']; subst. clear Hl.
  rewrite without_cons, bond_map_cons. cbn. destruct (Z.eqb_spec (owner b) who) as [<-|Hne].
  - rewrite lookup_insert_eq, extract_bond_found by done.
    by rewrite without_absent by by apply bond_map_None.
  - by rewrite IH, lookup_insert_ne.
Qed.

(** ** Methods of [Validator] *)

Lemma rm_nominator_loop_eq who l tot :
  NoDup (owner <$> l) →
  Validator.rm_nominator_loop who l tot =
    (match bond_map l !! who with Some x => tot ⊖ x | None => tot end, without who l).
Proof.
  revert tot. induction l as [|b l IH]; intros tot Hl; [done|].
  rewrite fmap_cons in Hl. inversion Hl as [|? ? Hb Hl']; subst. clear Hl.
  rewrite without_cons, bond_map_cons. cbn. destruct (Z.eqb_spec (owner b) who) as [<-|Hne].
  - rewrite IH by done. apply bond_map_None in Hb. by rewrite Hb, lookup_insert_eq.
  - rewrite IH by done. by rewrite lookup_insert_ne.
Qed.

Lemma rm_nominator_eq v who :
  sorted (Validator.nominators v) →
  let tot :=
    match bond_map (Validator.nominators v) !! who with
    | Some x => Validator.total v ⊖ x
    | None => Validator.total v
    end in
  Validator.rm_nominator v who =
    (tot, Validator.set_nominators_total v (without who (Validator.nominators v)) tot).
Proof.
  intros Hs. unfold Validator.rm_nominator.
  rewrite rm_nominator_loop_eq by by apply sorted_owners_NoDup.
  by rewrite from_id by by apply without_sorted.
Qed.

(** Replacing the amount of one owner. *)
Definition replace_bond (who : AccountId) (x : Z) (l : list Bond) : list Bond :=
  (λ b, if owner b =? who then {| owner := owner b; amount := x |} else b) <$> l.

Lemma replace_bond_cons who x b l :
  replace_bond who x (b :: l) =
    (if owner b =? who then {| owner := owner b; amount := x |} else b)
      :: replace_bond who x l.
Proof. done. Qed.

Lemma replace_bond_owners who x l : owner <$> replace_bond who x l = owner <$> l.
Proof.
  unfold replace_bond. rewrite <-list_fmap_compose. apply list_fmap_ext.
  intros i b _. cbn. by destruct (owner b =? who).
Qed.

Lemma replace_bond_sorted who x l : sorted l → sorted (replace_bond who x l).
Proof.
  induction l as [|b l IH]; [done|]. intros [Hb Hl]%sorted_cons. cbn.
  apply sorted_cons. split; [|auto]. apply Forall_forall. rewrite Forall_forall in Hb.
  intros y (z & -> & Hz)%list_elem_of_fmap. specialize (Hb z Hz).
  rewrite Bond_before in *. destruct (owner b =? who), (owner z =? who); done.
Qed.

Lemma replace_bond_map who x l :
  bond_map (replace_bond who x l) =
    match bond_map l !! who with Some _ => <[who:=x]> (bond_map l) | None => bond_map l end.
Proof.
  induction l as [|b l IH]; [done|]. rewrite replace_bond_cons, !bond_map_cons.
  destruct (Z.eqb_spec (owner b) who) as [->|Hne].
  - cbn. rewrite lookup_insert_eq, IH, insert_insert_eq.
    destruct (bond_map l !! who); [by rewrite insert_insert_eq|done].
  - rewrite lookup_insert_ne, IH by done.
    destruct (bond_map l !! who); [|done]. by rewrite insert_insert_ne.
Qed.

Lemma replace_bond_absent who x l : bond_map l !! who = None → replace_bond who x l = l.
Proof.
  rewrite bond_map_None. induction l as [|b l IH]; [done|]. rewrite fmap_cons. intros H.
  rewrite replace_bond_cons. destruct (Z.eqb_spec (owner b) who); [set_solver|].
  f_equal. apply IH. set_solver.
Qed.

Lemma update_nominator_loop_eq who x l d :
  NoDup (owner <$> l) →
  Validator.update_nominator_loop who x l d =
    (match bond_map l !! who with Some y => x ⊖ y | None => d end, replace_bond who x l).
Proof.
  revert d. induction l as [|b l IH]; intros d Hl; [done|].
  rewrite fmap_cons in Hl. inversion Hl as [|? ? Hb Hl']; subst. clear Hl.
  rewrite bond_map_cons. cbn. destruct (Z.eqb_spec (owner b) who) as [<-|Hne].
  - rewrite IH by done. apply bond_map_None in Hb. by rewrite Hb, lookup_insert_eq.
  - rewrite IH by done. by rewrite lookup_insert_ne.
Qed.

Lemma update_nominator_eq v who x :
  sorted (Validator.nominators v) →
  let tot :=
    Validator.total v ⊕
      match bond_map (Validator.nominators v) !! who with Some y => x ⊖ y | None => 0 end in
  Validator.update_nominator v who x =
    (tot, Validator.set_nominators_total v (replace_bond who x (Validator.nominators v)) tot).
Proof.
  intros Hs. unfold Validator.update_nominator.
  rewrite update_nominator_loop_eq by by apply sorted_owners_NoDup.
  by rewrite from_id by by apply replace_bond_sorted.
Qed.

Lemma change_first_eq who f l :
  NoDup (owner <$> l) →
  Validator.change_first who f l =
    match bond_map l !! who with Some y => Some (replace_bond who (f y) l) | None => None end.
Proof.
  induction l as [|b l IH]; intros Hl; [done|].
  rewrite fmap_cons in Hl. inversion Hl as [|? ? Hb Hl']; subst. clear Hl.
  rewrite bond_map_cons. cbn. destruct (Z.eqb_spec (owner b) who) as [<-|Hne].
  - rewrite lookup_insert_eq. f_equal. f_equal. symmetry. apply replace_bond_absent.
    by apply bond_map_None.
  - rewrite IH, lookup_insert_ne by done. by destruct (bond_map l !! who).
Qed.

Lemma inc_nominator_eq v who more :
  sorted (Validator.nominators v) →
  Validator.inc_nominator v who more =
    match bond_map (Validator.nominators v) !! who with
    | Some y =>
        Validator.set_nominators_total v
          (replace_bond who (y ⊕ more) (Validator.nominators v)) (Validator.total v ⊕ more)
    | None => v
    end.
Proof.
  intros Hs. unfold Validator.inc_nominator.
  rewrite change_first_eq by by apply sorted_owners_NoDup. by destruct (bond_map _ !! who).
Qed.

Lemma dec_nominator_eq v who less :
  sorted (Validator.nominators v) →
  Validator.dec_nominator v who less =
    match bond_map (Validator.nominators v) !! who with
    | Some y =>
        Validator.set_nominators_total v
          (replace_bond who (y ⊖ less) (Validator.nominators v)) (Validator.total v ⊖ less)
    | None => v
    end.
Proof.
  intros Hs. unfold Validator.dec_nominator.
  rewrite change_first_eq by by apply sorted_owners_NoDup. by destruct (bond_map _ !! who).
Qed.

(** ** Methods of [Nominator] *)

Lemma inc_nomination_eq n v more :
  sorted (Nominator.nominations n) →
  Nominator.inc_nomination n v more =
    match bond_map (Nominator.nominations n) !! v with
    | Some y =>
        (Some (y ⊕ more),
         {| Nominator.nominations := replace_bond v (y ⊕ more) (Nominator.nominations n);
            Nominator.total := Nominator.total n ⊕ more |})
    | None => (None, n)
    end.
Proof.
  intros Hs%sorted_owners_NoDup. unfold Nominator.inc_nomination.
  assert (∀ l, NoDup (owner <$> l) → Nominator.inc_nomination_loop v more l =
    match bond_map l !! v with
    | Some y => Some (y ⊕ more, replace_bond v (y ⊕ more) l)
    | None => None
    end) as ->; [|by destruct (bond_map _ !! v)|done].
  intros l. induction l as [|b l IH]; intros Hl; [done|].
  rewrite fmap_cons in Hl. inversion Hl as [|? ? Hb Hl']; subst. clear Hl.
  rewrite bond_map_cons. cbn. destruct (Z.eqb_spec (owner b) v) as [<-|Hne].
  - rewrite lookup_insert_eq. f_equal. f_equal. f_equal. symmetry.
    apply replace_bond_absent. by apply bond_map_None.
  - rewrite IH, lookup_insert_ne by done. by destruct (bond_map l !! v).
Qed.

Lemma dec_nomination_eq n v less :
  sorted (Nominator.nominations n) →
  Nominator.dec_nomination n v less =
    match bond_map (Nominator.nominations n) !! v with
    | Some y =>
        if y >? less then
          (Some (Some (y ⊖ less)),
           {| Nominator.nominations := replace_bond v (y ⊖ less) (Nominator.nominations n);
              Nominator.total := Nominator.total n ⊖ less |})
        else (Some None, n)
    | None => (None, n)
    end.
Proof.
  intros Hs%sorted_owners_NoDup. unfold Nominator.dec_nomination.
  assert (∀ l, NoDup (owner <$> l) → Nominator.dec_nomination_loop v less l =
    match bond_map l !! v with
    | Some y => Some (if y >? less then Some (y ⊖ less, replace_bond v (y ⊖ less) l) else None)
    | None => None
    end) as ->; [|by destruct (bond_map _ !! v) as [y|]; [destruct (y >? less)|]|done].
  intros l. induction l as [|b l IH]; intros Hl; [done|].
  rewrite fmap_cons in Hl. inversion Hl as [|? ? Hb Hl']; subst. clear Hl.
  rewrite bond_map_cons. cbn. destruct (Z.eqb_spec (owner b) v) as [<-|Hne].
  - rewrite lookup_insert_eq. destruct (amount b >? less); [|done].
    do 4 f_equal. symmetry. apply replace_bond_absent. by apply bond_map_None.
  - rewrite IH, lookup_insert_ne by done. destruct (bond_map l !! v) as [y|]; [|done].
    by destruct (y >? less).
Qed.

Lemma rm_nomination_eq n v :
  sorted (Nominator.nominations n) →
  Nominator.rm_nomination n v =
    match bond_map (Nominator.nominations n) !! v with
    | Some y =>
        (Some (Nominator.total n ⊖ y),
         {| Nominator.nominations := without v (Nominator.nominations n);
            Nominator.total := Nominator.total n ⊖ y |})
    | None => (None, n)
    end.
Proof.
  intros Hs. unfold Nominator.rm_nomination. rewrite extract_bond_map by done.
  destruct (bond_map _ !! v); [|done]. by rewrite from_id by by apply without_sorted.
Qed.

(** [swap_nomination]. When [new] is not nominated yet its bond replaces the one of
    [old]; when it is, the two amounts are added under [new] and the bond of [old]
    stays where it is. *)
Lemma swap_nomination_eq n old new :
  sorted (Nominator.nominations n) →
  let m := bond_map (Nominator.nominations n) in
  let '(r, n') := Nominator.swap_nomination n old new in
  sorted (Nominator.nominations n') ∧ Nominator.total n' = Nominator.total n ∧
  match m !! old with
  | Some swapped =>
      match m !! new with
      | Some old_amt =>
          r = Some (swapped, old_amt ⊕ swapped) ∧
          bond_map (Nominator.nominations n') = <[new:=old_amt ⊕ swapped]> m
      | None =>
          r = Some (swapped, swapped) ∧
          bond_map (Nominator.nominations n') = <[new:=swapped]> (delete old m)
      end
  | None => r = None ∧ n' = n
  end.
Proof.
  intros Hs m. unfold Nominator.swap_nomination. rewrite !extract_bond_map by done. fold m.
  destruct (m !! old) as [swapped|] eqn:Eo; [|done].
  destruct (m !! new) as [old_amt|] eqn:En; rewrite from_id by by apply without_sorted.
  - pose proof (insert_bond (without new (Nominator.nominations n))
      {| owner := new; amount := old_amt ⊕ swapped |}) as H.
    destruct (OrderedSet.insert _ _) as [b l]. cbn in H.
    destruct H as [Hl H]; [by apply without_sorted|].
    rewrite bond_map_without, lookup_delete_eq in H. destruct H as (_ & H & _).
    split_and!; [done..|]. cbn [Nominator.nominations]. by rewrite H, insert_delete_eq.
  - pose proof (insert_bond (without old (Nominator.nominations n))
      {| owner := new; amount := swapped |}) as H.
    destruct (OrderedSet.insert _ _) as [b l]. cbn in H.
    destruct H as [Hl H]; [by apply without_sorted|].
    rewrite bond_map_without in H. fold m in H.
    assert (delete old m !! new = None) as Hd.
    { apply lookup_delete_None. by right. }
    rewrite Hd in H. destruct H as (_ & H & _). split_and!; [done..|]. cbn [Nominator.nominations]. by rewrite H.
Qed.

Lemma add_nomination_eq n b :
  sorted (Nominator.nominations n) →
  let m := bond_map (Nominator.nominations n) in
  let '(added, n') := Nominator.add_nomination n b in
  sorted (Nominator.nominations n') ∧
  match m !! owner b with
  | Some _ => added = false ∧ n' = n
  | None =>
      added = true ∧ Nominator.total n' = Nominator.total n ⊕ amount b ∧
      bond_map (Nominator.nominations n') = <[owner b:=amount b]> m
  end.
Proof.
  intros Hs m. unfold Nominator.add_nomination. pose proof (insert_bond _ b Hs) as H.
  destruct (OrderedSet.insert _ _) as [i l]. destruct H as [Hl H]. fold m in H.
  destruct (m !! owner b).
  - destruct H as [-> ->]. split_and!; [done..|]. by destruct n.
  - destruct H as (-> & H & _). by split_and!.
Qed.

Lemma add_nominator_eq v who x :
  sorted (Validator.nominators v) →
  let m := bond_map (Validator.nominators v) in
  ∃ l, Validator.add_nominator v who x =
    (Validator.total v ⊕ x, Validator.set_nominators_total v l (Validator.total v ⊕ x)) ∧
  sorted l ∧
  bond_map l = match m !! who with Some _ => m | None => <[who:=x]> m end.
Proof.
  intros Hs m. unfold Validator.add_nominator.
  pose proof (insert_bond _ {| owner := who; amount := x |} Hs) as H.
  destruct (OrderedSet.insert _ _) as [i l]. destruct H as [Hl H]. fold m in H. cbn in H.
  exists l. split_and!; [done..|].
  destruct (m !! who); [by destruct H as [_ ->]|by destruct H as (_ & H & _)].
Qed.

Lemma new_nominator_eq v x :
  Nominator.new v x =
    {| Nominator.nominations := [{| owner := v; amount := x |}]; Nominator.total := x |}.
Proof. done. Qed.

Lemma singleton_sorted b : sorted [b].
Proof. apply sorted_cons. split; constructor. Qed.
