(* ===== verification/Inflation.v ===== *)
(** * Issuance from inflation ([src/pallets/stake/src/inflation.rs])

    [None] is a panic: the divisions of [rounds_per_year] and [annual_to_round]. *)

From S2P Require Import Prelude Frame StakeTypes.

Definition SECONDS_PER_YEAR : Z := 31557600.
Definition SECONDS_PER_BLOCK : Z := 6.
Definition BLOCKS_PER_YEAR : Z := SECONDS_PER_YEAR / SECONDS_PER_BLOCK.

(** Unsigned division; a zero divisor traps. *)
Definition checked_div (x y : Z) : option Z := if y =? 0 then None else Some (x / y).

Module Range.
Record t := Build { min : Z; ideal : Z; max : Z }.

Definition is_valid (self : t) : bool := (max self >=? ideal self) && (ideal self >=? min self).

Definition from (other : Z) : t := {| min := other; ideal := other; max := other |}.
End Range.

Module InflationInfo.
Record t := Build { expect : Range.t; round : Range.t }.
End InflationInfo.

Section inflation.
Context `{!StakeConfig, !PerbillOps}.

Definition rounds_per_year : option Z := checked_div BLOCKS_PER_YEAR BlocksPerRound.

Definition annual_to_round (annual : Range.t) : option Range.t :=
  periods ← rounds_per_year;
  mn ← checked_div (Range.min annual) periods;
  idl ← checked_div (Range.ideal annual) periods;
  mx ← checked_div (Range.max annual) periods;
  Some {| Range.min := from_parts mn; Range.ideal := from_parts idl;
          Range.max := from_parts mx |}.

Definition round_issuance_range {Cur} `{!Currency Cur} (c : Cur) (round : Range.t) : Range.t :=
  let circulating := total_issuance c in
  {| Range.min := perbill_mul (Range.min round) circulating;
     Range.ideal := perbill_mul (Range.ideal round) circulating;
     Range.max := perbill_mul (Range.max round) circulating |}.

Definition InflationInfo_new (annual expect : Range.t) : option InflationInfo.t :=
  round ← annual_to_round annual;
  Some {| InflationInfo.expect := expect; InflationInfo.round := round |}.

Definition set_annual_rate (self : InflationInfo.t) (new : Range.t) : option InflationInfo.t :=
  round ← annual_to_round new;
  Some {| InflationInfo.expect := InflationInfo.expect self; InflationInfo.round := round |}.

Definition set_expectations (self : InflationInfo.t) (expect : Range.t) : InflationInfo.t :=
  {| InflationInfo.expect := expect; InflationInfo.round := InflationInfo.round self |}.
End inflation.

(** What a sensible configuration satisfies: a year has at least one round of at least
    one block, and a nomination is not empty. *)
Class StakeConfigLaws `{!StakeConfig} : Prop := {
  rounds_fit : 0 < BlocksPerRound <= BLOCKS_PER_YEAR;
  min_nomination_pos : 0 < MinNomination;
  min_nominator_pos : 0 < MinNominatorStk;
}.

Section totality.
Context `{SC : StakeConfig, PO : PerbillOps}.

Lemma checked_div_Some x y : y ≠ 0 → checked_div x y = Some (x / y).
Proof. intros H. unfold checked_div. by destruct (Z.eqb_spec y 0). Qed.

(** The year holds at least one round. *)
Lemma rounds_per_year_Some :
  0 < BlocksPerRound <= BLOCKS_PER_YEAR →
  rounds_per_year = Some (BLOCKS_PER_YEAR / BlocksPerRound) ∧
  1 <= BLOCKS_PER_YEAR / BlocksPerRound.
Proof.
  intros H. split; [apply checked_div_Some; lia|]. apply Z.div_le_lower_bound; lia.
Qed.

Lemma annual_to_round_Some annual :
  0 < BlocksPerRound <= BLOCKS_PER_YEAR →
  annual_to_round annual =
    let periods := BLOCKS_PER_YEAR / BlocksPerRound in
    Some {| Range.min := from_parts (Range.min annual / periods);
            Range.ideal := from_parts (Range.ideal annual / periods);
            Range.max := from_parts (Range.max annual / periods) |}.
Proof.
  intros H. destruct (rounds_per_year_Some H) as [E Hp]. unfold annual_to_round.
  rewrite E. cbn [mbind option_bind]. by rewrite !checked_div_Some by lia.
Qed.

Lemma set_annual_rate_total self new :
  0 < BlocksPerRound <= BLOCKS_PER_YEAR → set_annual_rate self new ≠ None.
Proof. intros H. unfold set_annual_rate. by rewrite annual_to_round_Some. Qed.
End totality.
