(* ===== verification/Stake.v ===== *)
(** * The stake pallet ([src/pallets/stake/src/lib.rs])

    The storage of the pallet, its events and errors, and every function of the
    module: the dispatchables, [on_finalize], the genesis build and the internal
    functions, statement by statement. *)

From S2P Require Import Prelude OrderedSet Frame StakeTypes Inflation.

(** [decl_error!] *)
Inductive Error :=
| NominatorDNE
| CandidateDNE
| NominatorExists
| CandidateExists
| FeeOverMax
| ValBondBelowMin
| NomBondBelowMin
| NominationBelowMin
| AlreadyOffline
| AlreadyActive
| AlreadyLeaving
| TooManyNominators
| CannotActivateIfLeaving
| ExceedMaxValidatorsPerNom
| AlreadyNominatedValidator
| NominationDNE
| Underflow
| CannotSwitchToSameNomination
| InvalidSchedule.

(** [decl_event!] *)
Inductive Event :=
| NewRound (n : Z) (round : RoundIndex) (validators : Z) (total : Balance)
| JoinedValidatorCandidates (a : AccountId) (locked new_total : Balance)
| ValidatorChosen (round : RoundIndex) (a : AccountId) (total_exposed : Balance)
| ValidatorBondedMore (a : AccountId) (old_bond new_bond : Balance)
| ValidatorBondedLess (a : AccountId) (old_bond new_bond : Balance)
| ValidatorWentOffline (round : RoundIndex) (a : AccountId)
| ValidatorBackOnline (round : RoundIndex) (a : AccountId)
| ValidatorScheduledExit (round : RoundIndex) (a : AccountId) (scheduled : RoundIndex)
| ValidatorLeft (a : AccountId) (unlocked new_total : Balance)
| NominationIncreased (n v : AccountId) (old new : Balance)
| NominationDecreased (n v : AccountId) (old new : Balance)
| NominationSwapped (n : AccountId) (swapped : Balance) (old new : AccountId)
| NominatorJoined (a : AccountId) (staked : Balance)
| NominatorLeft (a : AccountId) (unstaked : Balance)
| ValidatorNominated (n : AccountId) (locked : Balance) (v : AccountId) (new_total : Balance)
| NominatorLeftValidator (n v : AccountId) (unstaked new_total : Balance)
| Rewarded (a : AccountId) (amt : Balance)
| RoundInflationSet (min ideal max : Perbill)
| StakeExpectationsSet (min ideal max : Balance).

(** [decl_storage!], the state of the currency and the events deposited so far. *)
Record World (Cur : Type) := MkWorld {
  Round : RoundIndex;
  Nominators : gmap Z Nominator.t;
  Candidates : gmap Z Validator.t;
  Validators : list Z;
  Total : Balance;
  CandidatePool : list Bond;
  ExitQueue : list Bond;
  AtStake : gmap (Z * Z) ValidatorSnapshot.t;
  Staked : gmap Z Z;
  InflationConfig : InflationInfo.t;
  Points : gmap Z Z;
  AwardedPts : gmap (Z * Z) Z;
  currency : Cur;
  events : list Event;
}.
Arguments MkWorld {Cur} _ _ _ _ _ _ _ _ _ _ _ _ _ _.
Arguments Round {Cur} _.
Arguments Nominators {Cur} _.
Arguments Candidates {Cur} _.
Arguments Validators {Cur} _.
Arguments Total {Cur} _.
Arguments CandidatePool {Cur} _.
Arguments ExitQueue {Cur} _.
Arguments AtStake {Cur} _.
Arguments Staked {Cur} _.
Arguments InflationConfig {Cur} _.
Arguments Points {Cur} _.
Arguments AwardedPts {Cur} _.
Arguments currency {Cur} _.
Arguments events {Cur} _.

(** One write per storage item. *)
Section setters.
Context {Cur : Type}.
Implicit Type w : World Cur.

Definition set_Round x w : World Cur :=
  MkWorld x (Nominators w) (Candidates w) (Validators w) (Total w) (CandidatePool w)
    (ExitQueue w) (AtStake w) (Staked w) (InflationConfig w) (Points w) (AwardedPts w)
    (currency w) (events w).
Definition set_Nominators x w : World Cur :=
  MkWorld (Round w) x (Candidates w) (Validators w) (Total w) (CandidatePool w)
    (ExitQueue w) (AtStake w) (Staked w) (InflationConfig w) (Points w) (AwardedPts w)
    (currency w) (events w).
Definition set_Candidates x w : World Cur :=
  MkWorld (Round w) (Nominators w) x (Validators w) (Total w) (CandidatePool w)
    (ExitQueue w) (AtStake w) (Staked w) (InflationConfig w) (Points w) (AwardedPts w)
    (currency w) (events w).
Definition set_Validators x w : World Cur :=
  MkWorld (Round w) (Nominators w) (Candidates w) x (Total w) (CandidatePool w)
    (ExitQueue w) (AtStake w) (Staked w) (InflationConfig w) (Points w) (AwardedPts w)
    (currency w) (events w).
Definition set_Total x w : World Cur :=
  MkWorld (Round w) (Nominators w) (Candidates w) (Validators w) x (CandidatePool w)
    (ExitQueue w) (AtStake w) (Staked w) (InflationConfig w) (Points w) (AwardedPts w)
    (currency w) (events w).
Definition set_CandidatePool x w : World Cur :=
  MkWorld (Round w) (Nominators w) (Candidates w) (Validators w) (Total w) x
    (ExitQueue w) (AtStake w) (Staked w) (InflationConfig w) (Points w) (AwardedPts w)
    (currency w) (events w).
Definition set_ExitQueue x w : World Cur :=
  MkWorld (Round w) (Nominators w) (Candidates w) (Validators w) (Total w) (CandidatePool w)
    x (AtStake w) (Staked w) (InflationConfig w) (Points w) (AwardedPts w)
    (currency w) (events w).
Definition set_AtStake x w : World Cur :=
  MkWorld (Round w) (Nominators w) (Candidates w) (Validators w) (Total w) (CandidatePool w)
    (ExitQueue w) x (Staked w) (InflationConfig w) (Points w) (AwardedPts w)
    (currency w) (events w).
Definition set_Staked x w : World Cur :=
  MkWorld (Round w) (Nominators w) (Candidates w) (Validators w) (Total w) (CandidatePool w)
    (ExitQueue w) (AtStake w) x (InflationConfig w) (Points w) (AwardedPts w)
    (currency w) (events w).
Definition set_InflationConfig x w : World Cur :=
  MkWorld (Round w) (Nominators w) (Candidates w) (Validators w) (Total w) (CandidatePool w)
    (ExitQueue w) (AtStake w) (Staked w) x (Points w) (AwardedPts w)
    (currency w) (events w).
Definition set_Points x w : World Cur :=
  MkWorld (Round w) (Nominators w) (Candidates w) (Validators w) (Total w) (CandidatePool w)
    (ExitQueue w) (AtStake w) (Staked w) (InflationConfig w) x (AwardedPts w)
    (currency w) (events w).
Definition set_AwardedPts x w : World Cur :=
  MkWorld (Round w) (Nominators w) (Candidates w) (Validators w) (Total w) (CandidatePool w)
    (ExitQueue w) (AtStake w) (Staked w) (InflationConfig w) (Points w) x
    (currency w) (events w).
Definition set_currency x w : World Cur :=
  MkWorld (Round w) (Nominators w) (Candidates w) (Validators w) (Total w) (CandidatePool w)
    (ExitQueue w) (AtStake w) (Staked w) (InflationConfig w) (Points w) (AwardedPts w)
    x (events w).
Definition set_events x w : World Cur :=
  MkWorld (Round w) (Nominators w) (Candidates w) (Validators w) (Total w) (CandidatePool w)
    (ExitQueue w) (AtStake w) (Staked w) (InflationConfig w) (Points w) (AwardedPts w)
    (currency w) x.
End setters.

Section pallet.
Context {Origin Cur : Type}.
Context `{FO : FrameOrigin Origin, MO : MonetaryPolicyOrigin Origin, CU : Currency Cur}.
Context `{PO : PerbillOps, US : UnstableSort, IO : IterationOrder, SC : StakeConfig}.

Local Notation M := (Prog (World Cur) (DispatchError Error)).

(** ** Storage access and calls into the frame *)

Definition deposit_event (e : Event) : M unit :=
  modify (λ w, set_events (events w ++ [e]) w).

(** [ensure_signed(origin)?] *)
Definition signed (origin : Origin) : M AccountId := ok_or (ensure_signed origin) BadOrigin.

(** [T::Currency::reserve(&who, value)?] *)
Definition Currency_reserve (who : AccountId) (value : Balance) : M unit := λ w,
  match reserve (currency w) who value with
  | inl c => Done tt (set_currency c w)
  | inr reason => Failed (External reason) w
  end.

(** [T::Currency::unreserve(&who, value);]: the remainder is dropped. *)
Definition Currency_unreserve (who : AccountId) (value : Balance) : M unit :=
  modify (λ w, set_currency (unreserve (currency w) who value).1 w).

Definition Candidates_insert (k : AccountId) (v : Validator.t) : M unit :=
  modify (λ w, set_Candidates (<[k:=v]> (Candidates w)) w).
Definition Candidates_remove (k : AccountId) : M unit :=
  modify (λ w, set_Candidates (delete k (Candidates w)) w).
Definition Nominators_insert (k : AccountId) (v : Nominator.t) : M unit :=
  modify (λ w, set_Nominators (<[k:=v]> (Nominators w)) w).
Definition Nominators_remove (k : AccountId) : M unit :=
  modify (λ w, set_Nominators (delete k (Nominators w)) w).
Definition Total_put (x : Balance) : M unit := modify (set_Total x).
Definition CandidatePool_put (x : list Bond) : M unit := modify (set_CandidatePool x).
Definition ExitQueue_put (x : list Bond) : M unit := modify (set_ExitQueue x).

(** A missing entry of a [ValueQuery] map reads as the default. *)
Definition get_or {K V} `{Countable K} (d : V) (m : gmap K V) (k : K) : V :=
  default d (m !! k).

(** [ensure!(b, Error::<T>::e)] *)
Definition ensure_ (b : bool) (e : Error) : M unit := ensure b (Module_ e).
(** [o.ok_or(Error::<T>::e)?] *)
Definition ok_or_ {A} (o : option A) (e : Error) : M A := ok_or o (Module_ e).

(** ** Internal functions *)

Definition is_nominator (w : World Cur) (acc : AccountId) : bool :=
  match Nominators w !! acc with Some _ => true | None => false end.

Definition is_candidate (w : World Cur) (acc : AccountId) : bool :=
  match Candidates w !! acc with Some _ => true | None => false end.

Definition is_validator (w : World Cur) (acc : AccountId) : bool :=
  match binary_search (Validators w) acc with Found _ => true | Missing _ => false end.

Definition update_active (candidate : AccountId) (total : Balance) : M unit :=
  candidates ← gets CandidatePool;
  let '(_, candidates) := OrderedSet.remove candidates (Bond_from_owner candidate) in
  let '(_, candidates) :=
    OrderedSet.insert candidates {| owner := candidate; amount := total |} in
  CandidatePool_put candidates.

Definition compute_issuance (w : World Cur) (staked : Balance) : Balance :=
  let config := InflationConfig w in
  let round_issuance := round_issuance_range (currency w) (InflationInfo.round config) in
  if staked <? Range.min (InflationInfo.expect config) then Range.min round_issuance
  else if staked >? Range.max (InflationInfo.expect config) then Range.max round_issuance
  else Range.ideal round_issuance.

Definition nominator_joins_validator (nominator : AccountId) (amount : Balance)
    (validator : AccountId) : M unit :=
  candidates ← gets Candidates;
  state ← ok_or_ (candidates !! validator) CandidateDNE;
  let nomination := {| owner := nominator; amount := amount |} in
  let '(inserted, noms) := OrderedSet.insert (Validator.nominators state) nomination in
  ensure_ inserted NominatorExists;;
  ensure_ (u32 (Z.of_nat (length noms)) <=? MaxNominatorsPerValidator) TooManyNominators;;
  Currency_reserve nominator amount;;
  let new_total := Validator.total state ⊕ amount in
  when (Validator.is_active state) (update_active validator new_total);;
  total ← gets Total;
  let new_total_locked := total ⊕ amount in
  Total_put new_total_locked;;
  Candidates_insert validator (Validator.set_nominators_total state noms new_total);;
  deposit_event (ValidatorNominated nominator amount validator new_total).

Definition nominator_leaves_validator (nominator validator : AccountId) : M unit :=
  candidates ← gets Candidates;
  state ← ok_or_ (candidates !! validator) CandidateDNE;
  let '(exists_, noms) := extract_bond nominator (Validator.nominators state) None in
  let nominators := OrderedSet.from noms in
  nominator_stake ← ok_or_ exists_ NominatorDNE;
  Currency_unreserve nominator nominator_stake;;
  let state :=
    Validator.set_nominators_total state nominators
      (Validator.total state ⊖ nominator_stake) in
  when (Validator.is_active state) (update_active validator (Validator.total state));;
  total ← gets Total;
  let new_total_locked := total ⊖ nominator_stake in
  Total_put new_total_locked;;
  let new_total := Validator.total state in
  Candidates_insert validator state;;
  deposit_event (NominatorLeftValidator nominator validator nominator_stake new_total).

Definition nominator_revokes_validator (acc validator : AccountId) : M unit :=
  nominators ← gets Nominators;
  nominator ← ok_or_ (nominators !! acc) NominatorDNE;
  let '(o, nominator) := Nominator.rm_nomination nominator validator in
  remaining ← ok_or_ o NominationDNE;
  ensure_ (remaining >=? MinNominatorStk) NomBondBelowMin;;
  nominator_leaves_validator acc validator;;
  Nominators_insert acc nominator.

(** The closure [mint] of [pay_stakers]: the imbalance is dropped when the event has
    been deposited. *)
Definition mint (amt : Balance) (to : AccountId) : M unit :=
  when (amt >? minimum_balance) (λ w,
    match deposit_into_existing (currency w) to amt with
    | inl (c, imb) =>
        (modify (set_currency c);;
         deposit_event (Rewarded to imb);;
         modify (λ w, set_currency (drop_positive_imbalance (currency w) imb) w)) w
    | inr _ => Done tt w
    end).

(** The entries of [AwardedPts] with prefix [round], in iteration order. *)
Definition awarded_in (round : RoundIndex) (m : gmap (Z * Z) Z) : list (AccountId * RewardPoint) :=
  iteration_order round
    (omap (λ '((r, a), pts), if r =? round then Some (a, pts) else None) (map_to_list m)).

(** [<AwardedPts<T>>::drain_prefix(round)] *)
Definition AwardedPts_drain_prefix (round : RoundIndex) : M (list (AccountId * RewardPoint)) :=
  l ← gets (λ w, awarded_in round (AwardedPts w));
  modify (λ w, set_AwardedPts
    (filter (λ kv : Z * Z * Z, kv.1.1 ≠ round) (AwardedPts w)) w);;
  mret l.

(** [<AtStake<T>>::take(round, &val)] *)
Definition AtStake_take (round : RoundIndex) (val : AccountId) : M ValidatorSnapshot.t :=
  state ← gets (λ w, get_or ValidatorSnapshot.default (AtStake w) (round, val));
  modify (λ w, set_AtStake (delete (round, val) (AtStake w)) w);;
  mret state.

(** The body of the loop of [pay_stakers]. *)
Definition pay_validator (round_to_payout : RoundIndex) (total : RewardPoint)
    (issuance : Balance) (val : AccountId) (pts : RewardPoint) : M unit :=
  let pct_due := from_rational_approximation pts total in
  let amt_due := perbill_mul pct_due issuance in
  if amt_due <=? minimum_balance then mret tt
  else
    state ← AtStake_take round_to_payout val;
    match ValidatorSnapshot.nominators state with
    | [] => mint amt_due val
    | _ =>
        let val_pct :=
          from_rational_approximation (ValidatorSnapshot.bond state)
            (ValidatorSnapshot.total state) in
        let commission := perbill_mul (ValidatorSnapshot.fee state) amt_due in
        let '(amt_due, val_due) :=
          if commission >? minimum_balance then
            let amt_due := amt_due ⊖ commission in
            (amt_due, perbill_mul val_pct amt_due ⊕ commission)
          else (amt_due, perbill_mul val_pct amt_due) in
        mint val_due val;;
        for_each (ValidatorSnapshot.nominators state) (λ b,
          let percent :=
            from_rational_approximation (amount b) (ValidatorSnapshot.total state) in
          let due := perbill_mul percent amt_due in
          mint due (owner b))
    end.

Definition pay_stakers (next : RoundIndex) : M unit :=
  let duration := BondDuration in
  when (next >? duration) (
    let round_to_payout := next ⊟ duration in
    total ← gets (λ w, get_or 0 (Points w) round_to_payout);
    total_staked ← gets (λ w, get_or 0 (Staked w) round_to_payout);
    issuance ← gets (λ w, compute_issuance w total_staked);
    l ← AwardedPts_drain_prefix round_to_payout;
    for_each l (λ '(val, pts), pay_validator round_to_payout total issuance val pts)).

(** The stake of one nominator is returned when the validator [who] exits. *)
Definition exit_nominator (who : AccountId) (b : Bond) : M unit :=
  Currency_unreserve (owner b) (amount b);;
  nominators ← gets Nominators;
  match nominators !! owner b with
  | Some nominator =>
      let '(o, nominator) := Nominator.rm_nomination nominator who in
      match o with
      | Some remaining =>
          if remaining =? 0 then Nominators_remove (owner b)
          else Nominators_insert (owner b) nominator
      | None => mret tt
      end
  | None => mret tt
  end.

(** The closure of [execute_delayed_validator_exits]: [Some x] stays in the queue. *)
Definition execute_exit (next : RoundIndex) (x : Bond) : M (option Bond) :=
  if amount x >? next then mret (Some x)
  else
    candidates ← gets Candidates;
    match candidates !! owner x with
    | Some state =>
        for_each (Validator.nominators state) (exit_nominator (owner x));;
        Currency_unreserve (Validator.id state) (Validator.bond state);;
        total ← gets Total;
        let new_total := total ⊖ Validator.total state in
        Total_put new_total;;
        Candidates_remove (owner x);;
        deposit_event (ValidatorLeft (owner x) (Validator.total state) new_total);;
        mret None
    | None => mret None
    end.

Definition execute_delayed_validator_exits (next : RoundIndex) : M unit :=
  exits ← gets ExitQueue;
  remain_exits ← filter_map_each exits (execute_exit next);
  ExitQueue_put (OrderedSet.from remain_exits).

(** The loop of [best_candidates_become_validators]: the exposure of each chosen
    account is recorded, the number of accounts and their total are accumulated. *)
Fixpoint snapshot_validators (next : RoundIndex) (l : list AccountId)
    (all_validators : Z) (total : Balance) : M (Z * Balance) :=
  match l with
  | [] => mret (all_validators, total)
  | account :: l =>
      candidates ← gets Candidates;
      state ← expect (candidates !! account);
      let amount := Validator.total state in
      let exposure := Validator.into_snapshot state in
      modify (λ w, set_AtStake (<[(next, account):=exposure]> (AtStake w)) w);;
      deposit_event (ValidatorChosen next account amount);;
      snapshot_validators next l (all_validators ⊞ 1) (total ⊕ amount)
  end.

(** The owners of the [MaxValidators] largest entries of the pool. *)
Definition top_candidates (pool : list Bond) : list AccountId :=
  let candidates := sort_unstable_by (λ a b, amount a ?= amount b) pool in
  owner <$> take (Z.to_nat MaxValidators) (rev candidates).

Definition best_candidates_become_validators (next : RoundIndex) : M (Z * Balance) :=
  pool ← gets CandidatePool;
  let validators := top_candidates pool in
  r ← snapshot_validators next validators 0 0;
  modify (set_Validators (sort validators));;
  mret r.

(** ** Dispatchables *)

Definition set_staking_expectations (origin : Origin) (expectations : Range.t) : M unit :=
  ensure (SetMonetaryPolicyOrigin origin) BadOrigin;;
  ensure_ (Range.is_valid expectations) InvalidSchedule;;
  config ← gets InflationConfig;
  let config := set_expectations config expectations in
  deposit_event (StakeExpectationsSet
    (Range.min (InflationInfo.expect config)) (Range.ideal (InflationInfo.expect config))
    (Range.max (InflationInfo.expect config)));;
  modify (set_InflationConfig config).

Definition set_inflation (origin : Origin) (schedule : Range.t) : M unit :=
  ensure (SetMonetaryPolicyOrigin origin) BadOrigin;;
  ensure_ (Range.is_valid schedule) InvalidSchedule;;
  config ← gets InflationConfig;
  config ← expect (set_annual_rate config schedule);
  deposit_event (RoundInflationSet
    (Range.min (InflationInfo.round config)) (Range.ideal (InflationInfo.round config))
    (Range.max (InflationInfo.round config)));;
  modify (set_InflationConfig config).

Definition join_candidates (origin : Origin) (fee : Perbill) (bond : Balance) : M unit :=
  acc ← signed origin;
  candidate ← gets (λ w, is_candidate w acc);
  ensure_ (negb candidate) CandidateExists;;
  nominator ← gets (λ w, is_nominator w acc);
  ensure_ (negb nominator) NominatorExists;;
  ensure_ (fee <=? MaxFee) FeeOverMax;;
  ensure_ (bond >=? MinValidatorStk) ValBondBelowMin;;
  pool ← gets CandidatePool;
  let '(inserted, candidates) :=
    OrderedSet.insert pool {| owner := acc; amount := bond |} in
  ensure_ inserted CandidateExists;;
  Currency_reserve acc bond;;
  let candidate := Validator.new acc fee bond in
  total ← gets Total;
  let new_total := total ⊕ bond in
  Total_put new_total;;
  Candidates_insert acc candidate;;
  CandidatePool_put candidates;;
  deposit_event (JoinedValidatorCandidates acc bond new_total).

(** [if candidates.remove(..) { CandidatePool::put(candidates) }] *)
Definition remove_from_pool (validator : AccountId) : M unit :=
  candidates ← gets CandidatePool;
  let '(removed, candidates) :=
    OrderedSet.remove candidates (Bond_from_owner validator) in
  when removed (CandidatePool_put candidates).

Definition leave_candidates (origin : Origin) : M unit :=
  validator ← signed origin;
  candidates ← gets Candidates;
  state ← ok_or_ (candidates !! validator) CandidateDNE;
  ensure_ (negb (Validator.is_leaving state)) AlreadyLeaving;;
  exits ← gets ExitQueue;
  now ← gets Round;
  let when_ := now ⊞ BondDuration in
  let '(inserted, exits) :=
    OrderedSet.insert exits {| owner := validator; amount := when_ |} in
  ensure_ inserted AlreadyLeaving;;
  let state := Validator.leave_candidates state when_ in
  remove_from_pool validator;;
  ExitQueue_put exits;;
  Candidates_insert validator state;;
  deposit_event (ValidatorScheduledExit now validator when_).

Definition go_offline (origin : Origin) : M unit :=
  validator ← signed origin;
  candidates ← gets Candidates;
  state ← ok_or_ (candidates !! validator) CandidateDNE;
  ensure_ (Validator.is_active state) AlreadyOffline;;
  let state := Validator.go_offline state in
  remove_from_pool validator;;
  Candidates_insert validator state;;
  round ← gets Round;
  deposit_event (ValidatorWentOffline round validator).

Definition go_online (origin : Origin) : M unit :=
  validator ← signed origin;
  candidates ← gets Candidates;
  state ← ok_or_ (candidates !! validator) CandidateDNE;
  ensure_ (negb (Validator.is_active state)) AlreadyActive;;
  ensure_ (negb (Validator.is_leaving state)) CannotActivateIfLeaving;;
  let state := Validator.go_online state in
  pool ← gets CandidatePool;
  let '(inserted, pool) :=
    OrderedSet.insert pool {| owner := validator; amount := Validator.total state |} in
  ensure_ inserted AlreadyActive;;
  CandidatePool_put pool;;
  Candidates_insert validator state;;
  round ← gets Round;
  deposit_event (ValidatorBackOnline round validator).

Definition candidate_bond_more (origin : Origin) (more : Balance) : M unit :=
  validator ← signed origin;
  candidates ← gets Candidates;
  state ← ok_or_ (candidates !! validator) CandidateDNE;
  ensure_ (negb (Validator.is_leaving state)) CannotActivateIfLeaving;;
  Currency_reserve validator more;;
  let before := Validator.bond state in
  let state := Validator.bond_more state more in
  let after := Validator.bond state in
  when (Validator.is_active state) (update_active validator (Validator.total state));;
  Candidates_insert validator state;;
  deposit_event (ValidatorBondedMore validator before after).

Definition candidate_bond_less (origin : Origin) (less : Balance) : M unit :=
  validator ← signed origin;
  candidates ← gets Candidates;
  state ← ok_or_ (candidates !! validator) CandidateDNE;
  ensure_ (negb (Validator.is_leaving state)) CannotActivateIfLeaving;;
  let before := Validator.bond state in
  let '(o, state) := Validator.bond_less state less in
  after ← ok_or_ o Underflow;
  ensure_ (after >=? MinValidatorStk) ValBondBelowMin;;
  Currency_unreserve validator less;;
  when (Validator.is_active state) (update_active validator (Validator.total state));;
  Candidates_insert validator state;;
  deposit_event (ValidatorBondedLess validator before after).

Definition join_nominators (origin : Origin) (validator : AccountId) (amount : Balance) :
    M unit :=
  acc ← signed origin;
  ensure_ (amount >=? MinNominatorStk) NomBondBelowMin;;
  nominator ← gets (λ w, is_nominator w acc);
  ensure_ (negb nominator) NominatorExists;;
  candidate ← gets (λ w, is_candidate w acc);
  ensure_ (negb candidate) CandidateExists;;
  nominator_joins_validator acc amount validator;;
  Nominators_insert acc (Nominator.new validator amount);;
  deposit_event (NominatorJoined acc amount).

Definition leave_nominators (origin : Origin) : M unit :=
  acc ← signed origin;
  nominators ← gets Nominators;
  nominator ← ok_or_ (nominators !! acc) NominatorDNE;
  for_each (Nominator.nominations nominator)
    (λ bond, nominator_leaves_validator acc (owner bond));;
  Nominators_remove acc;;
  deposit_event (NominatorLeft acc (Nominator.total nominator)).

Definition nominate_new (origin : Origin) (validator : AccountId) (amount : Balance) :
    M unit :=
  acc ← signed origin;
  ensure_ (amount >=? MinNomination) NominationBelowMin;;
  nominators ← gets Nominators;
  nominator ← ok_or_ (nominators !! acc) NominatorDNE;
  ensure_ (u32 (Z.of_nat (length (Nominator.nominations nominator)))
             <? MaxValidatorsPerNominator) ExceedMaxValidatorsPerNom;;
  candidates ← gets Candidates;
  state ← ok_or_ (candidates !! validator) CandidateDNE;
  let '(added, nominator) :=
    Nominator.add_nomination nominator {| owner := validator; amount := amount |} in
  ensure_ added AlreadyNominatedValidator;;
  let nomination := {| owner := acc; amount := amount |} in
  ensure_ (u32 (Z.of_nat (length (Validator.nominators state)))
             <? MaxNominatorsPerValidator) TooManyNominators;;
  let '(inserted, noms) := OrderedSet.insert (Validator.nominators state) nomination in
  ensure_ inserted NominatorExists;;
  Currency_reserve acc amount;;
  let new_total := Validator.total state ⊕ amount in
  when (Validator.is_active state) (update_active validator new_total);;
  total ← gets Total;
  let new_total_locked := total ⊕ amount in
  Total_put new_total_locked;;
  Candidates_insert validator (Validator.set_nominators_total state noms new_total);;
  Nominators_insert acc nominator;;
  deposit_event (ValidatorNominated acc amount validator new_total).

Definition switch_nomination (origin : Origin) (old new : AccountId) : M unit :=
  acc ← signed origin;
  ensure_ (negb (old =? new)) CannotSwitchToSameNomination;;
  nominators ← gets Nominators;
  nominator ← ok_or_ (nominators !! acc) NominatorDNE;
  candidates ← gets Candidates;
  old_validator ← ok_or_ (candidates !! old) CandidateDNE;
  new_validator ← ok_or_ (candidates !! new) CandidateDNE;
  let '(o, nominator) := Nominator.swap_nomination nominator old new in
  amts ← ok_or_ o NominationDNE;
  let '(swapped_amt, new_amt) := amts in
  let '(new_old, old_validator) := Validator.rm_nominator old_validator acc in
  let '(new_new, new_validator) :=
    if new_amt >? swapped_amt then Validator.update_nominator new_validator acc new_amt
    else Validator.add_nominator new_validator acc swapped_amt in
  when (Validator.is_active old_validator) (update_active old new_old);;
  when (Validator.is_active new_validator) (update_active new new_new);;
  Candidates_insert old old_validator;;
  Candidates_insert new new_validator;;
  Nominators_insert acc nominator;;
  deposit_event (NominationSwapped acc swapped_amt old new).

Definition revoke_nomination (origin : Origin) (validator : AccountId) : M unit :=
  acc ← signed origin;
  nominator_revokes_validator acc validator.

Definition nominator_bond_more (origin : Origin) (candidate : AccountId) (more : Balance) :
    M unit :=
  nominator ← signed origin;
  nominators ← gets Nominators;
  nominations ← ok_or_ (nominators !! nominator) NominatorDNE;
  candidates ← gets Candidates;
  validator ← ok_or_ (candidates !! candidate) CandidateDNE;
  let '(o, nominations) := Nominator.inc_nomination nominations candidate more in
  _ ← ok_or_ o NominationDNE;
  Currency_reserve nominator more;;
  let before := Validator.total validator in
  let validator := Validator.inc_nominator validator nominator more in
  let after := Validator.total validator in
  when (Validator.is_active validator) (update_active candidate (Validator.total validator));;
  Candidates_insert candidate validator;;
  Nominators_insert nominator nominations;;
  deposit_event (NominationIncreased nominator candidate before after).

Definition nominator_bond_less (origin : Origin) (candidate : AccountId) (less : Balance) :
    M unit :=
  nominator ← signed origin;
  nominators ← gets Nominators;
  nominations ← ok_or_ (nominators !! nominator) NominatorDNE;
  candidates ← gets Candidates;
  validator ← ok_or_ (candidates !! candidate) CandidateDNE;
  let '(o, nominations) := Nominator.dec_nomination nominations candidate less in
  o ← ok_or_ o NominationDNE;
  remaining ← ok_or_ o Underflow;
  ensure_ (remaining >=? MinNomination) NominationBelowMin;;
  ensure_ (Nominator.total nominations >=? MinNominatorStk) NomBondBelowMin;;
  Currency_unreserve nominator less;;
  let before := Validator.total validator in
  let validator := Validator.dec_nominator validator nominator less in
  let after := Validator.total validator in
  when (Validator.is_active validator) (update_active candidate (Validator.total validator));;
  Candidates_insert candidate validator;;
  Nominators_insert nominator nominations;;
  deposit_event (NominationDecreased nominator candidate before after).

(** ** Hooks *)

(** The remainder traps when there are zero blocks per round. *)
Definition on_finalize (n : Z) : M unit :=
  assert (negb (BlocksPerRound =? 0));;
  when (n mod BlocksPerRound =? 0) (
    round ← gets Round;
    let next := round ⊞ 1 in
    pay_stakers next;;
    execute_delayed_validator_exits next;;
    r ← best_candidates_become_validators next;
    let '(validator_count, total_staked) := r in
    modify (set_Round next);;
    total ← gets Total;
    modify (λ w, set_Staked (<[next:=total]> (Staked w)) w);;
    deposit_event (NewRound n next validator_count total_staked)).

(** [impl author_inherent::EventHandler] *)
Definition note_author (author : AccountId) : M unit :=
  now ← gets Round;
  score ← gets (λ w, get_or 0 (AwardedPts w) (now, author));
  let score_plus_20 := score ⊞ 20 in
  modify (λ w, set_AwardedPts (<[(now, author):=score_plus_20]> (AwardedPts w)) w);;
  modify (λ w, set_Points (<[now:=get_or 0 (Points w) now ⊞ 20]> (Points w)) w).

(** [impl author_inherent::CanAuthor] *)
Definition can_author (w : World Cur) (account : AccountId) : bool := is_validator w account.

(** ** Genesis *)

(** [T::Origin::from(Some(actor).into())] is [signed_by actor]. *)
Definition genesis_staker (signed_by : AccountId → Origin)
    (staker : AccountId * option AccountId * Balance) : M unit :=
  let '(actor, opt_val, balance) := staker in
  free ← gets (λ w, free_balance (currency w) actor);
  assert (free >=? balance);;
  match opt_val with
  | Some nominated_val =>
      ignore_error (join_nominators (signed_by actor) nominated_val balance)
  | None => ignore_error (join_candidates (signed_by actor) 0 balance)
  end.

Definition genesis_build (signed_by : AccountId → Origin)
    (stakers : list (AccountId * option AccountId * Balance)) : M unit :=
  for_each stakers (genesis_staker signed_by);;
  r ← best_candidates_become_validators 1;
  let '(v_count, total_staked) := r in
  modify (set_Round 1);;
  modify (λ w, set_Staked (<[1:=Total w]> (Staked w)) w);;
  deposit_event (NewRound 0 1 v_count total_staked).

(** The storage the genesis build starts from. *)
Definition empty_world (config : InflationInfo.t) (c : Cur) : World Cur :=
  MkWorld 0 ∅ ∅ [] 0 [] [] ∅ ∅ config ∅ ∅ c [].

(** ** The calls of the module, and their dispatch *)

Inductive Call :=
| Call_set_staking_expectations (expectations : Range.t)
| Call_set_inflation (schedule : Range.t)
| Call_join_candidates (fee : Perbill) (bond : Balance)
| Call_leave_candidates
| Call_go_offline
| Call_go_online
| Call_candidate_bond_more (more : Balance)
| Call_candidate_bond_less (less : Balance)
| Call_join_nominators (validator : AccountId) (amount : Balance)
| Call_leave_nominators
| Call_nominate_new (validator : AccountId) (amount : Balance)
| Call_switch_nomination (old new : AccountId)
| Call_revoke_nomination (validator : AccountId)
| Call_nominator_bond_more (candidate : AccountId) (more : Balance)
| Call_nominator_bond_less (candidate : AccountId) (less : Balance).

Definition dispatch (origin : Origin) (call : Call) : M unit :=
  match call with
  | Call_set_staking_expectations e => set_staking_expectations origin e
  | Call_set_inflation s => set_inflation origin s
  | Call_join_candidates fee bond => join_candidates origin fee bond
  | Call_leave_candidates => leave_candidates origin
  | Call_go_offline => go_offline origin
  | Call_go_online => go_online origin
  | Call_candidate_bond_more more => candidate_bond_more origin more
  | Call_candidate_bond_less less => candidate_bond_less origin less
  | Call_join_nominators v a => join_nominators origin v a
  | Call_leave_nominators => leave_nominators origin
  | Call_nominate_new v a => nominate_new origin v a
  | Call_switch_nomination old new => switch_nomination origin old new
  | Call_revoke_nomination v => revoke_nomination origin v
  | Call_nominator_bond_more c m => nominator_bond_more origin c m
  | Call_nominator_bond_less c l => nominator_bond_less origin c l
  end.
End pallet.
