(* ===== verification/StakeLogic.v ===== *)
(** * Symbolic execution of the stake pallet

    One rule per storage access and per internal function that several dispatchables
    call, and the tactic [stake_run] that executes a handler. *)

From S2P Require Import Prelude OrderedSet Frame StakeTypes BondMap Inflation Stake.

(** The exposures that the loop over the chosen accounts records. *)
Fixpoint record_exposures (next : RoundIndex) (cands : gmap Z Validator.t)
    (l : list AccountId) (m : gmap (Z * Z) ValidatorSnapshot.t) :
    gmap (Z * Z) ValidatorSnapshot.t :=
  match l with
  | [] => m
  | a :: l =>
      record_exposures next cands l
        match cands !! a with
        | Some c => <[(next, a):=Validator.into_snapshot c]> m
        | None => m
        end
  end.

(** The sum of the totals of the accounts of [l], as the loop computes it. *)
Fixpoint exposed_total (cands : gmap Z Validator.t) (l : list AccountId) (t : Balance) : Balance :=
  match l with
  | [] => t
  | a :: l =>
      exposed_total cands l
        match cands !! a with Some c => t ⊕ Validator.total c | None => t end
  end.

(** Projections of updated worlds. *)
Ltac wsimpl_in_goal :=
  cbn [Round Nominators Candidates Validators Total CandidatePool ExitQueue AtStake Staked
       InflationConfig Points AwardedPts currency events
       set_Round set_Nominators set_Candidates set_Validators set_Total set_CandidatePool
       set_ExitQueue set_AtStake set_Staked set_InflationConfig set_Points set_AwardedPts
       set_currency set_events].
Tactic Notation "wsimpl" := wsimpl_in_goal.
Tactic Notation "wsimpl" "in" "*" :=
  cbn [Round Nominators Candidates Validators Total CandidatePool ExitQueue AtStake Staked
       InflationConfig Points AwardedPts currency events
       set_Round set_Nominators set_Candidates set_Validators set_Total set_CandidatePool
       set_ExitQueue set_AtStake set_Staked set_InflationConfig set_Points set_AwardedPts
       set_currency set_events] in *.

Section logic.
Context {Origin Cur : Type}.
Context `{FO : FrameOrigin Origin, MO : MonetaryPolicyOrigin Origin, CU : Currency Cur}.
Context `{PO : PerbillOps, US : UnstableSort, IO : IterationOrder, SC : StakeConfig}.
Implicit Type w : World Cur.
Local Notation O A := (Outcome (World Cur) (DispatchError Error) A).

Lemma wp_signed (origin : Origin) (Q : O AccountId → Prop) w :
  (∀ a, ensure_signed origin = Some a → Q (Done a w)) →
  (ensure_signed origin = None → Q (Failed BadOrigin w)) →
  wp (signed origin) Q w.
Proof. intros. by apply wp_ok_or. Qed.

Lemma wp_ensure_ b e (Q : O unit → Prop) w :
  (b = true → Q (Done tt w)) → (b = false → Q (Failed (Module_ e) w)) →
  wp (ensure_ b e) Q w.
Proof. apply wp_ensure. Qed.

Lemma wp_ok_or_ {A} (o : option A) e (Q : O A → Prop) w :
  (∀ a, o = Some a → Q (Done a w)) → (o = None → Q (Failed (Module_ e) w)) →
  wp (ok_or_ o e) Q w.
Proof. apply wp_ok_or. Qed.

Lemma wp_reserve who v (Q : O unit → Prop) w :
  (∀ c, reserve (currency w) who v = inl c → Q (Done tt (set_currency c w))) →
  (∀ r, reserve (currency w) who v = inr r → Q (Failed (External r) w)) →
  wp (Currency_reserve who v) Q w.
Proof.
  unfold wp, Currency_reserve. intros HOk HErr.
  destruct (reserve (currency w) who v) eqn:E; auto.
Qed.

Lemma set_CandidatePool_id w : set_CandidatePool (CandidatePool w) w = w.
Proof. by destruct w. Qed.

(** [if active { update_active(a, total) }] rewrites one entry of the pool. *)
Lemma wp_update_active (b : bool) a tot (Q : O unit → Prop) w :
  sorted (CandidatePool w) →
  (∀ pool, sorted pool →
    bond_map pool =
      (if b then <[a:=tot]> (bond_map (CandidatePool w)) else bond_map (CandidatePool w)) →
    Q (Done tt (set_CandidatePool pool w))) →
  wp (when b (update_active a tot)) Q w.
Proof.
  intros Hs HQ. apply wp_when; intros ->; cycle 1.
  { rewrite <-(set_CandidatePool_id w). by apply HQ. }
  unfold update_active. apply wp_bind, wp_gets. cbn [bind_post].
  pose proof (remove_bond (CandidatePool w) (Bond_from_owner a) Hs) as H.
  destruct (OrderedSet.remove _ _) as [? pool1]. destruct H as (Hs1 & Hm1 & _).
  cbn in Hm1. pose proof (insert_bond pool1 {| owner := a; amount := tot |} Hs1) as H.
  destruct (OrderedSet.insert _ _) as [? pool2]. cbn in H.
  rewrite Hm1, lookup_delete_eq in H. destruct H as (Hs2 & _ & Hm2 & _).
  apply wp_modify, HQ; [done|]. by rewrite Hm2, insert_delete_eq.
Qed.

Lemma wp_remove_from_pool a (Q : O unit → Prop) w :
  sorted (CandidatePool w) →
  (∀ pool, sorted pool → bond_map pool = delete a (bond_map (CandidatePool w)) →
    Q (Done tt (set_CandidatePool pool w))) →
  wp (remove_from_pool a) Q w.
Proof.
  intros Hs HQ. unfold remove_from_pool. apply wp_bind, wp_gets. cbn [bind_post].
  pose proof (remove_bond (CandidatePool w) (Bond_from_owner a) Hs) as H.
  destruct (OrderedSet.remove _ _) as [removed pool]. destruct H as (Hs1 & Hm1 & Hid).
  cbn in Hm1. apply wp_when; intros ->.
  - apply wp_modify. by apply HQ.
  - specialize (HQ pool Hs1 Hm1). rewrite (Hid eq_refl) in HQ.
    by rewrite set_CandidatePool_id in HQ.
Qed.

(** A payment is made in full, with its event, or not at all. *)
Lemma wp_mint amt to (Q : O unit → Prop) w :
  Q (Done tt w) →
  (∀ c imb, minimum_balance < amt → deposit_into_existing (currency w) to amt = inl (c, imb) →
    Q (Done tt (set_currency (drop_positive_imbalance c imb)
        (set_events (events w ++ [Rewarded to imb]) w)))) →
  wp (mint amt to) Q w.
Proof.
  intros HN HS. unfold mint. apply wp_when; [|done]. intros Hamt.
  rewrite Z.gtb_lt in Hamt. unfold wp.
  destruct (deposit_into_existing (currency w) to amt) as [[c imb]|] eqn:E; [|done].
  specialize (HS c imb Hamt eq_refl). by destruct w.
Qed.

(** Execute up to the next data [match]. *)
Ltac straight_run :=
  repeat (lazymatch goal with
          | |- wp (match _ with _ => _ end) _ _ => fail
          | |- _ => wp_step
          end; cbn beta iota).

(** What every payment for the round keeps is kept by [pay_stakers], which always ends
    normally. *)
Section payments.
Context (next : RoundIndex) (I : World Cur → Prop).
Notation paid := (next ⊟ BondDuration).
Hypothesis I_AtStake : ∀ w a, BondDuration < next → I w →
  I (set_AtStake (delete (paid, a) (AtStake w)) w).
Hypothesis I_mint : ∀ w amt to, I w → wp (mint amt to) (ends I) w.

Lemma pay_validator_ends total issuance val pts w :
  BondDuration < next → I w → wp (pay_validator paid total issuance val pts) (ends I) w.
Proof using I_AtStake I_mint.
  intros Hgt Hw. unfold pay_validator. cbv zeta. case_match; [done|].
  unfold AtStake_take. straight_run.
  case_match; [by apply I_mint, I_AtStake|]. case_match.
  apply wp_bind. eapply wp_mono; [|by apply I_mint, I_AtStake].
  intros [u w'|e w'|]; cbn [bind_post ends]; [|done..]. intros Hw'.
  apply (wp_for_each I); [done| |done]. intros x w'' _ Hw''.
  eapply wp_mono; [|by apply I_mint]. by intros [].
Qed.

Lemma pay_stakers_ends w :
  (next <= BondDuration → I w) →
  (BondDuration < next →
    I (set_AwardedPts (filter (λ kv : Z * Z * Z, kv.1.1 ≠ paid) (AwardedPts w)) w)) →
  wp (pay_stakers next) (ends I) w.
Proof using I_AtStake I_mint.
  intros Hw Hdrain. unfold pay_stakers. apply wp_when.
  2: { intros Hle. apply Hw. destruct (Z.gtb_spec next BondDuration); [done|lia]. }
  intros Hgt%Z.gtb_lt. cbv zeta. unfold AwardedPts_drain_prefix. straight_run.
  apply (wp_for_each I); [by apply Hdrain| |done]. intros [val pts] w' _ Hw'.
  eapply wp_mono; [|by apply pay_validator_ends]. by intros [].
Qed.
End payments.

(** The loop over the chosen accounts: it never panics when they are candidates, and
    it changes the exposures and the events only. *)
Lemma wp_snapshot_validators next l n t (Q : O (Z * Balance) → Prop) w :
  (∀ a, a ∈ l → is_Some (Candidates w !! a)) →
  (∀ n' evs, n' = foldl (λ n _, n ⊞ 1) n l →
    Q (Done (n', exposed_total (Candidates w) l t)
        (set_events (events w ++ evs)
          (set_AtStake (record_exposures next (Candidates w) l (AtStake w)) w)))) →
  wp (snapshot_validators next l n t) Q w.
Proof.
  revert n t w. induction l as [|a l IH]; intros n t w Hl HQ; cbn [snapshot_validators].
  { apply wp_ret. specialize (HQ n [] eq_refl). rewrite app_nil_r in HQ. by destruct w. }
  destruct (Hl a) as [c Hc]; [set_solver|].
  apply wp_bind, wp_gets. cbn [bind_post]. apply wp_bind, wp_expect; [|congruence].
  intros c' Hc'. assert (c' = c) as -> by congruence. cbn [bind_post].
  apply wp_bind, wp_modify. cbn [bind_post].
  unfold deposit_event. apply wp_bind, wp_modify. cbn [bind_post].
  cbn [foldl record_exposures exposed_total] in HQ. rewrite Hc in HQ.
  apply IH; wsimpl; [set_solver|]. intros n' evs Hn'. rewrite <-app_assoc.
  apply (HQ n' _ Hn').
Qed.

Lemma record_exposures_lookup next cands l m r a :
  NoDup l →
  record_exposures next cands l m !! (r, a) =
    if decide (r = next ∧ a ∈ l) then
      match cands !! a with
      | Some c => Some (Validator.into_snapshot c)
      | None => m !! (r, a)
      end
    else m !! (r, a).
Proof.
  intros Hnd. revert m. induction Hnd as [|b l Hb Hnd IH]; intros m; cbn.
  { case_decide as H; [set_solver|done]. }
  rewrite IH. destruct (decide (r = next ∧ a ∈ l)) as [[-> Hl]|Hn].
  - rewrite (decide_True (P := next = next ∧ a ∈ b :: l)) by set_solver.
    destruct (cands !! a); [done|].
    destruct (cands !! b); [|done]. apply lookup_insert_ne. congruence.
  - destruct (decide (r = next ∧ a ∈ b :: l)) as [[-> Hl]|Hn'].
    + assert (a = b) as -> by set_solver. destruct (cands !! b); [|done].
      apply lookup_insert_eq.
    + destruct (cands !! b); [|done]. apply lookup_insert_ne. set_solver.
Qed.
End logic.

(** The statements of the pallet. *)
Ltac stake_step :=
  lazymatch goal with
  | |- wp (signed _) _ _ => apply wp_signed; [intros ? ?|intros ?]
  | |- wp (ensure_ _ _) _ _ => apply wp_ensure_; intros ?
  | |- wp (ok_or_ _ _) _ _ => apply wp_ok_or_; [intros ? ?|intros ?]
  | |- wp (Currency_reserve _ _) _ _ => apply wp_reserve; [intros ? ?|intros ? ?]
  | |- wp (Currency_unreserve _ _) _ _ => apply wp_modify
  | |- wp (deposit_event _) _ _ => apply wp_modify
  | |- wp (Candidates_insert _ _) _ _ => apply wp_modify
  | |- wp (Candidates_remove _) _ _ => apply wp_modify
  | |- wp (Nominators_insert _ _) _ _ => apply wp_modify
  | |- wp (Nominators_remove _) _ _ => apply wp_modify
  | |- wp (Total_put _) _ _ => apply wp_modify
  | |- wp (CandidatePool_put _) _ _ => apply wp_modify
  | |- wp (ExitQueue_put _) _ _ => apply wp_modify
  | |- wp (when _ (update_active _ _)) _ _ => fail
  | |- wp (let '(_, _) := ?x in _) _ _ => fail
  | |- wp (match ?x with _ => _ end) _ _ => fail
  | |- _ => wp_step
  end.
(** Execute up to the next call to [update_active] or the next data [match]. *)
Ltac stake_run := repeat (stake_step; cbn beta iota).

(** Step over a call to [update_active], whose pool does not matter. *)
Ltac skip_update Hreg :=
  apply wp_update_active; [apply Hreg|]; intros ? _ _; cbn [bind_post]; stake_run.
