(* ===== verification/Registry.v ===== *)
(** * Candidates, the candidate pool and the exit queue agree

    The pool holds exactly the active candidates, each with its total stake; the exit
    queue holds exactly the leaving candidates, each with its exit round. Every
    dispatchable, the hooks and the genesis build keep this, whatever the arguments,
    and whether they succeed or fail; so the [expect] of
    [best_candidates_become_validators] never panics. *)

From S2P Require Import Prelude OrderedSet Frame StakeTypes BondMap Inflation Stake.
From S2P Require Import StakeLogic.

(** What the pool and the queue should hold for a candidate. *)
Definition pool_entry (c : Validator.t) : option Balance :=
  if Validator.is_active c then Some (Validator.total c) else None.
Definition exit_entry (c : Validator.t) : option RoundIndex :=
  match Validator.state c with Leaving r => Some r | _ => None end.

Record registry_ok (cands : gmap Z Validator.t) (pool queue : list Bond) : Prop := {
  pool_sorted : sorted pool;
  pool_exact a : bond_map pool !! a = cands !! a ≫= pool_entry;
  queue_sorted : sorted queue;
  queue_exact a : bond_map queue !! a = cands !! a ≫= exit_entry;
  candidate_id a c : cands !! a = Some c → Validator.id c = a;
  candidate_sorted a c : cands !! a = Some c → sorted (Validator.nominators c);
}.

Definition nominators_ok (noms : gmap Z Nominator.t) : Prop :=
  map_Forall (λ _ n, sorted (Nominator.nominations n)) noms.

Definition pool_inv {Cur} (w : World Cur) : Prop :=
  registry_ok (Candidates w) (CandidatePool w) (ExitQueue w) ∧
  nominators_ok (Nominators w) ∧
  sorted (Validators w).

(** Two worlds that differ outside these five items satisfy it together. *)
Definition same_registry {Cur} (w w' : World Cur) : Prop :=
  Candidates w' = Candidates w ∧ CandidatePool w' = CandidatePool w ∧
  ExitQueue w' = ExitQueue w ∧ Nominators w' = Nominators w ∧ Validators w' = Validators w.

Lemma same_registry_inv {Cur} (w w' : World Cur) :
  same_registry w w' → pool_inv w → pool_inv w'.
Proof. intros (H1 & H2 & H3 & H4 & H5). unfold pool_inv. by rewrite H1, H2, H3, H4, H5. Qed.

#[export] Instance same_registry_equiv {Cur} : Equivalence (@same_registry Cur).
Proof.
  unfold same_registry. split; [done|intros x y (?&?&?&?&?); by split_and!|].
  intros x y z (?&?&?&?&?) (?&?&?&?&?). split_and!; congruence.
Qed.

(** ** Transitions of the registry *)

Section transitions.
Context {cands : gmap Z Validator.t} {pool queue : list Bond}.
Hypothesis Hok : registry_ok cands pool queue.

(** A candidate changes its stake but not its status. *)
Lemma registry_update a c0 c pool' :
  cands !! a = Some c0 → Validator.state c = Validator.state c0 →
  Validator.id c = Validator.id c0 → sorted (Validator.nominators c) →
  sorted pool' →
  bond_map pool' =
    (if Validator.is_active c0 then <[a:=Validator.total c]> (bond_map pool)
     else bond_map pool) →
  registry_ok (<[a:=c]> cands) pool' queue.
Proof using Hok.
  intros Ha Hst Hid Hsn Hsp Hmap.
  assert (Validator.is_active c = Validator.is_active c0) as Hact.
  { unfold Validator.is_active. by rewrite Hst. }
  split; try apply Hok; [done| | | |].
  - intros b. rewrite Hmap, lookup_insert. case_decide as Hab.
    + subst b. cbn. unfold pool_entry. rewrite Hact.
      destruct (Validator.is_active c0) eqn:E; [apply lookup_insert_eq|].
      rewrite (pool_exact _ _ _ Hok), Ha. cbn. unfold pool_entry. by rewrite E.
    + rewrite <-(pool_exact _ _ _ Hok). destruct (Validator.is_active c0); [|done].
      by apply lookup_insert_ne.
  - intros b. rewrite (queue_exact _ _ _ Hok), lookup_insert. case_decide as Hab; [|done].
    subst b. rewrite Ha. cbn. unfold exit_entry. by rewrite Hst.
  - intros b d. rewrite lookup_insert. case_decide as Hab.
    + intros [= <-]. rewrite Hid. subst b. by eapply candidate_id.
    + by apply (candidate_id _ _ _ Hok).
  - intros b d. rewrite lookup_insert. case_decide; [by intros [= <-]|].
    by apply (candidate_sorted _ _ _ Hok).
Qed.

(** A candidate changes its status only. *)
Lemma registry_status a c0 c pool' queue' :
  cands !! a = Some c0 → Validator.id c = Validator.id c0 →
  Validator.nominators c = Validator.nominators c0 →
  sorted pool' → sorted queue' →
  (∀ b, bond_map pool' !! b = if decide (b = a) then pool_entry c else bond_map pool !! b) →
  (∀ b, bond_map queue' !! b = if decide (b = a) then exit_entry c else bond_map queue !! b) →
  registry_ok (<[a:=c]> cands) pool' queue'.
Proof using Hok.
  intros Ha Hid Hn Hsp Hsq Hp Hq. split; [done| |done| | |].
  - intros b. rewrite Hp, lookup_insert. case_decide as H1.
    + subst b. by rewrite decide_True.
    + rewrite decide_False by done. apply Hok.
  - intros b. rewrite Hq, lookup_insert. case_decide as H1.
    + subst b. by rewrite decide_True.
    + rewrite decide_False by done. apply Hok.
  - intros b d. rewrite lookup_insert. case_decide as Hab.
    + intros [= <-]. rewrite Hid. subst b. by eapply candidate_id.
    + by apply (candidate_id _ _ _ Hok).
  - intros b d. rewrite lookup_insert. case_decide as Hab.
    + intros [= <-]. rewrite Hn. by eapply candidate_sorted.
    + by apply (candidate_sorted _ _ _ Hok).
Qed.

(** A new active candidate without nominators. *)
Lemma registry_join a fee bond pool' :
  cands !! a = None → sorted pool' → bond_map pool' = <[a:=bond]> (bond_map pool) →
  registry_ok (<[a:=Validator.new a fee bond]> cands) pool' queue.
Proof using Hok.
  intros Ha Hsp Hmap. split; try apply Hok; [done| | | |].
  - intros b. rewrite Hmap, !lookup_insert. case_decide; [done|]. apply Hok.
  - intros b. rewrite (queue_exact _ _ _ Hok), lookup_insert.
    case_decide as Hab; [|done]. subst b. by rewrite Ha.
  - intros b d. rewrite lookup_insert. case_decide; [by intros [= <-]|].
    by apply (candidate_id _ _ _ Hok).
  - intros b d. rewrite lookup_insert. case_decide; [intros [= <-]; constructor|].
    by apply (candidate_sorted _ _ _ Hok).
Qed.

(** The leaving candidates of which [gone] holds are removed. *)
Lemma registry_exit (gone : Bond → Prop) `{!∀ b, Decision (gone b)} cands' :
  (∀ a, cands' !! a =
    match bond_map queue !! a with
    | Some r => if decide (gone {| owner := a; amount := r |}) then None else cands !! a
    | None => cands !! a
    end) →
  registry_ok cands' pool (filter (λ b, ¬ gone b) queue).
Proof using Hok.
  intros Hc. pose proof (queue_sorted _ _ _ Hok) as Hsq.
  assert (∀ a, bond_map (filter (λ b, ¬ gone b) queue) !! a =
    match bond_map queue !! a with
    | Some r => if decide (gone {| owner := a; amount := r |}) then None else Some r
    | None => None
    end) as Hq.
  { intros a. apply option_eq. intros r.
    rewrite bond_map_elem, list_elem_of_filter, <-bond_map_elem
      by (try apply sorted_filter; done).
    destruct (bond_map queue !! a) as [r'|]; [|naive_solver].
    case_decide; naive_solver. }
  assert (∀ a c, cands' !! a = Some c → cands !! a = Some c) as Hsub.
  { intros a c. rewrite Hc. destruct (bond_map queue !! a); [case_decide|]; done. }
  split.
  - apply Hok.
  - intros a. rewrite (pool_exact _ _ _ Hok), Hc.
    pose proof (queue_exact _ _ _ Hok a) as Hqa.
    destruct (bond_map queue !! a) as [r|]; [|done]. case_decide; [|done].
    destruct (cands !! a) as [c|]; [|done]. cbn in *. unfold exit_entry, pool_entry in *.
    unfold Validator.is_active. by destruct (Validator.state c).
  - by apply sorted_filter.
  - intros a. rewrite Hq, Hc. pose proof (queue_exact _ _ _ Hok a) as Hqa.
    destruct (bond_map queue !! a) as [r|]; [|done]. by case_decide.
  - intros a c Ha. by eapply candidate_id; [|apply Hsub].
  - intros a c Ha. by eapply candidate_sorted; [|apply Hsub].
Qed.
End transitions.

Lemma nominators_ok_insert noms a n :
  nominators_ok noms → sorted (Nominator.nominations n) → nominators_ok (<[a:=n]> noms).
Proof. intros. by apply map_Forall_insert_2. Qed.

Lemma nominators_ok_delete noms a : nominators_ok noms → nominators_ok (delete a noms).
Proof. apply map_Forall_delete. Qed.

Lemma sort_Z_sorted (l : list Z) : NoDup l → sorted (sort l).
Proof.
  intros Hnd. pose proof (sort_ordered l) as Hs. rewrite <-(sort_perm l) in Hnd.
  revert Hnd. generalize dependent (sort l). intros s Hs.
  induction Hs as [|x s Hs IH Hx]; [constructor|]. intros [Hxs Hnd]%NoDup_cons.
  apply sorted_cons. split; [|auto]. rewrite Forall_forall in *. intros y Hy.
  specialize (Hx y Hy). unfold not_after, before in *. cbn in *.
  destruct (x ?= y) eqn:E; [|done..]. apply Z.compare_eq in E. congruence.
Qed.

(** ** Every function of the pallet keeps the invariant *)

Section preservation.
Context {Origin Cur : Type}.
Context `{FO : FrameOrigin Origin, MO : MonetaryPolicyOrigin Origin, CU : Currency Cur}.
Context `{PO : PerbillOps, US : UnstableSort, IO : IterationOrder, SC : StakeConfig}.
Implicit Types (w : World Cur) (origin : Origin).


(** How a dispatchable may end in a world that satisfies the invariant: it succeeds and
    keeps the invariant, or it fails and leaves no trace; it does not panic. *)
Definition settled {A} (w : World Cur) (o : Outcome (World Cur) (DispatchError Error) A) : Prop :=
  match o with
  | Done _ w' => pool_inv w'
  | Failed _ w' => w' = w
  | Panicked => False
  end.

Lemma settled_keeps {A} w (o : Outcome (World Cur) (DispatchError Error) A) :
  pool_inv w → settled w o → keeps pool_inv o.
Proof. destruct o; cbn; congruence. Qed.

Lemma settled_atomic {A} w (o : Outcome (World Cur) (DispatchError Error) A) :
  settled w o → atomic w o.
Proof. by destruct o. Qed.

(** Split an [insert] of a bond into its two outcomes. *)
Ltac destruct_insert Hs i l Hl H :=
  match goal with
  | |- context [OrderedSet.insert ?s ?b] =>
      pose proof (insert_bond s b Hs) as H;
      destruct (OrderedSet.insert s b) as [i l]; cbn beta iota delta [owner amount] in H;
      destruct H as [Hl H]
  end.
(** The registry, the nominators and the validators of the final world. *)
Ltac finish_pool :=
  cbn [settled keeps]; unfold pool_inv; wsimpl; split_and!; try assumption.
(** The nominators of a stored candidate are sorted. *)
Ltac candidate_is_sorted Hreg :=
  match goal with
  | H : Candidates _ !! _ = Some _ |- sorted _ =>
      exact (candidate_sorted _ _ _ Hreg _ _ H)
  end.
(** A branch that ends in an error. *)
Ltac failed := try (cbn [settled]; done).

Lemma join_candidates_settled origin fee bond w :
  pool_inv w → wp (join_candidates origin fee bond) (settled w) w.
Proof.
  intros (Hreg & Hnoms & Hvals). unfold join_candidates.
  stake_run; failed. destruct_insert (pool_sorted _ _ _ Hreg) i pool Hps Hi.
  stake_run; failed. subst i. finish_pool.
  destruct (bond_map (CandidatePool w) !! a); [naive_solver|].
  apply (registry_join Hreg); [|done|naive_solver].
  unfold is_candidate in *. by destruct (Candidates w !! a).
Qed.

Lemma leave_candidates_settled origin w :
  pool_inv w → wp (leave_candidates origin) (settled w) w.
Proof.
  intros (Hreg & Hnoms & Hvals). unfold leave_candidates.
  stake_run; failed. destruct_insert (queue_sorted _ _ _ Hreg) i queue Hqs Hi.
  stake_run; failed. subst i.
  apply wp_remove_from_pool; [apply Hreg|]. intros pool Hs Hm. cbn [bind_post].
  stake_run. finish_pool. eapply (registry_status Hreg); [done..| |].
  - intros b. rewrite Hm, lookup_delete. by repeat case_decide.
  - destruct (bond_map (ExitQueue w) !! a); [naive_solver|].
    destruct Hi as (_ & Hq & _). intros b. rewrite Hq, lookup_insert. by repeat case_decide.
Qed.

Lemma go_offline_settled origin w : pool_inv w → wp (go_offline origin) (settled w) w.
Proof.
  intros (Hreg & Hnoms & Hvals). unfold go_offline. stake_run; failed.
  apply wp_remove_from_pool; [apply Hreg|]. intros pool Hs Hm. cbn [bind_post].
  stake_run. finish_pool. eapply (registry_status Hreg); [done..|apply Hreg| |].
  - intros b. rewrite Hm, lookup_delete. by repeat case_decide.
  - intros b. case_decide as Hb; [|done]. subst b. rewrite (queue_exact _ _ _ Hreg).
    destruct (Candidates w !! a) as [c|]; [|done]. cbn.
    unfold Validator.is_active, exit_entry in *. simplify_eq. by destruct (Validator.state _).
Qed.

Lemma go_online_settled origin w : pool_inv w → wp (go_online origin) (settled w) w.
Proof.
  intros (Hreg & Hnoms & Hvals). unfold go_online. stake_run; failed.
  destruct_insert (pool_sorted _ _ _ Hreg) i pool Hps Hi. stake_run; failed. subst i.
  finish_pool. cbn in Hi.
  destruct (bond_map (CandidatePool w) !! a); [naive_solver|].
  destruct Hi as (_ & Hm & _). eapply (registry_status Hreg); [done..|apply Hreg| |].
  - intros b. rewrite Hm, lookup_insert. by repeat case_decide.
  - intros b. case_decide as Hb; [|done]. subst b. rewrite (queue_exact _ _ _ Hreg).
    destruct (Candidates w !! a) as [c|]; [|done]. cbn.
    unfold Validator.is_leaving, exit_entry in *. simplify_eq. by destruct (Validator.state _).
Qed.

(** Execute [update_active] and the writes that follow it. *)
Ltac update_active_step Hreg pool Hps Hpm :=
  apply wp_update_active; [apply Hreg|]; intros pool Hps Hpm; cbn [bind_post]; stake_run.

Lemma candidate_bond_more_settled origin more w :
  pool_inv w → wp (candidate_bond_more origin more) (settled w) w.
Proof.
  intros (Hreg & Hnoms & Hvals). unfold candidate_bond_more. stake_run; failed.
  update_active_step Hreg pool Hps Hpm. finish_pool.
  eapply (registry_update Hreg); [done|done|done| |done|done].
  by candidate_is_sorted Hreg.
Qed.

Lemma candidate_bond_less_settled origin less w :
  pool_inv w → wp (candidate_bond_less origin less) (settled w) w.
Proof.
  intros (Hreg & Hnoms & Hvals). unfold candidate_bond_less. stake_run; failed.
  unfold Validator.bond_less. destruct (_ >? less).
  - stake_run; failed. update_active_step Hreg pool Hps Hpm. finish_pool.
    eapply (registry_update Hreg); [done|done|done| |done|done].
    by candidate_is_sorted Hreg.
  - stake_run; failed.
Qed.

(** The two internal functions leave the nominators' side alone. *)
Definition settled_noms {A} (w : World Cur)
    (o : Outcome (World Cur) (DispatchError Error) A) : Prop :=
  settled w o ∧ match o with Done _ w' => Nominators w' = Nominators w | _ => True end.

Lemma nominator_joins_validator_settled nominator amount validator w :
  pool_inv w → wp (nominator_joins_validator nominator amount validator) (settled_noms w) w.
Proof.
  intros (Hreg & Hnoms & Hvals). unfold nominator_joins_validator, settled_noms.
  stake_run; failed.
  destruct_insert (candidate_sorted _ _ _ Hreg _ _ H) i l Hl Hi.
  stake_run; failed. update_active_step Hreg pool Hps Hpm. split; [|done]. finish_pool.
  by eapply (registry_update Hreg).
Qed.

Lemma nominator_leaves_validator_settled nominator validator w :
  pool_inv w → wp (nominator_leaves_validator nominator validator) (settled_noms w) w.
Proof.
  intros (Hreg & Hnoms & Hvals). unfold nominator_leaves_validator, settled_noms.
  stake_run; failed. pose proof (candidate_sorted _ _ _ Hreg _ _ H) as Hsn.
  rewrite extract_bond_map by done.
  stake_run; failed. update_active_step Hreg pool Hps Hpm. split; [|done]. finish_pool.
  eapply (registry_update Hreg); [done|done|done| |done|done]. apply from_sorted.
Qed.

Lemma nominator_revokes_validator_settled acc validator w :
  pool_inv w → wp (nominator_revokes_validator acc validator) (settled w) w.
Proof.
  intros Hw. destruct (Hw) as (Hreg & Hnoms & Hvals). unfold nominator_revokes_validator.
  stake_run; failed. pose proof (Hnoms _ _ H) as Hsn. cbn in Hsn.
  rewrite rm_nomination_eq by done.
  destruct (bond_map _ !! validator); stake_run; failed.
  eapply wp_mono; [|by apply nominator_leaves_validator_settled].
  intros [u w'|e w'|] [Ho Hn]; cbn [settled bind_post] in *; [|done..].
  stake_run. destruct Ho as (Hreg' & Hnoms' & Hvals'). finish_pool.
  apply nominators_ok_insert; [done|]. by apply without_sorted.
Qed.

Lemma revoke_nomination_settled origin validator w :
  pool_inv w → wp (revoke_nomination origin validator) (settled w) w.
Proof.
  intros Hw. unfold revoke_nomination. stake_run; failed.
  by apply nominator_revokes_validator_settled.
Qed.

Lemma join_nominators_settled origin validator amount w :
  pool_inv w → wp (join_nominators origin validator amount) (settled w) w.
Proof.
  intros Hw. unfold join_nominators. stake_run; failed.
  eapply wp_mono; [|by apply nominator_joins_validator_settled].
  intros [u w'|e w'|] [Ho Hn]; cbn [settled bind_post] in *; [|done..].
  stake_run. destruct Ho as (Hreg' & Hnoms' & Hvals'). finish_pool.
  apply nominators_ok_insert; [done|]. apply singleton_sorted.
Qed.

(** [leave_nominators] may fail after it has left some of the validators. *)
Lemma leave_nominators_keeps origin w :
  pool_inv w → wp (leave_nominators origin) (keeps pool_inv) w.
Proof.
  intros Hw. unfold leave_nominators. stake_run; try exact Hw.
  apply (wp_for_each pool_inv); [done| |].
  - intros b w' _ Hw'.
    eapply wp_mono; [|by apply nominator_leaves_validator_settled].
    intros [u w''|e w''|] [Ho Hn]; cbn [settled keeps] in *; [done| |done]. by subst.
  - intros w' (Hreg' & Hnoms' & Hvals'). cbn [bind_post]. stake_run. finish_pool.
    by apply nominators_ok_delete.
Qed.

Lemma nominate_new_settled origin validator amount w :
  pool_inv w → wp (nominate_new origin validator amount) (settled w) w.
Proof.
  intros (Hreg & Hnoms & Hvals). unfold nominate_new. stake_run; failed.
  pose proof (Hnoms _ _ H1) as Hsn. cbn in Hsn.
  match goal with |- context [Nominator.add_nomination ?n ?b] =>
    pose proof (add_nomination_eq n b Hsn) as Ha;
    destruct (Nominator.add_nomination n b) as [added n'] end.
  destruct Ha as [Hsn' _]. stake_run; failed.
  match goal with |- context [OrderedSet.insert (Validator.nominators ?c) _] =>
    assert (sorted (Validator.nominators c)) as Hsc by candidate_is_sorted Hreg end.
  destruct_insert Hsc i l Hl Hi.
  stake_run; failed. update_active_step Hreg pool Hps Hpm. finish_pool.
  - by eapply (registry_update Hreg).
  - by apply nominators_ok_insert.
Qed.

Lemma nominator_bond_more_settled origin candidate more w :
  pool_inv w → wp (nominator_bond_more origin candidate more) (settled w) w.
Proof.
  intros (Hreg & Hnoms & Hvals). unfold nominator_bond_more. stake_run; failed.
  pose proof (Hnoms _ _ H0) as Hsn. pose proof (candidate_sorted _ _ _ Hreg _ _ H1) as Hsc.
  cbn in Hsn. rewrite inc_nomination_eq by done.
  destruct (bond_map (Nominator.nominations _) !! candidate); stake_run; failed.
  rewrite inc_nominator_eq by done.
  update_active_step Hreg pool Hps Hpm. finish_pool.
  - destruct (bond_map (Validator.nominators _) !! _);
      eapply (registry_update Hreg); try done. by apply replace_bond_sorted.
  - apply nominators_ok_insert; [done|]. by apply replace_bond_sorted.
Qed.

Lemma nominator_bond_less_settled origin candidate less w :
  pool_inv w → wp (nominator_bond_less origin candidate less) (settled w) w.
Proof.
  intros (Hreg & Hnoms & Hvals). unfold nominator_bond_less. stake_run; failed.
  pose proof (Hnoms _ _ H0) as Hsn. pose proof (candidate_sorted _ _ _ Hreg _ _ H1) as Hsc.
  cbn in Hsn. rewrite dec_nomination_eq by done.
  destruct (bond_map (Nominator.nominations _) !! candidate) as [y|];
    [destruct (y >? less)|]; stake_run; simplify_eq; failed.
  rewrite dec_nominator_eq by done.
  update_active_step Hreg pool Hps Hpm. finish_pool.
  - destruct (bond_map (Validator.nominators _) !! _);
      eapply (registry_update Hreg); try done. by apply replace_bond_sorted.
  - apply nominators_ok_insert; [done|]. by apply replace_bond_sorted.
Qed.

Lemma switch_nomination_settled origin old new w :
  pool_inv w → wp (switch_nomination origin old new) (settled w) w.
Proof.
  intros (Hreg & Hnoms & Hvals). unfold switch_nomination. stake_run; failed.
  apply negb_true_iff, Z.eqb_neq in H0.
  pose proof (Hnoms _ _ H1) as Hsn. cbn in Hsn.
  pose proof (candidate_sorted _ _ _ Hreg _ _ H2) as Hso.
  pose proof (candidate_sorted _ _ _ Hreg _ _ H3) as Hsc.
  pose proof (swap_nomination_eq a0 old new Hsn) as Hsw.
  destruct (Nominator.swap_nomination a0 old new) as [o n']. destruct Hsw as (Hsn' & _ & _).
  stake_run; failed. destruct o as [[swapped new_amt]|]; simplify_eq/=.
  assert (∃ tot0, Validator.rm_nominator a1 a =
    (tot0, Validator.set_nominators_total a1 (without a (Validator.nominators a1)) tot0))
    as (tot0 & ->) by (rewrite rm_nominator_eq by done; by eexists).
  cbn beta iota zeta.
  assert (∃ l tot,
    (if new_amt >? swapped then Validator.update_nominator a2 a new_amt
     else Validator.add_nominator a2 a swapped) = (tot, Validator.set_nominators_total a2 l tot)
    ∧ sorted l) as (l & tot & -> & Hl).
  { destruct (new_amt >? swapped).
    - rewrite update_nominator_eq by done. eexists _, _. split; [done|].
      by apply replace_bond_sorted.
    - destruct (add_nominator_eq a2 a swapped Hsc) as (l & -> & Hl & _). by eexists _, _. }
  apply wp_bind. apply wp_update_active; [apply Hreg|]. intros pool1 Hps1 Hpm1.
  cbn [bind_post]. apply wp_bind. apply wp_update_active; [done|]. wsimpl.
  intros pool2 Hps2 Hpm2. cbn [bind_post]. stake_run. finish_pool.
  - assert (registry_ok (<[old:=Validator.set_nominators_total a1
        (without a (Validator.nominators a1)) tot0]> (Candidates w)) pool1 (ExitQueue w)) as Hreg1.
    { eapply (registry_update Hreg); [done..|exact (without_sorted _ _ Hso)|done|exact Hpm1]. }
    eapply (registry_update Hreg1);
      [by rewrite lookup_insert_ne|done|done|exact Hl|done|exact Hpm2].
  - by apply nominators_ok_insert.
Qed.

Lemma set_staking_expectations_settled origin e w :
  pool_inv w → wp (set_staking_expectations origin e) (settled w) w.
Proof. intros Hw. unfold set_staking_expectations. stake_run; failed. Qed.

Lemma set_inflation_settled origin s w :
  0 < BlocksPerRound <= BLOCKS_PER_YEAR →
  pool_inv w → wp (set_inflation origin s) (settled w) w.
Proof.
  intros Hb Hw. unfold set_inflation. stake_run; failed.
  by eapply set_annual_rate_total.
Qed.

(** Every call of the module. *)
Definition is_leave_nominators (call : Call) : bool :=
  match call with Call_leave_nominators => true | _ => false end.

#[local] Hint Resolve set_staking_expectations_settled set_inflation_settled
  join_candidates_settled leave_candidates_settled go_offline_settled go_online_settled
  candidate_bond_more_settled candidate_bond_less_settled join_nominators_settled
  nominate_new_settled switch_nomination_settled revoke_nomination_settled
  nominator_bond_more_settled nominator_bond_less_settled : handlers.

Lemma dispatch_settled origin call w :
  0 < BlocksPerRound <= BLOCKS_PER_YEAR → is_leave_nominators call = false →
  pool_inv w → wp (dispatch origin call) (settled w) w.
Proof.
  intros Hb Hl Hw. destruct call; cbn [dispatch]; try done; auto with handlers.
Qed.

Lemma dispatch_keeps origin call w :
  0 < BlocksPerRound <= BLOCKS_PER_YEAR →
  pool_inv w → wp (dispatch origin call) (keeps pool_inv) w.
Proof.
  intros Hb Hw. destruct (is_leave_nominators call) eqn:E.
  - destruct call; try done. by apply leave_nominators_keeps.
  - eapply wp_mono; [intros o; by apply settled_keeps|by apply dispatch_settled].
Qed.

(** ** The hooks *)

(** The payments do not touch the registry. *)
Lemma pay_stakers_registry next w : wp (pay_stakers next) (ends (same_registry w)) w.
Proof.
  apply pay_stakers_ends; [done| |done..]. intros w' amt to Hw'. by apply wp_mint.
Qed.

(** The loop over the nominators of an exiting candidate changes the nominators and the
    currency only. *)
Lemma exit_nominators_keeps who l (Q : Outcome (World Cur) (DispatchError Error) unit → Prop) w :
  nominators_ok (Nominators w) →
  (∀ noms c, nominators_ok noms → Q (Done tt (set_currency c (set_Nominators noms w)))) →
  wp (for_each l (exit_nominator who)) Q w.
Proof.
  intros Hn HQ.
  apply (wp_for_each (λ w', ∃ noms c, nominators_ok noms ∧ w' = set_currency c (set_Nominators noms w))).
  - exists (Nominators w), (currency w). split; [done|]. by destruct w.
  - intros b w' _ (noms & c & Hok & ->). unfold exit_nominator. stake_run. wsimpl.
    destruct (noms !! owner b) as [n|] eqn:E; [|by apply wp_ret; eexists _, _].
    rewrite rm_nomination_eq by by apply (Hok _ _ E).
    destruct (bond_map _ !! who); [|by apply wp_ret; eexists _, _].
    case_match; apply wp_modify; eexists _, _; (split; [|reflexivity]).
    + by apply nominators_ok_delete.
    + apply nominators_ok_insert; [done|]. apply without_sorted. by apply (Hok _ _ E).
  - intros w' (noms & c & Hok & ->). by apply HQ.
Qed.

(** The entries of the queue that are due, and the candidates that are left. *)
Definition is_due (next : RoundIndex) (b : Bond) : Prop := amount b <= next.
#[export] Instance is_due_dec next b : Decision (is_due next b).
Proof. unfold is_due. apply _. Defined.

Definition due_owners (next : RoundIndex) (l : list Bond) : list AccountId :=
  owner <$> filter (is_due next) l.

Lemma due_owners_snoc next l b :
  due_owners next (l ++ [b]) = due_owners next l ++ (if decide (is_due next b) then [owner b] else []).
Proof. unfold due_owners. rewrite filter_app, fmap_app, filter_cons. by case_decide. Qed.

Lemma due_owners_elem next l a :
  sorted l → a ∈ due_owners next l ↔ ∃ r, bond_map l !! a = Some r ∧ r <= next.
Proof.
  intros Hs. unfold due_owners. rewrite list_elem_of_fmap. split.
  - intros (b & -> & [Hd Hb]%list_elem_of_filter). exists (amount b). split; [|done].
    apply bond_map_elem; [done|]. by destruct b.
  - intros (r & Hr & Hle). exists {| owner := a; amount := r |}. split; [done|].
    apply list_elem_of_filter. split; [done|]. by apply bond_map_elem.
Qed.

(** Two worlds that agree on what belongs to rounds. *)
Definition same_rounds (w w' : World Cur) : Prop :=
  Round w' = Round w ∧ AtStake w' = AtStake w ∧ Staked w' = Staked w ∧
  InflationConfig w' = InflationConfig w ∧ Points w' = Points w ∧ AwardedPts w' = AwardedPts w.

(** The state of the loop over the queue after the entries [xs], of which [ys] stay. *)
Definition exits_inv (w : World Cur) (next : RoundIndex) (xs ys : list Bond) (w' : World Cur) : Prop :=
  ys = filter (λ b, ¬ is_due next b) xs ∧
  nominators_ok (Nominators w') ∧
  (∀ a, Candidates w' !! a =
    if decide (a ∈ due_owners next xs) then None else Candidates w !! a) ∧
  CandidatePool w' = CandidatePool w ∧ ExitQueue w' = ExitQueue w ∧
  Validators w' = Validators w ∧ same_rounds w w'.

Lemma execute_exit_inv next x xs ys w w' :
  exits_inv w next xs ys w' →
  wp (execute_exit next x) (λ o,
    match o with
    | Done o w'' =>
        exits_inv w next (xs ++ [x]) (ys ++ match o with Some y => [y] | None => [] end) w''
    | _ => False
    end) w'.
Proof.
  intros (-> & Hn & Hc & Hp & Hq & Hv & Hrd). unfold execute_exit, exits_inv, same_rounds in *.
  destruct Hrd as (? & ? & ? & ? & ? & ?).
  rewrite filter_app, filter_cons, due_owners_snoc.
  destruct (Z.gtb_spec (amount x) next) as [Hgt|Hle].
  - rewrite (decide_True (P := ¬ is_due next x)), (decide_False (P := is_due next x))
      by (unfold is_due; lia).
    rewrite app_nil_r. by apply wp_ret.
  - rewrite (decide_False (P := ¬ is_due next x)), (decide_True (P := is_due next x))
      by (unfold is_due; lia).
    stake_run. destruct (Candidates w' !! owner x) as [state|] eqn:E.
    + apply wp_bind. apply exit_nominators_keeps; [done|]. intros noms c Hn'. cbn [bind_post].
      stake_run. wsimpl. split_and!; try done.
      intros a. rewrite lookup_delete, Hc. repeat case_decide; set_solver.
    + apply wp_ret. split_and!; try done.
      intros a. rewrite Hc. repeat case_decide; try done; [set_solver|].
      assert (a = owner x) as -> by set_solver. rewrite Hc in E. by rewrite decide_False in E.
Qed.

(** What the execution of the due exits leaves. *)
Lemma execute_exits_inv next w (Q : Outcome (World Cur) (DispatchError Error) unit → Prop) :
  pool_inv w →
  (∀ w', exits_inv w next (ExitQueue w) (filter (λ b, ¬ is_due next b) (ExitQueue w)) w' →
    Q (Done tt (set_ExitQueue (filter (λ b, ¬ is_due next b) (ExitQueue w)) w'))) →
  wp (execute_delayed_validator_exits next) Q w.
Proof.
  intros (Hreg & Hnoms & Hvals) HQ. unfold execute_delayed_validator_exits.
  apply wp_bind, wp_gets. cbn [bind_post]. apply wp_bind.
  apply (wp_filter_map_each (exits_inv w next)).
  - unfold exits_inv. by split_and!.
  - intros x xs ys w' _ _ HI. eapply wp_mono; [|by apply execute_exit_inv].
    by intros [o w''|e w''|].
  - intros ys w' HI. pose proof HI as [-> _]. cbn [bind_post]. apply wp_modify.
    rewrite from_id by (apply sorted_filter, Hreg). by apply HQ.
Qed.

Lemma exits_inv_pool next w w' :
  pool_inv w →
  exits_inv w next (ExitQueue w) (filter (λ b, ¬ is_due next b) (ExitQueue w)) w' →
  pool_inv (set_ExitQueue (filter (λ b, ¬ is_due next b) (ExitQueue w)) w').
Proof.
  intros (Hreg & Hnoms & Hvals) (_ & Hn & Hc & Hp & Hq & Hv & _).
  unfold pool_inv. wsimpl. rewrite Hp, Hv.
  split_and!; [|done..]. apply (registry_exit Hreg (is_due next)).
  intros a. rewrite Hc.
  destruct (decide (a ∈ due_owners next (ExitQueue w))) as [Hd|Hd];
    rewrite due_owners_elem in Hd by apply Hreg.
  - destruct Hd as (r & -> & Hr). by rewrite decide_True.
  - destruct (bond_map (ExitQueue w) !! a) as [r|] eqn:E; [|done].
    rewrite decide_False; [done|]. intros Hr. apply Hd. by exists r.
Qed.

Lemma execute_exits_pool next w :
  pool_inv w → wp (execute_delayed_validator_exits next) (ends pool_inv) w.
Proof.
  intros Hw. apply execute_exits_inv; [done|]. intros w' HI. by apply exits_inv_pool.
Qed.

(** The chosen accounts are distinct members of the pool. *)
Lemma top_candidates_sublist {SL : UnstableSortLaws} pool :
  ∃ rest, top_candidates pool ++ rest ≡ₚ owner <$> pool.
Proof.
  unfold top_candidates. set (l := rev _). set (n := Z.to_nat MaxValidators).
  exists (owner <$> drop n l). rewrite <-fmap_app, take_drop. apply fmap_Permutation.
  unfold l. rewrite <-Permutation_rev. apply sort_unstable_perm.
Qed.

Lemma top_candidates_member {SL : UnstableSortLaws} pool a :
  a ∈ top_candidates pool → a ∈ owner <$> pool.
Proof.
  intros Ha. destruct (top_candidates_sublist pool) as (rest & <-). set_solver.
Qed.

Lemma top_candidates_NoDup {SL : UnstableSortLaws} pool :
  sorted pool → NoDup (top_candidates pool).
Proof.
  intros Hs%sorted_owners_NoDup. destruct (top_candidates_sublist pool) as (rest & Hp).
  rewrite <-Hp in Hs. by apply NoDup_app in Hs as [? _].
Qed.

Lemma pool_member_candidate w a :
  registry_ok (Candidates w) (CandidatePool w) (ExitQueue w) →
  a ∈ owner <$> CandidatePool w → ∃ c, Candidates w !! a = Some c ∧ Validator.is_active c = true.
Proof.
  intros Hreg Ha. pose proof (pool_exact _ _ _ Hreg a) as H.
  destruct (bond_map (CandidatePool w) !! a) eqn:E; cycle 1.
  { by apply bond_map_None in E. }
  destruct (Candidates w !! a) as [c|]; [|done]. cbn in H. unfold pool_entry in H.
  exists c. split; [done|]. by destruct (Validator.is_active c).
Qed.

(** What the selection of the validators does, with the world it leaves. *)
Definition selected (next : RoundIndex) (w : World Cur) (evs : list Event) : World Cur :=
  let l := top_candidates (CandidatePool w) in
  set_Validators (sort l)
    (set_events (events w ++ evs)
      (set_AtStake (record_exposures next (Candidates w) l (AtStake w)) w)).

Lemma wp_best_candidates {SL : UnstableSortLaws} next w
    (Q : Outcome (World Cur) (DispatchError Error) (Z * Balance) → Prop) :
  pool_inv w →
  (∀ evs, let l := top_candidates (CandidatePool w) in
    Q (Done (foldl (λ n _, n ⊞ 1) 0 l, exposed_total (Candidates w) l 0)
        (selected next w evs))) →
  wp (best_candidates_become_validators next) Q w.
Proof.
  intros (Hreg & Hnoms & Hvals) HQ. unfold best_candidates_become_validators.
  apply wp_bind, wp_gets. cbn [bind_post]. cbv zeta. apply wp_bind.
  apply wp_snapshot_validators.
  - intros a Ha%top_candidates_member. apply pool_member_candidate in Ha; [|done].
    destruct Ha as (c & -> & _). by eexists.
  - intros n' evs ->. cbn [bind_post]. apply wp_bind, wp_modify. cbn [bind_post].
    apply wp_ret. apply (HQ evs).
Qed.

Lemma selected_pool {SL : UnstableSortLaws} next w evs :
  pool_inv w → pool_inv (selected next w evs).
Proof.
  intros (Hreg & Hnoms & Hvals). unfold pool_inv, selected. wsimpl. split_and!; try done.
  apply sort_Z_sorted, top_candidates_NoDup, Hreg.
Qed.

Lemma on_finalize_pool {SL : UnstableSortLaws} n w :
  BlocksPerRound ≠ 0 → pool_inv w →
  wp (on_finalize n) (ends pool_inv) w.
Proof.
  intros Hb Hw. unfold on_finalize.
  apply wp_bind, wp_assert; [|rewrite negb_false_iff, Z.eqb_eq; done].
  intros _. cbn [bind_post]. apply wp_when; [|done]. intros _. stake_run.
  eapply wp_mono; [|apply pay_stakers_registry].
  intros [u w1|e w1|]; cbn [bind_post ends]; [|done..].
  intros Hw1%same_registry_inv; [|done]. apply wp_bind.
  eapply wp_mono; [|by apply execute_exits_pool].
  intros [u2 w2|e w2|]; cbn [bind_post ends]; [|done..]. intros Hw2. apply wp_bind.
  apply wp_best_candidates; [done|]. intros evs l. cbn [bind_post]. stake_run.
  by apply (selected_pool (Round w ⊞ 1) w2 evs).
Qed.

Lemma note_author_registry author w :
  wp (note_author author) (ends (same_registry w)) w.
Proof. unfold note_author. by stake_run. Qed.

(** ** Genesis *)

Lemma empty_world_pool config (c : Cur) : pool_inv (empty_world config c).
Proof.
  unfold pool_inv, empty_world. cbn -[lookup bond_map]. split_and!; [|apply map_Forall_empty|constructor].
  split; try done; constructor.
Qed.

Lemma genesis_staker_pool signed_by staker w :
  pool_inv w →
  wp (genesis_staker signed_by staker)
    (λ o, match o with Done _ w' => pool_inv w' | Failed _ _ => False | Panicked => True end) w.
Proof.
  intros Hw. destruct staker as [[actor opt_val] balance]. unfold genesis_staker.
  apply wp_bind, wp_gets. cbn [bind_post]. apply wp_bind, wp_assert; [|done]. intros _.
  cbn [bind_post]. destruct opt_val as [v|]; apply wp_ignore_error;
    (eapply wp_mono; [|by first [apply join_nominators_settled | apply join_candidates_settled]]);
    intros [u w2|e w2|]; cbn [settled]; [done|congruence|done|done|congruence|done].
Qed.

Lemma genesis_build_pool {SL : UnstableSortLaws} signed_by stakers w :
  pool_inv w →
  wp (genesis_build signed_by stakers)
    (λ o, match o with Done _ w' => pool_inv w' | Failed _ _ => False | Panicked => True end) w.
Proof.
  intros Hw. unfold genesis_build. apply wp_bind. apply (wp_for_each pool_inv); [done| |].
  - intros staker w' _ Hw'. eapply wp_mono; [|by apply genesis_staker_pool]. by intros [].
  - intros w' Hw'. cbn [bind_post]. apply wp_bind, wp_best_candidates; [done|].
    intros evs l. cbn [bind_post]. stake_run. by apply (selected_pool 1 w' evs).
Qed.

(** ** Every world the chain can reach *)

(** One step: a call with any origin, the end of a block, a block author, or a change
    that another pallet makes to the currency. The events of a block are cleared at its
    end. *)
Inductive chain_step (w : World Cur) : World Cur → Prop :=
| step_call origin call u w' : dispatch origin call w = Done u w' → chain_step w w'
| step_call_failed origin call e w' : dispatch origin call w = Failed e w' → chain_step w w'
| step_finalize n u w' : on_finalize n w = Done u w' → chain_step w w'
| step_author a u w' : note_author a w = Done u w' → chain_step w w'
| step_currency c : chain_step w (set_currency c w)
| step_clear_events : chain_step w (set_events [] w).

Definition reachable (signed_by : AccountId → Origin)
    (config : InflationInfo.t) (c : Cur)
    (stakers : list (AccountId * option AccountId * Balance)) (w : World Cur) : Prop :=
  ∃ u w0, genesis_build signed_by stakers (empty_world config c) = Done u w0 ∧
  rtc chain_step w0 w.

Lemma chain_step_pool {SL : UnstableSortLaws} w w' :
  0 < BlocksPerRound <= BLOCKS_PER_YEAR → chain_step w w' → pool_inv w → pool_inv w'.
Proof.
  intros Hb Hst Hw.
  destruct Hst as [origin call u w' E|origin call e w' E|n u w' E|a u w' E|c|].
  - pose proof (dispatch_keeps origin call w Hb Hw) as H. unfold wp in H. by rewrite E in H.
  - pose proof (dispatch_keeps origin call w Hb Hw) as H. unfold wp in H. by rewrite E in H.
  - pose proof (on_finalize_pool n w ltac:(lia) Hw) as H. unfold wp in H. by rewrite E in H.
  - pose proof (note_author_registry a w) as H. unfold wp in H. rewrite E in H.
    by eapply same_registry_inv.
  - done.
  - done.
Qed.

Lemma reachable_pool {SL : UnstableSortLaws} signed_by config c stakers w :
  0 < BlocksPerRound <= BLOCKS_PER_YEAR →
  reachable signed_by config c stakers w → pool_inv w.
Proof.
  intros Hb (u & w0 & E & Hr).
  pose proof (genesis_build_pool signed_by stakers _ (empty_world_pool config c)) as Hg.
  unfold wp in Hg. rewrite E in Hg. clear E.
  induction Hr as [|w0 w1 w2 Hst _ IH]; [done|]. apply IH. by apply (chain_step_pool w0).
Qed.

(** The search among the validators decides membership. *)
Lemma is_validator_member w a : sorted (Validators w) → is_validator w a = true ↔ a ∈ Validators w.
Proof.
  intros Hs. pose proof (contains_has_equal (Validators w) a Hs) as H.
  unfold OrderedSet.contains, is_validator in *.
  assert (has_equal a (Validators w) ↔ a ∈ Validators w) as Heq.
  { unfold has_equal. setoid_rewrite Z.compare_eq_iff. naive_solver. }
  rewrite <-Heq, <-H. by destruct (binary_search (Validators w) a).
Qed.
End preservation.
