(* ===== verification/Books.v ===== *)
(** * The books of the stake: bonds, nominations and reserves

    An abstract account of who has staked what with whom, on the two maps of the
    pallet and the reserved balances alone. The two sides of a nomination agree, each
    total is the exact sum of its parts, no account has both roles, and every unit at
    stake is reserved. The lemmas are the transitions that keep the books; [Solvency.v]
    shows that the dispatchables and the hooks are made of them. *)

From S2P Require Import Prelude OrderedSet Frame StakeTypes BondMap.

(** The amount that [a] has nominated [v] with, on either side. *)
Definition nomination (noms : gmap Z Nominator.t) (a v : AccountId) : option Balance :=
  n ← noms !! a; bond_map (Nominator.nominations n) !! v.
Definition backing (cands : gmap Z Validator.t) (v a : AccountId) : option Balance :=
  c ← cands !! v; bond_map (Validator.nominators c) !! a.

(** What an account has at stake: its own bond and its nominations. *)
Definition own_bond (cands : gmap Z Validator.t) (a : AccountId) : Balance :=
  match cands !! a with Some c => Validator.bond c | None => 0 end.
Definition nominated (noms : gmap Z Nominator.t) (a : AccountId) : Balance :=
  match noms !! a with Some n => Nominator.total n | None => 0 end.
Definition staked (cands : gmap Z Validator.t) (noms : gmap Z Nominator.t) (a : AccountId) :
    Balance :=
  own_bond cands a + nominated noms a.

Definition map_sum : gmap Z Z → Z := map_zsum (λ x, x).

Record books (cands : gmap Z Validator.t) (noms : gmap Z Nominator.t) (res : Z → Z) : Prop := {
  cand_sorted v c : cands !! v = Some c → sorted (Validator.nominators c);
  cand_bond v c : cands !! v = Some c → 0 <= Validator.bond c;
  cand_total v c : cands !! v = Some c →
    Validator.total c = Validator.bond c + map_sum (bond_map (Validator.nominators c));
  nom_sorted a n : noms !! a = Some n → sorted (Nominator.nominations n);
  nom_total a n : noms !! a = Some n →
    Nominator.total n = map_sum (bond_map (Nominator.nominations n));
  bilateral a v : nomination noms a v = backing cands v a;
  nomination_pos a v x : nomination noms a v = Some x → 0 < x;
  one_role a : cands !! a = None ∨ noms !! a = None;
  backed a : staked cands noms a <= res a;
}.

(** ** Sums over maps *)

Lemma map_sum_alter (m : gmap Z Z) k (o : option Z) :
  map_sum (partial_alter (λ _, o) k m) = map_sum m - default 0 (m !! k) + default 0 o.
Proof.
  unfold map_sum. assert (map_zsum (λ x, x) (delete k m) = map_zsum (λ x, x) m - default 0 (m !! k))
    as Hd.
  { destruct (m !! k) as [y|] eqn:E; cbn.
    - by apply (map_zsum_delete (λ x, x)).
    - rewrite delete_id by done. lia. }
  destruct o as [x|]; cbn.
  - change (partial_alter (λ _, Some x) k m) with (<[k:=x]> m).
    rewrite <-insert_delete_eq, (map_zsum_insert_new (λ x, x)) by apply lookup_delete_eq. lia.
  - change (partial_alter (λ _, None) k m) with (delete k m). lia.
Qed.

Lemma map_sum_insert (m : gmap Z Z) k x :
  map_sum (<[k:=x]> m) = map_sum m - default 0 (m !! k) + x.
Proof. apply (map_sum_alter m k (Some x)). Qed.

Lemma map_sum_delete (m : gmap Z Z) k :
  map_sum (delete k m) = map_sum m - default 0 (m !! k).
Proof. rewrite <-(Z.add_0_r (_ - _)). apply (map_sum_alter m k None). Qed.

Lemma map_sum_lookup_le (m : gmap Z Z) k :
  (∀ k x, m !! k = Some x → 0 <= x) → 0 <= default 0 (m !! k) <= map_sum m.
Proof.
  intros Hp. destruct (m !! k) as [x|] eqn:E; cbn.
  - split; [by eapply Hp|]. by apply (map_zsum_lookup_le (λ x, x) m k).
  - split; [done|]. by apply map_zsum_nonneg.
Qed.

Lemma map_sum_empty : map_sum ∅ = 0.
Proof. apply map_zsum_empty. Qed.

Lemma map_sum_zero (m : gmap Z Z) :
  (∀ k x, m !! k = Some x → 0 < x) → map_sum m = 0 ↔ m = ∅.
Proof.
  intros Hp. split; [|intros ->; apply map_sum_empty]. intros Hz. apply map_eq. intros k.
  rewrite lookup_empty. destruct (m !! k) as [x|] eqn:E; [|done]. exfalso.
  pose proof (Hp k x E). pose proof (map_sum_lookup_le m k) as Hle. rewrite E, Hz in Hle.
  cbn in Hle. assert (0 <= x <= 0); [|lia]. apply Hle. intros. by apply Z.lt_le_incl, (Hp k0).
Qed.

Lemma map_sum_singleton k x : map_sum {[k:=x]} = x.
Proof.
  rewrite <-insert_empty, map_sum_insert, map_sum_empty, lookup_empty. cbn. lia.
Qed.

(** ** Consequences of the books *)

Section books.
Context {cands : gmap Z Validator.t} {noms : gmap Z Nominator.t} {res : Z → Z}.
Hypothesis Hb : books cands noms res.

Lemma backing_pos v c k x :
  cands !! v = Some c → bond_map (Validator.nominators c) !! k = Some x → 0 < x.
Proof using Hb.
  intros Hc Hx. apply (nomination_pos _ _ _ Hb k v). rewrite (bilateral _ _ _ Hb).
  unfold backing. by rewrite Hc.
Qed.

Lemma nominations_pos a n k x :
  noms !! a = Some n → bond_map (Nominator.nominations n) !! k = Some x → 0 < x.
Proof using Hb.
  intros Hn Hx. apply (nomination_pos _ _ _ Hb a k). unfold nomination. by rewrite Hn.
Qed.

Lemma nominated_nonneg a : 0 <= nominated noms a.
Proof using Hb.
  unfold nominated. destruct (noms !! a) as [n|] eqn:E; [|done].
  rewrite (nom_total _ _ _ Hb a n E). apply map_zsum_nonneg. intros k x Hx.
  apply Z.lt_le_incl. by eapply nominations_pos.
Qed.

Lemma own_bond_nonneg a : 0 <= own_bond cands a.
Proof using Hb.
  unfold own_bond. destruct (cands !! a) eqn:E; [|done]. by eapply cand_bond.
Qed.

(** A nomination is part of what its nominator has at stake, and of the total of its
    candidate. *)
Lemma nomination_le_staked a v x :
  nomination noms a v = Some x → x <= staked cands noms a.
Proof using Hb.
  intros Hx. pose proof (own_bond_nonneg a). unfold staked, nominated, nomination in *.
  destruct (noms !! a) as [n|] eqn:E; [|done]. cbn in Hx.
  pose proof (map_sum_lookup_le (bond_map (Nominator.nominations n)) v) as Hle.
  rewrite Hx, <-(nom_total _ _ _ Hb a n E) in Hle. cbn in Hle.
  assert (0 <= x <= Nominator.total n); [|lia]. apply Hle.
  intros k y Hy. apply Z.lt_le_incl. by eapply nominations_pos.
Qed.

Lemma backing_le_total v c k :
  cands !! v = Some c →
  0 <= Validator.bond c ∧
  0 <= default 0 (bond_map (Validator.nominators c) !! k) ∧
  Validator.bond c + default 0 (bond_map (Validator.nominators c) !! k) <= Validator.total c.
Proof using Hb.
  intros Hc. rewrite (cand_total _ _ _ Hb v c Hc).
  pose proof (cand_bond _ _ _ Hb v c Hc).
  assert (0 <= default 0 (bond_map (Validator.nominators c) !! k) <=
    map_sum (bond_map (Validator.nominators c))); [|lia].
  apply map_sum_lookup_le. intros. apply Z.lt_le_incl. by eapply backing_pos.
Qed.

Lemma nomination_le_total a n k :
  noms !! a = Some n →
  0 <= default 0 (bond_map (Nominator.nominations n) !! k) <= Nominator.total n.
Proof using Hb.
  intros Hn. rewrite (nom_total _ _ _ Hb a n Hn). apply map_sum_lookup_le.
  intros. apply Z.lt_le_incl. by eapply nominations_pos.
Qed.

(** The total of a candidate is held by distinct accounts. *)
Lemma backers_NoDup v c :
  cands !! v = Some c → NoDup (v :: (owner <$> Validator.nominators c)).
Proof using Hb.
  intros Hc. constructor; [|by eapply sorted_owners_NoDup, cand_sorted].
  intros Hin. destruct (bond_map (Validator.nominators c) !! v) as [x|] eqn:E.
  - assert (nomination noms v v = Some x) as Hn.
    { rewrite (bilateral _ _ _ Hb). unfold backing. by rewrite Hc. }
    unfold nomination in Hn. destruct (one_role _ _ _ Hb v); [congruence|].
    by destruct (noms !! v).
  - by apply bond_map_None in E.
Qed.

Lemma total_le_staked v c :
  cands !! v = Some c →
  Validator.total c <=
    zsum (staked cands noms) (v :: (owner <$> Validator.nominators c)).
Proof using Hb.
  intros Hc. rewrite (cand_total _ _ _ Hb v c Hc), zsum_cons.
  assert (Validator.bond c <= staked cands noms v) as Hv.
  { unfold staked, own_bond. rewrite Hc. pose proof (nominated_nonneg v). lia. }
  pose proof (cand_sorted _ _ _ Hb v c Hc) as Hs.
  unfold map_sum. rewrite <-bond_sum_map by done.
  assert (∀ b, b ∈ Validator.nominators c → amount b <= staked cands noms (owner b)) as Hle.
  { intros b Hin. apply (nomination_le_staked _ v). rewrite (bilateral _ _ _ Hb).
    unfold backing. rewrite Hc. cbn. apply bond_map_elem; [done|]. by destruct b. }
  assert (zsum amount (Validator.nominators c) <=
    zsum (staked cands noms) (owner <$> Validator.nominators c)); [|lia].
  revert Hle. generalize (Validator.nominators c). intros l.
  induction l as [|b l IH]; intros Hle; [done|]. rewrite fmap_cons, !zsum_cons.
  pose proof (Hle b ltac:(set_solver)). specialize (IH ltac:(set_solver)). lia.
Qed.

(** With [x] more reserved for [a], adding [x] to a total does not overflow. *)
Lemma total_add_bound (res' : Z → Z) v c a x :
  (∀ l, NoDup l → zsum res' l < U128) →
  (∀ b, staked cands noms b + (if decide (b = a) then x else 0) <= res' b) →
  cands !! v = Some c → 0 <= x → 0 <= Validator.total c + x < U128.
Proof using Hb.
  intros Hiss Hres Hc Hx. split.
  { pose proof (backing_le_total v c 0 Hc). lia. }
  pose proof (total_le_staked v c Hc) as Hle. pose proof (backers_NoDup v c Hc) as Hnd.
  revert Hle Hnd. generalize (v :: (owner <$> Validator.nominators c)). intros l Hle Hnd.
  assert (∀ l, NoDup l → a ∉ l → zsum (staked cands noms) l <= zsum res' l) as Hout.
  { clear -Hres. induction l as [|b l IH]; intros Hnd Hin; [done|].
    apply NoDup_cons in Hnd as [? ?]. rewrite !zsum_cons. specialize (Hres b).
    rewrite decide_False in Hres by set_solver.
    specialize (IH ltac:(done) ltac:(set_solver)). lia. }
  destruct (decide (a ∈ l)) as [Hin|Hin].
  - apply list_elem_of_split in Hin as (l1 & l2 & ->).
    pose proof (Hiss _ Hnd) as Hi.
    rewrite <-Permutation_middle in Hle, Hnd, Hi. apply NoDup_cons in Hnd as [Ha Hnd].
    pose proof (Hout _ Hnd Ha). rewrite zsum_cons in *. specialize (Hres a).
    rewrite decide_True in Hres by done. lia.
  - pose proof (Hiss (a :: l) ltac:(by constructor)) as Hi. rewrite zsum_cons in Hi.
    pose proof (Hout _ Hnd Hin). specialize (Hres a). rewrite decide_True in Hres by done.
    pose proof (own_bond_nonneg a). pose proof (nominated_nonneg a). unfold staked in Hres. lia.
Qed.

Lemma total_bound v c :
  (∀ l, NoDup l → zsum res l < U128) →
  cands !! v = Some c → 0 <= Validator.total c < U128.
Proof using Hb.
  intros Hiss Hc. pose proof (total_add_bound res v c v 0 Hiss) as H.
  rewrite Z.add_0_r in H. apply H; [|done|done]. intros b.
  pose proof (backed _ _ _ Hb b). case_decide; lia.
Qed.
End books.

(** ** Transitions *)

Section transitions.
Context {cands : gmap Z Validator.t} {noms : gmap Z Nominator.t} {res : Z → Z}.
Hypothesis Hb : books cands noms res.

(** Only the reserves change. *)
Lemma books_reserves (res' : Z → Z) :
  (∀ a, staked cands noms a <= res' a) → books cands noms res'.
Proof using Hb. intros Hr. split; try apply Hb. exact Hr. Qed.

(** The nomination of [v] by [a] is set, changed or dropped, on both sides. A new
    nominator starts from [n] without nominations. *)
Lemma books_alter v a c n c' n' (o : option Z) (res' : Z → Z) :
  cands !! v = Some c → cands !! a = None →
  (noms !! a = Some n ∨
   noms !! a = None ∧ n = {| Nominator.nominations := []; Nominator.total := 0 |}) →
  (∀ x, o = Some x → 0 < x) →
  let d := default 0 o - default 0 (bond_map (Nominator.nominations n) !! v) in
  sorted (Validator.nominators c') →
  bond_map (Validator.nominators c') =
    partial_alter (λ _, o) a (bond_map (Validator.nominators c)) →
  Validator.bond c' = Validator.bond c →
  Validator.total c' = Validator.total c + d →
  sorted (Nominator.nominations n') →
  bond_map (Nominator.nominations n') =
    partial_alter (λ _, o) v (bond_map (Nominator.nominations n)) →
  Nominator.total n' = Nominator.total n + d →
  (∀ b, staked cands noms b + (if decide (b = a) then d else 0) <= res' b) →
  books (<[v:=c']> cands) (<[a:=n']> noms) res'.
Proof using Hb.
  intros Hc Hca Hn Ho d Hsc Hmc Hbc Htc Hsn Hmn Htn Hres.
  assert (v ≠ a) as Hva by congruence.
  assert (sorted (Nominator.nominations n) ∧ Nominator.total n = map_sum (bond_map (Nominator.nominations n)) ∧
    nominated noms a = Nominator.total n ∧
    ∀ k, nomination noms a k = bond_map (Nominator.nominations n) !! k) as (Hn1 & Hn2 & Hn3 & Hn4).
  { unfold nominated, nomination. destruct Hn as [Hn|[Hn ->]]; rewrite Hn.
    - split_and!; [by eapply (nom_sorted _ _ _ Hb)|by eapply (nom_total _ _ _ Hb)|done..].
    - split_and!; [apply SSorted_nil|symmetry; apply map_sum_empty|done..]. }
  assert (bond_map (Validator.nominators c) !! a = bond_map (Nominator.nominations n) !! v) as Hbil.
  { rewrite <-Hn4, (bilateral _ _ _ Hb). unfold backing. by rewrite Hc. }
  split.
  - intros k e. rewrite lookup_insert. case_decide; [by intros [= <-]|apply Hb].
  - intros k e. rewrite lookup_insert. case_decide; [intros [= <-]|apply Hb].
    rewrite Hbc. by eapply cand_bond.
  - intros k e. rewrite lookup_insert. case_decide; [intros [= <-]|apply Hb].
    rewrite Hbc, Htc, Hmc, map_sum_alter, (cand_total _ _ _ Hb v c Hc), Hbil. unfold d. lia.
  - intros k e. rewrite lookup_insert. case_decide; [by intros [= <-]|apply Hb].
  - intros k e. rewrite lookup_insert. case_decide; [intros [= <-]|apply Hb].
    rewrite Htn, Hmn, map_sum_alter, Hn2. unfold d. lia.
  - intros b k. pose proof (bilateral _ _ _ Hb b k) as Hbk.
    unfold nomination, backing in *. rewrite !lookup_insert.
    destruct (decide (a = b)) as [<-|Hab], (decide (v = k)) as [<-|Hvk]; cbn;
      rewrite ?Hmc, ?Hmn.
    + by rewrite !lookup_partial_alter_eq.
    + rewrite lookup_partial_alter_ne by done. by rewrite <-Hn4, <-Hbk.
    + rewrite lookup_partial_alter_ne by done. by rewrite Hbk, Hc.
    + done.
  - intros b k x. unfold nomination. rewrite lookup_insert.
    destruct (decide (a = b)) as [<-|Hab]; cbn; [|apply Hb]. rewrite Hmn.
    destruct (decide (v = k)) as [<-|Hvk].
    + rewrite lookup_partial_alter_eq. apply Ho.
    + rewrite lookup_partial_alter_ne by done. rewrite <-Hn4. apply Hb.
  - intros b. rewrite !lookup_insert.
    destruct (decide (v = b)) as [Hvb|Hvb], (decide (a = b)) as [Hab|Hab].
    + congruence.
    + right. destruct (one_role _ _ _ Hb b); [congruence|done].
    + left. congruence.
    + apply Hb.
  - intros b. specialize (Hres b). etransitivity; [|exact Hres].
    assert (own_bond (<[v:=c']> cands) b = own_bond cands b) as Ho'.
    { unfold own_bond. rewrite lookup_insert. destruct (decide (v = b)) as [<-|]; [|done].
      by rewrite Hc. }
    assert (nominated (<[a:=n']> noms) b = nominated noms b + (if decide (b = a) then d else 0)) as Hn'.
    { unfold nominated at 1. rewrite lookup_insert.
      destruct (decide (a = b)) as [Hab|Hab], (decide (b = a)) as [Hba|Hba]; try (exfalso; congruence).
      - rewrite <-Hab, Hn3. lia.
      - fold (nominated noms b). lia. }
    unfold staked. lia.
Qed.

(** A nominator without nominations is forgotten. *)
Lemma books_forget_nominator a n :
  noms !! a = Some n → Nominator.nominations n = [] → books cands (delete a noms) res.
Proof using Hb.
  intros Hn Hnil.
  assert (∀ b k, nomination (delete a noms) b k = nomination noms b k) as Hnom.
  { intros b k. unfold nomination. rewrite lookup_delete. case_decide; [|done].
    subst. rewrite Hn. cbn. by rewrite Hnil. }
  split; try apply Hb.
  - intros b m [_ Hm]%lookup_delete_Some. by eapply (nom_sorted _ _ _ Hb).
  - intros b m [_ Hm]%lookup_delete_Some. by eapply (nom_total _ _ _ Hb).
  - intros b k. rewrite Hnom. apply Hb.
  - intros b k x. rewrite Hnom. apply Hb.
  - intros b. destruct (one_role _ _ _ Hb b); [by left|right]. rewrite lookup_delete.
    by case_decide.
  - intros b. etransitivity; [|apply (backed _ _ _ Hb b)]. unfold staked, nominated.
    rewrite lookup_delete. case_decide; [|done].
    pose proof (nominated_nonneg Hb b) as Hnn. unfold nominated in Hnn. lia.
Qed.

(** A candidate changes its own bond, or its status. *)
Lemma books_bond v c c' (res' : Z → Z) :
  cands !! v = Some c → Validator.nominators c' = Validator.nominators c →
  0 <= Validator.bond c' →
  let d := Validator.bond c' - Validator.bond c in
  Validator.total c' = Validator.total c + d →
  (∀ b, staked cands noms b + (if decide (b = v) then d else 0) <= res' b) →
  books (<[v:=c']> cands) noms res'.
Proof using Hb.
  intros Hc Hnn Hbc d Ht Hres.
  assert (∀ k b, backing (<[v:=c']> cands) k b = backing cands k b) as Hback.
  { intros k b. unfold backing. rewrite lookup_insert. case_decide as Hk; [|done].
    rewrite <-Hk, Hc. cbn. by rewrite Hnn. }
  split; try apply Hb.
  - intros k e. rewrite lookup_insert. case_decide; [intros [= <-]|apply Hb].
    rewrite Hnn. by eapply (cand_sorted _ _ _ Hb).
  - intros k e. rewrite lookup_insert. case_decide; [by intros [= <-]|apply Hb].
  - intros k e. rewrite lookup_insert. case_decide; [intros [= <-]|apply Hb].
    rewrite Ht, Hnn, (cand_total _ _ _ Hb v c Hc). unfold d. lia.
  - intros b k. rewrite Hback. apply Hb.
  - intros b. rewrite lookup_insert. case_decide as Hk; [|apply Hb]. right.
    destruct (one_role _ _ _ Hb b); [congruence|done].
  - intros b. etransitivity; [|exact (Hres b)]. unfold staked.
    assert (own_bond (<[v:=c']> cands) b = own_bond cands b + (if decide (b = v) then d else 0)).
    { unfold own_bond. rewrite lookup_insert.
      destruct (decide (v = b)) as [Hvb|Hvb], (decide (b = v)); try (exfalso; congruence).
      - rewrite <-Hvb, Hc. unfold d. lia.
      - lia. }
    lia.
Qed.

(** A candidate joins with a bond and no nominators. *)
Lemma books_join v c (res' : Z → Z) :
  cands !! v = None → noms !! v = None → Validator.nominators c = [] →
  0 <= Validator.bond c → Validator.total c = Validator.bond c →
  (∀ b, staked cands noms b + (if decide (b = v) then Validator.bond c else 0) <= res' b) →
  books (<[v:=c]> cands) noms res'.
Proof using Hb.
  intros Hv Hn Hnil Hbc Ht Hres.
  assert (∀ k b, backing (<[v:=c]> cands) k b = backing cands k b) as Hback.
  { intros k b. unfold backing. rewrite lookup_insert. case_decide; [|done]. subst.
    rewrite Hv. cbn. by rewrite Hnil. }
  split; try apply Hb.
  - intros k e. rewrite lookup_insert. case_decide; [intros [= <-]|apply Hb].
    rewrite Hnil. constructor.
  - intros k e. rewrite lookup_insert. case_decide; [by intros [= <-]|apply Hb].
  - intros k e. rewrite lookup_insert. case_decide; [intros [= <-]|apply Hb].
    rewrite Ht, Hnil. change (Validator.bond c = Validator.bond c + map_sum ∅).
    pose proof map_sum_empty. lia.
  - intros b k. rewrite Hback. apply Hb.
  - intros b. rewrite lookup_insert. case_decide; [subst; by right|apply Hb].
  - intros b. etransitivity; [|exact (Hres b)]. unfold staked.
    assert (own_bond (<[v:=c]> cands) b =
      own_bond cands b + (if decide (b = v) then Validator.bond c else 0)).
    { unfold own_bond. rewrite lookup_insert. repeat case_decide; subst; try done.
      - by rewrite Hv.
      - lia. }
    lia.
Qed.

(** A candidate without nominators leaves with its bond. *)
Lemma books_leave v c (res' : Z → Z) :
  cands !! v = Some c → Validator.nominators c = [] →
  (∀ b, staked cands noms b - (if decide (b = v) then Validator.bond c else 0) <= res' b) →
  books (delete v cands) noms res'.
Proof using Hb.
  intros Hv Hnil Hres.
  assert (∀ k b, backing (delete v cands) k b = backing cands k b) as Hback.
  { intros k b. unfold backing. rewrite lookup_delete. case_decide; [|done]. subst.
    rewrite Hv. cbn. by rewrite Hnil. }
  split; try apply Hb.
  - intros k e [_ He]%lookup_delete_Some. by eapply (cand_sorted _ _ _ Hb).
  - intros k e [_ He]%lookup_delete_Some. by eapply (cand_bond _ _ _ Hb).
  - intros k e [_ He]%lookup_delete_Some. by eapply (cand_total _ _ _ Hb).
  - intros b k. rewrite Hback. apply Hb.
  - intros b. destruct (one_role _ _ _ Hb b); [left|by right]. rewrite lookup_delete.
    by case_decide.
  - intros b. etransitivity; [|exact (Hres b)]. unfold staked.
    assert (own_bond (delete v cands) b =
      own_bond cands b - (if decide (b = v) then Validator.bond c else 0)).
    { unfold own_bond. rewrite lookup_delete. repeat case_decide; subst; try done.
      - rewrite Hv. lia.
      - lia. }
    lia.
Qed.
End transitions.

Lemma books_empty (res : Z → Z) : (∀ a, 0 <= res a) → books ∅ ∅ res.
Proof. intros Hr. split; try done. by left. Qed.
