(* ===== verification/Solvency.v ===== *)
(** * The pallet keeps the books of the stake

    Every dispatchable but a [switch_nomination] into an existing nomination, every
    hook and the genesis build keep the books of [Books.v], for a currency that keeps
    its documented promises. *)

From S2P Require Import Prelude OrderedSet Frame StakeTypes BondMap Inflation Stake.
From S2P Require Import StakeLogic Registry Books.

Section solvency.
Context {Origin Cur : Type}.
Context `{FO : FrameOrigin Origin, MO : MonetaryPolicyOrigin Origin, CU : Currency Cur}.
Context {CL : CurrencyLaws Cur}.
Context `{PO : PerbillOps, US : UnstableSort, IO : IterationOrder, SC : StakeConfig}.
Implicit Types (w : World Cur) (origin : Origin).

Definition solvent (w : World Cur) : Prop :=
  cur_valid (currency w) ∧
  books (Candidates w) (Nominators w) (reserved_balance (currency w)).

(** The outcome of a successful call. *)
Definition if_done {A} (P : World Cur → Prop) (o : Outcome (World Cur) (DispatchError Error) A) : Prop :=
  match o with Done _ w' => P w' | _ => True end.

(** ** The currency *)

Lemma reserved_issued c l :
  cur_valid c → NoDup l → zsum (reserved_balance c) l < U128.
Proof using CL.
  intros Hc Hl. pose proof (balances_issued c l Hc Hl) as Hi.
  pose proof (issuance_range c Hc) as Hr.
  assert (zsum (reserved_balance c) l <=
    zsum (λ a, free_balance c a + reserved_balance c a) l); [|lia].
  apply zsum_le. intros a _. pose proof (balances_nonneg c a Hc). lia.
Qed.

Lemma reserve_covers c a x c' cands noms :
  cur_valid c → 0 <= x → reserve c a x = inl c' → books cands noms (reserved_balance c) →
  ∀ b, staked cands noms b + (if decide (b = a) then x else 0) <= reserved_balance c' b.
Proof using CL.
  intros Hc Hx Hr Hb b. rewrite (reserve_reserved c a x c' b) by done.
  pose proof (backed _ _ _ Hb b). case_decide; lia.
Qed.

Lemma unreserve_covers c a x cands noms :
  cur_valid c → 0 <= x <= staked cands noms a → books cands noms (reserved_balance c) →
  ∀ b, staked cands noms b + (if decide (b = a) then - x else 0) <=
    reserved_balance (unreserve c a x).1 b.
Proof using CL.
  intros Hc Hx Hb b. rewrite unreserve_reserved by (done || lia).
  pose proof (backed _ _ _ Hb b). pose proof (backed _ _ _ Hb a).
  case_decide; subst; lia.
Qed.

(** ** Totals do not wrap *)

Lemma candidate_total_add c' v e a x cands noms (res : Z → Z) :
  books cands noms res → cur_valid c' →
  (∀ b, staked cands noms b + (if decide (b = a) then x else 0) <= reserved_balance c' b) →
  cands !! v = Some e → 0 <= x →
  Validator.total e ⊕ x = Validator.total e + x.
Proof using CL.
  intros Hb Hc Hres He Hx. apply u128_small.
  apply (total_add_bound Hb (reserved_balance c') v e a); try done.
  intros. by apply reserved_issued.
Qed.

Lemma staked_bound c' a cands noms (res : Z → Z) x :
  books cands noms res → cur_valid c' → 0 <= x →
  staked cands noms a + x <= reserved_balance c' a →
  0 <= own_bond cands a + x < U128 ∧ 0 <= nominated noms a + x < U128.
Proof using CL.
  intros Hb Hc Hx Hle. pose proof (own_bond_nonneg Hb a). pose proof (nominated_nonneg Hb a).
  pose proof (reserved_issued c' [a] Hc ltac:(apply NoDup_singleton)) as Hi.
  rewrite zsum_cons in Hi. unfold staked in Hle. cbn in Hi. lia.
Qed.

Lemma candidate_total_sub v e x cands noms c :
  books cands noms (reserved_balance c) → cur_valid c →
  cands !! v = Some e → 0 <= x <= Validator.total e →
  Validator.total e ⊖ x = Validator.total e - x.
Proof using CL.
  intros Hb Hc He Hx. apply u128_small.
  pose proof (total_bound Hb v e (λ l, reserved_issued c l Hc) He). lia.
Qed.

(** ** Candidates *)

Lemma join_candidates_solvent origin fee bond w :
  0 <= bond → pool_inv w → solvent w →
  wp (join_candidates origin fee bond) (if_done solvent) w.
Proof using CL.
  intros Hbond _ [Hc Hb]. unfold join_candidates. stake_run; try done.
  destruct (OrderedSet.insert _ _) as [i pool]. stake_run; try done.
  cbn [if_done]. unfold solvent. wsimpl. split; [by eapply reserve_valid|].
  apply (books_join Hb); cbn; try done.
  - unfold is_candidate in *. by destruct (Candidates w !! a).
  - unfold is_nominator in *. by destruct (Nominators w !! a).
  - by apply (reserve_covers (currency w)).
Qed.

(** A change of status. *)
Lemma status_books v c s w :
  books (Candidates w) (Nominators w) (reserved_balance (currency w)) →
  Candidates w !! v = Some c →
  books (<[v:=Validator.set_state c s]> (Candidates w)) (Nominators w)
    (reserved_balance (currency w)).
Proof.
  intros Hb Hv. apply (books_bond Hb v c); cbn; try done.
  - by eapply (cand_bond _ _ _ Hb).
  - lia.
  - intros b. rewrite Z.sub_diag. pose proof (backed _ _ _ Hb b). case_decide; lia.
Qed.

Lemma leave_candidates_solvent origin w :
  pool_inv w → solvent w → wp (leave_candidates origin) (if_done solvent) w.
Proof.
  intros (Hreg & _) [Hc Hb]. unfold leave_candidates. stake_run; try done.
  destruct (OrderedSet.insert _ _) as [i queue]. stake_run; try done.
  apply wp_remove_from_pool; [apply Hreg|]. intros pool _ _. cbn [bind_post]. stake_run.
  split; [done|]. by apply (status_books _ _ _ w).
Qed.

Lemma go_offline_solvent origin w :
  pool_inv w → solvent w → wp (go_offline origin) (if_done solvent) w.
Proof.
  intros (Hreg & _) [Hc Hb]. unfold go_offline. stake_run; try done.
  apply wp_remove_from_pool; [apply Hreg|]. intros pool _ _. cbn [bind_post]. stake_run.
  split; [done|]. by apply (status_books _ _ _ w).
Qed.

Lemma go_online_solvent origin w :
  pool_inv w → solvent w → wp (go_online origin) (if_done solvent) w.
Proof.
  intros (Hreg & _) [Hc Hb]. unfold go_online. stake_run; try done.
  destruct (OrderedSet.insert _ _) as [i pool]. stake_run; try done.
  split; [done|]. by apply (status_books _ _ _ w).
Qed.

Lemma candidate_bond_more_solvent origin more w :
  0 <= more → pool_inv w → solvent w →
  wp (candidate_bond_more origin more) (if_done solvent) w.
Proof using CL.
  intros Hm (Hreg & _) [Hc Hb]. unfold candidate_bond_more. stake_run; try done.
  rename c into cur', a0 into c.
  pose proof (reserve_covers (currency w) a more cur' _ _ Hc Hm ltac:(done) Hb) as Hcov.
  assert (cur_valid cur') as Hc' by by eapply reserve_valid.
  skip_update Hreg. split; [done|]. wsimpl.
  pose proof (candidate_total_add cur' a c a more _ _ _ Hb Hc' Hcov ltac:(done) Hm) as Ht.
  destruct (staked_bound cur' a _ _ _ more Hb Hc' Hm) as [Hbond _].
  { specialize (Hcov a). by rewrite decide_True in Hcov. }
  unfold own_bond in Hbond.
  match goal with H : Candidates w !! a = Some c |- _ => rewrite H in Hbond end.
  apply (books_bond Hb a c); cbn; rewrite ?Ht, ?u128_small by done; try done; [lia|lia|].
  intros b. specialize (Hcov b). case_decide; lia.
Qed.

Lemma candidate_bond_less_solvent origin less w :
  0 <= less → pool_inv w → solvent w →
  wp (candidate_bond_less origin less) (if_done solvent) w.
Proof using CL.
  intros Hl (Hreg & _) [Hc Hb]. unfold candidate_bond_less. stake_run; try done.
  rename a0 into c. unfold Validator.bond_less.
  destruct (Z.gtb_spec (Validator.bond c) less) as [Hgt|]; stake_run; try done.
  assert (Candidates w !! a = Some c) as Hv by done.
  destruct (backing_le_total Hb a c 0 Hv) as (_ & Hk & Hle).
  destruct (staked_bound (currency w) a _ _ _ 0 Hb Hc ltac:(done)) as [Hbond _].
  { pose proof (backed _ _ _ Hb a). lia. }
  pose proof (nominated_nonneg Hb a) as Hn. unfold own_bond in Hbond. rewrite Hv in Hbond.
  skip_update Hreg. split; wsimpl; [by apply unreserve_valid|].
  apply (books_bond Hb a c); cbn; try done.
  - rewrite u128_small; lia.
  - rewrite (u128_small (Validator.bond c - less)) by lia.
    rewrite (candidate_total_sub a c less _ _ (currency w)) by (done || lia). lia.
  - rewrite u128_small by lia. intros b.
    assert (0 <= less <= staked (Candidates w) (Nominators w) a) as Hst.
    { unfold staked, own_bond. rewrite Hv. lia. }
    pose proof (unreserve_covers (currency w) a less _ _ Hc Hst Hb b). case_decide; lia.
Qed.

(** ** Nominations *)

Abbreviation no_nominations := {| Nominator.nominations := []; Nominator.total := 0 |}.

(** The stored nominator, or a new one. *)
Definition stored_or_new (noms : gmap Z Nominator.t) (a : AccountId) (n : Nominator.t) : Prop :=
  noms !! a = Some n ∨ noms !! a = None ∧ n = no_nominations.

Lemma stored_total noms a n : stored_or_new noms a n → nominated noms a = Nominator.total n.
Proof. unfold nominated. by intros [->|[-> ->]]. Qed.

Lemma bilateral_lookup cands noms res v a c n :
  books cands noms res → cands !! v = Some c → noms !! a = Some n →
  bond_map (Validator.nominators c) !! a = bond_map (Nominator.nominations n) !! v.
Proof.
  intros Hb Hv Ha. pose proof (bilateral _ _ _ Hb a v) as H.
  unfold nomination, backing in H. by rewrite Hv, Ha in H.
Qed.

(** [more] is reserved and added to a nomination. *)
Lemma raise_books cands noms c0 c' v a c n more l k :
  books cands noms (reserved_balance c0) → cur_valid c' →
  (∀ b, staked cands noms b + (if decide (b = a) then more else 0) <= reserved_balance c' b) →
  cands !! v = Some c → cands !! a = None → stored_or_new noms a n → 0 <= more →
  let x := default 0 (bond_map (Nominator.nominations n) !! v) + more in
  0 < x →
  sorted l → bond_map l = <[a:=x]> (bond_map (Validator.nominators c)) →
  sorted k → bond_map k = <[v:=x]> (bond_map (Nominator.nominations n)) →
  books
    (<[v:=Validator.set_nominators_total c l (Validator.total c ⊕ more)]> cands)
    (<[a:={| Nominator.nominations := k; Nominator.total := Nominator.total n ⊕ more |}]> noms)
    (reserved_balance c').
Proof using CL.
  intros Hb Hc' Hcov Hv Ha Hn Hm x Hx Hl Hlm Hk Hkm.
  assert (default 0 (Some x) - default 0 (bond_map (Nominator.nominations n) !! v) = more) as Hd.
  { cbn. lia. }
  rewrite (candidate_total_add c' v c a more cands noms _) by done.
  destruct (staked_bound c' a cands noms _ more Hb Hc' Hm) as [_ Htn].
  { specialize (Hcov a). by rewrite decide_True in Hcov. }
  rewrite (stored_total noms a n Hn) in Htn. rewrite u128_small by done.
  apply (books_alter Hb v a c n _ _ (Some x)); try done; cbn zeta; rewrite ?Hd; try done.
  by intros y [= <-].
Qed.

(** A nomination is lowered or dropped by [less], which is returned. *)
Lemma lower_books cands noms c0 v a c n y less (o : option Z) l k :
  books cands noms (reserved_balance c0) → cur_valid c0 →
  cands !! v = Some c → noms !! a = Some n →
  bond_map (Nominator.nominations n) !! v = Some y → 0 <= less →
  default 0 o = y - less → (∀ x, o = Some x → 0 < x) →
  sorted l → bond_map l = partial_alter (λ _, o) a (bond_map (Validator.nominators c)) →
  sorted k → bond_map k = partial_alter (λ _, o) v (bond_map (Nominator.nominations n)) →
  books
    (<[v:=Validator.set_nominators_total c l (Validator.total c ⊖ less)]> cands)
    (<[a:={| Nominator.nominations := k; Nominator.total := Nominator.total n ⊖ less |}]> noms)
    (reserved_balance (unreserve c0 a less).1).
Proof using CL.
  intros Hb Hc Hv Ha Hy Hl0 Hod Ho Hl Hlm Hk Hkm.
  assert (default 0 o - default 0 (bond_map (Nominator.nominations n) !! v) = - less) as Hd.
  { rewrite Hy. cbn. lia. }
  assert (0 <= default 0 o) as Ho0.
  { destruct o as [x|]; cbn; [by apply Z.lt_le_incl, Ho|done]. }
  pose proof (nomination_le_total Hb a n v Ha) as Hle1. rewrite Hy in Hle1. cbn in Hle1.
  pose proof (backing_le_total Hb v c a Hv) as Hle2.
  rewrite (bilateral_lookup _ _ _ v a c n Hb Hv Ha), Hy in Hle2. cbn in Hle2.
  rewrite (candidate_total_sub v c less _ _ c0 Hb Hc Hv) by lia.
  destruct (staked_bound c0 a cands noms _ 0 Hb Hc ltac:(done)) as [_ Htn].
  { pose proof (backed _ _ _ Hb a). lia. }
  rewrite (stored_total noms a n ltac:(by left)) in Htn.
  rewrite (u128_small (Nominator.total n - less)) by lia.
  apply (books_alter Hb v a c n _ _ o); try done; cbn zeta; rewrite ?Hd; try done.
  - destruct (one_role _ _ _ Hb a); [done|congruence].
  - by left.
  - apply unreserve_covers; [done| |done]. split; [done|].
    pose proof (own_bond_nonneg Hb a). unfold staked.
    rewrite (stored_total noms a n ltac:(by left)). lia.
Qed.

(** A nomination fits its width, also when more is reserved for it. *)
Lemma nomination_fits c' cands noms (res : Z → Z) a n v y more :
  books cands noms res → cur_valid c' → 0 <= more →
  (∀ b, staked cands noms b + (if decide (b = a) then more else 0) <= reserved_balance c' b) →
  noms !! a = Some n → bond_map (Nominator.nominations n) !! v = Some y →
  0 < y ∧ y + more < U128.
Proof using CL.
  intros Hb Hc' Hmore Hcov Ha Hy. split; [by eapply (nominations_pos Hb)|].
  destruct (staked_bound c' a _ _ _ more Hb Hc' Hmore) as [_ Hbd].
  { specialize (Hcov a). by rewrite decide_True in Hcov. }
  rewrite (stored_total _ a n ltac:(by left)) in Hbd.
  pose proof (nomination_le_total Hb a n v Ha) as Hle. rewrite Hy in Hle. cbn in Hle. lia.
Qed.

Lemma nomination_fits_total c cands noms a n v y :
  books cands noms (reserved_balance c) → cur_valid c →
  noms !! a = Some n → bond_map (Nominator.nominations n) !! v = Some y →
  0 < y <= Nominator.total n ∧ Nominator.total n < U128.
Proof using CL.
  intros Hb Hc Ha Hy.
  destruct (staked_bound c a _ _ _ 0 Hb Hc ltac:(done)) as [_ Hbd].
  { pose proof (backed _ _ _ Hb a). lia. }
  rewrite (stored_total _ a n ltac:(by left)) in Hbd.
  pose proof (nomination_le_total Hb a n v Ha) as Hle. rewrite Hy in Hle. cbn in Hle.
  assert (0 < y) by (by eapply (nominations_pos Hb)). lia.
Qed.

Lemma covered c cands noms a :
  books cands noms (reserved_balance c) →
  ∀ b, staked cands noms b + (if decide (b = a) then 0 else 0) <= reserved_balance c b.
Proof. intros Hb b. pose proof (backed _ _ _ Hb b). case_decide; lia. Qed.

Section nominators.
Context {CF : StakeConfigLaws}.

Lemma join_nominators_solvent origin validator amount w :
  0 <= amount < U128 → pool_inv w → solvent w →
  wp (join_nominators origin validator amount) (if_done solvent) w.
Proof using CL CF.
  intros Hamt (Hreg & _) [Hc Hb]. unfold join_nominators, nominator_joins_validator.
  stake_run; try done. rename a0 into c. rewrite Z.geb_le in *.
  pose proof min_nomination_pos as Hpos1. pose proof min_nominator_pos as Hpos2.
  assert (sorted (Validator.nominators c)) as Hsc by by eapply (cand_sorted _ _ _ Hb).
  pose proof (insert_bond (Validator.nominators c) {| owner := a; amount := amount |} Hsc) as Hi.
  destruct (OrderedSet.insert _ _) as [i l]. destruct Hi as [Hl Hi]. stake_run; try done.
  subst i. rename c0 into cur'.
  pose proof (reserve_covers (currency w) a amount cur' _ _ Hc ltac:(lia) ltac:(done) Hb) as Hcov.
  assert (cur_valid cur') as Hc' by (apply (reserve_valid (currency w) a amount); done || lia).
  skip_update Hreg. split; wsimpl; [done|].
  destruct (bond_map (Validator.nominators c) !! a) eqn:E; cbn in Hi; rewrite E in Hi;
    [naive_solver|]. destruct Hi as (_ & Hm & _).
  unfold is_candidate, is_nominator in *.
  assert (Nominator.new validator amount =
    {| Nominator.nominations := [{| owner := validator; amount := amount |}];
       Nominator.total := Nominator.total no_nominations ⊕ amount |}) as ->.
  { cbn [Nominator.total]. rewrite Z.add_0_l, u128_small by done. apply new_nominator_eq. }
  apply (raise_books _ _ (currency w) cur' validator a c no_nominations amount);
    try done; try lia.
  - by destruct (Candidates w !! a).
  - right. split; [|done]. by destruct (Nominators w !! a).
  - change (0 < 0 + amount). lia.
  - apply singleton_sorted.
Qed.

Lemma nominate_new_solvent origin validator amount w :
  0 <= amount < U128 → pool_inv w → solvent w →
  wp (nominate_new origin validator amount) (if_done solvent) w.
Proof using CL CF.
  intros Hamt (Hreg & _) [Hc Hb]. unfold nominate_new. stake_run; try done.
  rename a0 into n, a1 into c. rewrite Z.geb_le in *.
  pose proof min_nomination_pos as Hpos1. pose proof min_nominator_pos as Hpos2.
  assert (sorted (Validator.nominators c)) as Hsc by by eapply (cand_sorted _ _ _ Hb).
  assert (sorted (Nominator.nominations n)) as Hsn by by eapply (nom_sorted _ _ _ Hb).
  pose proof (add_nomination_eq n {| owner := validator; amount := amount |} Hsn) as Ha.
  destruct (Nominator.add_nomination _ _) as [added n']. destruct Ha as [Hsn' Ha].
  stake_run; try done.
  pose proof (insert_bond (Validator.nominators c) {| owner := a; amount := amount |} Hsc) as Hi.
  destruct (OrderedSet.insert _ _) as [i l]. destruct Hi as [Hl Hi]. stake_run; try done.
  subst i added. rename c0 into cur'.
  pose proof (reserve_covers (currency w) a amount cur' _ _ Hc ltac:(lia) ltac:(done) Hb) as Hcov.
  assert (cur_valid cur') as Hc' by (apply (reserve_valid (currency w) a amount); done || lia).
  skip_update Hreg. split; wsimpl; [done|]. cbn in Ha, Hi.
  destruct (bond_map (Nominator.nominations n) !! validator) eqn:E; [naive_solver|].
  rewrite (bilateral_lookup _ _ _ validator a c n Hb), E in Hi by done.
  destruct Hi as (_ & Hm & _). destruct Ha as (_ & Htn & Hmn).
  destruct n' as [k tot]. cbn in Htn, Hmn, Hsn'. subst tot.
  apply (raise_books _ _ (currency w) cur' validator a c n amount);
    rewrite ?E; try done; try lia.
  - destruct (one_role _ _ _ Hb a); [done|congruence].
  - by left.
  - cbn. lia.
Qed.

Lemma nominator_bond_more_solvent origin candidate more w :
  0 <= more → pool_inv w → solvent w →
  wp (nominator_bond_more origin candidate more) (if_done solvent) w.
Proof using CL.
  intros Hmore (Hreg & _) [Hc Hb]. unfold nominator_bond_more. stake_run; try done.
  rename a0 into n, a1 into c.
  assert (sorted (Validator.nominators c)) as Hsc by by eapply (cand_sorted _ _ _ Hb).
  assert (sorted (Nominator.nominations n)) as Hsn by by eapply (nom_sorted _ _ _ Hb).
  rewrite inc_nomination_eq, inc_nominator_eq by done.
  rewrite (bilateral_lookup _ _ _ candidate a c n Hb) by done.
  destruct (bond_map (Nominator.nominations n) !! candidate) as [y|] eqn:E;
    stake_run; try done. rename c0 into cur'.
  pose proof (reserve_covers (currency w) a more cur' _ _ Hc ltac:(lia) ltac:(done) Hb) as Hcov.
  assert (cur_valid cur') as Hc' by (by eapply reserve_valid).
  skip_update Hreg. split; wsimpl; [done|].
  destruct (nomination_fits cur' _ _ _ a n candidate y more Hb Hc' Hmore Hcov ltac:(done) E)
    as [Hy Hym].
  rewrite (u128_small (y + more)) by lia.
  apply (raise_books _ _ (currency w) cur' candidate a c n more); rewrite ?E; try done.
  - destruct (one_role _ _ _ Hb a); [done|congruence].
  - by left.
  - cbn. lia.
  - by apply replace_bond_sorted.
  - rewrite replace_bond_map, (bilateral_lookup _ _ _ candidate a c n Hb) by done. by rewrite E.
  - by apply replace_bond_sorted.
  - rewrite replace_bond_map. by rewrite E.
Qed.

Lemma nominator_bond_less_solvent origin candidate less w :
  0 <= less → pool_inv w → solvent w →
  wp (nominator_bond_less origin candidate less) (if_done solvent) w.
Proof using CL.
  intros Hless (Hreg & _) [Hc Hb]. unfold nominator_bond_less. stake_run; try done.
  rename a0 into n, a1 into c.
  assert (sorted (Validator.nominators c)) as Hsc by by eapply (cand_sorted _ _ _ Hb).
  assert (sorted (Nominator.nominations n)) as Hsn by by eapply (nom_sorted _ _ _ Hb).
  rewrite dec_nomination_eq, dec_nominator_eq by done.
  rewrite (bilateral_lookup _ _ _ candidate a c n Hb) by done.
  destruct (bond_map (Nominator.nominations n) !! candidate) as [y|] eqn:E;
    [destruct (Z.gtb_spec y less)|]; stake_run; simplify_eq; try done.
  skip_update Hreg. split; wsimpl; [by apply unreserve_valid|].
  destruct (nomination_fits (currency w) _ _ _ a n candidate y 0 Hb Hc ltac:(done)
    (covered _ _ _ a Hb) ltac:(done) E) as [Hy Hym].
  rewrite (u128_small (y - less)) by lia.
  apply (lower_books _ _ (currency w) candidate a c n y less (Some (y - less))); try done.
  - intros x [= <-]. lia.
  - by apply replace_bond_sorted.
  - rewrite replace_bond_map, (bilateral_lookup _ _ _ candidate a c n Hb) by done. by rewrite E.
  - by apply replace_bond_sorted.
  - rewrite replace_bond_map. by rewrite E.
Qed.
End nominators.

(** ** Leaving *)

(** One nomination is dropped. The nominator itself, [n], may differ from the stored
    one: [leave_nominators] writes it at the end. *)
Lemma leaves_validator_solvent noms a v n y w :
  pool_inv w → cur_valid (currency w) →
  books (Candidates w) noms (reserved_balance (currency w)) →
  noms !! a = Some n → bond_map (Nominator.nominations n) !! v = Some y →
  wp (nominator_leaves_validator a v) (ends (λ w',
    pool_inv w' ∧ Nominators w' = Nominators w ∧ cur_valid (currency w') ∧
    books (Candidates w')
      (<[a:={| Nominator.nominations := without v (Nominator.nominations n);
               Nominator.total := Nominator.total n ⊖ y |}]> noms)
      (reserved_balance (currency w')))) w.
Proof using CL.
  intros Hpool Hc Hb Ha Hy.
  eapply wp_mono; [|apply wp_and; [by apply (nominator_leaves_validator_settled a v w)|]].
  { intros o [[H1 H2] H]. revert H1 H2 H. instantiate (1 := λ o, match o with
      | Done _ w' => cur_valid (currency w') ∧ books (Candidates w') _ (reserved_balance (currency w'))
      | Failed _ _ => False | Panicked => False end).
    destruct o; cbn; [naive_solver|done..]. }
  cbn beta. unfold nominator_leaves_validator.
  pose proof (bilateral _ _ _ Hb a v) as Hbil. unfold nomination, backing in Hbil.
  rewrite Ha in Hbil. cbn in Hbil. rewrite Hy in Hbil.
  destruct (Candidates w !! v) as [c|] eqn:Hv; [|done]. cbn in Hbil.
  assert (sorted (Validator.nominators c)) as Hsc by by eapply (cand_sorted _ _ _ Hb).
  assert (sorted (Nominator.nominations n)) as Hsn by by eapply (nom_sorted _ _ _ Hb).
  stake_run; [|congruence]. simplify_eq. rewrite extract_bond_map, <-Hbil by done.
  stake_run; [|done]. match goal with E : Some y = Some _ |- _ => injection E as <- end.
  apply wp_update_active; [apply Hpool|]. intros pool _ _. cbn [bind_post]. stake_run. wsimpl.
  assert (0 < y) by by eapply (nominations_pos Hb).
  split; [apply unreserve_valid; [done|lia]|].
  rewrite from_id by by apply without_sorted.
  apply (lower_books _ _ (currency w) v a c n y y None); try done; try lia.
  - cbn. lia.
  - by apply without_sorted.
  - by rewrite bond_map_without.
  - by apply without_sorted.
  - by rewrite bond_map_without.
Qed.

Lemma revoke_nomination_solvent origin validator w :
  pool_inv w → solvent w → wp (revoke_nomination origin validator) (if_done solvent) w.
Proof using CL.
  intros Hpool [Hc Hb]. unfold revoke_nomination, nominator_revokes_validator.
  stake_run; try done. rename a0 into n.
  assert (sorted (Nominator.nominations n)) as Hsn by by eapply (nom_sorted _ _ _ Hb).
  rewrite rm_nomination_eq by done.
  destruct (bond_map (Nominator.nominations n) !! validator) as [y|] eqn:E; stake_run; try done.
  eapply wp_mono; [|by apply (leaves_validator_solvent (Nominators w) a validator n y)].
  intros [u w'|e w'|]; cbn [ends]; [|done..]. intros (_ & Hnom & Hc' & Hb'). cbn [bind_post].
  stake_run. split; wsimpl; [done|]. by rewrite Hnom.
Qed.

(** The loop of [leave_nominators]: [n'] is what is left of the nominator, which is
    written at the end only. *)
Definition leaving_nominator (w : World Cur) (a : AccountId) (n : Nominator.t)
    (xs : list Bond) (w' : World Cur) : Prop :=
  pool_inv w' ∧ Nominators w' = Nominators w ∧ cur_valid (currency w') ∧
  ∃ n', xs ++ Nominator.nominations n' = Nominator.nominations n ∧
    books (Candidates w') (<[a:=n']> (Nominators w)) (reserved_balance (currency w')).

Lemma leaving_nominator_start a n w :
  pool_inv w → solvent w → Nominators w !! a = Some n → leaving_nominator w a n [] w.
Proof.
  intros Hpool [Hc Hb] Ha. split_and!; [done..|]. exists n. split; [done|]. by rewrite insert_id.
Qed.

(** The bond that is next. *)
Lemma leaving_nominator_next w a n x xs w' :
  (xs ++ [x]) `prefix_of` Nominator.nominations n → leaving_nominator w a n xs w' →
  ∃ n', books (Candidates w') (<[a:=n']> (Nominators w)) (reserved_balance (currency w')) ∧
    bond_map (Nominator.nominations n') !! owner x = Some (amount x) ∧
    xs ++ [x] ++ without (owner x) (Nominator.nominations n') = Nominator.nominations n.
Proof.
  intros [rest Hrest] (_ & _ & _ & n' & Hn' & Hb'). exists n'. split; [done|].
  assert (sorted (Nominator.nominations n')) as Hs.
  { eapply (nom_sorted _ _ _ Hb'). apply lookup_insert_eq. }
  rewrite <-Hn', <-app_assoc in Hrest. apply app_inv_head in Hrest. cbn in Hrest.
  rewrite <-Hn'. split.
  - apply bond_map_elem; [done|]. rewrite Hrest. destruct x. set_solver.
  - cbn. apply (f_equal (app xs)). rewrite Hrest in Hs |- *. apply sorted_owners_NoDup in Hs.
    rewrite fmap_cons in Hs. apply NoDup_cons in Hs as [Hx _].
    rewrite without_cons, Z.eqb_refl. apply (f_equal (cons x)). apply without_absent.
    by apply bond_map_None.
Qed.

Lemma leaving_nominator_step w a n x xs w' :
  (xs ++ [x]) `prefix_of` Nominator.nominations n → leaving_nominator w a n xs w' →
  wp (nominator_leaves_validator a (owner x)) (ends (leaving_nominator w a n (xs ++ [x]))) w'.
Proof using CL.
  intros Hpre HI. destruct (leaving_nominator_next w a n x xs w' Hpre HI) as (n' & Hb' & Hx & Hrest).
  destruct HI as (Hpool' & Hnom & Hc' & _).
  eapply wp_mono; [|eapply (leaves_validator_solvent _ a (owner x) n' (amount x));
    [done|done|exact Hb'|apply lookup_insert_eq|done]].
  intros [u w''|e w''|]; cbn [ends]; [|done..]. intros (Hp & Hnom' & Hc'' & Hb'').
  split_and!; [done|congruence|done|]. eexists. split; [|by rewrite insert_insert_eq in Hb''].
  cbn [Nominator.nominations]. by rewrite <-app_assoc.
Qed.

(** A nominator in good standing can always leave. *)
Lemma leave_nominators_solvent origin a n w :
  pool_inv w → solvent w → ensure_signed origin = Some a → Nominators w !! a = Some n →
  wp (leave_nominators origin)
    (ends (λ w', solvent w' ∧ Nominators w' = delete a (Nominators w))) w.
Proof using CL.
  intros Hpool Hs Hor Ha. unfold leave_nominators. stake_run; [|congruence..]. simplify_eq.
  apply (wp_for_each_visited (leaving_nominator w a n)); [by apply leaving_nominator_start| |].
  - intros x xs w' Hpre HI. eapply wp_mono; [|by apply leaving_nominator_step]. by intros [].
  - intros w' (Hpool' & Hnom & Hc' & n' & Hn' & Hb'). cbn [bind_post]. stake_run. cbn [ends].
    wsimpl. rewrite Hnom. split; [|done]. split; [done|]. wsimpl.
    rewrite <-(delete_insert_eq (Nominators w) a n').
    apply (books_forget_nominator Hb' a n'); [apply lookup_insert_eq|].
    apply (app_inv_head (Nominator.nominations n)). by rewrite app_nil_r.
Qed.

(** ** Switching to a validator that is not nominated yet *)

Definition merges (w : World Cur) origin (new : AccountId) : Prop :=
  ∃ a, ensure_signed origin = Some a ∧ is_Some (nomination (Nominators w) a new).

(** The nomination of [a] moves from [old] to [new] with its amount. *)
Lemma move_books cands noms c a old new n co cn y l k :
  books cands noms (reserved_balance c) → cur_valid c →
  noms !! a = Some n → cands !! old = Some co → cands !! new = Some cn → old ≠ new →
  bond_map (Nominator.nominations n) !! old = Some y →
  bond_map (Nominator.nominations n) !! new = None →
  sorted l → bond_map l = <[a:=y]> (bond_map (Validator.nominators cn)) →
  sorted k → bond_map k = <[new:=y]> (delete old (bond_map (Nominator.nominations n))) →
  books
    (<[new:=Validator.set_nominators_total cn l (Validator.total cn ⊕ y)]>
      (<[old:=Validator.set_nominators_total co (without a (Validator.nominators co))
          (Validator.total co ⊖ y)]> cands))
    (<[a:={| Nominator.nominations := k; Nominator.total := Nominator.total n |}]> noms)
    (reserved_balance c).
Proof using CL.
  intros Hb Hc Ha Hold Hnew Hne Hy Hnone Hl Hlm Hk Hkm.
  assert (0 < y) as Hpos by by eapply (nominations_pos Hb).
  assert (cands !! a = None) as Hca by (destruct (one_role _ _ _ Hb a); congruence).
  assert (sorted (Nominator.nominations n)) as Hsn by by eapply (nom_sorted _ _ _ Hb).
  assert (sorted (Validator.nominators co)) as Hso by by eapply (cand_sorted _ _ _ Hb).
  pose proof (backing_le_total Hb old co a Hold) as Hle.
  rewrite (bilateral_lookup _ _ _ old a co n Hb Hold Ha), Hy in Hle. cbn in Hle.
  rewrite (candidate_total_sub old co y _ _ c Hb Hc Hold) by lia.
  set (co' := Validator.set_nominators_total co _ _).
  set (n' := {| Nominator.nominations := without old (Nominator.nominations n);
                Nominator.total := Nominator.total n - y |}).
  assert (books (<[old:=co']> cands) (<[a:=n']> noms)
    (λ b, reserved_balance c b - if decide (b = a) then y else 0)) as Hb'.
  { apply (books_alter Hb old a co n _ _ None); try done; cbn zeta; rewrite ?Hy; cbn; try lia.
    - by left.
    - by apply without_sorted.
    - by rewrite bond_map_without.
    - by apply without_sorted.
    - by rewrite bond_map_without.
    - intros b. pose proof (backed _ _ _ Hb b). case_decide; lia. }
  assert (<[old:=co']> cands !! new = Some cn) as Hnew' by by rewrite lookup_insert_ne.
  assert (∀ b, staked (<[old:=co']> cands) (<[a:=n']> noms) b + (if decide (b = a) then y else 0)
    <= reserved_balance c b) as Hcov.
  { intros b. pose proof (backed _ _ _ Hb' b) as H. cbn beta in H. case_decide; lia. }
  rewrite (candidate_total_add c new cn a y _ _ _ Hb' Hc Hcov Hnew') by lia.
  rewrite <-(insert_insert_eq noms a _ n').
  apply (books_alter Hb' new a cn n' _ _ (Some y)); try done; cbn zeta;
    cbn [n' Nominator.nominations Nominator.total];
    rewrite ?bond_map_without, ?lookup_delete_ne, ?Hnone by done; cbn [default].
  - rewrite lookup_insert_ne; congruence.
  - left. apply lookup_insert_eq.
  - by intros x [= <-].
  - cbn. lia.
  - done.
  - cbn. lia.
  - intros b. specialize (Hcov b). cbn. case_decide; lia.
Qed.

Lemma switch_nomination_solvent origin old new w :
  ¬ merges w origin new → pool_inv w → solvent w →
  wp (switch_nomination origin old new) (if_done solvent) w.
Proof using CL.
  intros Hnew Hpool [Hc Hb]. unfold switch_nomination. stake_run; try done.
  rename a0 into n, a1 into co, a2 into cn.
  assert (old ≠ new) as Hne by by apply Z.eqb_neq, negb_true_iff.
  assert (sorted (Nominator.nominations n)) as Hsn by by eapply (nom_sorted _ _ _ Hb).
  assert (sorted (Validator.nominators co)) as Hso by by eapply (cand_sorted _ _ _ Hb).
  assert (sorted (Validator.nominators cn)) as Hsc by by eapply (cand_sorted _ _ _ Hb).
  assert (bond_map (Nominator.nominations n) !! new = None) as Hnone.
  { destruct (bond_map (Nominator.nominations n) !! new) eqn:E; [|done]. exfalso.
    apply Hnew. exists a. split; [done|]. unfold nomination.
    match goal with H : Nominators w !! a = Some n |- _ => rewrite H end. by eexists. }
  pose proof (swap_nomination_eq n old new Hsn) as Hsw. cbn zeta in Hsw.
  destruct (Nominator.swap_nomination n old new) as [o [k tot]].
  rewrite Hnone in Hsw. cbn [Nominator.nominations Nominator.total] in Hsw.
  destruct Hsw as (Hk & -> & Hsw). stake_run; try done.
  destruct (bond_map (Nominator.nominations n) !! old) as [y|] eqn:Ey; [|naive_solver].
  destruct Hsw as [-> Hkm]. match goal with H : Some (y, y) = Some ?p |- _ => injection H as <- end.
  rewrite rm_nominator_eq, (bilateral_lookup _ _ _ old a co n Hb), Ey by done.
  cbn zeta beta iota. destruct (Z.gtb_spec y y) as [?|_]; [lia|].
  destruct (add_nominator_eq cn a y Hsc) as (l & -> & Hl & Hlm).
  rewrite (bilateral_lookup _ _ _ new a cn n Hb), Hnone in Hlm by done.
  apply wp_bind, wp_update_active; [apply Hpool|]. intros pool1 Hp1 _. cbn [bind_post].
  apply wp_bind, wp_update_active; [done|]. intros pool2 _ _. cbn [bind_post]. stake_run.
  split; wsimpl; [done|]. by eapply (move_books _ _ _ a old new n).
Qed.

(** ** The hooks *)

Definition cur_preserved (w w' : World Cur) : Prop :=
  cur_valid (currency w') ∧ ∀ a, reserved_balance (currency w') a = reserved_balance (currency w) a.

Lemma mint_preserves w w' amt to :
  cur_preserved w w' → wp (mint amt to) (ends (cur_preserved w)) w'.
Proof using CL.
  intros [Hc Hr]. apply wp_mint; [done|]. intros c imb Hamt Hd.
  pose proof minimum_balance_nonneg. split; wsimpl.
  - apply (deposit_then_drop_valid (currency w') to amt); [done|lia|done].
  - intros a. rewrite (deposit_reserved (currency w') to amt c imb); [done|done|lia|done].
Qed.

Lemma pay_stakers_solvent next w : solvent w → wp (pay_stakers next) (ends solvent) w.
Proof using CL.
  intros [Hc Hb].
  eapply wp_mono; [|apply wp_and; [apply pay_stakers_registry|apply (pay_stakers_ends next (cur_preserved w))]].
  - intros [u w'|e w'|]; cbn [ends]; [|tauto..]. intros [(Hcand & _ & _ & Hnom & _) [Hc' Hr]].
    split; [done|]. rewrite Hcand, Hnom. apply (books_reserves Hb). intros a. rewrite Hr. by apply (backed _ _ _ Hb).
  - done.
  - intros. by apply mint_preserves.
  - done.
  - done.
Qed.

(** A nominator with nothing left has no nominations. *)
Lemma total_zero_empty cands noms (res : Z → Z) a n :
  books cands noms res → noms !! a = Some n → Nominator.total n = 0 →
  Nominator.nominations n = [].
Proof.
  intros Hb Ha Ht. destruct (Nominator.nominations n) as [|b l] eqn:E; [done|]. exfalso.
  pose proof (nomination_le_total Hb a n (owner b) Ha) as Hle.
  assert (bond_map (Nominator.nominations n) !! owner b = Some (amount b)) as Hl.
  { rewrite E, bond_map_cons. apply lookup_insert_eq. }
  pose proof (nominations_pos Hb a n _ _ Ha Hl). rewrite Hl in Hle. cbn in Hle. lia.
Qed.

(** The loop over the nominators of an exiting candidate: [c'] is what is left of the
    candidate. *)
Definition exiting (w : World Cur) (v : AccountId) (c : Validator.t) (xs : list Bond)
    (w' : World Cur) : Prop :=
  Candidates w' = Candidates w ∧ cur_valid (currency w') ∧
  ∃ c', xs ++ Validator.nominators c' = Validator.nominators c ∧
    Validator.bond c' = Validator.bond c ∧
    books (<[v:=c']> (Candidates w)) (Nominators w') (reserved_balance (currency w')).

(** The nominator that is next. *)
Lemma exiting_next w v c x xs w' :
  (xs ++ [x]) `prefix_of` Validator.nominators c → exiting w v c xs w' →
  ∃ c' n, xs ++ x :: without (owner x) (Validator.nominators c') = Validator.nominators c ∧
    Validator.bond c' = Validator.bond c ∧
    books (<[v:=c']> (Candidates w)) (Nominators w') (reserved_balance (currency w')) ∧
    Nominators w' !! owner x = Some n ∧
    bond_map (Nominator.nominations n) !! v = Some (amount x).
Proof.
  intros [rest Hrest] (Hcand & Hc & c' & Hc' & Hbond & Hb).
  rewrite <-Hc', <-app_assoc in Hrest. apply app_inv_head in Hrest. cbn in Hrest.
  assert (<[v:=c']> (Candidates w) !! v = Some c') as Hv by apply lookup_insert_eq.
  assert (sorted (Validator.nominators c')) as Hsc by by eapply (cand_sorted _ _ _ Hb).
  assert (bond_map (Validator.nominators c') !! owner x = Some (amount x)) as Hx.
  { apply bond_map_elem; [done|]. rewrite Hrest. destruct x. set_solver. }
  assert (without (owner x) (Validator.nominators c') = rest) as Hwo.
  { rewrite Hrest in Hsc |- *. apply sorted_owners_NoDup in Hsc. rewrite fmap_cons in Hsc.
    apply NoDup_cons in Hsc as [Hxr _]. rewrite without_cons, Z.eqb_refl.
    apply without_absent. by apply bond_map_None. }
  pose proof (bilateral _ _ _ Hb (owner x) v) as Hbil. unfold nomination, backing in Hbil.
  rewrite Hv in Hbil. cbn in Hbil. rewrite Hx in Hbil.
  destruct (Nominators w' !! owner x) as [n|] eqn:Hn; [|done].
  exists c', n. rewrite Hwo. split_and!; [by rewrite <-Hrest|done..].
Qed.

Lemma exit_nominator_solvent w v c x xs w' :
  (xs ++ [x]) `prefix_of` Validator.nominators c → exiting w v c xs w' →
  wp (exit_nominator v x) (ends (exiting w v c (xs ++ [x]))) w'.
Proof using CL.
  intros Hpre HI.
  destruct (exiting_next w v c x xs w' Hpre HI) as (c' & n & Hrest & Hbond & Hb & Hn & Hx).
  destruct HI as (Hcand & Hc & _).
  assert (<[v:=c']> (Candidates w) !! v = Some c') as Hv by apply lookup_insert_eq.
  assert (sorted (Validator.nominators c')) as Hsc by by eapply (cand_sorted _ _ _ Hb).
  assert (sorted (Nominator.nominations n)) as Hsn by by eapply (nom_sorted _ _ _ Hb).
  unfold exit_nominator. stake_run. wsimpl. rewrite Hn, rm_nomination_eq, Hx by done.
  assert (0 < amount x) as Hpos by by eapply (nominations_pos Hb).
  set (rest := without (owner x) (Validator.nominators c')) in *.
  assert (books (<[v:=Validator.set_nominators_total c' rest (Validator.total c' ⊖ amount x)]>
      (Candidates w))
    (<[owner x:={| Nominator.nominations := without v (Nominator.nominations n);
                   Nominator.total := Nominator.total n ⊖ amount x |}]> (Nominators w'))
    (reserved_balance (unreserve (currency w') (owner x) (amount x)).1)) as Hb'.
  { rewrite <-(insert_insert_eq (Candidates w) v _ c').
    apply (lower_books _ _ (currency w') v (owner x) c' n (amount x) (amount x) None);
      try done; try lia.
    - cbn. lia.
    - by apply without_sorted.
    - by apply bond_map_without.
    - by apply without_sorted.
    - by rewrite bond_map_without. }
  assert (cur_valid (unreserve (currency w') (owner x) (amount x)).1) as Hc2.
  { apply unreserve_valid; [done|lia]. }
  destruct (Z.eqb_spec (Nominator.total n ⊖ amount x) 0) as [Hz|Hz]; apply wp_modify;
    (split; [done|]); (split; [done|]); eexists (Validator.set_nominators_total c' rest _);
    (split; [cbn; by rewrite <-app_assoc|]); (split; [exact Hbond|]);
    wsimpl; [|exact Hb'].
  rewrite <-(delete_insert_eq (Nominators w') (owner x)
    {| Nominator.nominations := without v (Nominator.nominations n);
       Nominator.total := Nominator.total n ⊖ amount x |}).
  apply (books_forget_nominator Hb' (owner x) _ (lookup_insert_eq _ _ _)).
  by apply (total_zero_empty _ _ _ (owner x) _ Hb'); [apply lookup_insert_eq|].
Qed.

Lemma execute_exit_solvent next x w :
  (∀ a c, Candidates w !! a = Some c → Validator.id c = a) → solvent w →
  wp (execute_exit next x) (λ o, match o with Done _ w' => solvent w' | _ => False end) w.
Proof using CL.
  intros Hid [Hc Hb]. unfold execute_exit. destruct (amount x >? next); [by apply wp_ret|].
  stake_run. destruct (Candidates w !! owner x) as [c|] eqn:Hx; [|by apply wp_ret].
  apply wp_bind. apply (wp_for_each_visited (exiting w (owner x) c)).
  - split_and!; [done..|]. exists c. split_and!; [done..|]. by rewrite insert_id.
  - intros b xs w' Hpre Hw'. eapply wp_mono; [|by apply exit_nominator_solvent].
    by intros [].
  - intros w' (Hcand & Hc' & c' & Hnil & Hbond & Hb'). cbn [bind_post]. stake_run. wsimpl.
    rewrite <-(app_nil_r (Validator.nominators c)) in Hnil at 2. apply app_inv_head in Hnil.
    assert (<[owner x:=c']> (Candidates w) !! owner x = Some c') as Hl by apply lookup_insert_eq.
    pose proof (cand_bond _ _ _ Hb' _ _ Hl) as Hbnn.
    rewrite (Hid _ _ Hx), <-Hbond, Hcand. split; wsimpl; [by apply unreserve_valid|].
    rewrite <-(delete_insert_eq (Candidates w) (owner x) c').
    apply (books_leave Hb' (owner x) c'); [done..|]. intros b.
    pose proof (nominated_nonneg Hb' (owner x)) as Hn0.
    assert (0 <= Validator.bond c' <=
      staked (<[owner x:=c']> (Candidates w)) (Nominators w') (owner x)) as Hst.
    { unfold staked, own_bond. rewrite Hl. lia. }
    pose proof (unreserve_covers (currency w') (owner x) _ _ _ Hc' Hst Hb' b) as Hcov.
    case_decide; lia.
Qed.

Lemma execute_exits_solvent next w :
  pool_inv w → solvent w → wp (execute_delayed_validator_exits next) (ends solvent) w.
Proof using CL.
  intros (Hreg & Hnoms & Hvals) Hsol. unfold execute_delayed_validator_exits.
  stake_run.
  apply (wp_filter_map_each (λ xs ys w', exits_inv w next xs ys w' ∧ solvent w')).
  - split; [|done]. by split_and!.
  - intros x xs ys w' _ _ [HI Hs].
    eapply wp_mono; [|apply wp_and; [by apply execute_exit_inv|apply (execute_exit_solvent next x w')]].
    + intros [o w''|e w''|]; tauto.
    + intros a c. destruct HI as (_ & _ & Hc & _). rewrite Hc. case_decide; [done|].
      by apply (candidate_id _ _ _ Hreg).
    + done.
  - intros ys w' [_ Hs]. cbn [bind_post]. by apply wp_modify.
Qed.

Lemma on_finalize_solvent {SL : UnstableSortLaws} n w :
  BlocksPerRound ≠ 0 → pool_inv w → solvent w → wp (on_finalize n) (ends solvent) w.
Proof using CL.
  intros Hb Hw Hs. unfold on_finalize.
  apply wp_bind, wp_assert; [|rewrite negb_false_iff, Z.eqb_eq; done].
  intros _. cbn [bind_post]. apply wp_when; [|done]. intros _. stake_run.
  eapply wp_mono; [|apply wp_and; [apply pay_stakers_registry|by apply pay_stakers_solvent]].
  intros [u w1|e w1|]; cbn [bind_post ends]; [|tauto..]. intros [Hw1 Hs1].
  apply same_registry_inv in Hw1; [|done]. apply wp_bind.
  eapply wp_mono; [|apply wp_and; [by apply execute_exits_pool|by apply execute_exits_solvent]].
  intros [u2 w2|e w2|]; cbn [bind_post ends]; [|tauto..]. intros [Hw2 Hs2]. apply wp_bind.
  apply wp_best_candidates; [done|]. intros evs l. cbn [bind_post]. by stake_run.
Qed.

(** ** Every orderly step *)

(** The arguments are machine integers, and no nomination is merged into another. *)
Definition orderly_call (w : World Cur) origin (call : Call) : Prop :=
  match call with
  | Call_join_candidates _ bond => 0 <= bond
  | Call_candidate_bond_more more => 0 <= more
  | Call_candidate_bond_less less => 0 <= less
  | Call_join_nominators _ amount => 0 <= amount < U128
  | Call_nominate_new _ amount => 0 <= amount < U128
  | Call_nominator_bond_more _ more => 0 <= more
  | Call_nominator_bond_less _ less => 0 <= less
  | Call_switch_nomination _ new => ¬ merges w origin new
  | _ => True
  end.

(** The steps of [chain_step] with orderly calls, in which the other pallets do not
    release what this pallet has reserved. *)
Inductive orderly_step (w : World Cur) : World Cur → Prop :=
| orderly_dispatch origin call u w' :
    orderly_call w origin call → dispatch origin call w = Done u w' → orderly_step w w'
| orderly_failed origin call e w' :
    orderly_call w origin call → dispatch origin call w = Failed e w' → orderly_step w w'
| orderly_finalize n u w' : on_finalize n w = Done u w' → orderly_step w w'
| orderly_author a u w' : note_author a w = Done u w' → orderly_step w w'
| orderly_currency c :
    cur_valid c → (∀ a, reserved_balance (currency w) a <= reserved_balance c a) →
    orderly_step w (set_currency c w)
| orderly_clear_events : orderly_step w (set_events [] w).

Definition sound (w : World Cur) : Prop := pool_inv w ∧ solvent w.

Context {CF : StakeConfigLaws}.

#[local] Hint Resolve join_candidates_solvent leave_candidates_solvent go_offline_solvent
  go_online_solvent candidate_bond_more_solvent candidate_bond_less_solvent
  join_nominators_solvent nominate_new_solvent switch_nomination_solvent
  revoke_nomination_solvent nominator_bond_more_solvent nominator_bond_less_solvent : handlers.

Lemma dispatch_solvent origin call w :
  orderly_call w origin call → sound w → wp (dispatch origin call) (if_done solvent) w.
Proof using CL CF.
  intros Hcall [Hp Hs]. destruct call; cbn [dispatch orderly_call] in *; auto with handlers.
  - unfold set_staking_expectations. by stake_run.
  - unfold set_inflation. by stake_run.
  - destruct (ensure_signed origin) as [a|] eqn:Ho.
    + destruct (Nominators w !! a) as [n|] eqn:Ha.
      * eapply wp_mono; [|by apply (leave_nominators_solvent origin a n w)].
        intros []; cbn; tauto.
      * unfold leave_nominators. stake_run; try done. simplify_eq.
    + unfold leave_nominators. stake_run; try done. simplify_eq.
Qed.

(** In a sound world every failed call leaves no trace, [leave_nominators] included. *)
Lemma dispatch_sound_settled origin call w :
  sound w → wp (dispatch origin call) (settled w) w.
Proof using CL CF.
  intros [Hp Hs]. pose proof rounds_fit as Hb.
  destruct (is_leave_nominators call) eqn:E; [|by apply dispatch_settled].
  destruct call; try done. cbn [dispatch].
  pose proof (leave_nominators_keeps origin w Hp) as Hk.
  destruct (ensure_signed origin) as [a|] eqn:Ho;
    [destruct (Nominators w !! a) as [n|] eqn:Ha|].
  - eapply wp_mono; [|apply wp_and; [exact Hk|by apply (leave_nominators_solvent origin a n w)]].
    by intros [u w'|e w'|] [H1 H2].
  - unfold leave_nominators. stake_run; try done. simplify_eq.
  - unfold leave_nominators. stake_run; try done. simplify_eq.
Qed.

Section orderly.
Context {SL : UnstableSortLaws}.

Lemma orderly_step_chain_step w w' : orderly_step w w' → chain_step w w'.
Proof. destruct 1; by econstructor. Qed.

Lemma orderly_step_sound w w' : orderly_step w w' → sound w → sound w'.
Proof using CL SL CF.
  intros Hst Hs. split.
  { eapply chain_step_pool; [apply rounds_fit|by apply orderly_step_chain_step|apply Hs]. }
  destruct Hst as [origin call u w' Hc E|origin call e w' Hc E|n u w' E|a u w' E|c Hc Hr|].
  - pose proof (dispatch_solvent origin call w Hc Hs) as H.
    unfold wp in H. by rewrite E in H.
  - pose proof (dispatch_sound_settled origin call w Hs) as H.
    unfold wp in H. rewrite E in H. cbn in H. rewrite H. apply Hs.
  - destruct Hs as [Hp Hs].
    pose proof (on_finalize_solvent n w ltac:(pose proof rounds_fit; lia) Hp Hs) as H. unfold wp in H. by rewrite E in H.
  - unfold note_author in E. cbn in E. injection E as _ <-. apply Hs.
  - destruct Hs as [_ [_ Hb]]. split; [done|]. wsimpl. apply (books_reserves Hb).
    intros a. pose proof (backed _ _ _ Hb a). specialize (Hr a). lia.
  - apply Hs.
Qed.

Lemma orderly_steps_sound w w' : rtc orderly_step w w' → sound w → sound w'.
Proof using CL SL CF.
  induction 1 as [|w1 w2 w3 Hst _ IH]; [done|]. intros Hs. apply IH.
  by eapply orderly_step_sound.
Qed.

(** The genesis build starts the books. *)
Lemma genesis_staker_sound (signed_by : AccountId → Origin) actor opt_val balance w :
  0 <= balance < U128 → sound w →
  wp (genesis_staker signed_by (actor, opt_val, balance))
    (λ o, match o with Done _ w' => sound w' | Failed _ _ => False | Panicked => True end) w.
Proof using CL SL CF.
  intros Hb [Hp Hs]. unfold genesis_staker.
  apply wp_bind, wp_gets. cbn [bind_post]. apply wp_bind, wp_assert; [|done]. intros _.
  cbn [bind_post]. destruct opt_val as [v|]; apply wp_ignore_error.
  - eapply wp_mono; [|apply wp_and;
      [by apply join_nominators_settled|by apply join_nominators_solvent]].
    intros [u w2|e w2|] [H1 H2]; cbn in *; [done|by subst|done].
  - eapply wp_mono; [|apply wp_and;
      [by apply join_candidates_settled|by apply join_candidates_solvent; [lia|..]]].
    intros [u w2|e w2|] [H1 H2]; cbn in *; [done|by subst|done].
Qed.

Lemma genesis_build_sound (signed_by : AccountId → Origin) stakers w :
  Forall (λ '(_, _, balance), 0 <= balance < U128) stakers → sound w →
  wp (genesis_build signed_by stakers)
    (λ o, match o with Done _ w' => sound w' | Failed _ _ => False | Panicked => True end) w.
Proof using CL SL CF.
  intros Hst Hw. unfold genesis_build. apply wp_bind. apply (wp_for_each sound); [done| |].
  - intros [[actor opt_val] balance] w' Hin Hw'.
    rewrite Forall_forall in Hst. specialize (Hst _ Hin). cbn in Hst.
    eapply wp_mono; [|by apply genesis_staker_sound]. by intros [].
  - intros w' [Hp Hs]. cbn [bind_post]. apply wp_bind, wp_best_candidates; [done|].
    intros evs l. cbn [bind_post]. stake_run. split; [by apply (selected_pool 1 w' evs)|done].
Qed.

Lemma empty_world_sound config (c : Cur) : cur_valid c → sound (empty_world config c).
Proof using CL.
  intros Hc. split; [apply empty_world_pool|]. split; [done|]. apply books_empty.
  intros a. by apply balances_nonneg.
Qed.
End orderly.
End solvency.
