(* ===== verification/Rounds.v ===== *)
(** * What the end of a round does

    The selection of the validators, the exposures, the exits and the payments of
    [on_finalize], each by its effect on the storage. *)

From S2P Require Import Prelude OrderedSet Frame StakeTypes BondMap Inflation Stake.
From S2P Require Import StakeLogic Registry.

(** ** The largest entries of a list *)

Section top.
Context `{US : UnstableSort, SL : @UnstableSortLaws US, SC : StakeConfig}.

Definition by_amount (a b : Bond) : comparison := amount a ?= amount b.

Lemma StronglySorted_app_inv {A} (R : A → A → Prop) l k x y :
  StronglySorted R (l ++ k) → x ∈ l → y ∈ k → R x y.
Proof.
  induction l as [|a l IH]; cbn; [set_solver|]. intros [Hs Hf]%StronglySorted_inv Hx Hy.
  apply elem_of_cons in Hx as [->|Hx]; [|by apply IH].
  rewrite Forall_forall in Hf. apply Hf. set_solver.
Qed.

Lemma StronglySorted_rev {A} (R : A → A → Prop) l :
  StronglySorted R l → StronglySorted (flip R) (rev l).
Proof.
  induction 1 as [|x l Hs IH Hx]; cbn; [constructor|].
  assert (∀ k, StronglySorted (flip R) k → Forall (R x) k → StronglySorted (flip R) (k ++ [x]))
    as Hsnoc.
  { induction k as [|y k IHk]; intros Hk Hf; cbn; [repeat constructor|].
    apply StronglySorted_inv in Hk as [Hk Hy]. apply Forall_cons in Hf as [? Hf].
    constructor; [auto|]. apply Forall_app. split; [done|]. by constructor. }
  apply Hsnoc; [done|]. rewrite Forall_forall in *. intros y Hy. apply Hx.
  by apply list_elem_of_In, in_rev, list_elem_of_In.
Qed.

(** The pool split into the chosen entries and the others. *)
Lemma top_candidates_split pool :
  ∃ top rest, top_candidates pool = owner <$> top ∧ top ++ rest ≡ₚ pool ∧
    length top = Nat.min (Z.to_nat MaxValidators) (length pool) ∧
    ∀ x y, x ∈ top → y ∈ rest → amount y <= amount x.
Proof using SL.
  unfold top_candidates. fold by_amount.
  pose proof (sort_unstable_perm amount pool) as Hp.
  pose proof (sort_unstable_sorted amount pool) as Hs.
  set (s := sort_unstable_by _ pool) in *. change (s ≡ₚ pool) in Hp.
  exists (take (Z.to_nat MaxValidators) (rev s)), (drop (Z.to_nat MaxValidators) (rev s)).
  split_and!; [done| | |].
  - by rewrite take_drop, <-Permutation_rev.
  - rewrite length_take, length_rev. by rewrite Hp.
  - intros x y Hx Hy. apply StronglySorted_rev in Hs.
    rewrite <-(take_drop (Z.to_nat MaxValidators) (rev s)) in Hs.
    exact (StronglySorted_app_inv _ _ _ x y Hs Hx Hy).
Qed.

(** In terms of the pool as a map. *)
Lemma top_candidates_best pool :
  sorted pool →
  length (top_candidates pool) = Nat.min (Z.to_nat MaxValidators) (length pool) ∧
  (∀ a, a ∈ top_candidates pool → is_Some (bond_map pool !! a)) ∧
  (∀ a b x y, a ∈ top_candidates pool → b ∉ top_candidates pool →
    bond_map pool !! a = Some x → bond_map pool !! b = Some y → y <= x).
Proof using SL.
  intros Hs. destruct (top_candidates_split pool) as (top & rest & Et & Hp & Hlen & Htop).
  split_and!; [by rewrite Et, length_fmap| |].
  - intros a Ha%top_candidates_member. destruct (bond_map pool !! a) eqn:E; [by eexists|].
    by apply bond_map_None in E.
  - intros a b x y Ha Hb Hx Hy. rewrite bond_map_elem in Hx, Hy by done.
    rewrite <-Hp in Hx, Hy.
    pose proof (sorted_owners_NoDup pool Hs) as Hnd. rewrite <-Hp, fmap_app in Hnd.
    apply NoDup_app in Hnd as (_ & Hdisj & _). rewrite Et in Ha, Hb.
    apply (Htop {| owner := a; amount := x |} {| owner := b; amount := y |}).
    + apply elem_of_app in Hx as [?|Hx]; [done|]. exfalso. apply (Hdisj a); [done|].
      apply list_elem_of_fmap. by exists {| owner := a; amount := x |}.
    + apply elem_of_app in Hy as [Hy|?]; [|done]. exfalso. apply Hb.
      apply list_elem_of_fmap. by exists {| owner := b; amount := y |}.
Qed.
End top.

(** ** The whole transition *)

Section rounds.
Context {Origin Cur : Type}.
Context `{FO : FrameOrigin Origin, MO : MonetaryPolicyOrigin Origin, CU : Currency Cur}.
Context `{PO : PerbillOps, US : UnstableSort, IO : IterationOrder, SC : StakeConfig}.
Context {SL : UnstableSortLaws}.
Implicit Types (w : World Cur).

(** What the payments leave alone besides the registry. *)
Definition paid_round (next : RoundIndex) w w' : Prop :=
  same_registry w w' ∧
  Round w' = Round w ∧ Staked w' = Staked w ∧ Total w' = Total w ∧
  InflationConfig w' = InflationConfig w ∧ Points w' = Points w ∧
  AwardedPts w' =
    (if next >? BondDuration
     then filter (λ kv : Z * Z * Z, kv.1.1 ≠ next ⊟ BondDuration) (AwardedPts w)
     else AwardedPts w) ∧
  ∀ r a, AtStake w' !! (r, a) = AtStake w !! (r, a) ∨
    BondDuration < next ∧ r = next ⊟ BondDuration ∧ AtStake w' !! (r, a) = None.

Lemma pay_stakers_round next w : wp (pay_stakers next) (ends (paid_round next w)) w.
Proof.
  apply pay_stakers_ends; unfold paid_round.
  - intros w' a Hgt (Hreg & ? & ? & ? & ? & ? & ? & HA). wsimpl. split; [exact Hreg|].
    split_and!; try done. intros r b. wsimpl. rewrite lookup_delete.
    destruct (decide _) as [[= <- <-]|_]; [|apply HA]. by right.
  - intros w' amt to Hw'. by apply wp_mint.
  - intros Hle. destruct (Z.gtb_spec next BondDuration); [lia|]. split_and!; try done. by left.
  - intros Hgt. destruct (Z.gtb_spec next BondDuration); [|lia]. split_and!; try done. by left.
Qed.

(** The end of a round, in [w] and in the world [w'] it leaves. *)
Record round_change w w' : Prop := {
  change_round : Round w' = Round w ⊞ 1;
  change_pool : CandidatePool w' = CandidatePool w;
  change_validators : Validators w' = sort (top_candidates (CandidatePool w));
  change_exposed a c :
    a ∈ Validators w' → Candidates w !! a = Some c →
    AtStake w' !! (Round w', a) = Some (Validator.into_snapshot c);
  change_other_exposures r a :
    ¬ (r = Round w' ∧ a ∈ Validators w') →
    AtStake w' !! (r, a) = AtStake w !! (r, a) ∨
    BondDuration < Round w' ∧ r = Round w' ⊟ BondDuration ∧ AtStake w' !! (r, a) = None;
  change_queue : ExitQueue w' = filter (λ b, ¬ is_due (Round w') b) (ExitQueue w);
  change_candidates a :
    Candidates w' !! a =
      if decide (a ∈ due_owners (Round w') (ExitQueue w)) then None else Candidates w !! a;
  change_staked : Staked w' = <[Round w':=Total w']> (Staked w);
  change_points : Points w' = Points w;
  change_awarded :
    AwardedPts w' =
      if Round w' >? BondDuration
      then filter (λ kv : Z * Z * Z, kv.1.1 ≠ Round w' ⊟ BondDuration) (AwardedPts w)
      else AwardedPts w;
  change_inflation : InflationConfig w' = InflationConfig w;
}.

Lemma sort_members (l : list Z) a : a ∈ sort l ↔ a ∈ l.
Proof. by rewrite sort_perm. Qed.

(** A member of the pool is not about to exit. *)
Lemma pool_member_not_due w next a :
  pool_inv w → a ∈ owner <$> CandidatePool w → a ∉ due_owners next (ExitQueue w).
Proof.
  intros (Hreg & _) Ha Hd. destruct (pool_member_candidate w a Hreg Ha) as (c & Hc & Hact).
  apply due_owners_elem in Hd as (r & Hr & _); [|apply Hreg].
  rewrite (queue_exact _ _ _ Hreg), Hc in Hr. cbn in Hr.
  unfold exit_entry, Validator.is_active in *. by destruct (Validator.state c).
Qed.

Lemma on_finalize_change n w :
  BlocksPerRound ≠ 0 → n mod BlocksPerRound = 0 → pool_inv w →
  wp (on_finalize n) (ends (round_change w)) w.
Proof using SL.
  intros Hb Hn Hw. unfold on_finalize.
  apply wp_bind, wp_assert; [|rewrite negb_false_iff, Z.eqb_eq; done].
  intros _. cbn [bind_post]. apply wp_when; [|rewrite Hn; done]. intros _. stake_run.
  set (next := Round w ⊞ 1).
  eapply wp_mono; [|apply (pay_stakers_round next)].
  intros [u w1|e w1|]; cbn [bind_post ends]; [|done..].
  intros (Hsame & HR1 & HS1 & HT1 & HI1 & HP1 & HA1 & HE1). apply wp_bind.
  pose proof (same_registry_inv _ _ Hsame Hw) as Hw1. destruct Hsame as (C1 & P1 & Q1 & _ & V1).
  apply execute_exits_inv; [done|]. intros w2 HI.
  pose proof (exits_inv_pool next w1 w2 Hw1 HI) as Hw2.
  destruct HI as (_ & _ & C2 & P2 & Q2 & V2 & HR2 & HE2 & HS2 & HI2 & HP2 & HA2).
  cbn [bind_post]. apply wp_bind, wp_best_candidates; [done|]. intros evs l.
  cbn [bind_post]. stake_run. cbn [ends]. fold next.
  assert (l = top_candidates (CandidatePool w)) as El.
  { unfold l. wsimpl. by rewrite P2, P1. }
  assert (NoDup l) as Hnd.
  { rewrite El. apply top_candidates_NoDup, Hw. }
  assert (∀ a, Candidates w2 !! a =
    if decide (a ∈ due_owners next (ExitQueue w)) then None else Candidates w !! a) as Cw.
  { intros a. by rewrite C2, Q1, C1. }
  clearbody l. subst l.
  split; unfold selected; wsimpl; rewrite ?P2, ?P1, ?Q1; try done.
  - intros a c Ha Hc. rewrite sort_members in Ha.
    rewrite record_exposures_lookup, decide_True by done.
    rewrite Cw, decide_False, Hc; [done|].
    by apply pool_member_not_due, top_candidates_member.
  - intros r a Hn'. rewrite sort_members in Hn'.
    rewrite record_exposures_lookup, decide_False by done. rewrite HE2. apply HE1.
  - by rewrite HS2, HS1.
  - by rewrite HP2, HP1.
  - by rewrite HA2, HA1.
  - by rewrite HI2, HI1.
Qed.

(** ** No call touches what belongs to the rounds *)

Definition round_items (origin : Origin) w w' : Prop :=
  (SetMonetaryPolicyOrigin origin = false → InflationConfig w' = InflationConfig w) ∧
  Round w' = Round w ∧ Validators w' = Validators w ∧ AtStake w' = AtStake w ∧
  Staked w' = Staked w ∧ Points w' = Points w ∧ AwardedPts w' = AwardedPts w.

Lemma wp_update_active_any (b : bool) a tot
    (Q : Outcome (World Cur) (DispatchError Error) unit → Prop) w :
  (∀ pool, Q (Done tt (set_CandidatePool pool w))) → wp (when b (update_active a tot)) Q w.
Proof.
  intros HQ. apply wp_when; intros ->; cycle 1.
  { rewrite <-(set_CandidatePool_id w). apply HQ. }
  unfold update_active. apply wp_bind, wp_gets. cbn [bind_post].
  destruct (OrderedSet.remove _ _) as [? p1]. destruct (OrderedSet.insert _ _) as [? p2].
  apply wp_modify, HQ.
Qed.

Lemma wp_remove_from_pool_any a (Q : Outcome (World Cur) (DispatchError Error) unit → Prop) w :
  (∀ pool, Q (Done tt (set_CandidatePool pool w))) → wp (remove_from_pool a) Q w.
Proof.
  intros HQ. unfold remove_from_pool. apply wp_bind, wp_gets. cbn [bind_post].
  destruct (OrderedSet.remove _ _) as [? p1]. apply wp_when; intros _.
  - apply wp_modify, HQ.
  - rewrite <-(set_CandidatePool_id w). apply HQ.
Qed.

Definition rounds_kept {A} (origin : Origin) w (o : Outcome (World Cur) (DispatchError Error) A) : Prop :=
  match o with Done _ w' | Failed _ w' => round_items origin w w' | Panicked => True end.

(** Execute a whole handler; what it computes does not matter. *)
Ltac skip_data :=
  lazymatch goal with
  | |- wp (when _ (update_active _ _)) _ _ => apply wp_update_active_any; intros ?
  | |- wp (remove_from_pool _) _ _ => apply wp_remove_from_pool_any; intros ?
  | |- wp (let '(_, _) := ?x in _) _ _ => destruct x
  | |- wp (match ?x with _ => _ end) _ _ => destruct x
  | |- bind_post _ _ _ => cbn [bind_post]
  | |- _ => stake_step
  end; cbn beta iota zeta.
Ltac skip_all :=
  repeat skip_data;
  cbn [rounds_kept]; first [done | unfold round_items in *; wsimpl;
       repeat match goal with H : _ ∧ _ |- _ => destruct H end; split_and!; try intros ?; intuition congruence].

Lemma nominator_leaves_validator_rounds origin a v w w' :
  round_items origin w w' →
  wp (nominator_leaves_validator a v) (rounds_kept origin w) w'.
Proof. intros H. unfold nominator_leaves_validator. skip_all. Qed.

Lemma nominator_joins_validator_rounds origin a amt v w w' :
  round_items origin w w' →
  wp (nominator_joins_validator a amt v) (rounds_kept origin w) w'.
Proof. intros H. unfold nominator_joins_validator. skip_all. Qed.

Lemma round_items_refl origin w : round_items origin w w.
Proof. by split_and!. Qed.

Lemma dispatch_rounds origin call w : wp (dispatch origin call) (rounds_kept origin w) w.
Proof.
  pose proof (round_items_refl origin w) as Hw.
  destruct call; cbn [dispatch].
  - unfold set_staking_expectations. skip_all.
  - unfold set_inflation. skip_all.
  - unfold join_candidates. skip_all.
  - unfold leave_candidates. skip_all.
  - unfold go_offline. skip_all.
  - unfold go_online. skip_all.
  - unfold candidate_bond_more. skip_all.
  - unfold candidate_bond_less. skip_all.
  - unfold join_nominators. repeat stake_step; try exact Hw.
    eapply wp_mono; [|by apply (nominator_joins_validator_rounds origin _ _ _ w w)].
    intros [u w'|e w'|]; cbn [rounds_kept bind_post]; [|done..]. intros Hw'. skip_all.
  - unfold leave_nominators. repeat stake_step; try exact Hw.
    apply (wp_for_each (round_items origin w)); [done| |].
    + intros x w' _ Hw'. eapply wp_mono; [|by apply (nominator_leaves_validator_rounds origin _ _ w w')].
      by intros [].
    + intros w' Hw'. cbn [bind_post]. skip_all.
  - unfold nominate_new. skip_all.
  - unfold switch_nomination. skip_all.
  - unfold revoke_nomination, nominator_revokes_validator. repeat skip_data.
    all: try exact Hw.
    eapply wp_mono; [|by apply (nominator_leaves_validator_rounds origin _ _ w w)].
    intros [u w'|e w'|]; cbn [rounds_kept bind_post]; [|done..]. intros Hw'. skip_all.
  - unfold nominator_bond_more. skip_all.
  - unfold nominator_bond_less. skip_all.
Qed.

(** The genesis build does not award points. *)
Lemma genesis_staker_rounds (signed_by : AccountId → Origin) actor opt_val balance w :
  wp (genesis_staker signed_by (actor, opt_val, balance))
    (λ o, match o with
          | Done _ w' =>
              AtStake w' = AtStake w ∧ Points w' = Points w ∧ AwardedPts w' = AwardedPts w
          | _ => True end) w.
Proof.
  assert (∀ call, wp (ignore_error (dispatch (signed_by actor) call))
    (λ o, match o with
          | Done _ w' =>
              AtStake w' = AtStake w ∧ Points w' = Points w ∧ AwardedPts w' = AwardedPts w
          | _ => True end) w) as H.
  { intros call. apply wp_ignore_error. pose proof (dispatch_rounds (signed_by actor) call w) as H.
    unfold wp in *.
    destruct (dispatch (signed_by actor) call w); [destruct H as (_ & _ & _ & ? & _ & ? & ?)..|];
      done. }
  unfold genesis_staker. apply wp_bind, wp_gets. cbn [bind_post].
  apply wp_bind, wp_assert; [|done]. intros _. cbn [bind_post]. destruct opt_val as [v|].
  - exact (H (Call_join_nominators v balance)).
  - exact (H (Call_join_candidates 0 balance)).
Qed.

(** ** The two kinds of blocks *)

Context {CF : StakeConfigLaws}.

Lemma config_rounds : BlocksPerRound ≠ 0.
Proof using CF. pose proof rounds_fit. lia. Qed.

Lemma end_of_round n w :
  n mod BlocksPerRound = 0 → pool_inv w →
  ∃ w', on_finalize n w = Done tt w' ∧ pool_inv w' ∧ round_change w w'.
Proof using SL CF.
  intros Hn Hw. pose proof (on_finalize_change n w config_rounds Hn Hw) as H.
  pose proof (on_finalize_pool n w config_rounds Hw) as H'. unfold wp in H, H'.
  destruct (on_finalize n w) as [[] w'|?|]; [|done..]. by exists w'.
Qed.

Lemma mid_round n w : n mod BlocksPerRound ≠ 0 → on_finalize n w = Done tt w.
Proof using CF.
  intros Hn. unfold on_finalize. pose proof config_rounds as Hb.
  apply Z.eqb_neq in Hn, Hb. by rewrite Hb, Hn.
Qed.

End rounds.
