(* ===== verification/Payouts.v ===== *)
(** * The payments of a round

    [pay_stakers] splits the issuance of a round: every payment is at most the issuance,
    the commission never exceeds what is split, and the balances grow by exactly what
    the events report. *)

From S2P Require Import Prelude OrderedSet Frame StakeTypes BondMap Inflation Stake.
From S2P Require Import StakeLogic.

(** An exposure with fields in their ranges. *)
Definition snapshot_ok (s : ValidatorSnapshot.t) : Prop :=
  is_perbill (ValidatorSnapshot.fee s) ∧
  is_u128 (ValidatorSnapshot.bond s) ∧ is_u128 (ValidatorSnapshot.total s) ∧
  Forall (λ b, is_u128 (amount b)) (ValidatorSnapshot.nominators s).

#[export] Instance snapshot_ok_dec s : Decision (snapshot_ok s).
Proof. unfold snapshot_ok. apply _. Defined.

(** The rewards of [a] among events. *)
Definition rewards_of (a : AccountId) (evs : list Event) : Balance :=
  zsum (λ e, match e with Rewarded b x => if b =? a then x else 0 | _ => 0 end) evs.

Definition reward_within (low high : Balance) (e : Event) : Prop :=
  ∃ a x, e = Rewarded a x ∧ low < x <= high.

(** The three rates of the configuration are fractions. *)
Definition rates_ok (r : Range.t) : Prop :=
  is_perbill (Range.min r) ∧ is_perbill (Range.ideal r) ∧ is_perbill (Range.max r).

#[export] Instance rates_ok_dec r : Decision (rates_ok r).
Proof. unfold rates_ok. apply _. Defined.

Section payouts.
Context {Origin Cur : Type}.
Context `{FO : FrameOrigin Origin, MO : MonetaryPolicyOrigin Origin, CU : Currency Cur}.
Context {CL : CurrencyLaws Cur}.
Context `{PO : PerbillOps, US : UnstableSort, IO : IterationOrder, SC : StakeConfig}.
Context {PL : PerbillLaws} {IL : IterationOrderLaws}.
Implicit Types (w : World Cur).

(** The payments made since [w], none above [bound], with all exposures in order. *)
Definition payments (bound : Balance) w w' : Prop :=
  cur_valid (currency w') ∧
  map_Forall (λ _, snapshot_ok) (AtStake w') ∧
  ∃ evs, events w' = events w ++ evs ∧
    Forall (reward_within minimum_balance bound) evs ∧
    (∀ a, free_balance (currency w') a = free_balance (currency w) a + rewards_of a evs) ∧
    (∀ a, reserved_balance (currency w') a = reserved_balance (currency w) a).

Lemma rewards_of_snoc a evs to x :
  rewards_of a (evs ++ [Rewarded to x]) = rewards_of a evs + (if decide (a = to) then x else 0).
Proof.
  unfold rewards_of. rewrite zsum_app. cbn.
  destruct (Z.eqb_spec to a), (decide (a = to)); subst; try congruence; lia.
Qed.

Lemma mint_payments bound w amt to w' :
  amt <= bound → payments bound w w' → wp (mint amt to) (ends (payments bound w)) w'.
Proof using CL.
  intros Hle Hpay. apply wp_mint; [exact Hpay|]. intros c imb Hamt Hd.
  destruct Hpay as (Hc & HA & evs & He & Hf & Hfree & Hres).
  pose proof minimum_balance_nonneg as Hmin.
  assert (imb = amt) as -> by (eapply deposit_imbalance; [done| |done]; lia).
  split_and!; wsimpl; [by eapply deposit_then_drop_valid; [| |done]; [done|lia]|done|].
  exists (evs ++ [Rewarded to amt]). split_and!.
  - by rewrite He, app_assoc.
  - apply Forall_app. split; [done|]. constructor; [|constructor]. by exists to, amt.
  - intros a. rewrite rewards_of_snoc, (deposit_free (currency w') to amt c amt) by (done || lia).
    rewrite Hfree. case_decide; lia.
  - intros a. by rewrite (deposit_reserved (currency w') to amt c amt) by (done || lia).
Qed.

Lemma default_snapshot_ok : snapshot_ok ValidatorSnapshot.default.
Proof. split_and!; cbn; done. Qed.

Lemma get_snapshot_ok (m : gmap (Z * Z) ValidatorSnapshot.t) k :
  map_Forall (λ _, snapshot_ok) m → snapshot_ok (get_or ValidatorSnapshot.default m k).
Proof.
  intros H. unfold get_or. destruct (m !! k) eqn:E; cbn; [by eapply H|apply default_snapshot_ok].
Qed.

(** The share of the issuance that falls to one author. *)
Definition due (total : RewardPoint) (issuance : Balance) (pts : RewardPoint) : Balance :=
  perbill_mul (from_rational_approximation pts total) issuance.

Lemma due_range total issuance pts :
  0 <= total → 0 <= pts → 0 <= issuance → 0 <= due total issuance pts <= issuance.
Proof using PL. intros. apply perbill_mul_range; [|done]. by apply from_rational_range. Qed.

Lemma pay_validator_payments w round total issuance val pts w' :
  0 <= total → 0 <= pts → is_u128 issuance →
  payments (due total issuance pts) w w' →
  wp (pay_validator round total issuance val pts)
    (ends (payments (due total issuance pts) w)) w'.
Proof using CL PL.
  intros Ht Hp Hi Hpay. pose proof (due_range total issuance pts Ht Hp ltac:(apply Hi)) as Hdue.
  unfold pay_validator. fold (due total issuance pts). set (amt := due total issuance pts) in *.
  cbv zeta. case_match; [by apply wp_ret|]. unfold AtStake_take.
  apply wp_bind, wp_bind, wp_gets. cbn [bind_post]. apply wp_bind, wp_modify.
  cbn [bind_post]. apply wp_ret. cbn [bind_post].
  pose proof (get_snapshot_ok (AtStake w') (round, val) ltac:(apply Hpay)) as Hs.
  set (s := get_or _ _ _) in *. destruct Hs as (Hfee & Hbond & Htot & Hnoms).
  assert (payments amt w (set_AtStake (delete (round, val) (AtStake w')) w')) as Hpay'.
  { destruct Hpay as (Hc & HA & Hrest). split_and!; [done| |done]. wsimpl.
    by apply map_Forall_delete. }
  destruct (ValidatorSnapshot.nominators s) as [|b l] eqn:En; [by apply mint_payments|].
  assert (0 <= perbill_mul (ValidatorSnapshot.fee s) amt <= amt) as Hcom.
  { apply perbill_mul_range; [done|lia]. }
  set (com := perbill_mul (ValidatorSnapshot.fee s) amt) in *.
  set (pct := from_rational_approximation (ValidatorSnapshot.bond s) _).
  assert (is_perbill pct) as Hpct.
  { apply from_rational_range; [apply Hbond|apply Htot]. }
  unfold is_u128 in *.
  assert (∃ left_ val_due, (if com >? minimum_balance
    then let amt_due := amt ⊖ com in (amt_due, perbill_mul pct amt_due ⊕ com)
    else (amt, perbill_mul pct amt)) = (left_, val_due) ∧
    0 <= left_ <= amt ∧ val_due <= amt) as (left_ & val_due & Heq & Hleft & Hval).
  { destruct (com >? minimum_balance).
    - rewrite (u128_small (amt - com)) by lia. eexists _, _. split; [done|].
      pose proof (perbill_mul_range pct (amt - com) Hpct ltac:(lia)).
      rewrite u128_small by lia. lia.
    - eexists _, _. split; [done|].
      pose proof (perbill_mul_range pct amt Hpct ltac:(lia)). lia. }
  cbv zeta in Heq. rewrite Heq. apply wp_bind.
  eapply wp_mono; [|by apply (mint_payments amt w)].
  intros [u w''|e w''|]; cbn [bind_post ends]; [|done..]. intros Hw''.
  apply (wp_for_each (payments amt w)); [done| |done]. intros x w3 Hx Hw3.
  eapply wp_mono; [|apply (mint_payments amt w); [|done]]; [by intros []|].
  rewrite Forall_forall in Hnoms. specialize (Hnoms x Hx).
  etransitivity; [|apply Hleft]. apply perbill_mul_range; [|lia].
  apply from_rational_range; [apply Hnoms|apply Htot].
Qed.

Lemma payments_weaken bound bound' w w' :
  bound <= bound' → payments bound w w' → payments bound' w w'.
Proof.
  intros Hle (Hc & HA & evs & He & Hf & Hrest). split_and!; [done..|]. exists evs.
  split_and!; [done| |apply Hrest..]. apply (Forall_impl _ _ _ Hf).
  intros e (a & x & -> & Hx). exists a, x. split; [done|lia].
Qed.

Lemma payments_trans bound w1 w2 w3 :
  payments bound w1 w2 → payments bound w2 w3 → payments bound w1 w3.
Proof.
  intros (_ & _ & evs & He & Hf & Hfree & Hres) (Hc & HA & evs' & He' & Hf' & Hfree' & Hres').
  split_and!; [done..|]. exists (evs ++ evs'). split_and!.
  - by rewrite He', He, app_assoc.
  - by apply Forall_app.
  - intros a. rewrite Hfree', Hfree. unfold rewards_of. rewrite zsum_app. lia.
  - intros a. by rewrite Hres', Hres.
Qed.

Lemma payments_refl bound w :
  cur_valid (currency w) → map_Forall (λ _, snapshot_ok) (AtStake w) → payments bound w w.
Proof.
  intros Hc HA. split_and!; [done..|]. exists []. split_and!.
  - by rewrite app_nil_r.
  - constructor.
  - intros a. cbn. lia.
  - done.
Qed.

(** ** The issuance *)

Lemma compute_issuance_range w staked :
  cur_valid (currency w) → rates_ok (InflationInfo.round (InflationConfig w)) →
  0 <= compute_issuance w staked <= total_issuance (currency w).
Proof using CL PL.
  intros Hc (H1 & H2 & H3). pose proof (issuance_range _ Hc).
  unfold compute_issuance, round_issuance_range. cbn.
  repeat case_match; apply perbill_mul_range; done || lia.
Qed.

Lemma awarded_in_points m round a pts :
  (a, pts) ∈ awarded_in round m → m !! (round, a) = Some pts.
Proof using IL.
  unfold awarded_in. rewrite iteration_order_perm. rewrite list_elem_of_omap.
  intros ([[r b] p] & Hin & Heq). apply elem_of_map_to_list in Hin.
  destruct (Z.eqb_spec r round); naive_solver.
Qed.

Lemma pay_stakers_payments next w :
  cur_valid (currency w) → map_Forall (λ _, snapshot_ok) (AtStake w) →
  rates_ok (InflationInfo.round (InflationConfig w)) →
  map_Forall (λ _ p, 0 <= p) (Points w) → map_Forall (λ _ p, 0 <= p) (AwardedPts w) →
  wp (pay_stakers next)
    (ends (payments (compute_issuance w (get_or 0 (Staked w) (next ⊟ BondDuration))) w)) w.
Proof using CL PL IL.
  intros Hc HA Hr HP HW. unfold pay_stakers.
  apply wp_when; [|intros _; by apply payments_refl]. intros _. cbv zeta.
  unfold AwardedPts_drain_prefix. do 3 (apply wp_bind, wp_gets; cbn [bind_post]).
  set (round := next ⊟ BondDuration).
  pose proof (compute_issuance_range w (get_or 0 (Staked w) round) Hc Hr) as Hi.
  set (issuance := compute_issuance w _) in *. pose proof (issuance_range _ Hc).
  apply wp_bind, wp_bind, wp_gets. cbn [bind_post]. apply wp_bind, wp_modify. cbn [bind_post].
  apply wp_ret. cbn [bind_post].
  assert (0 <= get_or 0 (Points w) round) as Htot.
  { unfold get_or. destruct (Points w !! round) eqn:E; [by apply (HP _ _ E)|done]. }
  apply (wp_for_each (payments issuance w)); [|intros [val pts] w' Hin Hw'|done].
  - destruct (payments_refl issuance w Hc HA) as (_ & _ & Hrest). by split_and!.
  - apply awarded_in_points in Hin. pose proof (HW _ _ Hin) as Hp. cbn in Hp.
    eapply wp_mono; [|apply (pay_validator_payments w'); [exact Htot|exact Hp| |]].
    + intros [u w''|e w''|]; cbn [ends]; [|done..]. intros Hw''.
      eapply payments_trans; [done|]. eapply payments_weaken; [|done].
      apply due_range; [done..|lia].
    + split; lia.
    + apply payments_refl; apply Hw'.
Qed.
End payouts.
