(* ===== verification/PayoutBound.v ===== *)
(** * How much a round pays

    The payments of a round together are at most its issuance and two units for each
    payment, which the rounding of [Perbill] may add: the shares of a validator and its
    nominators are parts of one whole, and so are the points of the authors. *)

From S2P Require Import Prelude OrderedSet Frame StakeTypes BondMap Inflation Stake.
From S2P Require Import StakeLogic Payouts.

(** The sum of the rewards among events, each less by [d]. *)
Definition spent (d : Z) (evs : list Event) : Balance :=
  zsum (λ e, match e with Rewarded _ x => x - d | _ => 0 end) evs.

(** The number of rewards. *)
Definition payees (evs : list Event) : Z :=
  zsum (λ e, match e with Rewarded _ _ => 1 | _ => 0 end) evs.

Lemma spent_app d evs evs' : spent d (evs ++ evs') = spent d evs + spent d evs'.
Proof. unfold spent. apply zsum_app. Qed.
Lemma spent_payees d evs : spent d evs = spent 0 evs - d * payees evs.
Proof.
  unfold spent, payees. induction evs as [|e evs IH]; [cbn; lia|].
  rewrite !zsum_cons, IH. destruct e; lia.
Qed.

Lemma payees_nonneg evs : 0 <= payees evs.
Proof. unfold payees. induction evs as [|e evs IH]; [done|]. rewrite zsum_cons. destruct e; lia. Qed.
Lemma spent_nothing d evs : payees evs = 0 → spent d evs = 0.
Proof.
  unfold spent, payees. induction evs as [|e evs IH]; [done|]. rewrite !zsum_cons.
  pose proof (payees_nonneg evs) as Hn. unfold payees in Hn.
  destruct e; intros; rewrite ?IH; lia.
Qed.

(** The sum of the points of a round, over all authors. *)
Definition awarded_points (m : gmap (Z * Z) Z) (r : RoundIndex) : Z :=
  zsum (λ kv : Z * Z * Z, if kv.1.1 =? r then kv.2 else 0) (map_to_list m).

(** An exposure whose total is the sum of its parts. *)
Definition exact_snapshot (s : ValidatorSnapshot.t) : Prop :=
  ValidatorSnapshot.total s =
    ValidatorSnapshot.bond s + zsum amount (ValidatorSnapshot.nominators s).

(** The rounding of a share of a share. *)
Lemma share_bound `{PO : PerbillOps, PL : !PerbillLaws, PA : !PerbillAccuracy} part whole x :
  0 <= part → 0 <= whole → 0 <= x →
  whole `max` 1 * (perbill_mul (from_rational_approximation part whole) x - 1) <= part * x.
Proof.
  intros Hp Hw Hx. pose proof (from_rational_floor part whole Hp Hw) as H1.
  pose proof (from_rational_range part whole Hp Hw) as Hr.
  pose proof (perbill_mul_accurate (from_rational_approximation part whole) x Hr Hx) as H2.
  set (r := from_rational_approximation part whole) in *. set (y := perbill_mul r x) in *.
  set (m := whole `max` 1) in *. assert (1 <= m) by lia. unfold PERBILL_ACCURACY in *.
  assert (m * (1000000000 * (y - 1)) <= m * (r * x)) by (apply Z.mul_le_mono_nonneg_l; lia).
  assert (m * r * x <= part * 1000000000 * x) by (apply Z.mul_le_mono_nonneg_r; lia).
  nia.
Qed.

Section spending.
Context {Origin Cur : Type}.
Context `{FO : FrameOrigin Origin, MO : MonetaryPolicyOrigin Origin, CU : Currency Cur}.
Context {CL : CurrencyLaws Cur}.
Context `{PO : PerbillOps, US : UnstableSort, IO : IterationOrder, SC : StakeConfig}.
Context {PL : PerbillLaws} {PA : PerbillAccuracy} {IL : IterationOrderLaws}.
Implicit Types (w : World Cur).

Definition exposures_exact w : Prop :=
  map_Forall (λ _ s, snapshot_ok s ∧ exact_snapshot s) (AtStake w).

(** What has been spent since [w], in [scale]ths of a unit. *)
Definition spends (d scale budget : Z) w w' : Prop :=
  cur_valid (currency w') ∧ exposures_exact w' ∧
  ∃ evs, events w' = events w ++ evs ∧ scale * spent d evs <= budget.

Lemma spends_refl d scale w :
  cur_valid (currency w) → exposures_exact w → spends d scale 0 w w.
Proof. intros Hc HA. split_and!; [done..|]. exists []. rewrite app_nil_r. split; [done|]. cbn. lia. Qed.

(** One payment of at most its part of the budget. *)
Lemma mint_spends d scale budget part amt to w w' :
  scale * (amt - d) <= part → 0 <= part → spends d scale budget w w' →
  wp (mint amt to) (ends (spends d scale (budget + part) w)) w'.
Proof using CL.
  intros Hle Hp (Hc & HA & evs & He & Hs). apply wp_mint.
  { split_and!; [done..|]. exists evs. split; [done|lia]. }
  intros c imb Hamt Hd. pose proof minimum_balance_nonneg as Hmin.
  assert (imb = amt) as -> by (eapply deposit_imbalance; [done| |done]; lia).
  split_and!; wsimpl; [by eapply deposit_then_drop_valid; [| |done]; [done|lia]|done|].
  exists (evs ++ [Rewarded to amt]). split; [by rewrite He, app_assoc|].
  rewrite spent_app. cbn. lia.
Qed.

Lemma spends_scale d scale budget budget' w w' :
  0 < scale → budget <= scale * budget' → spends d scale budget w w' → spends d 1 budget' w w'.
Proof.
  intros Hs Hb (Hc & HA & evs & He & Hle). split_and!; [done..|]. exists evs. split; [done|].
  assert (scale * spent d evs <= scale * budget') as H by lia. nia.
Qed.

Lemma spends_trans d scale b1 b2 w1 w2 w3 :
  spends d scale b1 w1 w2 → spends d scale b2 w2 w3 → spends d scale (b1 + b2) w1 w3.
Proof.
  intros (_ & _ & evs & He & Hs) (Hc & HA & evs' & He' & Hs'). split_and!; [done..|].
  exists (evs ++ evs'). rewrite spent_app. split; [by rewrite He', He, app_assoc|lia].
Qed.

(** An exposure that is taken is exact, and the others stay so. *)
Lemma take_exposure round val w :
  exposures_exact w →
  let s := get_or ValidatorSnapshot.default (AtStake w) (round, val) in
  snapshot_ok s ∧ exact_snapshot s ∧
  exposures_exact (set_AtStake (delete (round, val) (AtStake w)) w).
Proof.
  intros HA s. assert (snapshot_ok s ∧ exact_snapshot s) as [H1 H2].
  { unfold s, get_or. destruct (AtStake w !! (round, val)) eqn:E; cbn; [by apply (HA _ _ E)|].
    split; [apply default_snapshot_ok|done]. }
  split_and!; [done|done|]. unfold exposures_exact. wsimpl. by apply map_Forall_delete.
Qed.

(** The nominators of an exposure share what the commission leaves. *)
Lemma pay_nominators_spends whole left_ budget w w' l :
  Forall (λ b, is_u128 (amount b)) l → 0 <= whole → 0 <= left_ →
  spends 1 (whole `max` 1) budget w w' →
  wp (for_each l (λ b,
        mint (perbill_mul (from_rational_approximation (amount b) whole) left_) (owner b)))
    (ends (spends 1 (whole `max` 1) (budget + zsum amount l * left_) w)) w'.
Proof using CL PL PA IL.
  intros Hl Hw Hleft Hb.
  apply (wp_for_each_visited (λ xs, spends 1 (whole `max` 1) (budget + zsum amount xs * left_) w));
    [cbn; by rewrite Z.add_0_r| |done].
  intros b xs w2 Hpre Hw2. assert (is_u128 (amount b)) as Hamt.
  { rewrite Forall_forall in Hl. apply Hl. eapply elem_of_prefix; [|exact Hpre]. set_solver. }
  eapply wp_mono; [|eapply (mint_spends _ _ _ (amount b * left_)); [|apply Z.mul_nonneg_nonneg; [apply Hamt|done]|exact Hw2]].
  - intros [u w3|e w3|]; cbn [ends]; [|done..].
    rewrite zsum_app. cbn. by rewrite Z.add_0_r, Z.mul_add_distr_r, Z.add_assoc.
  - apply share_bound; [apply Hamt|done|done].
Qed.
(** The commission and the validator's own share, before the nominators. *)
Lemma commission_bound com amt bond whole :
  is_u128 bond → is_u128 whole → 0 <= com <= amt → amt < U128 → 0 <= minimum_balance →
  let pct := from_rational_approximation bond whole in
  ∃ left_ val_due,
    (if com >? minimum_balance
     then let amt_due := amt ⊖ com in (amt_due, perbill_mul pct amt_due ⊕ com)
     else (amt, perbill_mul pct amt)) = (left_, val_due) ∧
    0 <= left_ <= amt ∧
    whole `max` 1 * (val_due - 1) <= bond * left_ + whole `max` 1 * (amt - left_).
Proof using PL PA.
  intros Hbond Hw Hcom Hamt Hmin pct.
  assert (∀ x, 0 <= x → whole `max` 1 * (perbill_mul pct x - 1) <= bond * x) as Hown.
  { intros x Hx. apply share_bound; [apply Hbond|apply Hw|done]. }
  destruct (com >? minimum_balance).
  - rewrite (u128_small (amt - com)) by lia. eexists _, _. split; [done|]. split; [lia|].
    specialize (Hown (amt - com) ltac:(lia)).
    pose proof (perbill_mul_range pct (amt - com)
      ltac:(apply from_rational_range; [apply Hbond|apply Hw]) ltac:(lia)).
    rewrite u128_small by lia. lia.
  - eexists _, _. split; [done|]. split; [lia|]. specialize (Hown amt ltac:(lia)). lia.
Qed.

(** What one author and its nominators get is at most the author's share of the issuance,
    and a unit for each payment. *)
Lemma pay_validator_spends round total issuance val pts w :
  0 <= total → 0 <= pts → is_u128 issuance →
  cur_valid (currency w) → exposures_exact w →
  wp (pay_validator round total issuance val pts)
    (ends (spends 1 1 (due total issuance pts) w)) w.
Proof using CL PL PA IL.
  intros Ht Hp Hi Hc HA. pose proof (due_range total issuance pts Ht Hp ltac:(apply Hi)) as Hdue.
  pose proof minimum_balance_nonneg as Hmin.
  unfold pay_validator. fold (due total issuance pts). set (amt := due total issuance pts) in *.
  cbv zeta. destruct (amt <=? minimum_balance) eqn:Hle.
  { apply wp_ret. split_and!; [done..|]. exists []. rewrite app_nil_r. split; [done|cbn; lia]. }
  unfold AtStake_take. apply wp_bind, wp_bind, wp_gets. cbn [bind_post].
  apply wp_bind, wp_modify. cbn [bind_post]. apply wp_ret. cbn [bind_post].
  destruct (take_exposure round val w HA) as ((Hfee & Hbond & Htot & Hnoms) & Hexact & HA').
  set (s := get_or _ _ _) in *. set (w0 := set_AtStake _ w) in *.
  assert (∀ d sc, spends d sc 0 w w0) as Hstart.
  { intros d sc. split_and!; [done..|]. exists []. rewrite app_nil_r. split; [done|cbn; lia]. }
  destruct (ValidatorSnapshot.nominators s) as [|b l] eqn:En.
  { eapply wp_mono; [|apply (mint_spends 1 1 0 amt); [lia|lia|done]].
    intros [u w1|e w1|]; cbn [ends]; done. }
  rewrite <-En in *. set (m := ValidatorSnapshot.total s `max` 1).
  destruct (commission_bound (perbill_mul (ValidatorSnapshot.fee s) amt) amt
    (ValidatorSnapshot.bond s) (ValidatorSnapshot.total s) Hbond Htot)
    as (left_ & val_due & Heq & Hleft & Hval);
    [by apply perbill_mul_range; [|lia]|unfold is_u128 in Hi; lia|done|].
  fold m in Hval. cbv zeta in Heq. rewrite Heq. apply wp_bind.
  assert (0 <= ValidatorSnapshot.bond s * left_) by (apply Z.mul_nonneg_nonneg; [apply Hbond|lia]).
  assert (0 <= m * (amt - left_)) by (apply Z.mul_nonneg_nonneg; unfold m; lia).
  eapply wp_mono; [|apply (mint_spends 1 m 0 _ val_due val w w0 Hval); [lia|done]].
  intros [u w1|e w1|]; cbn [bind_post ends]; [|done..]. intros Hw1.
  eapply wp_mono; [|eapply (pay_nominators_spends (ValidatorSnapshot.total s) left_ _ w w1);
    [exact Hnoms|apply Htot|lia|exact Hw1]].
  intros [u2 w2|e2 w2|]; cbn [ends]; [|done..].
  apply spends_scale; [lia|]. unfold exact_snapshot in Hexact. fold m.
  assert (ValidatorSnapshot.total s * left_ <= m * left_).
  { apply Z.mul_le_mono_nonneg_r; unfold m; lia. }
  rewrite Hexact in *. lia.
Qed.
(** With two units for each payment, the share of one author is paid from its part. *)
Lemma spends_share total issuance pts w w' :
  0 <= total → 0 <= pts → 0 <= issuance →
  spends 1 1 (due total issuance pts) w w' →
  spends 2 (total `max` 1) (pts * issuance) w w'.
Proof using PL PA.
  intros Ht Hp Hi (Hc & HA & evs & He & Hs). split_and!; [done..|]. exists evs. split; [done|].
  pose proof (payees_nonneg evs). destruct (decide (payees evs = 0)) as [E|Hne].
  - rewrite (spent_nothing 2 evs E). nia.
  - pose proof (share_bound pts total issuance Hp Ht Hi) as Hshare. fold (due total issuance pts) in Hshare.
    assert (spent 2 evs <= due total issuance pts - 1) as Hle.
    { rewrite (spent_payees 2). rewrite (spent_payees 1) in Hs. lia. }
    etransitivity; [|exact Hshare]. apply Z.mul_le_mono_nonneg_l; lia.
Qed.

Lemma awarded_in_sum m round : zsum snd (awarded_in round m) = awarded_points m round.
Proof using IL.
  unfold awarded_in, awarded_points.
  rewrite iteration_order_perm.
  induction (map_to_list m) as [|[[r a] p] l IH]; [done|]. cbn [omap list_omap].
  rewrite zsum_cons, <-IH. cbn [fst snd]. destruct (r =? round); [by rewrite zsum_cons|lia].
Qed.

(** The payments of a round. *)
Lemma pay_stakers_spends next w :
  let round := next ⊟ BondDuration in
  cur_valid (currency w) → exposures_exact w →
  rates_ok (InflationInfo.round (InflationConfig w)) → map_Forall (λ _ p, 0 <= p) (AwardedPts w) →
  (BondDuration < next → get_or 0 (Points w) round = awarded_points (AwardedPts w) round) →
  wp (pay_stakers next)
    (ends (spends 2 1 (compute_issuance w (get_or 0 (Staked w) round)) w)) w.
Proof using CL PL PA IL.
  intros round Hc HA Hr HW Hpts. unfold pay_stakers. fold round.
  pose proof (compute_issuance_range w (get_or 0 (Staked w) round) Hc Hr) as Hi.
  pose proof (issuance_range _ Hc). cbv zeta.
  apply wp_when; intros Hnext.
  2: { split_and!; [done..|]. exists []. rewrite app_nil_r. split; [done|cbn; lia]. }
  unfold AwardedPts_drain_prefix. do 3 (apply wp_bind, wp_gets; cbn [bind_post]).
  set (issuance := compute_issuance w _) in *.
  apply wp_bind, wp_bind, wp_gets. cbn [bind_post]. apply wp_bind, wp_modify. cbn [bind_post].
  apply wp_ret. cbn [bind_post]. rewrite Hpts, <-awarded_in_sum by lia.
  set (l := awarded_in round (AwardedPts w)) in *.
  assert (∀ v p, (v, p) ∈ l → 0 <= p) as Hnn.
  { intros v p Hin. apply awarded_in_points in Hin. exact (HW _ _ Hin). }
  assert (0 <= zsum snd l) as Ht.
  { apply zsum_nonneg. intros [v p] Hin. by eapply Hnn. }
  set (w0 := set_AwardedPts _ w).
  eapply wp_mono with (Q := ends (spends 2 (zsum snd l `max` 1) (zsum snd l * issuance) w)).
  { intros [u w'|e w'|]; cbn [ends]; [|done..]. apply spends_scale; [lia|].
    apply Z.mul_le_mono_nonneg_r; lia. }
  apply (wp_for_each_visited (λ xs, spends 2 (zsum snd l `max` 1) (zsum snd xs * issuance) w)).
  - apply (spends_refl 2 _ w); done.
  - intros [val pts] xs w' Hpre Hw'. assert (0 <= pts) as Hp.
    { apply (Hnn val). eapply elem_of_prefix; [|exact Hpre]. set_solver. }
    eapply wp_mono; [|apply pay_validator_spends; [exact Ht|exact Hp| |apply Hw'..]].
    + intros [u w''|e w''|]; cbn [ends]; [|done..]. intros H1.
      rewrite zsum_app. cbn [zsum foldr snd]. rewrite Z.add_0_r, Z.mul_add_distr_r.
      eapply spends_trans; [done|]. apply spends_share; [done..|lia|done].
    + split; lia.
  - done.
Qed.
End spending.
