(* ===== verification/Rewards.v ===== *)
(** * The rewards of a round

    [pay_stakers] computes and pays share by share while it takes the exposures out of the
    storage. Here the rewards of a round are a list that is computed first, without
    wrap-around, from the world in which the payment starts; [pay_stakers_rewards] proves
    that the code pays this list. *)

From S2P Require Import Prelude OrderedSet Frame StakeTypes BondMap Inflation Stake.
From S2P Require Import StakeLogic Payouts.

Section rewards.
Context {Origin Cur : Type}.
Context `{FO : FrameOrigin Origin, MO : MonetaryPolicyOrigin Origin, CU : Currency Cur}.
Context {CL : CurrencyLaws Cur}.
Context `{PO : PerbillOps, US : UnstableSort, IO : IterationOrder, SC : StakeConfig}.
Context {PL : PerbillLaws} {IL : IterationOrderLaws}.
Implicit Types (w : World Cur) (m : gmap (Z * Z) ValidatorSnapshot.t).

(** ** The reference definition *)

Notation Rewards := (list (AccountId * Balance)).

(** The part of [x] that [p] is of [q]. *)
Definition part (p q x : Z) : Balance := perbill_mul (from_rational_approximation p q) x.

(** The share of an author: the commission, and the rest by the stakes. *)
Definition split_share (s : ValidatorSnapshot.t) (val : AccountId) (amt : Balance) : Rewards :=
  match ValidatorSnapshot.nominators s with
  | [] => [(val, amt)]
  | noms =>
      let commission := perbill_mul (ValidatorSnapshot.fee s) amt in
      let kept := if commission >? minimum_balance then commission else 0 in
      let total := ValidatorSnapshot.total s in
      (val, part (ValidatorSnapshot.bond s) total (amt - kept) + kept) ::
      ((λ b, (owner b, part (amount b) total (amt - kept))) <$> noms)
  end.

Definition author_rewards m (round : RoundIndex) (total : RewardPoint) (issuance : Balance)
    (award : AccountId * RewardPoint) : Rewards :=
  let amt := part award.2 total issuance in
  if amt <=? minimum_balance then []
  else split_share (get_or ValidatorSnapshot.default m (round, award.1)) award.1 amt.

(** The exposures that are taken: of the authors who are paid. *)
Definition taken (round : RoundIndex) (total : RewardPoint) (issuance : Balance)
    (awards : list (AccountId * RewardPoint)) m : gmap (Z * Z) ValidatorSnapshot.t :=
  foldl (λ m award,
    if part award.2 total issuance <=? minimum_balance then m
    else delete (round, award.1) m) m awards.

Definition round_rewards (round : RoundIndex) w : Rewards :=
  let issuance := compute_issuance w (get_or 0 (Staked w) round) in
  awarded_in round (AwardedPts w) ≫=
    author_rewards (AtStake w) round (get_or 0 (Points w) round) issuance.

(** The world without what the payment of the round uses up. *)
Definition used_up (round : RoundIndex) w : World Cur :=
  let issuance := compute_issuance w (get_or 0 (Staked w) round) in
  set_AtStake (taken round (get_or 0 (Points w) round) issuance
      (awarded_in round (AwardedPts w)) (AtStake w))
    (set_AwardedPts (filter (λ kv : Z * Z * Z, kv.1.1 ≠ round) (AwardedPts w)) w).

(** One reward after the other: an account that does not exist gets none. *)
Definition reward w (r : AccountId * Balance) : World Cur :=
  if r.2 >? minimum_balance then
    match deposit_into_existing (currency w) r.1 r.2 with
    | inl (c, imb) =>
        set_currency (drop_positive_imbalance c imb)
          (set_events (events w ++ [Rewarded r.1 imb]) w)
    | inr _ => w
    end
  else w.
Definition pay_rewards (l : Rewards) w : World Cur := foldl reward w l.

(** ** The code pays the list *)

Lemma mint_reward amt to w : mint amt to w = Done tt (reward w (to, amt)).
Proof.
  unfold mint, reward, when. cbn [fst snd]. destruct (amt >? minimum_balance); [|done].
  destruct (deposit_into_existing (currency w) to amt) as [[c imb]|?]; [|done]. by destruct w.
Qed.

Lemma reward_AtStake w r m : reward (set_AtStake m w) r = set_AtStake m (reward w r).
Proof.
  unfold reward. destruct (r.2 >? minimum_balance); [|done]. wsimpl.
  by destruct (deposit_into_existing (currency w) r.1 r.2) as [[? ?]|?].
Qed.

Lemma reward_keeps_AtStake w r : AtStake (reward w r) = AtStake w.
Proof.
  unfold reward. destruct (r.2 >? minimum_balance); [|done].
  by destruct (deposit_into_existing (currency w) r.1 r.2) as [[? ?]|?].
Qed.

Lemma pay_rewards_AtStake l w m : pay_rewards l (set_AtStake m w) = set_AtStake m (pay_rewards l w).
Proof.
  revert w. induction l as [|r l IH]; intros w; [done|].
  cbn [pay_rewards foldl]. rewrite reward_AtStake. apply IH.
Qed.

Lemma pay_rewards_keeps_AtStake l w : AtStake (pay_rewards l w) = AtStake w.
Proof.
  revert w. induction l as [|r l IH]; intros w; [done|].
  cbn [pay_rewards foldl]. fold (pay_rewards l (reward w r)). by rewrite IH, reward_keeps_AtStake.
Qed.

Lemma pay_rewards_app l l' w : pay_rewards (l ++ l') w = pay_rewards l' (pay_rewards l w).
Proof. apply foldl_app. Qed.

(** Paying the nominators. *)
Lemma mint_each {A} (f : A → AccountId * Balance) l w :
  for_each l (λ x, mint (f x).2 (f x).1) w = Done tt (pay_rewards (f <$> l) w).
Proof.
  revert w. induction l as [|x l IH]; intros w; [done|].
  cbn [for_each]. unfold mbind, Prog_bind. by rewrite mint_reward, IH, <-surjective_pairing.
Qed.

(** Neither the commission nor what it leaves wraps around. *)
Lemma commission_exact s amt :
  snapshot_ok s → 0 <= amt < U128 →
  let commission := perbill_mul (ValidatorSnapshot.fee s) amt in
  let kept := if commission >? minimum_balance then commission else 0 in
  let pct := from_rational_approximation (ValidatorSnapshot.bond s) (ValidatorSnapshot.total s) in
  (if commission >? minimum_balance
   then let amt_due := amt ⊖ commission in (amt_due, perbill_mul pct amt_due ⊕ commission)
   else (amt, perbill_mul pct amt)) =
  (amt - kept, perbill_mul pct (amt - kept) + kept).
Proof using PL.
  intros (Hfee & Hbond & Htot & _) Hamt commission kept pct. unfold kept.
  pose proof (perbill_mul_range _ amt Hfee ltac:(lia)) as Hcom. fold commission in Hcom.
  destruct (commission >? minimum_balance); [|by rewrite Z.sub_0_r, Z.add_0_r].
  rewrite (u128_small (amt - commission)) by lia. cbv zeta.
  pose proof (perbill_mul_range pct (amt - commission)
    ltac:(apply from_rational_range; [apply Hbond|apply Htot]) ltac:(lia)).
  by rewrite u128_small by lia.
Qed.

Lemma pay_validator_rewards round total issuance val pts w :
  0 <= total → 0 <= pts → is_u128 issuance →
  snapshot_ok (get_or ValidatorSnapshot.default (AtStake w) (round, val)) →
  pay_validator round total issuance val pts w =
    Done tt (pay_rewards (author_rewards (AtStake w) round total issuance (val, pts))
      (set_AtStake (taken round total issuance [(val, pts)] (AtStake w)) w)).
Proof using PL.
  intros Ht Hp Hi Hs. pose proof (due_range total issuance pts Ht Hp ltac:(apply Hi)) as Hdue.
  unfold pay_validator, author_rewards, taken, part, due in *. cbn [foldl fst snd]. cbv zeta.
  set (amt := perbill_mul (from_rational_approximation pts total) issuance) in *.
  destruct (amt <=? minimum_balance); [by destruct w|].
  unfold AtStake_take, mbind, Prog_bind, gets, modify, mret, Prog_ret. unfold split_share.
  set (s := get_or _ _ _) in *. set (w0 := set_AtStake _ w).
  destruct (ValidatorSnapshot.nominators s) as [|b l] eqn:En; [by rewrite mint_reward|].
  pose proof (commission_exact s amt Hs ltac:(unfold is_u128 in Hi; lia)) as E.
  cbv zeta in E. rewrite E. rewrite mint_reward. cbn [pay_rewards foldl].
  exact (mint_each (λ b, (owner b, part (amount b) (ValidatorSnapshot.total s) _)) (b :: l) _).
Qed.

Lemma taken_cons round total issuance award l m :
  taken round total issuance (award :: l) m =
    taken round total issuance l (taken round total issuance [award] m).
Proof. done. Qed.

Lemma taken_other round total issuance l m v :
  v ∉ l.*1 → taken round total issuance l m !! (round, v) = m !! (round, v).
Proof.
  revert m. induction l as [|[a p] l IH]; intros m; [done|].
  cbn [fmap list_fmap fst]. rewrite not_elem_of_cons. intros [Hne Hv].
  rewrite taken_cons, IH by done. cbn [taken foldl fst snd].
  case_match; [done|]. by rewrite lookup_delete_ne by congruence.
Qed.

(** The loop over the authors. *)
Lemma pay_validators_rewards round total issuance l w :
  0 <= total → is_u128 issuance → NoDup l.*1 → Forall (λ award, 0 <= award.2) l →
  map_Forall (λ _, snapshot_ok) (AtStake w) →
  for_each l (λ '(val, pts), pay_validator round total issuance val pts) w =
    Done tt (pay_rewards (l ≫= author_rewards (AtStake w) round total issuance)
      (set_AtStake (taken round total issuance l (AtStake w)) w)).
Proof using PL.
  intros Ht Hi. revert w. induction l as [|[v p] l IH]; intros w Hnd Hpts Hs; [by destruct w|].
  cbn [fmap list_fmap fst] in Hnd. apply NoDup_cons in Hnd as [Hv Hnd].
  apply Forall_cons in Hpts as [Hp Hpts]. cbn [for_each]. unfold mbind at 1, Prog_bind at 1.
  rewrite pay_validator_rewards by (done || by apply get_snapshot_ok).
  set (w1 := pay_rewards _ _).
  assert (AtStake w1 = taken round total issuance [(v, p)] (AtStake w)) as Hw1
    by (unfold w1; by rewrite pay_rewards_keeps_AtStake).
  rewrite IH; [|done|done|]; cycle 1.
  { rewrite Hw1. cbn [taken foldl]. case_match; [done|]. by apply map_Forall_delete. }
  rewrite bind_cons, pay_rewards_app, (taken_cons _ _ _ (v, p) l), <-Hw1.
  set (m := taken round total issuance l (AtStake w1)).
  assert (set_AtStake m w1 = pay_rewards (author_rewards (AtStake w) round total issuance (v, p))
    (set_AtStake m w)) as <- by (unfold w1; by rewrite <-pay_rewards_AtStake).
  do 2 f_equal. apply Forall_bind_ext, Forall_forall.
  intros [a q] Ha. unfold author_rewards. cbn [fst snd].
  rewrite Hw1. cbn [taken foldl fst snd]. case_match; [done|]. case_match; [done|].
  unfold get_or. rewrite lookup_delete_ne; [done|]. intros [= <-].
  by apply Hv, (list_elem_of_fmap_2 fst l (v, q)).
Qed.

Lemma awarded_in_NoDup (round : RoundIndex) (m : gmap (Z * Z) Z) : NoDup (awarded_in round m).*1.
Proof using IL.
  unfold awarded_in. rewrite iteration_order_perm.
  pose proof (NoDup_fst_map_to_list m) as Hnd. revert Hnd.
  induction (map_to_list m) as [|[[r a] p] l IH]; [constructor|].
  cbn [fmap list_fmap fst omap list_omap]. intros [Ha Hnd]%NoDup_cons.
  destruct (Z.eqb_spec r round) as [->|_]; [|by apply IH].
  cbn [fmap list_fmap fst]. apply NoDup_cons. split; [|by apply IH].
  intros ([b q] & Hb & Hin)%list_elem_of_fmap. cbn in Hb. subst b. apply Ha.
  apply list_elem_of_omap in Hin as ([[r' b] q'] & Hin & Heq).
  destruct (Z.eqb_spec r' round) as [->|]; [|done]. injection Heq as -> ->.
  apply list_elem_of_fmap. by exists ((round, a), q).
Qed.

(** [pay_stakers] pays the list of rewards. *)
Lemma pay_stakers_rewards next w :
  let round := next ⊟ BondDuration in
  cur_valid (currency w) → map_Forall (λ _, snapshot_ok) (AtStake w) →
  rates_ok (InflationInfo.round (InflationConfig w)) →
  map_Forall (λ _ p, 0 <= p) (Points w) → map_Forall (λ _ p, 0 <= p) (AwardedPts w) →
  pay_stakers next w =
    Done tt (if next >? BondDuration
             then pay_rewards (round_rewards round w) (used_up round w) else w).
Proof using CL PL IL.
  intros round Hc Hs Hr HP HW. unfold pay_stakers, when. fold round. cbv zeta.
  destruct (next >? BondDuration); [|done].
  pose proof (compute_issuance_range w (get_or 0 (Staked w) round) Hc Hr) as Hi.
  pose proof (issuance_range _ Hc).
  unfold AwardedPts_drain_prefix, round_rewards, used_up, mbind, Prog_bind, gets, modify, mret,
    Prog_ret. cbv zeta.
  rewrite pay_validators_rewards; [done| | |apply awarded_in_NoDup| |exact Hs].
  - unfold get_or. destruct (Points w !! round) eqn:E; [by apply (HP _ _ E)|done].
  - split; lia.
  - apply Forall_forall. intros [v p] Hin. apply awarded_in_points in Hin. exact (HW _ _ Hin).
Qed.

(** ** Who is on the list *)

Lemma part_range p q x : 0 <= p → 0 <= q → 0 <= x → 0 <= part p q x <= x.
Proof using PL. intros. by apply (due_range q x p). Qed.

(** A share is split between its author and who is exposed with the author, in parts of at
    most the share. *)
Lemma split_share_members s val amt a x :
  snapshot_ok s → 0 <= amt → (a, x) ∈ split_share s val amt →
  0 <= x <= amt ∧ (a = val ∨ a ∈ owner <$> ValidatorSnapshot.nominators s).
Proof using PL.
  intros (Hfee & Hbond & Htot & Hn) Hamt. unfold split_share.
  destruct (ValidatorSnapshot.nominators s) as [|b l] eqn:En.
  { intros [= -> ->]%list_elem_of_singleton. split; [lia|by left]. }
  rewrite <-En in *. clear En b l. cbv zeta.
  pose proof (perbill_mul_range _ amt Hfee Hamt) as Hcom.
  set (kept := if perbill_mul (ValidatorSnapshot.fee s) amt >? minimum_balance then _ else 0).
  assert (0 <= kept <= amt) as Hkept by (unfold kept; case_match; lia). clearbody kept.
  intros [[= -> ->]|Hin]%elem_of_cons.
  - pose proof (part_range (ValidatorSnapshot.bond s) (ValidatorSnapshot.total s) (amt - kept)
      ltac:(apply Hbond) ltac:(apply Htot) ltac:(lia)). split; [lia|by left].
  - apply list_elem_of_fmap in Hin as (b & [= -> ->] & Hb).
    rewrite Forall_forall in Hn. specialize (Hn b Hb).
    pose proof (part_range (amount b) (ValidatorSnapshot.total s) (amt - kept)
      ltac:(apply Hn) ltac:(apply Htot) ltac:(lia)).
    split; [lia|]. right. by apply list_elem_of_fmap_2.
Qed.

(** The rewards of a round go to its authors and to who was exposed with them. *)
Lemma round_rewards_members round w a x :
  cur_valid (currency w) → map_Forall (λ _, snapshot_ok) (AtStake w) →
  rates_ok (InflationInfo.round (InflationConfig w)) →
  map_Forall (λ _ p, 0 <= p) (Points w) → map_Forall (λ _ p, 0 <= p) (AwardedPts w) →
  (a, x) ∈ round_rewards round w →
  0 <= x <= compute_issuance w (get_or 0 (Staked w) round) ∧
  ∃ v, is_Some (AwardedPts w !! (round, v)) ∧
    (a = v ∨ a ∈ owner <$> ValidatorSnapshot.nominators
                 (get_or ValidatorSnapshot.default (AtStake w) (round, v))).
Proof using CL PL IL.
  intros Hc Hs Hr HP HW. unfold round_rewards. rewrite list_elem_of_bind.
  intros ([v p] & Hin & Hv). unfold author_rewards in Hin. cbn [fst snd] in Hin.
  apply awarded_in_points in Hv.
  pose proof (compute_issuance_range w (get_or 0 (Staked w) round) Hc Hr) as Hi.
  set (issuance := compute_issuance _ _) in *. set (total := get_or 0 (Points w) round) in *.
  assert (0 <= total) as Ht.
  { unfold total, get_or. destruct (Points w !! round) eqn:E; [by apply (HP _ _ E)|done]. }
  pose proof (part_range p total issuance (HW _ _ Hv) Ht ltac:(lia)) as Hp.
  case_match; [by apply elem_of_nil in Hin|].
  apply split_share_members in Hin as [Hx Ha]; [|by apply get_snapshot_ok|lia].
  split; [lia|]. exists v. split; [by eexists|done].
Qed.
End rewards.
