(* ===== verification/Spec.v ===== *)
(** * What the stake pallet promises

    An abstract machine for the pallet: who is a candidate with which bond, and who has
    staked what with whom. It has no pool, no exit queue, no lists of nominators, no totals
    and no events; those of the pallet are redundant, and [Refinement.v] shows that the
    pallet implements the machine, errors included. [step] is the machine's function of a
    call, with the checks in the order in which the pallet makes them; [end_of_round] is
    the registry's part of a round change. *)

From S2P Require Import Prelude OrderedSet Frame StakeTypes Inflation Stake Books.

(** Errors as values. *)
Definition Result (A : Type) : Type := DispatchError Error + A.
#[export] Instance Result_ret : MRet Result := λ _, inr.
#[export] Instance Result_bind : MBind Result := λ A B k m,
  match m with inl e => inl e | inr a => k a end.

Definition require (b : bool) (e : Error) : Result unit :=
  if b then inr tt else inl (Module_ e).
Definition get {A} (o : option A) (e : Error) : Result A :=
  match o with Some a => inr a | None => inl (Module_ e) end.
Definition absent {A} (o : option A) : bool :=
  match o with Some _ => false | None => true end.

Lemma bind_inr {A B} (m : Result A) (k : A → Result B) b :
  m ≫= k = inr b → ∃ a, m = inr a ∧ k a = inr b.
Proof. destruct m as [e|a]; [done|]. intros H. by exists a. Qed.

Lemma require_inr b e u : require b e = inr u → b = true.
Proof. by destruct b. Qed.

Lemma get_inr {A} (o : option A) e a : get o e = inr a → o = Some a.
Proof. destruct o; [by intros [= ->]|done]. Qed.

Lemma absent_None {A} (o : option A) : absent o = true → o = None.
Proof. by destruct o. Qed.

(** Take a successful run apart. *)
Ltac run_inv :=
  repeat match goal with
  | H : mbind _ _ = inr _ |- _ => apply bind_inr in H as (? & ? & ?)
  | H : require _ _ = inr _ |- _ => apply require_inr in H
  | H : get _ _ = inr _ |- _ => apply get_inr in H
  | H : absent _ = true |- _ => apply absent_None in H
  | H : mret _ = inr _ |- _ => injection H as <-
  end.

Module Spec.

(** A candidate: its own bond, its fee and its status. *)
Record Candidate := Cand { bond : Balance; fee : Perbill; status : ValidatorStatus }.

Definition active (c : Candidate) : bool :=
  match status c with Active => true | _ => false end.
Definition leaving (c : Candidate) : bool :=
  match status c with Leaving _ => true | _ => false end.
Definition with_status (s : ValidatorStatus) (c : Candidate) : Candidate :=
  Cand (bond c) (fee c) s.
Definition with_bond (b : Balance) (c : Candidate) : Candidate :=
  Cand b (fee c) (status c).

(** [stakes !! a !! v] is what [a] has nominated [v] with. *)
Record t := Build {
  now : RoundIndex;
  inflation : InflationInfo.t;
  own : gmap Z Candidate;
  stakes : gmap Z (gmap Z Balance);
}.

Definition put_own (v : AccountId) (c : Candidate) (s : t) : t :=
  Build (now s) (inflation s) (<[v:=c]> (own s)) (stakes s).
Definition put_stakes (a : AccountId) (m : gmap Z Balance) (s : t) : t :=
  Build (now s) (inflation s) (own s) (<[a:=m]> (stakes s)).
Definition drop_stakes (a : AccountId) (s : t) : t :=
  Build (now s) (inflation s) (own s) (delete a (stakes s)).
Definition put_inflation (i : InflationInfo.t) (s : t) : t :=
  Build (now s) i (own s) (stakes s).

(** Who backs the candidate [v], with how much. *)
Definition backers (s : t) (v : AccountId) : gmap Z Balance :=
  omap (.!! v) (stakes s).
(** The whole stake behind a candidate. *)
Definition total (s : t) (v : AccountId) : Balance :=
  match own s !! v with Some c => bond c | None => 0 end + map_sum (backers s v).
(** What an account has at stake itself. *)
Definition at_stake (s : t) (a : AccountId) : Balance :=
  match own s !! a with Some c => bond c | None => 0 end +
  map_sum (default ∅ (stakes s !! a)).

Section machine.
Context {Origin : Type}.
Context `{FO : FrameOrigin Origin, MO : MonetaryPolicyOrigin Origin}.
Context `{PO : PerbillOps, SC : StakeConfig}.

Definition caller (origin : Origin) : Result AccountId :=
  match ensure_signed origin with Some a => inr a | None => inl BadOrigin end.
Definition governed (origin : Origin) : Result unit :=
  if SetMonetaryPolicyOrigin origin then inr tt else inl BadOrigin.
(** The number of entries of a map, in the 32 bits the pallet counts with. *)
Definition count {V} (m : gmap Z V) : Z := u32 (Z.of_nat (size m)).

(** The rates of one of the [BLOCKS_PER_YEAR / BlocksPerRound] rounds of a year. *)
Definition per_round (annual : Range.t) : Range.t :=
  let share x := from_parts (x / (BLOCKS_PER_YEAR / BlocksPerRound)) in
  {| Range.min := share (Range.min annual); Range.ideal := share (Range.ideal annual);
     Range.max := share (Range.max annual) |}.

(** Candidates *)

Definition join_candidates (a : AccountId) (fee : Perbill) (bond : Balance) (s : t) : Result t :=
  require (absent (own s !! a)) CandidateExists;;
  require (absent (stakes s !! a)) NominatorExists;;
  require (fee <=? MaxFee) FeeOverMax;;
  require (bond >=? MinValidatorStk) ValBondBelowMin;;
  mret (put_own a (Cand bond fee Active) s).

Definition leave_candidates (a : AccountId) (s : t) : Result t :=
  c ← get (own s !! a) CandidateDNE;
  require (negb (leaving c)) AlreadyLeaving;;
  mret (put_own a (with_status (Leaving (now s ⊞ BondDuration)) c) s).

Definition go_offline (a : AccountId) (s : t) : Result t :=
  c ← get (own s !! a) CandidateDNE;
  require (active c) AlreadyOffline;;
  mret (put_own a (with_status Idle c) s).

Definition go_online (a : AccountId) (s : t) : Result t :=
  c ← get (own s !! a) CandidateDNE;
  require (negb (active c)) AlreadyActive;;
  require (negb (leaving c)) CannotActivateIfLeaving;;
  mret (put_own a (with_status Active c) s).

Definition candidate_bond_more (a : AccountId) (more : Balance) (s : t) : Result t :=
  c ← get (own s !! a) CandidateDNE;
  require (negb (leaving c)) CannotActivateIfLeaving;;
  mret (put_own a (with_bond (bond c + more) c) s).

Definition candidate_bond_less (a : AccountId) (less : Balance) (s : t) : Result t :=
  c ← get (own s !! a) CandidateDNE;
  require (negb (leaving c)) CannotActivateIfLeaving;;
  require (bond c >? less) Underflow;;
  require (bond c - less >=? MinValidatorStk) ValBondBelowMin;;
  mret (put_own a (with_bond (bond c - less) c) s).

(** Nominators *)

Definition join_nominators (a v : AccountId) (x : Balance) (s : t) : Result t :=
  require (x >=? MinNominatorStk) NomBondBelowMin;;
  require (absent (stakes s !! a)) NominatorExists;;
  require (absent (own s !! a)) CandidateExists;;
  _ ← get (own s !! v) CandidateDNE;
  require (count (<[a:=x]> (backers s v)) <=? MaxNominatorsPerValidator) TooManyNominators;;
  mret (put_stakes a {[v:=x]} s).

Definition leave_nominators (a : AccountId) (s : t) : Result t :=
  _ ← get (stakes s !! a) NominatorDNE;
  mret (drop_stakes a s).

Definition nominate_new (a v : AccountId) (x : Balance) (s : t) : Result t :=
  require (x >=? MinNomination) NominationBelowMin;;
  m ← get (stakes s !! a) NominatorDNE;
  require (count m <? MaxValidatorsPerNominator) ExceedMaxValidatorsPerNom;;
  _ ← get (own s !! v) CandidateDNE;
  require (absent (m !! v)) AlreadyNominatedValidator;;
  require (count (backers s v) <? MaxNominatorsPerValidator) TooManyNominators;;
  mret (put_stakes a (<[v:=x]> m) s).

(** The nomination moves; when [new] is nominated already, the amounts are added. *)
Definition switch_nomination (a old new : AccountId) (s : t) : Result t :=
  require (negb (old =? new)) CannotSwitchToSameNomination;;
  m ← get (stakes s !! a) NominatorDNE;
  _ ← get (own s !! old) CandidateDNE;
  _ ← get (own s !! new) CandidateDNE;
  x ← get (m !! old) NominationDNE;
  mret (put_stakes a (<[new:=x + default 0 (m !! new)]> (delete old m)) s).

Definition revoke_nomination (a v : AccountId) (s : t) : Result t :=
  m ← get (stakes s !! a) NominatorDNE;
  x ← get (m !! v) NominationDNE;
  require (map_sum m - x >=? MinNominatorStk) NomBondBelowMin;;
  mret (put_stakes a (delete v m) s).

Definition nominator_bond_more (a v : AccountId) (more : Balance) (s : t) : Result t :=
  m ← get (stakes s !! a) NominatorDNE;
  _ ← get (own s !! v) CandidateDNE;
  x ← get (m !! v) NominationDNE;
  mret (put_stakes a (<[v:=x + more]> m) s).

Definition nominator_bond_less (a v : AccountId) (less : Balance) (s : t) : Result t :=
  m ← get (stakes s !! a) NominatorDNE;
  _ ← get (own s !! v) CandidateDNE;
  x ← get (m !! v) NominationDNE;
  require (x >? less) Underflow;;
  require (x - less >=? MinNomination) NominationBelowMin;;
  require (map_sum m - less >=? MinNominatorStk) NomBondBelowMin;;
  mret (put_stakes a (<[v:=x - less]> m) s).

Definition step (origin : Origin) (call : Call) (s : t) : Result t :=
  match call with
  | Call_set_staking_expectations e =>
      governed origin;;
      require (Range.is_valid e) InvalidSchedule;;
      mret (put_inflation
        {| InflationInfo.expect := e; InflationInfo.round := InflationInfo.round (inflation s) |} s)
  | Call_set_inflation annual =>
      governed origin;;
      require (Range.is_valid annual) InvalidSchedule;;
      mret (put_inflation
        {| InflationInfo.expect := InflationInfo.expect (inflation s);
           InflationInfo.round := per_round annual |} s)
  | Call_join_candidates fee bond => a ← caller origin; join_candidates a fee bond s
  | Call_leave_candidates => a ← caller origin; leave_candidates a s
  | Call_go_offline => a ← caller origin; go_offline a s
  | Call_go_online => a ← caller origin; go_online a s
  | Call_candidate_bond_more more => a ← caller origin; candidate_bond_more a more s
  | Call_candidate_bond_less less => a ← caller origin; candidate_bond_less a less s
  | Call_join_nominators v x => a ← caller origin; join_nominators a v x s
  | Call_leave_nominators => a ← caller origin; leave_nominators a s
  | Call_nominate_new v x => a ← caller origin; nominate_new a v x s
  | Call_switch_nomination old new => a ← caller origin; switch_nomination a old new s
  | Call_revoke_nomination v => a ← caller origin; revoke_nomination a v s
  | Call_nominator_bond_more v more => a ← caller origin; nominator_bond_more a v more s
  | Call_nominator_bond_less v less => a ← caller origin; nominator_bond_less a v less s
  end.

(** The end of a round *)

Definition due (next : RoundIndex) (c : Candidate) : bool :=
  match status c with Leaving r => r <=? next | _ => false end.

(** The nominations with an account that leaves end; who has none left is no nominator. *)
Definition unstake (v : AccountId) (m : gmap Z Balance) : option (gmap Z Balance) :=
  match m !! v with
  | Some _ => if decide (delete v m = ∅) then None else Some (delete v m)
  | None => Some m
  end.
Definition remove_candidate (v : AccountId) (s : t) : t :=
  Build (now s) (inflation s) (delete v (own s)) (omap (unstake v) (stakes s)).

(** The accounts that are due, and the world without them. *)
Definition due_accounts (s : t) : list AccountId :=
  elements (C := gset Z)
    (dom (filter (λ kv : AccountId * Candidate, due (now s ⊞ 1) kv.2 = true) (own s))).
Definition end_of_round (s : t) : t :=
  let s' := foldr remove_candidate s (due_accounts s) in
  Build (now s ⊞ 1) (inflation s') (own s') (stakes s').

(** The amounts of a call are not negative: they are unsigned integers. *)
Definition unsigned (call : Call) : Prop :=
  match call with
  | Call_join_candidates _ x | Call_candidate_bond_more x | Call_candidate_bond_less x
  | Call_join_nominators _ x | Call_nominate_new _ x | Call_nominator_bond_more _ x
  | Call_nominator_bond_less _ x => 0 <= x
  | _ => True
  end.

(** What the machine does over time. *)
Inductive moves (s : t) : t → Prop :=
| moves_call origin call s' : unsigned call → step origin call s = inr s' → moves s s'
| moves_round : moves s (end_of_round s).

Definition initial (config : InflationInfo.t) : t := Build 0 config ∅ ∅.
End machine.
End Spec.
