(* ===== verification/Refinement.v ===== *)
(** * The pallet implements the machine of [Spec.v]

    [abs] forgets what is redundant in the storage. In a sound world every call of the
    pallet does what the machine does, fails with the same error, and moves exactly the
    machine's change of stake between the free and the reserved balance. *)

From S2P Require Import Prelude OrderedSet Frame StakeTypes BondMap Inflation Stake.
From S2P Require Import StakeLogic Registry Books Solvency Spec.

Section refinement.
Context {Origin Cur : Type}.
Context `{FO : FrameOrigin Origin, MO : MonetaryPolicyOrigin Origin, CU : Currency Cur}.
Context {CL : CurrencyLaws Cur}.
Context `{PO : PerbillOps, US : UnstableSort, IO : IterationOrder, SC : StakeConfig}.
Context {SL : UnstableSortLaws} {CF : StakeConfigLaws}.
Implicit Types (w : World Cur) (origin : Origin).

Definition abs_candidate (c : Validator.t) : Spec.Candidate :=
  Spec.Cand (Validator.bond c) (Validator.fee c) (Validator.state c).
Definition abs_stakes (n : Nominator.t) : gmap Z Balance := bond_map (Nominator.nominations n).

Definition abs (w : World Cur) : Spec.t :=
  Spec.Build (Round w) (InflationConfig w) (abs_candidate <$> Candidates w)
    (abs_stakes <$> Nominators w).

(** The balances follow the stake: what is staked more is reserved, what is staked less
    is released. *)
Definition moved w w' : Prop := ∀ b,
  let d := Spec.at_stake (abs w') b - Spec.at_stake (abs w) b in
  reserved_balance (currency w') b = reserved_balance (currency w) b + d ∧
  free_balance (currency w') b = free_balance (currency w) b - d.

Definition refined origin (call : Call) w
    (o : Outcome (World Cur) (DispatchError Error) unit) : Prop :=
  match o with
  | Done _ w' => Spec.step origin call (abs w) = inr (abs w') ∧ moved w w'
  | Failed e _ =>
      Spec.step origin call (abs w) = inl e ∨
      ∃ a s' r, ensure_signed origin = Some a ∧ Spec.step origin call (abs w) = inr s' ∧
        reserve (currency w) a (Spec.at_stake s' a - Spec.at_stake (abs w) a) = inr r ∧
        e = External r
  | Panicked => False
  end.

(** ** What the machine sees *)

Lemma own_abs w a : Spec.own (abs w) !! a = abs_candidate <$> Candidates w !! a.
Proof. apply lookup_fmap. Qed.

Lemma stakes_abs w a : Spec.stakes (abs w) !! a = abs_stakes <$> Nominators w !! a.
Proof. apply lookup_fmap. Qed.

Lemma absent_own w a : absent (Spec.own (abs w) !! a) = negb (is_candidate w a).
Proof. rewrite own_abs. unfold is_candidate. by destruct (Candidates w !! a). Qed.

Lemma absent_stakes w a : absent (Spec.stakes (abs w) !! a) = negb (is_nominator w a).
Proof. rewrite stakes_abs. unfold is_nominator. by destruct (Nominators w !! a). Qed.

Lemma active_abs c : Spec.active (abs_candidate c) = Validator.is_active c.
Proof. done. Qed.

Lemma leaving_abs c : Spec.leaving (abs_candidate c) = Validator.is_leaving c.
Proof. done. Qed.

Lemma bond_abs c : Spec.bond (abs_candidate c) = Validator.bond c.
Proof. done. Qed.

Lemma backers_abs w v c :
  solvent w → Candidates w !! v = Some c →
  Spec.backers (abs w) v = bond_map (Validator.nominators c).
Proof.
  intros [_ Hb] Hv. apply map_eq. intros a. unfold Spec.backers.
  rewrite lookup_omap, stakes_abs. pose proof (bilateral _ _ _ Hb a v) as H.
  unfold nomination, backing in H. rewrite Hv in H. cbn in H. rewrite <-H.
  by destruct (Nominators w !! a).
Qed.

Lemma total_abs w v c :
  solvent w → Candidates w !! v = Some c → Spec.total (abs w) v = Validator.total c.
Proof.
  intros Hs Hv. unfold Spec.total. rewrite (backers_abs w v c Hs Hv), own_abs, Hv. cbn.
  destruct Hs as [_ Hb]. by rewrite (cand_total _ _ _ Hb v c Hv).
Qed.

Lemma at_stake_abs w a :
  solvent w → Spec.at_stake (abs w) a = staked (Candidates w) (Nominators w) a.
Proof.
  intros [_ Hb]. unfold Spec.at_stake, staked, own_bond, nominated.
  rewrite own_abs, stakes_abs.
  destruct (Nominators w !! a) as [n|] eqn:E; cbn;
    [rewrite (nom_total _ _ _ Hb a n E)|rewrite map_sum_empty];
    by destruct (Candidates w !! a).
Qed.

Lemma count_bonds l : sorted l → Spec.count (bond_map l) = u32 (Z.of_nat (length l)).
Proof. intros H. unfold Spec.count. by rewrite bond_map_size. Qed.

(** ** Writes of the machine *)

Lemma abs_put_own w w' v c :
  Candidates w' = <[v:=c]> (Candidates w) → Nominators w' = Nominators w →
  Round w' = Round w → InflationConfig w' = InflationConfig w →
  abs w' = Spec.put_own v (abs_candidate c) (abs w).
Proof.
  intros HC HN HR HI. unfold abs, Spec.put_own. rewrite HC, HN, HR, HI. by rewrite fmap_insert.
Qed.

(** A candidate is written whose own part stays. *)
Lemma own_kept (cands : gmap Z Validator.t) v c c' :
  cands !! v = Some c → abs_candidate c' = abs_candidate c →
  abs_candidate <$> <[v:=c']> cands = abs_candidate <$> cands.
Proof. intros Hv E. rewrite fmap_insert, E, <-fmap_insert. by rewrite insert_id. Qed.

Lemma abs_put_stakes w w' a n :
  abs_candidate <$> Candidates w' = abs_candidate <$> Candidates w →
  Nominators w' = <[a:=n]> (Nominators w) →
  Round w' = Round w → InflationConfig w' = InflationConfig w →
  abs w' = Spec.put_stakes a (abs_stakes n) (abs w).
Proof.
  intros HC HN HR HI. unfold abs, Spec.put_stakes. rewrite HC, HN, HR, HI.
  by rewrite fmap_insert.
Qed.

Lemma at_stake_put_own s v c b :
  Spec.at_stake (Spec.put_own v c s) b - Spec.at_stake s b =
    if decide (b = v)
    then Spec.bond c - match Spec.own s !! v with Some c => Spec.bond c | None => 0 end
    else 0.
Proof.
  unfold Spec.at_stake, Spec.put_own. cbn [Spec.own Spec.stakes]. rewrite lookup_insert.
  destruct (decide (b = v)) as [->|Hn]; [rewrite decide_True by done; lia|].
  rewrite decide_False by done. lia.
Qed.

Lemma at_stake_put_stakes s a m b :
  Spec.at_stake (Spec.put_stakes a m s) b - Spec.at_stake s b =
    if decide (b = a) then map_sum m - map_sum (default ∅ (Spec.stakes s !! a)) else 0.
Proof.
  unfold Spec.at_stake, Spec.put_stakes. cbn [Spec.own Spec.stakes]. rewrite lookup_insert.
  destruct (decide (b = a)) as [->|Hn]; [rewrite decide_True by done; cbn; lia|].
  rewrite decide_False by done. lia.
Qed.

(** [x] moves between the free and the reserved balance of [a]. *)
Definition moved_by (c c' : Cur) (a : AccountId) (x : Balance) : Prop := ∀ b,
  reserved_balance c' b = reserved_balance c b + (if decide (b = a) then x else 0) ∧
  free_balance c' b = free_balance c b - (if decide (b = a) then x else 0).

Lemma reserve_moves c a x c' :
  cur_valid c → 0 <= x → reserve c a x = inl c' → moved_by c c' a x.
Proof using CL. intros Hc Hx Hr b. split; [by apply reserve_reserved|by apply reserve_free]. Qed.

Lemma unreserve_moves c a x :
  cur_valid c → 0 <= x <= reserved_balance c a → moved_by c (unreserve c a x).1 a (- x).
Proof using CL.
  intros Hc Hx b. rewrite unreserve_reserved, unreserve_free by (done || lia).
  rewrite Z.min_l by lia. case_decide; lia.
Qed.

Lemma moves_trans c1 c2 c3 a x y :
  moved_by c1 c2 a x → moved_by c2 c3 a y → moved_by c1 c3 a (x + y).
Proof.
  intros H1 H2 b. destruct (H1 b) as [E1 F1], (H2 b) as [-> ->]. rewrite E1, F1.
  case_decide; lia.
Qed.

Lemma nothing_moves c a : moved_by c c a 0.
Proof. intros b. case_decide; lia. Qed.

(** A call that writes one candidate, or the nominations of one account. *)
Lemma own_refined origin call w w' a c x :
  Candidates w' = <[a:=c]> (Candidates w) → Nominators w' = Nominators w →
  Round w' = Round w → InflationConfig w' = InflationConfig w →
  moved_by (currency w) (currency w') a x →
  x = Validator.bond c - own_bond (Candidates w) a →
  Spec.step origin call (abs w) = inr (Spec.put_own a (abs_candidate c) (abs w)) →
  refined origin call w (Done tt w').
Proof.
  intros HC HN HR HI Hm Hx Hstep. pose proof (abs_put_own w w' a c HC HN HR HI) as E.
  split; [by rewrite E|]. intros b. cbn zeta. rewrite E, at_stake_put_own, own_abs.
  destruct (Hm b) as [-> ->]. case_decide; [|lia]. rewrite Hx. unfold own_bond. cbn.
  destruct (Candidates w !! a); cbn; lia.
Qed.

Lemma stakes_refined origin call w w' a n m x :
  abs_candidate <$> Candidates w' = abs_candidate <$> Candidates w →
  Nominators w' = <[a:=n]> (Nominators w) →
  Round w' = Round w → InflationConfig w' = InflationConfig w →
  abs_stakes n = m → moved_by (currency w) (currency w') a x →
  x = map_sum m - map_sum (default ∅ (abs_stakes <$> Nominators w !! a)) →
  Spec.step origin call (abs w) = inr (Spec.put_stakes a m (abs w)) →
  refined origin call w (Done tt w').
Proof.
  intros HC HN HR HI <- Hm Hx Hstep. pose proof (abs_put_stakes w w' a n HC HN HR HI) as E.
  split; [by rewrite E|]. intros b. cbn zeta. rewrite E, at_stake_put_stakes, stakes_abs.
  destruct (Hm b) as [-> ->]. by rewrite Hx.
Qed.

(** ** Evaluating the machine

    [spec_eval] runs the machine on what the pallet has checked: every check of the
    machine is rewritten to the pallet's test of the same kind. *)
Ltac spec_eval :=
  cbn [Spec.step]; unfold Spec.caller, Spec.governed,
    Spec.join_candidates, Spec.leave_candidates, Spec.go_offline, Spec.go_online,
    Spec.candidate_bond_more, Spec.candidate_bond_less, Spec.join_nominators,
    Spec.leave_nominators, Spec.nominate_new, Spec.switch_nomination,
    Spec.revoke_nomination, Spec.nominator_bond_more, Spec.nominator_bond_less;
  repeat match goal with
  | _ => progress rewrite ?absent_own, ?absent_stakes, ?own_abs, ?stakes_abs,
           ?active_abs, ?leaving_abs, ?bond_abs
  | H : ?x = _ |- context [?x] => progress (rewrite H; cbn [fmap option_fmap option_map])
  | _ => progress cbn [mbind Result_bind require get absent mret Result_ret negb]
  | _ => progress unfold require, get
  end.

Ltac refused := cbn [refined]; left; spec_eval; done.
(** The currency refuses the change of stake of an account. *)
Ltac refused_by_currency :=
  cbn [refined]; right; eexists _, _, _; split; [eassumption|];
  split; [spec_eval; reflexivity|]; split; [|reflexivity];
  match goal with E : reserve _ _ _ = inr _ |- _ => rewrite <-E end; f_equal; rewrite ?at_stake_put_own, ?at_stake_put_stakes, decide_True by done;
  rewrite ?own_abs, ?stakes_abs.

(** ** Governance *)

Lemma set_staking_expectations_refines origin e w :
  wp (set_staking_expectations origin e) (refined origin (Call_set_staking_expectations e) w) w.
Proof.
  unfold set_staking_expectations. stake_run; try refused.
  split; [by spec_eval|]. split; wsimpl; unfold Spec.at_stake; cbn; lia.
Qed.

Lemma set_inflation_refines origin s w :
  wp (set_inflation origin s) (refined origin (Call_set_inflation s) w) w.
Proof using CF.
  assert (set_annual_rate (InflationConfig w) s = Some
    {| InflationInfo.expect := InflationInfo.expect (InflationConfig w);
       InflationInfo.round := Spec.per_round s |}) as E.
  { unfold set_annual_rate. by rewrite annual_to_round_Some by apply rounds_fit. }
  unfold set_inflation. stake_run; try refused; simplify_eq.
  split; [by spec_eval|]. split; wsimpl; unfold Spec.at_stake; cbn; lia.
Qed.

(** ** Candidates *)

Lemma join_candidates_refines origin fee bond w :
  0 <= bond → pool_inv w → solvent w →
  wp (join_candidates origin fee bond) (refined origin (Call_join_candidates fee bond) w) w.
Proof using CL.
  intros Hbond [Hreg _] [Hc Hb]. unfold join_candidates. stake_run; try refused.
  assert (Candidates w !! a = None) as Hn.
  { unfold is_candidate in *. by destruct (Candidates w !! a). }
  pose proof (insert_bond (CandidatePool w) {| owner := a; amount := bond |}
    (pool_sorted _ _ _ Hreg)) as Hi.
  cbn [owner] in Hi. rewrite (pool_exact _ _ _ Hreg), Hn in Hi. cbn in Hi.
  destruct (OrderedSet.insert _ _) as [i pool]. destruct Hi as (_ & -> & _).
  stake_run; [|refused_by_currency; rewrite Hn; cbn; lia|done].
  apply (own_refined _ _ _ _ a (Validator.new a fee bond) bond); try done.
  - by apply reserve_moves.
  - unfold own_bond. rewrite Hn. cbn. lia.
  - by spec_eval.
Qed.

(** A change of status moves no balance. *)
Lemma status_refined origin call w w' a c st :
  Candidates w !! a = Some c →
  Candidates w' = <[a:=Validator.set_state c st]> (Candidates w) →
  Nominators w' = Nominators w → Round w' = Round w → InflationConfig w' = InflationConfig w →
  currency w' = currency w →
  Spec.step origin call (abs w) =
    inr (Spec.put_own a (Spec.with_status st (abs_candidate c)) (abs w)) →
  refined origin call w (Done tt w').
Proof.
  intros Ha HC HN HR HI Hcur Hstep.
  apply (own_refined _ _ w w' a (Validator.set_state c st) 0); try done.
  - rewrite Hcur. apply nothing_moves.
  - unfold own_bond. rewrite Ha. cbn. lia.
Qed.

Lemma leave_candidates_refines origin w :
  pool_inv w → wp (leave_candidates origin) (refined origin Call_leave_candidates w) w.
Proof.
  intros [Hreg _]. unfold leave_candidates. stake_run; try refused. rename a0 into c.
  assert (Candidates w !! a = Some c) as Ha by done.
  pose proof (insert_bond (ExitQueue w) {| owner := a; amount := Round w ⊞ BondDuration |}
    (queue_sorted _ _ _ Hreg)) as Hi.
  cbn [owner] in Hi. rewrite (queue_exact _ _ _ Hreg), Ha in Hi. cbn in Hi.
  assert (exit_entry c = None) as He.
  { unfold exit_entry, Validator.is_leaving in *. by destruct (Validator.state c). }
  rewrite He in Hi. destruct (OrderedSet.insert _ _) as [i queue]. destruct Hi as (_ & -> & _).
  stake_run; [|done]. apply wp_remove_from_pool; [apply Hreg|]. intros pool _ _.
  cbn [bind_post]. stake_run. by eapply (status_refined _ _ _ _ a c); [..|spec_eval].
Qed.

Lemma go_offline_refines origin w :
  pool_inv w → wp (go_offline origin) (refined origin Call_go_offline w) w.
Proof.
  intros [Hreg _]. unfold go_offline. stake_run; try refused. rename a0 into c.
  apply wp_remove_from_pool; [apply Hreg|]. intros pool _ _. cbn [bind_post]. stake_run.
  by eapply (status_refined _ _ _ _ a c); [..|spec_eval].
Qed.

Lemma go_online_refines origin w :
  pool_inv w → wp (go_online origin) (refined origin Call_go_online w) w.
Proof.
  intros [Hreg _]. unfold go_online. stake_run; try refused. rename a0 into c.
  assert (Candidates w !! a = Some c) as Ha by done.
  pose proof (insert_bond (CandidatePool w)
    {| owner := a; amount := Validator.total (Validator.go_online c) |}
    (pool_sorted _ _ _ Hreg)) as Hi.
  cbn [owner] in Hi. rewrite (pool_exact _ _ _ Hreg), Ha in Hi. cbn in Hi.
  assert (pool_entry c = None) as He.
  { unfold pool_entry. by destruct (Validator.is_active c). }
  rewrite He in Hi. destruct (OrderedSet.insert _ _) as [i pool]. destruct Hi as (_ & -> & _).
  stake_run; [|done]. by eapply (status_refined _ _ _ _ a c); [..|spec_eval].
Qed.

Lemma candidate_bond_more_refines origin more w :
  0 <= more → pool_inv w → solvent w →
  wp (candidate_bond_more origin more) (refined origin (Call_candidate_bond_more more) w) w.
Proof using CL.
  intros Hm [Hreg _] [Hc Hb]. unfold candidate_bond_more. stake_run; try refused.
  all: rename a0 into cand; assert (Candidates w !! a = Some cand) as Ha by done.
  2: { refused_by_currency. rewrite Ha. cbn. lia. }
  rename c into cur', cand into c.
  pose proof (reserve_covers (currency w) a more cur' _ _ Hc Hm ltac:(done) Hb) as Hcov.
  assert (cur_valid cur') as Hc' by by eapply reserve_valid.
  destruct (staked_bound cur' a _ _ _ more Hb Hc' Hm) as [Hbond _].
  { specialize (Hcov a). by rewrite decide_True in Hcov. }
  unfold own_bond in Hbond. rewrite Ha in Hbond. skip_update Hreg.
  apply (own_refined _ _ _ _ a (Validator.bond_more c more) more); try done.
  - by apply reserve_moves.
  - unfold own_bond. rewrite Ha. cbn. rewrite u128_small; lia.
  - spec_eval. unfold abs_candidate, Spec.with_bond. cbn. by rewrite u128_small.
Qed.

Lemma candidate_bond_less_refines origin less w :
  0 <= less → pool_inv w → solvent w →
  wp (candidate_bond_less origin less) (refined origin (Call_candidate_bond_less less) w) w.
Proof using CL.
  intros Hl [Hreg _] [Hc Hb]. unfold candidate_bond_less. stake_run; try refused.
  rename a0 into c. assert (Candidates w !! a = Some c) as Ha by done.
  destruct (staked_bound (currency w) a _ _ _ 0 Hb Hc ltac:(done)) as [Hbond _].
  { pose proof (backed _ _ _ Hb a). lia. }
  assert (own_bond (Candidates w) a = Validator.bond c) as Hown.
  { unfold own_bond. by rewrite Ha. }
  rewrite Hown in Hbond.
  unfold Validator.bond_less. destruct (Validator.bond c >? less) eqn:E; [|stake_run; by try refused].
  assert (Validator.bond c ⊖ less = Validator.bond c - less) as ->.
  { apply u128_small. apply Z.gtb_lt in E. lia. }
  cbn [Validator.bond Validator.set_bond_total]. stake_run; simplify_eq; try refused.
  apply Z.gtb_lt in E as E'. skip_update Hreg.
  apply (own_refined _ _ _ _ a (Validator.set_bond_total c (Validator.bond c - less)
    (Validator.total c ⊖ less)) (- less)); try done.
  - apply unreserve_moves; [done|]. pose proof (backed _ _ _ Hb a) as Hle.
    pose proof (nominated_nonneg Hb a). unfold staked in Hle. rewrite Hown in Hle. lia.
  - rewrite Hown. cbn. lia.
  - by spec_eval.
Qed.

(** ** Nominators *)

(** A candidate is written, with its own part untouched. *)
Lemma own_kept_nominators (cands : gmap Z Validator.t) v c l tot :
  cands !! v = Some c →
  abs_candidate <$> <[v:=Validator.set_nominators_total c l tot]> cands =
    abs_candidate <$> cands.
Proof. intros Hv. by apply (own_kept cands v c). Qed.

Lemma nominator_backers w a v c :
  solvent w → Candidates w !! v = Some c →
  bond_map (Validator.nominators c) !! a =
    Nominators w !! a ≫= λ n, bond_map (Nominator.nominations n) !! v.
Proof.
  intros [_ Hb] Hv. pose proof (bilateral _ _ _ Hb a v) as H.
  unfold nomination, backing in H. by rewrite Hv in H.
Qed.

Lemma join_nominators_refines origin validator amount w :
  0 <= amount < U128 → pool_inv w → solvent w →
  wp (join_nominators origin validator amount)
    (refined origin (Call_join_nominators validator amount) w) w.
Proof using CL.
  intros Hamt [Hreg _] Hs. pose proof Hs as [Hc Hb].
  unfold join_nominators, nominator_joins_validator. stake_run; try refused. rename a0 into c.
  assert (Candidates w !! validator = Some c) as Hv by done.
  assert (Nominators w !! a = None) as Hn.
  { unfold is_nominator in *. by destruct (Nominators w !! a). }
  pose proof (cand_sorted _ _ _ Hb _ _ Hv) as Hsc.
  pose proof (nominator_backers w a validator c Hs Hv) as Hk. rewrite Hn in Hk. cbn in Hk.
  pose proof (insert_bond (Validator.nominators c) {| owner := a; amount := amount |} Hsc) as Hi.
  cbn [owner StakeTypes.amount] in Hi. rewrite Hk in Hi.
  destruct (OrderedSet.insert _ _) as [i l]. destruct Hi as (Hl & -> & Hlm & _).
  assert (Spec.count (<[a:=amount]> (Spec.backers (abs w) validator)) =
    u32 (Z.of_nat (length l))) as Hcount.
  { rewrite (backers_abs w validator c Hs Hv), <-Hlm. by apply count_bonds. }
  stake_run; try refused; try done.
  2: { refused_by_currency. rewrite Hn. cbn. rewrite map_sum_singleton, map_sum_empty. lia. }
  skip_update Hreg.
  apply (stakes_refined _ _ _ _ a (Nominator.new validator amount) {[validator:=amount]} amount);
    try done.
  - by apply own_kept_nominators.
  - apply reserve_moves; done || lia.
  - rewrite Hn. cbn. rewrite map_sum_singleton, map_sum_empty. lia.
  - by spec_eval.
Qed.

Lemma nomination_facts w a n :
  solvent w → Nominators w !! a = Some n →
  Spec.count (abs_stakes n) = u32 (Z.of_nat (length (Nominator.nominations n))) ∧
  sorted (Nominator.nominations n) ∧ Nominator.total n = map_sum (abs_stakes n).
Proof.
  intros [_ Hb] Ha. pose proof (nom_sorted _ _ _ Hb a n Ha) as Hs.
  split_and!; [by apply count_bonds|done|by apply (nom_total _ _ _ Hb a)].
Qed.

(** A part [x] of a nomination can be taken off, and released in full. *)
Lemma part_of_nomination w a n v y x :
  solvent w → Nominators w !! a = Some n → abs_stakes n !! v = Some y → 0 <= x <= y →
  Nominator.total n ⊖ x = map_sum (abs_stakes n) - x ∧
  moved_by (currency w) (unreserve (currency w) a x).1 a (- x).
Proof using CL.
  intros [Hc Hb] Ha Hy Hx.
  destruct (staked_bound (currency w) a _ _ _ 0 Hb Hc ltac:(done)) as [_ Hbd].
  { pose proof (backed _ _ _ Hb a). lia. }
  pose proof (nomination_le_total Hb a n v Ha) as Hle. unfold abs_stakes in *.
  rewrite Hy in Hle. cbn in Hle. rewrite (stored_total _ a n ltac:(by left)) in Hbd.
  split; [rewrite u128_small by lia; by rewrite (nom_total _ _ _ Hb a n Ha)|].
  apply unreserve_moves; [done|]. pose proof (backed _ _ _ Hb a).
  assert (y <= staked (Candidates w) (Nominators w) a); [|lia].
  apply (nomination_le_staked Hb a v). unfold nomination. rewrite Ha. exact Hy.
Qed.

Lemma nominate_new_refines origin validator amount w :
  0 <= amount < U128 → pool_inv w → solvent w →
  wp (nominate_new origin validator amount)
    (refined origin (Call_nominate_new validator amount) w) w.
Proof using CL.
  intros Hamt [Hreg _] Hs. pose proof Hs as [Hc Hb]. unfold nominate_new.
  stake_run; try refused.
  all: rename a0 into n; assert (Nominators w !! a = Some n) as Ha by done.
  all: destruct (nomination_facts w a n Hs Ha) as (Hcn & Hsn & _); try refused.
  rename a1 into c. assert (Candidates w !! validator = Some c) as Hv by done.
  pose proof (cand_sorted _ _ _ Hb _ _ Hv) as Hsc.
  pose proof (nominator_backers w a validator c Hs Hv) as Hk. rewrite Ha in Hk. cbn in Hk.
  fold (abs_stakes n) in Hk.
  pose proof (add_nomination_eq n {| owner := validator; amount := amount |} Hsn) as Hadd.
  cbn zeta in Hadd. cbn [owner StakeTypes.amount] in Hadd. fold (abs_stakes n) in Hadd.
  destruct (Nominator.add_nomination _ _) as [added n']. destruct Hadd as [_ Hadd].
  destruct (abs_stakes n !! validator) as [y|] eqn:Ey.
  { destruct Hadd as [-> ->]. by stake_run; try refused. }
  destruct Hadd as (-> & _ & Hn').
  pose proof (insert_bond (Validator.nominators c) {| owner := a; amount := amount |} Hsc) as Hi.
  cbn [owner StakeTypes.amount] in Hi. rewrite Hk in Hi.
  assert (Spec.count (Spec.backers (abs w) validator) =
    u32 (Z.of_nat (length (Validator.nominators c)))) as Hcount.
  { rewrite (backers_abs w validator c Hs Hv). by apply count_bonds. }
  stake_run; try refused; try done.
  destruct (OrderedSet.insert _ _) as [i l]. destruct Hi as (_ & -> & _).
  assert (map_sum (<[validator:=amount]> (abs_stakes n)) - map_sum (abs_stakes n) = amount) as Hd.
  { rewrite map_sum_insert, Ey. cbn. lia. }
  stake_run; try done.
  2: { refused_by_currency. rewrite Ha. exact Hd. }
  skip_update Hreg.
  apply (stakes_refined _ _ _ _ a n' (<[validator:=amount]> (abs_stakes n)) amount); try done.
  - by apply own_kept_nominators.
  - apply reserve_moves; done || lia.
  - by rewrite Ha.
  - by spec_eval.
Qed.

Lemma nominator_bond_more_refines origin candidate more w :
  0 <= more → pool_inv w → solvent w →
  wp (nominator_bond_more origin candidate more)
    (refined origin (Call_nominator_bond_more candidate more) w) w.
Proof using CL.
  intros Hmore [Hreg _] Hs. pose proof Hs as [Hc Hb]. unfold nominator_bond_more.
  stake_run; try refused. rename a0 into n, a1 into c.
  assert (Nominators w !! a = Some n) as Ha by done.
  assert (Candidates w !! candidate = Some c) as Hv by done.
  destruct (nomination_facts w a n Hs Ha) as (_ & Hsn & _).
  pose proof (cand_sorted _ _ _ Hb _ _ Hv) as Hsc.
  rewrite inc_nomination_eq, inc_nominator_eq, (nominator_backers w a candidate c Hs Hv), Ha by done.
  cbn [mbind option_bind]. fold (abs_stakes n).
  destruct (abs_stakes n !! candidate) as [y|] eqn:Ey; stake_run; simplify_eq; try refused.
  all: assert (map_sum (<[candidate:=y + more]> (abs_stakes n)) - map_sum (abs_stakes n) = more)
    as Hd by (rewrite map_sum_insert, Ey; cbn; lia).
  2: { refused_by_currency. rewrite H0. exact Hd. }
  match goal with H : reserve _ _ _ = inl ?x |- _ => rename x into cur', H into Hres end.
  pose proof (reserve_covers (currency w) a more cur' _ _ Hc Hmore Hres Hb) as Hcov.
  assert (cur_valid cur') as Hc' by by eapply reserve_valid.
  destruct (nomination_fits cur' _ _ _ a n candidate y more Hb Hc' Hmore Hcov H0 Ey) as [Hy Hym].
  rewrite (u128_small (y + more)) by lia. skip_update Hreg.
  eapply (stakes_refined _ _ _ _ a _ (<[candidate:=y + more]> (abs_stakes n)) more); try done.
  - by apply own_kept_nominators.
  - unfold abs_stakes. cbn. rewrite replace_bond_map. fold (abs_stakes n). by rewrite Ey.
  - by apply reserve_moves.
  - by rewrite H0.
  - by spec_eval.
Qed.

Lemma nominator_bond_less_refines origin candidate less w :
  0 <= less → pool_inv w → solvent w →
  wp (nominator_bond_less origin candidate less)
    (refined origin (Call_nominator_bond_less candidate less) w) w.
Proof using CL.
  intros Hless [Hreg _] Hs. pose proof Hs as [Hc Hb]. unfold nominator_bond_less.
  stake_run; try refused. rename a0 into n, a1 into c.
  assert (Nominators w !! a = Some n) as Ha by done.
  assert (Candidates w !! candidate = Some c) as Hv by done.
  destruct (nomination_facts w a n Hs Ha) as (_ & Hsn & Htn).
  pose proof (cand_sorted _ _ _ Hb _ _ Hv) as Hsc.
  rewrite dec_nomination_eq, dec_nominator_eq, (nominator_backers w a candidate c Hs Hv), Ha by done.
  cbn [mbind option_bind]. fold (abs_stakes n).
  destruct (abs_stakes n !! candidate) as [y|] eqn:Ey; [|by stake_run; try refused].
  destruct (y >? less) eqn:Eg; [|stake_run; simplify_eq; refused].
  apply Z.gtb_lt in Eg as Hg.
  destruct (nomination_fits (currency w) _ _ _ a n candidate y 0 Hb Hc ltac:(done)
    (covered _ _ _ a Hb) Ha Ey) as [Hy Hym].
  rewrite (u128_small (y - less)) by lia. cbn [Nominator.total].
  destruct (part_of_nomination w a n candidate y less Hs Ha Ey ltac:(lia)) as [-> Hmov].
  stake_run; simplify_eq; try refused. skip_update Hreg.
  eapply (stakes_refined _ _ _ _ a _ (<[candidate:=y - less]> (abs_stakes n)) (- less)); try done.
  - by apply own_kept_nominators.
  - unfold abs_stakes. cbn. rewrite replace_bond_map. fold (abs_stakes n). by rewrite Ey.
  - rewrite H0. cbn. rewrite map_sum_insert, Ey. cbn. lia.
  - by spec_eval.
Qed.

(** What [nominator_leaves_validator] writes. *)
Definition left_validator a v w (o : Outcome (World Cur) (DispatchError Error) unit) : Prop :=
  ends (λ w', abs_candidate <$> Candidates w' = abs_candidate <$> Candidates w ∧
    Nominators w' = Nominators w ∧ Round w' = Round w ∧ InflationConfig w' = InflationConfig w ∧
    ∃ y, bond_map (default [] (Validator.nominators <$> Candidates w !! v)) !! a = Some y ∧
      currency w' = (unreserve (currency w) a y).1) o.

Lemma nominator_leaves_validator_writes a v w y :
  pool_inv w → bond_map (default [] (Validator.nominators <$> Candidates w !! v)) !! a = Some y →
  wp (nominator_leaves_validator a v) (left_validator a v w) w.
Proof.
  intros [Hreg _] Hy. unfold nominator_leaves_validator.
  destruct (Candidates w !! v) as [c|] eqn:Hv; [|done]. cbn in Hy. stake_run; [|congruence].
  simplify_eq. rewrite extract_bond_map by by apply (candidate_sorted _ _ _ Hreg v).
  rewrite Hy. stake_run; [|done]. simplify_eq. skip_update Hreg.
  split_and!; wsimpl; try done.
  - by apply own_kept_nominators.
  - exists a0. rewrite Hv. by split.
Qed.

Lemma revoke_nomination_refines origin validator w :
  pool_inv w → solvent w →
  wp (revoke_nomination origin validator) (refined origin (Call_revoke_nomination validator) w) w.
Proof using CL.
  intros Hpool Hs. pose proof Hs as [Hc Hb]. unfold revoke_nomination, nominator_revokes_validator.
  stake_run; try refused. rename a0 into n. assert (Nominators w !! a = Some n) as Ha by done.
  destruct (nomination_facts w a n Hs Ha) as (_ & Hsn & _).
  rewrite rm_nomination_eq by done. fold (abs_stakes n).
  destruct (abs_stakes n !! validator) as [y|] eqn:Ey; [|by stake_run; try refused].
  assert (0 < y) as Hy by by eapply (nominations_pos Hb).
  destruct (part_of_nomination w a n validator y y Hs Ha Ey ltac:(lia)) as [-> Hmov].
  stake_run; simplify_eq; try refused.
  assert (bond_map (default [] (Validator.nominators <$> Candidates w !! validator)) !! a = Some y)
    as Hk.
  { pose proof (bilateral _ _ _ Hb a validator) as Hbil. unfold nomination, backing in Hbil.
    rewrite H0 in Hbil. cbn in Hbil. fold (abs_stakes n) in Hbil. rewrite Ey in Hbil.
    by destruct (Candidates w !! validator). }
  eapply wp_mono; [|by apply (nominator_leaves_validator_writes a validator w y)].
  intros [u w'|e w'|]; cbn [left_validator ends bind_post]; [|done..].
  intros (HC & HN & HR & HI & y' & Hy' & Hcur). assert (y' = y) as -> by congruence.
  stake_run.
  eapply (stakes_refined _ _ _ _ a _ (delete validator (abs_stakes n)) (- y)); wsimpl; try done.
  - by rewrite HN.
  - unfold abs_stakes. cbn. by rewrite bond_map_without.
  - by rewrite Hcur.
  - rewrite H0. cbn. rewrite map_sum_delete, Ey. cbn. lia.
  - by spec_eval.
Qed.

(** The loop of [leave_nominators] releases what has been visited. *)
Definition leaving_refined w a n xs w' : Prop :=
  leaving_nominator w a n xs w' ∧
  abs_candidate <$> Candidates w' = abs_candidate <$> Candidates w ∧
  Round w' = Round w ∧ InflationConfig w' = InflationConfig w ∧
  moved_by (currency w) (currency w') a (- zsum amount xs).

Lemma leaving_refined_step w a n x xs w' :
  (xs ++ [x]) `prefix_of` Nominator.nominations n → leaving_refined w a n xs w' →
  wp (nominator_leaves_validator a (owner x)) (ends (leaving_refined w a n (xs ++ [x]))) w'.
Proof using CL.
  intros Hpre (HI & HC & HR & HF & Hm).
  destruct (leaving_nominator_next w a n x xs w' Hpre HI) as (n' & Hb & Hx & _).
  pose proof HI as (Hpool & _ & Hc & _).
  assert (<[a:=n']> (Nominators w) !! a = Some n') as Ha by apply lookup_insert_eq.
  assert (nomination (<[a:=n']> (Nominators w)) a (owner x) = Some (amount x)) as Hn.
  { unfold nomination. by rewrite Ha. }
  assert (bond_map (default [] (Validator.nominators <$> Candidates w' !! owner x)) !! a =
    Some (amount x)) as Hk.
  { rewrite (bilateral _ _ _ Hb) in Hn. unfold backing in Hn.
    by destruct (Candidates w' !! owner x). }
  eapply wp_mono; [|apply wp_and; [by apply (leaving_nominator_step w a n x xs w')|
    by apply (nominator_leaves_validator_writes a (owner x) w' (amount x))]].
  intros [u w''|e w''|]; cbn [ends left_validator]; [|tauto..].
  intros [HI' (HC' & _ & HR' & HF' & y & Hy & Hcur)]. assert (y = amount x) as -> by congruence.
  split; [done|]. split_and!; try congruence.
  rewrite Hcur, zsum_app. replace (- _) with (- zsum amount xs + - amount x) by (cbn; lia).
  eapply moves_trans; [exact Hm|]. apply unreserve_moves; [done|].
  pose proof (nomination_pos _ _ _ Hb _ _ _ Hn). pose proof (backed _ _ _ Hb a).
  pose proof (nomination_le_staked Hb _ _ _ Hn). lia.
Qed.

Lemma leave_nominators_refines origin w :
  pool_inv w → solvent w →
  wp (leave_nominators origin) (refined origin Call_leave_nominators w) w.
Proof using CL.
  intros Hpool Hs. pose proof Hs as [Hc Hb]. unfold leave_nominators. stake_run; try refused.
  rename a0 into n. assert (Nominators w !! a = Some n) as Ha by done.
  destruct (nomination_facts w a n Hs Ha) as (_ & Hsn & _).
  apply (wp_for_each_visited (leaving_refined w a n)).
  - split; [by apply leaving_nominator_start|]. split_and!; try done. apply nothing_moves.
  - intros x xs w' Hpre HI. eapply wp_mono; [|by apply leaving_refined_step]. by intros [].
  - intros w' ((_ & HN & _) & HC & HR & HF & Hm). cbn [bind_post]. stake_run.
    assert (∀ w2, Candidates w2 = Candidates w' → Nominators w2 = delete a (Nominators w) →
      Round w2 = Round w' → InflationConfig w2 = InflationConfig w' →
      abs w2 = Spec.drop_stakes a (abs w)) as Habs.
    { intros w2 C2 N2 R2 F2. unfold abs, Spec.drop_stakes. rewrite C2, N2, R2, F2, HC, HR, HF.
      by rewrite fmap_delete. }
    split; [spec_eval; f_equal; symmetry; apply Habs; wsimpl; congruence|].
    intros b. cbn zeta. rewrite Habs by (wsimpl; congruence). wsimpl.
    destruct (Hm b) as [-> ->]. unfold Spec.at_stake, Spec.drop_stakes.
    cbn [Spec.own Spec.stakes]. rewrite lookup_delete, stakes_abs.
    destruct (decide (b = a)) as [->|Hne]; [rewrite decide_True by done|rewrite decide_False by done; lia].
    rewrite Ha. cbn. rewrite map_sum_empty. unfold map_sum, abs_stakes.
    rewrite <-bond_sum_map by done. lia.
Qed.

Lemma switch_nomination_refines origin old new w :
  ¬ merges w origin new → pool_inv w → solvent w →
  wp (switch_nomination origin old new) (refined origin (Call_switch_nomination old new) w) w.
Proof using CL.
  intros Hnew [Hreg _] Hs. pose proof Hs as [Hc Hb]. unfold switch_nomination.
  stake_run; try refused. rename a0 into n, a1 into co, a2 into cn.
  assert (Nominators w !! a = Some n) as Ha by done.
  destruct (nomination_facts w a n Hs Ha) as (_ & Hsn & _).
  assert (abs_stakes n !! new = None) as Hnone.
  { destruct (abs_stakes n !! new) eqn:E; [|done]. exfalso. apply Hnew. exists a.
    split; [done|]. unfold nomination. rewrite Ha. by eexists. }
  pose proof (swap_nomination_eq n old new Hsn) as Hsw. cbn zeta in Hsw.
  fold (abs_stakes n) in Hsw. rewrite Hnone in Hsw.
  destruct (Nominator.swap_nomination n old new) as [o n']. destruct Hsw as (_ & _ & Hsw).
  destruct (abs_stakes n !! old) as [y|] eqn:Ey.
  2: { destruct Hsw as [-> _]. by stake_run; try refused. }
  destruct Hsw as [-> Hn']. stake_run; [|done].
  match goal with H : Some (y, y) = Some _ |- _ => injection H as <- end.
  rewrite rm_nominator_eq by by apply (candidate_sorted _ _ _ Hreg old).
  cbn zeta beta iota. destruct (Z.gtb_spec y y) as [?|_]; [lia|].
  destruct (add_nominator_eq cn a y) as (l & -> & _ & _);
    [by apply (candidate_sorted _ _ _ Hreg new)|].
  apply wp_bind, wp_update_active; [apply Hreg|]. intros pool1 Hp1 _. cbn [bind_post].
  apply wp_bind, wp_update_active; [done|]. intros pool2 _ _. cbn [bind_post]. stake_run.
  eapply (stakes_refined _ _ _ _ a n' (<[new:=y]> (delete old (abs_stakes n))) 0); try done.
  - wsimpl. rewrite own_kept_nominators; [by apply own_kept_nominators|].
    rewrite lookup_insert_ne; [done|]. by apply Z.eqb_neq, negb_true_iff.
  - apply nothing_moves.
  - rewrite Ha. cbn. rewrite map_sum_insert, map_sum_delete, Ey.
    rewrite lookup_delete. case_decide; rewrite ?Hnone; cbn; lia.
  - spec_eval. cbn [default]. by rewrite Z.add_0_r.
Qed.

#[local] Hint Resolve set_staking_expectations_refines set_inflation_refines
  join_candidates_refines leave_candidates_refines go_offline_refines go_online_refines
  candidate_bond_more_refines candidate_bond_less_refines join_nominators_refines
  leave_nominators_refines nominate_new_refines switch_nomination_refines
  revoke_nomination_refines nominator_bond_more_refines nominator_bond_less_refines : handlers.

(** Every call does what the machine does. *)
Lemma dispatch_refines origin call w :
  orderly_call w origin call → sound w → wp (dispatch origin call) (refined origin call w) w.
Proof using CL CF.
  intros Hcall [Hp Hs]. destruct call; cbn [dispatch orderly_call] in *; auto with handlers.
Qed.
End refinement.
