(* ===== verification/RoundRefinement.v ===== *)
(** * The end of a round implements the machine of [Spec.v]

    The exits that are due remove their candidates with all stakes in them, and release
    exactly these stakes; payments and the selection do not touch the machine's state. *)

From S2P Require Import Prelude OrderedSet Frame StakeTypes BondMap Inflation Stake.
From S2P Require Import StakeLogic Registry Books Solvency Rounds Spec Refinement.

(** ** Removing candidates *)

Lemma delete_not_empty u v (m : gmap Z Balance) y :
  u ≠ v → m !! v = Some y → delete u m ≠ ∅.
Proof.
  intros Hne Hv E. pose proof (lookup_empty (M := gmap Z) (A := Balance) v) as H.
  rewrite <-E, lookup_delete_ne, Hv in H by done. done.
Qed.

Lemma unstake_commute u v (m : gmap Z Balance) :
  Spec.unstake u m ≫= Spec.unstake v = Spec.unstake v m ≫= Spec.unstake u.
Proof.
  destruct (decide (u = v)) as [->|Hne]; [done|]. unfold Spec.unstake.
  destruct (m !! u) as [x|] eqn:Eu, (m !! v) as [y|] eqn:Ev; cbn.
  - pose proof (delete_not_empty u v m y Hne Ev).
    pose proof (delete_not_empty v u m x (not_eq_sym Hne) Eu).
    rewrite !decide_False by done. cbn. rewrite !lookup_delete_ne, Eu, Ev by done.
    by rewrite delete_delete.
  - rewrite Eu. case_decide; cbn; [done|]. by rewrite lookup_delete_ne, Ev.
  - rewrite Ev. case_decide; cbn; [done|]. by rewrite lookup_delete_ne, Eu.
  - by rewrite Eu, Ev.
Qed.

Lemma remove_commute u v s :
  Spec.remove_candidate u (Spec.remove_candidate v s) =
  Spec.remove_candidate v (Spec.remove_candidate u s).
Proof.
  unfold Spec.remove_candidate. cbn. f_equal; [apply delete_delete|].
  apply map_eq. intros a. rewrite !lookup_omap. destruct (Spec.stakes s !! a); [|done].
  apply unstake_commute.
Qed.

Lemma remove_all_perm l k s :
  l ≡ₚ k → foldr Spec.remove_candidate s l = foldr Spec.remove_candidate s k.
Proof.
  induction 1 as [|x l k _ IH|x y l|l1 l2 l3 _ IH1 _ IH2]; cbn; [done|by rewrite IH| |congruence].
  apply remove_commute.
Qed.

Lemma at_stake_remove s v b :
  Spec.at_stake (Spec.remove_candidate v s) b =
    Spec.at_stake s b -
    (if decide (b = v) then match Spec.own s !! v with Some c => Spec.bond c | None => 0 end else 0) -
    default 0 (default ∅ (Spec.stakes s !! b) !! v).
Proof.
  unfold Spec.at_stake, Spec.remove_candidate. cbn [Spec.own Spec.stakes].
  rewrite lookup_omap, lookup_delete.
  assert (map_sum (default ∅ (Spec.stakes s !! b ≫= Spec.unstake v)) =
    map_sum (default ∅ (Spec.stakes s !! b)) - default 0 (default ∅ (Spec.stakes s !! b) !! v)) as ->.
  { destruct (Spec.stakes s !! b) as [m|]; cbn; [|by rewrite lookup_empty].
    unfold Spec.unstake. rewrite <-map_sum_delete. destruct (m !! v) eqn:E; cbn.
    - case_decide as H; cbn; [by rewrite H|done].
    - by rewrite delete_id. }
  destruct (decide (b = v)) as [->|Hn]; [rewrite decide_True by done; lia|].
  rewrite decide_False by done. lia.
Qed.

Section rounds.
Context {Origin Cur : Type}.
Context `{FO : FrameOrigin Origin, MO : MonetaryPolicyOrigin Origin, CU : Currency Cur}.
Context {CL : CurrencyLaws Cur}.
Context `{PO : PerbillOps, US : UnstableSort, IO : IterationOrder, SC : StakeConfig}.
Context {SL : UnstableSortLaws} {CF : StakeConfigLaws}.
Implicit Types (w : World Cur).

(** The reserved balances follow the stake. *)
Definition followed w w' : Prop := ∀ b,
  reserved_balance (currency w') b =
    reserved_balance (currency w) b + (Spec.at_stake (abs w') b - Spec.at_stake (abs w) b).

(** The stake that has left after the bonds [xs] of the candidate [v]. *)
Definition exiting_refined w v c xs w' : Prop :=
  exiting w v c xs w' ∧ Round w' = Round w ∧ InflationConfig w' = InflationConfig w ∧
  (∀ a, Spec.stakes (abs w') !! a =
    if decide (a ∈ owner <$> xs) then Spec.stakes (abs w) !! a ≫= Spec.unstake v
    else Spec.stakes (abs w) !! a) ∧
  (∀ b, reserved_balance (currency w') b = reserved_balance (currency w) b -
    (if decide (b ∈ owner <$> xs) then default 0 (default ∅ (Spec.stakes (abs w) !! b) !! v) else 0)).

Lemma exit_nominator_writes v x n w :
  Nominators w !! owner x = Some n → sorted (Nominator.nominations n) →
  abs_stakes n !! v = Some (amount x) →
  (Nominator.total n ⊖ amount x = 0 ↔ delete v (abs_stakes n) = ∅) →
  wp (exit_nominator v x) (ends (λ w',
    Round w' = Round w ∧ InflationConfig w' = InflationConfig w ∧
    currency w' = (unreserve (currency w) (owner x) (amount x)).1 ∧
    ∀ a, Spec.stakes (abs w') !! a =
      if decide (a = owner x) then Spec.unstake v (abs_stakes n) else Spec.stakes (abs w) !! a)) w.
Proof.
  intros Hn Hs Hx Hz. unfold exit_nominator. stake_run. wsimpl.
  rewrite Hn, rm_nomination_eq by done. fold (abs_stakes n). rewrite Hx.
  unfold Spec.unstake. rewrite Hx.
  destruct (Z.eqb_spec (Nominator.total n ⊖ amount x) 0) as [E|E];
    apply wp_modify; (split_and!; [done..|]); intros a; rewrite !stakes_abs; wsimpl.
  - rewrite lookup_delete, (decide_True (P := delete v _ = ∅)) by tauto.
    destruct (decide (a = owner x)) as [->|]; [by rewrite decide_True|].
    by rewrite decide_False.
  - rewrite lookup_insert, (decide_False (P := delete v _ = ∅)) by tauto.
    destruct (decide (a = owner x)) as [->|]; [|by rewrite decide_False].
    rewrite decide_True by done. cbn. unfold abs_stakes. cbn. by rewrite bond_map_without.
Qed.

Lemma exit_nominator_refined w v c x xs w' :
  solvent w → Candidates w !! v = Some c →
  (xs ++ [x]) `prefix_of` Validator.nominators c → exiting_refined w v c xs w' →
  wp (exit_nominator v x) (ends (exiting_refined w v c (xs ++ [x]))) w'.
Proof using CL SL CF.
  intros Hs Hv Hpre (HI & HR & HF & HS & HB).
  destruct (exiting_next w v c x xs w' Hpre HI) as (c' & n & Hrest & _ & Hb & Hn & Hx).
  pose proof HI as (_ & Hc & _).
  assert (owner x ∉ owner <$> xs) as Hfresh.
  { destruct Hs as [_ Hbw]. pose proof (sorted_owners_NoDup _ (cand_sorted _ _ _ Hbw v c Hv)) as Hnd.
    rewrite <-Hrest, fmap_app, fmap_cons in Hnd. apply NoDup_app in Hnd as (_ & Hd & _).
    intros Hin. apply (Hd _ Hin). left. }
  pose proof (HS (owner x)) as HSx. rewrite decide_False, stakes_abs, Hn in HSx by done.
  assert (0 < amount x) as Hpos by by eapply (nominations_pos Hb).
  assert (0 <= amount x <= amount x) as Hxx by lia.
  assert (amount x <= reserved_balance (currency w') (owner x)) as Hcov.
  { pose proof (backed _ _ _ Hb (owner x)).
    assert (amount x <= staked (<[v:=c']> (Candidates w)) (Nominators w') (owner x)); [|lia].
    apply (nomination_le_staked Hb _ v). unfold nomination. by rewrite Hn. }
  assert (Nominator.total n ⊖ amount x = 0 ↔ delete v (abs_stakes n) = ∅) as Hz.
  { destruct (nomination_fits_total (currency w') _ _ (owner x) n v (amount x) Hb Hc Hn Hx) as [? ?].
    rewrite u128_small by lia. rewrite (nom_total _ _ _ Hb _ n Hn). fold (abs_stakes n).
    rewrite <-map_sum_zero, map_sum_delete; [unfold abs_stakes; by rewrite Hx|].
    intros k y [_ Hy]%lookup_delete_Some. by eapply (nominations_pos Hb). }
  eapply wp_mono; [|apply wp_and; [by apply (exit_nominator_solvent w v c x xs w')|
    by apply (exit_nominator_writes v x n w'); [| eapply (nom_sorted _ _ _ Hb)|..]]].
  intros [u w''|e w''|]; cbn [ends]; [|tauto..].
  intros [HI' (HR' & HF' & Hcur & HS')]. split; [done|]. split_and!; [congruence..| |].
  - intros a. rewrite HS', HS, fmap_app. change (owner <$> [x]) with [owner x].
    destruct (decide (a = owner x)) as [->|Hne].
    + rewrite decide_True by set_solver. rewrite <-HSx. done.
    + repeat case_decide; set_solver.
  - intros b. rewrite Hcur, unreserve_reserved, HB, fmap_app by (done || lia).
    change (owner <$> [x]) with [owner x].
    destruct (decide (b = owner x)) as [->|Hne].
    + rewrite (decide_False (P := owner x ∈ _)), decide_True by set_solver.
      rewrite <-HSx. cbn. unfold abs_stakes. rewrite Hx. cbn.
      specialize (HB (owner x)). rewrite decide_False in HB by done. lia.
    + repeat case_decide; try lia; set_solver.
Qed.

(** One entry of the queue. *)
Lemma execute_exit_refined next x w :
  (∀ a c, Candidates w !! a = Some c → Validator.id c = a) → solvent w →
  wp (execute_exit next x) (λ o, match o with
    | Done _ w' =>
        abs w' = (if decide (is_due next x) then Spec.remove_candidate (owner x) (abs w) else abs w) ∧
        followed w w'
    | _ => False end) w.
Proof using CL SL CF.
  intros Hid Hs. pose proof Hs as [Hc Hb]. unfold execute_exit.
  assert (followed w w) as Hsame by (intros b; lia).
  destruct (Z.gtb_spec (amount x) next) as [Hgt|Hle].
  { rewrite decide_False by (unfold is_due; lia). by apply wp_ret. }
  rewrite decide_True by done. stake_run.
  assert (∀ a m, Spec.stakes (abs w) !! a = Some m → m !! owner x = backing (Candidates w) (owner x) a)
    as Hback.
  { intros a m Hm. rewrite <-(bilateral _ _ _ Hb). rewrite stakes_abs in Hm. unfold nomination.
    destruct (Nominators w !! a); [|done]. by injection Hm as <-. }
  destruct (Candidates w !! owner x) as [c|] eqn:Hx.
  2: { apply wp_ret. split; [|done]. unfold Spec.remove_candidate, abs. cbn. f_equal.
    - rewrite delete_id; [done|]. by rewrite lookup_fmap, Hx.
    - apply map_eq. intros a. rewrite lookup_omap. specialize (Hback a).
      change (Spec.stakes (abs w)) with (abs_stakes <$> Nominators w) in Hback.
      destruct ((abs_stakes <$> Nominators w) !! a) as [m|]; [|done]. cbn. unfold Spec.unstake.
      rewrite (Hback m eq_refl). unfold backing. by rewrite Hx. }
  apply wp_bind. apply (wp_for_each_visited (exiting_refined w (owner x) c)).
  - split.
    { split_and!; [done..|]. exists c. split_and!; [done..|]. by rewrite insert_id. }
    split_and!; [done..|intros a|intros a]; rewrite decide_False by apply not_elem_of_nil;
      [done|lia].
  - intros b xs w' Hpre HI. eapply wp_mono; [|by apply (exit_nominator_refined w (owner x) c)].
    by intros [].
  - intros w' ((HC & Hc' & c' & Hnil & Hbond & Hb') & HR & HF & HS & HB). cbn [bind_post].
    stake_run. wsimpl.
    match goal with |- abs ?W = _ ∧ _ => set (w2 := W) end.
    assert (abs w2 = Spec.remove_candidate (owner x) (abs w)) as Habs.
    { unfold abs, Spec.remove_candidate, w2. wsimpl. rewrite HR, HF, HC. f_equal.
      - by rewrite fmap_delete.
      - apply map_eq. intros a. specialize (HS a). unfold abs in HS. cbn [Spec.stakes] in HS.
        rewrite HS, lookup_omap. case_decide as Hin; [done|].
        cbn [Spec.stakes]. specialize (Hback a).
        change (Spec.stakes (abs w)) with (abs_stakes <$> Nominators w) in Hback.
        destruct ((abs_stakes <$> Nominators w) !! a) as [m|]; [|done]. cbn. unfold Spec.unstake.
        rewrite (Hback m eq_refl). unfold backing. rewrite Hx. cbn.
        apply bond_map_None in Hin. by rewrite Hin. }
    split; [done|]. intros b. rewrite Habs, at_stake_remove, own_abs, Hx.
    unfold w2. wsimpl. rewrite (Hid _ _ Hx), <-Hbond.
    assert (<[owner x:=c']> (Candidates w) !! owner x = Some c') as Hl by apply lookup_insert_eq.
    pose proof (cand_bond _ _ _ Hb' _ _ Hl) as Hbnn.
    pose proof (backed _ _ _ Hb' (owner x)) as Hcov. unfold staked, own_bond in Hcov.
    rewrite Hl in Hcov. pose proof (nominated_nonneg Hb' (owner x)).
    rewrite unreserve_reserved, HB by done. cbn [fmap option_fmap option_map].
    assert (b ∉ owner <$> Validator.nominators c →
      default 0 (default ∅ (Spec.stakes (abs w) !! b) !! owner x) = 0) as Hout.
    { intros Hin. specialize (Hback b). destruct (Spec.stakes (abs w) !! b) as [m|]; cbn.
      - rewrite (Hback m eq_refl). unfold backing. rewrite Hx. cbn.
        apply bond_map_None in Hin. by rewrite Hin.
      - by rewrite lookup_empty. }
    rewrite Z.min_l by lia.
    destruct (decide (b ∈ owner <$> Validator.nominators c)) as [Hin|Hin];
      [|rewrite (Hout Hin)]; cbn [abs_candidate Spec.bond]; rewrite <-Hbond; lia.
Qed.

(** The queue, up to the entries [xs]. *)
Definition exits_refined w next xs ys w' : Prop :=
  exits_inv w next xs ys w' ∧ solvent w' ∧
  abs w' = foldr Spec.remove_candidate (abs w) (due_owners next xs) ∧ followed w w'.

Lemma followed_trans w1 w2 w3 : followed w1 w2 → followed w2 w3 → followed w1 w3.
Proof. intros H1 H2 b. specialize (H1 b). specialize (H2 b). lia. Qed.

Lemma execute_exits_refined next w :
  pool_inv w → solvent w →
  wp (execute_delayed_validator_exits next) (ends (λ w',
    pool_inv w' ∧ solvent w' ∧ followed w w' ∧ 
    abs w' = foldr Spec.remove_candidate (abs w) (due_owners next (ExitQueue w)))) w.
Proof using CL SL CF.
  intros Hp Hs. pose proof Hp as (Hreg & Hnoms & Hvals).
  eapply wp_mono; [|apply wp_and; [by apply (execute_exits_pool next w)|]].
  { intros o. instantiate (1 := ends (λ w', solvent w' ∧ followed w w' ∧ 
      abs w' = foldr Spec.remove_candidate (abs w) (due_owners next (ExitQueue w)))).
    destruct o; cbn; tauto. }
  unfold execute_delayed_validator_exits. stake_run.
  apply (wp_filter_map_each (exits_refined w next)).
  - split; [by split_and!|]. split_and!; [done..|]. intros b. lia.
  - intros x xs ys w' _ _ (HI & Hs' & Habs & Hf).
    eapply wp_mono; [|apply wp_and; [by apply execute_exit_inv|
      apply wp_and; [apply (execute_exit_solvent next x w')|apply (execute_exit_refined next x w')]]].
    + intros [o w''|e w''|]; [|tauto..]. intros (HI' & Hs'' & Habs' & Hf').
      split_and!; [done|done| |by eapply followed_trans].
      rewrite Habs', due_owners_snoc, Habs. destruct (decide (is_due next x)); [|by rewrite app_nil_r].
      apply (remove_all_perm (owner x :: due_owners next xs)). by rewrite Permutation_app_comm.
    + intros a c. destruct HI as (_ & _ & Hc & _). rewrite Hc. case_decide; [done|].
      by apply (candidate_id _ _ _ Hreg).
    + done.
    + intros a c. destruct HI as (_ & _ & Hc & _). rewrite Hc. case_decide; [done|].
      by apply (candidate_id _ _ _ Hreg).
    + done.
  - intros ys w' (_ & Hs' & Habs & Hf). cbn [bind_post]. by apply wp_modify.
Qed.

Lemma due_accounts_elem s a :
  a ∈ Spec.due_accounts s ↔
    ∃ c, Spec.own s !! a = Some c ∧ Spec.due (Spec.now s ⊞ 1) c = true.
Proof.
  unfold Spec.due_accounts. rewrite elem_of_elements, elem_of_dom. unfold is_Some.
  by setoid_rewrite map_lookup_filter_Some.
Qed.

(** The queue holds the accounts the machine finds due. *)
Lemma due_accounts_queue w :
  pool_inv w → due_owners (Round w ⊞ 1) (ExitQueue w) ≡ₚ Spec.due_accounts (abs w).
Proof.
  intros (Hreg & _). apply NoDup_Permutation.
  - unfold due_owners. apply sorted_owners_NoDup, sorted_filter, Hreg.
  - unfold Spec.due_accounts. apply NoDup_elements.
  - intros a. rewrite due_owners_elem, due_accounts_elem by apply Hreg. split.
    + intros (r & Hr & Hle). rewrite (queue_exact _ _ _ Hreg) in Hr.
      destruct (Candidates w !! a) as [c|] eqn:Ea; [|done]. cbn in Hr.
      exists (abs_candidate c). rewrite own_abs, Ea.
      split; [done|]. unfold Spec.due, exit_entry in *. cbn.
      destruct (Validator.state c); try done. injection Hr as ->. by apply Z.leb_le.
    + intros (c & Hc & Hd). rewrite own_abs in Hc.
      rewrite (queue_exact _ _ _ Hreg). destruct (Candidates w !! a) as [c'|]; [|done].
      injection Hc as <-. cbn in *. unfold Spec.due, exit_entry in *. cbn in Hd.
      destruct (Validator.state c') as [| |r]; try done. exists r. split; [done|].
      by apply Z.leb_le.
Qed.

(** A world with the same machine state. *)
Lemma abs_same w w' :
  Candidates w' = Candidates w → Nominators w' = Nominators w →
  Round w' = Round w → InflationConfig w' = InflationConfig w → abs w' = abs w.
Proof. unfold abs. by intros -> -> -> ->. Qed.

(** The end of a block is the machine's end of a round, or nothing. *)
Definition round_refined n w (o : Outcome (World Cur) (DispatchError Error) unit) : Prop :=
  ends (λ w', abs w' = (if n mod BlocksPerRound =? 0 then Spec.end_of_round (abs w) else abs w) ∧
    followed w w') o.

Lemma on_finalize_refines n w :
  sound w → wp (on_finalize n) (round_refined n w) w.
Proof using CL SL CF.
  intros [Hp Hs]. pose proof rounds_fit as Hfit. unfold on_finalize, round_refined.
  apply wp_bind, wp_assert; [|rewrite negb_false_iff, Z.eqb_eq; lia].
  intros _. cbn [bind_post]. apply wp_when; intros ->.
  2: { cbn. split; [done|]. intros b. lia. }
  stake_run. set (next := Round w ⊞ 1).
  eapply wp_mono; [|apply wp_and; [by apply pay_stakers_solvent|apply wp_and;
    [apply (pay_stakers_round next)|apply (pay_stakers_ends next (cur_preserved w))]]].
  2: done. 2: by intros; apply mint_preserves. 2-3: by intros; split; [apply Hs|].
  intros [u w1|e w1|]; cbn [bind_post ends]; [|tauto..].
  intros (Hs1 & (Hsame & HR1 & _ & _ & HF1 & _) & Hc1 & Hres1).
  pose proof (same_registry_inv _ _ Hsame Hp) as Hp1. destruct Hsame as (C1 & _ & Q1 & N1 & _).
  assert (abs w1 = abs w) as A1 by by apply abs_same.
  apply wp_bind. eapply wp_mono; [|by apply execute_exits_refined].
  intros [u2 w2|e w2|]; cbn [bind_post ends]; [|tauto..]. intros (Hp2 & Hs2 & Hf2 & A2).
  apply wp_bind, wp_best_candidates; [done|]. intros evs l. cbn [bind_post]. stake_run.
  match goal with |- ends _ (Done _ ?W) => set (W' := W) end.
  assert (∀ b, Spec.at_stake (abs W') b = Spec.at_stake (abs w2) b) as Hstake by done.
  split.
  - change (abs W') with (Spec.Build next (InflationConfig w2) (Spec.own (abs w2))
      (Spec.stakes (abs w2))).
    change (InflationConfig w2) with (Spec.inflation (abs w2)). rewrite A2, A1, Q1.
    unfold Spec.end_of_round.
    by rewrite (remove_all_perm _ _ _ (due_accounts_queue w Hp)).
  - intros b. rewrite Hstake, <-A1. specialize (Hf2 b).
    change (reserved_balance (currency W') b) with (reserved_balance (currency w2) b).
    rewrite Hf2, Hres1. lia.
Qed.

(** ** Chains *)

(** A step of the chain is at most one move of the machine. *)
Lemma orderly_step_moves w w' :
  orderly_step w w' → sound w → abs w' = abs w ∨ Spec.moves (Origin := Origin) (abs w) (abs w').
Proof using CL SL CF.
  intros Hst Hs. destruct Hst as [origin call u w' Hc E|origin call e w' Hc E|n u w' E|a u w' E|c Hc Hr|].
  - pose proof (dispatch_refines origin call w Hc Hs) as H. unfold wp in H. rewrite E in H.
    right. destruct H as [H _]. eapply Spec.moves_call; [|done].
    by destruct call; cbn in *; lia || done.
  - pose proof (dispatch_sound_settled origin call w Hs) as H. unfold wp in H. rewrite E in H.
    left. cbn in H. by rewrite H.
  - pose proof (on_finalize_refines n w Hs) as H. unfold wp in H. rewrite E in H.
    destruct H as [-> _]. destruct (n mod BlocksPerRound =? 0); [right|by left]. constructor.
  - unfold note_author in E. cbn in E. injection E as _ <-. by left.
  - by left.
  - by left.
Qed.

Lemma orderly_steps_moves w w' :
  rtc orderly_step w w' → sound w → rtc (Spec.moves (Origin := Origin)) (abs w) (abs w').
Proof using CL SL CF.
  induction 1 as [|w1 w2 w3 Hst _ IH]; intros Hs; [done|].
  specialize (IH (orderly_step_sound _ _ Hst Hs)).
  destruct (orderly_step_moves _ _ Hst Hs) as [<-|Hm]; [done|by eapply rtc_l].
Qed.

Lemma orderly_dispatch_sound origin call w :
  orderly_call w origin call → sound w → wp (dispatch origin call) (if_done sound) w.
Proof using CL SL CF IO.
  intros Ho Hs. unfold wp. destruct (dispatch origin call w) as [u w'|e w'|] eqn:E; [|done..].
  apply (orderly_step_sound w); [by econstructor 1|done].
Qed.

(** What the machine keeps holds along chains. *)
Lemma orderly_steps_invariant (P : Spec.t → Prop) w w' :
  (∀ s s', Spec.moves (Origin := Origin) s s' → P s → P s') →
  rtc orderly_step w w' → sound w → P (abs w) → P (abs w').
Proof using CL SL CF.
  intros HP Hr Hs. pose proof (orderly_steps_moves w w' Hr Hs) as Hm. clear Hr Hs.
  induction Hm as [|s1 s2 s3 Hst _ IH]; [done|]. intros H. apply IH. by eapply HP.
Qed.

(** The genesis build is made of two calls. *)
Definition is_join (call : Call) : Prop :=
  match call with Call_join_candidates _ _ | Call_join_nominators _ _ => True | _ => False end.

Lemma genesis_invariant (P : Spec.t → Prop) signed_by config c stakers w :
  (∀ (origin : Origin) call s s', is_join call → Spec.unsigned call →
    Spec.step origin call s = inr s' → P s → P s') →
  (∀ s, P s → P (Spec.Build 1 (Spec.inflation s) (Spec.own s) (Spec.stakes s))) →
  P (Spec.initial config) →
  cur_valid c → Forall (λ '(_, _, balance), 0 <= balance < U128) stakers →
  genesis_build signed_by stakers (empty_world config c) = Done tt w → P (abs w).
Proof using CL SL CF IO.
  intros HP HR H0 Hc Hst E.
  assert (wp (genesis_build signed_by stakers) (λ o, match o with Done _ w' => P (abs w') | _ => True end)
    (empty_world config c)) as H; [|unfold wp in H; by rewrite E in H].
  unfold genesis_build. apply wp_bind. apply (wp_for_each (λ w, sound w ∧ P (abs w))).
  - split; [by apply empty_world_sound|].
    change (abs (empty_world config c)) with
      (Spec.Build 0 config (abs_candidate <$> ∅) (abs_stakes <$> ∅)).
    by rewrite !fmap_empty.
  - intros [[actor opt_val] balance] w' Hin [Hs HPw].
    rewrite Forall_forall in Hst. specialize (Hst _ Hin). cbn in Hst.
    assert (∀ call, is_join call → Spec.unsigned call → orderly_call w' (signed_by actor) call →
      wp (ignore_error (dispatch (signed_by actor) call))
        (λ o, match o with Done _ w'' => sound w'' ∧ P (abs w'') | _ => True end) w') as Hcall.
    { intros call Hj Hu Ho. apply wp_ignore_error.
      eapply wp_mono; [|apply wp_and; [by apply (dispatch_refines _ _ w' Ho Hs)|apply wp_and;
        [apply (orderly_dispatch_sound _ _ w' Ho Hs)|by apply dispatch_sound_settled]]].
      intros [u w2|e w2|]; cbn [refined if_done settled]; [|by intros (_ & _ & ->)|done].
      intros ([Hstep _] & Hs2 & _). split; [done|]. by eapply HP. }
    unfold genesis_staker. apply wp_bind, wp_gets. cbn [bind_post].
    apply wp_bind, wp_assert; [|done]. intros _. cbn [bind_post].
    destruct opt_val as [v|].
    + eapply wp_mono; [|by apply (Hcall (Call_join_nominators v balance)); cbn; lia]. by intros [].
    + eapply wp_mono; [|by apply (Hcall (Call_join_candidates 0 balance)); cbn; lia]. by intros [].
  - intros w' [[Hp _] HPw]. cbn [bind_post]. apply wp_bind, wp_best_candidates; [done|].
    intros evs l. cbn [bind_post]. stake_run. by apply (HR (abs w')).
Qed.
End rounds.
