(* ===== verification/Drift.v ===== *)
(** * How far [Total] is from the stake

    [Total] is documented as the total that is locked. Every operation of the pallet that
    changes the total of a candidate changes [Total] by as much, but for four: the calls
    that raise or lower a bond or a nomination. The difference between the two sums is
    therefore what these calls have moved, to the unit, modulo the width of the type. *)

From S2P Require Import Prelude OrderedSet Frame StakeTypes BondMap Inflation Stake.
From S2P Require Import StakeLogic Registry Books Solvency.

(** ** Sums modulo the width *)

Lemma u128_plus_width x k : u128 (x + k * U128) = u128 x.
Proof. apply Z_mod_plus_full. Qed.

Lemma u128_split x : ∃ k, u128 x = x + k * U128.
Proof.
  exists (- (x / U128)). unfold u128. pose proof (Z.div_mod x U128 ltac:(unfold U128; lia)). lia.
Qed.

Lemma u128_unique x y k : is_u128 x → x = y + k * U128 → x = u128 y.
Proof. intros Hx E. rewrite <-(u128_plus_width y k), <-E. symmetry. by apply u128_small. Qed.

(** [b] is [a] and [x], up to the width, and of the type if [a] is. *)
Definition shifted (x a b : Z) : Prop :=
  (is_u128 a → is_u128 b) ∧ ∃ k, b = a + x + k * U128.

Lemma shifted_refl a : shifted 0 a a.
Proof. split; [done|]. exists 0. lia. Qed.
Lemma shifted_add x a : shifted x a (u128 (a + x)).
Proof. split; [intros _; apply u128_range|apply u128_split]. Qed.
Lemma shifted_sub x a : shifted (- x) a (u128 (a - x)).
Proof. apply shifted_add. Qed.
(** Up to the projections of records. *)
Ltac shift := first [apply shifted_refl|apply shifted_add|apply shifted_sub].

Section drift.
Context {Origin Cur : Type}.
Context `{FO : FrameOrigin Origin, MO : MonetaryPolicyOrigin Origin, CU : Currency Cur}.
Context {CL : CurrencyLaws Cur}.
Context `{PO : PerbillOps, US : UnstableSort, IO : IterationOrder, SC : StakeConfig}.
Context {SL : UnstableSortLaws} {CF : StakeConfigLaws}.
Implicit Types (w : World Cur) (origin : Origin).

(** What the candidates have at stake together. *)
Definition candidates_total w : Z := map_zsum Validator.total (Candidates w).

(** [Total] is behind by [d]. *)
Definition behind (d : Z) w : Prop := Total w = u128 (candidates_total w - d).

(** The operation puts [Total] behind by [d] more. *)
Definition lags {A} (d : Z) w (o : Outcome (World Cur) (DispatchError Error) A) : Prop :=
  match o with Done _ w' => ∀ e, behind e w → behind (e + d) w' | _ => True end.

Lemma behind_intro d w k :
  is_u128 (Total w) → Total w = candidates_total w - d + k * U128 → behind d w.
Proof. apply u128_unique. Qed.

Lemma behind_elim d w :
  behind d w → is_u128 (Total w) ∧ ∃ k, Total w = candidates_total w - d + k * U128.
Proof. unfold behind. intros ->. split; [apply u128_range|apply u128_split]. Qed.

(** The total of a candidate changes by [x], and [Total] by [y]. *)
Lemma behind_insert d x y w w' v c c' :
  behind d w → Candidates w !! v = Some c → Candidates w' = <[v:=c']> (Candidates w) →
  shifted x (Validator.total c) (Validator.total c') → shifted y (Total w) (Total w') →
  behind (d + x - y) w'.
Proof.
  intros [Hr [k Hk]]%behind_elim Hc HC [_ [i Ht]] [Hw [j HT]].
  apply (behind_intro _ _ (k + j - i)); [auto|].
  unfold candidates_total in *. rewrite HC, (map_zsum_insert _ _ _ c), Ht, HT, Hk by done. lia.
Qed.

Lemma behind_join d w w' v c :
  behind d w → Candidates w !! v = None → Candidates w' = <[v:=c]> (Candidates w) →
  shifted (Validator.total c) (Total w) (Total w') → behind d w'.
Proof.
  intros [Hr [k Hk]]%behind_elim Hc HC [Hw [i HT]]. apply (behind_intro _ _ (k + i)); [auto|].
  unfold candidates_total in *. rewrite HC, map_zsum_insert_new, HT, Hk by done. lia.
Qed.

Lemma behind_exit d w w' v c :
  behind d w → Candidates w !! v = Some c → Candidates w' = delete v (Candidates w) →
  shifted (- Validator.total c) (Total w) (Total w') → behind d w'.
Proof.
  intros [Hr [k Hk]]%behind_elim Hc HC [Hw [i HT]]. apply (behind_intro _ _ (k + i)); [auto|].
  unfold candidates_total in *. rewrite HC, (map_zsum_delete _ _ _ c), HT, Hk by done. lia.
Qed.

Lemma behind_same d w w' :
  Candidates w' = Candidates w → Total w' = Total w → behind d w → behind d w'.
Proof. unfold behind, candidates_total. by intros -> ->. Qed.

(** ** The calls *)

(** What a call moves past [Total]. *)
Definition unrecorded (call : Call) : Z :=
  match call with
  | Call_candidate_bond_more more | Call_nominator_bond_more _ more => more
  | Call_candidate_bond_less less | Call_nominator_bond_less _ less => - less
  | _ => 0
  end.

(** A handler that writes one candidate: [update_active] has no part in it. *)
Ltac writes_candidate x y :=
  match goal with |- lags ?d _ _ =>
    intros e He; replace (e + d) with (e + x - y) by lia;
    eapply (behind_insert e x y); [exact He|eassumption|wsimpl; reflexivity|shift..]
  end.

Lemma join_candidates_lags origin fee bond w :
  wp (join_candidates origin fee bond) (lags 0 w) w.
Proof.
  unfold join_candidates. stake_run; try done. destruct (OrderedSet.insert _ _) as [i pool].
  stake_run; try done. intros e He. rewrite Z.add_0_r.
  eapply behind_join; [exact He| |wsimpl; reflexivity|shift].
  match goal with H : negb (is_candidate w a) = true |- _ => unfold is_candidate in H end.
  by destruct (Candidates w !! a).
Qed.

Lemma leave_candidates_lags origin w :
  pool_inv w → wp (leave_candidates origin) (lags 0 w) w.
Proof.
  intros [Hreg _]. unfold leave_candidates. stake_run; try done.
  destruct (OrderedSet.insert _ _) as [i queue]. stake_run; try done.
  apply wp_remove_from_pool; [apply Hreg|]. intros pool _ _. cbn [bind_post]. stake_run.
  writes_candidate 0 0.
Qed.

Lemma go_offline_lags origin w : pool_inv w → wp (go_offline origin) (lags 0 w) w.
Proof.
  intros [Hreg _]. unfold go_offline. stake_run; try done.
  apply wp_remove_from_pool; [apply Hreg|]. intros pool _ _. cbn [bind_post]. stake_run.
  writes_candidate 0 0.
Qed.

Lemma go_online_lags origin w : wp (go_online origin) (lags 0 w) w.
Proof.
  unfold go_online. stake_run; try done. destruct (OrderedSet.insert _ _) as [i pool].
  stake_run; try done. writes_candidate 0 0.
Qed.

Lemma candidate_bond_more_lags origin more w :
  pool_inv w → wp (candidate_bond_more origin more) (lags more w) w.
Proof.
  intros [Hreg _]. unfold candidate_bond_more. stake_run; try done. skip_update Hreg.
  writes_candidate more 0.
Qed.

Lemma candidate_bond_less_lags origin less w :
  pool_inv w → wp (candidate_bond_less origin less) (lags (- less) w) w.
Proof.
  intros [Hreg _]. unfold candidate_bond_less. stake_run; try done.
  unfold Validator.bond_less. destruct (_ >? less); stake_run; try done. skip_update Hreg.
  writes_candidate (- less) 0.
Qed.

Lemma nominator_joins_validator_lags a x v w :
  pool_inv w → wp (nominator_joins_validator a x v) (lags 0 w) w.
Proof.
  intros [Hreg _]. unfold nominator_joins_validator. stake_run; try done.
  destruct (OrderedSet.insert _ _) as [i noms]. stake_run; try done. skip_update Hreg.
  writes_candidate x x.
Qed.

Lemma nominator_leaves_validator_lags a v w :
  pool_inv w → wp (nominator_leaves_validator a v) (lags 0 w) w.
Proof.
  intros [Hreg _]. unfold nominator_leaves_validator. stake_run; try done.
  destruct (extract_bond _ _ _) as [o noms]. stake_run; try done.
  match goal with H : o = Some ?y |- _ => rename y into x end. skip_update Hreg.
  writes_candidate (- x) (- x).
Qed.

(** What comes after, without a candidate or [Total]. *)
Lemma lags_then {A B} d (m : Prog (World Cur) (DispatchError Error) A)
    (k : A → Prog (World Cur) (DispatchError Error) B) w :
  wp m (lags d w) w →
  (∀ a w1, wp (k a) (λ o, match o with
    | Done _ w2 => Candidates w2 = Candidates w1 ∧ Total w2 = Total w1 | _ => True end) w1) →
  wp m (bind_post k (lags d w)) w.
Proof.
  intros Hm Hk. eapply wp_mono; [|exact Hm].
  intros [a w1|? ?|]; cbn [bind_post lags]; [|done..]. intros H.
  eapply wp_mono; [|apply Hk]. intros [b w2|? ?|]; [|done..]. intros [HC HT] e He.
  eapply behind_same; [done|done|]. by apply H.
Qed.

Lemma join_nominators_lags origin v x w :
  pool_inv w → wp (join_nominators origin v x) (lags 0 w) w.
Proof.
  intros Hp. unfold join_nominators. stake_run; try done.
  apply lags_then; [by apply nominator_joins_validator_lags|]. intros _ w1. by stake_run.
Qed.

Lemma nominate_new_lags origin v x w :
  pool_inv w → wp (nominate_new origin v x) (lags 0 w) w.
Proof.
  intros [Hreg _]. unfold nominate_new. stake_run; try done.
  destruct (Nominator.add_nomination _ _) as [added n]. stake_run; try done.
  destruct (OrderedSet.insert _ _) as [i noms]. stake_run; try done. skip_update Hreg.
  writes_candidate x x.
Qed.

Lemma revoke_nomination_lags origin v w :
  pool_inv w → wp (revoke_nomination origin v) (lags 0 w) w.
Proof.
  intros Hp. unfold revoke_nomination, nominator_revokes_validator. stake_run; try done.
  destruct (Nominator.rm_nomination _ _) as [o n]. stake_run; try done.
  apply lags_then; [by apply nominator_leaves_validator_lags|]. intros _ w1. by stake_run.
Qed.

Lemma nominator_bond_more_lags origin v more w :
  sound w → wp (nominator_bond_more origin v more) (lags more w) w.
Proof.
  intros [[Hreg Hn] [_ Hb]]. unfold nominator_bond_more. stake_run; try done.
  rename a0 into n, a1 into c.
  assert (sorted (Validator.nominators c)) as Hsc by by eapply (cand_sorted _ _ _ Hb).
  assert (sorted (Nominator.nominations n)) as Hsn by by eapply (nom_sorted _ _ _ Hb).
  rewrite inc_nomination_eq, inc_nominator_eq by done.
  rewrite (bilateral_lookup _ _ _ v a c n Hb) by done.
  destruct (bond_map (Nominator.nominations n) !! v); stake_run; try done. skip_update Hreg.
  writes_candidate more 0.
Qed.

Lemma nominator_bond_less_lags origin v less w :
  sound w → wp (nominator_bond_less origin v less) (lags (- less) w) w.
Proof.
  intros [[Hreg Hn] [_ Hb]]. unfold nominator_bond_less. stake_run; try done.
  rename a0 into n, a1 into c.
  assert (sorted (Validator.nominators c)) as Hsc by by eapply (cand_sorted _ _ _ Hb).
  assert (sorted (Nominator.nominations n)) as Hsn by by eapply (nom_sorted _ _ _ Hb).
  rewrite dec_nomination_eq, dec_nominator_eq by done.
  rewrite (bilateral_lookup _ _ _ v a c n Hb) by done.
  destruct (bond_map (Nominator.nominations n) !! v) as [y|]; [destruct (y >? less)|];
    stake_run; simplify_eq; try done. skip_update Hreg. writes_candidate (- less) 0.
Qed.

(** The amount of the nomination goes from one candidate to the other. *)
Lemma switch_nomination_lags origin old new w :
  ¬ merges w origin new → sound w → wp (switch_nomination origin old new) (lags 0 w) w.
Proof.
  intros Hnew [Hpool [Hc Hb]]. unfold switch_nomination. stake_run; try done.
  rename a0 into n, a1 into co, a2 into cn.
  assert (old ≠ new) as Hne by by apply Z.eqb_neq, negb_true_iff.
  assert (sorted (Nominator.nominations n)) as Hsn by by eapply (nom_sorted _ _ _ Hb).
  assert (sorted (Validator.nominators co)) as Hso by by eapply (cand_sorted _ _ _ Hb).
  assert (sorted (Validator.nominators cn)) as Hsc by by eapply (cand_sorted _ _ _ Hb).
  assert (bond_map (Nominator.nominations n) !! new = None) as Hnone.
  { destruct (bond_map (Nominator.nominations n) !! new) eqn:E; [|done]. exfalso.
    apply Hnew. exists a. split; [done|]. unfold nomination.
    match goal with H : Nominators w !! a = Some n |- _ => rewrite H end. by eexists. }
  pose proof (swap_nomination_eq n old new Hsn) as Hsw. cbn zeta in Hsw.
  destruct (Nominator.swap_nomination n old new) as [o n']. rewrite Hnone in Hsw.
  destruct Hsw as (_ & _ & Hsw). stake_run; try done.
  destruct (bond_map (Nominator.nominations n) !! old) as [y|] eqn:Ey; [|naive_solver].
  destruct Hsw as [-> _]. match goal with H : Some (y, y) = Some ?p |- _ => injection H as <- end.
  rewrite rm_nominator_eq, (bilateral_lookup _ _ _ old a co n Hb), Ey by done.
  cbn zeta beta iota. destruct (Z.gtb_spec y y) as [?|_]; [lia|].
  destruct (add_nominator_eq cn a y Hsc) as (l & -> & _).
  apply wp_bind, wp_update_active; [apply Hpool|]. intros pool1 Hp1 _. cbn [bind_post].
  apply wp_bind, wp_update_active; [done|]. intros pool2 _ _. cbn [bind_post]. stake_run.
  intros e He. replace (e + 0) with (e + - y - 0 + y - 0) by lia.
  eapply (behind_insert _ y 0 (set_Candidates (<[old:=_]> (Candidates w)) w));
    [eapply (behind_insert e (- y) 0 w)|..]; wsimpl; try reflexivity; try done; try shift.
  by rewrite lookup_insert_ne.
Qed.

Lemma leave_nominators_lags origin w :
  pool_inv w → wp (leave_nominators origin) (lags 0 w) w.
Proof.
  intros Hp. unfold leave_nominators. stake_run; try done.
  apply (wp_for_each (λ w', pool_inv w' ∧ ∀ e, behind e w → behind e w')); [done| |].
  - intros x w' _ [Hp' Hb].
    eapply wp_mono; [|apply wp_and; [by apply (nominator_leaves_validator_settled a (owner x) w')|
      by apply (nominator_leaves_validator_lags a (owner x) w')]].
    intros [u w''|? ?|]; [|done..]. intros [[Hp'' _] Hl]. split; [done|].
    intros e He. rewrite <-(Z.add_0_r e). by apply Hl, Hb.
  - intros w' [_ Hb]. cbn [bind_post]. stake_run. intros e He. rewrite Z.add_0_r.
    by eapply behind_same; [..|apply Hb].
Qed.

Lemma same_lags {A} w (o : Outcome (World Cur) (DispatchError Error) A) :
  match o with Done _ w' => Candidates w' = Candidates w ∧ Total w' = Total w | _ => True end →
  lags 0 w o.
Proof.
  destruct o as [a w'|? ?|]; [|done..]. intros [HC HT] e He. rewrite Z.add_0_r.
  by eapply behind_same.
Qed.

#[local] Hint Resolve join_candidates_lags leave_candidates_lags go_offline_lags go_online_lags
  candidate_bond_more_lags candidate_bond_less_lags join_nominators_lags nominate_new_lags
  revoke_nomination_lags nominator_bond_more_lags nominator_bond_less_lags
  leave_nominators_lags switch_nomination_lags : handlers.

(** A call puts [Total] behind by what it moves past it. *)
Lemma dispatch_lags origin call w :
  orderly_call w origin call → sound w →
  wp (dispatch origin call) (lags (unrecorded call) w) w.
Proof.
  intros Hcall Hs. pose proof Hs as [Hp _].
  destruct call; cbn [dispatch orderly_call unrecorded] in *; auto with handlers.
  - unfold set_staking_expectations. stake_run; try done. by apply same_lags.
  - unfold set_inflation. stake_run; try done. by apply same_lags.
Qed.

(** ** The end of a block *)

Lemma execute_exit_lags next x w :
  nominators_ok (Nominators w) → wp (execute_exit next x) (lags 0 w) w.
Proof.
  intros Hn. unfold execute_exit. destruct (_ >? _); [by apply wp_ret, same_lags|].
  stake_run. destruct (Candidates w !! owner x) as [c|] eqn:Hc; [|by apply wp_ret, same_lags].
  apply wp_bind. apply exit_nominators_keeps; [done|]. intros noms cur _. cbn [bind_post].
  stake_run. intros e He. rewrite Z.add_0_r.
  by eapply behind_exit; [exact He|exact Hc|wsimpl; reflexivity|shift].
Qed.

Lemma execute_exits_lag next w :
  pool_inv w → wp (execute_delayed_validator_exits next) (lags 0 w) w.
Proof.
  intros Hp. unfold execute_delayed_validator_exits. stake_run.
  apply (wp_filter_map_each (λ xs ys w',
    exits_inv w next xs ys w' ∧ ∀ e, behind e w → behind e w')).
  - split; [|done]. destruct Hp as (_ & Hn & _). unfold exits_inv. by split_and!.
  - intros x xs ys w' _ _ [HI Hb].
    eapply wp_mono; [|apply wp_and; [by apply execute_exit_inv|apply (execute_exit_lags next x w')]].
    + intros [o w''|? ?|]; [|done..]. intros [HI' Hl]. split; [done|].
      intros e He. rewrite <-(Z.add_0_r e). by apply Hl, Hb.
    + apply HI.
  - intros ys w' [_ Hb]. cbn [bind_post]. apply wp_modify. intros e He. rewrite Z.add_0_r.
    by eapply behind_same; [..|apply Hb].
Qed.

Lemma on_finalize_lags n w : pool_inv w → wp (on_finalize n) (lags 0 w) w.
Proof using SL.
  intros Hp. unfold on_finalize. apply wp_bind, wp_assert; [|done]. intros _. cbn [bind_post].
  apply wp_when; intros _; [|by apply same_lags]. stake_run. set (next := Round w ⊞ 1).
  eapply wp_mono; [|apply (pay_stakers_ends next (λ w', same_registry w w' ∧ Total w' = Total w))].
  2: done. 2: by intros w' amt to Hw'; apply wp_mint. 2-3: done.
  intros [u w1|? ?|]; cbn [bind_post ends]; [|done..]. intros [Hsame HT].
  pose proof (same_registry_inv _ _ Hsame Hp) as Hp1. destruct Hsame as (HC & _).
  apply wp_bind. eapply wp_mono; [|apply wp_and;
    [by apply execute_exits_pool|by apply (execute_exits_lag next w1)]].
  intros [u2 w2|? ?|]; cbn [bind_post ends lags]; [|done..]. intros [Hp2 Hl].
  apply wp_bind, wp_best_candidates; [done|]. intros evs l. cbn [bind_post]. stake_run.
  intros e He. eapply behind_same; [| |apply Hl, (behind_same _ w); [exact HC|exact HT|done]]; done.
Qed.

(** ** Chains *)

(** An orderly step, with what it moves past [Total]. *)
Inductive counted_step w : Z → World Cur → Prop :=
| counted_call origin call u w' :
    orderly_call w origin call → dispatch origin call w = Done u w' →
    counted_step w (unrecorded call) w'
| counted_failed origin call e w' :
    orderly_call w origin call → dispatch origin call w = Failed e w' → counted_step w 0 w'
| counted_finalize n u w' : on_finalize n w = Done u w' → counted_step w 0 w'
| counted_author a u w' : note_author a w = Done u w' → counted_step w 0 w'
| counted_currency c :
    cur_valid c → (∀ a, reserved_balance (currency w) a <= reserved_balance c a) →
    counted_step w 0 (set_currency c w)
| counted_clear_events : counted_step w 0 (set_events [] w).

(** Chains, with the sum. *)
Inductive moves_past : Z → World Cur → World Cur → Prop :=
| past_none w : moves_past 0 w w
| past_step d d' w1 w2 w3 :
    counted_step w1 d w2 → moves_past d' w2 w3 → moves_past (d + d') w1 w3.

Lemma counted_orderly w d w' : counted_step w d w' → orderly_step w w'.
Proof. intros []; by econstructor. Qed.

Lemma orderly_counted w w' : orderly_step w w' → ∃ d, counted_step w d w'.
Proof. intros []; eexists; by econstructor. Qed.

(** Every orderly chain is one of these. *)
Lemma orderly_moves_past w w' : rtc orderly_step w w' → ∃ d, moves_past d w w'.
Proof.
  induction 1 as [w|w1 w2 w3 [d Hd]%orderly_counted _ [d' IH]]; [exists 0; constructor|].
  exists (d + d'). by econstructor.
Qed.

Lemma lags_run {A} d e (m : Prog (World Cur) (DispatchError Error) A) w u w' :
  wp m (lags d w) w → m w = Done u w' → behind e w → behind (e + d) w'.
Proof. unfold wp. intros H E. rewrite E in H. apply H. Qed.

Lemma counted_behind d e w w' :
  counted_step w d w' → sound w → behind e w → behind (e + d) w'.
Proof using CL SL CF.
  intros Hst Hs. destruct Hst as [origin call u w' Hc E|origin call f w' Hc E|n u w' E|a u w' E|c ? ?|].
  - by eapply lags_run; [apply dispatch_lags|exact E].
  - pose proof (dispatch_sound_settled origin call w Hs) as H. unfold wp in H. rewrite E in H.
    cbn in H. subst. by rewrite Z.add_0_r.
  - by eapply lags_run; [apply on_finalize_lags, Hs|exact E].
  - rewrite Z.add_0_r. unfold note_author in E. cbn in E. injection E as _ <-. by apply behind_same.
  - rewrite Z.add_0_r. by apply behind_same.
  - rewrite Z.add_0_r. by apply behind_same.
Qed.

Lemma moves_past_behind d e w w' :
  moves_past d w w' → sound w → behind e w → behind (e + d) w'.
Proof using CL SL CF.
  intros H. revert e. induction H as [w|d d' w1 w2 w3 Hst _ IH]; intros e Hs He.
  { by rewrite Z.add_0_r. }
  rewrite Z.add_assoc. apply IH; [|by eapply counted_behind].
  by eapply orderly_step_sound; [by eapply counted_orderly|].
Qed.

Lemma moves_past_sound d w w' : moves_past d w w' → sound w → sound w'.
Proof using CL SL CF.
  induction 1 as [w|d d' w1 w2 w3 Hst _ IH]; [done|]. intros Hs. apply IH.
  by eapply orderly_step_sound; [by eapply counted_orderly|].
Qed.

(** Genesis puts nothing past [Total]. *)
Lemma genesis_behind signed_by config c stakers w :
  cur_valid c → Forall (λ '(_, _, balance), 0 <= balance < U128) stakers →
  genesis_build signed_by stakers (empty_world config c) = Done tt w → behind 0 w.
Proof using CL SL CF MO FO IO PO.
  intros Hc Hst E.
  assert (wp (genesis_build signed_by stakers)
    (λ o, match o with Done _ w' => behind 0 w' | _ => True end) (empty_world config c)) as H;
    [|unfold wp in H; by rewrite E in H].
  unfold genesis_build. apply wp_bind. apply (wp_for_each (λ w, sound w ∧ behind 0 w)).
  - split; [by apply empty_world_sound|]. done.
  - intros [[actor opt_val] balance] w' Hin [Hs Hb].
    rewrite Forall_forall in Hst. specialize (Hst _ Hin). cbn in Hst.
    assert (∀ call, unrecorded call = 0 → orderly_call w' (signed_by actor) call →
      wp (ignore_error (dispatch (signed_by actor) call))
        (λ o, match o with Done _ w'' => sound w'' ∧ behind 0 w'' | _ => True end) w') as Hcall.
    { intros call Hu Ho. apply wp_ignore_error. unfold wp.
      destruct (dispatch (signed_by actor) call w') as [u w2|e w2|] eqn:E2; [|..|done].
      - split; [eapply orderly_step_sound; [by econstructor 1|done]|].
        change 0 with (0 + 0). rewrite <-Hu at 2. eapply counted_behind; [by econstructor 1|done..].
      - pose proof (dispatch_sound_settled (signed_by actor) call _ Hs) as H. unfold wp in H. rewrite E2 in H.
        by rewrite H. }
    unfold genesis_staker. apply wp_bind, wp_gets. cbn [bind_post].
    apply wp_bind, wp_assert; [|done]. intros _. cbn [bind_post].
    destruct opt_val as [v|].
    + eapply wp_mono; [|by apply (Hcall (Call_join_nominators v balance)); cbn; lia]. by intros [].
    + eapply wp_mono; [|by apply (Hcall (Call_join_candidates 0 balance)); cbn; lia]. by intros [].
  - intros w' [[Hp _] Hb]. cbn [bind_post]. apply wp_bind, wp_best_candidates; [done|].
    intros evs l. cbn [bind_post]. stake_run. by apply (behind_same 0 w').
Qed.

(** ** The width is enough for the stake *)

(** What all candidates have is what all accounts have at stake. *)
Lemma candidates_total_staked (cands : gmap Z Validator.t) noms res l :
  books cands noms res → NoDup l →
  (∀ a, is_Some (cands !! a) ∨ is_Some (noms !! a) → a ∈ l) →
  map_zsum Validator.total cands = zsum (staked cands noms) l.
Proof.
  intros Hb Hl Hin. unfold staked. rewrite zsum_add.
  assert (∀ v c, cands !! v = Some c → map_sum (bond_map (Validator.nominators c)) =
    zsum (λ a, default 0 (nomination noms a v)) l) as Hback.
  { intros v c Hv. unfold map_sum. rewrite (map_zsum_keys _ _ l); [|done|].
    - apply zsum_ext. intros a _. rewrite (bilateral _ _ _ Hb). unfold backing. by rewrite Hv.
    - intros a [x Hx]. apply Hin. right. pose proof (bilateral _ _ _ Hb a v) as H.
      unfold nomination, backing in H. rewrite Hv in H. cbn in H. rewrite Hx in H.
      destruct (noms !! a); [by eexists|done]. }
  rewrite (map_zsum_keys _ _ l) by (naive_solver || done).
  assert (zsum (nominated noms) l =
    zsum (λ a, zsum (λ v, default 0 (nomination noms a v)) l) l) as ->.
  { apply zsum_ext. intros a _. unfold nominated, nomination.
    destruct (noms !! a) as [n|] eqn:Ha; cbn; [|by clear; induction l].
    rewrite (nom_total _ _ _ Hb a n Ha). unfold map_sum. apply map_zsum_keys; [done|].
    intros v [x Hx]. apply Hin. left. pose proof (bilateral _ _ _ Hb a v) as H.
    unfold nomination, backing in H. rewrite Ha in H. cbn in H. rewrite Hx in H.
    destruct (cands !! v); [by eexists|done]. }
  rewrite zsum_swap, <-zsum_add. apply zsum_ext. intros v _. unfold own_bond.
  destruct (cands !! v) as [c|] eqn:Hv.
  - by rewrite (cand_total _ _ _ Hb v c Hv), (Hback v c Hv).
  - assert (zsum (λ a, default 0 (nomination noms a v)) l = 0) as ->; [|done].
    clear Hl Hin Hback. induction l as [|a l IH]; [done|]. rewrite zsum_cons, IH.
    rewrite (bilateral _ _ _ Hb). unfold backing. by rewrite Hv.
Qed.

Lemma candidates_total_range w : sound w → 0 <= candidates_total w < U128.
Proof using CL.
  intros [_ [Hc Hb]]. set (l := elements (dom (Candidates w) ∪ dom (Nominators w))).
  unfold candidates_total. rewrite (candidates_total_staked _ _ _ l Hb).
  - split.
    + apply zsum_nonneg. intros a _. unfold staked.
      pose proof (own_bond_nonneg Hb a). pose proof (nominated_nonneg Hb a). lia.
    + eapply Z.le_lt_trans; [|apply (reserved_issued (currency w) l Hc), NoDup_elements].
      apply zsum_le. intros a _. apply (backed _ _ _ Hb).
  - apply NoDup_elements.
  - intros a Ha. apply elem_of_elements, elem_of_union. rewrite !elem_of_dom. done.
Qed.
End drift.
