(* ===== verification/ExitProgress.v ===== *)
(** * Exits make progress

    A candidate that leaves stays on its way out, with the round it was given, until that
    round begins; then it is removed. Shown on the machine of [Spec.v], and transferred
    to the chains of the pallet. *)

From S2P Require Import Prelude OrderedSet Frame StakeTypes BondMap Inflation Stake.
From S2P Require Import StakeLogic Registry Books Solvency Rounds Spec Refinement RoundRefinement.

(** The status of a candidate of the machine. *)
Definition leaves_in (s : Spec.t) (v : AccountId) (r : RoundIndex) : Prop :=
  ∃ c, Spec.own s !! v = Some c ∧ Spec.status c = Leaving r.

Section machine.
Context {Origin : Type}.
Context `{FO : FrameOrigin Origin, MO : MonetaryPolicyOrigin Origin}.
Context `{PO : PerbillOps, SC : StakeConfig}.

(** Every exit is in the future, and at most [BondDuration] rounds away. *)
Definition pending (s : Spec.t) : Prop :=
  ∀ v r, leaves_in s v r → Spec.now s < r <= Spec.now s + BondDuration.

Lemma leaves_in_put s a c v r :
  leaves_in (Spec.put_own a c s) v r ↔
    if decide (v = a) then Spec.status c = Leaving r else leaves_in s v r.
Proof.
  unfold leaves_in, Spec.put_own. cbn. split.
  - intros (c' & Hc & Hs). rewrite lookup_insert in Hc.
    destruct (decide (v = a)) as [->|Hne].
    + rewrite decide_True in Hc by done. by injection Hc as ->.
    + rewrite decide_False in Hc by done. eauto.
  - case_decide as Hd.
    + subst. intros H. exists c. by rewrite lookup_insert_eq.
    + intros (c' & Hc & Hs). exists c'. by rewrite lookup_insert_ne.
Qed.

(** What a call finds out about the account it writes. *)
Ltac status_done :=
  unfold Spec.active, Spec.leaving in *; cbn in *;
  repeat match goal with
  | H : leaves_in _ _ _ |- _ => destruct H as (? & ? & ?); simplify_eq
  | H : Spec.status ?c = _, H' : context [Spec.status ?c] |- _ => rewrite H in H'
  end; try done; cbn in *; simplify_eq; auto.

(** A call takes no exit back, and gives out exits after [BondDuration] rounds. *)
Lemma step_leaving origin call s s' :
  Spec.step (Origin := Origin) origin call s = inr s' →
  Spec.now s' = Spec.now s ∧
  (∀ v r, leaves_in s v r → leaves_in s' v r) ∧
  (∀ v r, leaves_in s' v r → leaves_in s v r ∨ r = Spec.now s ⊞ BondDuration).
Proof.
  intros H. assert (∀ s2, Spec.own s2 = Spec.own s → Spec.now s2 = Spec.now s →
    Spec.now s2 = Spec.now s ∧ (∀ v r, leaves_in s v r → leaves_in s2 v r) ∧
    (∀ v r, leaves_in s2 v r → leaves_in s v r ∨ r = Spec.now s ⊞ BondDuration)) as Hsame.
  { intros s2 Ho Hn. unfold leaves_in. rewrite Ho. auto. }
  destruct call; cbn [Spec.step] in H; run_inv;
    unfold Spec.join_candidates, Spec.leave_candidates, Spec.go_offline, Spec.go_online,
      Spec.candidate_bond_more, Spec.candidate_bond_less, Spec.join_nominators,
      Spec.leave_nominators, Spec.nominate_new, Spec.switch_nomination,
      Spec.revoke_nomination, Spec.nominator_bond_more, Spec.nominator_bond_less in *;
    run_inv; try by apply Hsame.
  all: split; [done|]; split; intros v r; rewrite leaves_in_put; case_decide; [subst|done|subst|auto];
    intros Hl.
  all: status_done.
Qed.

(** A call that joins makes nobody leave. *)
Lemma join_leaving origin call s s' v r :
  is_join call → Spec.step (Origin := Origin) origin call s = inr s' →
  leaves_in s' v r → leaves_in s v r.
Proof.
  intros Hj H. destruct call; try done; cbn [Spec.step] in H; run_inv;
    unfold Spec.join_candidates, Spec.join_nominators in *; run_inv; [|done].
  rewrite leaves_in_put. by case_decide.
Qed.

Lemma own_after_removals l s v :
  Spec.own (foldr Spec.remove_candidate s l) !! v =
    if decide (v ∈ l) then None else Spec.own s !! v.
Proof.
  induction l as [|u l IH]; cbn [foldr].
  { rewrite decide_False by apply not_elem_of_nil. done. }
  cbn [Spec.remove_candidate Spec.own]. rewrite lookup_delete, IH.
  repeat case_decide; set_solver.
Qed.

(** The end of a round removes what is due and keeps the other exits. *)
Lemma round_leaving s v r :
  leaves_in (Spec.end_of_round s) v r ↔ leaves_in s v r ∧ Spec.now s ⊞ 1 < r.
Proof.
  unfold leaves_in, Spec.end_of_round. cbn [Spec.own]. rewrite own_after_removals.
  pose proof (due_accounts_elem s v) as Hd.
  unfold Spec.due in Hd. split.
  - intros (c & Hc & Hs). case_decide as Hv; [done|]. split; [by exists c|].
    destruct (Z.leb_spec r (Spec.now s ⊞ 1)) as [Hle|?]; [|done]. exfalso. apply Hv, Hd.
    exists c. rewrite Hs. split; [done|]. by apply Z.leb_le.
  - intros [(c & Hc & Hs) Hlt]. exists c. rewrite decide_False; [done|].
    intros (c' & Hc' & Hdue)%Hd. simplify_eq. rewrite Hs in Hdue. apply Z.leb_le in Hdue. lia.
Qed.

(** A move keeps the exits in the future; one that is due ends with its round. *)
Lemma moves_pending s s' :
  1 <= BondDuration → 0 <= Spec.now s → Spec.now s + 1 + BondDuration < U32 →
  Spec.moves (Origin := Origin) s s' → pending s → pending s'.
Proof.
  intros Hbd Hn Hw [origin call s2 _ Hstep|] Hp v r Hl.
  - destruct (step_leaving _ _ _ _ Hstep) as (-> & _ & Hnew).
    destruct (Hnew v r Hl) as [?| ->]; [by apply (Hp v)|]. rewrite u32_small; lia.
  - apply round_leaving in Hl as [Hl Hlt]. cbn [Spec.end_of_round Spec.now].
    pose proof (Hp v r Hl). rewrite u32_small in * by lia. lia.
Qed.

Lemma moves_exit s s' v r :
  0 <= Spec.now s → Spec.now s + 1 < U32 → Spec.moves (Origin := Origin) s s' →
  leaves_in s v r → Spec.now s < r →
  leaves_in s' v r ∨ Spec.own s' !! v = None ∧ Spec.now s' = r.
Proof.
  intros Hn Hw [origin call s2 _ Hstep|] Hl Hlt.
  - left. by apply (step_leaving _ _ _ _ Hstep).
  - destruct (Z.lt_ge_cases (Spec.now s ⊞ 1) r) as [?|Hge]; [left; by apply round_leaving|].
    right. rewrite u32_small in Hge by lia. split; [|cbn; rewrite u32_small; lia].
    destruct Hl as (c & Hc & Hs). cbn [Spec.end_of_round Spec.own]. rewrite own_after_removals.
    rewrite decide_True; [done|]. apply due_accounts_elem. exists c. split; [done|].
    unfold Spec.due. rewrite Hs.
    apply Z.leb_le. rewrite u32_small; lia.
Qed.
End machine.

(** ** Chains, with their ends of rounds counted *)

Section chains.
Context {Origin Cur : Type}.
Context `{FO : FrameOrigin Origin, MO : MonetaryPolicyOrigin Origin, CU : Currency Cur}.
Context {CL : CurrencyLaws Cur}.
Context `{PO : PerbillOps, US : UnstableSort, IO : IterationOrder, SC : StakeConfig}.
Context {SL : UnstableSortLaws} {CF : StakeConfigLaws}.
Implicit Types (w : World Cur).

(** A chain of orderly steps in which [k] rounds end. *)
Inductive rounds_pass : Z → World Cur → World Cur → Prop :=
| pass_none w : rounds_pass 0 w w
| pass_step k w1 w2 w3 :
    orderly_step w1 w2 → Round w2 = Round w1 → rounds_pass k w2 w3 → rounds_pass k w1 w3
| pass_round k w1 w2 w3 :
    orderly_step w1 w2 → Round w2 = Round w1 ⊞ 1 → rounds_pass k w2 w3 →
    rounds_pass (k + 1) w1 w3.

Lemma rounds_pass_steps k w w' : rounds_pass k w w' → rtc orderly_step w w'.
Proof. induction 1; [done|by eapply rtc_l..]. Qed.

Lemma rounds_pass_nonneg k w w' : rounds_pass k w w' → 0 <= k.
Proof. induction 1; lia. Qed.

Lemma rounds_pass_round k w w' :
  rounds_pass k w w' → 0 <= Round w → Round w + k < U32 → Round w' = Round w + k.
Proof.
  induction 1 as [w|k w1 w2 w3 _ E Hr IH|k w1 w2 w3 _ E Hr IH]; intros Hn Hlt; [lia| |].
  - rewrite <-E. apply IH; lia.
  - pose proof (rounds_pass_nonneg _ _ _ Hr). rewrite u32_small in E by lia. rewrite IH; lia.
Qed.

(** Every orderly chain is one of these: a step ends at most one round. *)
Lemma orderly_step_round w w' :
  orderly_step w w' → sound w → Round w' = Round w ∨ Round w' = Round w ⊞ 1.
Proof using CL SL CF IO.
  intros Hst Hs. destruct (orderly_step_moves w w' Hst Hs) as [E|Hm].
  - left. change (Spec.now (abs w') = Spec.now (abs w)). by rewrite E.
  - change (Spec.now (abs w') = Spec.now (abs w) ∨ Spec.now (abs w') = Spec.now (abs w) ⊞ 1).
    destruct Hm as [origin call s' _ Hstep|]; [left|by right].
    by destruct (step_leaving _ _ _ _ Hstep).
Qed.

Lemma orderly_steps_counted w w' :
  rtc orderly_step w w' → sound w → ∃ k, rounds_pass k w w'.
Proof using CL SL CF IO.
  induction 1 as [|w1 w2 w3 Hst _ IH]; intros Hs; [exists 0; constructor|].
  destruct (IH (orderly_step_sound _ _ Hst Hs)) as [k Hk].
  destruct (orderly_step_round w1 w2 Hst Hs); [exists k|exists (k + 1)]; by econstructor.
Qed.

Lemma rounds_pass_pending k w w' :
  rounds_pass k w w' → sound w → 1 <= BondDuration → 0 <= Round w →
  Round w + k + 1 + BondDuration < U32 → pending (abs w) → pending (abs w').
Proof using CL SL CF IO.
  induction 1 as [w|k w1 w2 w3 Hst E Hr IH|k w1 w2 w3 Hst E Hr IH];
    intros Hs Hbd Hn Hlt Hp; [done|..];
    pose proof (rounds_pass_nonneg _ _ _ Hr); rewrite ?u32_small in E by lia;
    (apply IH; [by eapply orderly_step_sound|lia..|]);
    (destruct (orderly_step_moves _ _ Hst Hs) as [->|Hm]; [done|]);
    (eapply moves_pending; [done| | |done|done]; cbn; lia).
Qed.

(** While the round of an exit has not begun, the candidate is on its way out; in the world
    in which it begins, the candidate is gone. *)
Lemma rounds_pass_exit k w w' v r :
  rounds_pass k w w' → sound w → 1 <= BondDuration → 0 <= Round w →
  Round w + k + 1 + BondDuration < U32 → pending (abs w) → leaves_in (abs w) v r →
  if decide (Round w + k < r) then leaves_in (abs w') v r
  else ∃ w1, rtc orderly_step w w1 ∧ rtc orderly_step w1 w' ∧ Round w1 = r ∧
         Candidates w1 !! v = None.
Proof using CL SL CF IO.
  intros Hpass. revert v r.
  assert (∀ k w1 w2 w3 v r, orderly_step w1 w2 → rounds_pass k w2 w3 → sound w1 →
    1 <= BondDuration → 0 <= Round w1 → Round w1 + 1 < U32 → pending (abs w1) → leaves_in (abs w1) v r →
    (leaves_in (abs w2) v r → if decide (Round w2 + k < r) then leaves_in (abs w3) v r
      else ∃ w1', rtc orderly_step w2 w1' ∧ rtc orderly_step w1' w3 ∧ Round w1' = r ∧
         Candidates w1' !! v = None) →
    if decide (Round w2 + k < r) then leaves_in (abs w3) v r
    else ∃ w1', rtc orderly_step w1 w1' ∧ rtc orderly_step w1' w3 ∧ Round w1' = r ∧
         Candidates w1' !! v = None) as Hstep.
  { clear -CL SL CF. intros k w1 w2 w3 v r Hst Hr Hs Hbd Hn Hlt Hp Hl IH.
    pose proof (rounds_pass_nonneg _ _ _ Hr) as Hk.
    assert (leaves_in (abs w2) v r ∨ Spec.own (abs w2) !! v = None ∧ Round w2 = r) as [Hl2|[Hv HR]].
    { destruct (orderly_step_moves _ _ Hst Hs) as [->|Hm]; [by left|].
      by eapply (moves_exit (abs w1)); [..|apply (Hp v)]. }
    - specialize (IH Hl2). case_decide; [done|]. destruct IH as (w1' & H1 & H2 & H3).
      exists w1'. split; [by eapply rtc_l|done].
    - rewrite decide_False by lia. exists w2. split; [by apply rtc_once|].
      split; [by eapply rounds_pass_steps|]. split; [done|]. rewrite own_abs in Hv.
      by destruct (Candidates w2 !! v). }
  induction Hpass as [w|k w1 w2 w3 Hst E Hr IH|k w1 w2 w3 Hst E Hr IH];
    intros v r Hs Hbd Hn Hlt Hp Hl.
  - pose proof (Hp v r Hl) as [Hlt' _]. cbn in Hlt'. rewrite decide_True by lia. done.
  - pose proof (rounds_pass_nonneg _ _ _ Hr). rewrite <-E.
    apply (Hstep k w1 w2 w3); try done; try lia. intros Hl2. apply IH; try done; try lia.
    + by eapply orderly_step_sound.
    + eapply (rounds_pass_pending 0 w1 w2); try done; try lia. by eapply pass_step; [..|constructor].
  - pose proof (rounds_pass_nonneg _ _ _ Hr). rewrite u32_small in E by lia.
    replace (Round w1 + (k + 1)) with (Round w2 + k) by lia.
    apply (Hstep k w1 w2 w3); try done; try lia. intros Hl2. apply IH; try done; try lia.
    + by eapply orderly_step_sound.
    + eapply (rounds_pass_pending (0 + 1) w1 w2); try done; try lia.
      eapply pass_round; [done| |constructor]. rewrite u32_small; lia.
Qed.

(** At genesis it is round 1, and nobody leaves. *)
Lemma genesis_starts signed_by config c stakers w :
  cur_valid c → Forall (λ '(_, _, balance), 0 <= balance < U128) stakers →
  1 <= BondDuration →
  genesis_build signed_by stakers (empty_world config c) = Done tt w →
  Round w = 1 ∧ pending (abs w).
Proof using CL SL CF IO PO MO.
  intros Hc Hst Hbd E.
  assert (∀ v r, ¬ leaves_in (abs w) v r) as Hno.
  { eapply (genesis_invariant (λ s, ∀ v r, ¬ leaves_in s v r));
      [|intros s Hno v r; apply Hno| |exact Hc|exact Hst|exact E].
    - intros origin call s s' Hj _ Hstep Hno v r Hl.
      by apply (Hno v r), (join_leaving origin call s s').
    - intros v r (d & Hd & _). cbn in Hd. by rewrite lookup_empty in Hd. }
  split; [|intros v r Hl; by apply Hno in Hl].
  assert (wp (genesis_build signed_by stakers)
    (λ o, match o with Done _ w' => Round w' = 1 | _ => True end) (empty_world config c)) as H;
    [|unfold wp in H; by rewrite E in H].
  unfold genesis_build. apply wp_bind. apply (wp_for_each (λ _, True)); [done| |].
  - intros x w' _ _. unfold wp. by destruct (genesis_staker _ _ _).
  - intros w' _. cbn [bind_post]. apply wp_bind. unfold wp.
    destruct (best_candidates_become_validators 1 w') as [[? ?] ?|?|]; cbn [bind_post]; [|done..].
    stake_run. done.
Qed.
End chains.
