(* ===== verification/Widths.v ===== *)
(** * Every stored number is of its type

    The source stores [u32] rounds and points, [u128] amounts and [Perbill] fees and
    rates; the model stores integers, with the wrap-around of each addition and
    subtraction written out. Here: every operation on stored data that is within the
    types leaves it within the types, merged nominations and wrapped totals included. *)

From S2P Require Import Prelude OrderedSet Frame StakeTypes BondMap Inflation Stake.
From S2P Require Import StakeLogic Registry Rounds.

Create HintDb typed discriminated.

Lemma is_u128_wrap x : is_u128 (u128 x).
Proof. apply u128_range. Qed.
Lemma is_u32_wrap x : is_u32 (u32 x).
Proof. apply u32_range. Qed.
Lemma is_u128_0 : is_u128 0.
Proof. by split. Qed.
Lemma is_u32_0 : is_u32 0.
Proof. by split. Qed.
#[export] Hint Resolve is_u128_wrap is_u32_wrap is_u128_0 is_u32_0 : typed.

(** ** Vectors *)

Section vectors.
Context {T : Type} `{!Ord T} (P : T → Prop).

Lemma insert_Forall (l : list T) v : Forall P l → P v → Forall P (OrderedSet.insert l v).2.
Proof.
  intros Hl Hv. unfold OrderedSet.insert. destruct (binary_search l v); [done|].
  apply Forall_app. split; [by apply Forall_take|]. constructor; [done|by apply Forall_drop].
Qed.

Lemma remove_Forall (l : list T) v : Forall P l → Forall P (OrderedSet.remove l v).2.
Proof.
  intros Hl. unfold OrderedSet.remove. destruct (binary_search l v); [|done].
  apply Forall_app. split; [by apply Forall_take|by apply Forall_drop].
Qed.

Lemma from_Forall (l : list T) : Forall P l → Forall P (OrderedSet.from l).
Proof. rewrite !Forall_forall. intros Hl x Hx. by apply Hl, from_members. Qed.
End vectors.

(** ** Data *)

Definition typed_bond (b : Bond) : Prop := is_u128 (amount b).
Definition typed_exit (b : Bond) : Prop := is_u32 (amount b).

Definition typed_status (s : ValidatorStatus) : Prop :=
  match s with Leaving r => is_u32 r | _ => True end.

Record typed_validator (c : Validator.t) : Prop := {
  ty_fee : is_perbill (Validator.fee c);
  ty_bond : is_u128 (Validator.bond c);
  ty_nominators : Forall typed_bond (Validator.nominators c);
  ty_total : is_u128 (Validator.total c);
  ty_state : typed_status (Validator.state c);
}.

Record typed_snapshot (s : ValidatorSnapshot.t) : Prop := {
  ty_sfee : is_perbill (ValidatorSnapshot.fee s);
  ty_sbond : is_u128 (ValidatorSnapshot.bond s);
  ty_snominators : Forall typed_bond (ValidatorSnapshot.nominators s);
  ty_stotal : is_u128 (ValidatorSnapshot.total s);
}.

Record typed_nominator (n : Nominator.t) : Prop := {
  ty_nominations : Forall typed_bond (Nominator.nominations n);
  ty_ntotal : is_u128 (Nominator.total n);
}.

Definition typed_range (P : Z → Prop) (r : Range.t) : Prop :=
  P (Range.min r) ∧ P (Range.ideal r) ∧ P (Range.max r).

Record typed_inflation (i : InflationInfo.t) : Prop := {
  ty_expect : typed_range is_u128 (InflationInfo.expect i);
  ty_round_rates : typed_range is_perbill (InflationInfo.round i);
}.

(** The arguments of a call, as the decoder of the call delivers them. *)
Definition typed_call (call : Call) : Prop :=
  match call with
  | Call_set_staking_expectations e => typed_range is_u128 e
  | Call_set_inflation s => typed_range is_perbill s
  | Call_join_candidates fee x => is_perbill fee ∧ is_u128 x
  | Call_candidate_bond_more x | Call_candidate_bond_less x | Call_join_nominators _ x
  | Call_nominate_new _ x | Call_nominator_bond_more _ x | Call_nominator_bond_less _ x =>
      is_u128 x
  | Call_leave_candidates | Call_go_offline | Call_go_online | Call_leave_nominators
  | Call_switch_nomination _ _ | Call_revoke_nomination _ => True
  end.

#[export] Hint Resolve ty_fee ty_bond ty_nominators ty_total ty_state ty_nominations ty_ntotal
  ty_expect ty_round_rates : typed.

Lemma extract_bond_typed who l x :
  Forall typed_bond l → (∀ y, x = Some y → is_u128 y) →
  let '(o, l') := extract_bond who l x in
  (∀ y, o = Some y → is_u128 y) ∧ Forall typed_bond l'.
Proof.
  revert x. induction l as [|b l IH]; intros x Hl Hx; cbn; [done|].
  apply Forall_cons in Hl as [Hb Hl]. destruct (owner b =? who).
  - apply IH; [done|]. by intros y [= <-].
  - specialize (IH x Hl Hx). destruct (extract_bond who l x) as [o l']. destruct IH. split; auto.
Qed.

Lemma rm_nominator_loop_typed who l tot :
  Forall typed_bond l → is_u128 tot →
  let '(tot', l') := Validator.rm_nominator_loop who l tot in
  is_u128 tot' ∧ Forall typed_bond l'.
Proof.
  revert tot. induction l as [|b l IH]; intros tot Hl Ht; cbn; [done|].
  apply Forall_cons in Hl as [Hb Hl]. destruct (owner b =? who).
  { apply IH; auto with typed. }
  specialize (IH tot Hl Ht). destruct (Validator.rm_nominator_loop who l tot). destruct IH. auto.
Qed.

Lemma update_nominator_loop_typed who x l d :
  Forall typed_bond l → is_u128 x →
  Forall typed_bond (Validator.update_nominator_loop who x l d).2.
Proof.
  revert d. induction l as [|b l IH]; intros d Hl Hx; cbn; [done|].
  apply Forall_cons in Hl as [Hb Hl]. destruct (owner b =? who);
    [specialize (IH (x ⊖ amount b) Hl Hx)|specialize (IH d Hl Hx)];
    destruct (Validator.update_nominator_loop _ _ _ _); cbn; by constructor.
Qed.

Lemma change_first_typed who f l l' :
  Forall typed_bond l → (∀ x, is_u128 (f x)) →
  Validator.change_first who f l = Some l' → Forall typed_bond l'.
Proof.
  revert l'. induction l as [|b l IH]; intros l' Hl Hf; cbn; [done|].
  apply Forall_cons in Hl as [Hb Hl]. destruct (owner b =? who).
  - intros [= <-]. constructor; [apply Hf|done].
  - destruct (Validator.change_first who f l); [|done]. intros [= <-]. constructor; auto.
Qed.

Lemma inc_nomination_loop_typed v more l a l' :
  Forall typed_bond l → Nominator.inc_nomination_loop v more l = Some (a, l') →
  Forall typed_bond l'.
Proof.
  revert l'. induction l as [|b l IH]; intros l' Hl; cbn; [done|].
  apply Forall_cons in Hl as [Hb Hl]. destruct (owner b =? v).
  - intros [= _ <-]. constructor; [apply is_u128_wrap|done].
  - destruct (Nominator.inc_nomination_loop v more l) as [[??]|]; [|done]. intros [= -> <-].
    constructor; auto.
Qed.

Lemma dec_nomination_loop_typed v less l a l' :
  Forall typed_bond l → Nominator.dec_nomination_loop v less l = Some (Some (a, l')) →
  Forall typed_bond l'.
Proof.
  revert l'. induction l as [|b l IH]; intros l' Hl; cbn; [done|].
  apply Forall_cons in Hl as [Hb Hl]. destruct (owner b =? v).
  - case_match; [|done]. intros [= _ <-]. constructor; [apply is_u128_wrap|done].
  - destruct (Nominator.dec_nomination_loop v less l) as [[[??]|]|]; [|done..].
    intros [= -> <-]. constructor; auto.
Qed.

(** ** Methods *)

Lemma validator_parts c l tot :
  typed_validator c → Forall typed_bond l → is_u128 tot →
  typed_validator (Validator.set_nominators_total c l tot).
Proof. intros H Hl Ht. split; cbn; auto with typed. Qed.

Lemma validator_bonds c b tot :
  typed_validator c → is_u128 b → is_u128 tot → typed_validator (Validator.set_bond_total c b tot).
Proof. intros H Hb Ht. split; cbn; auto with typed. Qed.

Lemma validator_status c s :
  typed_validator c → typed_status s → typed_validator (Validator.set_state c s).
Proof. intros H Hs. split; cbn; auto with typed. Qed.

Lemma validator_new a fee bond :
  is_perbill fee → is_u128 bond → typed_validator (Validator.new a fee bond).
Proof. intros Hf Hb. split; cbn; auto. Qed.

Lemma validator_bond_more c more : typed_validator c → typed_validator (Validator.bond_more c more).
Proof. intros H. apply validator_bonds; auto with typed. Qed.

Lemma validator_bond_less c less o c' :
  Validator.bond_less c less = (o, c') → typed_validator c → typed_validator c'.
Proof.
  unfold Validator.bond_less. intros E H. case_match; injection E as <- <-; [|done].
  apply validator_bonds; auto with typed.
Qed.

Lemma validator_rm c a x c' :
  Validator.rm_nominator c a = (x, c') → typed_validator c → is_u128 x ∧ typed_validator c'.
Proof.
  unfold Validator.rm_nominator. intros E H.
  pose proof (rm_nominator_loop_typed a (Validator.nominators c) (Validator.total c)
    (ty_nominators _ H) (ty_total _ H)) as Hl.
  destruct (Validator.rm_nominator_loop _ _ _) as [tot l]. destruct Hl as [Ht Hl].
  injection E as <- <-. split; [done|]. apply validator_parts; [done|by apply from_Forall|done].
Qed.

Lemma validator_add c a y x c' :
  Validator.add_nominator c a y = (x, c') → typed_validator c → is_u128 y →
  is_u128 x ∧ typed_validator c'.
Proof.
  unfold Validator.add_nominator. intros E H Hy.
  pose proof (insert_Forall typed_bond (Validator.nominators c) {| owner := a; amount := y |}
    (ty_nominators _ H) Hy) as Hl.
  destruct (OrderedSet.insert _ _) as [i l]. injection E as <- <-. cbn in *.
  split; [auto with typed|]. apply validator_parts; auto with typed.
Qed.

Lemma validator_update c a y x c' :
  Validator.update_nominator c a y = (x, c') → typed_validator c → is_u128 y →
  is_u128 x ∧ typed_validator c'.
Proof.
  unfold Validator.update_nominator. intros E H Hy.
  pose proof (update_nominator_loop_typed a y (Validator.nominators c) 0
    (ty_nominators _ H) Hy) as Hl.
  destruct (Validator.update_nominator_loop _ _ _ _) as [d l]. injection E as <- <-. cbn in *.
  split; [auto with typed|]. apply validator_parts; [done|by apply from_Forall|auto with typed].
Qed.

Lemma validator_change c a f tot :
  (∀ x, is_u128 (f x)) → is_u128 tot → typed_validator c →
  typed_validator (match Validator.change_first a f (Validator.nominators c) with
    | Some noms => Validator.set_nominators_total c noms tot | None => c end).
Proof.
  intros Hf Ht H. destruct (Validator.change_first _ _ _) as [l|] eqn:E; [|done].
  apply validator_parts; [done| |done]. by eapply change_first_typed; [apply H|..].
Qed.

Lemma validator_inc c a more : typed_validator c → typed_validator (Validator.inc_nominator c a more).
Proof. intros H. apply validator_change; auto with typed. Qed.

Lemma validator_dec c a less : typed_validator c → typed_validator (Validator.dec_nominator c a less).
Proof. intros H. apply validator_change; auto with typed. Qed.

Lemma into_snapshot_typed c : typed_validator c → typed_snapshot (Validator.into_snapshot c).
Proof. intros H. split; cbn; auto with typed. Qed.

Lemma nominator_new v x : is_u128 x → typed_nominator (Nominator.new v x).
Proof.
  intros Hx. split; cbn [Nominator.new Nominator.nominations Nominator.total]; [|done].
  apply from_Forall. by constructor.
Qed.

Lemma nominator_add n b i n' :
  Nominator.add_nomination n b = (i, n') → typed_nominator n → typed_bond b → typed_nominator n'.
Proof.
  unfold Nominator.add_nomination. intros E H Hb.
  pose proof (insert_Forall typed_bond (Nominator.nominations n) b (ty_nominations _ H) Hb) as Hl.
  destruct (OrderedSet.insert _ _) as [[] l]; injection E as <- <-; split; cbn in *; auto with typed.
Qed.

Lemma nominator_rm n v o n' :
  Nominator.rm_nomination n v = (o, n') → typed_nominator n → typed_nominator n'.
Proof.
  unfold Nominator.rm_nomination. intros E H.
  pose proof (extract_bond_typed v (Nominator.nominations n) None (ty_nominations _ H) ltac:(done)) as Hl.
  destruct (extract_bond _ _ _) as [[x|] l]; destruct Hl; injection E as <- <-; [|done].
  split; cbn; [by apply from_Forall|auto with typed].
Qed.

Lemma nominator_swap n old new o n' :
  Nominator.swap_nomination n old new = (o, n') → typed_nominator n →
  typed_nominator n' ∧ ∀ x y, o = Some (x, y) → is_u128 x ∧ is_u128 y.
Proof.
  unfold Nominator.swap_nomination. intros E H.
  assert (∀ v, let '(o, l) := extract_bond v (Nominator.nominations n) None in
    (∀ y, o = Some y → is_u128 y) ∧ Forall typed_bond l) as Hex.
  { intros v. by apply (extract_bond_typed v (Nominator.nominations n) None (ty_nominations _ H)). }
  pose proof (Hex old) as Hold. pose proof (Hex new) as Hnew.
  destruct (extract_bond old _ _) as [[x|] l]; destruct Hold as [Hx Hl].
  2: { injection E as <- <-. by split. }
  specialize (Hx x eq_refl).
  destruct (extract_bond new _ _) as [[y|] k]; destruct Hnew as [Hy Hk].
  - pose proof (insert_Forall typed_bond (OrderedSet.from k) {| owner := new; amount := y ⊕ x |}
      (from_Forall _ _ Hk) (is_u128_wrap _)) as Hi.
    destruct (OrderedSet.insert _ _) as [i noms]. injection E as <- <-.
    split; [split; cbn in *; auto with typed|]. intros a b [= <- <-]. auto with typed.
  - pose proof (insert_Forall typed_bond (OrderedSet.from l) {| owner := new; amount := x |}
      (from_Forall _ _ Hl) Hx) as Hi.
    destruct (OrderedSet.insert _ _) as [i noms]. injection E as <- <-.
    split; [split; cbn in *; auto with typed|]. by intros a b [= <- <-].
Qed.

Lemma nominator_inc n v more o n' :
  Nominator.inc_nomination n v more = (o, n') → typed_nominator n → typed_nominator n'.
Proof.
  unfold Nominator.inc_nomination. intros E H.
  destruct (Nominator.inc_nomination_loop _ _ _) as [[a l]|] eqn:El; injection E as <- <-; [|done].
  split; cbn; [|auto with typed]. by eapply inc_nomination_loop_typed; [apply H|].
Qed.

Lemma nominator_dec n v less o n' :
  Nominator.dec_nomination n v less = (o, n') → typed_nominator n → typed_nominator n'.
Proof.
  unfold Nominator.dec_nomination. intros E H.
  destruct (Nominator.dec_nomination_loop _ _ _) as [[[a l]|]|] eqn:El;
    injection E as <- <-; [|done..].
  split; cbn; [|auto with typed]. by eapply dec_nomination_loop_typed; [apply H|].
Qed.

(** The same, as the automation uses them. *)
Lemma insert_typed (P : Bond → Prop) l b i l' :
  OrderedSet.insert l b = (i, l') → Forall P l → P b → Forall P l'.
Proof. intros E Hl Hb. pose proof (insert_Forall P l b Hl Hb) as H. by rewrite E in H. Qed.
Lemma remove_typed (P : Bond → Prop) l b i l' :
  OrderedSet.remove l b = (i, l') → Forall P l → Forall P l'.
Proof. intros E Hl. pose proof (remove_Forall P l b Hl) as H. by rewrite E in H. Qed.
Lemma from_typed (l : list Bond) : Forall typed_bond l → Forall typed_bond (OrderedSet.from l).
Proof. apply from_Forall. Qed.
Lemma extract_typed who l o l' :
  extract_bond who l None = (o, l') → Forall typed_bond l → Forall typed_bond l'.
Proof.
  intros E Hl. pose proof (extract_bond_typed who l None Hl ltac:(done)) as H.
  rewrite E in H. apply H.
Qed.
Lemma extract_amount who l y l' :
  extract_bond who l None = (Some y, l') → Forall typed_bond l → is_u128 y.
Proof.
  intros E Hl. pose proof (extract_bond_typed who l None Hl ltac:(done)) as H.
  rewrite E in H. by apply H.
Qed.
Lemma validator_rm_total c a x c' :
  Validator.rm_nominator c a = (x, c') → typed_validator c → is_u128 x.
Proof. intros E H. by apply (validator_rm c a x c'). Qed.
Lemma validator_rm_value c a x c' :
  Validator.rm_nominator c a = (x, c') → typed_validator c → typed_validator c'.
Proof. intros E H. by apply (validator_rm c a x c'). Qed.
Lemma swap_value n old new o n' :
  Nominator.swap_nomination n old new = (o, n') → typed_nominator n → typed_nominator n'.
Proof. intros E H. by apply (nominator_swap n old new o n'). Qed.
Lemma swap_amounts n old new x y n' :
  Nominator.swap_nomination n old new = (Some (x, y), n') → typed_nominator n →
  is_u128 x ∧ is_u128 y.
Proof. intros E H. by apply (nominator_swap n old new (Some (x, y)) n'). Qed.

Lemma typed_bond_intro a x : is_u128 x → typed_bond {| owner := a; amount := x |}.
Proof. done. Qed.
Lemma typed_exit_intro a x : is_u32 x → typed_exit {| owner := a; amount := x |}.
Proof. done. Qed.
Lemma typed_leaving r : is_u32 r → typed_status (Leaving r).
Proof. done. Qed.
Lemma typed_active : typed_status Active.
Proof. done. Qed.
Lemma typed_idle : typed_status Idle.
Proof. done. Qed.

#[export] Hint Resolve validator_parts validator_status validator_new validator_bond_more
  validator_bond_less validator_inc validator_dec into_snapshot_typed nominator_new
  nominator_add nominator_rm nominator_inc nominator_dec insert_typed remove_typed extract_typed
  extract_amount validator_rm_total validator_rm_value swap_value from_typed
  typed_bond_intro typed_exit_intro typed_leaving typed_active typed_idle : typed.
#[export] Hint Unfold Validator.go_offline Validator.go_online Validator.leave_candidates : typed.

(** ** The storage *)

Section worlds.
Context {Origin Cur : Type}.
Context `{FO : FrameOrigin Origin, MO : MonetaryPolicyOrigin Origin, CU : Currency Cur}.
Context `{PO : PerbillOps, US : UnstableSort, IO : IterationOrder, SC : StakeConfig}.
Context {PL : PerbillLaws}.
Implicit Types (w : World Cur) (origin : Origin).

Record typed w : Prop := {
  ty_Round : is_u32 (Round w);
  ty_Nominators : map_Forall (λ _, typed_nominator) (Nominators w);
  ty_Candidates : map_Forall (λ _, typed_validator) (Candidates w);
  ty_Total : is_u128 (Total w);
  ty_CandidatePool : Forall typed_bond (CandidatePool w);
  ty_ExitQueue : Forall typed_exit (ExitQueue w);
  ty_AtStake : map_Forall (λ _, typed_snapshot) (AtStake w);
  ty_Staked : map_Forall (λ _, is_u128) (Staked w);
  ty_InflationConfig : typed_inflation (InflationConfig w);
  ty_Points : map_Forall (λ _, is_u32) (Points w);
  ty_AwardedPts : map_Forall (λ _, is_u32) (AwardedPts w);
}.

(** Writes into a map. *)
Lemma put_candidate (m : gmap Z Validator.t) a c :
  typed_validator c → map_Forall (λ _, typed_validator) m →
  map_Forall (λ _, typed_validator) (<[a:=c]> m).
Proof. intros. by apply map_Forall_insert_2. Qed.
Lemma put_nominator (m : gmap Z Nominator.t) a n :
  typed_nominator n → map_Forall (λ _, typed_nominator) m →
  map_Forall (λ _, typed_nominator) (<[a:=n]> m).
Proof. intros. by apply map_Forall_insert_2. Qed.
Lemma drop_candidate (m : gmap Z Validator.t) a :
  map_Forall (λ _, typed_validator) m → map_Forall (λ _, typed_validator) (delete a m).
Proof. intros. by apply map_Forall_delete. Qed.
Lemma drop_nominator (m : gmap Z Nominator.t) a :
  map_Forall (λ _, typed_nominator) m → map_Forall (λ _, typed_nominator) (delete a m).
Proof. intros. by apply map_Forall_delete. Qed.

Lemma typed_candidate w a c : Candidates w !! a = Some c → typed w → typed_validator c.
Proof. intros Hc H. by apply (ty_Candidates _ H a). Qed.
Lemma typed_nominator_of w a n : Nominators w !! a = Some n → typed w → typed_nominator n.
Proof. intros Hn H. by apply (ty_Nominators _ H a). Qed.

#[local] Hint Resolve ty_Round ty_Nominators ty_Candidates ty_Total ty_CandidatePool ty_ExitQueue
  ty_AtStake ty_Staked ty_InflationConfig ty_Points ty_AwardedPts typed_candidate
  typed_nominator_of put_candidate put_nominator drop_candidate drop_nominator : typed.

Definition typed_after {A} (o : Outcome (World Cur) (DispatchError Error) A) : Prop :=
  match o with Done _ w | Failed _ w => typed w | Panicked => True end.

(** Execute a whole handler, keeping what each method returns. *)
Ltac typed_step :=
  lazymatch goal with
  | |- wp (when _ (update_active _ _)) _ _ => fail
  | |- wp (remove_from_pool _) _ _ => fail
  | |- wp (let '(_, _) := ?x in _) _ _ => destruct x eqn:?
  | |- wp (match ?x with _ => _ end) _ _ => destruct x eqn:?
  | |- bind_post _ _ _ => cbn [bind_post]
  | |- _ => stake_step
  end; cbn beta iota zeta.

Lemma wp_update_active_typed (b : bool) a tot (Q : Outcome (World Cur) (DispatchError Error) unit → Prop) w :
  typed w → is_u128 tot →
  (∀ pool, Forall typed_bond pool → Q (Done tt (set_CandidatePool pool w))) →
  wp (when b (update_active a tot)) Q w.
Proof.
  intros Hw Ht HQ. apply wp_when; intros ->; cycle 1.
  { rewrite <-(set_CandidatePool_id w). apply HQ, Hw. }
  unfold update_active. apply wp_bind, wp_gets. cbn [bind_post].
  destruct (OrderedSet.remove _ _) eqn:?. destruct (OrderedSet.insert _ _) eqn:?.
  apply wp_modify, HQ. eauto with typed.
Qed.

Lemma wp_remove_from_pool_typed a (Q : Outcome (World Cur) (DispatchError Error) unit → Prop) w :
  typed w → (∀ pool, Forall typed_bond pool → Q (Done tt (set_CandidatePool pool w))) →
  wp (remove_from_pool a) Q w.
Proof.
  intros Hw HQ. unfold remove_from_pool. apply wp_bind, wp_gets. cbn [bind_post].
  destruct (OrderedSet.remove _ _) eqn:?. apply wp_when; intros _.
  - apply wp_modify, HQ. eauto with typed.
  - rewrite <-(set_CandidatePool_id w). apply HQ, Hw.
Qed.

Ltac typed_fields := split; wsimpl; eauto 12 with typed.
Ltac typed_run :=
  repeat first
    [ typed_step
    | apply wp_update_active_typed; [solve [typed_fields]|solve [eauto 8 with typed]|intros ? ?]
    | apply wp_remove_from_pool_typed; [solve [typed_fields]|intros ? ?] ];
  cbn [typed_after]; simplify_eq; try solve [done|typed_fields].

Lemma join_candidates_typed origin fee bond w :
  is_perbill fee → is_u128 bond → typed w → wp (join_candidates origin fee bond) typed_after w.
Proof. intros Hf Hb Hw. unfold join_candidates. typed_run. Qed.

Lemma leave_candidates_typed origin w : typed w → wp (leave_candidates origin) typed_after w.
Proof. intros Hw. unfold leave_candidates, Validator.leave_candidates. typed_run. Qed.

Lemma go_offline_typed origin w : typed w → wp (go_offline origin) typed_after w.
Proof. intros Hw. unfold go_offline, Validator.go_offline. typed_run. Qed.

Lemma go_online_typed origin w : typed w → wp (go_online origin) typed_after w.
Proof. intros Hw. unfold go_online, Validator.go_online. typed_run. Qed.

Lemma candidate_bond_more_typed origin x w :
  typed w → wp (candidate_bond_more origin x) typed_after w.
Proof. intros Hw. unfold candidate_bond_more. typed_run. Qed.

Lemma candidate_bond_less_typed origin x w :
  typed w → wp (candidate_bond_less origin x) typed_after w.
Proof. intros Hw. unfold candidate_bond_less. typed_run. Qed.

Lemma nominator_joins_validator_typed a x v w :
  is_u128 x → typed w → wp (nominator_joins_validator a x v) typed_after w.
Proof. intros Hx Hw. unfold nominator_joins_validator. typed_run. Qed.

Lemma nominator_leaves_validator_typed a v w :
  typed w → wp (nominator_leaves_validator a v) typed_after w.
Proof. intros Hw. unfold nominator_leaves_validator. typed_run. Qed.

Lemma join_nominators_typed origin v x w :
  is_u128 x → typed w → wp (join_nominators origin v x) typed_after w.
Proof.
  intros Hx Hw. unfold join_nominators. stake_run; try done.
  eapply wp_mono; [|by apply nominator_joins_validator_typed].
  intros [u w'|e w'|]; cbn [typed_after bind_post]; [|done..]. intros Hw'. typed_run.
Qed.

Lemma leave_nominators_typed origin w : typed w → wp (leave_nominators origin) typed_after w.
Proof.
  intros Hw. unfold leave_nominators. stake_run; try done. apply (wp_for_each typed); [done| |].
  - intros b w' _ Hw'. eapply wp_mono; [|by apply nominator_leaves_validator_typed]. by intros [].
  - intros w' Hw'. cbn [bind_post]. typed_run.
Qed.

Lemma nominate_new_typed origin v x w :
  is_u128 x → typed w → wp (nominate_new origin v x) typed_after w.
Proof. intros Hx Hw. unfold nominate_new. typed_run. Qed.

Lemma revoke_nomination_typed origin v w : typed w → wp (revoke_nomination origin v) typed_after w.
Proof.
  intros Hw. unfold revoke_nomination, nominator_revokes_validator. repeat typed_step; try done.
  eapply wp_mono; [|by apply nominator_leaves_validator_typed].
  intros [u w'|e w'|]; cbn [typed_after bind_post]; [|done..]. intros Hw'. typed_run.
Qed.

Lemma nominator_bond_more_typed origin v x w :
  typed w → wp (nominator_bond_more origin v x) typed_after w.
Proof. intros Hw. unfold nominator_bond_more. typed_run. Qed.

Lemma nominator_bond_less_typed origin v x w :
  typed w → wp (nominator_bond_less origin v x) typed_after w.
Proof. intros Hw. unfold nominator_bond_less. typed_run. Qed.

Lemma set_staking_expectations_typed origin e w :
  typed_range is_u128 e → typed w → wp (set_staking_expectations origin e) typed_after w.
Proof.
  intros He Hw. unfold set_staking_expectations. typed_run.
  split; wsimpl; try apply Hw. split; [done|]. apply Hw.
Qed.

Section configured.
Context {CF : StakeConfigLaws}.

Lemma per_round_perbill x :
  is_perbill x → is_perbill (from_parts (x / (BLOCKS_PER_YEAR / BlocksPerRound))).
Proof using PL CF.
  intros Hx. destruct (rounds_per_year_Some rounds_fit) as [_ Hp].
  set (p := BLOCKS_PER_YEAR / BlocksPerRound) in *.
  assert (0 <= x / p <= x) as Hd.
  { split; [apply Z.div_pos; destruct Hx; lia|]. apply Z.div_le_upper_bound; [lia|].
    destruct Hx. nia. }
  unfold is_perbill in *. rewrite from_parts_id; lia.
Qed.

Lemma set_inflation_typed origin s w :
  typed_range is_perbill s → typed w → wp (set_inflation origin s) typed_after w.
Proof using PL CF.
  intros (H1 & H2 & H3) Hw. unfold set_inflation. typed_run.
  unfold set_annual_rate in *. rewrite annual_to_round_Some in * by apply rounds_fit.
  cbn in *. simplify_eq. split; wsimpl; try apply Hw. split; cbn; [apply Hw|].
  split_and!; cbn; by apply per_round_perbill.
Qed.

Lemma switch_nomination_typed origin old new w :
  typed w → wp (switch_nomination origin old new) typed_after w.
Proof.
  intros Hw. unfold switch_nomination. stake_run; try done.
  destruct (Nominator.swap_nomination _ _ _) as [o n'] eqn:En. stake_run; try done.
  destruct a3 as [x y]. subst o.
  destruct (swap_amounts _ _ _ _ _ _ En) as [Hx Hy]; [eauto with typed|].
  assert (typed_nominator n') as Hn' by eauto with typed.
  destruct (Validator.rm_nominator _ _) as [t1 c1] eqn:E1.
  destruct (validator_rm _ _ _ _ E1) as [Ht1 Hc1]; [eauto with typed|].
  destruct (if y >? x then _ else _) as [t2 c2] eqn:E2.
  assert (is_u128 t2 ∧ typed_validator c2) as [Ht2 Hc2].
  { destruct (y >? x); [apply (validator_update _ _ _ _ _ E2)|apply (validator_add _ _ _ _ _ E2)];
      eauto with typed. }
  typed_run.
Qed.

(** ** The hooks *)

Lemma mint_typed amt to w : typed w → wp (mint amt to) (ends typed) w.
Proof.
  intros Hw. apply wp_mint; [done|]. intros c imb _ _. split; wsimpl; apply Hw.
Qed.

Lemma pay_stakers_typed next w : typed w → wp (pay_stakers next) (ends typed) w.
Proof.
  intros Hw. apply pay_stakers_ends; [| |done|].
  - intros w' a _ H. split; wsimpl; try apply H. apply map_Forall_delete, H.
  - intros w' amt to H. by apply mint_typed.
  - intros _. split; wsimpl; try apply Hw.
    intros k x [Hk _]%map_lookup_filter_Some. by apply (ty_AwardedPts _ Hw k).
Qed.

Lemma exit_nominator_typed v b w :
  typed w → wp (exit_nominator v b) (ends typed) w.
Proof.
  intros Hw. unfold exit_nominator. stake_run. wsimpl.
  destruct (Nominators w !! owner b) as [n|] eqn:En; [|apply wp_ret; typed_fields].
  destruct (Nominator.rm_nomination n v) as [o n'] eqn:Er. destruct o as [x|];
    [destruct (x =? 0)|]; [apply wp_modify|apply wp_modify|apply wp_ret]; cbn [ends]; typed_fields.
Qed.

Lemma execute_exit_typed next b w :
  typed_exit b → typed w →
  wp (execute_exit next b) (λ o, match o with
    | Done o w' => typed w' ∧ (∀ y, o = Some y → typed_exit y) | _ => False end) w.
Proof.
  intros Hb Hw. unfold execute_exit. destruct (amount b >? next).
  { apply wp_ret. split; [done|]. by intros y [= <-]. }
  stake_run. destruct (Candidates w !! owner b) as [c|] eqn:Ec; [|by apply wp_ret].
  apply wp_bind. apply (wp_for_each typed); [done| |].
  - intros x w' _ Hw'. eapply wp_mono; [|by apply exit_nominator_typed]. by intros [].
  - intros w' Hw'. cbn [bind_post]. stake_run. split; [typed_fields|done].
Qed.

Lemma execute_exits_typed next w :
  typed w → wp (execute_delayed_validator_exits next) (ends typed) w.
Proof.
  intros Hw. unfold execute_delayed_validator_exits. stake_run.
  apply (wp_filter_map_each (λ _ ys w', typed w' ∧ Forall typed_exit ys)); [by split| |].
  - intros x xs ys w' Hx _ [Hw' Hys]. eapply wp_mono; [|apply execute_exit_typed; [|done]].
    + intros [o w''|e w''|]; [|done..]. intros [Hw'' Ho]. split; [done|].
      apply Forall_app. split; [done|]. destruct o; [|done]. constructor; auto.
    + pose proof (ty_ExitQueue _ Hw) as Hq. rewrite Forall_forall in Hq. by apply Hq.
  - intros ys w' [Hw' Hys]. cbn [bind_post]. apply wp_modify.
    split; wsimpl; try apply Hw'. by apply from_Forall.
Qed.

Lemma snapshot_validators_typed next l n t w :
  typed w → is_u32 n → is_u128 t →
  wp (snapshot_validators next l n t) typed_after w.
Proof.
  revert n t w. induction l as [|a l IH]; intros n t w Hw Hn Ht; cbn [snapshot_validators]; [done|].
  stake_run; [|done]. apply IH; [|auto with typed..].
  split; wsimpl; try apply Hw. apply map_Forall_insert_2; [|apply Hw]. eauto with typed.
Qed.

Lemma best_candidates_typed next w :
  typed w → wp (best_candidates_become_validators next) typed_after w.
Proof.
  intros Hw. unfold best_candidates_become_validators. stake_run.
  eapply wp_mono; [|apply (snapshot_validators_typed next _ 0 0); auto with typed].
  intros [[n t] w'|e w'|]; cbn [typed_after bind_post]; [|done..]. intros Hw'. stake_run.
  split; wsimpl; apply Hw'.
Qed.

(** What follows the selection. *)
Lemma start_round_typed next evs w :
  is_u32 next → typed w →
  typed (set_events evs (set_Staked (<[next:=Total w]> (Staked w)) (set_Round next w))).
Proof.
  intros Hn Hw. split; wsimpl; try apply Hw; [done|]. by apply map_Forall_insert_2; apply Hw.
Qed.

Lemma on_finalize_typed n w : typed w → wp (on_finalize n) typed_after w.
Proof.
  intros Hw. unfold on_finalize. apply wp_bind, wp_assert; [|done]. intros _. cbn [bind_post].
  apply wp_when; [|done]. intros _. stake_run.
  eapply wp_mono; [|by apply pay_stakers_typed].
  intros [u w1|e w1|]; cbn [bind_post ends]; [|done..]. intros Hw1. apply wp_bind.
  eapply wp_mono; [|by apply execute_exits_typed].
  intros [u2 w2|e w2|]; cbn [bind_post ends]; [|done..]. intros Hw2. apply wp_bind.
  eapply wp_mono; [|by apply best_candidates_typed].
  intros [[c t] w3|e w3|]; cbn [bind_post typed_after]; [|done..]. intros Hw3. stake_run.
  apply (start_round_typed (Round w ⊞ 1) _ w3); [apply is_u32_wrap|done].
Qed.

Lemma note_author_typed a w : typed w → wp (note_author a) typed_after w.
Proof.
  intros Hw. unfold note_author. stake_run.
  split; wsimpl; try apply Hw; (apply map_Forall_insert_2; [apply is_u32_wrap|apply Hw]).
Qed.

#[local] Hint Resolve join_candidates_typed leave_candidates_typed go_offline_typed go_online_typed
  candidate_bond_more_typed candidate_bond_less_typed join_nominators_typed leave_nominators_typed
  nominate_new_typed switch_nomination_typed revoke_nomination_typed nominator_bond_more_typed
  nominator_bond_less_typed set_staking_expectations_typed set_inflation_typed : handlers.

Lemma dispatch_typed origin call w :
  typed_call call → typed w → wp (dispatch origin call) typed_after w.
Proof using PL CF.
  intros Hc Hw. destruct call; cbn [dispatch typed_call] in *; auto with handlers.
  destruct Hc. auto with handlers.
Qed.

Lemma empty_world_typed config (c : Cur) : typed_inflation config → typed (empty_world config c).
Proof. intros H. split; cbn; auto with typed; intros k v E; by rewrite lookup_empty in E. Qed.

Lemma genesis_build_typed (signed_by : AccountId → Origin) stakers w :
  Forall (λ '(_, _, balance), is_u128 balance) stakers → typed w →
  wp (genesis_build signed_by stakers) typed_after w.
Proof.
  intros Hst Hw. unfold genesis_build. apply wp_bind. apply (wp_for_each typed); [done| |].
  - intros [[actor opt_val] balance] w' Hin Hw'.
    rewrite Forall_forall in Hst. specialize (Hst _ Hin). cbn in Hst. unfold genesis_staker.
    apply wp_bind, wp_gets. cbn [bind_post]. apply wp_bind, wp_assert; [|done]. intros _.
    cbn [bind_post]. destruct opt_val as [v|]; apply wp_ignore_error.
    + eapply wp_mono; [|by apply join_nominators_typed]. by intros [].
    + eapply wp_mono; [|by apply join_candidates_typed; [split| |]]. by intros [].
  - intros w' Hw'. cbn [bind_post]. apply wp_bind.
    eapply wp_mono; [|by apply best_candidates_typed].
    intros [[n t] w2|e w2|]; cbn [bind_post typed_after]; [|done..]. intros Hw2. stake_run.
    by apply (start_round_typed 1 _ w2).
Qed.
End configured.

(** The steps of [chain_step], with arguments of their types. *)
Inductive typed_step w : World Cur → Prop :=
| typed_dispatch origin call u w' :
    typed_call call → dispatch origin call w = Done u w' → typed_step w w'
| typed_failed origin call e w' :
    typed_call call → dispatch origin call w = Failed e w' → typed_step w w'
| typed_finalize n u w' : on_finalize n w = Done u w' → typed_step w w'
| typed_author a u w' : note_author a w = Done u w' → typed_step w w'
| typed_currency c : typed_step w (set_currency c w)
| typed_clear_events : typed_step w (set_events [] w).

Lemma typed_step_typed {CF : StakeConfigLaws} w w' : typed_step w w' → typed w → typed w'.
Proof using PL.
  intros Hst Hw. destruct Hst as [origin call u w' Hc E|origin call e w' Hc E|n u w' E|a u w' E|c|].
  - pose proof (dispatch_typed origin call w Hc Hw) as H. unfold wp in H. by rewrite E in H.
  - pose proof (dispatch_typed origin call w Hc Hw) as H. unfold wp in H. by rewrite E in H.
  - pose proof (on_finalize_typed n w Hw) as H. unfold wp in H. by rewrite E in H.
  - pose proof (note_author_typed a w Hw) as H. unfold wp in H. by rewrite E in H.
  - split; wsimpl; apply Hw.
  - split; wsimpl; apply Hw.
Qed.
End worlds.
