(* ===== verification/Reference.v ===== *)
(** * Reference instances of the frame

    Concrete implementations of the interfaces of [Frame.v]: a ledger of balances, the
    parts-per-billion arithmetic that rounds to the nearest integer (ties down), an insertion sort
    and the identity iteration order. They satisfy the laws, so no theorem that assumes
    the laws is vacuous; the witnesses and the replayed unit tests run on them. *)

From S2P Require Import Prelude OrderedSet Frame StakeTypes Inflation Stake.

(** ** Origins *)

Inductive RawOrigin := Root | Signed (who : AccountId) | None_.

#[export] Instance raw_origin : FrameOrigin RawOrigin := {
  ensure_signed o := match o with Signed who => Some who | _ => None end;
  ensure_root o := match o with Root => true | _ => false end;
  ensure_none o := match o with None_ => true | _ => false end;
}.

(** [EnsureRoot], the [SetMonetaryPolicyOrigin] of the runtime and of the tests. *)
#[export] Instance ensure_root_origin : MonetaryPolicyOrigin RawOrigin := ensure_root.

(** ** Balances *)

Record Ledger := MkLedger { accounts : gmap Z (Z * Z); issued : Z }.

Definition account (l : Ledger) (a : AccountId) : Z * Z := default (0, 0) (accounts l !! a).
Definition set_account (l : Ledger) (a : AccountId) (x : Z * Z) : Ledger :=
  MkLedger (<[a:=x]> (accounts l)) (issued l).

#[export] Instance ledger_currency : Currency Ledger := {
  free_balance l a := (account l a).1;
  reserved_balance l a := (account l a).2;
  total_issuance l := issued l;
  minimum_balance := 1;
  reserve l a x :=
    let '(free, res) := account l a in
    if x <=? free then inl (set_account l a (free - x, res + x))
    else inr "InsufficientBalance"%string;
  unreserve l a x :=
    let '(free, res) := account l a in
    let y := x `min` res in
    (set_account l a (free + y, res - y), x - y);
  deposit_into_existing l a x :=
    match accounts l !! a with
    | Some (free, res) =>
        if issued l + x <? U128 then inl (set_account l a (free + x, res), x)
        else inr "Overflow"%string
    | None => inr "DeadAccount"%string
    end;
  drop_positive_imbalance l x := MkLedger (accounts l) (issued l + x);
}.

(** Genesis balances. *)
Definition ledger (balances : list (AccountId * Z)) : Ledger :=
  MkLedger (list_to_map ((λ '(a, x), (a, (x, 0))) <$> balances)) (zsum snd balances).

(** ** Arithmetic and order *)

#[export] Instance perbill_nearest : PerbillOps := {
  perbill_mul p x := (p * x + 499999999) / PERBILL_ACCURACY;
  from_rational_approximation p q :=
    let q := q `max` 1 in
    let p := p `min` q in
    (p * PERBILL_ACCURACY) / q;
  from_parts p := p `min` PERBILL_ACCURACY;
}.

(** Slices of at most twenty elements are sorted by insertion. *)
Fixpoint insert_by {A} (c : A → A → comparison) (x : A) (l : list A) : list A :=
  match l with
  | [] => [x]
  | y :: l' => match c x y with Gt => y :: insert_by c x l' | _ => x :: l end
  end.

#[export] Instance insertion_sort : UnstableSort := λ A c l, foldr (insert_by c) [] l.

#[export] Instance plain_order : IterationOrder := λ V r l, l.

(** ** The configuration of the runtime, and of the tests *)

Definition percent (n : Z) : Perbill := n * 10000000.

(** [src/pallets/stake/src/mock.rs] *)
Definition mock_config : StakeConfig := {|
  BlocksPerRound := 5;
  BondDuration := 2;
  MaxValidators := 5;
  MaxNominatorsPerValidator := 4;
  MaxValidatorsPerNominator := 4;
  MaxFee := percent 50;
  MinValidatorStk := 10;
  MinNomination := 3;
  MinNominatorStk := 5;
|}.

(** ** The instances satisfy the laws *)

#[export] Instance mock_config_laws : @StakeConfigLaws mock_config.
Proof. by split. Qed.

Lemma account_insert l a b x :
  account (set_account l a x) b = if decide (b = a) then x else account l b.
Proof.
  unfold account, set_account. cbn. case_decide as H.
  - subst. by rewrite lookup_insert_eq.
  - by rewrite lookup_insert_ne.
Qed.

(** The ledger's invariant: no negative balance, and the issuance is their sum. *)
Definition balance_sum (x : Z * Z) : Z := x.1 + x.2.
Definition ledger_valid (l : Ledger) : Prop :=
  (∀ a x, accounts l !! a = Some x → 0 <= x.1 ∧ 0 <= x.2) ∧
  map_zsum balance_sum (accounts l) = issued l ∧ issued l < U128.

Lemma account_nonneg l a : ledger_valid l → 0 <= (account l a).1 ∧ 0 <= (account l a).2.
Proof.
  intros (H & _). unfold account. destruct (accounts l !! a) as [x|] eqn:E; cbn; [|lia].
  by apply (H a).
Qed.

Lemma ledger_move l a x issued' :
  ledger_valid l → 0 <= x.1 → 0 <= x.2 →
  issued' = issued l + balance_sum x - balance_sum (account l a) → issued' < U128 →
  ledger_valid (MkLedger (<[a:=x]> (accounts l)) issued').
Proof.
  intros (H1 & H2 & H3) Hx1 Hx2 Hi Hr. split_and!; cbn; [| |done].
  - intros b y. rewrite lookup_insert. case_decide; [naive_solver|apply H1].
  - unfold account in Hi. destruct (accounts l !! a) as [y|] eqn:E; cbn in Hi.
    + rewrite (map_zsum_insert _ _ _ y) by done. lia.
    + rewrite map_zsum_insert_new by done. unfold balance_sum in *. cbn in *. lia.
Qed.

(** Any duplicate-free choice of accounts holds at most what is issued. *)
Lemma ledger_sum_le l (as_ : list Z) :
  ledger_valid l → NoDup as_ →
  zsum (λ a, (account l a).1 + (account l a).2) as_ <= issued l.
Proof.
  intros Hv Hnd. destruct (Hv) as (H1 & <- & _). clear Hv.
  destruct l as [m i]. cbn in *. unfold account; cbn. clear i.
  revert m H1. induction Hnd as [|a as_ Ha Hnd IH]; intros m H1.
  { cbn. apply map_zsum_nonneg. intros k v Hk. unfold balance_sum.
    pose proof (H1 k v Hk). lia. }
  rewrite zsum_cons.
  assert (zsum (λ b, (default (0, 0) (m !! b)).1 + (default (0, 0) (m !! b)).2) as_ =
    zsum (λ b, (default (0, 0) (delete a m !! b)).1 + (default (0, 0) (delete a m !! b)).2)
      as_) as ->.
  { apply zsum_ext. intros b Hb. by rewrite lookup_delete_ne by (intros ->; done). }
  pose proof (IH (delete a m)) as IH'.
  destruct (m !! a) as [x|] eqn:E; cbn.
  - rewrite (map_zsum_delete _ _ _ x E) in IH'. unfold balance_sum in *. cut (
      zsum (λ b, (default (0, 0) (delete a m !! b)).1 + (default (0, 0) (delete a m !! b)).2)
        as_ <= map_zsum (λ x0, x0.1 + x0.2) m - (x.1 + x.2)); [lia|].
    apply IH'. intros k v [_ Hk]%lookup_delete_Some. eauto.
  - rewrite (delete_id m a E) in *. apply IH. done.
Qed.

#[export] Instance ledger_laws : CurrencyLaws Ledger.
Proof.
  apply (Build_CurrencyLaws Ledger _ ledger_valid); cbn -[account set_account U128].
  - lia.
  - intros. by apply account_nonneg.
  - intros. by apply ledger_sum_le.
  - intros c (H & <- & ?). split; [|done]. apply map_zsum_nonneg. intros k v Hk.
    unfold balance_sum. pose proof (H k v Hk). lia.
  - intros c a x c' Hv Hx. pose proof (account_nonneg c a Hv).
    destruct (account c a) as [f r] eqn:E. cbn in *.
    destruct (Z.leb_spec x f); [|done]. intros [= <-]. destruct (Hv) as (_ & _ & ?).
    apply ledger_move; cbn; [done|lia|lia| |done]. rewrite E. unfold balance_sum. cbn. lia.
  - intros c a x c' b Hv Hx. destruct (account c a) as [f r] eqn:E.
    destruct (Z.leb_spec x f); [|done]. intros [= <-]. rewrite account_insert.
    case_decide; [subst; by rewrite E|lia].
  - intros c a x c' b Hv Hx. destruct (account c a) as [f r] eqn:E.
    destruct (Z.leb_spec x f); [|done]. intros [= <-]. rewrite account_insert.
    case_decide; [subst; by rewrite E|lia].
  - intros c a x Hv Hx. pose proof (account_nonneg c a Hv).
    destruct (account c a) as [f r] eqn:E. cbn in *. destruct (Hv) as (_ & _ & ?).
    apply ledger_move; cbn; [done|lia|lia| |done]. rewrite E. unfold balance_sum. cbn. lia.
  - intros c a x b Hv Hx. destruct (account c a) as [f r] eqn:E. cbn -[account set_account].
    rewrite account_insert. case_decide; [subst; by rewrite E|lia].
  - intros c a x b Hv Hx. destruct (account c a) as [f r] eqn:E. cbn -[account set_account].
    rewrite account_insert. case_decide; [subst; by rewrite E|lia].
  - intros c a x c' imb Hv Hx. pose proof (account_nonneg c a Hv) as Hn.
    unfold account in Hn. destruct (accounts c !! a) as [[f r]|] eqn:E; [|done].
    cbn in Hn. case_match eqn:Hlt; [|done]. intros [= <- <-]. apply Z.ltb_lt in Hlt.
    unfold set_account. cbn. apply ledger_move; cbn; [done|lia|lia| |lia].
    unfold account. rewrite E. unfold balance_sum. cbn. lia.
  - intros c a x c' imb Hv Hx. destruct (accounts c !! a) as [[f r]|] eqn:E; [|done].
    case_match; naive_solver.
  - intros c a x c' imb b Hv Hx. destruct (accounts c !! a) as [[f r]|] eqn:E; [|done].
    case_match; [|done]. intros [= <- <-]. change (account (MkLedger ?m _)) with
      (account (MkLedger m (issued (set_account c a (f + x, r))))).
    change (MkLedger (accounts ?l) (issued ?l)) with l.
    rewrite account_insert. unfold account. case_decide; [subst; by rewrite E|done].
  - intros c a x c' imb b Hv Hx. destruct (accounts c !! a) as [[f r]|] eqn:E; [|done].
    case_match; [|done]. intros [= <- <-].
    change (account (MkLedger (accounts (set_account c a (f + x, r))) (issued (set_account c a (f + x, r)) + x)) b)
      with (account (set_account c a (f + x, r)) b).
    rewrite account_insert. unfold account. case_decide; [subst; by rewrite E|lia].
Defined.

(** Whether a concrete ledger is valid can be computed. *)
Lemma ledger_is_valid l :
  bool_decide (map_Forall (λ _ x, 0 <= x.1 ∧ 0 <= x.2) (accounts l)) &&
    (map_zsum balance_sum (accounts l) =? issued l) && (issued l <? U128) = true →
  cur_valid l.
Proof.
  intros [[H%bool_decide_eq_true ?%Z.eqb_eq]%andb_true_iff ?%Z.ltb_lt]%andb_true_iff.
  split_and!; [|done..]. intros a x. apply H.
Qed.

#[export] Instance perbill_nearest_accuracy : PerbillAccuracy.
Proof.
  split; cbn -[Z.div]; unfold PERBILL_ACCURACY.
  - intros p q Hp Hq. etransitivity; [by apply Z.mul_div_le; lia|]. nia.
  - intros p x Hp Hx. pose proof (Z.mul_div_le (p * x + 499999999) 1000000000 ltac:(lia)). lia.
Qed.
#[export] Instance perbill_nearest_laws : PerbillLaws.
Proof.
  split; cbn -[Z.div]; unfold PERBILL_ACCURACY.
  - intros. lia.
  - intros p q Hp Hq. split.
    + apply Z.div_pos; lia.
    + apply Z.div_le_upper_bound; nia.
  - intros p x Hp Hx. split.
    + apply Z.div_pos; [|lia]. nia.
    + pose proof (Z.mul_le_mono_nonneg_r p 1000000000 x Hx ltac:(lia)).
      apply Z.lt_succ_r, Z.div_lt_upper_bound; lia.
  - intros p p' x Hp Hle Hp' Hx. apply Z.div_le_mono; [lia|]. nia.
Qed.

Lemma insert_by_perm {A} (c : A → A → comparison) x l : insert_by c x l ≡ₚ x :: l.
Proof.
  induction l as [|y l IH]; cbn; [done|]. destruct (c x y); try done.
  rewrite IH. apply Permutation_swap.
Qed.

#[export] Instance insertion_sort_laws : UnstableSortLaws.
Proof.
  split; intros A key l; unfold sort_unstable_by, insertion_sort;
    induction l as [|x l IH]; cbn.
  - done.
  - by rewrite insert_by_perm, IH.
  - constructor.
  - revert IH. generalize (foldr (insert_by (λ x y, key x ?= key y)) [] l).
    intros s Hs. induction Hs as [|y s Hs IH Hy]; cbn; [repeat constructor|].
    destruct (key x ?= key y) eqn:E.
    + apply Z.compare_eq in E. constructor; [by constructor|]. constructor; [cbn; lia|].
      apply (Forall_impl _ _ _ Hy). intros. cbn in *. lia.
    + rewrite Z.compare_lt_iff in E. constructor; [by constructor|]. constructor; [cbn; lia|].
      apply (Forall_impl _ _ _ Hy). intros. cbn in *. lia.
    + rewrite Z.compare_gt_iff in E. constructor; [done|]. rewrite insert_by_perm.
      constructor; [lia|done].
Qed.

#[export] Instance plain_order_laws : IterationOrderLaws.
Proof. intros V r l. reflexivity. Qed.
