(* ===== verification/Scenarios.v ===== *)
(** * The unit tests of the stake pallet, replayed ([src/pallets/stake/src/tests.rs])

    The genesis configurations of [mock.rs] and all traces of [tests.rs], evaluated on the
    model with the reference frame; an [Example] has the name of its test. They check the
    model against the expectations that the repository states; nothing here is a
    hypothesis of a theorem. *)

From S2P Require Import Prelude OrderedSet Frame StakeTypes Inflation Stake Reference.

#[local] Existing Instance mock_config.

Abbreviation W := (World Ledger).
Abbreviation P := (Prog W (DispatchError Error)).

Definition run {A} (m : P A) (w : W) : W :=
  match m w with Done _ w' | Failed _ w' => w' | Panicked => w end.
Definition error_of {A} (m : P A) (w : W) : option (DispatchError Error) :=
  match m w with Failed e _ => Some e | _ => None end.

(** [assert_noop!]: the call fails with the error; that nothing changes is a theorem of
    [StakeTheorems.v]. *)
Definition refused {A} (m : P A) (e : DispatchError Error) (w : W) : Prop :=
  error_of m w = Some e.

(** [genesis] of [mock.rs]; the events of block zero are not recorded. *)
Definition flat (n : Z) : Range.t := Range.from n.
Definition genesis (balances : list (AccountId * Z))
    (stakers : list (AccountId * option AccountId * Z)) : W :=
  set_events [] (run (genesis_build Signed stakers)
    (empty_world {| InflationInfo.expect := flat 700; InflationInfo.round := flat (percent 5) |}
      (ledger balances))).

(** [roll_to] from block [b] for [n] blocks. *)
Fixpoint roll (b : Z) (n : nat) (w : W) : W :=
  match n with
  | O => w
  | S n => roll (b + 1) n (run (on_finalize b) w)
  end.
Definition roll_to (from to : Z) (w : W) : W := roll from (Z.to_nat (to - from)) w.

(** [set_author] of [mock.rs]. *)
Definition set_author (round acc pts : Z) (w : W) : W :=
  set_Points (<[round:=get_or 0 (Points w) round + pts]> (Points w))
    (set_AwardedPts (<[(round, acc):=get_or 0 (AwardedPts w) (round, acc) + pts]>
      (AwardedPts w)) w).

Definition two_validators_four_nominators : W :=
  genesis [(1, 1000); (2, 300); (3, 100); (4, 100); (5, 100); (6, 100); (7, 100); (8, 9); (9, 4)]
    [(1, None, 500); (2, None, 200);
     (3, Some 1, 100); (4, Some 1, 100); (5, Some 2, 100); (6, Some 2, 100)].

Definition five_validators_no_nominators : W :=
  genesis [(1, 1000); (2, 1000); (3, 1000); (4, 1000); (5, 1000); (6, 1000); (7, 33); (8, 33); (9, 33)]
    [(1, None, 100); (2, None, 90); (3, None, 80); (4, None, 70); (5, None, 60); (6, None, 50)].

Definition five_validators_five_nominators : W :=
  genesis [(1, 100); (2, 100); (3, 100); (4, 100); (5, 100); (6, 100); (7, 100); (8, 100); (9, 100);
     (10, 100)]
    [(1, None, 20); (2, None, 20); (3, None, 20); (4, None, 20); (5, None, 10);
     (6, Some 1, 10); (7, Some 1, 10); (8, Some 2, 10); (9, Some 2, 10); (10, Some 1, 10)].

Definition one_validator_two_nominators : W :=
  genesis [(1, 100); (2, 100); (3, 100); (4, 100); (5, 100); (6, 100)]
    [(1, None, 20); (2, Some 1, 10); (3, Some 1, 10)].

(** The events of the mock runtime, [last_event] (an [expect]) and [events], which keeps those
    of the pallet: [events] of a world. *)
Inductive MetaEvent :=
| frame_system_event (encoded : list Z)
| pallet_balances_event (encoded : list Z)
| stake_event (e : Event).
Definition last_event (system_events : list MetaEvent) : option MetaEvent := last system_events.
Definition stake_events (system_events : list MetaEvent) : list Event :=
  omap (λ e, match e with stake_event inner => Some inner | _ => None end) system_events.

Lemma stake_events_of_world (w : W) (others : list Z) :
  stake_events (frame_system_event others :: (stake_event <$> events w)) = events w ∧
  last_event (stake_event <$> events w) = stake_event <$> last (events w).
Proof.
  split; [|apply fmap_last]. unfold stake_events. cbn.
  induction (events w) as [|e l IH]; [done|]. cbn. by rewrite IH.
Qed.

(** The five validators with the most stake, as events. *)
Definition chosen (round : Z) (l : list (Z * Z)) : list Event :=
  (λ '(a, x), ValidatorChosen round a x) <$> l.
Definition solo : list (Z * Z) := [(1, 100); (2, 90); (3, 80); (4, 70); (5, 60)].

(** The free and the reserved balance. *)
Definition held (w : W) (a : AccountId) : Z * Z :=
  (free_balance (currency w) a, reserved_balance (currency w) a).

(** [geneses] *)
Example geneses :
  let w := two_validators_four_nominators in
  let w' := five_validators_five_nominators in
  events w = [] ∧
  held w <$> [1; 2; 3; 4; 5; 6; 7; 8; 9] =
    [(500, 500); (100, 200); (0, 100); (0, 100); (0, 100); (0, 100); (100, 0); (9, 0); (4, 0)] ∧
  is_candidate w <$> [1; 2] = [true; true] ∧
  is_nominator w <$> [3; 4; 5; 6; 7; 8; 9] = [true; true; true; true; false; false; false] ∧
  events w' = [] ∧
  held w' <$> [1; 2; 3; 4; 5] = replicate 4 (80, 20) ++ [(90, 10)] ∧
  held w' <$> [6; 7; 8; 9; 10] = replicate 5 (90, 10) ∧
  is_candidate w' <$> [1; 2; 3; 4; 5] = replicate 5 true ∧
  is_nominator w' <$> [6; 7; 8; 9; 10] = replicate 5 true.
Proof. vm_compute. repeat split. Qed.

(** [online_offline_works] *)
Example online_offline_works :
  let w := roll_to 1 11 two_validators_four_nominators in
  let w1 := run (go_offline (Signed 2)) w in
  let w2 := roll_to 11 21 w1 in
  refused (go_offline (Signed 3)) (Module_ CandidateDNE) w ∧
  refused (go_online (Signed 3)) (Module_ CandidateDNE) w ∧
  refused (go_online (Signed 2)) (Module_ AlreadyActive) w ∧
  last (events w1) = Some (ValidatorWentOffline 3 2) ∧
  refused (go_offline (Signed 2)) (Module_ AlreadyOffline) w2 ∧
  events (roll_to 21 26 (run (go_online (Signed 2)) w2)) =
    [ValidatorChosen 2 1 700; ValidatorChosen 2 2 400; NewRound 5 2 2 1100;
     ValidatorChosen 3 1 700; ValidatorChosen 3 2 400; NewRound 10 3 2 1100;
     ValidatorWentOffline 3 2;
     ValidatorChosen 4 1 700; NewRound 15 4 1 700;
     ValidatorChosen 5 1 700; NewRound 20 5 1 700;
     ValidatorBackOnline 5 2;
     ValidatorChosen 6 1 700; ValidatorChosen 6 2 400; NewRound 25 6 2 1100].
Proof. vm_compute. repeat split. Qed.

(** [validator_commission] *)
Example validator_commission :
  let w := roll_to 1 8 one_validator_two_nominators in
  let w := roll_to 8 9 (run (join_candidates (Signed 4) (percent 20) 20) w) in
  let w := run (join_nominators (Signed 6) 4 10) (run (join_nominators (Signed 5) 4 10) w) in
  let w := set_author 3 4 100 (roll_to 9 11 w) in
  events (roll_to 11 21 w) =
    [ValidatorChosen 2 1 40; NewRound 5 2 1 40;
     JoinedValidatorCandidates 4 20 60; ValidatorNominated 5 10 4 30; NominatorJoined 5 10;
     ValidatorNominated 6 10 4 40; NominatorJoined 6 10;
     ValidatorChosen 3 4 40; ValidatorChosen 3 1 40; NewRound 10 3 2 80;
     ValidatorChosen 4 4 40; ValidatorChosen 4 1 40; NewRound 15 4 2 80;
     Rewarded 4 18; Rewarded 5 6; Rewarded 6 6;
     ValidatorChosen 5 4 40; ValidatorChosen 5 1 40; NewRound 20 5 2 80].
Proof. vm_compute. repeat split. Qed.

(** [exit_queue] *)
Example exit_queue :
  let w := run (leave_candidates (Signed 6)) (roll_to 1 8 five_validators_no_nominators) in
  let w := run (leave_candidates (Signed 5)) (roll_to 8 11 w) in
  let w := run (leave_candidates (Signed 4)) (roll_to 11 16 w) in
  refused (leave_candidates (Signed 4)) (Module_ AlreadyLeaving) w ∧
  events (roll_to 16 21 w) =
    [ValidatorChosen 2 1 100; ValidatorChosen 2 2 90; ValidatorChosen 2 3 80;
     ValidatorChosen 2 4 70; ValidatorChosen 2 5 60; NewRound 5 2 5 400;
     ValidatorScheduledExit 2 6 4;
     ValidatorChosen 3 1 100; ValidatorChosen 3 2 90; ValidatorChosen 3 3 80;
     ValidatorChosen 3 4 70; ValidatorChosen 3 5 60; NewRound 10 3 5 400;
     ValidatorScheduledExit 3 5 5; ValidatorLeft 6 50 400;
     ValidatorChosen 4 1 100; ValidatorChosen 4 2 90; ValidatorChosen 4 3 80;
     ValidatorChosen 4 4 70; NewRound 15 4 4 340;
     ValidatorScheduledExit 4 4 6; ValidatorLeft 5 60 340;
     ValidatorChosen 5 1 100; ValidatorChosen 5 2 90; ValidatorChosen 5 3 80;
     NewRound 20 5 3 270].
Proof. vm_compute. repeat split. Qed.

(** [multiple_nominations] *)
Example multiple_nominations :
  let w := roll_to 1 8 five_validators_five_nominators in
  let w1 := run (nominate_new (Signed 6) 4 10)
    (run (nominate_new (Signed 6) 3 10) (run (nominate_new (Signed 6) 2 10) w)) in
  let w2 := roll_to 8 16 w1 in
  let w3 := run (nominate_new (Signed 7) 2 80) (roll_to 16 21 w2) in
  let w4 := roll_to 21 26 w3 in
  let w5 := run (leave_candidates (Signed 2)) w4 in
  let w6 := roll_to 26 31 w5 in
  let w7 := roll_to 31 40 w6 in
  let l := [(2, 50); (1, 50); (4, 30); (3, 30); (5, 10)] in
  let summary w a := (λ n, (Nominator.total n, length (Nominator.nominations n))) <$>
    Nominators w !! a in
  events w = chosen 2 [(1, 50); (2, 40); (4, 20); (3, 20); (5, 10)] ++ [NewRound 5 2 5 140] ∧
  refused (nominate_new (Signed 5) 2 10) (Module_ NominatorDNE) w ∧
  refused (nominate_new (Signed 11) 1 10) (Module_ NominatorDNE) w ∧
  refused (nominate_new (Signed 6) 1 10) (Module_ AlreadyNominatedValidator) w ∧
  refused (nominate_new (Signed 6) 2 2) (Module_ NominationBelowMin) w ∧
  refused (nominate_new (Signed 6) 5 10) (Module_ ExceedMaxValidatorsPerNom) w1 ∧
  events w2 = events w ++
    [ValidatorNominated 6 10 2 50; ValidatorNominated 6 10 3 30; ValidatorNominated 6 10 4 30] ++
    chosen 3 l ++ [NewRound 10 3 5 170] ++ chosen 4 l ++ [NewRound 15 4 5 170] ∧
  refused (nominate_new (Signed 7) 3 11) (External "InsufficientBalance") w3 ∧
  refused (nominate_new (Signed 10) 2 10) (Module_ TooManyNominators) w3 ∧
  events w4 = events w2 ++ chosen 5 l ++ [NewRound 20 5 5 170; ValidatorNominated 7 80 2 130] ++
    chosen 6 [(2, 130); (1, 50); (4, 30); (3, 30); (5, 10)] ++ [NewRound 25 6 5 250] ∧
  events w6 = events w4 ++ [ValidatorScheduledExit 6 2 8] ++
    chosen 7 [(1, 50); (4, 30); (3, 30); (5, 10)] ++ [NewRound 30 7 4 120] ∧
  summary w6 <$> [7; 6] = [Some (90, 2%nat); Some (40, 4%nat)] ∧
  held w6 <$> [6; 7] = [(60, 40); (10, 90)] ∧
  summary w7 <$> [7; 6] = [Some (10, 1%nat); Some (30, 3%nat)] ∧
  held w7 <$> [6; 7] = [(70, 30); (90, 10)].
Proof. vm_compute. repeat split. Qed.

(** [validators_bond] *)
Example validators_bond :
  let w := roll_to 1 4 five_validators_five_nominators in
  let w1 := run (candidate_bond_more (Signed 1) 50) w in
  let w2 := run (leave_candidates (Signed 1)) w1 in
  let w3 := run (candidate_bond_less (Signed 3) 10) (run (candidate_bond_less (Signed 2) 90)
    (run (candidate_bond_more (Signed 2) 80) (roll_to 4 30 w2))) in
  refused (candidate_bond_more (Signed 6) 50) (Module_ CandidateDNE) w ∧
  refused (candidate_bond_more (Signed 1) 40) (External "InsufficientBalance") w1 ∧
  refused (candidate_bond_more (Signed 1) 30) (Module_ CannotActivateIfLeaving) w2 ∧
  refused (candidate_bond_more (Signed 1) 40) (Module_ CandidateDNE) w3 ∧
  refused (candidate_bond_less (Signed 2) 11) (Module_ Underflow) w3 ∧
  refused (candidate_bond_less (Signed 2) 1) (Module_ ValBondBelowMin) w3 ∧
  refused (candidate_bond_less (Signed 3) 1) (Module_ ValBondBelowMin) w3 ∧
  refused (candidate_bond_less (Signed 4) 11) (Module_ ValBondBelowMin) w3 ∧
  error_of (candidate_bond_less (Signed 4) 10) w3 = None.
Proof. vm_compute. repeat split. Qed.

(** [nominators_bond] *)
Example nominators_bond :
  let w := roll_to 1 4 five_validators_five_nominators in
  let w1 := run (nominator_bond_more (Signed 6) 1 10) w in
  let w1' := roll_to 4 9 w1 in
  let w2 := roll_to 9 31 (run (leave_candidates (Signed 1)) w1') in
  refused (nominator_bond_more (Signed 1) 2 50) (Module_ NominatorDNE) w ∧
  refused (nominator_bond_more (Signed 6) 2 50) (Module_ NominationDNE) w ∧
  refused (nominator_bond_more (Signed 7) 6 50) (Module_ CandidateDNE) w ∧
  refused (nominator_bond_less (Signed 6) 1 11) (Module_ Underflow) w ∧
  refused (nominator_bond_less (Signed 6) 1 8) (Module_ NominationBelowMin) w ∧
  refused (nominator_bond_less (Signed 6) 1 6) (Module_ NomBondBelowMin) w ∧
  refused (nominator_bond_less (Signed 6) 2 5) (Module_ NominationDNE) w1 ∧
  refused (nominator_bond_more (Signed 6) 1 81) (External "InsufficientBalance") w1 ∧
  held w1' 6 = (80, 20) ∧ is_nominator w2 6 = false ∧ held w2 6 = (100, 0).
Proof. vm_compute. repeat split. Qed.

(** [join_validator_candidates] *)
Example join_validator_candidates :
  let w := two_validators_four_nominators in
  refused (join_candidates (Signed 1) (percent 2) 11) (Module_ CandidateExists) w ∧
  refused (join_candidates (Signed 3) (percent 2) 11) (Module_ NominatorExists) w ∧
  refused (join_candidates (Signed 7) (percent 2) 9) (Module_ ValBondBelowMin) w ∧
  refused (join_candidates (Signed 8) (percent 2) 10) (External "InsufficientBalance") w ∧
  refused (join_candidates (Signed 7) (percent 51) 10) (Module_ FeeOverMax) w ∧
  events w = [] ∧
  last (events (run (join_candidates (Signed 7) (percent 3) 10) w)) =
    Some (JoinedValidatorCandidates 7 10 1110).
Proof. vm_compute. repeat split. Qed.

(** [validator_exit_executes_after_delay] *)
Example validator_exit_executes_after_delay :
  let w := roll_to 1 4 two_validators_four_nominators in
  let w1 := run (leave_candidates (Signed 2)) (roll_to 4 11 w) in
  refused (leave_candidates (Signed 3)) (Module_ CandidateDNE) w ∧
  last (events w1) = Some (ValidatorScheduledExit 3 2 5) ∧
  (Validator.state <$> Candidates w1 !! 2) = Some (Leaving 5) ∧
  events (roll_to 11 21 w1) =
    [ValidatorChosen 2 1 700; ValidatorChosen 2 2 400; NewRound 5 2 2 1100;
     ValidatorChosen 3 1 700; ValidatorChosen 3 2 400; NewRound 10 3 2 1100;
     ValidatorScheduledExit 3 2 5;
     ValidatorChosen 4 1 700; NewRound 15 4 1 700;
     ValidatorLeft 2 400 700;
     ValidatorChosen 5 1 700; NewRound 20 5 1 700].
Proof. vm_compute. repeat split. Qed.

(** [validator_selection_chooses_top_candidates] *)
Example validator_selection_chooses_top_candidates :
  let w := roll_to 1 8 five_validators_no_nominators in
  let w1 := run (leave_candidates (Signed 6)) w in
  let w2 := run (join_candidates (Signed 6) (percent 2) 69) (roll_to 8 21 w1) in
  events w = chosen 2 solo ++ [NewRound 5 2 5 400] ∧
  last (events w1) = Some (ValidatorScheduledExit 2 6 4) ∧
  last (events w2) = Some (JoinedValidatorCandidates 6 69 469) ∧
  events (roll_to 21 27 w2) =
    chosen 2 solo ++ [NewRound 5 2 5 400; ValidatorScheduledExit 2 6 4] ++
    chosen 3 solo ++ [NewRound 10 3 5 400; ValidatorLeft 6 50 400] ++
    chosen 4 solo ++ [NewRound 15 4 5 400] ++
    chosen 5 solo ++ [NewRound 20 5 5 400; JoinedValidatorCandidates 6 69 469] ++
    chosen 6 [(1, 100); (2, 90); (3, 80); (4, 70); (6, 69)] ++ [NewRound 25 6 5 409].
Proof. vm_compute. repeat split. Qed.

(** [payout_distribution_to_solo_validators]; the order in which the validators of one
    round are paid is that of the storage, so the last payout is compared as a set. *)
Example payout_distribution_to_solo_validators :
  let w := set_author 2 1 100 (roll_to 1 8 five_validators_no_nominators) in
  let w := roll_to 8 16 w in
  let w1 := roll_to 16 26 (set_author 4 2 40 (set_author 4 1 60 w)) in
  let w2 := foldl (λ w a, set_author 6 a 20 w) w1 [1; 2; 3; 4; 5] in
  let w3 := roll_to 26 36 w2 in
  events w =
    chosen 2 solo ++ [NewRound 5 2 5 400] ++ chosen 3 solo ++ [NewRound 10 3 5 400] ++
    [Rewarded 1 305] ++ chosen 4 solo ++ [NewRound 15 4 5 400] ∧
  events w1 = events w ++
    chosen 5 solo ++ [NewRound 20 5 5 400] ++
    [Rewarded 1 192; Rewarded 2 128] ++ chosen 6 solo ++ [NewRound 25 6 5 400] ∧
  (∃ paid, paid ≡ₚ [Rewarded 5 67; Rewarded 3 67; Rewarded 1 67; Rewarded 4 67; Rewarded 2 67] ∧
    events w3 = events w1 ++
      chosen 7 solo ++ [NewRound 30 7 5 400] ++
      paid ++ chosen 8 solo ++ [NewRound 35 8 5 400]) ∧
  AwardedPts w3 = ∅.
Proof.
  split; [vm_compute; reflexivity|]. split; [vm_compute; reflexivity|].
  split; [|vm_compute; reflexivity].
  exists ((λ a, Rewarded a 67) <$> [3; 5; 1; 2; 4]). split; [|vm_compute; reflexivity].
  apply (fmap_Permutation (λ a, Rewarded a 67) [3; 5; 1; 2; 4] [5; 3; 1; 4; 2]).
  etrans; [apply perm_swap|]. do 3 apply perm_skip. apply perm_swap.
Qed.

(** [switch_nomination] *)
Example switch_nomination_works :
  let w := roll_to 1 8 five_validators_five_nominators in
  let w1 := run (switch_nomination (Signed 6) 1 2) w in
  let w2 := run (switch_nomination (Signed 8) 2 1) (run (switch_nomination (Signed 7) 1 2) w1) in
  let w3 := run (switch_nomination (Signed 10) 1 2) (run (switch_nomination (Signed 9) 2 1) w2) in
  let before := [(1, 50); (2, 40); (4, 20); (3, 20); (5, 10)] in
  let after := [(2, 50); (1, 40); (4, 20); (3, 20); (5, 10)] in
  events w = chosen 2 before ++ [NewRound 5 2 5 140] ∧
  refused (switch_nomination (Signed 1) 1 2) (Module_ NominatorDNE) w ∧
  refused (switch_nomination (Signed 6) 1 7) (Module_ CandidateDNE) w ∧
  refused (switch_nomination (Signed 6) 2 1) (Module_ NominationDNE) w ∧
  refused (switch_nomination (Signed 6) 1 1) (Module_ CannotSwitchToSameNomination) w ∧
  last (events w1) = Some (NominationSwapped 6 10 1 2) ∧
  last (events w2) = Some (NominationSwapped 8 10 2 1) ∧
  last (events w3) = Some (NominationSwapped 10 10 1 2) ∧
  (λ a, (is_candidate w3 a, free_balance (currency w3) a, reserved_balance (currency w3) a)) <$>
    [1; 2; 3; 4; 5] = [(true, 80, 20); (true, 80, 20); (true, 80, 20); (true, 80, 20);
      (true, 90, 10)] ∧
  (λ a, (is_nominator w3 a, free_balance (currency w3) a, reserved_balance (currency w3) a)) <$>
    [6; 7; 8; 9; 10] = replicate 5 (true, 90, 10) ∧
  events (roll_to 8 16 w3) = events w ++
    [NominationSwapped 6 10 1 2; NominationSwapped 7 10 1 2; NominationSwapped 8 10 2 1;
     NominationSwapped 9 10 2 1; NominationSwapped 10 10 1 2] ++
    chosen 3 after ++ [NewRound 10 3 5 140] ++ chosen 4 after ++ [NewRound 15 4 5 140].
Proof. vm_compute. repeat split. Qed.

(** [revoke_nomination_or_leave_nominators] *)
Example revoke_nomination_or_leave_nominators :
  let w := roll_to 1 4 five_validators_five_nominators in
  let w1 := run (leave_nominators (Signed 6)) w in
  refused (revoke_nomination (Signed 1) 2) (Module_ NominatorDNE) w ∧
  refused (revoke_nomination (Signed 6) 2) (Module_ NominationDNE) w ∧
  refused (revoke_nomination (Signed 6) 1) (Module_ NomBondBelowMin) w ∧
  refused (leave_nominators (Signed 1)) (Module_ NominatorDNE) w ∧
  error_of (leave_nominators (Signed 6)) w = None ∧
  refused (revoke_nomination (Signed 8) 2) (Module_ NomBondBelowMin) w1 ∧
  error_of (nominate_new (Signed 8) 1 10) w1 = None ∧
  error_of (revoke_nomination (Signed 8) 2) (run (nominate_new (Signed 8) 1 10) w1) = None.
Proof. vm_compute. repeat split. Qed.

(** [payouts_follow_nomination_changes] *)
Example payouts_follow_nomination_changes :
  let l1 := [(1, 50); (2, 40); (4, 20); (3, 20); (5, 10)] in
  let l2 := [(2, 40); (1, 40); (4, 20); (3, 20); (5, 10)] in
  let pay x y l := Rewarded 1 x :: ((λ a, Rewarded a y) <$> l) in
  let w := roll_to 1 8 five_validators_five_nominators in
  let w1 := roll_to 8 16 (set_author 2 1 100 w) in
  let w2 := set_author 4 1 100 (set_author 3 1 100 w1) in
  let w3 := roll_to 16 21 (run (leave_nominators (Signed 6)) w2) in
  let w4 := roll_to 21 26 (set_author 5 1 100 w3) in
  let w5 := set_author 7 1 100 (roll_to 26 31 (set_author 6 1 100 w4)) in
  let w6 := roll_to 31 36 (run (nominate_new (Signed 8) 1 10) w5) in
  let w7 := roll_to 36 41 (set_author 8 1 100 w6) in
  events w = chosen 2 l1 ++ [NewRound 5 2 5 140] ∧
  events w1 = events w ++ chosen 3 l1 ++ [NewRound 10 3 5 140] ++
    pay 20 10 [6; 7; 10] ++ chosen 4 l1 ++ [NewRound 15 4 5 140] ∧
  refused (leave_nominators (Signed 66)) (Module_ NominatorDNE) w2 ∧
  events w3 = events w1 ++ [NominatorLeftValidator 6 1 10 40; NominatorLeft 6 10] ++
    pay 21 10 [6; 7; 10] ++ chosen 5 l2 ++ [NewRound 20 5 5 130] ∧
  events w4 = events w3 ++ pay 22 11 [6; 7; 10] ++ chosen 6 l2 ++ [NewRound 25 6 5 130] ∧
  events w5 = events w4 ++ pay 29 14 [7; 10] ++ chosen 7 l2 ++ [NewRound 30 7 5 130] ∧
  refused (nominate_new (Signed 6) 2 10) (Module_ NominatorDNE) w5 ∧
  events w6 = events w5 ++ [ValidatorNominated 8 10 1 50] ++
    pay 30 15 [7; 10] ++ chosen 8 l1 ++ [NewRound 35 8 5 140] ∧
  events w7 = events w6 ++ pay 32 16 [7; 10] ++ chosen 9 l1 ++ [NewRound 40 9 5 140].
Proof. vm_compute. repeat split. Qed.
