(* ===== verification/StakeTheorems.v ===== *)
(** * The stake pallet: what it guarantees

    The main theorems on the pallet, each with a witness on the reference frame. *)

From S2P Require Import Prelude OrderedSet Frame StakeTypes BondMap Inflation Stake.
From S2P Require Import StakeLogic Registry Books Solvency Rounds Payouts Reference.

(** ** A chain to instantiate the theorems with *)

#[local] Existing Instance mock_config.

Module Demo.

Definition config : InflationInfo.t :=
  {| InflationInfo.expect := Range.from 700; InflationInfo.round := Range.from (percent 5) |}.
Definition balances : list (AccountId * Z) :=
  [(1, 1000); (2, 300); (3, 100); (4, 100); (5, 100); (6, 100); (7, 100); (8, 9)].
Definition stakers : list (AccountId * option AccountId * Z) :=
  [(1, None, 500); (2, None, 200);
   (3, Some 1, 100); (4, Some 1, 100); (5, Some 2, 100); (6, Some 2, 100)].
Definition start : World Ledger := empty_world config (ledger balances).

(** The world an outcome leaves, and the outcomes of successful runs. *)
Definition world_of {A} (o : Outcome (World Ledger) (DispatchError Error) A) : World Ledger :=
  match o with Done _ w | Failed _ w => w | Panicked => start end.
Definition succeeds {A} (o : Outcome (World Ledger) (DispatchError Error) A) : bool :=
  match o with Done _ _ => true | _ => false end.

Lemma succeeds_Done (o : Outcome (World Ledger) (DispatchError Error) unit) :
  succeeds o = true → o = Done tt (world_of o).
Proof. by destruct o as [[] ?|?|]. Qed.

Definition genesis : World Ledger := world_of (genesis_build Signed stakers start).

Lemma balances_valid : cur_valid (ledger balances).
Proof. apply ledger_is_valid. vm_compute. reflexivity. Qed.

Lemma stakers_in_range : Forall (λ '(_, _, balance), 0 <= balance < U128) stakers.
Proof. by repeat (constructor; [by split|]). Qed.

Lemma genesis_runs : genesis_build Signed stakers start = Done tt genesis.
Proof. apply succeeds_Done. vm_compute. reflexivity. Qed.

Lemma genesis_sound : sound genesis.
Proof.
  pose proof (genesis_build_sound Signed stakers start stakers_in_range
    (empty_world_sound config _ balances_valid)) as H.
  unfold wp in H. by rewrite genesis_runs in H.
Qed.
End Demo.

(** ** Chains *)

Section chains.
Context {Origin Cur : Type}.
Context `{FO : FrameOrigin Origin, MO : MonetaryPolicyOrigin Origin, CU : Currency Cur}.
Context {CL : CurrencyLaws Cur}.
Context `{PO : PerbillOps, US : UnstableSort, IO : IterationOrder, SC : StakeConfig}.
Context {SL : UnstableSortLaws} {CF : StakeConfigLaws}.
Implicit Types (w : World Cur).

(** C1. From a genesis build with balances in range, every chain of orderly steps (calls
    with any origin that do not merge nominations, successful or not, ends of blocks,
    authors, other pallets) keeps the pool, the exit queue and the books: the pool holds
    exactly the active candidates with their totals, the queue the leaving ones, both
    sides of every nomination agree, every total is the exact sum of its parts, and all
    stake is reserved. *)
Theorem chain_keeps_books signed_by config c stakers w0 w :
  cur_valid c → Forall (λ '(_, _, balance), 0 <= balance < U128) stakers →
  genesis_build signed_by stakers (empty_world config c) = Done tt w0 →
  rtc orderly_step w0 w → sound w.
Proof using CL SL CF.
  intros Hc Hst E Hr. apply (orderly_steps_sound w0); [done|].
  pose proof (genesis_build_sound signed_by stakers _ Hst (empty_world_sound config c Hc)) as H.
  unfold wp in H. by rewrite E in H.
Qed.

(** C4. Nothing panics in any world the chain can reach, merged nominations included: a
    call with any origin and any arguments returns [Ok] or an error, and the end of
    every block and every block author are processed to the end. *)
Theorem nothing_panics signed_by config c stakers w :
  reachable signed_by config c stakers w →
  (∀ origin call, no_panic (dispatch origin call w)) ∧
  (∀ n, ∃ w', on_finalize n w = Done tt w') ∧
  (∀ a, ∃ w', note_author a w = Done tt w').
Proof using SL CF.
  intros Hr. pose proof (reachable_pool _ _ _ _ _ rounds_fit Hr) as Hp. split_and!.
  - intros origin call. pose proof (dispatch_keeps origin call w rounds_fit Hp) as H.
    unfold wp in H. by destruct (dispatch origin call w).
  - intros n. assert (BlocksPerRound ≠ 0) as Hb by (pose proof rounds_fit; lia).
    pose proof (on_finalize_pool n w Hb Hp) as H.
    unfold wp in H. destruct (on_finalize n w) as [[] w'|?|]; [by eexists|done..].
  - intros a. pose proof (note_author_registry a w) as H. unfold wp in H.
    destruct (note_author a w) as [[] w'|?|]; [by eexists|done..].
Qed.

(** C5. A call that fails in a sound world leaves the storage, the balances and the
    events exactly as they were, although the runtime does not roll back writes. *)
Theorem failed_call_leaves_no_trace origin call e w w' :
  sound w → dispatch origin call w = Failed e w' → w' = w.
Proof using CL CF.
  intros Hs E. pose proof (dispatch_sound_settled origin call w Hs) as H.
  unfold wp in H. by rewrite E in H.
Qed.

(** C6. Along every orderly chain all stake is backed: an account never has more at stake than
    its reserved balance, any accounts together never more than the total issuance, and
    the total of a candidate is the exact sum of its bond and its nominations, below
    [2^128]. *)
Theorem stake_is_backed w0 w :
  sound w0 → rtc orderly_step w0 w →
  (∀ a, 0 <= staked (Candidates w) (Nominators w) a <= reserved_balance (currency w) a) ∧
  (∀ l, NoDup l →
    zsum (staked (Candidates w) (Nominators w)) l <= total_issuance (currency w)) ∧
  (∀ v c, Candidates w !! v = Some c →
    Validator.total c = Validator.bond c + zsum amount (Validator.nominators c) ∧
    0 <= Validator.total c < U128).
Proof using CL SL CF.
  intros Hs Hr. destruct (orderly_steps_sound w0 w Hr Hs) as [_ [Hc Hb]]. split_and!.
  - intros a. split; [|by apply backed].
    pose proof (own_bond_nonneg Hb a). pose proof (nominated_nonneg Hb a). unfold staked. lia.
  - intros l Hl. etransitivity; [|by apply (balances_issued (currency w) l)].
    apply zsum_le. intros a _. pose proof (backed _ _ _ Hb a).
    pose proof (balances_nonneg (currency w) a Hc). lia.
  - intros v c Hv. split.
    + rewrite bond_sum_map by by eapply (cand_sorted _ _ _ Hb). by apply (cand_total _ _ _ Hb v).
    + apply (total_bound Hb v c); [|done]. intros l. by apply reserved_issued.
Qed.

(** C11. In a sound world a nominator can always leave, and all its nominations end. *)
Theorem nominator_can_leave origin a n w :
  sound w → ensure_signed origin = Some a → Nominators w !! a = Some n →
  ∃ w', leave_nominators origin w = Done tt w' ∧ sound w' ∧
    Nominators w' = delete a (Nominators w) ∧
    ∀ v, backing (Candidates w') v a = None.
Proof using CL.
  intros [Hp Hs] Ho Ha.
  pose proof (leave_nominators_solvent origin a n w Hp Hs Ho Ha) as H.
  pose proof (leave_nominators_keeps origin w Hp) as Hk. unfold wp in H, Hk.
  destruct (leave_nominators origin w) as [[] w'|?|]; [|done..]. destruct H as [Hs' Hn].
  exists w'. split; [done|split; [by split|split; [done|]]]. intros v.
  rewrite <-(bilateral _ _ _ (proj2 Hs')). unfold nomination. by rewrite Hn, lookup_delete_eq.
Qed.
End chains.

(** The chain of the witnesses: 5 bonds more with 2, 7 tries to leave, block 5 ends. *)
Module Chain.
Import Demo.

Definition w1 : World Ledger :=
  world_of (dispatch (Signed 7) (Call_join_nominators 2 50) genesis).
Definition w2 : World Ledger := world_of (dispatch (Signed 8) Call_leave_nominators w1).
Definition w3 : World Ledger := world_of (on_finalize 5 w2).

Lemma steps : rtc orderly_step genesis w3.
Proof.
  apply (rtc_l _ _ w1).
  { apply (orderly_dispatch _ (Signed 7) (Call_join_nominators 2 50) tt); [done|].
    apply succeeds_Done. vm_compute. reflexivity. }
  apply (rtc_l _ _ w2).
  { apply (orderly_failed _ (Signed 8) Call_leave_nominators (Module_ NominatorDNE)); [done|].
    vm_compute. reflexivity. }
  apply rtc_once. apply (orderly_finalize _ 5 tt). apply succeeds_Done. vm_compute. reflexivity.
Qed.
End Chain.

Lemma chain_keeps_books_witness :
  rtc orderly_step Demo.genesis Chain.w3 ∧ sound Chain.w3.
Proof.
  split; [exact Chain.steps|].
  apply (chain_keeps_books Signed Demo.config (ledger Demo.balances) Demo.stakers Demo.genesis);
    [exact Demo.balances_valid|exact Demo.stakers_in_range|exact Demo.genesis_runs|exact Chain.steps].
Defined.

Lemma nothing_panics_witness :
  no_panic (dispatch (Signed 3) (Call_switch_nomination 1 2) Demo.genesis).
Proof.
  assert (reachable Signed Demo.config (ledger Demo.balances) Demo.stakers Demo.genesis) as H.
  { exists tt, Demo.genesis. split; [exact Demo.genesis_runs|apply rtc_refl]. }
  exact (proj1 (nothing_panics Signed Demo.config (ledger Demo.balances) Demo.stakers
    Demo.genesis H) (Signed 3) (Call_switch_nomination 1 2)).
Defined.

Lemma failed_call_leaves_no_trace_witness :
  ∃ w', dispatch (Signed 8) Call_go_offline Demo.genesis = Failed (Module_ CandidateDNE) w' ∧
    w' = Demo.genesis.
Proof.
  assert (dispatch (Signed 8) Call_go_offline Demo.genesis =
    Failed (Module_ CandidateDNE) Demo.genesis) as E by (vm_compute; reflexivity).
  exists Demo.genesis. split; [exact E|].
  exact (failed_call_leaves_no_trace (Signed 8) Call_go_offline (Module_ CandidateDNE)
    Demo.genesis Demo.genesis Demo.genesis_sound E).
Defined.

Lemma stake_is_backed_witness :
  reserved_balance (currency Chain.w3) 7 = 50 ∧
  0 <= staked (Candidates Chain.w3) (Nominators Chain.w3) 7 <=
    reserved_balance (currency Chain.w3) 7.
Proof.
  split; [vm_compute; reflexivity|].
  exact (proj1 (stake_is_backed Demo.genesis Chain.w3 Demo.genesis_sound Chain.steps) 7).
Defined.

Lemma nominator_can_leave_witness :
  ∃ w', leave_nominators (Signed 3) Demo.genesis = Done tt w' ∧ sound w' ∧
    Nominators w' = delete 3 (Nominators Demo.genesis) ∧
    ∀ v, backing (Candidates w') v 3 = None.
Proof.
  assert (Nominators Demo.genesis !! 3 = Some (Nominator.new 1 100)) as E
    by (vm_compute; reflexivity).
  exact (nominator_can_leave (Signed 3) 3 (Nominator.new 1 100) Demo.genesis
    Demo.genesis_sound eq_refl E).
Defined.
