(* ===== verification/RoundTheorems.v ===== *)
(** * The rounds of the stake pallet: what they guarantee

    Selection, exposure, exits, payments and points. *)

From S2P Require Import Prelude OrderedSet Frame StakeTypes BondMap Inflation Stake.
From S2P Require Import StakeLogic Registry Books Solvency Rounds Payouts PayoutBound Reference.
From S2P Require Import StakeTheorems.

(** The points of every round that is not paid yet are the sum of its awards. *)
Definition points_agree {Cur} `{StakeConfig} (w : World Cur) : Prop :=
  ∀ r, Round w < r + BondDuration →
    get_or 0 (Points w) r = u32 (awarded_points (AwardedPts w) r).

Lemma awarded_points_insert (m : gmap (Z * Z) Z) r a x r' :
  awarded_points (<[(r, a):=x]> m) r' =
    awarded_points m r' + if r =? r' then x - get_or 0 m (r, a) else 0.
Proof.
  unfold awarded_points, get_or. destruct (m !! (r, a)) as [y|] eqn:E.
  - rewrite <-(insert_delete_id m (r, a) y E) at 2. rewrite <-insert_delete_eq.
    rewrite !map_to_list_insert by apply lookup_delete_eq. rewrite !zsum_cons. cbn.
    destruct (r =? r'); lia.
  - rewrite map_to_list_insert by done. rewrite zsum_cons. cbn. destruct (r =? r'); lia.
Qed.

Lemma awarded_points_filter (m : gmap (Z * Z) Z) r r' :
  r ≠ r' →
  awarded_points (filter (λ kv : Z * Z * Z, kv.1.1 ≠ r) m) r' = awarded_points m r'.
Proof.
  intros Hne. induction m as [|[k a] x m Hk IH] using map_ind; [done|].
  unfold awarded_points in *. destruct (decide (k ≠ r)) as [Hkr|Hkr].
  - rewrite map_filter_insert_True by done.
    rewrite !map_to_list_insert; [|done|by apply map_lookup_filter_None; left].
    rewrite !zsum_cons, IH. done.
  - rewrite map_filter_insert_False by done. rewrite delete_id by done.
    rewrite map_to_list_insert by done. rewrite zsum_cons, <-IH. cbn.
    destruct (Z.eqb_spec k r'); [|done]. apply dec_stable in Hkr. congruence.
Qed.

Section theorems.
Context {Origin Cur : Type}.
Context `{FO : FrameOrigin Origin, MO : MonetaryPolicyOrigin Origin, CU : Currency Cur}.
Context {CL : CurrencyLaws Cur}.
Context `{PO : PerbillOps, US : UnstableSort, IO : IterationOrder, SC : StakeConfig}.
Context {SL : UnstableSortLaws} {PL : PerbillLaws} {IL : IterationOrderLaws}.
Context {CF : StakeConfigLaws}.
Implicit Types (w : World Cur).

(** C12. At the end of a round the validators become the [MaxValidators] largest members
    of the candidate pool, or all of them, in ascending order of account: whoever is left
    out has at most the stake of whoever is chosen. *)
Theorem end_of_round_selects_best n w :
  n mod BlocksPerRound = 0 → pool_inv w →
  ∃ w', on_finalize n w = Done tt w' ∧ sorted (Validators w') ∧
    length (Validators w') = Nat.min (Z.to_nat MaxValidators) (length (CandidatePool w)) ∧
    (∀ a, a ∈ Validators w' → is_Some (bond_map (CandidatePool w) !! a)) ∧
    (∀ a b x y, a ∈ Validators w' → b ∉ Validators w' →
      bond_map (CandidatePool w) !! a = Some x → bond_map (CandidatePool w) !! b = Some y →
      y <= x).
Proof using SL CF.
  intros Hn Hw. destruct (end_of_round n w Hn Hw) as (w' & E & Hp & Hc). exists w'.
  destruct (top_candidates_best (CandidatePool w)) as (Hlen & Hmem & Hbest).
  { apply Hw. }
  split_and!; [done|apply Hp|..]; rewrite (change_validators _ _ Hc).
  - by rewrite sort_perm.
  - intros a. rewrite sort_members. apply Hmem.
  - intros a b x y. rewrite !sort_members. apply Hbest.
Qed.

(** C13. Each validator of the new round is a candidate that was active, and the exposure
    recorded for it is its fee, bond, nominators and total of that moment; the exposures
    of the other rounds stay, but for those of the round that is paid. *)
Theorem end_of_round_exposes_validators n w :
  n mod BlocksPerRound = 0 → pool_inv w →
  ∃ w', on_finalize n w = Done tt w' ∧ Round w' = Round w ⊞ 1 ∧
    (∀ a, a ∈ Validators w' → ∃ c, Candidates w !! a = Some c ∧
      Validator.is_active c = true ∧ Candidates w' !! a = Some c ∧
      AtStake w' !! (Round w', a) = Some (Validator.into_snapshot c)) ∧
    (∀ r a, r ≠ Round w' → r ≠ Round w' ⊟ BondDuration →
      AtStake w' !! (r, a) = AtStake w !! (r, a)).
Proof using SL CF.
  intros Hn Hw. destruct (end_of_round n w Hn Hw) as (w' & E & Hp & Hc). exists w'.
  split_and!; [done|apply Hc| |].
  - intros a Ha. pose proof Ha as Hin. rewrite (change_validators _ _ Hc), sort_members in Hin.
    apply top_candidates_member in Hin.
    destruct (pool_member_candidate w a) as (c & Hca & Hact); [apply Hw|done|].
    exists c. split_and!; [done|done| |by eapply (change_exposed _ _ Hc)].
    rewrite (change_candidates _ _ Hc), decide_False; [done|]. by apply pool_member_not_due.
  - intros r a Hr1 Hr2. destruct (change_other_exposures _ _ Hc r a) as [?|(_ & ? & _)];
      [naive_solver|done|done].
Qed.

(** At the end of a round in a sound world exactly the candidates whose exit is due
    are gone, with every nomination for them; the others, and the rest of the queue, are
    as they were. *)
Theorem end_of_round_executes_due_exits n w :
  n mod BlocksPerRound = 0 → sound w →
  ∃ w', on_finalize n w = Done tt w' ∧
    (∀ a r, bond_map (ExitQueue w) !! a = Some r → r <= Round w' →
      Candidates w' !! a = None ∧ bond_map (ExitQueue w') !! a = None ∧
      ∀ b, nomination (Nominators w') b a = None) ∧
    (∀ a r, bond_map (ExitQueue w) !! a = Some r → Round w' < r →
      Candidates w' !! a = Candidates w !! a ∧ bond_map (ExitQueue w') !! a = Some r) ∧
    (∀ a, bond_map (ExitQueue w) !! a = None → Candidates w' !! a = Candidates w !! a).
Proof using CL SL CF.
  intros Hn [Hw Hs]. destruct (end_of_round n w Hn Hw) as (w' & E & Hp & Hc). exists w'.
  pose proof (on_finalize_solvent n w config_rounds Hw Hs) as Hs'. unfold wp in Hs'.
  rewrite E in Hs'. destruct Hs' as [_ Hb'].
  assert (sorted (ExitQueue w)) as Hsq by apply Hw.
  assert (∀ a, Candidates w' !! a =
    if decide (a ∈ due_owners (Round w') (ExitQueue w)) then None else Candidates w !! a)
    as Hcand by apply Hc.
  split_and!; [done|..].
  - intros a r Hr Hle.
    assert (Candidates w' !! a = None) as Hnone.
    { rewrite Hcand, decide_True; [done|]. apply due_owners_elem; [done|]. by exists r. }
    split_and!; [done| |].
    + destruct Hp as (Hreg' & _). by rewrite (queue_exact _ _ _ Hreg'), Hnone.
    + intros b. rewrite (bilateral _ _ _ Hb'). unfold backing. by rewrite Hnone.
  - intros a r Hr Hlt.
    assert (Candidates w' !! a = Candidates w !! a) as Hsame.
    { rewrite Hcand, decide_False; [done|]. rewrite due_owners_elem by done.
      intros (r' & Hr' & ?). assert (r' = r) by congruence. lia. }
    split; [done|]. destruct Hw as (Hreg & _), Hp as (Hreg' & _).
    by rewrite (queue_exact _ _ _ Hreg'), Hsame, <-(queue_exact _ _ _ Hreg).
  - intros a Hr. rewrite Hcand, decide_False; [done|]. rewrite due_owners_elem by done.
    intros (r' & Hr' & _). congruence.
Qed.

(** Leaving is always possible for a candidate that is not leaving yet: it is out of
    the pool at once, its exit is due [BondDuration] rounds later, and its bond stays
    reserved until then. *)
Theorem leave_candidates_schedules origin a c w :
  pool_inv w → ensure_signed origin = Some a → Candidates w !! a = Some c →
  Validator.is_leaving c = false →
  ∃ w', leave_candidates origin w = Done tt w' ∧
    Candidates w' !! a =
      Some (Validator.set_state c (Leaving (Round w ⊞ BondDuration))) ∧
    bond_map (CandidatePool w') !! a = None ∧
    bond_map (ExitQueue w') !! a = Some (Round w ⊞ BondDuration) ∧
    currency w' = currency w.
Proof.
  intros (Hreg & _) Ho Ha Hl.
  assert (bond_map (ExitQueue w) !! a = None) as Hq.
  { rewrite (queue_exact _ _ _ Hreg), Ha. cbn. unfold exit_entry, Validator.is_leaving in *.
    by destruct (Validator.state c). }
  cut (wp (leave_candidates origin) (ends (λ w',
    Candidates w' !! a =
      Some (Validator.set_state c (Leaving (Round w ⊞ BondDuration))) ∧
    bond_map (CandidatePool w') !! a = None ∧
    bond_map (ExitQueue w') !! a = Some (Round w ⊞ BondDuration) ∧
    currency w' = currency w)) w).
  { unfold wp. destruct (leave_candidates origin w) as [[] w'|?|]; [by exists w'|done..]. }
  unfold leave_candidates. stake_run; try congruence; simplify_eq; [|by rewrite Hl in *].
  pose proof (insert_bond (ExitQueue w)
    {| owner := a; amount := Round w ⊞ BondDuration |} (queue_sorted _ _ _ Hreg)) as Hi.
  cbn [owner amount] in Hi. rewrite Hq in Hi.
  destruct (OrderedSet.insert _ _) as [i queue]. destruct Hi as (_ & -> & Hm & _).
  stake_run; [|done]. apply wp_remove_from_pool; [apply Hreg|]. intros pool Hs Hpm.
  cbn [bind_post]. stake_run. cbn [ends]. wsimpl.
  split_and!; [apply lookup_insert_eq|by rewrite Hpm, lookup_delete_eq| |done].
  by rewrite Hm, lookup_insert_eq.
Qed.

(** No call, successful or not, changes the round, the validators, the exposures,
    the snapshots of the total stake or the points: calls act on the next selection. And
    only the origin of the monetary policy changes the inflation. *)
Theorem calls_leave_rounds_alone origin call w :
  match dispatch origin call w with
  | Done _ w' | Failed _ w' =>
      (SetMonetaryPolicyOrigin origin = false → InflationConfig w' = InflationConfig w) ∧
      Round w' = Round w ∧ Validators w' = Validators w ∧ AtStake w' = AtStake w ∧
      Staked w' = Staked w ∧ Points w' = Points w ∧ AwardedPts w' = AwardedPts w
  | Panicked => True
  end.
Proof. exact (dispatch_rounds origin call w). Qed.

(** The points of every round that is not paid yet are the sum of the points its
    authors were awarded (modulo the width of a [u32]): every step of the chain keeps
    this, as long as the round counter does not wrap. *)
Theorem points_agree_preserved w w' :
  0 <= BondDuration → 0 <= Round w → Round w + 1 < U32 → pool_inv w →
  chain_step w w' → points_agree w → points_agree w'.
Proof using SL CF.
  intros Hbd Hr0 Hr1 Hpool Hst Hp.
  assert (∀ origin (o : Outcome (World Cur) (DispatchError Error) unit), rounds_kept origin w o →
    match o with Done _ v | Failed _ v => points_agree v | Panicked => True end) as Hkept.
  { intros origin o Ho. destruct o as [u v|e v|]; cbn in Ho; [| |done];
      destruct Ho as (_ & HR & _ & _ & _ & HP & HA); intros r; rewrite HR, HP, HA; apply Hp. }
  destruct Hst as [origin call u w' E|origin call e w' E|n u w' E|a u w' E|c|].
  - pose proof (Hkept _ _ (dispatch_rounds origin call w)) as H. by rewrite E in H.
  - pose proof (Hkept _ _ (dispatch_rounds origin call w)) as H. by rewrite E in H.
  - destruct (decide (n mod BlocksPerRound = 0)) as [Hn|Hn]; cycle 1.
    { rewrite mid_round in E by done. by injection E as _ <-. }
    destruct (end_of_round n w Hn Hpool) as (w2 & E2 & _ & Hc).
    rewrite E2 in E. injection E as _ <-. intros r Hr.
    rewrite (change_points _ _ Hc), (change_awarded _ _ Hc).
    assert (Round w2 = Round w + 1) as HR.
    { rewrite (change_round _ _ Hc). apply u32_small. lia. }
    rewrite Hp by lia. destruct (Z.gtb_spec (Round w2) BondDuration); [|done].
    f_equal. symmetry. apply awarded_points_filter. rewrite u32_small by lia. lia.
  - unfold note_author in E. cbn in E. injection E as _ <-. intros r. wsimpl.
    rewrite awarded_points_insert. intros Hr. specialize (Hp r Hr). unfold get_or at 1.
    rewrite lookup_insert. destruct (decide (Round w = r)) as [<-|Hne].
    + rewrite Z.eqb_refl. cbn [default]. unfold id. rewrite Hp. unfold u32, get_or.
      rewrite Zplus_mod_idemp_l.
      rewrite Z.add_sub_assoc, Z.add_sub_swap, Zplus_mod_idemp_r. f_equal. lia.
    + rewrite (proj2 (Z.eqb_neq _ _)), Z.add_0_r by done. exact Hp.
  - exact Hp.
  - exact Hp.
Qed.

(** In every world the chain can reach, [is_validator] (and so [can_author]) holds of
    exactly the members of the validator set. *)
Lemma is_validator_correct signed_by config c stakers w :
  reachable signed_by config c stakers w →
  ∀ a, is_validator w a = true ↔ a ∈ Validators w.
Proof using SL CF.
  intros Hr a. destruct (reachable_pool _ _ _ _ _ rounds_fit Hr) as (_ & _ & Hs).
  by apply is_validator_member.
Qed.

(** An active candidate can always go offline, is then out of the pool and cannot go
    offline again; coming back online restores the whole state of the pallet, the pool in
    its order included, and only the two events remain. *)
Theorem offline_then_online_restores origin a c w :
  pool_inv w → ensure_signed origin = Some a → Candidates w !! a = Some c →
  Validator.is_active c = true →
  ∃ w1, go_offline origin w = Done tt w1 ∧ bond_map (CandidatePool w1) !! a = None ∧
    go_offline origin w1 = Failed (Module_ AlreadyOffline) w1 ∧
    go_online origin w1 = Done tt (set_events (events w ++
      [ValidatorWentOffline (Round w) a; ValidatorBackOnline (Round w) a]) w).
Proof.
  intros (Hreg & _) Ho Ha Hact.
  assert (bond_map (CandidatePool w) !! a = Some (Validator.total c)) as Hpa.
  { rewrite (pool_exact _ _ _ Hreg), Ha. cbn. unfold pool_entry. by rewrite Hact. }
  assert (∃ pool, sorted pool ∧ bond_map pool = delete a (bond_map (CandidatePool w)) ∧
    go_offline origin w = Done tt (set_events (events w ++ [ValidatorWentOffline (Round w) a])
      (set_Candidates (<[a:=Validator.go_offline c]> (Candidates w))
        (set_CandidatePool pool w)))) as (pool & Hs & Hm & Eoff).
  { wp_start (go_offline (Cur := Cur) origin) w. unfold go_offline.
    stake_run; try congruence; simplify_eq.
    apply wp_remove_from_pool; [apply Hreg|]. intros pool Hs Hm. cbn [bind_post].
    stake_run. by exists pool. }
  exists (set_events (events w ++ [ValidatorWentOffline (Round w) a])
      (set_Candidates (<[a:=Validator.go_offline c]> (Candidates w)) (set_CandidatePool pool w))).
  split_and!; [exact Eoff|wsimpl; by rewrite Hm, lookup_delete_eq|..].
  - match goal with |- _ ?w = _ => wp_start (go_offline (Cur := Cur) origin) w end.
    unfold go_offline. stake_run; try congruence; wsimpl in *; simplify_map_eq.
  - match goal with |- _ ?w = _ => wp_start (go_online (Cur := Cur) origin) w end.
    unfold go_online. stake_run; try congruence; wsimpl in *; simplify_map_eq.
    pose proof (insert_bond pool {| owner := a; amount := Validator.total c |} Hs) as Hi.
    cbn [owner amount] in Hi. rewrite Hm, lookup_delete_eq in Hi.
    destruct (OrderedSet.insert _ _) as [i pool2]. destruct Hi as (Hs2 & -> & Hm2 & _).
    assert (pool2 = CandidatePool w) as ->.
    { apply bond_map_inj; [done|apply Hreg|]. rewrite Hm2, insert_delete_eq.
      by apply insert_id. }
    assert (Validator.go_online (Validator.go_offline c) = c) as Ec.
    { unfold Validator.is_active in Hact. by destruct c as [? ? ? ? ? []]. }
    stake_run; [|done]. wsimpl. rewrite Ec, insert_insert_eq, insert_id by done.
    rewrite <-app_assoc. by destruct w.
Qed.

(** The payments of a round: each is more than the existential deposit and at most the
    issuance of the round, the balances grow by exactly what the [Rewarded] events
    report, and no reserve is touched. *)
Theorem pay_stakers_pays_what_it_reports next w :
  cur_valid (currency w) → map_Forall (λ _, snapshot_ok) (AtStake w) →
  rates_ok (InflationInfo.round (InflationConfig w)) →
  map_Forall (λ _ p, 0 <= p) (Points w) → map_Forall (λ _ p, 0 <= p) (AwardedPts w) →
  let issuance := compute_issuance w (get_or 0 (Staked w) (next ⊟ BondDuration)) in
  ∃ w' evs, pay_stakers next w = Done tt w' ∧ events w' = events w ++ evs ∧
    Forall (reward_within minimum_balance issuance) evs ∧
    (∀ a, free_balance (currency w') a = free_balance (currency w) a + rewards_of a evs) ∧
    (∀ a, reserved_balance (currency w') a = reserved_balance (currency w) a) ∧
    issuance <= total_issuance (currency w).
Proof using CL PL IL.
  intros Hc HA Hr HP HW issuance. pose proof (pay_stakers_payments next w Hc HA Hr HP HW) as H.
  unfold wp in H. destruct (pay_stakers next w) as [[] w'|?|]; [|done..].
  destruct H as (_ & _ & evs & H). exists w', evs. split_and!; [done|apply H..|].
  by apply compute_issuance_range.
Qed.

(** C18. The issuance of a round grows with the rate that the stake of that round selects:
    below the expectations it is the minimum, above them the maximum, else the ideal; for
    a valid configuration it lies between the first two. *)
Theorem compute_issuance_regimes w staked :
  cur_valid (currency w) → rates_ok (InflationInfo.round (InflationConfig w)) →
  Range.is_valid (InflationInfo.round (InflationConfig w)) = true →
  let rate := InflationInfo.round (InflationConfig w) in
  let expect := InflationInfo.expect (InflationConfig w) in
  let of_rate p := perbill_mul p (total_issuance (currency w)) in
  (staked < Range.min expect → compute_issuance w staked = of_rate (Range.min rate)) ∧
  (Range.min expect <= staked <= Range.max expect →
    compute_issuance w staked = of_rate (Range.ideal rate)) ∧
  (Range.min expect <= staked → Range.max expect < staked →
    compute_issuance w staked = of_rate (Range.max rate)) ∧
  of_rate (Range.min rate) <= compute_issuance w staked <= of_rate (Range.max rate).
Proof using CL PL.
  intros Hc (Hmin & Hideal & Hmax) Hv rate expect of_rate.
  unfold Range.is_valid in Hv. apply andb_true_iff in Hv as [H1%Z.geb_le H2%Z.geb_le].
  pose proof (issuance_range _ Hc). unfold is_perbill in *.
  assert (of_rate (Range.min rate) <= of_rate (Range.ideal rate)) as Hle1.
  { apply perbill_mul_mono; unfold rate; lia. }
  assert (of_rate (Range.ideal rate) <= of_rate (Range.max rate)) as Hle2.
  { apply perbill_mul_mono; unfold rate; lia. }
  unfold compute_issuance, round_issuance_range. cbn [Range.min Range.ideal Range.max].
  fold rate expect. fold (of_rate (Range.min rate)) (of_rate (Range.ideal rate)) (of_rate (Range.max rate)).
  destruct (Z.ltb_spec staked (Range.min expect)), (Z.gtb_spec staked (Range.max expect));
    split_and!; lia.
Qed.
End theorems.

(** ** Witnesses *)

#[local] Existing Instance mock_config.
Import Demo.

Lemma end_of_round_selects_best_witness :
  ∃ w', on_finalize 5 genesis = Done tt w' ∧ sorted (Validators w') ∧
    length (Validators w') = 2%nat ∧
    (∀ a, a ∈ Validators w' → is_Some (bond_map (CandidatePool genesis) !! a)) ∧
    (∀ a b x y, a ∈ Validators w' → b ∉ Validators w' →
      bond_map (CandidatePool genesis) !! a = Some x →
      bond_map (CandidatePool genesis) !! b = Some y → y <= x).
Proof. exact (end_of_round_selects_best 5 genesis eq_refl (proj1 genesis_sound)). Defined.

Lemma end_of_round_exposes_validators_witness :
  ∃ w', on_finalize 5 genesis = Done tt w' ∧ Round w' = Round genesis ⊞ 1 ∧
    (∀ a, a ∈ Validators w' → ∃ c, Candidates genesis !! a = Some c ∧
      Validator.is_active c = true ∧ Candidates w' !! a = Some c ∧
      AtStake w' !! (Round w', a) = Some (Validator.into_snapshot c)) ∧
    (∀ r a, r ≠ Round w' → r ≠ Round w' ⊟ BondDuration →
      AtStake w' !! (r, a) = AtStake genesis !! (r, a)).
Proof. exact (end_of_round_exposes_validators 5 genesis eq_refl (proj1 genesis_sound)). Defined.

(** Account 2 leaves in round 1; its exit is due in round 3. *)
Definition leaving : World Ledger := world_of (dispatch (Signed 2) Call_leave_candidates genesis).

Lemma leaving_sound : sound leaving.
Proof.
  apply (orderly_step_sound genesis); [|exact genesis_sound].
  apply (orderly_dispatch _ (Signed 2) Call_leave_candidates tt); [done|].
  apply succeeds_Done. vm_compute. reflexivity.
Qed.

Lemma end_of_round_executes_due_exits_witness :
  bond_map (ExitQueue leaving) !! 2 = Some 3 ∧
  ∃ w', on_finalize 5 leaving = Done tt w' ∧
    (∀ a r, bond_map (ExitQueue leaving) !! a = Some r → r <= Round w' →
      Candidates w' !! a = None ∧ bond_map (ExitQueue w') !! a = None ∧
      ∀ b, nomination (Nominators w') b a = None) ∧
    (∀ a r, bond_map (ExitQueue leaving) !! a = Some r → Round w' < r →
      Candidates w' !! a = Candidates leaving !! a ∧ bond_map (ExitQueue w') !! a = Some r) ∧
    (∀ a, bond_map (ExitQueue leaving) !! a = None → Candidates w' !! a = Candidates leaving !! a).
Proof.
  split; [vm_compute; reflexivity|].
  exact (end_of_round_executes_due_exits 5 leaving eq_refl leaving_sound).
Defined.

Definition candidate_2 : Validator.t :=
  {| Validator.id := 2; Validator.fee := 0; Validator.bond := 200;
     Validator.nominators := [{| owner := 5; amount := 100 |}; {| owner := 6; amount := 100 |}];
     Validator.total := 400; Validator.state := Active |}.

Lemma leave_candidates_schedules_witness :
  ∃ w', leave_candidates (Signed 2) genesis = Done tt w' ∧
    Candidates w' !! 2 =
      Some (Validator.set_state candidate_2 (Leaving (Round genesis ⊞ BondDuration))) ∧
    bond_map (CandidatePool w') !! 2 = None ∧
    bond_map (ExitQueue w') !! 2 = Some (Round genesis ⊞ BondDuration) ∧
    currency w' = currency genesis.
Proof.
  assert (Candidates genesis !! 2 = Some candidate_2) as E by (vm_compute; reflexivity).
  exact (leave_candidates_schedules (Signed 2) 2 candidate_2 genesis
    (proj1 genesis_sound) eq_refl E eq_refl).
Defined.

Lemma offline_then_online_restores_witness :
  ∃ w1, go_offline (Signed 2) genesis = Done tt w1 ∧ bond_map (CandidatePool w1) !! 2 = None ∧
    go_offline (Signed 2) w1 = Failed (Module_ AlreadyOffline) w1 ∧
    go_online (Signed 2) w1 = Done tt (set_events (events genesis ++
      [ValidatorWentOffline (Round genesis) 2; ValidatorBackOnline (Round genesis) 2]) genesis).
Proof.
  assert (Candidates genesis !! 2 = Some candidate_2) as E by (vm_compute; reflexivity).
  exact (offline_then_online_restores (Signed 2) 2 candidate_2 genesis
    (proj1 genesis_sound) eq_refl E eq_refl).
Defined.

(** Account 1 authors a block of round 1. *)
Definition authored : World Ledger := world_of (note_author 1 genesis).

Lemma authored_step : note_author 1 genesis = Done tt authored.
Proof. apply succeeds_Done. vm_compute. reflexivity. Qed.

Lemma authored_sound : sound authored.
Proof.
  apply (orderly_step_sound genesis); [|exact genesis_sound].
  exact (orderly_author _ 1 tt authored authored_step).
Qed.

Lemma points_agree_preserved_witness : points_agree genesis ∧ points_agree authored.
Proof.
  assert (points_agree genesis) as Hg.
  { intros r _. reflexivity. }
  split; [exact Hg|].
  refine (points_agree_preserved genesis authored _ _ _ (proj1 genesis_sound) _ Hg);
    [vm_compute; congruence|vm_compute; congruence|vm_compute; reflexivity|].
  exact (step_author _ 1 tt authored authored_step).
Defined.

Lemma is_validator_correct_witness : is_validator genesis 2 = true ↔ 2 ∈ Validators genesis.
Proof.
  assert (reachable Signed config (ledger balances) stakers genesis) as H.
  { exists tt, genesis. split; [exact genesis_runs|apply rtc_refl]. }
  exact (is_validator_correct Signed config (ledger balances) stakers genesis H 2).
Defined.

(** Round 1 is paid when round 3 begins. *)
Lemma pay_stakers_pays_what_it_reports_witness :
  ∃ w' evs, pay_stakers 3 authored = Done tt w' ∧ events w' = events authored ++ evs ∧
    Forall (reward_within minimum_balance
      (compute_issuance authored (get_or 0 (Staked authored) (3 ⊟ BondDuration)))) evs ∧
    (∀ a, free_balance (currency w') a = free_balance (currency authored) a + rewards_of a evs) ∧
    (∀ a, reserved_balance (currency w') a = reserved_balance (currency authored) a) ∧
    compute_issuance authored (get_or 0 (Staked authored) (3 ⊟ BondDuration))
      <= total_issuance (currency authored).
Proof.
  refine (pay_stakers_pays_what_it_reports 3 authored _ _ _ _ _).
  - exact (proj1 (proj2 authored_sound)).
  - refine (bool_decide_eq_true_1 _ _). vm_compute. reflexivity.
  - refine (bool_decide_eq_true_1 _ _). vm_compute. reflexivity.
  - refine (bool_decide_eq_true_1 _ _). vm_compute. reflexivity.
  - refine (bool_decide_eq_true_1 _ _). vm_compute. reflexivity.
Defined.

Lemma compute_issuance_regimes_witness :
  compute_issuance genesis 700 = perbill_mul (percent 5) 1809 ∧
  (let rate := InflationInfo.round (InflationConfig genesis) in
   let expect := InflationInfo.expect (InflationConfig genesis) in
   let of_rate p := perbill_mul p (total_issuance (currency genesis)) in
   (700 < Range.min expect → compute_issuance genesis 700 = of_rate (Range.min rate)) ∧
   (Range.min expect <= 700 <= Range.max expect →
     compute_issuance genesis 700 = of_rate (Range.ideal rate)) ∧
   (Range.min expect <= 700 → Range.max expect < 700 →
     compute_issuance genesis 700 = of_rate (Range.max rate)) ∧
   of_rate (Range.min rate) <= compute_issuance genesis 700 <= of_rate (Range.max rate)).
Proof.
  split; [vm_compute; reflexivity|].
  refine (compute_issuance_regimes genesis 700 (proj1 (proj2 genesis_sound)) _ _);
    [refine (bool_decide_eq_true_1 _ _)|]; vm_compute; reflexivity.
Defined.
