(* ===== verification/Divergences.v ===== *)
(** * Where the stake pallet does not do what it says

    Merged nominations, the drift of the total stake, the cap on nominators and an event,
    each proved of the code as it is. *)

From S2P Require Import Prelude OrderedSet Frame StakeTypes BondMap Inflation Stake.
From S2P Require Import StakeLogic Registry Books Solvency Spec Refinement RoundRefinement Drift.
From S2P Require Import Reference.

(** ** Merging a nomination *)

(** [swap_nomination] into a validator that is not nominated yet moves the amount:
    the nomination of [old] is gone, [new] has its amount, the others and the total stay. *)
Theorem swap_nomination_moves n old new x :
  sorted (Nominator.nominations n) → old ≠ new →
  bond_map (Nominator.nominations n) !! old = Some x →
  bond_map (Nominator.nominations n) !! new = None →
  let '(r, n') := Nominator.swap_nomination n old new in
  r = Some (x, x) ∧ sorted (Nominator.nominations n') ∧
  Nominator.total n' = Nominator.total n ∧
  zsum amount (Nominator.nominations n') = zsum amount (Nominator.nominations n) ∧
  ∀ v, bond_map (Nominator.nominations n') !! v =
    if v =? old then None else if v =? new then Some x
    else bond_map (Nominator.nominations n) !! v.
Proof.
  intros Hs Hne Hold Hnew. pose proof (swap_nomination_eq n old new Hs) as H. cbn zeta in H.
  destruct (Nominator.swap_nomination n old new) as [r n']. rewrite Hold, Hnew in H.
  destruct H as (Hs' & Ht & -> & Hm). split_and!; [done..| |].
  - rewrite !bond_sum_map by done. rewrite Hm.
    rewrite map_zsum_insert_new by (by rewrite lookup_delete_ne).
    rewrite (map_zsum_delete _ _ _ x Hold). lia.
  - intros v. rewrite Hm, lookup_insert, lookup_delete.
    repeat case_decide; repeat case_match; simplify_eq; try done; lia.
Qed.

(** C26. [swap_nomination] into a validator that is nominated already does not move it:
    [new] gets the sum, but the nomination of [old] stays, and the nominations add up to
    the swapped amount more than the unchanged total. *)
Theorem swap_nomination_merge_keeps_old n old new x y :
  sorted (Nominator.nominations n) → old ≠ new →
  bond_map (Nominator.nominations n) !! old = Some x →
  bond_map (Nominator.nominations n) !! new = Some y →
  0 <= x → 0 <= y → x + y < U128 →
  let '(r, n') := Nominator.swap_nomination n old new in
  r = Some (x, y + x) ∧ Nominator.total n' = Nominator.total n ∧
  bond_map (Nominator.nominations n') !! old = Some x ∧
  bond_map (Nominator.nominations n') !! new = Some (y + x) ∧
  zsum amount (Nominator.nominations n') = zsum amount (Nominator.nominations n) + x.
Proof.
  intros Hs Hne Hold Hnew Hx Hy Hxy. pose proof (swap_nomination_eq n old new Hs) as H.
  cbn zeta in H. destruct (Nominator.swap_nomination n old new) as [r n'].
  rewrite Hold, Hnew in H. destruct H as (Hs' & Ht & -> & Hm).
  rewrite u128_small in * by lia. split_and!; [done..| | |].
  - rewrite Hm, lookup_insert_ne by done. done.
  - by rewrite Hm, lookup_insert_eq.
  - rewrite !bond_sum_map, Hm, (map_zsum_insert _ _ _ y) by done. lia.
Qed.

(** ** The total of all stake *)

Section totals.
Context {Origin Cur : Type}.
Context `{FO : FrameOrigin Origin, MO : MonetaryPolicyOrigin Origin, CU : Currency Cur}.
Context {CL : CurrencyLaws Cur}.
Context `{PO : PerbillOps, US : UnstableSort, IO : IterationOrder, SC : StakeConfig}.
Context {SL : UnstableSortLaws} {CF : StakeConfigLaws}.
Implicit Types (w : World Cur) (origin : Origin).

(** C27. [candidate_bond_more] of a candidate with enough free balance reserves the amount
    and adds it to the bond and to the total of the candidate, but not to [Total], which
    falls behind the stake by that amount. *)
Theorem candidate_bond_more_forgets_total origin a c more w w' :
  sound w → 0 <= more → ensure_signed origin = Some a → Candidates w !! a = Some c →
  candidate_bond_more origin more w = Done tt w' →
  Candidates w' !! a = Some (Validator.set_bond_total c (Validator.bond c + more)
    (Validator.total c + more)) ∧
  reserved_balance (currency w') a = reserved_balance (currency w) a + more ∧
  candidates_total w' = candidates_total w + more ∧
  Total w' = Total w.
Proof using CL.
  intros [(Hreg & _) [Hc Hb]] Hm Ho Ha.
  cut (wp (candidate_bond_more origin more) (λ o, o = Done tt w' →
    Candidates w' !! a = Some (Validator.set_bond_total c (Validator.bond c + more)
      (Validator.total c + more)) ∧
    reserved_balance (currency w') a = reserved_balance (currency w) a + more ∧
    candidates_total w' = candidates_total w + more ∧ Total w' = Total w) w).
  { unfold wp. auto. }
  unfold candidate_bond_more. stake_run; try done. simplify_eq.
  rename c0 into cur'.
  pose proof (reserve_covers (currency w) a more cur' _ _ Hc Hm ltac:(done) Hb) as Hcov.
  assert (cur_valid cur') as Hc' by by eapply reserve_valid.
  pose proof (candidate_total_add cur' a c a more _ _ _ Hb Hc' Hcov ltac:(done) Hm) as Ht.
  destruct (staked_bound cur' a _ _ _ more Hb Hc' Hm) as [Hbond _].
  { specialize (Hcov a). by rewrite decide_True in Hcov. }
  unfold own_bond in Hbond. rewrite Ha in Hbond.
  apply wp_update_active; [apply Hreg|]. intros pool _ _. cbn [bind_post]. stake_run.
  intros [= <-]. unfold candidates_total, Validator.bond_more. wsimpl.
  rewrite Ht, (u128_small (Validator.bond c + more)) by done. split_and!.
  - apply lookup_insert_eq.
  - rewrite (reserve_reserved (currency w) a more cur') by done. by rewrite decide_True.
  - rewrite (map_zsum_insert _ _ _ c) by done. cbn. lia.
  - done.
Qed.

(** C29. [Total] is wrong by exactly what the calls have moved that raise or lower a bond or
    a nomination. Let [d] be the sum of all successful raises along an orderly chain from
    genesis, less that of all reductions. Then [Total] is the sum of the candidates' totals
    less [d], modulo [2^128]; that sum itself fits, so [Total] is right exactly when the
    raises and the reductions cancel; and once all candidates have left with more raised
    than reduced, [Total] has wrapped around below zero. *)
Theorem total_is_behind_by_bond_changes signed_by config c stakers w0 d w :
  cur_valid c → Forall (λ '(_, _, balance), 0 <= balance < U128) stakers →
  genesis_build signed_by stakers (empty_world config c) = Done tt w0 →
  moves_past d w0 w →
  Total w = candidates_total w ⊖ d ∧ 0 <= candidates_total w < U128 ∧
  (Total w = candidates_total w ↔ u128 d = 0) ∧
  (Candidates w = ∅ → 0 < d <= U128 → Total w = U128 - d).
Proof using CL SL CF IO.
  intros Hc Hst E Hm.
  pose proof (genesis_build_sound signed_by stakers _ Hst (empty_world_sound config c Hc)) as Hs0.
  unfold wp in Hs0. rewrite E in Hs0.
  pose proof (moves_past_behind d 0 w0 w Hm Hs0 (genesis_behind signed_by config c stakers w0 Hc Hst E))
    as Hb.
  assert (sound w) as Hs by by eapply moves_past_sound.
  pose proof (candidates_total_range w Hs) as Hr. rewrite Z.add_0_l in Hb.
  split_and!; [done|lia..| |].
  - destruct (behind_elim _ _ Hb) as [HT [k Hk]]. split; intros H.
    + symmetry. apply (u128_unique 0 d (- k)); [by split|lia].
    + pose proof (Z.div_mod d U128 ltac:(by unfold U128)) as Hd. unfold u128 in H.
      rewrite Hb. symmetry. apply (u128_unique _ _ (d / U128)); [exact Hr|lia].
  - unfold behind in Hb. intros He Hd. rewrite Hb. unfold candidates_total. rewrite He, map_zsum_empty.
    symmetry. apply (u128_unique _ _ 1); [split; lia|lia].
Qed.

(** [NominationIncreased] is documented to carry the old and the new nomination; it
    carries the old and the new total of the candidate. *)
Theorem nomination_increased_reports_candidate_total origin candidate more w w' :
  pool_inv w → nominator_bond_more origin candidate more w = Done tt w' →
  ∃ a c c', ensure_signed origin = Some a ∧
    Candidates w !! candidate = Some c ∧ Candidates w' !! candidate = Some c' ∧
    events w' = events w ++
      [NominationIncreased a candidate (Validator.total c) (Validator.total c')].
Proof.
  intros (Hreg & Hnoms & _).
  cut (wp (nominator_bond_more origin candidate more) (λ o, o = Done tt w' →
    ∃ a c c', ensure_signed origin = Some a ∧
    Candidates w !! candidate = Some c ∧ Candidates w' !! candidate = Some c' ∧
    events w' = events w ++
      [NominationIncreased a candidate (Validator.total c) (Validator.total c')]) w).
  { unfold wp. auto. }
  unfold nominator_bond_more. stake_run; try done.
  pose proof (Hnoms _ _ H0) as Hsn. cbn in Hsn. rewrite inc_nomination_eq by done.
  destruct (bond_map (Nominator.nominations a0) !! candidate); stake_run; try done.
  apply wp_update_active; [apply Hreg|]. intros pool _ _. cbn [bind_post]. stake_run.
  intros [= <-]. wsimpl. eexists a, a1, _. split_and!; [done|done|apply lookup_insert_eq|done].
Qed.
(** ** Switching *)

(** A switch between two candidates, by a nominator of the first, goes through. *)
Lemma switch_nomination_runs origin a old new n n' x amt co cn w :
  pool_inv w → ensure_signed origin = Some a → old ≠ new →
  Nominators w !! a = Some n → Candidates w !! old = Some co → Candidates w !! new = Some cn →
  Nominator.swap_nomination n old new = (Some (x, amt), n') →
  let cn' := if amt >? x then Validator.update_nominator cn a amt
             else Validator.add_nominator cn a x in
  ∃ w', dispatch origin (Call_switch_nomination old new) w = Done tt w' ∧
    Nominators w' = <[a:=n']> (Nominators w) ∧
    Candidates w' = <[new:=cn'.2]> (<[old:=(Validator.rm_nominator co a).2]> (Candidates w)).
Proof.
  intros [Hreg _] Ho Hne Ha Hco Hcn Hsw cn'.
  cut (wp (dispatch origin (Call_switch_nomination old new)) (λ o, ∃ w', o = Done tt w' ∧
    Nominators w' = <[a:=n']> (Nominators w) ∧
    Candidates w' = <[new:=cn'.2]> (<[old:=(Validator.rm_nominator co a).2]> (Candidates w)))
    w); [done|].
  cbn [dispatch]. unfold switch_nomination. stake_run.
  all: try (exfalso; first [congruence|rewrite negb_false_iff in *; by apply Hne, Z.eqb_eq]).
  simplify_eq. rewrite Hsw. stake_run; [|done].
  match goal with H : Some (x, amt) = Some _ |- _ => injection H as <- end.
  destruct (Validator.rm_nominator co a) as [t1 co']. fold cn'. destruct cn' as [t2 cn2].
  apply wp_bind, wp_update_active; [apply Hreg|]. intros pool1 Hp1 _. cbn [bind_post].
  apply wp_bind, wp_update_active; [done|]. intros pool2 _ _. cbn [bind_post]. stake_run.
  eexists. by split_and!.
Qed.

(** ** The cap on nominators *)

(** The calls that add a nominator to [v], with an amount of the type. *)
Definition nominates (v : AccountId) (call : Call) : Prop :=
  match call with
  | Call_join_nominators u x | Call_nominate_new u x => u = v ∧ 0 <= x < U128
  | _ => False
  end.

(** They are refused when [v] has as many as it can have. *)
Lemma full_candidate_refuses call origin v c w w' :
  sound w → Candidates w !! v = Some c →
  MaxNominatorsPerValidator <= Z.of_nat (length (Validator.nominators c)) < U32 - 1 →
  nominates v call → dispatch origin call w ≠ Done tt w'.
Proof using CL CF.
  intros [Hp Hs] Hv Hlen Hcall E. pose proof (cand_sorted _ _ _ (proj2 Hs) v c Hv) as Hsc.
  assert (orderly_call w origin call) as Hc by (by destruct call; cbn; naive_solver).
  pose proof (dispatch_refines origin call w Hc (conj Hp Hs)) as H. unfold wp in H.
  rewrite E in H. destruct H as [H _].
  assert (size (Spec.backers (abs w) v) = length (Validator.nominators c)) as Hsize.
  { rewrite (backers_abs w v c Hs Hv). by apply bond_map_size. }
  destruct call; try done; destruct Hcall as [-> _]; cbn [Spec.step] in H; run_inv;
    [unfold Spec.join_nominators in *|unfold Spec.nominate_new in *]; run_inv;
    unfold Spec.count in *.
  - match goal with H : (_ <=? MaxNominatorsPerValidator) = true |- _ => revert H end.
    assert (Spec.backers (abs w) v !! x = None) as Hx.
    { unfold Spec.backers. rewrite lookup_omap. by destruct (Spec.stakes (abs w) !! x). }
    rewrite map_size_insert, Hx, Hsize, u32_small by lia. intros ?%Z.leb_le. lia.
  - match goal with H : (_ <? MaxNominatorsPerValidator) = true |- _ => revert H end.
    rewrite Hsize, u32_small by lia. intros ?%Z.ltb_lt. lia.
Qed.

(** C30. [switch_nomination] does not look at [MaxNominatorsPerValidator]: a candidate that
    has as many nominators is closed to new nominators and to new nominations, but every
    nominator of another candidate can still switch to it, and it then has one more. *)
Theorem switch_ignores_nominator_cap origin a old new x c w :
  sound w → ensure_signed origin = Some a → old ≠ new →
  nomination (Nominators w) a old = Some x → nomination (Nominators w) a new = None →
  Candidates w !! new = Some c →
  MaxNominatorsPerValidator <= Z.of_nat (length (Validator.nominators c)) < U32 - 1 →
  (∀ origin' call w', nominates new call → dispatch origin' call w ≠ Done tt w') ∧
  ∃ w' c', dispatch origin (Call_switch_nomination old new) w = Done tt w' ∧
    nomination (Nominators w') a new = Some x ∧ Candidates w' !! new = Some c' ∧
    length (Validator.nominators c') = S (length (Validator.nominators c)).
Proof using CL CF.
  intros Hw Ho Hne Hold Hnone Hc Hlen.
  split; [intros origin' call w' Hcall; by eapply full_candidate_refuses|].
  destruct Hw as [Hp [_ Hb]].
  assert (is_Some (Candidates w !! old)) as [co Hco].
  { rewrite (bilateral _ _ _ Hb) in Hold. unfold backing in Hold.
    destruct (Candidates w !! old); by eauto. }
  unfold nomination in Hold, Hnone. destruct (Nominators w !! a) as [n|] eqn:Ha; [|done].
  cbn in Hold, Hnone.
  pose proof (nom_sorted _ _ _ Hb a n Ha) as Hsn. pose proof (cand_sorted _ _ _ Hb _ _ Hc) as Hsc.
  pose proof (swap_nomination_moves n old new x Hsn Hne Hold Hnone) as Hsw.
  destruct (Nominator.swap_nomination n old new) as [r n'] eqn:En.
  destruct Hsw as (-> & _ & _ & _ & Hm).
  destruct (switch_nomination_runs origin a old new n n' x x co c w) as (w' & E & HN & HC); [done..|].
  rewrite Z.gtb_ltb, Z.ltb_irrefl in HC.
  destruct (add_nominator_eq c a x Hsc) as (l & Hadd & Hl & Hlm). rewrite Hadd in HC.
  exists w'. eexists. split_and!; [done| |by rewrite HC, lookup_insert_eq|].
  - unfold nomination. rewrite HN, lookup_insert_eq. cbn.
    by rewrite Hm, Z.eqb_refl, (proj2 (Z.eqb_neq new old)).
  - cbn. pose proof (bilateral_lookup _ _ _ new a c n Hb Hc Ha) as Hk. rewrite Hnone in Hk.
    by rewrite <-(bond_map_size l Hl), <-(bond_map_size _ Hsc), Hlm, Hk, map_size_insert, Hk.
Qed.

(** ** What a merge leaves behind *)







End totals.

(** ** Witnesses, and traces of the runtime that show the consequences *)

#[local] Existing Instance mock_config.

Abbreviation W := (World Ledger).
Definition outcome_world (o : Outcome W (DispatchError Error) unit) (w : W) : W :=
  match o with Done _ w' | Failed _ w' => w' | Panicked => w end.
Definition call (a : AccountId) (c : Call) (w : W) : W := outcome_world (dispatch (Signed a) c w) w.
Definition succeeded (o : Outcome W (DispatchError Error) unit) : bool :=
  match o with Done _ _ => true | _ => false end.
Definition failed_with (o : Outcome W (DispatchError Error) unit) : option (DispatchError Error) :=
  match o with Failed e _ => Some e | _ => None end.
Definition build_config : InflationInfo.t :=
  {| InflationInfo.expect := Range.from 700; InflationInfo.round := Range.from (percent 5) |}.
Definition build (balances : list (AccountId * Z))
    (stakers : list (AccountId * option AccountId * Z)) : W :=
  let w := empty_world build_config (ledger balances) in
  outcome_world (genesis_build Signed stakers w) w.

Lemma build_sound balances stakers :
  Forall (λ '(_, _, balance), 0 <= balance < U128) stakers →
  cur_valid (ledger balances) → sound (build balances stakers).
Proof.
  intros Hst Hc. unfold build.
  assert (sound (empty_world build_config (ledger balances))) as H0 by by apply empty_world_sound.
  pose proof (genesis_build_sound Signed stakers _ Hst H0) as H. unfold wp in H.
  destruct (genesis_build Signed stakers _) as [u w|e w|]; [exact H|done|exact H0].
Qed.

Ltac sound_build :=
  apply build_sound; [by repeat (constructor; [by split|])|apply ledger_is_valid; by vm_compute].


(** Candidates 1, 2 and 4; nominator 3 nominates 2 with 100 and 1 with 50, then merges
    its nomination of 2 into its nomination of 1. *)
Definition nominated_two : W :=
  call 3 (Call_nominate_new 1 50)
    (build [(1, 1000); (2, 300); (3, 300); (4, 300)]
       [(1, None, 500); (2, None, 200); (4, None, 150); (3, Some 2, 100)]).
Definition merged : W := call 3 (Call_switch_nomination 2 1) nominated_two.

(** The nomination that a merge leaves behind can be switched to a third validator,
    which then counts stake that is not there: 250 are staked with 150 reserved. *)
Theorem merged_nomination_is_staked_twice :
  let w := call 3 (Call_switch_nomination 2 4) merged in
  succeeded (dispatch (Signed 3) (Call_switch_nomination 2 4) merged) = true ∧
  backing (Candidates w) 1 3 = Some 150 ∧ backing (Candidates w) 4 3 = Some 100 ∧
  reserved_balance (currency w) 3 = 150 ∧
  (Validator.total <$> Candidates w !! 4) = Some 250 ∧
  (Validator.bond <$> Candidates w !! 4) = Some 150.
Proof. vm_compute. done. Qed.

(** Blocks [b] to [b + n - 1] end. *)
Fixpoint end_blocks (b : Z) (n : nat) (w : W) : W :=
  match n with
  | O => w
  | S n => end_blocks (b + 1) n (outcome_world (on_finalize b w) w)
  end.

Definition two_balances : list (AccountId * Z) :=
  [(1, 1000); (2, 300); (3, 100); (4, 100); (5, 100); (6, 100); (7, 100)].
Definition two_stakers : list (AccountId * option AccountId * Z) :=
  [(1, None, 500); (2, None, 200); (3, Some 1, 100); (4, Some 1, 100); (5, Some 1, 100);
   (6, Some 1, 100); (7, Some 2, 100)].
Definition two_candidates : W := build two_balances two_stakers.

(** So [Total] wraps around below zero when the candidates exit: with 1200 at stake and 300
    bonded more, both exits leave [2^128 - 300], and the next round counts with it. *)
Example total_underflows_after_exits :
  let w := call 1 (Call_candidate_bond_more 300) two_candidates in
  let w := call 2 Call_leave_candidates (call 1 Call_leave_candidates w) in
  let w' := end_blocks 1 10 w in
  Total two_candidates = 1200 ∧ candidates_total w = 1500 ∧ Total w = 1200 ∧
  Candidates w' = ∅ ∧ Total w' = U128 - 300 ∧ Staked w' !! 3 = Some (U128 - 300).
Proof. vm_compute. done. Qed.

(** The same trace, as a chain. *)
Lemma end_blocks_pass b n w :
  sound w → moves_past (Origin := RawOrigin) 0 w (end_blocks b n w).
Proof.
  revert b w. induction n as [|n IH]; intros b w Hs; [constructor|]. cbn [end_blocks].
  pose proof (on_finalize_refines b w Hs) as H. unfold wp in H.
  destruct (on_finalize b w) as [[] w1|? ?|] eqn:E; [|done..]. cbn [outcome_world].
  change 0 with (0 + 0). apply (past_step _ 0 _ w1); [by eapply counted_finalize|].
  apply IH, (orderly_step_sound (Origin := RawOrigin) w); [by eapply orderly_finalize|done].
Qed.

Definition both_leave : W :=
  call 2 Call_leave_candidates (call 1 Call_leave_candidates
    (call 1 (Call_candidate_bond_more 300) two_candidates)).
Definition both_left : W := end_blocks 1 10 both_leave.

Definition two_nominations : Nominator.t :=
  {| Nominator.nominations := [{| owner := 1; amount := 50 |}; {| owner := 2; amount := 100 |}];
     Nominator.total := 150 |}.

Lemma two_nominations_sorted : sorted (Nominator.nominations two_nominations).
Proof. repeat constructor. Qed.

Lemma swap_nomination_moves_witness :
  let '(r, n') := Nominator.swap_nomination two_nominations 2 4 in
  r = Some (100, 100) ∧ sorted (Nominator.nominations n') ∧
  Nominator.total n' = Nominator.total two_nominations ∧
  zsum amount (Nominator.nominations n') = zsum amount (Nominator.nominations two_nominations) ∧
  ∀ v, bond_map (Nominator.nominations n') !! v =
    if v =? 2 then None else if v =? 4 then Some 100
    else bond_map (Nominator.nominations two_nominations) !! v.
Proof.
  exact (swap_nomination_moves two_nominations 2 4 100 two_nominations_sorted
    ltac:(lia) eq_refl eq_refl).
Defined.

Lemma swap_nomination_merge_keeps_old_witness :
  let '(r, n') := Nominator.swap_nomination two_nominations 2 1 in
  r = Some (100, 150) ∧ Nominator.total n' = Nominator.total two_nominations ∧
  bond_map (Nominator.nominations n') !! 2 = Some 100 ∧
  bond_map (Nominator.nominations n') !! 1 = Some 150 ∧
  zsum amount (Nominator.nominations n') =
    zsum amount (Nominator.nominations two_nominations) + 100.
Proof.
  exact (swap_nomination_merge_keeps_old two_nominations 2 1 100 50 two_nominations_sorted
    ltac:(lia) eq_refl eq_refl ltac:(lia) ltac:(lia) ltac:(reflexivity)).
Defined.

(** The world of the two witnesses that follow. *)
Definition small : W := build [(1, 1000); (2, 100)] [(1, None, 500); (2, Some 1, 50)].

Lemma small_sound : sound small.
Proof. sound_build. Qed.

Definition small_candidate : Validator.t :=
  {| Validator.id := 1; Validator.fee := 0; Validator.bond := 500;
     Validator.nominators := [{| owner := 2; amount := 50 |}];
     Validator.total := 550; Validator.state := Active |}.
Definition bonded_more : W := call 1 (Call_candidate_bond_more 100) small.
Definition nominated_more : W := call 2 (Call_nominator_bond_more 1 10) small.

Lemma succeeds_outcome (o : Outcome W (DispatchError Error) unit) w :
  succeeded o = true → o = Done tt (outcome_world o w).
Proof. by destruct o as [[] ?|?|]. Qed.

Lemma candidate_bond_more_forgets_total_witness :
  Candidates bonded_more !! 1 = Some (Validator.set_bond_total small_candidate
    (Validator.bond small_candidate + 100) (Validator.total small_candidate + 100)) ∧
  reserved_balance (currency bonded_more) 1 = reserved_balance (currency small) 1 + 100 ∧
  candidates_total bonded_more = candidates_total small + 100 ∧
  Total bonded_more = Total small.
Proof.
  assert (Candidates small !! 1 = Some small_candidate) as Hc by (vm_compute; reflexivity).
  assert (candidate_bond_more (Signed 1) 100 small = Done tt bonded_more) as E
    by (apply succeeds_outcome; vm_compute; reflexivity).
  exact (candidate_bond_more_forgets_total (Signed 1) 1 small_candidate 100 small bonded_more
    small_sound ltac:(lia) eq_refl Hc E).
Defined.

Lemma nomination_increased_reports_candidate_total_witness :
  List.last (events nominated_more) (NominatorJoined 0 0) = NominationIncreased 2 1 550 560 ∧
  ∃ a c c', ensure_signed (Signed 2) = Some a ∧
    Candidates small !! 1 = Some c ∧ Candidates nominated_more !! 1 = Some c' ∧
    events nominated_more = events small ++
      [NominationIncreased a 1 (Validator.total c) (Validator.total c')].
Proof.
  split; [vm_compute; reflexivity|].
  assert (nominator_bond_more (Signed 2) 1 10 small = Done tt nominated_more) as E
    by (apply succeeds_outcome; vm_compute; reflexivity).
  exact (nomination_increased_reports_candidate_total (Signed 2) 1 10 small nominated_more
    (proj1 small_sound) E).
Defined.

Lemma two_candidates_sound : sound two_candidates.
Proof. sound_build. Qed.



(** The first candidate has the four nominators that it can have. *)
Definition full_candidate : Validator.t := default small_candidate (Candidates two_candidates !! 1).

Lemma switch_ignores_nominator_cap_witness :
  length (Validator.nominators full_candidate) = 4%nat ∧ MaxNominatorsPerValidator = 4 ∧
  failed_with (dispatch (Signed 7) (Call_nominate_new 1 10) two_candidates) =
    Some (Module_ TooManyNominators) ∧
  (∀ origin' call w', nominates 1 call → dispatch origin' call two_candidates ≠ Done tt w') ∧
  ∃ w' c', dispatch (Signed 7) (Call_switch_nomination 2 1) two_candidates = Done tt w' ∧
    nomination (Nominators w') 7 1 = Some 100 ∧ Candidates w' !! 1 = Some c' ∧
    length (Validator.nominators c') = S (length (Validator.nominators full_candidate)).
Proof.
  split; [vm_compute; reflexivity|]. split; [reflexivity|]. split; [vm_compute; reflexivity|].
  assert (Candidates two_candidates !! 1 = Some full_candidate) as Hc by (vm_compute; reflexivity).
  exact (switch_ignores_nominator_cap (Signed 7) 7 2 1 100 full_candidate two_candidates
    two_candidates_sound eq_refl ltac:(lia) ltac:(vm_compute; reflexivity)
    ltac:(vm_compute; reflexivity) Hc ltac:(vm_compute; split; [discriminate|reflexivity])).
Defined.

Lemma both_left_chain : moves_past (Origin := RawOrigin) 300 two_candidates both_left.
Proof.
  pose proof two_candidates_sound as Hs.
  assert (∀ a k w, orderly_call w (Signed a) k → succeeded (dispatch (Signed a) k w) = true →
    counted_step (Origin := RawOrigin) w (unrecorded k) (call a k w)) as Hcall.
  { intros a k w Ho Hk. eapply counted_call; [exact Ho|by apply succeeds_outcome]. }
  set (w1 := call 1 (Call_candidate_bond_more 300) two_candidates).
  set (w2 := call 1 Call_leave_candidates w1).
  assert (counted_step (Origin := RawOrigin) two_candidates 300 w1) as H1.
  { apply (Hcall 1 (Call_candidate_bond_more 300)); [cbn; lia|vm_compute; reflexivity]. }
  assert (counted_step (Origin := RawOrigin) w1 0 w2) as H2.
  { apply (Hcall 1 Call_leave_candidates); [exact I|vm_compute; reflexivity]. }
  assert (counted_step (Origin := RawOrigin) w2 0 both_leave) as H3.
  { apply (Hcall 2 Call_leave_candidates); [exact I|vm_compute; reflexivity]. }
  change 300 with (300 + (0 + (0 + 0))).
  eapply past_step; [exact H1|]. eapply past_step; [exact H2|]. eapply past_step; [exact H3|].
  apply end_blocks_pass. do 3 (eapply orderly_step_sound; [eapply counted_orderly; eassumption|]).
  exact Hs.
Qed.

Lemma total_is_behind_by_bond_changes_witness :
  Total both_left = U128 - 300 ∧ Total both_left ≠ candidates_total both_left.
Proof.
  assert (cur_valid (ledger two_balances)) as Hc.
  { apply ledger_is_valid. vm_compute. reflexivity. }
  assert (Forall (λ '(_, _, balance), 0 <= balance < U128) two_stakers) as Hst
    by by repeat (constructor; [by split|]).
  assert (genesis_build Signed two_stakers (empty_world build_config (ledger two_balances)) =
    Done tt two_candidates) as E.
  { apply succeeds_outcome. vm_compute. reflexivity. }
  destruct (total_is_behind_by_bond_changes Signed build_config (ledger two_balances) two_stakers
    two_candidates 300 both_left Hc Hst E both_left_chain) as (_ & _ & H3 & H4).
  split.
  - apply H4; [vm_compute; reflexivity|]. split; [reflexivity|]. vm_compute. congruence.
  - intros H. apply H3 in H. vm_compute in H. congruence.
Defined.
