(* ===== verification/SpecTheorems.v ===== *)
(** * The pallet as a machine: theorems

    The refinement of [Spec.v] by the pallet, and what the machine alone guarantees. *)

From S2P Require Import Prelude OrderedSet Frame StakeTypes BondMap Inflation Stake.
From S2P Require Import StakeLogic Registry Books Solvency Rounds Spec Refinement.
From S2P Require Import RoundRefinement Reference StakeTheorems.

#[local] Existing Instance mock_config.

(** ** What the machine keeps *)

Section machine.
Context {Origin : Type}.
Context `{FO : FrameOrigin Origin, MO : MonetaryPolicyOrigin Origin}.
Context `{PO : PerbillOps, SC : StakeConfig}.
Context {CF : StakeConfigLaws}.

(** The configured minima and maxima hold of everything that is staked, and accounts
    nominate candidates only. *)
Record within_limits (s : Spec.t) : Prop := {
  lim_bond v c : Spec.own s !! v = Some c → MinValidatorStk <= Spec.bond c ∧ Spec.fee c <= MaxFee;
  lim_some a m : Spec.stakes s !! a = Some m → m ≠ ∅;
  lim_count a m : Spec.stakes s !! a = Some m → Z.of_nat (size m) <= MaxValidatorsPerNominator;
  lim_stake a m v x : Spec.stakes s !! a = Some m → m !! v = Some x →
    MinNomination `min` MinNominatorStk <= x ∧ is_Some (Spec.own s !! v);
}.

Lemma limits_put_own v c s :
  within_limits s → MinValidatorStk <= Spec.bond c → Spec.fee c <= MaxFee →
  within_limits (Spec.put_own v c s).
Proof.
  intros H Hb Hf. split; cbn [Spec.put_own Spec.own Spec.stakes]; try apply H.
  - intros u d. rewrite lookup_insert. case_decide; [by intros [= <-]|apply H].
  - intros a m u x Ha Hx. destruct (lim_stake _ H a m u x Ha Hx) as [? [d ?]]. split; [done|].
    rewrite lookup_insert. case_decide; by eexists.
Qed.

Lemma limits_put_stakes a m s :
  within_limits s → m ≠ ∅ → Z.of_nat (size m) <= MaxValidatorsPerNominator →
  (∀ v x, m !! v = Some x →
    MinNomination `min` MinNominatorStk <= x ∧ is_Some (Spec.own s !! v)) →
  within_limits (Spec.put_stakes a m s).
Proof.
  intros H Hm Hc Hv. split; cbn [Spec.put_stakes Spec.own Spec.stakes]; try apply H.
  - intros b k. rewrite lookup_insert. case_decide; [by intros [= <-]|apply H].
  - intros b k. rewrite lookup_insert. case_decide; [by intros [= <-]|apply H].
  - intros b k v x. rewrite lookup_insert. case_decide; [intros [= <-]; apply Hv|apply H].
Qed.

(** One entry of the nominations of an account is written, others may be dropped. *)
Lemma limits_put_stake a m k v x s :
  within_limits s → Spec.stakes s !! a = Some m → k ⊆ m →
  Z.of_nat (size (<[v:=x]> k)) <= MaxValidatorsPerNominator →
  MinNomination `min` MinNominatorStk <= x → is_Some (Spec.own s !! v) →
  within_limits (Spec.put_stakes a (<[v:=x]> k) s).
Proof.
  intros H Ha Hk Hc Hx Hv. apply limits_put_stakes; [done|apply insert_non_empty|done|].
  intros u y. rewrite lookup_insert. case_decide; [intros [= <-]; by subst|].
  intros Hy. apply (lim_stake _ H a m); [done|]. by eapply lookup_weaken.
Qed.

Lemma limits_remove v s : within_limits s → within_limits (Spec.remove_candidate v s).
Proof.
  intros H. assert (∀ a k, Spec.stakes s !! a ≫= Spec.unstake v = Some k →
    ∃ m, Spec.stakes s !! a = Some m ∧ k ⊆ m ∧ k ≠ ∅ ∧ k !! v = None) as Hk.
  { intros a k. destruct (Spec.stakes s !! a) as [m|] eqn:Ha; [|done]. cbn. unfold Spec.unstake.
    destruct (m !! v) eqn:Ev; [case_decide; [done|]|]; intros [= <-]; exists m; split_and!; try done.
    - apply delete_subseteq.
    - apply lookup_delete_eq.
    - by apply (lim_some _ H a). }
  split; cbn [Spec.remove_candidate Spec.own Spec.stakes].
  - intros u c [_ Hu]%lookup_delete_Some. by apply (lim_bond _ H u).
  - intros a k. rewrite lookup_omap. by intros (m & _ & _ & ? & _)%Hk.
  - intros a k. rewrite lookup_omap. intros (m & Ha & Hsub & _)%Hk.
    pose proof (lim_count _ H a m Ha). pose proof (map_subseteq_size _ _ Hsub). lia.
  - intros a k u x. rewrite lookup_omap. intros (m & Ha & Hsub & _ & Hkv)%Hk Hx.
    assert (m !! u = Some x) as Hmx by by eapply lookup_weaken.
    destruct (lim_stake _ H a m u x Ha Hmx) as [? [c ?]]. split; [done|].
    rewrite lookup_delete_ne; [by eexists|congruence].
Qed.

Lemma count_bound {V} (m : gmap Z V) :
  MaxValidatorsPerNominator < U32 → Z.of_nat (size m) <= MaxValidatorsPerNominator →
  Spec.count m < MaxValidatorsPerNominator → Z.of_nat (size m) < MaxValidatorsPerNominator.
Proof. intros Hu Hle Hc. unfold Spec.count in Hc. rewrite u32_small in Hc; lia. Qed.

Lemma size_insert_le {V} (m : gmap Z V) k x :
  (size (<[k:=x]> m) <= S (size m))%nat.
Proof. rewrite map_size_insert. case_match; cbn; lia. Qed.

Lemma limits_step origin call s s' :
  1 <= MaxValidatorsPerNominator < U32 →
  Spec.unsigned call →
  Spec.step (Origin := Origin) origin call s = inr s' → within_limits s → within_limits s'.
Proof using CF.
  intros Hmax Harg H Hs. pose proof min_nominator_pos as Hpos.
  destruct call; cbn [Spec.step Spec.unsigned] in *; run_inv;
    unfold Spec.join_candidates, Spec.leave_candidates, Spec.go_offline, Spec.go_online,
      Spec.candidate_bond_more, Spec.candidate_bond_less, Spec.join_nominators,
      Spec.leave_nominators, Spec.nominate_new, Spec.switch_nomination,
      Spec.revoke_nomination, Spec.nominator_bond_more, Spec.nominator_bond_less in *;
    run_inv; repeat match goal with
    | H : (_ >=? _) = true |- _ => apply Z.geb_le in H
    | H : (_ <=? _) = true |- _ => apply Z.leb_le in H
    | H : (_ <? _) = true |- _ => apply Z.ltb_lt in H
    | H : (_ >? _) = true |- _ => apply Z.gtb_lt in H
    end.
  1-2: split; apply Hs.
  1: by apply limits_put_own.
  1-5: pose proof (lim_bond s Hs x x0 ltac:(done)); apply limits_put_own; cbn; [done|lia..].
  - apply limits_put_stakes; [done|by intros ?%(f_equal (lookup validator));  simplify_map_eq|rewrite map_size_singleton; lia|].
    intros v y [<- <-]%lookup_singleton_Some. split; [lia|by eexists].
  - split; cbn; try apply Hs; intros a m; rewrite lookup_delete; case_decide; (done || apply Hs).
  - eapply limits_put_stake; [done..| |lia|by eexists].
    rewrite map_size_insert_None by done.
    assert (Z.of_nat (size x1) < MaxValidatorsPerNominator); [|lia].
    apply count_bound; [lia| |done]. by apply (lim_count s Hs x).
  - pose proof (lim_count s Hs x x1 ltac:(done)).
    pose proof (lim_stake s Hs x x1 old x4 ltac:(done) ltac:(done)) as [Hx4 _].
    eapply (limits_put_stake _ x1 (delete old x1)); [done..|apply delete_subseteq| | |by eexists].
    + pose proof (size_insert_le (delete old x1) new (x4 + default 0 (x1 !! new))).
      pose proof (map_size_delete_Some old x1 ltac:(by exists x4)).
      assert (size x1 ≠ 0%nat); [|lia]. intros E%map_size_empty_inv. by simplify_map_eq.
    + destruct (x1 !! new) as [y|] eqn:Ey; cbn; [|lia].
      pose proof (lim_stake s Hs x x1 new y ltac:(done) Ey) as [Hy _].
      pose proof min_nomination_pos. lia.
  - apply limits_put_stakes; [done| | |].
    + intros E. pose proof (map_sum_delete x0 validator) as Hd. rewrite E, map_sum_empty in Hd.
      simplify_map_eq. lia.
    + pose proof (lim_count s Hs x x0 ltac:(done)).
      rewrite (map_size_delete_Some validator x0) by (by exists x1). lia.
    + intros v y [_ Hy]%lookup_delete_Some. by apply (lim_stake s Hs x x0).
  - pose proof (lim_stake s Hs x x0 candidate x2 ltac:(done) ltac:(done)) as [Hx2 _].
    eapply limits_put_stake; [done..| |lia|by eexists].
    rewrite map_size_insert_Some by (by exists x2). by apply (lim_count s Hs x).
  - eapply limits_put_stake; [done..| |lia|by eexists].
    rewrite map_size_insert_Some by (by exists x2). by apply (lim_count s Hs x).
Qed.

Lemma limits_round s : within_limits s → within_limits (Spec.end_of_round s).
Proof.
  intros H. assert (within_limits (foldr Spec.remove_candidate s (Spec.due_accounts s))) as H'.
  { induction (Spec.due_accounts s) as [|v l IH]; [done|]. by apply limits_remove. }
  split; apply H'.
Qed.

Lemma limits_moves s s' :
  1 <= MaxValidatorsPerNominator < U32 →
  Spec.moves (Origin := Origin) s s' → within_limits s → within_limits s'.
Proof using CF.
  intros Hmax [origin call s2 Hu Hstep|] H; [by eapply limits_step|by apply limits_round].
Qed.

Lemma limits_initial config : within_limits (Spec.initial config).
Proof. split; cbn; intros *; by rewrite lookup_empty. Qed.
End machine.

Section theorems.
Context {Origin Cur : Type}.
Context `{FO : FrameOrigin Origin, MO : MonetaryPolicyOrigin Origin, CU : Currency Cur}.
Context {CL : CurrencyLaws Cur}.
Context `{PO : PerbillOps, US : UnstableSort, IO : IterationOrder, SC : StakeConfig}.
Context {SL : UnstableSortLaws} {CF : StakeConfigLaws}.
Implicit Types (w : World Cur) (origin : Origin).

(** C2. In a sound world every orderly call of the pallet does what the abstract machine
    does: when the machine accepts the call, so does the pallet, it leaves the world the
    machine describes, and moves exactly the change of stake of each account between its
    free and its reserved balance; when the machine refuses the call, the pallet fails
    with the same error; the one other error is the currency's, when it cannot reserve
    the machine's change of stake. *)
Theorem calls_implement_machine origin call w :
  orderly_call w origin call → sound w → refined origin call w (dispatch origin call w).
Proof using CL CF. intros Hc Hs. exact (dispatch_refines origin call w Hc Hs). Qed.

(** C3. In a sound world the end of a block always completes. At the last block of a round
    it does to the candidates and the nominations what the abstract machine does: all
    candidates whose exit is due disappear, with every stake in them, and with the
    nominators that have none left; otherwise nothing changes. The reserved balance of each
    account changes by exactly its change of stake. *)
Theorem rounds_implement_machine n w :
  sound w →
  ∃ w', on_finalize n w = Done tt w' ∧
    abs w' = (if n mod BlocksPerRound =? 0 then Spec.end_of_round (abs w) else abs w) ∧
    ∀ a, reserved_balance (currency w') a = reserved_balance (currency w) a +
      (Spec.at_stake (abs w') a - Spec.at_stake (abs w) a).
Proof using CL SL CF.
  intros Hs. pose proof (on_finalize_refines n w Hs) as H. unfold wp in H.
  destruct (on_finalize n w) as [[] w'|?|]; [|done..]. by exists w'.
Qed.

(** The rest of the pallet's registry is redundant: two sound worlds in the same machine
    state have the same candidates and nominators, with their lists in the same order and
    the same totals, the same candidate pool and the same exit queue. *)
Lemma registry_determined w w' :
  sound w → sound w' → abs w = abs w' →
  Candidates w = Candidates w' ∧ Nominators w = Nominators w' ∧
  CandidatePool w = CandidatePool w' ∧ ExitQueue w = ExitQueue w'.
Proof.
  intros [(Hreg & Hnoms & _) Hs] [(Hreg' & Hnoms' & _) Hs'] E.
  assert (Candidates w = Candidates w') as HC.
  { apply map_eq. intros v. pose proof (own_abs w v) as H. rewrite E, own_abs in H.
    destruct (Candidates w !! v) as [c|] eqn:Ev, (Candidates w' !! v) as [c'|] eqn:Ev';
      try done. f_equal.
    pose proof (total_abs w v c Hs Ev) as Ht. pose proof (total_abs w' v c' Hs' Ev') as Ht'.
    pose proof (backers_abs w v c Hs Ev) as Hb. pose proof (backers_abs w' v c' Hs' Ev') as Hb'.
    pose proof (candidate_id _ _ _ Hreg v c Ev). pose proof (candidate_id _ _ _ Hreg' v c' Ev').
    assert (Validator.nominators c = Validator.nominators c').
    { apply bond_map_inj; [by eapply (candidate_sorted _ _ _ Hreg)
        |by eapply (candidate_sorted _ _ _ Hreg')|]. congruence. }
    rewrite E in Ht. destruct c, c'. cbn in *. injection H as -> -> ->. congruence. }
  assert (Nominators w = Nominators w') as HN.
  { apply map_eq. intros a. pose proof (stakes_abs w a) as H. rewrite E, stakes_abs in H.
    destruct (Nominators w !! a) as [n|] eqn:Ea, (Nominators w' !! a) as [n'|] eqn:Ea';
      try done. injection H as H. f_equal.
    destruct (nomination_facts w a n Hs Ea) as (_ & S & T).
    destruct (nomination_facts w' a n' Hs' Ea') as (_ & S' & T').
    assert (Nominator.nominations n = Nominator.nominations n') by (by apply bond_map_inj).
    destruct n, n'. cbn in *. congruence. }
  split_and!; [done|done|apply bond_map_inj|apply bond_map_inj]; try apply Hreg; try apply Hreg';
    apply map_eq; intros a.
  - by rewrite (pool_exact _ _ _ Hreg), (pool_exact _ _ _ Hreg'), HC.
  - by rewrite (queue_exact _ _ _ Hreg), (queue_exact _ _ _ Hreg'), HC.
Qed.

(** A nominator can leave: the call does not fail. *)
Lemma leave_nominators_done origin w s :
  sound w → Spec.step origin Call_leave_nominators (abs w) = inr s →
  ∃ w', dispatch origin Call_leave_nominators w = Done tt w'.
Proof using CL.
  intros [Hp Hs]. cbn [Spec.step dispatch]. unfold Spec.caller, Spec.leave_nominators.
  destruct (ensure_signed origin) as [a|] eqn:Ho; [|done]. intros H. run_inv. simplify_eq.
  match goal with H : Spec.stakes _ !! _ = Some _ |- _ => rewrite stakes_abs in H;
    apply fmap_Some in H as (n & Hn & _) end.
  pose proof (leave_nominators_solvent origin _ n w Hp Hs Ho Hn) as K. unfold wp in K.
  destruct (leave_nominators origin w) as [[] w'|?|]; [by eexists|done..].
Qed.

Lemma join_and_leave_abs origin v x s s1 :
  Spec.step origin (Call_join_nominators v x) s = inr s1 →
  Spec.step origin Call_leave_nominators s1 = inr s.
Proof.
  cbn [Spec.step]. unfold Spec.join_nominators, Spec.leave_nominators. intros H. run_inv.
  match goal with H : Spec.caller _ = _ |- _ => rewrite H end.
  cbn [mbind Result_bind]. unfold Spec.put_stakes, Spec.drop_stakes. cbn [Spec.stakes].
  rewrite lookup_insert_eq. cbn. rewrite delete_insert_id by done. by destruct s.
Qed.

(** C10. Joining and leaving cancel: whoever joins the nominators can leave again, and then
    nothing is left of it: the candidates with their lists of nominators, totals and
    statuses, the nominators, the candidate pool, the exit queue, and the free and the
    reserved balance of every account are what they were before. *)
Theorem joining_and_leaving_cancel origin v x w w1 :
  0 <= x < U128 → sound w →
  dispatch origin (Call_join_nominators v x) w = Done tt w1 →
  ∃ w2, dispatch origin Call_leave_nominators w1 = Done tt w2 ∧
    (Candidates w2 = Candidates w ∧ Nominators w2 = Nominators w ∧
     CandidatePool w2 = CandidatePool w ∧ ExitQueue w2 = ExitQueue w) ∧
    ∀ a, free_balance (currency w2) a = free_balance (currency w) a ∧
      reserved_balance (currency w2) a = reserved_balance (currency w) a.
Proof using CL SL CF IO.
  intros Hx Hs E.
  assert (sound w1) as Hs1.
  { apply (orderly_steps_sound w); [|done]. apply rtc_once.
    by apply (orderly_dispatch _ origin (Call_join_nominators v x) tt). }
  pose proof (dispatch_refines origin (Call_join_nominators v x) w Hx Hs) as H1.
  unfold wp in H1. rewrite E in H1. destruct H1 as [H1 M1].
  pose proof (join_and_leave_abs _ _ _ _ _ H1) as H2.
  destruct (leave_nominators_done origin w1 (abs w) Hs1 H2) as [w2 E2].
  pose proof (dispatch_refines origin Call_leave_nominators w1 I Hs1) as R. unfold wp in R.
  rewrite E2 in R. destruct R as [R M2]. assert (abs w2 = abs w) as A by congruence.
  exists w2. split; [done|]. split.
  - apply registry_determined; [|done..]. apply (orderly_steps_sound w1); [|done].
    apply rtc_once. by apply (orderly_dispatch _ origin Call_leave_nominators tt).
  - intros a. destruct (M1 a) as [R1 F1], (M2 a) as [R2 F2]. rewrite A in R2, F2. lia.
Qed.

(** C7. Along every orderly chain the limits of the configuration hold: a candidate's own
    bond is at least the minimum and its fee at most the maximum; a nominator has at least
    one nomination and no more than it may have, each with an existing candidate and of at
    least the smaller of the two minima. *)
Theorem chain_within_limits signed_by config c stakers w0 w :
  1 <= MaxValidatorsPerNominator < U32 →
  cur_valid c → Forall (λ '(_, _, balance), 0 <= balance < U128) stakers →
  genesis_build signed_by stakers (empty_world config c) = Done tt w0 →
  rtc orderly_step w0 w →
  (∀ v cand, Candidates w !! v = Some cand →
    MinValidatorStk <= Validator.bond cand ∧ Validator.fee cand <= MaxFee) ∧
  (∀ a n, Nominators w !! a = Some n →
    1 <= Z.of_nat (length (Nominator.nominations n)) <= MaxValidatorsPerNominator ∧
    ∀ b, b ∈ Nominator.nominations n →
      MinNomination `min` MinNominatorStk <= amount b ∧ is_Some (Candidates w !! owner b)).
Proof using CL SL CF.
  intros Hmax Hc Hst E Hr.
  pose proof (genesis_build_sound signed_by stakers _ Hst (empty_world_sound config c Hc)) as Hs0.
  unfold wp in Hs0. rewrite E in Hs0.
  assert (within_limits (abs w)) as H.
  { apply (orderly_steps_invariant within_limits w0); try done.
    - intros s s'. by apply limits_moves.
    - eapply (genesis_invariant within_limits);
        [intros origin call s s' _; by apply limits_step|intros s H; split; apply H|apply limits_initial
        |exact Hc|exact Hst|exact E]. }
  pose proof (orderly_steps_sound w0 w Hr Hs0) as [_ Hs]. split.
  - intros v cand Hv. apply (lim_bond _ H v (abs_candidate cand)). by rewrite own_abs, Hv.
  - intros a n Ha. assert (Spec.stakes (abs w) !! a = Some (abs_stakes n)) as Hm.
    { by rewrite stakes_abs, Ha. }
    destruct (nomination_facts w a n Hs Ha) as (_ & Hsn & _).
    pose proof (lim_count _ H a _ Hm) as Hcount. pose proof (lim_some _ H a _ Hm) as Hne.
    unfold abs_stakes in *. rewrite bond_map_size in Hcount by done. split.
    + split; [|done]. destruct (Nominator.nominations n); [done|]. cbn. lia.
    + intros b Hb. destruct (lim_stake _ H a _ (owner b) (amount b) Hm) as [? Hv].
      { apply bond_map_elem; [done|]. by destruct b. }
      split; [done|]. rewrite own_abs in Hv. by apply fmap_is_Some in Hv.
Qed.
End theorems.

Lemma calls_implement_machine_witness :
  Spec.step (Signed 7) (Call_join_nominators 2 50) (abs Demo.genesis) =
    inr (Spec.put_stakes 7 {[2 := 50]} (abs Demo.genesis)) ∧
  refined (Signed 7) (Call_join_nominators 2 50) Demo.genesis
    (dispatch (Signed 7) (Call_join_nominators 2 50) Demo.genesis).
Proof.
  split; [vm_compute; reflexivity|].
  apply (calls_implement_machine (Signed 7) (Call_join_nominators 2 50) Demo.genesis).
  - by split.
  - exact Demo.genesis_sound.
Defined.

(** Candidate 2 leaves in round 1, and the round ends twice. *)
Module Exit.
Import Demo.

Definition w1 : World Ledger := world_of (dispatch (Signed 2) Call_leave_candidates genesis).
Definition w2 : World Ledger := world_of (on_finalize 5 w1).

Lemma exit_steps : rtc orderly_step genesis w2.
Proof.
  apply (rtc_l _ _ w1).
  { apply (orderly_dispatch _ (Signed 2) Call_leave_candidates tt); [done|].
    apply succeeds_Done. vm_compute. reflexivity. }
  apply rtc_once. apply (orderly_finalize _ 5 tt). apply succeeds_Done. vm_compute. reflexivity.
Qed.

Lemma w2_sound : sound w2.
Proof. exact (orderly_steps_sound genesis w2 exit_steps genesis_sound). Qed.
End Exit.

Lemma rounds_implement_machine_witness :
  Spec.at_stake (abs Exit.w2) 5 = 100 ∧
  Spec.at_stake (Spec.end_of_round (abs Exit.w2)) 5 = 0 ∧
  ∃ w', on_finalize 10 Exit.w2 = Done tt w' ∧
    abs w' = (if 10 mod BlocksPerRound =? 0 then Spec.end_of_round (abs Exit.w2) else abs Exit.w2) ∧
    ∀ a, reserved_balance (currency w') a = reserved_balance (currency Exit.w2) a +
      (Spec.at_stake (abs w') a - Spec.at_stake (abs Exit.w2) a).
Proof.
  split; [vm_compute; reflexivity|]. split; [vm_compute; reflexivity|].
  exact (rounds_implement_machine 10 Exit.w2 Exit.w2_sound).
Defined.

(** Account 7 nominates candidate 2 at genesis, and leaves again. *)
Module Return.
Import Demo.

Definition w1 : World Ledger :=
  world_of (dispatch (Signed 7) (Call_join_nominators 2 50) genesis).

Lemma joins : dispatch (Signed 7) (Call_join_nominators 2 50) genesis = Done tt w1.
Proof. apply succeeds_Done. vm_compute. reflexivity. Qed.
End Return.

Lemma joining_and_leaving_cancel_witness :
  0 <= 50 < U128 ∧ reserved_balance (currency Return.w1) 7 = 50 ∧
  ∃ w2, dispatch (Signed 7) Call_leave_nominators Return.w1 = Done tt w2 ∧
    (Candidates w2 = Candidates Demo.genesis ∧ Nominators w2 = Nominators Demo.genesis ∧
     CandidatePool w2 = CandidatePool Demo.genesis ∧ ExitQueue w2 = ExitQueue Demo.genesis) ∧
    ∀ a, free_balance (currency w2) a = free_balance (currency Demo.genesis) a ∧
      reserved_balance (currency w2) a = reserved_balance (currency Demo.genesis) a.
Proof.
  assert (0 <= 50 < U128) as H by by split. split; [exact H|].
  split; [vm_compute; reflexivity|].
  exact (joining_and_leaving_cancel (Signed 7) 2 50 Demo.genesis Return.w1 H Demo.genesis_sound
    Return.joins).
Defined.

Lemma chain_within_limits_witness :
  1 <= MaxValidatorsPerNominator < U32 ∧
  ∀ v cand, Candidates Exit.w2 !! v = Some cand →
    MinValidatorStk <= Validator.bond cand ∧ Validator.fee cand <= MaxFee.
Proof.
  assert (1 <= MaxValidatorsPerNominator < U32) as H by by split.
  split; [exact H|].
  exact (proj1 (chain_within_limits Signed Demo.config (ledger Demo.balances) Demo.stakers
    Demo.genesis Exit.w2 H Demo.balances_valid Demo.stakers_in_range Demo.genesis_runs Exit.exit_steps)).
Defined.
