(* ===== verification/Departure.v ===== *)
(** * A candidacy leaves no trace

    On the machine of [Spec.v], a candidate that nobody backs and that is on its way out can
    be taken away at any time without a difference to the rest: the ends of rounds commute
    with it until its round begins, and then remove exactly it. With the refinement this
    is a round trip of the pallet: join, leave, wait. *)

From S2P Require Import Prelude OrderedSet Frame StakeTypes BondMap Inflation Stake.
From S2P Require Import StakeLogic Registry Books Solvency Rounds Spec Refinement.
From S2P Require Import RoundRefinement ExitProgress Reference StakeTheorems SpecTheorems.

#[local] Existing Instance mock_config.

(** ** The machine *)

(** An account that is no candidate and that nobody has nominated. *)
Definition unbacked (s : Spec.t) (v : AccountId) : Prop :=
  Spec.own s !! v = None ∧ ∀ a m, Spec.stakes s !! a = Some m → m !! v = None.

(** [k] rounds end. *)
Fixpoint rounds (k : nat) (s : Spec.t) : Spec.t :=
  match k with O => s | S k => rounds k (Spec.end_of_round s) end.

Lemma rounds_add j k s : rounds (j + k) s = rounds k (rounds j s).
Proof. revert s. induction j as [|j IH]; intros s; [done|]. apply IH. Qed.

Lemma put_put v c d s : Spec.put_own v d (Spec.put_own v c s) = Spec.put_own v d s.
Proof. unfold Spec.put_own. cbn. by rewrite insert_insert_eq. Qed.

Lemma remove_put_ne u v c s :
  u ≠ v → Spec.remove_candidate u (Spec.put_own v c s) =
    Spec.put_own v c (Spec.remove_candidate u s).
Proof.
  intros Hne. unfold Spec.remove_candidate, Spec.put_own. cbn.
  by rewrite delete_insert_ne.
Qed.

Lemma remove_all_put l v c s :
  v ∉ l → foldr Spec.remove_candidate (Spec.put_own v c s) l =
    Spec.put_own v c (foldr Spec.remove_candidate s l).
Proof.
  induction l as [|u l IH]; cbn; [done|]. intros [Hne Hv]%not_elem_of_cons.
  by rewrite IH, remove_put_ne.
Qed.

(** Removing the candidate undoes its entry. *)
Lemma remove_put v c s : unbacked s v → Spec.remove_candidate v (Spec.put_own v c s) = s.
Proof.
  intros [Hv Hb]. destruct s as [n i o k]. unfold Spec.remove_candidate, Spec.put_own. cbn in *.
  rewrite delete_insert_id by done. f_equal. apply map_eq. intros a. rewrite lookup_omap.
  destruct (k !! a) as [m|] eqn:Ha; [|done]. cbn. unfold Spec.unstake.
  by rewrite (Hb a m Ha).
Qed.

Lemma unstake_sub u m k : Spec.unstake u m = Some k → k ⊆ m.
Proof.
  unfold Spec.unstake. destruct (m !! u); [case_decide; [done|]|]; intros [= <-]; [|done].
  apply delete_subseteq.
Qed.

Lemma unbacked_remove u v s : unbacked s v → unbacked (Spec.remove_candidate u s) v.
Proof.
  intros [Hv Hb]. split; cbn.
  - rewrite lookup_delete. by case_decide.
  - intros a k. rewrite lookup_omap. destruct (Spec.stakes s !! a) as [m|] eqn:Ha; [|done].
    intros Hk%unstake_sub. eapply lookup_weaken_None; [by apply (Hb a)|done].
Qed.

Lemma unbacked_round s v : unbacked s v → unbacked (Spec.end_of_round s) v.
Proof.
  intros H. assert (unbacked (foldr Spec.remove_candidate s (Spec.due_accounts s)) v) as H'.
  { induction (Spec.due_accounts s); [done|]. by apply unbacked_remove. }
  done.
Qed.

Lemma due_accounts_put v c s :
  Spec.own s !! v = None →
  Spec.due_accounts (Spec.put_own v c s) ≡ₚ
    (if Spec.due (Spec.now s ⊞ 1) c then [v] else []) ++ Spec.due_accounts s.
Proof.
  intros Hv. assert (v ∉ Spec.due_accounts s) as Hn.
  { intros (d & Hd & _)%due_accounts_elem. congruence. }
  assert (∀ s', NoDup (Spec.due_accounts s')) as Hnd.
  { intros s'. unfold Spec.due_accounts. apply NoDup_elements. }
  apply NoDup_Permutation; [done|case_match; cbn; [by apply NoDup_cons|done]|].
  intros a. rewrite elem_of_app, !due_accounts_elem. cbn [Spec.put_own Spec.own Spec.now].
  rewrite lookup_insert. destruct (decide (v = a)) as [<-|Hne].
  - rewrite Hv. destruct (Spec.due _ c) eqn:Hd.
    + split; [left; left|]. intros _. by exists c.
    + split; [intros (d & [= <-] & ?); congruence|]. intros [?%elem_of_nil|(d & ? & _)]; done.
  - split; [by right|]. intros [Ha|?]; [|done]. case_match; set_solver.
Qed.

(** The end of a round removes the candidate when it is due, and commutes with it before. *)
Lemma end_of_round_put v c s :
  unbacked s v →
  Spec.end_of_round (Spec.put_own v c s) =
    if Spec.due (Spec.now s ⊞ 1) c then Spec.end_of_round s
    else Spec.put_own v c (Spec.end_of_round s).
Proof.
  intros H. assert (v ∉ Spec.due_accounts s) as Hn.
  { intros (d & Hd & _)%due_accounts_elem. destruct H. congruence. }
  assert (unbacked (foldr Spec.remove_candidate s (Spec.due_accounts s)) v) as H'.
  { clear Hn. induction (Spec.due_accounts s); [done|]. by apply unbacked_remove. }
  unfold Spec.end_of_round at 1.
  rewrite (remove_all_perm _ _ _ (due_accounts_put v c s (proj1 H))).
  destruct (Spec.due _ c); cbn [app foldr]; rewrite remove_all_put by done; [|done].
  by rewrite remove_put.
Qed.

(** When the round of the exit has begun, the candidate has never been there. *)
Lemma rounds_put k v c r s :
  unbacked s v → Spec.status c = Leaving r → 0 <= Spec.now s →
  Spec.now s + Z.of_nat k < U32 → Spec.now s < r <= Spec.now s + Z.of_nat k →
  rounds k (Spec.put_own v c s) = rounds k s.
Proof.
  revert s. induction k as [|k IH]; intros s H Hc Hn Hu Hr; [lia|]. cbn [rounds].
  rewrite end_of_round_put by done. unfold Spec.due. rewrite Hc.
  destruct (Z.leb_spec r (Spec.now s ⊞ 1)) as [?|Hlt]; [done|].
  rewrite u32_small in Hlt by lia.
  apply IH; cbn [Spec.end_of_round Spec.now]; rewrite ?u32_small by lia; try lia; [|done].
  by apply unbacked_round.
Qed.

(** ** The pallet *)

Section pallet.
Context {Origin Cur : Type}.
Context `{FO : FrameOrigin Origin, MO : MonetaryPolicyOrigin Origin, CU : Currency Cur}.
Context {CL : CurrencyLaws Cur}.
Context `{PO : PerbillOps, US : UnstableSort, IO : IterationOrder, SC : StakeConfig}.
Context {SL : UnstableSortLaws} {CF : StakeConfigLaws}.
Implicit Types (w : World Cur) (origin : Origin).

(** What happens in blocks in which nobody makes a call: a block gets its author, and a block
    ends. *)
Inductive Quiet := authored (a : AccountId) | ended (n : Z).

Definition quiet (q : Quiet) : Prog (World Cur) (DispatchError Error) unit :=
  match q with authored a => note_author a | ended n => on_finalize n end.

(** The number of rounds that end. *)
Definition ends_round (q : Quiet) : bool :=
  match q with authored _ => false | ended n => n mod BlocksPerRound =? 0 end.
Definition rounds_in (l : list Quiet) : nat := length (filter (λ q, ends_round q = true) l).

Lemma rounds_in_cons q l :
  rounds_in (q :: l) = ((if ends_round q then 1 else 0) + rounds_in l)%nat.
Proof. unfold rounds_in. rewrite filter_cons. by destruct (ends_round q). Qed.

(** The registry goes through the ends of rounds, and the reserved balances follow. *)
Definition passed (k : nat) w w' : Prop :=
  sound w' ∧ abs w' = rounds k (abs w) ∧ followed w w'.

Lemma followed_same w w' : abs w' = abs w → currency w' = currency w → followed w w'.
Proof. intros HA HC b. rewrite HA, HC. lia. Qed.

Lemma quiet_passes q w :
  sound w → wp (quiet q) (ends (passed (if ends_round q then 1 else 0) w)) w.
Proof using CL SL CF IO FO MO.
  intros Hs. destruct q as [a|n]; cbn [quiet ends_round].
  - unfold wp, note_author. cbn. split_and!; [|done|by apply followed_same].
    apply (orderly_step_sound w); [by eapply (orderly_author _ a tt)|done].
  - pose proof (on_finalize_refines n w Hs) as H. unfold wp, round_refined in *.
    destruct (on_finalize n w) as [[] w'|?|?] eqn:E; [|done..]. destruct H as [H1 H2].
    split_and!; [|by rewrite H1; destruct (_ =? _)|done].
    apply (orderly_step_sound w); [by eapply orderly_finalize|done].
Qed.

Lemma quiet_all l w : sound w → wp (for_each l quiet) (ends (passed (rounds_in l) w)) w.
Proof using CL SL CF IO FO MO.
  revert w. induction l as [|q l IH]; intros w Hs; cbn [for_each].
  { split_and!; [done|done|by apply followed_same]. }
  rewrite rounds_in_cons. apply wp_bind. eapply wp_mono; [|by apply quiet_passes].
  intros [[] w1|? ?|]; [|done..]. intros (Hs1 & A1 & F1). cbn [bind_post].
  eapply wp_mono; [|by apply IH]. intros [[] w2|? ?|]; [|done..]. intros (Hs2 & A2 & F2).
  split_and!; [done| |by eapply followed_trans]. by rewrite A2, A1, rounds_add.
Qed.

(** In a sound world who is no candidate has no stake behind it. *)
Lemma stranger_unbacked w v : sound w → Spec.own (abs w) !! v = None → unbacked (abs w) v.
Proof.
  intros [_ [_ Hb]] Hv. split; [done|]. intros a m Ha. rewrite stakes_abs in Ha.
  pose proof (bilateral _ _ _ Hb a v) as H. unfold nomination, backing in H.
  rewrite own_abs in Hv. destruct (Candidates w !! v); [done|].
  destruct (Nominators w !! a); [|done]. by injection Ha as <-.
Qed.

(** The machine lets a candidate leave, and then so does the pallet. *)
Lemma leave_candidates_done origin w s :
  sound w → Spec.step origin Call_leave_candidates (abs w) = inr s →
  ∃ w', dispatch origin Call_leave_candidates w = Done tt w'.
Proof using CL CF.
  intros Hs Hstep. pose proof Hs as [[Hreg _] _].
  assert (wp (leave_candidates origin)
    (λ o, match o with Failed (External _) _ => False | _ => True end) w) as H.
  { unfold leave_candidates. stake_run; try done. destruct (OrderedSet.insert _ _) as [i queue].
    stake_run; try done. apply wp_remove_from_pool; [apply Hreg|]. intros pool _ _.
    cbn [bind_post]. by stake_run. }
  pose proof (dispatch_refines origin Call_leave_candidates w I Hs) as R.
  cbn [dispatch] in *. unfold wp in *.
  destruct (leave_candidates origin w) as [[] w'|e w'|]; [by exists w'| |done].
  destruct R as [R|(? & ? & r & _ & _ & _ & ->)]; [congruence|done].
Qed.

(** What joining and leaving make of the machine's state. *)
Lemma join_leave_steps origin fee x s s1 :
  Spec.step origin (Call_join_candidates fee x) s = inr s1 →
  ∃ a, Spec.own s !! a = None ∧
    Spec.step origin Call_leave_candidates s1 =
      inr (Spec.put_own a (Spec.Cand x fee (Leaving (Spec.now s ⊞ BondDuration))) s).
Proof.
  cbn [Spec.step]. unfold Spec.join_candidates, Spec.leave_candidates. intros H. run_inv.
  match goal with H : Spec.caller _ = inr ?b |- _ => exists b; rewrite H end.
  split; [done|]. cbn [mbind Result_bind Spec.put_own Spec.own]. rewrite lookup_insert_eq.
  unfold Spec.leaving. cbn [get mbind Result_bind Spec.status negb require].
  unfold mret, Result_ret. f_equal. apply put_put.
Qed.

(** C25. A candidacy that nobody backs leaves no trace: whoever joins the candidates can leave
    again at once, and when the delay of the exit has passed in blocks in which nobody makes
    a call, the candidates, the nominators with all their lists and totals, the candidate
    pool, the exit queue, and the reserved balance of every account are what they would be
    had the account never joined. The blocks may have any authors, and any number of rounds
    may end. *)
Theorem candidacy_leaves_no_trace origin fee x w w1 :
  0 <= x → sound w → 1 <= BondDuration → 0 <= Round w →
  dispatch origin (Call_join_candidates fee x) w = Done tt w1 →
  ∃ w2, dispatch origin Call_leave_candidates w1 = Done tt w2 ∧
    ∀ l, BondDuration <= Z.of_nat (rounds_in l) → Round w + Z.of_nat (rounds_in l) < U32 →
      ∃ w3 w', for_each l quiet w2 = Done tt w3 ∧ for_each l quiet w = Done tt w' ∧
        (Candidates w3 = Candidates w' ∧ Nominators w3 = Nominators w' ∧
         CandidatePool w3 = CandidatePool w' ∧ ExitQueue w3 = ExitQueue w') ∧
        ∀ a, reserved_balance (currency w3) a = reserved_balance (currency w') a.
Proof using CL SL CF IO.
  intros Hx Hs Hbd Hr E.
  pose proof (dispatch_refines origin (Call_join_candidates fee x) w Hx Hs) as R1.
  pose proof (orderly_dispatch_sound origin (Call_join_candidates fee x) w Hx Hs) as Hs1.
  unfold wp in R1, Hs1. rewrite E in R1, Hs1. destruct R1 as [R1 M1]. cbn in Hs1.
  destruct (join_leave_steps _ _ _ _ _ R1) as (v & Hv & R2).
  destruct (leave_candidates_done origin w1 _ Hs1 R2) as [w2 E2]. exists w2. split; [done|].
  pose proof (dispatch_refines origin Call_leave_candidates w1 I Hs1) as R3.
  pose proof (orderly_dispatch_sound origin Call_leave_candidates w1 I Hs1) as Hs2.
  unfold wp in R3, Hs2. rewrite E2 in R3, Hs2. destruct R3 as [R3 M2]. cbn in Hs2.
  rewrite R2 in R3. apply (inj inr) in R3 as A2.
  intros l Hl Hu. pose proof (quiet_all l w2 Hs2) as Q. pose proof (quiet_all l w Hs) as Q'.
  unfold wp in Q, Q'. destruct (for_each l quiet w2) as [[] w3|? ?|]; [|done..].
  destruct (for_each l quiet w) as [[] w'|? ?|]; [|done..]. exists w3, w'.
  destruct Q as (S3 & A3 & F3), Q' as (S' & A' & F').
  assert (abs w3 = abs w') as A.
  { rewrite A3, A', <-A2. change (Round w) with (Spec.now (abs w)) in *.
    eapply rounds_put; [by apply stranger_unbacked|done|done|lia|]. rewrite u32_small; lia. }
  split_and!; [done|done|by apply registry_determined..|].
  intros a. destruct (M1 a) as [H1 _], (M2 a) as [H2 _].
  specialize (F3 a). specialize (F' a). rewrite A in F3. lia.
Qed.
End pallet.

(** Account 7 joins the candidates in round 1 and leaves; in the ten blocks that follow two
    rounds end. *)
Module Candidacy.
Import Demo.

Definition w1 : World Ledger :=
  world_of (dispatch (Signed 7) (Call_join_candidates 0 50) genesis).
Definition blocks : list Quiet :=
  [authored 1; ended 1; ended 2; ended 3; authored 2; ended 4; ended 5;
   ended 6; ended 7; ended 8; ended 9; authored 2; ended 10].

Lemma candidate_joins :
  dispatch (Signed 7) (Call_join_candidates 0 50) genesis = Done tt w1.
Proof. apply succeeds_Done. vm_compute. reflexivity. Qed.
End Candidacy.

Lemma candidacy_leaves_no_trace_witness :
  BondDuration <= Z.of_nat (rounds_in Candidacy.blocks) ∧
  bool_decide (is_Some (Candidates Candidacy.w1 !! 7)) = true ∧
  reserved_balance (currency Candidacy.w1) 7 = 50 ∧
  ∃ w2 w3 w', dispatch (Signed 7) Call_leave_candidates Candidacy.w1 = Done tt w2 ∧
    for_each Candidacy.blocks quiet w2 = Done tt w3 ∧
    for_each Candidacy.blocks quiet Demo.genesis = Done tt w' ∧
    Candidates w3 = Candidates w' ∧ 
    reserved_balance (currency w3) 7 = reserved_balance (currency w') 7.
Proof.
  assert (BondDuration <= Z.of_nat (rounds_in Candidacy.blocks)) as Hl.
  { apply Z.leb_le. vm_compute. reflexivity. }
  split; [exact Hl|]. split; [vm_compute; reflexivity|]. split; [vm_compute; reflexivity|].
  assert (0 <= 50) as H50 by (apply Z.leb_le; vm_compute; reflexivity).
  assert (1 <= BondDuration) as Hbd by (apply Z.leb_le; vm_compute; reflexivity).
  assert (0 <= Round Demo.genesis) as Hr by (apply Z.leb_le; vm_compute; reflexivity).
  assert (Round Demo.genesis + Z.of_nat (rounds_in Candidacy.blocks) < U32) as Hu.
  { apply Z.ltb_lt. vm_compute. reflexivity. }
  destruct (candidacy_leaves_no_trace (Signed 7) 0 50 Demo.genesis Candidacy.w1 H50
    Demo.genesis_sound Hbd Hr Candidacy.candidate_joins) as (w2 & E2 & H).
  destruct (H Candidacy.blocks Hl Hu) as (w3 & w' & E3 & E' & (HC & _) & HB).
  exists w2, w3, w'. exact (conj E2 (conj E3 (conj E' (conj HC (HB 7))))).
Defined.
