(* ===== verification/ChainTheorems.v ===== *)
(** * Chains: types, rewards and exits

    What holds along whole chains beyond the books: the stored numbers are of their types,
    so a round pays exactly the rewards that are computed from what it has recorded, and
    every exit that is requested happens. *)

From S2P Require Import Prelude OrderedSet Frame StakeTypes BondMap Inflation Stake.
From S2P Require Import StakeLogic Registry Books Solvency Rounds Payouts Rewards.
From S2P Require Import Spec Refinement.
From S2P Require Import RoundRefinement Widths ExitProgress Reference StakeTheorems SpecTheorems.

#[local] Existing Instance mock_config.

Section theorems.
Context {Origin Cur : Type}.
Context `{FO : FrameOrigin Origin, MO : MonetaryPolicyOrigin Origin, CU : Currency Cur}.
Context {CL : CurrencyLaws Cur}.
Context `{PO : PerbillOps, US : UnstableSort, IO : IterationOrder, SC : StakeConfig}.
Context {PL : PerbillLaws} {SL : UnstableSortLaws} {CF : StakeConfigLaws}.
Implicit Types (w : World Cur) (origin : Origin).

Lemma chain_typed signed_by config c stakers w0 w :
  typed_inflation config → Forall (λ '(_, _, balance), is_u128 balance) stakers →
  genesis_build signed_by stakers (empty_world config c) = Done tt w0 →
  rtc typed_step w0 w → typed w.
Proof using PL CF.
  intros Hi Hst E Hr.
  pose proof (genesis_build_typed signed_by stakers _ Hst (empty_world_typed config c Hi)) as H0.
  unfold wp in H0. rewrite E in H0. cbn in H0. clear E Hi Hst.
  induction Hr as [|w1 w2 w3 Hs _ IH]; [done|]. apply IH. by eapply typed_step_typed.
Qed.

(** C16. In every world a chain reaches, the loops of [pay_stakers] do what this does: compute
    the list of the rewards from what the round has recorded, in exact arithmetic, drop the
    records, and credit one reward after the other. Nothing wraps around, and no payment
    changes another one. On the list are authors of the round and those who were exposed
    with them, and nobody else, each with at most the issuance of the round. *)
Theorem rounds_pay_their_rewards {IL : IterationOrderLaws}
    signed_by config c stakers w0 w next :
  typed_inflation config → Forall (λ '(_, _, balance), is_u128 balance) stakers →
  genesis_build signed_by stakers (empty_world config c) = Done tt w0 →
  rtc typed_step w0 w → cur_valid (currency w) →
  let round := next ⊟ BondDuration in
  pay_stakers next w =
    Done tt (if next >? BondDuration
             then pay_rewards (round_rewards round w) (used_up round w) else w) ∧
  ∀ a x, (a, x) ∈ round_rewards round w →
    0 <= x <= compute_issuance w (get_or 0 (Staked w) round) ∧
    ∃ v, is_Some (AwardedPts w !! (round, v)) ∧
      (a = v ∨ a ∈ owner <$> ValidatorSnapshot.nominators
                   (get_or ValidatorSnapshot.default (AtStake w) (round, v))).
Proof using CL PL CF.
  intros Hi Hst E Hr Hc round. destruct (chain_typed signed_by config c stakers w0 w Hi Hst E Hr).
  assert (map_Forall (λ _, snapshot_ok) (AtStake w)) as HA.
  { intros k s Hk. by destruct (ty_AtStake k s Hk). }
  assert (map_Forall (λ _ p, 0 <= p) (Points w)) as HP by (intros k p Hk; apply (ty_Points k p Hk)).
  assert (map_Forall (λ _ p, 0 <= p) (AwardedPts w)) as HW
    by (intros k p Hk; apply (ty_AwardedPts k p Hk)).
  split; [by apply pay_stakers_rewards; try apply ty_InflationConfig|].
  intros a x. by apply round_rewards_members; try apply ty_InflationConfig.
Qed.

(** C8. Every exit happens. When a chain of orderly steps has passed [m] rounds from genesis and
    a candidate is leaving, its exit round lies ahead, at most [BondDuration] rounds; as
    long as that round has not begun the account stays a leaving candidate with the same
    exit round; and in any continuation of [BondDuration] rounds there is a world, in the
    first block of the exit round, in which it is no candidate any more. The numbers of
    rounds stay below the width of [RoundIndex]. *)
Theorem exits_terminate signed_by config c stakers w0 m w k w' v cand r :
  1 <= BondDuration →
  cur_valid c → Forall (λ '(_, _, balance), 0 <= balance < U128) stakers →
  genesis_build signed_by stakers (empty_world config c) = Done tt w0 →
  rounds_pass m w0 w → rounds_pass k w w' → 1 + m + k + 1 + BondDuration < U32 →
  Candidates w !! v = Some cand → Validator.state cand = Leaving r →
  Round w < r <= Round w + BondDuration ∧
  (Round w' < r →
    ∃ cand', Candidates w' !! v = Some cand' ∧ Validator.state cand' = Leaving r) ∧
  (BondDuration <= k → ∃ w1, rtc orderly_step w w1 ∧ rtc orderly_step w1 w' ∧ Round w1 = r ∧
    Candidates w1 !! v = None).
Proof using CL SL CF IO.
  intros Hbd Hc Hst E Hm Hk Hlt Hv Hstate.
  pose proof (genesis_build_sound signed_by stakers _ Hst (empty_world_sound config c Hc)) as Hs0.
  unfold wp in Hs0. rewrite E in Hs0.
  assert (Round w0 = 1 ∧ pending (abs w0)) as [HR0 Hp0].
  { apply (genesis_starts signed_by config c stakers w0); done. }
  pose proof (rounds_pass_nonneg _ _ _ Hm). pose proof (rounds_pass_nonneg _ _ _ Hk).
  assert (Round w = 1 + m) as HR by (rewrite (rounds_pass_round m w0 w); [lia|done|lia..]).
  assert (pending (abs w)) as Hp.
  { apply (rounds_pass_pending m w0 w); try done; lia. }
  pose proof (orderly_steps_sound w0 w (rounds_pass_steps _ _ _ Hm) Hs0) as Hs.
  assert (leaves_in (abs w) v r) as Hl.
  { exists (abs_candidate cand). by rewrite own_abs, Hv. }
  pose proof (Hp v r Hl) as Hr. change (Spec.now (abs w)) with (Round w) in Hr.
  assert (Round w' = Round w + k) as HR' by (apply (rounds_pass_round k w w'); [done|lia..]).
  pose proof (rounds_pass_exit k w w' v r Hk Hs Hbd ltac:(lia) ltac:(lia) Hp Hl) as Hx.
  split; [done|]. rewrite <-HR' in Hx. split.
  - intros Hlt'. rewrite decide_True in Hx by done. destruct Hx as (d & Hd & Hsd).
    rewrite own_abs in Hd. destruct (Candidates w' !! v) as [cand'|]; [|done].
    injection Hd as <-. by exists cand'.
  - intros Hbk. by rewrite decide_False in Hx by lia.
Qed.
End theorems.

(** ** Witnesses *)

Lemma demo_config_typed : typed_inflation Demo.config.
Proof. repeat split; vm_compute; congruence. Qed.

(** Both validators make blocks of round 1, which the end of round 2 pays. *)
Module Reward.
Import Demo.
Definition w1 : World Ledger := world_of (note_author 1 genesis).
Definition w2 : World Ledger := world_of (note_author 2 w1).
Definition w3 : World Ledger := world_of (on_finalize 5 w2).
Lemma reward_steps : rtc typed_step genesis w3.
Proof.
  apply (rtc_l _ _ w1).
  { apply (typed_author _ 1 tt). apply succeeds_Done. vm_compute. reflexivity. }
  apply (rtc_l _ _ w2).
  { apply (typed_author _ 2 tt). apply succeeds_Done. vm_compute. reflexivity. }
  apply rtc_once. apply (typed_finalize _ 5 tt). apply succeeds_Done. vm_compute. reflexivity.
Qed.
Lemma reward_valid : cur_valid (currency w3).
Proof. apply ledger_is_valid. vm_compute. reflexivity. Qed.
End Reward.

Lemma rounds_pay_their_rewards_witness :
  round_rewards 1 Reward.w3 = [(2, 22); (5, 11); (6, 11); (1, 32); (3, 6); (4, 6)] ∧
  pay_stakers 3 Reward.w3 =
    Done tt (pay_rewards (round_rewards 1 Reward.w3) (used_up 1 Reward.w3)).
Proof.
  split; [vm_compute; reflexivity|].
  exact (proj1 (rounds_pay_their_rewards Signed Demo.config (ledger Demo.balances) Demo.stakers
    Demo.genesis Reward.w3 3 demo_config_typed Demo.stakers_in_range Demo.genesis_runs
    Reward.reward_steps Reward.reward_valid)).
Defined.

(** Candidate 2 leaves in round 1, for round 3. *)
Module Leave.
Import Demo.

Definition cand : Validator.t := default (Validator.new 0 0 0) (Candidates Exit.w1 !! 2).
Definition w3 : World Ledger := world_of (on_finalize 10 Exit.w2).

Lemma before : rounds_pass 0 genesis Exit.w1.
Proof.
  apply (pass_step 0 genesis Exit.w1); [|vm_compute; reflexivity|constructor].
  apply (orderly_dispatch _ (Signed 2) Call_leave_candidates tt); [done|].
  apply succeeds_Done. vm_compute. reflexivity.
Qed.

Lemma after : rounds_pass 2 Exit.w1 w3.
Proof.
  apply (pass_round 1 Exit.w1 Exit.w2); [|vm_compute; reflexivity|].
  { apply (orderly_finalize _ 5 tt). apply succeeds_Done. vm_compute. reflexivity. }
  apply (pass_round 0 Exit.w2 w3); [|vm_compute; reflexivity|constructor].
  apply (orderly_finalize _ 10 tt). apply succeeds_Done. vm_compute. reflexivity.
Qed.
End Leave.

Lemma exits_terminate_witness :
  Candidates Exit.w1 !! 2 = Some Leave.cand ∧
  ∃ w1, rtc orderly_step Exit.w1 w1 ∧ rtc orderly_step w1 Leave.w3 ∧ Round w1 = 3 ∧
    Candidates w1 !! 2 = None.
Proof.
  assert (Candidates Exit.w1 !! 2 = Some Leave.cand) as Hv by (vm_compute; reflexivity).
  assert (Validator.state Leave.cand = Leaving 3) as Hs by (vm_compute; reflexivity).
  split; [exact Hv|].
  assert (1 <= BondDuration) as H1 by (vm_compute; congruence).
  assert (1 + 0 + 2 + 1 + BondDuration < U32) as H2 by (vm_compute; reflexivity).
  assert (BondDuration <= 2) as H3 by (vm_compute; congruence).
  exact (proj2 (proj2 (exits_terminate Signed Demo.config (ledger Demo.balances) Demo.stakers
    Demo.genesis 0 Exit.w1 2 Leave.w3 2 Leave.cand 3 H1 Demo.balances_valid Demo.stakers_in_range
    Demo.genesis_runs Leave.before Leave.after H2 Hv Hs)) H3).
Defined.
