(* ===== verification/Exposures.v ===== *)
(** * Exposures along chains

    The exposures that are recorded stay exact along every orderly chain, which bounds the
    payments of a round. *)

From S2P Require Import Prelude OrderedSet Frame StakeTypes BondMap Inflation Stake.
From S2P Require Import StakeLogic Registry Books Solvency Rounds Payouts PayoutBound Widths.

Section chains.
Context {Origin Cur : Type}.
Context `{FO : FrameOrigin Origin, MO : MonetaryPolicyOrigin Origin, CU : Currency Cur}.
Context {CL : CurrencyLaws Cur}.
Context `{PO : PerbillOps, US : UnstableSort, IO : IterationOrder, SC : StakeConfig}.
Context {SL : UnstableSortLaws} {CF : StakeConfigLaws}.
Implicit Types (w : World Cur).

(** ** Exposures *)

Definition exposures_sum w : Prop := map_Forall (λ _, exact_snapshot) (AtStake w).

Lemma exposed_exact w v c :
  solvent w → Candidates w !! v = Some c → exact_snapshot (Validator.into_snapshot c).
Proof.
  intros [_ Hb] Hv. unfold exact_snapshot.
  change (Validator.total c = Validator.bond c + zsum amount (Validator.nominators c)).
  rewrite bond_sum_map by by eapply (cand_sorted _ _ _ Hb). by apply (cand_total _ _ _ Hb v).
Qed.

Lemma orderly_step_exposures w w' :
  sound w → orderly_step w w' → exposures_sum w → exposures_sum w'.
Proof using SL CF.
  intros [Hp Hs] Hst Hw. unfold exposures_sum.
  assert (∀ origin (o : Outcome (World Cur) (DispatchError Error) unit), rounds_kept origin w o →
    match o with Done _ v | Failed _ v => exposures_sum v | Panicked => True end) as Hkept.
  { intros origin o Ho. unfold exposures_sum. destruct o as [u v|e v|]; cbn in Ho; [| |done];
      destruct Ho as (_ & _ & _ & -> & _); exact Hw. }
  destruct Hst as [origin call u w' Hc E|origin call e w' Hc E|n u w' E|a u w' E|c Hc Hr|].
  - pose proof (Hkept _ _ (dispatch_rounds origin call w)) as H. by rewrite E in H.
  - pose proof (Hkept _ _ (dispatch_rounds origin call w)) as H. by rewrite E in H.
  - destruct (decide (n mod BlocksPerRound = 0)) as [Hn|Hn]; cycle 1.
    { rewrite mid_round in E by done. by injection E as _ <-. }
    destruct (end_of_round n w Hn Hp) as (w2 & E2 & _ & Hch).
    rewrite E2 in E. injection E as _ <-. intros [r a] s Hsnap.
    destruct (decide (r = Round w2 ∧ a ∈ Validators w2)) as [[-> Ha]|Hne].
    + pose proof Ha as Hin. rewrite (change_validators _ _ Hch), sort_members in Hin.
      apply top_candidates_member in Hin.
      destruct (pool_member_candidate w a) as (c & Hca & _); [apply Hp|done|].
      rewrite (change_exposed _ _ Hch a c Ha Hca) in Hsnap. injection Hsnap as <-.
      by eapply exposed_exact.
    + destruct (change_other_exposures _ _ Hch r a Hne) as [Heq|(_ & _ & Heq)];
        rewrite Heq in Hsnap; [by apply (Hw _ _ Hsnap)|done].
  - unfold note_author in E. cbn in E. injection E as _ <-. exact Hw.
  - exact Hw.
  - exact Hw.
Qed.

(** The genesis build records the first exposures. *)
Lemma genesis_exposures (signed_by : AccountId → Origin) config c stakers w0 :
  cur_valid c → Forall (λ '(_, _, balance), 0 <= balance < U128) stakers →
  genesis_build signed_by stakers (empty_world config c) = Done tt w0 → exposures_sum w0.
Proof using CL SL CF MO PO.
  intros Hc Hst E. set (I := λ w, sound w ∧ AtStake w = ∅).
  assert (wp (genesis_build signed_by stakers)
    (λ o, match o with Done _ w' => exposures_sum w' | _ => True end) (empty_world config c)) as H;
    [|unfold wp in H; by rewrite E in H].
  unfold genesis_build. apply wp_bind. apply (wp_for_each I).
  - split; [by apply empty_world_sound|done].
  - intros [[actor opt_val] balance] w Hin [Hw HA].
    rewrite Forall_forall in Hst. specialize (Hst _ Hin). cbn in Hst.
    eapply wp_mono; [|apply wp_and;
      [by apply genesis_staker_sound|apply (genesis_staker_rounds signed_by actor opt_val balance)]].
    intros [u w2|e w2|] [H1 H2]; [|done..]. destruct H2 as [H2 _]. split; [done|congruence].
  - intros w [[Hp Hs] HA]. cbn [bind_post]. apply wp_bind, wp_best_candidates; [done|].
    intros evs l. cbn [bind_post]. stake_run. unfold exposures_sum, selected. wsimpl.
    intros [r a] s. rewrite record_exposures_lookup by (apply top_candidates_NoDup, Hp).
    rewrite HA, !lookup_empty. case_decide; [|done].
    destruct (Candidates w !! a) as [d|] eqn:Ed; [|done]. intros [= <-]. by eapply exposed_exact.
Qed.

Lemma chain_exposures (signed_by : AccountId → Origin) config c stakers w0 w :
  cur_valid c → Forall (λ '(_, _, balance), 0 <= balance < U128) stakers →
  genesis_build signed_by stakers (empty_world config c) = Done tt w0 →
  rtc orderly_step w0 w → sound w ∧ exposures_sum w.
Proof using CL SL CF.
  intros Hc Hst E Hr.
  pose proof (genesis_build_sound signed_by stakers _ Hst (empty_world_sound config c Hc)) as Hs.
  unfold wp in Hs. rewrite E in Hs. pose proof (genesis_exposures _ _ _ _ _ Hc Hst E) as He.
  clear E. induction Hr as [|w1 w2 w3 Hst' _ IH]; [done|].
  apply IH; [by eapply orderly_step_sound|by eapply orderly_step_exposures].
Qed.

(** ** Payments *)

Context {PL : PerbillLaws} {PA : PerbillAccuracy} {IL : IterationOrderLaws}.

Lemma typed_exposures w : typed w → exposures_sum w → exposures_exact w.
Proof.
  intros Ht He k s Hk. split; [|by eapply He].
  destruct (ty_AtStake _ Ht _ _ Hk) as [Hfee Hbond Hnoms Htot]. by split_and!.
Qed.

(** The payments of a round, when its points are the sum of its awards: together they are
    at most the issuance and two units for each, which rounding may add. *)
Lemma payments_bounded next w :
  let round := next ⊟ BondDuration in
  let issuance := compute_issuance w (get_or 0 (Staked w) round) in
  cur_valid (currency w) → exposures_sum w → typed w →
  (BondDuration < next → get_or 0 (Points w) round = awarded_points (AwardedPts w) round) →
  ∃ w' evs, pay_stakers next w = Done tt w' ∧ events w' = events w ++ evs ∧
    spent 0 evs <= issuance + 2 * payees evs ∧ issuance <= total_issuance (currency w) ∧
    (∀ a, free_balance (currency w') a = free_balance (currency w) a + rewards_of a evs) ∧
    (∀ a, reserved_balance (currency w') a = reserved_balance (currency w) a).
Proof using CL PL PA IL.
  intros round issuance Hcw He Ht Hpts.
  pose proof (typed_exposures w Ht He) as HA.
  assert (rates_ok (InflationInfo.round (InflationConfig w))) as Hrates by apply Ht.
  assert (map_Forall (λ _ p, 0 <= p) (AwardedPts w)) as HW
    by (intros k p Hk; apply (ty_AwardedPts _ Ht _ _ Hk)).
  assert (map_Forall (λ _ p, 0 <= p) (Points w)) as HP
    by (intros k p Hk; apply (ty_Points _ Ht _ _ Hk)).
  assert (map_Forall (λ _, snapshot_ok) (AtStake w)) as HS by (intros k s Hk; apply (HA _ _ Hk)).
  pose proof (pay_stakers_spends next w Hcw HA Hrates HW Hpts) as H1.
  pose proof (pay_stakers_payments next w Hcw HS Hrates HP HW) as H2.
  unfold wp in H1, H2. destruct (pay_stakers next w) as [[] w'|?|?]; [|done..].
  destruct H1 as (_ & _ & evs & Hev & Hspent), H2 as (_ & _ & evs' & Hev' & _ & Hfree & Hres).
  assert (evs' = evs) as -> by (rewrite Hev in Hev'; by apply app_inv_head in Hev').
  exists w', evs. split_and!; [done|done| |by apply compute_issuance_range|done|done].
  rewrite (spent_payees 2) in Hspent. fold round issuance in Hspent. lia.
Qed.
End chains.
