(* ===== verification/SetTheorems.v ===== *)
(** * Ordered sets: what they guarantee

    The vector of [OrderedSet.v] is a finite set: it refines [gset] operation by
    operation, whatever the element type compares by. *)

From S2P Require Import Prelude OrderedSet.

(** ** Any element type *)

Section generic.
Context {T : Type} `{OT : Ord T, OL : !OrdLaws T}.
Implicit Types (s : list T) (v x : T).

(** C31. On a strictly increasing vector each operation is the operation of a set whose
    elements are told apart by the order: [contains] decides membership; [insert] adds
    the element, exactly when there was no equal one, and [remove] drops the equal one,
    exactly when there was one; both keep the vector strictly increasing. *)
Theorem ordered_set_operations s v :
  sorted s →
  (OrderedSet.contains s v = true ↔ has_equal v s) ∧
  (let '(inserted, s') := OrderedSet.insert s v in
   sorted s' ∧ (inserted = true ↔ ¬ has_equal v s) ∧
   (if inserted then s' ≡ₚ v :: s else s' = s)) ∧
  (let '(removed, s') := OrderedSet.remove s v in
   sorted s' ∧ ¬ has_equal v s' ∧ (removed = true ↔ has_equal v s) ∧
   (if removed then ∃ x, cmp x v = Eq ∧ s ≡ₚ x :: s' else s' = s)).
Proof using OL.
  intros Hs. pose proof (contains_has_equal s v Hs) as Hc. split; [done|].
  destruct (decide (OrderedSet.contains s v = true)) as [Hin|Hout].
  - apply Hc in Hin. split.
    + rewrite insert_present by done. split_and!; naive_solver.
    + destruct (remove_present s v Hs Hin) as (x & s' & E & Hx & Hs' & Hp). rewrite E.
      split_and!; [done| |naive_solver|naive_solver].
      intros (y & Hy & Hyv). pose proof (sorted_NoDup s Hs) as Hnd. rewrite Hp in Hnd.
      apply NoDup_cons in Hnd as [Hnin _]. apply Hnin.
      assert (y = x) as <-; [|done].
      apply (sorted_unique s); [done|rewrite Hp; set_solver|rewrite Hp; set_solver|].
      by rewrite (cmp_eq_r x v y Hx).
  - rewrite Hc in Hout. split.
    + destruct (insert_absent s v Hs Hout) as (s' & -> & Hs' & Hp). split_and!; naive_solver.
    + rewrite remove_absent by done. split_and!; naive_solver.
Qed.
End generic.

(** Whatever the vector, [from] makes it strictly increasing, keeps only elements of
    it and an equal of each of them, and does nothing to a vector that is strictly
    increasing already. *)
Theorem ordered_set_from {T} `{OT : Ord T, OL : !OrdLaws T} (l : list T) :
  sorted (OrderedSet.from l) ∧
  (∀ x, x ∈ OrderedSet.from l → x ∈ l) ∧
  (∀ x, x ∈ l → has_equal x (OrderedSet.from l)) ∧
  OrderedSet.from (OrderedSet.from l) = OrderedSet.from l.
Proof.
  split_and!.
  - apply from_sorted.
  - intros x. apply from_members.
  - intros x Hx. apply (proj1 (from_has_equal l x)). exists x. split; [done|apply cmp_refl].
  - apply from_id, from_sorted.
Qed.

(** ** Sets of accounts *)

(** A use of the set, and what its observer sees. *)
Inductive set_op := Insert (v : Z) | Remove (v : Z) | Contains (v : Z) | Clear.

Definition vector_step (s : list Z) (op : set_op) : bool * list Z :=
  match op with
  | Insert v => OrderedSet.insert s v
  | Remove v => OrderedSet.remove s v
  | Contains v => (OrderedSet.contains s v, s)
  | Clear => (true, OrderedSet.clear s)
  end.

(** The specification: a mathematical finite set. *)
Definition set_step (m : gset Z) (op : set_op) : bool * gset Z :=
  match op with
  | Insert v => (bool_decide (v ∉ m), {[v]} ∪ m)
  | Remove v => (bool_decide (v ∈ m), m ∖ {[v]})
  | Contains v => (bool_decide (v ∈ m), m)
  | Clear => (true, ∅)
  end.

Fixpoint run {S} (step : S → set_op → bool * S) (s : S) (ops : list set_op) : list bool * S :=
  match ops with
  | [] => ([], s)
  | op :: ops =>
      let '(b, s) := step s op in
      let '(bs, s) := run step s ops in (b :: bs, s)
  end.

Definition represents (s : list Z) (m : gset Z) : Prop := sorted s ∧ ∀ v, v ∈ s ↔ v ∈ m.

Lemma has_equal_Z (v : Z) s : has_equal v s ↔ v ∈ s.
Proof. unfold has_equal. cbn. setoid_rewrite Z.compare_eq_iff. naive_solver. Qed.

Lemma vector_step_simulates s m op :
  represents s m →
  (vector_step s op).1 = (set_step m op).1 ∧
  represents (vector_step s op).2 (set_step m op).2.
Proof.
  intros [Hs Hm]. unfold represents.
  assert (∀ v, has_equal v s ↔ v ∈ m) as Hv by (intros; by rewrite has_equal_Z).
  destruct op as [v|v|v|]; cbn.
  - destruct (decide (v ∈ m)) as [Hin|Hout].
    + rewrite insert_present by (done || by apply Hv). cbn.
      rewrite bool_decide_eq_false_2 by (intros ?; done). split; [done|]. set_solver.
    + destruct (insert_absent s v Hs) as (s' & -> & Hs' & Hp); [by rewrite Hv|]. cbn.
      rewrite bool_decide_eq_true_2 by done. split; [done|]. split; [done|].
      intros x. rewrite Hp. set_solver.
  - destruct (decide (v ∈ m)) as [Hin|Hout].
    + destruct (remove_present s v Hs) as (x & s' & -> & Hx & Hs' & Hp); [by apply Hv|]. cbn.
      apply Z.compare_eq in Hx as ->. rewrite bool_decide_eq_true_2 by done.
      split; [done|]. split; [done|]. pose proof (sorted_NoDup s Hs) as Hnd. rewrite Hp in Hnd.
      apply NoDup_cons in Hnd as [? _]. intros y. specialize (Hm y). rewrite Hp in Hm. set_solver.
    + rewrite remove_absent by (done || by rewrite Hv). cbn.
      rewrite bool_decide_eq_false_2 by done. split; [done|]. set_solver.
  - split; [|done]. pose proof (contains_has_equal s v Hs) as Hc. rewrite Hv in Hc.
    destruct (OrderedSet.contains s v); case_bool_decide; naive_solver.
  - split; [done|]. split; [constructor|]. set_solver.
Qed.

(** C32. [OrderedSet] over accounts refines the mathematical finite set: from the empty set
    every sequence of operations returns what the specification returns and ends in a
    strictly increasing vector with the same members. *)
Theorem ordered_set_refines_gset (ops : list set_op) :
  (run vector_step OrderedSet.new ops).1 = (run set_step ∅ ops).1 ∧
  represents (run vector_step OrderedSet.new ops).2 (run set_step ∅ ops).2.
Proof.
  assert (∀ s m, represents s m →
    (run vector_step s ops).1 = (run set_step m ops).1 ∧
    represents (run vector_step s ops).2 (run set_step m ops).2) as H.
  { induction ops as [|op ops IH]; intros s m Hsm; [done|]. cbn.
    destruct (vector_step_simulates s m op Hsm) as [Hb Hs].
    destruct (vector_step s op) as [b s'], (set_step m op) as [b' m']. cbn in Hb, Hs. subst b'.
    destruct (IH s' m' Hs) as [Hbs Hs2].
    destruct (run vector_step s' ops), (run set_step m' ops). cbn in *. by subst. }
  apply H. split; [constructor|]. set_solver.
Qed.

(** ** The search *)

(** [binary_search] on a strictly increasing slice finds an equal element if there is
    one and else the place where it belongs; on any slice at all the index it returns is
    one at which the vector can be changed without a panic. *)
Lemma binary_search_correct {T} `{OT : Ord T, OL : !OrdLaws T} (s : list T) (v : T) :
  match binary_search s v with
  | Found i => (i < length s)%nat ∧ (sorted s → ∃ x, s !! i = Some x ∧ cmp x v = Eq)
  | Missing i => (i <= length s)%nat ∧
      (sorted s → Forall (λ x, cmp x v = Lt) (take i s) ∧ Forall (λ x, cmp x v = Gt) (drop i s))
  end.
Proof.
  pose proof (binary_search_in_range s v) as Hr. pose proof (binary_search_cases s v) as Hc.
  destruct (binary_search s v) as [i|i]; (split; [done|]); intros Hs; specialize (Hc Hs); [done|].
  destruct Hc as [_ [Hlo Hhi]]. split; apply Forall_forall; intros x Hx.
  - apply list_elem_of_lookup in Hx as [j Hj]. apply lookup_take_Some in Hj as [? ?]. by eapply Hlo.
  - apply list_elem_of_lookup in Hx as [j Hj]. rewrite lookup_drop in Hj.
    eapply Hhi; [done|lia].
Qed.

(** The loop of the search halves what is left: [log2 n] iterations, rounded up, give
    the result that any larger number gives. *)
Lemma binary_search_logarithmic {T} `{OT : Ord T} (s : list T) (v : T) (k n : nat) :
  (Nat.log2_up n <= k)%nat →
  binary_search_loop k s v n 0 = binary_search_loop (Nat.log2_up n) s v n 0.
Proof.
  assert (∀ m k n base, (n <= 2 ^ m)%nat → (n <= 2 ^ k)%nat →
    binary_search_loop k s v n base = binary_search_loop m s v n base) as H.
  { intros m. induction m as [|m IH]; intros j p base Hm Hj.
    - cbn in Hm. destruct j as [|j]; [done|]. cbn [binary_search_loop].
      by destruct (Nat.ltb_spec 1 p); [lia|].
    - destruct j as [|j]; cbn [binary_search_loop]; destruct (Nat.ltb_spec 1 p); try done.
      + cbn in Hj. lia.
      + rewrite !Nat.pow_succ_r' in *. pose proof (Nat.div_mod_eq p 2) as Hdm.
        pose proof (Nat.mod_upper_bound p 2 ltac:(lia)).
        apply IH; lia. }
  intros Hk. assert (n <= 2 ^ Nat.log2_up n)%nat as Hn.
  { destruct n as [|n]; [lia|]. by apply Nat.log2_up_le_pow2; [lia|]. }
  apply H; [done|]. etransitivity; [exact Hn|]. apply Nat.pow_le_mono_r; lia.
Qed.

(** ** Witnesses *)

Lemma ordered_set_operations_witness :
  OrderedSet.contains [1; 3; 5] 3 = true ∧
  OrderedSet.insert [1; 3; 5] 4 = (true, [1; 3; 4; 5]) ∧
  (OrderedSet.contains [1; 3; 5] 3 = true ↔ has_equal 3 [1; 3; 5]).
Proof.
  split; [reflexivity|]. split; [reflexivity|].
  assert (sorted [1; 3; 5]) as H by repeat constructor.
  exact (proj1 (ordered_set_operations [1; 3; 5] 3 H)).
Defined.

Lemma ordered_set_from_witness :
  OrderedSet.from [5; 1; 3; 1] = [1; 3; 5] ∧ sorted (OrderedSet.from [5; 1; 3; 1]).
Proof. split; [reflexivity|]. exact (proj1 (ordered_set_from [5; 1; 3; 1])). Defined.
