(* ===== verification/InflationTheorems.v ===== *)
(** * Inflation: what it guarantees

    The conversion of annual rates to those of a round, [set_inflation], and the unit tests
    of the module. *)

From S2P Require Import Prelude OrderedSet Frame StakeTypes BondMap Inflation Stake StakeLogic.
From S2P Require Import Payouts Reference StakeTheorems.

Section theorems.
Context `{SC : StakeConfig, PO : PerbillOps, PL : !PerbillLaws}.

(** The conversion (and so [set_inflation] and the genesis) panics with a division by
    zero exactly when a round has no blocks or is longer than a year. *)
Lemma annual_to_round_None annual :
  0 <= BlocksPerRound →
  annual_to_round annual = None ↔ BlocksPerRound = 0 ∨ BLOCKS_PER_YEAR < BlocksPerRound.
Proof.
  intros Hb. destruct (decide (0 < BlocksPerRound <= BLOCKS_PER_YEAR)) as [Hok|Hbad].
  - rewrite annual_to_round_Some by done. split; [done|lia].
  - split; [lia|]. intros _. unfold annual_to_round, rounds_per_year, checked_div.
    destruct (Z.eqb_spec BlocksPerRound 0) as [_|Hne]; [done|]. cbn [mbind option_bind].
    rewrite (Z.div_small BLOCKS_PER_YEAR) by (split; [by vm_compute|lia]). done.
Qed.

(** The conversion (and so [set_inflation]) panics with a division by zero exactly when a
    round has no blocks or is longer than a year. Otherwise each rate of the round is the
    annual rate divided by the rounds of a year and rounded down: valid schedules stay
    valid, the rates stay fractions, and the rounds of a year never issue more than the
    annual rate, nor a whole unit per round less. *)
Theorem annual_to_round_correct annual :
  0 <= BlocksPerRound → rates_ok annual →
  match annual_to_round annual with
  | None => BlocksPerRound = 0 ∨ BLOCKS_PER_YEAR < BlocksPerRound
  | Some round =>
      0 < BlocksPerRound <= BLOCKS_PER_YEAR ∧ rates_ok round ∧
      (Range.is_valid annual = true → Range.is_valid round = true) ∧
      let periods := BLOCKS_PER_YEAR / BlocksPerRound in
      periods * Range.min round <= Range.min annual < periods * (Range.min round + 1) ∧
      periods * Range.ideal round <= Range.ideal annual < periods * (Range.ideal round + 1) ∧
      periods * Range.max round <= Range.max annual < periods * (Range.max round + 1)
  end.
Proof using PL.
  intros Hb0 (Hmin & Hideal & Hmax). destruct (annual_to_round annual) as [round|] eqn:E0.
  2: { by apply (annual_to_round_None annual). }
  destruct (decide (0 < BlocksPerRound <= BLOCKS_PER_YEAR)) as [Hb|Hbad].
  2: { assert (annual_to_round annual = None) by (apply annual_to_round_None; lia). congruence. }
  rewrite annual_to_round_Some in E0 by done. injection E0 as <-.
  destruct (rounds_per_year_Some Hb) as [_ Hp]. cbn zeta.
  set (periods := BLOCKS_PER_YEAR / BlocksPerRound) in *. unfold is_perbill in *.
  assert (∀ x, 0 <= x <= PERBILL_ACCURACY →
    0 <= x / periods <= PERBILL_ACCURACY ∧ from_parts (x / periods) = x / periods ∧
    periods * (x / periods) <= x < periods * (x / periods + 1)) as Hdiv.
  { intros x Hx. assert (0 <= x / periods <= PERBILL_ACCURACY) as Hr.
    { split; [apply Z.div_pos; lia|]. apply Z.div_le_upper_bound; [lia|]. nia. }
    split_and!; try apply Hr; [by apply from_parts_id| |].
    - apply Z.mul_div_le. lia.
    - rewrite Z.add_1_r. apply Z.mul_succ_div_gt. lia. }
  destruct (Hdiv _ Hmin) as (R1 & E1 & B1), (Hdiv _ Hideal) as (R2 & E2 & B2),
    (Hdiv _ Hmax) as (R3 & E3 & B3).
  split; [done|]. unfold rates_ok, Range.is_valid, is_perbill.
  cbn [Range.min Range.ideal Range.max]. rewrite E1, E2, E3.
  split_and!; try lia. intros [H1%Z.geb_le H2%Z.geb_le]%andb_true_iff.
  apply andb_true_iff. rewrite !Z.geb_le. split; apply Z.div_le_mono; lia.
Qed.
End theorems.

Section dispatchable.
Context {Origin Cur : Type}.
Context `{FO : FrameOrigin Origin, MO : MonetaryPolicyOrigin Origin, CU : Currency Cur}.
Context {CL : CurrencyLaws Cur}.
Context `{PO : PerbillOps, US : UnstableSort, IO : IterationOrder, SC : StakeConfig}.
Context {PL : PerbillLaws} {PA : PerbillAccuracy} {CF : StakeConfigLaws}.
Implicit Types (w : World Cur) (origin : Origin).

(** What a round issues exceeds its part of the year's by less than one unit. *)
Lemma round_issuance_bound p periods rate annual x :
  is_perbill rate → 0 <= x → 1 <= periods → periods * rate <= annual → annual <= p →
  periods * PERBILL_ACCURACY * (perbill_mul rate x - 1) < p * x.
Proof using PL PA.
  intros Hr Hx Hp Hle Ha. pose proof (perbill_mul_accurate rate x Hr Hx) as H.
  unfold PERBILL_ACCURACY in *. nia.
Qed.

(** C9. [set_inflation] is for the monetary policy's origin, and takes valid schedules only;
    else it fails and changes nothing, and it never panics. When it succeeds, each rate of a
    round is the annual rate divided by the rounds of a year and rounded down, so the rates
    stay fractions in their order; the expectations stay; the rates are announced, and
    nothing else changes. From then on, whatever is staked, what the rounds of a year issue
    at some total issuance exceeds the highest annual rate of it by less than one unit for
    each round. *)
Theorem set_inflation_divides_the_year origin annual w :
  cur_valid (currency w) → rates_ok annual →
  match dispatch origin (Call_set_inflation annual) w with
  | Done _ w' =>
      SetMonetaryPolicyOrigin origin = true ∧ Range.is_valid annual = true ∧
      let periods := BLOCKS_PER_YEAR / BlocksPerRound in
      let round := InflationInfo.round (InflationConfig w') in
      1 <= periods ∧ rates_ok round ∧ Range.is_valid round = true ∧
      (∀ f, f ∈ [Range.min; Range.ideal; Range.max] →
        periods * f round <= f annual < periods * (f round + 1)) ∧
      w' = set_InflationConfig
        {| InflationInfo.expect := InflationInfo.expect (InflationConfig w);
           InflationInfo.round := round |}
        (set_events (events w ++
          [RoundInflationSet (Range.min round) (Range.ideal round) (Range.max round)]) w) ∧
      ∀ staked,
        periods * PERBILL_ACCURACY * (compute_issuance w' staked - 1) <
          Range.max annual * total_issuance (currency w')
  | Failed e w' =>
      w' = w ∧
      (e = BadOrigin ∧ SetMonetaryPolicyOrigin origin = false ∨
       e = Module_ InvalidSchedule ∧ SetMonetaryPolicyOrigin origin = true ∧
         Range.is_valid annual = false)
  | Panicked => False
  end.
Proof using CL PL PA CF.
  intros Hc Ha. pose proof rounds_fit as Hf.
  assert (0 <= BlocksPerRound) as H0 by lia. pose proof (annual_to_round_correct annual H0 Ha) as H.
  destruct (annual_to_round annual) as [round|] eqn:E; [|lia].
  destruct H as (_ & Hr & Hv & Hmin & Hideal & Hmax). destruct (rounds_per_year_Some Hf) as [_ Hp].
  cbn [dispatch]. unfold set_inflation, ensure, ensure_, gets, mbind, Prog_bind.
  destruct (SetMonetaryPolicyOrigin origin); [|cbn; by auto].
  destruct (Range.is_valid annual) eqn:Eva; [|cbn; by auto 6]. cbn.
  unfold set_annual_rate. rewrite E. cbn.
  split_and!; try done; [by apply Hv|..].
  { intros f Hf'. repeat (apply elem_of_cons in Hf' as [->|Hf']); [done..|].
    by apply elem_of_nil in Hf'. }
  intros staked. pose proof (issuance_range _ Hc) as Hi. destruct Hr as (R1 & R2 & R3).
  unfold Range.is_valid in Eva. apply andb_true_iff in Eva as [V1%Z.geb_le V2%Z.geb_le].
  unfold compute_issuance, round_issuance_range. cbn.
  repeat case_match; eapply round_issuance_bound; try done; lia.
Qed.
End dispatchable.

#[local] Existing Instance mock_config.

(** An annual schedule of 4 to 6 percent, with the rounds of the unit tests. *)
Definition annual : Range.t :=
  {| Range.min := percent 4; Range.ideal := percent 5; Range.max := percent 6 |}.

Lemma annual_to_round_correct_witness :
  match annual_to_round annual with
  | None => BlocksPerRound = 0 ∨ BLOCKS_PER_YEAR < BlocksPerRound
  | Some round =>
      0 < BlocksPerRound <= BLOCKS_PER_YEAR ∧ rates_ok round ∧
      (Range.is_valid annual = true → Range.is_valid round = true) ∧
      let periods := BLOCKS_PER_YEAR / BlocksPerRound in
      periods * Range.min round <= Range.min annual < periods * (Range.min round + 1) ∧
      periods * Range.ideal round <= Range.ideal annual < periods * (Range.ideal round + 1) ∧
      periods * Range.max round <= Range.max annual < periods * (Range.max round + 1)
  end.
Proof.
  assert (0 <= BlocksPerRound) as H by (vm_compute; congruence).
  refine (annual_to_round_correct annual H _).
  refine (bool_decide_eq_true_1 _ _). vm_compute. reflexivity.
Defined.

(** The issuance of the toy genesis, and root. *)
Lemma set_inflation_divides_the_year_witness :
  BLOCKS_PER_YEAR / BlocksPerRound = 1051920 ∧
  match dispatch Root (Call_set_inflation annual) Demo.genesis with
  | Done _ w' =>
      ∀ staked, 1051920 * PERBILL_ACCURACY * (compute_issuance w' staked - 1) <
        Range.max annual * total_issuance (currency w')
  | _ => False
  end.
Proof.
  split; [vm_compute; reflexivity|].
  assert (cur_valid (currency Demo.genesis)) as Hc by (apply ledger_is_valid; vm_compute; reflexivity).
  assert (rates_ok annual) as Ha by (refine (bool_decide_eq_true_1 _ _); vm_compute; reflexivity).
  pose proof (set_inflation_divides_the_year Root annual Demo.genesis Hc Ha) as H.
  assert (match dispatch Root (Call_set_inflation annual) Demo.genesis with
    | Done _ _ => true | _ => false end = true) as E by (vm_compute; reflexivity).
  destruct (dispatch Root (Call_set_inflation annual) Demo.genesis) as [u w'|e w'|];
    [|discriminate E..].
  exact (proj2 (proj2 (proj2 (proj2 (proj2 (proj2 (proj2 H))))))).
Defined.

(** ** The unit tests of [inflation.rs] *)

Module Tests.

Definition mock_annual_to_round (annual : Range.t) (rounds_per_year : Z) : Range.t :=
  {| Range.min := from_parts (Range.min annual / rounds_per_year);
     Range.ideal := from_parts (Range.ideal annual / rounds_per_year);
     Range.max := from_parts (Range.max annual / rounds_per_year) |}.

Definition mock_round_issuance_range (circulating : Balance) (round : Range.t) : Range.t :=
  {| Range.min := perbill_mul (Range.min round) circulating;
     Range.ideal := perbill_mul (Range.ideal round) circulating;
     Range.max := perbill_mul (Range.max round) circulating |}.

(** The tests' functions are those of the module, at the number of rounds of a
    configuration and the issuance of a currency. *)
Lemma mocks_agree {Cur} `{CU : Currency Cur} (c : Cur) schedule :
  annual_to_round schedule =
    Some (mock_annual_to_round schedule (BLOCKS_PER_YEAR / BlocksPerRound)) ∧
  ∀ round, round_issuance_range c round = mock_round_issuance_range (total_issuance c) round.
Proof. by split. Qed.

#[local] Instance range_eq_dec : EqDecision Range.t.
Proof. solve_decision. Defined.

(** [assert_eq!(expected, mock_round_issuance_range(10_000_000, ...))] *)
Definition issues (expected schedule : Range.t) (rounds_per_year : Z) : bool :=
  bool_decide (expected =
    mock_round_issuance_range 10000000 (mock_annual_to_round schedule rounds_per_year)).

Definition simple_issuance_conversion : bool :=
  issues {| Range.min := 50000; Range.ideal := 50000; Range.max := 50000 |}
    {| Range.min := percent 5; Range.ideal := percent 5; Range.max := percent 5 |} 10.

Definition range_issuance_conversion : bool :=
  issues {| Range.min := 30000; Range.ideal := 40000; Range.max := 50000 |}
    {| Range.min := percent 3; Range.ideal := percent 4; Range.max := percent 5 |} 10.

Definition expected_parameterization : bool :=
  issues {| Range.min := 46; Range.ideal := 57; Range.max := 57 |}
    {| Range.min := percent 4; Range.ideal := percent 5; Range.max := percent 5 |} 8766.

Example inflation_tests_pass :
  forallb id [simple_issuance_conversion; range_issuance_conversion; expected_parameterization] =
    true.
Proof. reflexivity. Qed.
End Tests.
