(* ===== verification/AuthorInherent.v ===== *)
(** * The author inherent ([src/pallets/author-inherent/src/lib.rs])

    Once per block an inherent states who authored it. The pallet checks the statement
    with [FinalCanAuthor], stores and logs it, and tells the [EventHandler]; a block
    without an author is not valid. The two traits are the classes through which the
    stake pallet and the author filter meet this one. *)

From S2P Require Import Prelude Frame.

(** [trait EventHandler] and [trait CanAuthor], over the state [H] of the pallets that
    implement them. [None] is a panic. *)
Class EventHandler (H : Type) := note_author : AccountId → H → option H.
Class CanAuthor (H : Type) := can_author : H → AccountId → option bool.

(** [impl EventHandler for ()] and [impl CanAuthor for ()] *)
Definition unit_EventHandler {H} : EventHandler H := λ _author h, Some h.
Definition unit_CanAuthor {H} : CanAuthor H := λ _ _, Some true.

(** SCALE encoding of account identifiers: outside the repository. *)
Class AccountCodec := {
  encode : AccountId → list Z;
  decode : list Z → option AccountId;
}.
Class AccountCodecLaws `{!AccountCodec} : Prop :=
  decode_encode a : decode (encode a) = Some a.

(** [sp_inherents::InherentData]: what the node offers, keyed by identifier; putting a
    second value for an identifier is an error. *)
Abbreviation InherentIdentifier := (list Z).
Abbreviation InherentData := (gmap (list Z) (list Z)).
Definition put_data (data : InherentData) (id : InherentIdentifier) (v : list Z) :
    InherentData + string :=
  match data !! id with
  | Some _ => inr "InherentDataExists"%string
  | None => inl (<[id:=v]> data)
  end.

Module AuthorInherent.

Inductive Error := AuthorAlreadySet | CannotBeAuthor.

(** [enum InherentError], and the reasons that the pallet gives. *)
Inductive InherentError := Other (reason : string).

Definition is_fatal_error (e : InherentError) : bool := match e with Other _ => true end.

(** [*b"auth"] and [*b"author__"] *)
Definition ENGINE_ID : list Z := [97; 117; 116; 104].
Definition INHERENT_IDENTIFIER : InherentIdentifier := [97; 117; 116; 104; 111; 114; 95; 95].

(** The storage of the pallet, the digest of the block and the other pallets. *)
Record World (H : Type) := MkWorld {
  Author : option AccountId;
  logs : list (list Z * list Z);
  host : H;
}.
Arguments MkWorld {H} _ _ _.
Arguments Author {H} _.
Arguments logs {H} _.
Arguments host {H} _.

Inductive Call := set_author_call (author : AccountId).

Section pallet.
Context {Origin H : Type} `{FO : FrameOrigin Origin, EH : EventHandler H}.
Context {PreliminaryCanAuthor FinalCanAuthor : CanAuthor H} `{AC : AccountCodec}.
Local Notation M := (Prog (World H) (DispatchError Error)).

Definition on_initialize : M Z :=
  modify (λ w, MkWorld None (logs w) (host w));; mret 0.

(** [T::CanAuthor::can_author(&author)] *)
Definition ask (C : CanAuthor H) (author : AccountId) : M bool :=
  answer ← gets (λ w, @can_author _ C (host w) author);
  expect answer.

Definition set_author (origin : Origin) (author : AccountId) : M unit :=
  ensure (ensure_none origin) BadOrigin;;
  current ← gets Author;
  ensure (match current with None => true | _ => false end) (Module_ AuthorAlreadySet);;
  eligible ← ask FinalCanAuthor author;
  ensure eligible (Module_ CannotBeAuthor);;
  modify (λ w, MkWorld (Some author) (logs w) (host w));;
  modify (λ w, MkWorld (Author w) (logs w ++ [(ENGINE_ID, encode author)]) (host w));;
  h ← gets (λ w, note_author author (host w));
  h ← expect h;
  modify (λ w, MkWorld (Author w) (logs w) h).

Definition on_finalize (_n : Z) : M unit :=
  author ← gets Author;
  assert (match author with Some _ => true | None => false end).

(** [impl FindAuthor]: the digests are not used. *)
Definition find_author (w : World H) (_digests : list (list Z * list Z)) : option AccountId :=
  Author w.

(** [impl ProvideInherent] *)
Definition is_inherent_required (_ : InherentData) : option InherentError :=
  Some (Other "AuthorInherentRequired").

(** [Some None]: there is no authorship data; [None]: it does not decode (a panic). *)
Definition create_inherent (data : InherentData) : option (option Call) :=
  match data !! INHERENT_IDENTIFIER with
  | None => Some None
  | Some author_raw =>
      match decode author_raw with
      | Some author => Some (Some (set_author_call author))
      | None => None
      end
  end.

Definition check_inherent (w : World H) (call : Call) (_data : InherentData) :
    option (InherentError + unit) :=
  let 'set_author_call claimed_author := call in
  match @can_author _ PreliminaryCanAuthor (host w) claimed_author with
  | Some true => Some (inr tt)
  | Some false => Some (inl (Other "Cannot Be Author"))
  | None => None
  end.
End pallet.

(** [InherentDataProvider::provide_inherent_data] *)
Definition provide_inherent_data (provider : list Z) (inherent_data : InherentData) :
    InherentData + string :=
  put_data inherent_data INHERENT_IDENTIFIER provider.

(** How the node reads an error of the pallet back from its encoding, and shows it; the codec
    and the formatting are outside the repository. *)
Section errors.
Context (decode_error : list Z → option InherentError) (debug : InherentError → string).

(** [InherentDataProvider::inherent_identifier] *)
Definition inherent_identifier : InherentIdentifier := INHERENT_IDENTIFIER.

(** [InherentError::try_from] *)
Definition try_from (id : InherentIdentifier) (data : list Z) : option InherentError :=
  if bool_decide (id = INHERENT_IDENTIFIER) then decode_error data else None.

(** [InherentDataProvider::error_to_string] *)
Definition error_to_string (error : list Z) : option string :=
  debug <$> try_from INHERENT_IDENTIFIER error.

(** Every error of the pallet is shown, and no error of another inherent is taken for one. *)
Lemma errors_are_shown encode_error :
  (∀ e, decode_error (encode_error e) = Some e) →
  (∀ e, error_to_string (encode_error e) = Some (debug e)) ∧
  ∀ id data, id ≠ INHERENT_IDENTIFIER → try_from id data = None.
Proof.
  intros Hc. split.
  - intros e. unfold error_to_string, try_from. by rewrite bool_decide_true, Hc.
  - intros id data Hid. unfold try_from. by rewrite bool_decide_false.
Qed.
End errors.
End AuthorInherent.

(** ** A block *)

Section block.
Context {Origin H : Type} `{FO : FrameOrigin Origin, EH : EventHandler H}.
Context {PreliminaryCanAuthor FinalCanAuthor : CanAuthor H} `{AC : AccountCodec}.
Local Notation World := (AuthorInherent.World H).
Local Notation set_author :=
  (@AuthorInherent.set_author Origin H FO EH FinalCanAuthor AC).

(** What a block contains, as far as this pallet can tell: calls of [set_author], from any
    origin, and other extrinsics, which change the other pallets. *)
Inductive extrinsic :=
| SetAuthor (origin : Origin) (author : AccountId)
| Elsewhere (f : H → H).

(** Execute the extrinsics. [None] is a panic. *)
Fixpoint execute (xs : list extrinsic) (w : World) : option World :=
  match xs with
  | [] => Some w
  | SetAuthor origin a :: xs =>
      match set_author origin a w with
      | Done _ w' | Failed _ w' => execute xs w'
      | Panicked => None
      end
  | Elsewhere f :: xs =>
      execute xs (AuthorInherent.MkWorld (AuthorInherent.Author w) (AuthorInherent.logs w)
        (f (AuthorInherent.host w)))
  end.

(** What the other extrinsics alone make of the other pallets. *)
Definition others (xs : list extrinsic) (h : H) : H :=
  foldl (λ h x, match x with Elsewhere f => f h | SetAuthor _ _ => h end) h xs.

(** The three ways in which the inherent fails, and the one in which it succeeds. *)
Lemma set_author_outcome origin a (w : World) :
  wp (set_author origin a) (λ o, match o with
    | Done _ w' =>
        ensure_none origin = true ∧ AuthorInherent.Author w = None ∧
        @can_author _ FinalCanAuthor (AuthorInherent.host w) a = Some true ∧
        ∃ h, note_author a (AuthorInherent.host w) = Some h ∧
        w' = AuthorInherent.MkWorld (Some a)
               (AuthorInherent.logs w ++ [(AuthorInherent.ENGINE_ID, encode a)]) h
    | Failed e w' =>
        w' = w ∧
        (e = BadOrigin ∧ ensure_none origin = false ∨
         e = Module_ AuthorInherent.AuthorAlreadySet ∧ ensure_none origin = true ∧
           is_Some (AuthorInherent.Author w) ∨
         e = Module_ AuthorInherent.CannotBeAuthor ∧ ensure_none origin = true ∧
           AuthorInherent.Author w = None ∧
           @can_author _ FinalCanAuthor (AuthorInherent.host w) a = Some false)
    | Panicked =>
        AuthorInherent.Author w = None ∧
        (@can_author _ FinalCanAuthor (AuthorInherent.host w) a = None ∨
         note_author a (AuthorInherent.host w) = None)
    end) w.
Proof.
  unfold AuthorInherent.set_author, AuthorInherent.ask.
  apply wp_bind, wp_ensure; intros Ho; [|naive_solver]. cbn [bind_post].
  apply wp_bind, wp_gets. cbn [bind_post].
  destruct (AuthorInherent.Author w) as [b|] eqn:Ea.
  { apply wp_bind, wp_ensure; [done|]. intros _. cbn [bind_post]. naive_solver. }
  apply wp_bind, wp_ensure; [|done]. intros _. cbn [bind_post].
  apply wp_bind, wp_bind, wp_gets. cbn [bind_post].
  apply wp_expect; [|naive_solver]. intros eligible He. cbn [bind_post].
  apply wp_bind, wp_ensure; intros ->; [|naive_solver]. cbn [bind_post].
  apply wp_bind, wp_modify. cbn [bind_post]. apply wp_bind, wp_modify. cbn [bind_post].
  apply wp_bind, wp_gets. cbn [bind_post AuthorInherent.host].
  apply wp_bind, wp_expect; [|naive_solver]. intros h Hh. cbn [bind_post].
  apply wp_modify. naive_solver.
Qed.

(** Once the author is set, nothing in the block changes it, and nobody is told. *)
Lemma execute_set xs a (w w' : World) :
  AuthorInherent.Author w = Some a → execute xs w = Some w' →
  w' = AuthorInherent.MkWorld (Some a) (AuthorInherent.logs w) (others xs (AuthorInherent.host w)).
Proof.
  revert w. induction xs as [|[origin b|f] xs IH]; intros w Ha; cbn [execute].
  - intros [= <-]. rewrite <-Ha. by destruct w.
  - pose proof (set_author_outcome origin b w) as Ho. unfold wp in Ho.
    destruct (set_author origin b w) as [u w1|e w1|]; [naive_solver| |done].
    destruct Ho as [-> _]. by apply IH.
  - by apply (IH (AuthorInherent.MkWorld _ _ _)).
Qed.

(** Else the first statement that goes through is the author's. *)
Lemma execute_unset xs (w w' : World) :
  AuthorInherent.Author w = None → execute xs w = Some w' →
  w' = AuthorInherent.MkWorld None (AuthorInherent.logs w) (others xs (AuthorInherent.host w)) ∨
  ∃ before origin a after h, xs = before ++ SetAuthor origin a :: after ∧
    ensure_none origin = true ∧
    @can_author _ FinalCanAuthor (others before (AuthorInherent.host w)) a = Some true ∧
    note_author a (others before (AuthorInherent.host w)) = Some h ∧
    w' = AuthorInherent.MkWorld (Some a)
      (AuthorInherent.logs w ++ [(AuthorInherent.ENGINE_ID, encode a)]) (others after h).
Proof.
  revert w. induction xs as [|[origin b|f] xs IH]; intros w Ha; cbn [execute].
  - intros [= <-]. left. rewrite <-Ha. by destruct w.
  - pose proof (set_author_outcome origin b w) as Ho. unfold wp in Ho.
    destruct (set_author origin b w) as [u w1|e w1|]; [| |done].
    + destruct Ho as (Hn & _ & Hc & h & Hh & ->). intros E.
      apply (execute_set xs b) in E as ->; [|done]. right. by exists [], origin, b, xs, h.
    + destruct Ho as [-> _]. intros [->|(before & o & a & after & h & -> & E)]%IH; [by left| |done].
      right. by exists (SetAuthor origin b :: before), o, a, after, h.
  - intros [->|(before & o & a & after & h & -> & E)]%IH; [by left| |done].
    right. by exists (Elsewhere f :: before), o, a, after, h.
Qed.
End block.
