(* ===== verification/AuthorFilter.v ===== *)
(** * The author filter ([src/pallets/author-filter/src/lib.rs])

    Of the validators of the stake pallet a pseudorandom subset may author at a height of
    the relay chain. *)

From S2P Require Import Prelude Frame AuthorInherent.

(** [Percent::mul_ceil] of [sp_arithmetic]: the product with a count, rounded up. *)
Class PercentOps := percent_mul_ceil : Z → Z → Z.
Class PercentLaws `{!PercentOps} : Prop :=
  percent_mul_ceil_up p n :
    0 <= p <= 100 → 0 <= n →
    100 * (percent_mul_ceil p n - 1) < p * n <= 100 * percent_mul_ceil p n.

(** [Randomness<H256>]: a hash, as the number its big-endian bytes denote. *)
Class RandomnessSource := random : list Z → Z.
(** [H256::to_low_u64_be] *)
Definition to_low_u64_be (hash : Z) : Z := u64 hash.

Module AuthorFilter.

Inductive Event :=
| EligibleUpdated (new : Z)
| Filtered (para_height relay_height : Z) (eligible : list AccountId).

(** The storage and the events. *)
Record World := MkWorld { EligibleRatio : Z; events : list Event }.

(** [Half], the default of [EligibleRatio]. *)
Definition Half : Z := 50.

Section pallet.
Context {Origin : Type} `{FO : FrameOrigin Origin, PO : PercentOps, RS : RandomnessSource}.

(** The context identifier of the [i]th draw: *b"filter", the index and the height. *)
Definition subject (i relay_height : Z) : list Z :=
  [102; 105; 108; 116; 101; 114; u8 i; u8 relay_height].

(** The loop [for i in i0..i0+n]; [None] is the panic of [% staked.len()]. *)
Fixpoint draw (relay_height : Z) (n : nat) (i : Z) (staked eligible : list AccountId) :
    option (list AccountId) :=
  match n with
  | O => Some eligible
  | S n =>
      let randomness := random (subject i relay_height) in
      let index := u32 (to_low_u64_be randomness) in
      if decide (staked = []) then None
      else
        let k := Z.to_nat (index mod Z.of_nat (length staked)) in
        match staked !! k with
        | Some a => draw relay_height n (i + 1) (delete k staked) (eligible ++ [a])
        | None => None
        end
  end.

(** The eligible authors: [staked] are the validators, [validation_data] the relay parent
    height of the validation data inherent, if it has been set. *)
Definition eligible_authors (ratio : Z) (staked : list AccountId) (validation_data : option Z) :
    option (list AccountId) :=
  let num_eligible := percent_mul_ceil ratio (Z.of_nat (length staked)) in
  relay_height ← validation_data;
  draw relay_height (Z.to_nat num_eligible) 0 staked [].

Definition can_author (ratio : Z) (staked : list AccountId) (validation_data : option Z)
    (account : AccountId) : option bool :=
  eligible ← eligible_authors ratio staked validation_data;
  Some (bool_decide (account ∈ eligible)).

Definition set_eligible (origin : Origin) (new : Z) :
    Prog World (DispatchError Empty_set) unit :=
  ensure (ensure_root origin) BadOrigin;;
  modify (λ w, MkWorld new (events w));;
  modify (λ w, MkWorld (EligibleRatio w) (events w ++ [EligibleUpdated new])).
End pallet.
End AuthorFilter.

(** ** The draw *)

Section draw.
Context `{RS : RandomnessSource}.

Lemma draw_split h n i staked eligible :
  (n <= length staked)%nat →
  ∃ drawn rest, AuthorFilter.draw h n i staked eligible = Some (eligible ++ drawn) ∧
    drawn ++ rest ≡ₚ staked ∧ length drawn = n.
Proof.
  revert i staked eligible. induction n as [|n IH]; intros i staked eligible Hn;
    cbn [AuthorFilter.draw].
  - exists [], staked. by rewrite app_nil_r.
  - destruct (decide (staked = [])) as [->|Hne]; [cbn in Hn; lia|]. cbv zeta.
    set (k := Z.to_nat _). assert (k < length staked)%nat as Hk.
    { assert (0 < Z.of_nat (length staked)) as Hpos by lia. unfold k.
      pose proof (Z.mod_pos_bound (u32 (to_low_u64_be (random (AuthorFilter.subject i h))))
        _ Hpos). lia. }
    destruct (lookup_lt_is_Some_2 _ _ Hk) as [a Ha]. rewrite Ha.
    destruct (IH (i + 1) (delete k staked) (eligible ++ [a])) as (drawn & rest & E & Hp & Hl).
    { rewrite length_delete by by eexists. lia. }
    exists (a :: drawn), rest. split_and!.
    + by rewrite E, <-app_assoc.
    + cbn. rewrite Hp. by rewrite <-(delete_Permutation staked k a).
    + cbn. by rewrite Hl.
Qed.

(** Only members are drawn, however many. *)
Lemma draw_members h n i staked eligible drawn :
  AuthorFilter.draw h n i staked eligible = Some drawn → drawn ⊆ eligible ++ staked.
Proof.
  revert i staked eligible. induction n as [|n IH]; intros i staked eligible;
    cbn [AuthorFilter.draw].
  - intros [= ->]. set_solver.
  - destruct (decide (staked = [])); [done|]. cbv zeta. set (k := Z.to_nat _).
    destruct (staked !! k) as [a|] eqn:Ha; [|done]. intros H%IH.
    pose proof (delete_Permutation staked k a Ha) as Hp. intros b Hb%H.
    rewrite Hp. set_solver.
Qed.

(** The height counts modulo 256 only. *)
Lemma draw_height h h' n i staked eligible :
  u8 h = u8 h' →
  AuthorFilter.draw h n i staked eligible = AuthorFilter.draw h' n i staked eligible.
Proof.
  intros Hh. revert i staked eligible. induction n as [|n IH]; intros i staked eligible; [done|].
  cbn [AuthorFilter.draw]. unfold AuthorFilter.subject. rewrite Hh.
  repeat case_match; done || apply IH.
Qed.
End draw.

Section eligible.
Context `{PO : PercentOps, PL : !PercentLaws, RS : RandomnessSource}.

Lemma num_eligible_range p n :
  0 <= p <= 100 → 0 <= n → 0 <= percent_mul_ceil p n <= n ∧
  (0 < p → 0 < n → 1 <= percent_mul_ceil p n) ∧ (p = 100 → percent_mul_ceil p n = n) ∧
  (p = 0 → percent_mul_ceil p n = 0).
Proof using PL.
  intros Hp Hn. pose proof (percent_mul_ceil_up p n Hp Hn). split_and!; nia.
Qed.

Lemma eligible_split ratio staked h :
  0 <= ratio <= 100 →
  ∃ eligible rest,
    AuthorFilter.eligible_authors ratio staked (Some h) = Some eligible ∧
    eligible ++ rest ≡ₚ staked ∧
    Z.of_nat (length eligible) = percent_mul_ceil ratio (Z.of_nat (length staked)).
Proof using PL.
  intros Hr. destruct (num_eligible_range ratio (Z.of_nat (length staked)) Hr ltac:(lia))
    as (Hrange & _).
  set (k := percent_mul_ceil ratio _) in *.
  destruct (draw_split h (Z.to_nat k) 0 staked []) as (eligible & rest & E & Hp & Hl); [lia|].
  exists eligible, rest. split_and!; [exact E|done|lia].
Qed.

Lemma eligible_member ratio staked data a :
  AuthorFilter.can_author ratio staked data a = Some true → a ∈ staked.
Proof.
  unfold AuthorFilter.can_author, AuthorFilter.eligible_authors.
  destruct data as [h|]; [|done]. cbn [mbind option_bind].
  destruct (AuthorFilter.draw _ _ _ _ _) as [eligible|] eqn:E; [|done].
  cbn. intros [= Ha%bool_decide_eq_true_1]. by apply (draw_members _ _ _ _ _ _ E) in Ha.
Qed.
End eligible.
