(* ===== verification/AuthorTheorems.v ===== *)
(** * Block authorship: what it guarantees *)

From S2P Require Import Prelude OrderedSet Frame StakeTypes Inflation Stake AuthorInherent.
From S2P Require Import AuthorFilter Reference.

Section inherent.
Context {Origin H : Type} `{FO : FrameOrigin Origin, EH : EventHandler H}.
Context {PreliminaryCanAuthor FinalCanAuthor : CanAuthor H}.
Context `{AC : AccountCodec, AL : !AccountCodecLaws}.
Local Notation World := (AuthorInherent.World H).
Local Notation execute := (@execute Origin H FO EH FinalCanAuthor AC).
Local Notation start := (@AuthorInherent.on_initialize H).

(** C21. In every block, whatever its extrinsics, at most one author is stated: by an inherent,
    and one that [FinalCanAuthor] admits in the state of the other pallets at that moment.
    Exactly that author is stored, logged once in the digest, and told to the event handler,
    once and nowhere else: but for what the handler does with it, the other pallets are as
    the other extrinsics leave them. [on_finalize] panics exactly when there is none. *)
Theorem block_has_one_author xs (w w0 w1 : World) r n :
  start w = Done r w0 → execute xs w0 = Some w1 →
  match AuthorInherent.find_author w1 [] with
  | Some a =>
      (∃ before origin after h, xs = before ++ SetAuthor origin a :: after ∧
        ensure_none origin = true ∧
        @can_author _ FinalCanAuthor (others before (AuthorInherent.host w)) a = Some true ∧
        note_author a (others before (AuthorInherent.host w)) = Some h ∧
        AuthorInherent.host w1 = others after h) ∧
      AuthorInherent.logs w1 =
        AuthorInherent.logs w ++ [(AuthorInherent.ENGINE_ID, encode a)] ∧
      AuthorInherent.on_finalize n w1 = Done tt w1
  | None =>
      AuthorInherent.host w1 = others xs (AuthorInherent.host w) ∧
      AuthorInherent.logs w1 = AuthorInherent.logs w ∧
      AuthorInherent.on_finalize n w1 = Panicked
  end.
Proof.
  intros [= <- <-] E. apply execute_unset in E; [|done]. cbn in E.
  destruct E as [->|(before & origin & a & after & h & -> & Ho & Hc & Hn & ->)]; [done|].
  split_and!; [|done|done]. by exists before, origin, after, h.
Qed.

(** C22. What the node provides for an author becomes the inherent that states this author;
    [check_inherent] accepts it exactly when [PreliminaryCanAuthor] does; and data can be
    provided once only. *)
Theorem inherent_round_trip (w : World) (a : AccountId) data data' :
  AuthorInherent.provide_inherent_data (encode a) data = inl data' →
  AuthorInherent.create_inherent data' = Some (Some (AuthorInherent.set_author_call a)) ∧
  (@AuthorInherent.check_inherent H PreliminaryCanAuthor w
     (AuthorInherent.set_author_call a) data' = Some (inr tt) ↔
   @can_author _ PreliminaryCanAuthor (AuthorInherent.host w) a = Some true) ∧
  ∀ v, AuthorInherent.provide_inherent_data v data' = inr "InherentDataExists"%string.
Proof using AL.
  unfold AuthorInherent.provide_inherent_data, put_data, AuthorInherent.create_inherent.
  destruct (data !! AuthorInherent.INHERENT_IDENTIFIER) eqn:E; [done|]. intros [= <-].
  rewrite lookup_insert_eq, decode_encode. split_and!; [done| |].
  - unfold AuthorInherent.check_inherent.
    destruct (can_author _ a) as [[]|]; naive_solver.
  - done.
Qed.
End inherent.

(** ** The filter *)

Section filter.
Context {Origin : Type} `{FO : FrameOrigin Origin, PO : PercentOps, RS : RandomnessSource}.
Context {PL : PercentLaws}.

(** C23. With a ratio of at most 100% and the validation data set, the filter does not
    panic: it draws the ratio of the validators, rounded up, each at most as often as it
    is listed; at 100% all of them, at 0% none, else at least one; and only a validator
    can author. *)
Theorem filter_draws_validators ratio staked h :
  0 <= ratio <= 100 →
  ∃ eligible rest,
    AuthorFilter.eligible_authors ratio staked (Some h) = Some eligible ∧
    eligible ++ rest ≡ₚ staked ∧
    Z.of_nat (length eligible) = percent_mul_ceil ratio (Z.of_nat (length staked)) ∧
    (ratio = 100 → eligible ≡ₚ staked) ∧ (ratio = 0 → eligible = []) ∧
    (0 < ratio → staked ≠ [] → eligible ≠ []) ∧
    ∀ a, AuthorFilter.can_author ratio staked (Some h) a = Some (bool_decide (a ∈ eligible)) ∧
      (a ∈ eligible → a ∈ staked).
Proof using PL.
  intros Hr. destruct (num_eligible_range ratio (Z.of_nat (length staked)) Hr ltac:(lia))
    as (Hrange & Hpos & Hall & Hnone).
  destruct (eligible_split ratio staked h Hr) as (eligible & rest & HE & Hp & Hl).
  set (k := percent_mul_ceil ratio _) in *. exists eligible, rest.
  split_and!; [done|done|done|..].
  - intros Hfull. rewrite <-Hp. apply Permutation_length in Hp. rewrite length_app in Hp.
    specialize (Hall Hfull). assert (length rest = 0)%nat by lia. destruct rest; [by rewrite app_nil_r|cbn in Hp; lia].
  - intros Hz. specialize (Hnone Hz). destruct eligible; [done|cbn in Hl; lia].
  - intros H0 Hne Hnil. rewrite Hnil in Hl. cbn in Hl. assert (0 < Z.of_nat (length staked)).
    { destruct staked; [done|cbn; lia]. }
    specialize (Hpos H0 ltac:(done)). lia.
  - intros a. split.
    + unfold AuthorFilter.can_author. by rewrite HE.
    + intros Ha. rewrite <-Hp. set_solver.
Qed.

(** The relay height enters the draw through its low byte only: heights that differ by
    a multiple of 256 have the same eligible authors. *)
Theorem filter_repeats_every_256 ratio staked h k a :
  AuthorFilter.can_author ratio staked (Some (h + 256 * k)) a =
  AuthorFilter.can_author ratio staked (Some h) a.
Proof.
  unfold AuthorFilter.can_author, AuthorFilter.eligible_authors. cbn [mbind option_bind].
  rewrite (draw_height (h + 256 * k) h); [done|].
  unfold u8, U8. rewrite Z.mul_comm. apply Z_mod_plus_full.
Qed.
End filter.

(** ** The unit tests of the author inherent *)

Module AuthorTests.

(** The configuration of the tests: nobody is told, and everybody can author. *)
#[local] Instance test_origin : FrameOrigin bool :=
  {| ensure_signed _ := None; ensure_root _ := false; ensure_none is_none := is_none |}.
#[local] Instance test_codec : AccountCodec :=
  {| encode a := [a]; decode l := match l with [a] => Some a | _ => None end |}.

Definition set_author (author : AccountId) :
    Prog (AuthorInherent.World unit) (DispatchError AuthorInherent.Error) unit :=
  AuthorInherent.set_author (EH := unit_EventHandler) (FinalCanAuthor := unit_CanAuthor)
    true author.

(** [roll_to], for [n] blocks: of the hooks of the pallet it runs [on_initialize] only. *)
Fixpoint roll (n : nat) : Prog (AuthorInherent.World unit) (DispatchError AuthorInherent.Error) unit :=
  match n with
  | O => mret tt
  | S n => AuthorInherent.on_initialize;; roll n
  end.

Definition new_test_ext : AuthorInherent.World unit := AuthorInherent.MkWorld None [] tt.

Definition set_author_works : bool :=
  match (set_author 1;; roll 1;; set_author 1;; roll 1) new_test_ext with
  | Done _ _ => true
  | _ => false
  end.

(** [assert_noop!]: the second statement fails and changes nothing. *)
Definition double_author_fails : bool :=
  match set_author 1 new_test_ext with
  | Done _ w =>
      match set_author 1 w with
      | Failed (Module_ AuthorInherent.AuthorAlreadySet) w' =>
          bool_decide (AuthorInherent.Author w' = AuthorInherent.Author w ∧
            AuthorInherent.logs w' = AuthorInherent.logs w)
      | _ => false
      end
  | _ => false
  end.

Example author_tests_pass : set_author_works && double_author_fails = true.
Proof. reflexivity. Qed.
End AuthorTests.
