(* ===== verification/Runtime.v ===== *)
(** * The runtime ([src/runtime/src/lib.rs])

    The parameters of the pallets, the mapping between gas and weight, the filter of
    Ethereum transactions, and the runtime as the host that joins the stake pallet, the
    author filter and the author inherent. *)

From S2P Require Import Prelude OrderedSet Frame StakeTypes Inflation Stake AuthorInherent.
From S2P Require Import AuthorFilter.

(** ** Parameters *)

Definition MINIMUM_PERIOD : Z := 3000.
Definition BLOCKS_PER_DAY : Z := 24 * 60 * 10.
Definition GLMR : Z := 1000000000000000000.
Definition ExistentialDeposit : Z := 0.
Definition TransactionByteFee : Z := 1.
Definition GAS_PER_SECOND : Z := 40000000.

(** [Perbill::from_percent] of a percentage of at most one hundred. *)
Definition perbill_from_percent (p : Z) : Perbill := p * 10000000.
Definition NORMAL_DISPATCH_RATIO : Perbill := perbill_from_percent 75.

(** The periods of [pallet_democracy]. *)
Record DemocracyConfig := {
  LaunchPeriod : Z; VotingPeriod : Z; FastTrackVotingPeriod : Z; EnactmentPeriod : Z;
  CooloffPeriod : Z; MinimumDeposit : Z; MaxVotes : Z; MaxProposals : Z;
  PreimageByteDeposit : Z; InstantAllowed : bool;
}.
Definition democracy_config : DemocracyConfig := {|
  LaunchPeriod := BLOCKS_PER_DAY;
  VotingPeriod := 5 * BLOCKS_PER_DAY;
  FastTrackVotingPeriod := BLOCKS_PER_DAY;
  EnactmentPeriod := BLOCKS_PER_DAY;
  CooloffPeriod := 7 * BLOCKS_PER_DAY;
  MinimumDeposit := 4 * GLMR;
  MaxVotes := 100;
  MaxProposals := 100;
  PreimageByteDeposit := GLMR / 1000;
  InstantAllowed := false;
|}.

(** [impl stake::Config for Runtime]: the minimum of a nomination is the minimum of a
    nominator. *)
Definition runtime_MinNominatorStk : Z := 5 * GLMR.
Definition runtime_stake_config : StakeConfig := {|
  BlocksPerRound := 600;
  BondDuration := 2;
  MaxValidators := 8;
  MaxNominatorsPerValidator := 10;
  MaxValidatorsPerNominator := 8;
  MaxFee := perbill_from_percent 50;
  MinValidatorStk := 1000 * GLMR;
  MinNomination := runtime_MinNominatorStk;
  MinNominatorStk := runtime_MinNominatorStk;
|}.

#[export] Instance runtime_config_laws : @StakeConfigLaws runtime_stake_config.
Proof. split; [|reflexivity..]. split; vm_compute; congruence. Qed.

(** ** Gas and weight *)

(** [WEIGHT_PER_SECOND] of [frame_support]: a second of weight is 10^12 units. *)
Class FrameWeights := WEIGHT_PER_SECOND : Z.
Class FrameWeightsLaws `{!FrameWeights} : Prop :=
  weight_per_second : WEIGHT_PER_SECOND = 1000000000000.

Section gas.
Context `{FW : FrameWeights, PO : PerbillOps}.

Definition MAXIMUM_BLOCK_WEIGHT : Z := WEIGHT_PER_SECOND / 2.
Definition WEIGHT_PER_GAS : Z := WEIGHT_PER_SECOND / GAS_PER_SECOND.

(** [u64::saturating_mul] *)
Definition saturating_mul (x y : Z) : Z := Z.min (x * y) (U64 - 1).

(** [impl GasWeightMapping for MoonbeamGasWeightMapping]; [wrapping_div] of unsigned
    integers is the division, and the conversion from [u64] to [u64] cannot fail. *)
Definition gas_to_weight (gas : Z) : Z := saturating_mul gas WEIGHT_PER_GAS.
Definition weight_to_gas (weight : Z) : Z := weight / WEIGHT_PER_GAS.

Definition BlockGasLimit : Z :=
  perbill_mul NORMAL_DISPATCH_RATIO MAXIMUM_BLOCK_WEIGHT / WEIGHT_PER_GAS.
End gas.

(** ** Ethereum transactions among extrinsics *)

(** The function of an extrinsic, as far as the filter looks at it. *)
Inductive RuntimeCall (Transaction : Type) :=
| Ethereum_transact (t : Transaction)
| Other_call (encoded : list Z).
Arguments Ethereum_transact {Transaction} _.
Arguments Other_call {Transaction} _.

(** [extrinsic_filter] *)
Definition extrinsic_filter {Transaction} (xts : list (RuntimeCall Transaction)) :
    list Transaction :=
  omap (λ xt, match xt with Ethereum_transact t => Some t | _ => None end) xts.

(** [TransactionConverter::convert_transaction] *)
Definition convert_transaction {Transaction} (t : Transaction) : RuntimeCall Transaction :=
  Ethereum_transact t.

(** ** The pallets together *)

(** The state of the pallets that the author inherent calls; the validation data is what
    the parachain system has been given in this block. *)
Record Host (Cur : Type) := MkHost {
  stake : World Cur;
  filter_world : AuthorFilter.World;
  validation_data : option Z;
}.
Arguments MkHost {Cur} _ _ _.
Arguments stake {Cur} _.
Arguments filter_world {Cur} _.
Arguments validation_data {Cur} _.

Section host.
Context {Origin Cur : Type}.
Context `{FO : FrameOrigin Origin, MO : MonetaryPolicyOrigin Origin, CU : Currency Cur}.
Context `{PO : PerbillOps, US : UnstableSort, IO : IterationOrder, SC : StakeConfig}.
Context `{PC : PercentOps, RS : RandomnessSource, AC : AccountCodec}.

(** [type EventHandler = Stake] *)
Definition Stake_EventHandler : EventHandler (Host Cur) := λ author h,
  match Stake.note_author author (stake h) with
  | Done _ w => Some (MkHost w (filter_world h) (validation_data h))
  | _ => None
  end.

(** [type PreliminaryCanAuthor = Stake] *)
Definition PreliminaryCanAuthor : CanAuthor (Host Cur) := λ h account,
  Some (Stake.can_author (stake h) account).

(** [type FinalCanAuthor = AuthorFilter] *)
Definition FinalCanAuthor : CanAuthor (Host Cur) := λ h account,
  AuthorFilter.can_author (AuthorFilter.EligibleRatio (filter_world h))
    (Validators (stake h)) (validation_data h) account.

(** [set_author] of the runtime. *)
Definition runtime_set_author :
    Origin → AccountId → Prog (AuthorInherent.World (Host Cur)) (DispatchError AuthorInherent.Error) unit :=
  @AuthorInherent.set_author Origin (Host Cur) FO Stake_EventHandler FinalCanAuthor AC.

(** The two hooks at the end of a block, on the joint world. *)
Definition Stake_on_finalize (n : Z) (w : AuthorInherent.World (Host Cur)) :
    option (AuthorInherent.World (Host Cur)) :=
  let h := AuthorInherent.host w in
  match Stake.on_finalize n (stake h) with
  | Done _ s =>
      Some (AuthorInherent.MkWorld (AuthorInherent.Author w) (AuthorInherent.logs w)
              (MkHost s (filter_world h) (validation_data h)))
  | _ => None
  end.

Definition AuthorInherent_on_finalize (n : Z) (w : AuthorInherent.World (Host Cur)) :
    option (AuthorInherent.World (Host Cur)) :=
  match AuthorInherent.on_finalize n w with
  | Done _ w => Some w
  | _ => None
  end.

(** The end of a block. [construct_runtime!] lists the stake pallet before the author
    inherent; whether FRAME runs the hooks in this order is FRAME's choice. *)
Definition runtime_on_finalize (stake_first : bool) (n : Z)
    (w : AuthorInherent.World (Host Cur)) : option (AuthorInherent.World (Host Cur)) :=
  if stake_first then Stake_on_finalize n w ≫= AuthorInherent_on_finalize n
  else AuthorInherent_on_finalize n w ≫= Stake_on_finalize n.
End host.

(** ** Two small pallets *)

(** [src/pallets/ethereum-chain-id/src/lib.rs]: a number set at genesis. *)
Module EthereumChainId.
Record Storage := { ChainId : Z }.
Record GenesisConfig := { chain_id : Z }.
Definition build (self : GenesisConfig) : Storage := {| ChainId := chain_id self |}.
Definition get (s : Storage) : Z := ChainId s.
End EthereumChainId.

(** [src/pallets/parachain-info/src/lib.rs]: the parachain's identifier, 200 by default. *)
Module ParachainInfo.
Record Storage := { ParachainId : Z }.
Definition default_storage : Storage := {| ParachainId := 200 |}.
Definition build (parachain_id : Z) : Storage := {| ParachainId := parachain_id |}.
Definition get (s : Storage) : Z := ParachainId s.
End ParachainInfo.
