(* ===== verification/RuntimeTheorems.v ===== *)
(** * The runtime: what it guarantees *)

From S2P Require Import Prelude OrderedSet Frame StakeTypes BondMap Inflation Stake.
From S2P Require Import StakeLogic Registry Rounds AuthorInherent AuthorFilter Runtime.
From S2P Require Import Reference StakeTheorems AuthorTheorems.

Section runtime.
Context {Origin Cur : Type}.
Context `{FO : FrameOrigin Origin, MO : MonetaryPolicyOrigin Origin, CU : Currency Cur}.
Context `{PO : PerbillOps, US : UnstableSort, IO : IterationOrder, SC : StakeConfig}.
Context {SL : UnstableSortLaws} {CF : StakeConfigLaws}.
Context `{PC : PercentOps, PL : !PercentLaws, RS : RandomnessSource, AC : AccountCodec}.
Local Notation BlockWorld := (AuthorInherent.World (Host Cur)).

(** C24. Whoever the runtime accepts as the author of a block is in the validator set, passes
    the preliminary check as well, and is awarded 20 points of the current round; the rest
    of the stake pallet stays as it is. *)
Theorem runtime_rewards_a_validator origin a (w w' : BlockWorld) :
  let h := AuthorInherent.host w in
  let s := stake h in
  sorted (Validators s) → runtime_set_author origin a w = Done tt w' →
  AuthorInherent.Author w' = Some a ∧ a ∈ Validators s ∧
  PreliminaryCanAuthor h a = Some true ∧
  let s' := stake (AuthorInherent.host w') in
  get_or 0 (Points s') (Round s) = get_or 0 (Points s) (Round s) ⊞ 20 ∧
  get_or 0 (AwardedPts s') (Round s, a) = get_or 0 (AwardedPts s) (Round s, a) ⊞ 20 ∧
  s' = set_Points (Points s') (set_AwardedPts (AwardedPts s') s).
Proof.
  intros h s Hs E.
  pose proof (@set_author_outcome Origin (Host Cur) FO Stake_EventHandler FinalCanAuthor AC
    origin a w) as H.
  unfold wp in H. unfold runtime_set_author in E. rewrite E in H.
  destruct H as (_ & _ & Hc & h' & Hn & ->). cbn [AuthorInherent.Author AuthorInherent.host].
  fold h in Hc, Hn. unfold can_author, FinalCanAuthor in Hc. fold s in Hc.
  apply eligible_member in Hc as Hin.
  assert (PreliminaryCanAuthor h a = Some true) as Hp.
  { unfold PreliminaryCanAuthor, Stake.can_author. fold s. f_equal.
    apply is_validator_member; [done|done]. }
  unfold Stake_EventHandler, AuthorInherent.note_author in Hn. fold s in Hn.
  cbn in Hn. injection Hn as <-. cbn [stake]. wsimpl.
  split_and!; try done; unfold get_or; by rewrite lookup_insert_eq.
Qed.

(** In a world the chain can reach, the end of a block succeeds exactly when an author
    has been stated; otherwise the block cannot be built. The order of the hooks does not
    matter, to this or to the world the block leaves. *)
Lemma runtime_block_needs_author signed_by config c stakers n (w : BlockWorld) :
  reachable signed_by config c stakers (stake (AuthorInherent.host w)) →
  (∀ stake_first, is_Some (runtime_on_finalize stake_first n w) ↔
    is_Some (AuthorInherent.Author w)) ∧
  runtime_on_finalize true n w = runtime_on_finalize false n w.
Proof using SL CF.
  intros Hr. pose proof (reachable_pool _ _ _ _ _ rounds_fit Hr) as Hp.
  assert (BlocksPerRound ≠ 0) as Hb by (pose proof rounds_fit; lia).
  pose proof (on_finalize_pool n _ Hb Hp) as H. unfold wp in H.
  assert (∃ s, Stake_on_finalize n w = Some (AuthorInherent.MkWorld (AuthorInherent.Author w)
    (AuthorInherent.logs w) s)) as [s E].
  { unfold Stake_on_finalize. cbv zeta.
    destruct (Stake.on_finalize n (stake (AuthorInherent.host w))); [by eexists|done..]. }
  destruct w as [o l h]. cbn [AuthorInherent.Author AuthorInherent.logs] in *.
  assert (∀ b, runtime_on_finalize b n (AuthorInherent.MkWorld o l h) =
    match o with Some _ => Some (AuthorInherent.MkWorld o l s) | None => None end) as R.
  { intros []; unfold runtime_on_finalize; [rewrite E|];
      unfold AuthorInherent_on_finalize, AuthorInherent.on_finalize; destruct o; cbn; done. }
  split; [|by rewrite !R]. intros b. rewrite R. destruct o; split; intros [? ?]; (done || by eexists).
Qed.
End runtime.

Section gas.
Context `{FW : FrameWeights, PO : PerbillOps, FL : !FrameWeightsLaws}.

(** Gas converts to weight and back without loss as long as the product fits in 64
    bits, and saturates beyond; a weight loses less than the weight of one unit of gas;
    and the conversion is monotone. *)
Theorem gas_weight_round_trip gas weight :
  0 <= gas < U64 → 0 <= weight < U64 →
  (gas * WEIGHT_PER_GAS < U64 → weight_to_gas (gas_to_weight gas) = gas) ∧
  (U64 <= gas * WEIGHT_PER_GAS → gas_to_weight gas = U64 - 1) ∧
  weight - WEIGHT_PER_GAS < gas_to_weight (weight_to_gas weight) <= weight ∧
  0 <= gas_to_weight gas < U64 ∧
  (∀ gas', gas <= gas' → gas_to_weight gas <= gas_to_weight gas').
Proof using FL.
  intros Hg Hw. unfold gas_to_weight, weight_to_gas, saturating_mul.
  assert (WEIGHT_PER_GAS = 25000) as ->.
  { unfold WEIGHT_PER_GAS. by rewrite weight_per_second. }
  pose proof (Z.div_mod weight 25000 ltac:(lia)) as Hdm.
  pose proof (Z.mod_pos_bound weight 25000 ltac:(lia)).
  unfold U64 in *. split_and!; try lia.
  intros Hfit. rewrite Z.min_l by lia. by apply Z.div_mul.
Qed.
End gas.

(** ** Witnesses *)

#[local] Existing Instance mock_config.

(** [mul_ceil] on counts, a stand-in for the hash of a subject, and account identifiers
    that encode as themselves. *)
#[local] Instance percent_ceil : PercentOps := λ p n, (p * n + 99) / 100.
#[local] Instance percent_ceil_laws : PercentLaws.
Proof.
  intros p n Hp Hn. unfold percent_mul_ceil, percent_ceil.
  pose proof (Z.div_mod (p * n + 99) 100 ltac:(lia)).
  pose proof (Z.mod_pos_bound (p * n + 99) 100 ltac:(lia)). lia.
Qed.
#[local] Instance subject_sum : RandomnessSource := λ l, foldr Z.add 0 l.
#[local] Instance plain_codec : AccountCodec :=
  {| encode a := [a]; decode l := match l with [a] => Some a | _ => None end |}.
#[local] Instance plain_codec_laws : AccountCodecLaws.
Proof. done. Qed.
#[local] Instance weights : FrameWeights := 1000000000000.
#[local] Instance weights_laws : FrameWeightsLaws.
Proof. done. Qed.

(** The genesis of [StakeTheorems.v], at relay height 3, with all validators eligible. *)
Definition block_start : AuthorInherent.World (Host Ledger) :=
  AuthorInherent.MkWorld None []
    (MkHost Demo.genesis (AuthorFilter.MkWorld 100 []) (Some 3)).
Definition stated : AuthorInherent.World (Host Ledger) :=
  match runtime_set_author None_ 2 block_start with Done _ w => w | _ => block_start end.

Lemma stated_runs : runtime_set_author None_ 2 block_start = Done tt stated.
Proof.
  unfold stated. assert (match runtime_set_author None_ 2 block_start with
    | Done _ _ => true | _ => false end = true) as H by (vm_compute; reflexivity).
  destruct (runtime_set_author None_ 2 block_start) as [[] w|e w|]; done.
Qed.

Lemma runtime_rewards_a_validator_witness :
  AuthorInherent.Author stated = Some 2 ∧ 2 ∈ Validators Demo.genesis ∧
  PreliminaryCanAuthor (AuthorInherent.host block_start) 2 = Some true ∧
  let s' := stake (AuthorInherent.host stated) in
  get_or 0 (Points s') (Round Demo.genesis) =
    get_or 0 (Points Demo.genesis) (Round Demo.genesis) ⊞ 20 ∧
  get_or 0 (AwardedPts s') (Round Demo.genesis, 2) =
    get_or 0 (AwardedPts Demo.genesis) (Round Demo.genesis, 2) ⊞ 20 ∧
  s' = set_Points (Points s') (set_AwardedPts (AwardedPts s') Demo.genesis).
Proof.
  exact (runtime_rewards_a_validator None_ 2 block_start stated
    (proj2 (proj2 (proj1 Demo.genesis_sound))) stated_runs).
Defined.

Lemma runtime_block_needs_author_witness :
  (∀ stake_first, is_Some (runtime_on_finalize stake_first 1 block_start) ↔
    is_Some (AuthorInherent.Author block_start)) ∧
  runtime_on_finalize true 1 block_start = runtime_on_finalize false 1 block_start.
Proof.
  assert (reachable Signed Demo.config (ledger Demo.balances) Demo.stakers Demo.genesis) as H.
  { exists tt, Demo.genesis. split; [exact Demo.genesis_runs|apply rtc_refl]. }
  exact (runtime_block_needs_author Signed Demo.config (ledger Demo.balances) Demo.stakers
    1 block_start H).
Defined.

Lemma gas_weight_round_trip_witness :
  (15000000 * WEIGHT_PER_GAS < U64 → weight_to_gas (gas_to_weight 15000000) = 15000000) ∧
  (U64 <= 15000000 * WEIGHT_PER_GAS → gas_to_weight 15000000 = U64 - 1) ∧
  375000000001 - WEIGHT_PER_GAS < gas_to_weight (weight_to_gas 375000000001) <= 375000000001 ∧
  0 <= gas_to_weight 15000000 < U64 ∧
  (∀ gas', 15000000 <= gas' → gas_to_weight 15000000 <= gas_to_weight gas').
Proof.
  exact (gas_weight_round_trip 15000000 375000000001 ltac:(unfold U64; lia)
    ltac:(unfold U64; lia)).
Defined.

(** The filter alone, and the inherent, on the same instances. *)
Lemma filter_draws_validators_witness :
  ∃ eligible rest,
    AuthorFilter.eligible_authors 50 [1; 2; 3] (Some 7) = Some eligible ∧
    eligible ++ rest ≡ₚ [1; 2; 3] ∧
    Z.of_nat (length eligible) = percent_mul_ceil 50 (Z.of_nat (length [1; 2; 3])) ∧
    (50 = 100 → eligible ≡ₚ [1; 2; 3]) ∧ (50 = 0 → eligible = []) ∧
    (0 < 50 → [1; 2; 3] ≠ [] → eligible ≠ []) ∧
    ∀ a, AuthorFilter.can_author 50 [1; 2; 3] (Some 7) a = Some (bool_decide (a ∈ eligible)) ∧
      (a ∈ eligible → a ∈ [1; 2; 3]).
Proof. exact (filter_draws_validators 50 [1; 2; 3] 7 ltac:(lia)). Defined.

(** A statement that is refused, one that goes through, and one more, with another
    extrinsic in between. *)
Definition statements : list (extrinsic (Origin := RawOrigin) (H := Host Ledger)) :=
  [SetAuthor (Signed 1) 1; SetAuthor None_ 2; Elsewhere id; SetAuthor None_ 1].
Definition after_inherent : AuthorInherent.World (Host Ledger) :=
  default block_start (execute (EH := Stake_EventHandler) (FinalCanAuthor := FinalCanAuthor)
    statements block_start).

Lemma block_has_one_author_witness :
  AuthorInherent.find_author after_inherent [] = Some 2 ∧
  match AuthorInherent.find_author after_inherent [] with
  | Some a =>
      (∃ before origin after h, statements = before ++ SetAuthor origin a :: after ∧
        ensure_none origin = true ∧
        can_author (CanAuthor := FinalCanAuthor)
          (others before (AuthorInherent.host block_start)) a = Some true ∧
        note_author (EventHandler := Stake_EventHandler) a
          (others before (AuthorInherent.host block_start)) = Some h ∧
        AuthorInherent.host after_inherent = others after h) ∧
      AuthorInherent.logs after_inherent =
        AuthorInherent.logs block_start ++ [(AuthorInherent.ENGINE_ID, encode a)] ∧
      AuthorInherent.on_finalize 1 after_inherent = Done tt after_inherent
  | None =>
      AuthorInherent.host after_inherent = others statements (AuthorInherent.host block_start) ∧
      AuthorInherent.logs after_inherent = AuthorInherent.logs block_start ∧
      AuthorInherent.on_finalize 1 after_inherent = Panicked
  end.
Proof.
  split; [vm_compute; reflexivity|].
  assert (execute (EH := Stake_EventHandler) (FinalCanAuthor := FinalCanAuthor)
    statements block_start = Some after_inherent) as E.
  { unfold after_inherent. destruct (execute _ _) as [w|] eqn:E; [done|].
    exfalso. revert E. vm_compute. congruence. }
  exact (block_has_one_author (EH := Stake_EventHandler) (FinalCanAuthor := FinalCanAuthor)
    statements block_start block_start after_inherent 0 1 eq_refl E).
Defined.

Lemma inherent_round_trip_witness :
  AuthorInherent.create_inherent {[AuthorInherent.INHERENT_IDENTIFIER := encode 2]} =
    Some (Some (AuthorInherent.set_author_call 2)) ∧
  (AuthorInherent.check_inherent (PreliminaryCanAuthor := PreliminaryCanAuthor) block_start
     (AuthorInherent.set_author_call 2) {[AuthorInherent.INHERENT_IDENTIFIER := encode 2]} =
     Some (inr tt) ↔
   can_author (CanAuthor := PreliminaryCanAuthor) (AuthorInherent.host block_start) 2 = Some true) ∧
  ∀ v, AuthorInherent.provide_inherent_data v
    {[AuthorInherent.INHERENT_IDENTIFIER := encode 2]} = inr "InherentDataExists"%string.
Proof.
  exact (inherent_round_trip (PreliminaryCanAuthor := PreliminaryCanAuthor) block_start 2 ∅
    {[AuthorInherent.INHERENT_IDENTIFIER := encode 2]} eq_refl).
Defined.
