(* ===== verification/RuntimeApi.v ===== *)
(** * The runtime's parameters and APIs ([src/runtime/src/lib.rs])

    The constants and origins with which the runtime configures the pallets of Substrate, and
    the calls of [EthereumRuntimeRPCApi], which hand their arguments on to the EVM pallet:
    a parameter, as are the 256-bit integers of [primitive_types]. *)

From S2P Require Import Prelude Frame AuthorInherent AuthorFilter Runtime.

(** ** Version, limits, origins *)

Record RuntimeVersion := {
  version_spec_name : string;
  version_impl_name : string;
  authoring_version : Z;
  spec_version : Z;
  impl_version : Z;
  transaction_version : Z;
}.
Definition VERSION : RuntimeVersion := {|
  version_spec_name := "moonbeam";
  version_impl_name := "moonbeam";
  authoring_version := 3;
  spec_version := 22;
  impl_version := 1;
  transaction_version := 2;
|}.

(** [native_version]: no other versions can author. *)
Record NativeVersion := { runtime_version : RuntimeVersion; can_author_with : list Z }.
Definition native_version : NativeVersion :=
  {| runtime_version := VERSION; can_author_with := [] |}.

Definition BlockHashCount : Z := 250.
Definition SS58Prefix : Z := 42.
Definition MaxLocks : Z := 50.
(** The length of a block, in bytes: of operational extrinsics, and of all others. *)
Definition max_block_length : Z := 5 * 1024 * 1024.
Definition normal_block_length `{PO : PerbillOps} : Z :=
  perbill_mul NORMAL_DISPATCH_RATIO max_block_length.

(** [BlockWeights::with_sensible_defaults], by its two arguments. *)
Definition BlockWeights `{FW : FrameWeights} : Z * Perbill :=
  (WEIGHT_PER_SECOND / 2, NORMAL_DISPATCH_RATIO).
Definition MaximumSchedulerWeight `{FW : FrameWeights, PO : PerbillOps} : Z :=
  perbill_mul (perbill_from_percent 80) BlockWeights.1.

(** The checks of origins of [frame_system] that the runtime names. *)
Inductive EnsureOrigin := EnsureRoot | EnsureNever | EnsureSigned.
Definition admits {Origin} `{FO : FrameOrigin Origin} (e : EnsureOrigin) (o : Origin) : bool :=
  match e with
  | EnsureRoot => ensure_root o
  | EnsureNever => false
  | EnsureSigned => match ensure_signed o with Some _ => true | None => false end
  end.

(** The origins of [pallet_democracy] and of [pallet_scheduler]. *)
Record DemocracyOrigins := {
  ExternalOrigin : EnsureOrigin; ExternalMajorityOrigin : EnsureOrigin;
  ExternalDefaultOrigin : EnsureOrigin; FastTrackOrigin : EnsureOrigin;
  CancellationOrigin : EnsureOrigin; BlacklistOrigin : EnsureOrigin;
  CancelProposalOrigin : EnsureOrigin; VetoOrigin : EnsureOrigin;
  InstantOrigin : EnsureOrigin; OperationalPreimageOrigin : EnsureOrigin;
}.
Definition democracy_origins : DemocracyOrigins := {|
  ExternalOrigin := EnsureRoot;
  ExternalMajorityOrigin := EnsureRoot;
  ExternalDefaultOrigin := EnsureRoot;
  FastTrackOrigin := EnsureRoot;
  CancellationOrigin := EnsureRoot;
  BlacklistOrigin := EnsureRoot;
  CancelProposalOrigin := EnsureRoot;
  VetoOrigin := EnsureNever;
  InstantOrigin := EnsureRoot;
  OperationalPreimageOrigin := EnsureSigned;
|}.
Definition ScheduleOrigin : EnsureOrigin := EnsureRoot.

(** [SignedExtra] *)
Inductive SignedExtension :=
| CheckSpecVersion | CheckTxVersion | CheckGenesis | CheckEra | CheckNonce | CheckWeight
| ChargeTransactionPayment.
Definition SignedExtra : list SignedExtension :=
  [CheckSpecVersion; CheckTxVersion; CheckGenesis; CheckEra; CheckNonce; CheckWeight;
   ChargeTransactionPayment].

(** The precompiled contracts ([src/runtime/precompiles/src/lib.rs]). *)
Inductive Precompile := ECRecover | Sha256 | Ripemd160 | Identity | Modexp | Dispatch.
Definition MoonbeamPrecompiles : list Precompile :=
  [ECRecover; Sha256; Ripemd160; Identity; Modexp; Dispatch].

(** ** Ethereum transactions as opaque extrinsics *)

Section opaque.
Context {Transaction : Type}.
(** The codec of extrinsics: outside the repository. *)
Context (encode : RuntimeCall Transaction → list Z) (decode : list Z → option (list Z)).

(** [ConvertTransaction<opaque::UncheckedExtrinsic>]; [None] is the panic of [expect]. *)
Definition convert_transaction_opaque (transaction : Transaction) : option (list Z) :=
  let extrinsic := convert_transaction transaction in
  let encoded := encode extrinsic in
  decode encoded.
End opaque.

(** ** The Ethereum API *)

(** [U256] and [H256] of [primitive_types]: a number below 2^256, and 32 bytes. *)
Class U256Ops := {
  to_big_endian : Z → list Z;
  low_u64 : Z → Z;
}.
(** The value of bytes, the first the most significant. *)
Definition from_big_endian (l : list Z) : Z := foldl (λ acc b, acc * 256 + b) 0 l.
Class U256Laws `{!U256Ops} : Prop := {
  to_big_endian_value x : 0 <= x < 2 ^ 256 →
    length (to_big_endian x) = 32%nat ∧ from_big_endian (to_big_endian x) = x;
  low_u64_mod x : 0 <= x < 2 ^ 256 → low_u64 x = u64 x;
}.

(** [evm::Config], by the field that the API sets. *)
Record EvmConfig (Rest : Type) := { estimate : bool; other_settings : Rest }.
Arguments estimate {Rest} _.
Arguments other_settings {Rest} _.

Section ethereum_api.
Context `{UO : U256Ops}.
Context {Rest CallInfo CreateInfo RunnerError ApiError H256 : Type}.
(** The EVM pallet. *)
Context (account_storages : AccountId → list Z → H256) (config : EvmConfig Rest).
Context (Runner_call : AccountId → AccountId → list Z → Z → Z → option Z → option Z →
  EvmConfig Rest → CallInfo + RunnerError).
Context (Runner_create : AccountId → list Z → Z → Z → option Z → option Z →
  EvmConfig Rest → CreateInfo + RunnerError).
Context (into : RunnerError → ApiError).

Definition map_err {A} (r : A + RunnerError) : A + ApiError :=
  match r with inl a => inl a | inr e => inr (into e) end.

Definition storage_at (address : AccountId) (index : Z) : H256 :=
  let tmp := to_big_endian index in
  account_storages address tmp.

(** The configuration of a call, if it is not the runtime's own. *)
Definition estimate_config (estimate : bool) : option (EvmConfig Rest) :=
  if estimate then
    Some {| RuntimeApi.estimate := true; other_settings := other_settings config |}
  else None.

Definition eth_call (from to : AccountId) (data : list Z) (value gas_limit : Z)
    (gas_price nonce : option Z) (estimate : bool) : CallInfo + ApiError :=
  let config' := estimate_config estimate in
  map_err (Runner_call from to data value (low_u64 gas_limit) gas_price nonce
    (default config config')).

Definition eth_create (from : AccountId) (data : list Z) (value gas_limit : Z)
    (gas_price nonce : option Z) (estimate : bool) : CreateInfo + ApiError :=
  let config' := estimate_config estimate in
  map_err (Runner_create from data value (low_u64 gas_limit) gas_price nonce
    (default config config')).
End ethereum_api.

(** [chain_id] and [current_all] read other pallets. *)
Definition eth_chain_id (s : EthereumChainId.Storage) : Z := EthereumChainId.get s.

Definition current_all {Block Receipt Status} (current_block : option Block)
    (current_receipts : option (list Receipt))
    (current_transaction_statuses : option (list Status)) :
    option Block * option (list Receipt) * option (list Status) :=
  (current_block, current_receipts, current_transaction_statuses).

(** ** What the API passes on *)

Section ethereum_laws.
Context `{UO : U256Ops, UL : !U256Laws}.
Context {Rest CallInfo CreateInfo RunnerError ApiError H256 : Type}.
Context (account_storages : AccountId → list Z → H256) (config : EvmConfig Rest).
Context (Runner_call : AccountId → AccountId → list Z → Z → Z → option Z → option Z →
  EvmConfig Rest → CallInfo + RunnerError).
Context (Runner_create : AccountId → list Z → Z → Z → option Z → option Z →
  EvmConfig Rest → CreateInfo + RunnerError).
Context (into : RunnerError → ApiError).

(** The configuration of a call differs from the runtime's in the flag at most. *)
Lemma used_config b :
  default config (estimate_config config b) =
    {| estimate := b || estimate config; other_settings := other_settings config |}.
Proof. destruct b; [done|]. by destruct config. Qed.

(** A call and a creation over RPC run on the EVM with the arguments as given and the
    runtime's configuration, with the estimating flag if it is asked for; the gas limit is
    cut to its low 64 bits, so it is exact below 2^64 and a limit of 2^64 runs without gas.
    A slot of the storage is addressed by the 32 bytes that denote its index: different
    indices have different addresses. *)
Theorem ethereum_api_passes_on from to data value gas_limit gas_price nonce b :
  0 <= gas_limit < 2 ^ 256 →
  let used := {| estimate := b || estimate config; other_settings := other_settings config |} in
  eth_call config Runner_call into from to data value gas_limit gas_price nonce b =
    map_err into (Runner_call from to data value (u64 gas_limit) gas_price nonce used) ∧
  eth_create config Runner_create into from data value gas_limit gas_price nonce b =
    map_err into (Runner_create from data value (u64 gas_limit) gas_price nonce used) ∧
  (gas_limit < U64 → u64 gas_limit = gas_limit) ∧ u64 U64 = 0 ∧
  ∀ address i j, 0 <= i < 2 ^ 256 → 0 <= j < 2 ^ 256 →
    ∃ k, storage_at account_storages address i = account_storages address k ∧
      from_big_endian k = i ∧ (to_big_endian j = k → j = i).
Proof using UL.
  intros Hg used. unfold eth_call, eth_create. cbv zeta.
  rewrite used_config, low_u64_mod by done. split_and!; [done|done| |done|].
  - intros Hlt. apply u64_small. lia.
  - intros address i j Hi Hj. exists (to_big_endian i).
    destruct (to_big_endian_value i Hi) as [_ Hv], (to_big_endian_value j Hj) as [_ Hv'].
    split_and!; [done|done|congruence].
Qed.
End ethereum_laws.

(** ** Governance *)

(** A signed origin passes none of the checks that decide in the democracy pallet or
    schedule a call; it can only note a preimage. Nobody can veto. *)
Lemma signed_accounts_do_not_govern {Origin} `{FO : FrameOrigin Origin} (o : Origin) :
  ensure_root o = false →
  Forall (λ e, admits (FO := FO) e o = false)
    [ExternalOrigin democracy_origins; ExternalMajorityOrigin democracy_origins;
     ExternalDefaultOrigin democracy_origins; FastTrackOrigin democracy_origins;
     CancellationOrigin democracy_origins; BlacklistOrigin democracy_origins;
     CancelProposalOrigin democracy_origins; VetoOrigin democracy_origins;
     InstantOrigin democracy_origins; ScheduleOrigin].
Proof. intros Ho. repeat constructor; try done; exact Ho. Qed.

(** ** A witness *)

(** The 32 bytes of a number, and a runner that reports its gas and the flag. *)
Fixpoint be_bytes (n : nat) (x : Z) : list Z :=
  match n with
  | O => []
  | S n => be_bytes n (x / 256) ++ [x mod 256]
  end.
#[local] Instance be_ops : U256Ops := { to_big_endian := be_bytes 32; low_u64 x := u64 x }.

Lemma be_bytes_value n x :
  0 <= x < 256 ^ Z.of_nat n →
  length (be_bytes n x) = n ∧ from_big_endian (be_bytes n x) = x.
Proof.
  revert x. induction n as [|n IH]; intros x Hx; cbn [be_bytes].
  { change (256 ^ Z.of_nat 0) with 1 in Hx. split; [done|]. cbn. lia. }
  rewrite Nat2Z.inj_succ, Z.pow_succ_r in Hx by lia.
  pose proof (Z.div_mod x 256 ltac:(lia)). pose proof (Z.mod_pos_bound x 256 ltac:(lia)).
  destruct (IH (x / 256)) as [Hl Hv].
  { split; [by apply Z.div_pos; lia|]. apply Z.div_lt_upper_bound; lia. }
  rewrite length_app, Hl. split; [cbn; lia|].
  unfold from_big_endian in *. rewrite foldl_app, Hv. cbn [foldl]. lia.
Qed.
#[local] Instance be_laws : U256Laws.
Proof. split; [|done]. intros x Hx. by apply (be_bytes_value 32). Qed.

Lemma ethereum_api_passes_on_witness :
  let config := {| estimate := false; other_settings := tt |} in
  let run from (to : AccountId) (data : list Z) (value gas : Z) (gas_price nonce : option Z)
    (c : EvmConfig unit) : (Z * bool) + string := inl (gas, estimate c) in
  eth_call config run id 1 2 [] 0 (U64 + 21000) None None true = inl (21000, true) ∧
  ∀ i j, 0 <= i < 2 ^ 256 → 0 <= j < 2 ^ 256 →
    ∃ k, storage_at (λ _ k, k) 1 i = k ∧ from_big_endian k = i ∧ (to_big_endian j = k → j = i).
Proof.
  intros config run.
  assert (0 <= U64 + 21000 < 2 ^ 256) as H by (unfold U64; lia).
  destruct (ethereum_api_passes_on (λ _ k, k) config run (run 0) id 1 2 [] 0 (U64 + 21000)
    None None true H) as (H1 & _ & _ & _ & H2).
  split; [|exact (H2 1)]. rewrite H1. vm_compute. reflexivity.
Defined.
