(* ===== verification/Block.v ===== *)
(** * A block of the runtime ([construct_runtime!] in [src/runtime/src/lib.rs])

    The pallets with their parts, the inherents in the order of the pallets, and the
    execution of a block on the pallets that are modelled: the start, the inherents, the
    extrinsics, the end. What the timestamp pallet and the parachain system make of the
    inherent data is third-party code, and so are their states, but for the relay parent's
    height that the author filter reads. *)

From S2P Require Import Prelude OrderedSet Frame StakeTypes BondMap Inflation Stake StakeLogic.
From S2P Require Import Registry Rounds AuthorInherent AuthorFilter Runtime.

(** ** The pallets *)

Inductive Pallet :=
| System | Timestamp | Balances | Sudo | RandomnessCollectiveFlip | ParachainSystem
| TransactionPayment | ParachainInfo_ | EthereumChainId_ | EVM | Ethereum | Stake_ | Scheduler
| Democracy | AuthorInherent_ | AuthorFilter_.
Inductive PalletPart :=
| Module_part | Call_part | Storage_part | Config_part | Event_part | Inherent_part
| ValidateUnsigned_part.

#[export] Instance Pallet_eq_dec : EqDecision Pallet.
Proof. solve_decision. Defined.
#[export] Instance PalletPart_eq_dec : EqDecision PalletPart.
Proof. solve_decision. Defined.

Definition construct_runtime : list (Pallet * list PalletPart) :=
  [(System, [Module_part; Call_part; Storage_part; Config_part; Event_part]);
   (Timestamp, [Module_part; Call_part; Storage_part; Inherent_part]);
   (Balances, [Module_part; Call_part; Storage_part; Config_part; Event_part]);
   (Sudo, [Module_part; Call_part; Storage_part; Config_part; Event_part]);
   (RandomnessCollectiveFlip, [Module_part; Call_part; Storage_part]);
   (ParachainSystem, [Module_part; Call_part; Storage_part; Inherent_part; Event_part]);
   (TransactionPayment, [Module_part; Storage_part]);
   (ParachainInfo_, [Module_part; Storage_part; Config_part]);
   (EthereumChainId_, [Module_part; Storage_part; Config_part]);
   (EVM, [Module_part; Config_part; Call_part; Storage_part; Event_part]);
   (Ethereum, [Module_part; Call_part; Storage_part; Event_part; Config_part; ValidateUnsigned_part]);
   (Stake_, [Module_part; Call_part; Storage_part; Event_part; Config_part]);
   (Scheduler, [Module_part; Storage_part; Config_part; Event_part; Call_part]);
   (Democracy, [Module_part; Storage_part; Config_part; Event_part; Call_part]);
   (AuthorInherent_, [Module_part; Call_part; Storage_part; Inherent_part]);
   (AuthorFilter_, [Module_part; Call_part; Storage_part; Event_part])].

(** ** Inherents *)

Inductive Inherent :=
| TimestampInherent (moment : Z)
| ValidationDataInherent (relay_height : Z)
| AuthorInherentCall (call : AuthorInherent.Call).

Section inherents.
Context `{AC : AccountCodec}.
Context (timestamp_create system_create : InherentData → option Z).

Definition create_inherent_of (p : Pallet) (data : InherentData) : option (list Inherent) :=
  match p with
  | Timestamp => Some (option_list (TimestampInherent <$> timestamp_create data))
  | ParachainSystem => Some (option_list (ValidationDataInherent <$> system_create data))
  | AuthorInherent_ =>
      call ← AuthorInherent.create_inherent data;
      Some (option_list (AuthorInherentCall <$> call))
  | _ => Some []
  end.

(** [InherentData::create_extrinsics]: "Inherents will be included in the order specified
    here." [None] is a panic. *)
Fixpoint create_extrinsics (pallets : list (Pallet * list PalletPart)) (data : InherentData) :
    option (list Inherent) :=
  match pallets with
  | [] => Some []
  | (p, parts) :: pallets =>
      l ← (if bool_decide (Inherent_part ∈ parts) then create_inherent_of p data else Some []);
      rest ← create_extrinsics pallets data;
      Some (l ++ rest)
  end.
End inherents.

(** ** Extrinsics *)

(** A call of a modelled pallet, or one of another pallet, which may change the currency. *)
Inductive Extrinsic (Origin Cur : Type) :=
| StakeCall (origin : Origin) (call : Call)
| FilterCall (origin : Origin) (new : Z)
| AuthorCall (origin : Origin) (author : AccountId)
| OtherCall (f : Cur → Cur).
Arguments StakeCall {Origin Cur} _ _.
Arguments FilterCall {Origin Cur} _ _.
Arguments AuthorCall {Origin Cur} _ _.
Arguments OtherCall {Origin Cur} _.

Section block.
Context {Origin Cur : Type}.
Context `{FO : FrameOrigin Origin, MO : MonetaryPolicyOrigin Origin, CU : Currency Cur}.
Context `{PO : PerbillOps, US : UnstableSort, IO : IterationOrder, SC : StakeConfig}.
Context `{PC : PercentOps, RS : RandomnessSource, AC : AccountCodec}.
(** [RawOrigin::None], the origin of inherents. *)
Context (none : Origin).
Local Notation BlockWorld := (AuthorInherent.World (Host Cur)).
Local Notation E := (DispatchError AuthorInherent.Error).
Local Notation M := (Prog BlockWorld E).

Definition set_host (h : Host Cur) (w : BlockWorld) : BlockWorld :=
  AuthorInherent.MkWorld (AuthorInherent.Author w) (AuthorInherent.logs w) h.
Definition set_stake (s : World Cur) (w : BlockWorld) : BlockWorld :=
  let h := AuthorInherent.host w in set_host (MkHost s (filter_world h) (validation_data h)) w.
Definition set_filter (f : AuthorFilter.World) (w : BlockWorld) : BlockWorld :=
  let h := AuthorInherent.host w in set_host (MkHost (stake h) f (validation_data h)) w.
Definition set_validation_data (d : option Z) (w : BlockWorld) : BlockWorld :=
  let h := AuthorInherent.host w in set_host (MkHost (stake h) (filter_world h) d) w.

(** An inherent is a mandatory extrinsic: with an error, the block is not valid. *)
Definition apply_inherent (i : Inherent) : M unit :=
  match i with
  | TimestampInherent _ => mret tt
  | ValidationDataInherent relay_height => modify (set_validation_data (Some relay_height))
  | AuthorInherentCall (AuthorInherent.set_author_call author) => runtime_set_author none author
  end.

(** Any other extrinsic stays in the block with its error; what it wrote stays too. *)
Definition applied {W E' A} (put : W → BlockWorld) (o : Outcome W E' A) :
    Outcome BlockWorld E unit :=
  match o with
  | Done _ w | Failed _ w => Done tt (put w)
  | Panicked => Panicked
  end.
Definition apply_extrinsic (x : Extrinsic Origin Cur) : M unit := λ w,
  match x with
  | StakeCall origin call =>
      applied (λ s, set_stake s w) (dispatch origin call (stake (AuthorInherent.host w)))
  | FilterCall origin new =>
      applied (λ f, set_filter f w)
        (AuthorFilter.set_eligible origin new (filter_world (AuthorInherent.host w)))
  | AuthorCall origin author => applied id (runtime_set_author origin author w)
  | OtherCall f =>
      let s := stake (AuthorInherent.host w) in
      Done tt (set_stake (set_currency (f (currency s)) s) w)
  end.

Definition finalize_block (n : Z) : M unit := λ w,
  match runtime_on_finalize true n w with
  | Some w => Done tt w
  | None => Panicked
  end.

(** The start of a block. The validation data is of one block: the parachain system drops
    what the block before has been given. *)
Definition initialize_block : M unit :=
  modify (set_validation_data None);;
  AuthorInherent.on_initialize;;
  mret tt.

(** A block until its end: the start, the inherents, the extrinsics. *)
Definition block_body (inherents : list Inherent) (xs : list (Extrinsic Origin Cur)) : M unit :=
  initialize_block;;
  for_each inherents apply_inherent;;
  for_each xs apply_extrinsic.

Definition execute_block (n : Z) (inherents : list Inherent) (xs : list (Extrinsic Origin Cur)) :
    M unit :=
  block_body inherents xs;;
  finalize_block n.

(** The world in which the inherents are executed. *)
Definition started (w : BlockWorld) : BlockWorld :=
  let h := AuthorInherent.host w in
  AuthorInherent.MkWorld None (AuthorInherent.logs w) (MkHost (stake h) (filter_world h) None).

Lemma initialize_block_runs w : initialize_block w = Done tt (started w).
Proof. done. Qed.

Lemma wp_initialize_block (Q : Outcome BlockWorld E unit → Prop) w :
  Q (Done tt (started w)) → wp initialize_block Q w.
Proof. done. Qed.
End block.
