(* ===== verification/BlockTheorems.v ===== *)
(** * Blocks of the runtime: what they guarantee *)

From S2P Require Import Prelude OrderedSet Frame StakeTypes BondMap Inflation Stake StakeLogic.
From S2P Require Import Registry Rounds AuthorInherent AuthorFilter Runtime Block.
From S2P Require Import Reference StakeTheorems RuntimeTheorems.

(** ** Inherents *)

Section inherents.
Context `{AC : AccountCodec}.
Context (timestamp_create system_create : InherentData → option Z).
Implicit Types (data : InherentData) (l : list Inherent).

(** In the runtime's order: the time, the validation data, the author. *)
Lemma create_extrinsics_runtime data :
  create_extrinsics timestamp_create system_create construct_runtime data =
    call ← AuthorInherent.create_inherent data;
    Some (option_list (TimestampInherent <$> timestamp_create data) ++
          option_list (ValidationDataInherent <$> system_create data) ++
          option_list (AuthorInherentCall <$> call)).
Proof.
  cbv [construct_runtime]. cbn [create_extrinsics].
  repeat first [rewrite bool_decide_true by (by repeat constructor)
               |rewrite bool_decide_false by (by rewrite !elem_of_cons, elem_of_nil; naive_solver)].
  cbn [create_inherent_of mbind option_bind app].
  destruct (AuthorInherent.create_inherent data) as [call|]; [|done].
  cbn [mbind option_bind app]. by rewrite app_nil_r.
Qed.

Lemma create_extrinsics_app p1 p2 data l :
  create_extrinsics timestamp_create system_create (p1 ++ p2) data = Some l →
  ∃ l1 l2, l = l1 ++ l2 ∧
    create_extrinsics timestamp_create system_create p1 data = Some l1 ∧
    create_extrinsics timestamp_create system_create p2 data = Some l2.
Proof.
  revert l. induction p1 as [|[p parts] p1 IH]; intros l; cbn [app create_extrinsics].
  - intros ->. by exists [], l.
  - destruct (if bool_decide _ then _ else _) as [l0|]; cbn [mbind option_bind]; [|done].
    destruct (create_extrinsics _ _ (p1 ++ p2) data) as [rest|]; [|done].
    intros [= <-]. destruct (IH _ eq_refl) as (l1 & l2 & -> & -> & ->).
    exists (l0 ++ l1), l2. by rewrite <-app_assoc.
Qed.

(** Only the parachain system makes an inherent of the validation data. *)
Lemma create_extrinsics_without_system pallets data l height :
  ParachainSystem ∉ pallets.*1 →
  create_extrinsics timestamp_create system_create pallets data = Some l →
  ValidationDataInherent height ∉ l.
Proof.
  revert l. induction pallets as [|[p parts] pallets IH]; intros l Hp; cbn [create_extrinsics].
  - intros [= <-]. set_solver.
  - cbn [fmap list_fmap fst] in Hp. apply not_elem_of_cons in Hp as [Hne Hp].
    destruct (if bool_decide _ then _ else _) as [l0|] eqn:E0; cbn [mbind option_bind]; [|done].
    destruct (create_extrinsics _ _ pallets data) as [rest|]; [|done]. intros [= <-].
    specialize (IH _ Hp eq_refl). apply not_elem_of_app. split; [|done].
    case_bool_decide; [|simplify_eq; set_solver].
    destruct p; try done; cbn in E0; simplify_eq; try set_solver.
    + destruct (timestamp_create data); cbn; set_solver.
    + destruct (AuthorInherent.create_inherent data) as [[c|]|]; simplify_eq; cbn; set_solver.
Qed.
End inherents.

Section draw.
Context `{PC : PercentOps, PL : !PercentLaws, RS : RandomnessSource}.

(** An author can be drawn whenever there is a validator. *)
Lemma someone_is_drawn ratio staked height :
  0 < ratio <= 100 → staked ≠ [] →
  ∃ a, a ∈ staked ∧ AuthorFilter.can_author ratio staked (Some height) a = Some true.
Proof using PL.
  intros Hr Hne.
  destruct (num_eligible_range ratio (Z.of_nat (length staked)) ltac:(lia) ltac:(lia))
    as (_ & Hpos & _).
  destruct (eligible_split ratio staked height ltac:(lia)) as (eligible & rest & HE & Hp & Hl).
  destruct eligible as [|a eligible].
  { destruct staked; [done|]. cbn in Hl. specialize (Hpos ltac:(lia) ltac:(cbn; lia)). cbn in Hpos. lia. }
  exists a. split; [rewrite <-Hp; set_solver|]. unfold AuthorFilter.can_author. rewrite HE.
  cbn. by rewrite bool_decide_true by set_solver.
Qed.

Lemma nobody_is_drawn staked height a :
  AuthorFilter.can_author 0 staked (Some height) a = Some false.
Proof using PL.
  destruct (num_eligible_range 0 (Z.of_nat (length staked)) ltac:(lia) ltac:(lia))
    as (_ & _ & _ & Hnone).
  destruct (eligible_split 0 staked height ltac:(lia)) as (eligible & rest & HE & _ & Hl).
  rewrite Hnone in Hl by done. unfold AuthorFilter.can_author. rewrite HE.
  by destruct eligible.
Qed.
End draw.

Section blocks.
Context {Origin Cur : Type}.
Context `{FO : FrameOrigin Origin, MO : MonetaryPolicyOrigin Origin, CU : Currency Cur}.
Context `{PO : PerbillOps, US : UnstableSort, IO : IterationOrder, SC : StakeConfig}.
Context {SL : UnstableSortLaws} {CF : StakeConfigLaws}.
Context `{PC : PercentOps, PL : !PercentLaws, RS : RandomnessSource}.
Context `{AC : AccountCodec, AL : !AccountCodecLaws}.
Context (timestamp_create system_create : InherentData → option Z).
Context (none : Origin) (none_origin : ensure_none none = true).
Local Notation BlockWorld := (AuthorInherent.World (Host Cur)).
Implicit Types (w : BlockWorld).

Lemma reachable_step signed_by config c stakers (s s' : World Cur) :
  reachable signed_by config c stakers s → chain_step s s' → reachable signed_by config c stakers s'.
Proof.
  intros (u & w0 & E & Hr) Hst. exists u, w0. split; [done|]. by eapply rtc_r.
Qed.

(** The inherent of the author, once there is no author yet and the height is known. *)
Lemma author_inherent_applies a w height :
  0 <= AuthorFilter.EligibleRatio (filter_world (AuthorInherent.host w)) <= 100 →
  AuthorInherent.Author w = None →
  validation_data (AuthorInherent.host w) = Some height →
  wp (apply_inherent none (AuthorInherentCall (AuthorInherent.set_author_call a))) (λ o,
    let s := stake (AuthorInherent.host w) in
    let drawn := AuthorFilter.can_author
      (AuthorFilter.EligibleRatio (filter_world (AuthorInherent.host w)))
      (Validators s) (Some height) a in
    match o with
    | Done _ w' => drawn = Some true ∧ AuthorInherent.Author w' = Some a ∧
        ∃ s', Stake.note_author a s = Done tt s' ∧ stake (AuthorInherent.host w') = s'
    | Failed e _ => drawn = Some false ∧ e = Module_ AuthorInherent.CannotBeAuthor
    | Panicked => False
    end) w.
Proof using none_origin PL.
  intros Hr Ha Hv. cbn [apply_inherent].
  eapply wp_mono; [|apply (@set_author_outcome Origin (Host Cur) FO Stake_EventHandler
    FinalCanAuthor AC none a w)].
  assert (∀ h, @can_author _ FinalCanAuthor (AuthorInherent.host w) h =
    AuthorFilter.can_author (AuthorFilter.EligibleRatio (filter_world (AuthorInherent.host w)))
      (Validators (stake (AuthorInherent.host w))) (Some height) h) as Hc.
  { intros h. unfold can_author, FinalCanAuthor. by rewrite Hv. }
  intros [[] w'|e w'|]; rewrite !Hc.
  - intros (_ & _ & -> & h & Hn & ->). unfold AuthorInherent.note_author, Stake_EventHandler in Hn.
    destruct (Stake.note_author a (stake (AuthorInherent.host w))) as [[] s'|?|] eqn:En; [|done..].
    injection Hn as <-. split_and!; [done|done|]. by exists s'.
  - intros (_ & [[_ H]|[(_ & _ & H)|(-> & _ & _ & H)]]); [congruence| |done].
    rewrite Ha in H. by destruct H.
  - intros [_ [H|H]].
    + revert H. unfold AuthorFilter.can_author.
      destruct (eligible_split (AuthorFilter.EligibleRatio (filter_world (AuthorInherent.host w)))
        (Validators (stake (AuthorInherent.host w))) height Hr) as (? & ? & -> & _). done.
    + revert H. unfold AuthorInherent.note_author, Stake_EventHandler.
      by destruct (Stake.note_author a (stake (AuthorInherent.host w))) eqn:En.
Qed.
Section extrinsics.
Context (signed_by : AccountId → Origin) (config : InflationInfo.t) (c : Cur).
Context (stakers : list (AccountId * option AccountId * Balance)).

(** The block has the author [a], and its stake pallet is one the chain can reach. *)
Definition authored (a : AccountId) (w : BlockWorld) : Prop :=
  AuthorInherent.Author w = Some a ∧
  reachable signed_by config c stakers (stake (AuthorInherent.host w)).

(** An extrinsic keeps both, and does not panic. *)
Lemma extrinsic_applies x a w : authored a w → wp (apply_extrinsic x) (ends (authored a)) w.
Proof using SL CF.
  intros [Ha Hr]. unfold wp.
  destruct x as [origin call|origin new|origin b|f]; cbn [apply_extrinsic].
  - pose proof (reachable_pool _ _ _ _ _ rounds_fit Hr) as Hp.
    pose proof (dispatch_keeps origin call _ rounds_fit Hp) as Hd. unfold wp in Hd.
    destruct (dispatch origin call (stake (AuthorInherent.host w))) as [u s'|e s'|] eqn:E;
      [..|done]; (split; [done|]); (eapply reachable_step; [exact Hr|]);
      [by eapply step_call|by eapply step_call_failed].
  - unfold AuthorFilter.set_eligible, ensure.
    by destruct (ensure_root origin).
  - pose proof (@set_author_outcome Origin (Host Cur) FO Stake_EventHandler FinalCanAuthor AC
      origin b w) as H.
    unfold wp in H. fold (runtime_set_author origin b w) in H. rewrite Ha in H.
    destruct (runtime_set_author origin b w) as [u w2|e w2|]; [naive_solver|by destruct H as [-> _]|].
    by destruct H.
  - split; [done|]. eapply reachable_step; [exact Hr|]. apply step_currency.
Qed.

Lemma extrinsics_apply xs a w : authored a w → wp (for_each xs apply_extrinsic) (ends (authored a)) w.
Proof using SL CF.
  intros Hw. apply (wp_for_each (authored a)); [done| |done].
  intros x w1 _ Hw1. eapply wp_mono; [|by apply extrinsic_applies]. by intros [].
Qed.

(** The end of a block that has its author. *)
Lemma block_finalizes n a w : authored a w → wp (finalize_block n) (ends (authored a)) w.
Proof using SL CF.
  intros [Ha Hr]. unfold wp, finalize_block.
  pose proof (reachable_pool _ _ _ _ _ rounds_fit Hr) as Hp.
  assert (BlocksPerRound ≠ 0) as Hb by (pose proof rounds_fit as Hf; clear -Hf; lia).
  pose proof (on_finalize_pool n _ Hb Hp) as H. unfold wp in H.
  unfold runtime_on_finalize, Stake_on_finalize. cbv zeta.
  destruct (on_finalize n (stake (AuthorInherent.host w))) as [u s'|?|] eqn:E; [|done..].
  cbn [mbind option_bind]. unfold AuthorInherent_on_finalize, AuthorInherent.on_finalize.
  unfold mbind, Prog_bind, gets, assert. cbn [AuthorInherent.Author]. rewrite Ha. cbn.
  split; [done|]. eapply reachable_step; [exact Hr|]. by eapply step_finalize.
Qed.
End extrinsics.
(** The inherents of a block, in the runtime's order, before there is an author. *)
Lemma inherents_apply signed_by config c stakers ts height a w :
  let h := AuthorInherent.host w in
  let ratio := AuthorFilter.EligibleRatio (filter_world h) in
  let drawn := AuthorFilter.can_author ratio (Validators (stake h)) (Some height) a in
  reachable signed_by config c stakers (stake h) → 0 <= ratio <= 100 →
  AuthorInherent.Author w = None →
  wp (for_each (option_list (TimestampInherent <$> ts) ++
        [ValidationDataInherent height; AuthorInherentCall (AuthorInherent.set_author_call a)])
       (apply_inherent none)) (λ o, match o with
    | Done _ w' => drawn = Some true ∧ authored signed_by config c stakers a w'
    | Failed e _ => drawn = Some false ∧ e = Module_ AuthorInherent.CannotBeAuthor
    | Panicked => False
    end) w.
Proof using none_origin SL PL.
  intros h ratio drawn Hr Hratio Ha.
  assert (∀ Q, wp (for_each [ValidationDataInherent height;
      AuthorInherentCall (AuthorInherent.set_author_call a)] (apply_inherent none)) Q w →
    wp (for_each (option_list (TimestampInherent <$> ts) ++ [ValidationDataInherent height;
      AuthorInherentCall (AuthorInherent.set_author_call a)]) (apply_inherent none)) Q w)
    as Htime by (by destruct ts).
  apply Htime. clear Htime. cbn [for_each]. apply wp_bind. cbn [apply_inherent].
  apply wp_modify. cbn [bind_post]. apply wp_bind.
  eapply wp_mono; [|by apply (author_inherent_applies a _ height)].
  intros [u w'|e w'|]; cbn [bind_post]; [|done..]. intros (Hd & Ha' & s' & Hn & Hs').
  apply wp_ret. split; [exact Hd|]. split; [exact Ha'|]. rewrite Hs'.
  eapply reachable_step; [exact Hr|]. by eapply (step_author _ a).
Qed.

(** A block with its inherents in the runtime's order. *)
Lemma runtime_block signed_by config c stakers n xs ts height a w :
  let h := AuthorInherent.host w in
  let ratio := AuthorFilter.EligibleRatio (filter_world h) in
  let drawn := AuthorFilter.can_author ratio (Validators (stake h)) (Some height) a in
  reachable signed_by config c stakers (stake h) → 0 <= ratio <= 100 →
  wp (execute_block none n (option_list (TimestampInherent <$> ts) ++
        [ValidationDataInherent height; AuthorInherentCall (AuthorInherent.set_author_call a)]) xs)
    (λ o, match o with
    | Done _ w' => drawn = Some true ∧ authored signed_by config c stakers a w'
    | Failed e _ => drawn = Some false ∧ e = Module_ AuthorInherent.CannotBeAuthor
    | Panicked => False
    end) w.
Proof using none_origin SL CF PL.
  intros h ratio drawn Hr Hratio.
  unfold execute_block, block_body. apply wp_bind, wp_bind, wp_initialize_block.
  cbn [bind_post]. set (w0 := started w). apply wp_bind.
  eapply wp_mono; [|by apply (inherents_apply signed_by config c stakers _ height a w0)].
  intros [u w1|e w1|]; cbn [bind_post]; [|done..]. intros [Hd Hw1].
  eapply wp_mono; [|by apply extrinsics_apply].
  intros [u2 w2|e2 w2|]; cbn [bind_post ends]; [|done..]. intros Hw2.
  eapply wp_mono; [|by apply block_finalizes].
  intros [u3 w3|e3 w3|]; cbn [ends]; done.
Qed.

(** C19. A block with the inherents that the node provides, in the runtime's order, and any
    calls goes through exactly when the author filter draws its author at its relay height;
    otherwise the author inherent fails, and nothing panics. Whenever there is a validator
    and the ratio is not zero, a validator is drawn. A block that goes through has this
    author, and leaves the stake pallet in a world that the chain can reach. *)
Theorem drawn_authors_make_blocks signed_by config c stakers n xs height w :
  let h := AuthorInherent.host w in
  let ratio := AuthorFilter.EligibleRatio (filter_world h) in
  let drawn a := AuthorFilter.can_author ratio (Validators (stake h)) (Some height) a in
  reachable signed_by config c stakers (stake h) → 0 <= ratio <= 100 →
  (0 < ratio → Validators (stake h) ≠ [] →
    ∃ a, a ∈ Validators (stake h) ∧ drawn a = Some true) ∧
  ∀ a data inherents,
    data !! AuthorInherent.INHERENT_IDENTIFIER = Some (encode a) →
    system_create data = Some height →
    create_extrinsics timestamp_create system_create construct_runtime data = Some inherents →
    match execute_block none n inherents xs w with
    | Done _ w' => drawn a = Some true ∧ authored signed_by config c stakers a w'
    | Failed e _ => drawn a = Some false ∧ e = Module_ AuthorInherent.CannotBeAuthor
    | Panicked => False
    end.
Proof using none_origin SL CF PL AL.
  intros h ratio drawn Hr Hratio. split.
  { intros Hpos Hne. apply someone_is_drawn; [|done]. split; [done|apply Hratio]. }
  intros a data inherents Ha Hh. rewrite create_extrinsics_runtime.
  unfold AuthorInherent.create_inherent. rewrite Ha, decode_encode, Hh.
  cbn [mbind option_bind]. intros [= <-].
  match goal with |- match ?r w with _ => _ end => wp_start r w end.
  by apply runtime_block.
Qed.
(** Without validation data the author filter panics. *)
Lemma author_inherent_panics a w :
  AuthorInherent.Author w = None → validation_data (AuthorInherent.host w) = None →
  apply_inherent none (AuthorInherentCall (AuthorInherent.set_author_call a)) w = Panicked.
Proof using none_origin.
  intros Ha Hv. cbn [apply_inherent].
  pose proof (@set_author_outcome Origin (Host Cur) FO Stake_EventHandler FinalCanAuthor AC
    none a w) as H.
  unfold wp in H. fold (runtime_set_author none a w) in H.
  unfold can_author, FinalCanAuthor in H. rewrite Hv, Ha in H. cbn in H.
  destruct (runtime_set_author none a w) as [u w2|e w2|]; [..|done].
  - by destruct H as (_ & _ & H & _).
  - destruct H as [_ [[_ H]|[(_ & _ & H)|(_ & _ & _ & H)]]]; [congruence|by destruct H|done].
Qed.

Lemma early_inherents l w :
  (∀ height, ValidationDataInherent height ∉ l) →
  AuthorInherent.Author w = None → validation_data (AuthorInherent.host w) = None →
  for_each l (apply_inherent none) w = Panicked ∨ for_each l (apply_inherent none) w = Done tt w.
Proof using none_origin.
  intros Hl Ha Hv. induction l as [|[t|height|[a]] l IH]; cbn [for_each]; [by right|..].
  - apply IH. intros height Hin. apply (Hl height). by right.
  - destruct (Hl height). by left.
  - left. unfold mbind, Prog_bind. by rewrite author_inherent_panics.
Qed.

(** C20. The order of the inherents matters: if the runtime listed the author inherent before
    the parachain system, every block that states an author would panic, because the
    validation data would not be there when the author filter asks for it. *)
Theorem author_inherent_needs_validation_data before parts after n xs a data inherents w :
  ParachainSystem ∉ before.*1 → Inherent_part ∈ parts →
  data !! AuthorInherent.INHERENT_IDENTIFIER = Some (encode a) →
  create_extrinsics timestamp_create system_create
    (before ++ (AuthorInherent_, parts) :: after) data = Some inherents →
  execute_block none n inherents xs w = Panicked.
Proof using none_origin AL.
  intros Hb Hp Ha E.
  apply create_extrinsics_app in E as (l1 & l2 & -> & E1 & E2).
  cbn [create_extrinsics] in E2. rewrite bool_decide_true in E2 by done.
  cbn [create_inherent_of] in E2. unfold AuthorInherent.create_inherent in E2.
  rewrite Ha, decode_encode in E2. cbn [mbind option_bind] in E2.
  destruct (create_extrinsics _ _ after data) as [rest|]; [|done].
  cbn in E2. injection E2 as <-.
  assert (∀ w0, AuthorInherent.Author w0 = None → validation_data (AuthorInherent.host w0) = None →
    for_each (l1 ++ AuthorInherentCall (AuthorInherent.set_author_call a) :: rest)
      (apply_inherent none) w0 = Panicked) as Hpanic.
  { intros w0 Ha0 Hv0. rewrite for_each_app. unfold mbind, Prog_bind.
    destruct (early_inherents l1 w0) as [-> | ->]; [|done..|].
    - intros height. by eapply create_extrinsics_without_system.
    - cbn [for_each]. unfold mbind, Prog_bind. by rewrite author_inherent_panics. }
  unfold execute_block, block_body, mbind, Prog_bind.
  rewrite initialize_block_runs. by rewrite Hpanic.
Qed.
End blocks.

(** ** Witnesses *)

#[local] Existing Instances mock_config percent_ceil percent_ceil_laws subject_sum plain_codec
  plain_codec_laws.

Lemma none_is_none : ensure_none None_ = true.
Proof. reflexivity. Qed.

(** The data of a block with author 2 at relay height 3, and the two pallets' decoders. *)
Definition toy_data : InherentData :=
  {[ AuthorInherent.INHERENT_IDENTIFIER := encode 2; [118] := [3]; [116] := [6000] ]}.
Definition read (id : list Z) (data : InherentData) : option Z := data !! id ≫= head.

Definition toy_inherents : list Inherent :=
  [TimestampInherent 6000; ValidationDataInherent 3;
   AuthorInherentCall (AuthorInherent.set_author_call 2)].
Lemma toy_inherents_created :
  create_extrinsics (read [116]) (read [118]) construct_runtime toy_data = Some toy_inherents.
Proof. vm_compute. reflexivity. Qed.

(** A block with a call of the stake pallet and a second author: it goes through. *)
Definition toy_block : list (Extrinsic RawOrigin Ledger) :=
  [StakeCall (Signed 1) Call_go_offline; AuthorCall None_ 1; FilterCall Root 50; OtherCall id].

Lemma drawn_authors_make_blocks_witness :
  reachable Signed Demo.config (ledger Demo.balances) Demo.stakers Demo.genesis ∧
  (∃ a, a ∈ Validators Demo.genesis ∧
    AuthorFilter.can_author 100 (Validators Demo.genesis) (Some 3) a = Some true) ∧
  match execute_block None_ 1 toy_inherents toy_block block_start with
  | Done _ w' =>
      AuthorFilter.can_author 100 (Validators Demo.genesis) (Some 3) 2 = Some true ∧
      authored Signed Demo.config (ledger Demo.balances) Demo.stakers 2 w'
  | Failed e _ =>
      AuthorFilter.can_author 100 (Validators Demo.genesis) (Some 3) 2 = Some false ∧
      e = Module_ AuthorInherent.CannotBeAuthor
  | Panicked => False
  end.
Proof.
  assert (reachable Signed Demo.config (ledger Demo.balances) Demo.stakers Demo.genesis) as H.
  { exists tt, Demo.genesis. split; [exact Demo.genesis_runs|apply rtc_refl]. }
  assert (0 <= 100 <= 100) as Hr by lia.
  destruct (drawn_authors_make_blocks (read [116]) (read [118]) None_ none_is_none
    Signed Demo.config (ledger Demo.balances) Demo.stakers 1 toy_block 3 block_start H Hr)
    as [Hex Hall].
  split; [exact H|]. split.
  - apply Hex; [done|]. vm_compute. congruence.
  - exact (Hall 2 toy_data toy_inherents eq_refl eq_refl toy_inherents_created).
Defined.

Lemma author_inherent_needs_validation_data_witness :
  execute_block None_ 1 [AuthorInherentCall (AuthorInherent.set_author_call 2);
      ValidationDataInherent 3] toy_block block_start = Panicked.
Proof.
  assert (ParachainSystem ∉ [(Stake_, [Module_part])].*1) as Hb by (cbn; set_solver).
  assert (Inherent_part ∈ [Inherent_part]) as Hp by set_solver.
  assert (create_extrinsics (read [116]) (read [118])
    ([(Stake_, [Module_part])] ++ (AuthorInherent_, [Inherent_part]) ::
      [(ParachainSystem, [Inherent_part])]) toy_data =
    Some [AuthorInherentCall (AuthorInherent.set_author_call 2); ValidationDataInherent 3]) as E
    by (vm_compute; reflexivity).
  exact (author_inherent_needs_validation_data (read [116]) (read [118]) None_ none_is_none
    [(Stake_, [Module_part])] [Inherent_part] [(ParachainSystem, [Inherent_part])] 1 toy_block 2
    toy_data _ block_start Hb Hp eq_refl E).
Defined.

Example toy_block_goes_through :
  match execute_block None_ 1 toy_inherents toy_block block_start with
  | Done _ w => AuthorInherent.Author w = Some 2
  | _ => False
  end.
Proof. vm_compute. reflexivity. Qed.
