(* ===== verification/RuntimeConfig.v ===== *)
(** * How the runtime wires its pallets ([src/runtime/src/lib.rs])

    The configuration of each pallet, with its associated types as syntax: which pallet is
    whose currency, event handler or source of randomness is then a computation, and so is
    the account type, which the source projects out of the signature type. The mock
    runtimes of the tests are configurations of the same records. *)

From S2P Require Import Prelude OrderedSet Frame StakeTypes Inflation Stake AuthorInherent.
From S2P Require Import AuthorFilter Runtime RuntimeApi Block Reference.

(** ** Types *)

(** The types that the configurations name. *)
Module Ty.
(** What [construct_runtime!] generates. *)
Inductive Outer := Call | Event | Origin | OriginCaller | PalletInfo.
Inductive t :=
| unit
| uint (bits : Z)
| H160 | H256 | BlakeTwo256
| EthereumSignature | EthereumSigner
| IdentityLookup (account : t)
| Header (number hashing : t) | TestHeader
| AccountData (balance : t)
| CurrencyAdapter (currency on_unbalanced : t)
| IdentityFee (balance : t)
| MoonbeamGasWeightMapping
| EnsureAddressSame | EnsureAddressNever (account : t)
| IdentityAddressMapping
| StackRunner
| Precompiles (l : list Precompile)
| IntermediateStateRoot
| outer (o : Outer)
| pallet (p : Pallet).
End Ty.

#[export] Instance Outer_eq_dec : EqDecision Ty.Outer.
Proof. solve_decision. Defined.
#[export] Instance Precompile_eq_dec : EqDecision Precompile.
Proof. solve_decision. Defined.
#[export] Instance Ty_eq_dec : EqDecision Ty.t.
Proof. solve_decision. Defined.
#[export] Instance EnsureOrigin_eq_dec : EqDecision EnsureOrigin.
Proof. solve_decision. Defined.

(** The associated types of [sp_runtime::traits::Verify] and [IdentifyAccount], and the
    repository's instances ([account/src/lib.rs]). *)
Class Verify (signature : Ty.t) := Signer : Ty.t.
Class IdentifyAccount (signer : Ty.t) := signer_AccountId : Ty.t.
Arguments Signer signature {_}.
Arguments signer_AccountId signer {_}.

#[export] Instance EthereumSignature_Verify : Verify Ty.EthereumSignature := Ty.EthereumSigner.
#[export] Instance EthereumSigner_IdentifyAccount : IdentifyAccount Ty.EthereumSigner := Ty.H160.

(** The type aliases of the runtime. *)
Definition BlockNumber : Ty.t := Ty.uint 32.
Definition Signature : Ty.t := Ty.EthereumSignature.
Definition AccountId_type : Ty.t := signer_AccountId (Signer Signature).
Definition Balance_type : Ty.t := Ty.uint 128.
Definition Index : Ty.t := Ty.uint 32.
Definition Hash : Ty.t := Ty.H256.
Definition Address : Ty.t := AccountId_type.
Definition Header_type : Ty.t := Ty.Header BlockNumber Ty.BlakeTwo256.

(** ** The records of associated types

    Constants are their values; [None] is the unit type in place of a constant. *)

Module frame_system.
Record Config := {
  AccountId : Ty.t; Call : Ty.t; Lookup : Ty.t; Index : Ty.t; BlockNumber : Ty.t;
  Hash : Ty.t; Hashing : Ty.t; Header : Ty.t; Event : Ty.t; Origin : Ty.t;
  BlockHashCount : Z;
  BlockWeights : option (Z * Perbill);
  BlockLength : option (Z * Perbill);
  Version : option RuntimeVersion;
  PalletInfo : Ty.t; AccountData : Ty.t; OnNewAccount : Ty.t; OnKilledAccount : Ty.t;
  DbWeight : Ty.t; BaseCallFilter : Ty.t; SystemWeightInfo : Ty.t;
  SS58Prefix : option Z;
}.
Definition types (c : Config) : list Ty.t :=
  [AccountId c; Call c; Lookup c; Index c; BlockNumber c; Hash c; Hashing c; Header c;
   Event c; Origin c; PalletInfo c; AccountData c; OnNewAccount c; OnKilledAccount c;
   DbWeight c; BaseCallFilter c; SystemWeightInfo c].
End frame_system.

Module pallet_timestamp.
Record Config := {
  Moment : Ty.t; OnTimestampSet : Ty.t; MinimumPeriod : Z; WeightInfo : Ty.t }.
Definition types (c : Config) : list Ty.t := [Moment c; OnTimestampSet c; WeightInfo c].
End pallet_timestamp.

Module pallet_balances.
Record Config := {
  MaxLocks : option Z; Balance : Ty.t; Event : Ty.t; DustRemoval : Ty.t;
  ExistentialDeposit : Z; AccountStore : Ty.t; WeightInfo : Ty.t }.
Definition types (c : Config) : list Ty.t :=
  [Balance c; Event c; DustRemoval c; AccountStore c; WeightInfo c].
End pallet_balances.

Module pallet_transaction_payment.
Record Config := {
  OnChargeTransaction : Ty.t; TransactionByteFee : Z; WeightToFee : Ty.t;
  FeeMultiplierUpdate : Ty.t }.
Definition types (c : Config) : list Ty.t :=
  [OnChargeTransaction c; WeightToFee c; FeeMultiplierUpdate c].
End pallet_transaction_payment.

Module pallet_sudo.
Record Config := { Call : Ty.t; Event : Ty.t }.
Definition types (c : Config) : list Ty.t := [Call c; Event c].
End pallet_sudo.

Module pallet_evm.
Record Config := {
  FeeCalculator : Ty.t; GasWeightMapping : Ty.t; CallOrigin : Ty.t; WithdrawOrigin : Ty.t;
  AddressMapping : Ty.t; Currency : Ty.t; Event : Ty.t; Runner : Ty.t; Precompiles : Ty.t;
  ChainId : Ty.t }.
Definition types (c : Config) : list Ty.t :=
  [FeeCalculator c; GasWeightMapping c; CallOrigin c; WithdrawOrigin c; AddressMapping c;
   Currency c; Event c; Runner c; Precompiles c; ChainId c].
End pallet_evm.

Module pallet_scheduler.
Record Config := {
  Event : Ty.t; Origin : Ty.t; PalletsOrigin : Ty.t; Call : Ty.t; MaximumWeight : Z;
  ScheduleOrigin : EnsureOrigin; MaxScheduledPerBlock : Ty.t; WeightInfo : Ty.t }.
Definition types (c : Config) : list Ty.t :=
  [Event c; Origin c; PalletsOrigin c; Call c; MaxScheduledPerBlock c; WeightInfo c].
End pallet_scheduler.

Module pallet_democracy.
Record Config := {
  Proposal : Ty.t; Event : Ty.t; Currency : Ty.t; constants : DemocracyConfig;
  origins : DemocracyOrigins; Slash : Ty.t; Scheduler : Ty.t; PalletsOrigin : Ty.t;
  WeightInfo : Ty.t }.
Definition types (c : Config) : list Ty.t :=
  [Proposal c; Event c; Currency c; Slash c; Scheduler c; PalletsOrigin c; WeightInfo c].
End pallet_democracy.

Module pallet_ethereum.
Record Config := { Event : Ty.t; FindAuthor : Ty.t; StateRoot : Ty.t; BlockGasLimit : Z }.
Definition types (c : Config) : list Ty.t := [Event c; FindAuthor c; StateRoot c].
End pallet_ethereum.

Module parachain_system.
Record Config := {
  Event : Ty.t; OnValidationData : Ty.t; SelfParaId : Ty.t; DownwardMessageHandlers : Ty.t;
  HrmpMessageHandlers : Ty.t }.
Definition types (c : Config) : list Ty.t :=
  [Event c; OnValidationData c; SelfParaId c; DownwardMessageHandlers c;
   HrmpMessageHandlers c].
End parachain_system.

Module stake_config.
Record Config := {
  Event : Ty.t; Currency : Ty.t; SetMonetaryPolicyOrigin : EnsureOrigin;
  constants : StakeConfig }.
Definition types (c : Config) : list Ty.t := [Event c; Currency c].
End stake_config.

Module author_inherent.
Record Config := { EventHandler : Ty.t; PreliminaryCanAuthor : Ty.t; FinalCanAuthor : Ty.t }.
Definition types (c : Config) : list Ty.t :=
  [EventHandler c; PreliminaryCanAuthor c; FinalCanAuthor c].
End author_inherent.

Module author_filter.
Record Config := { Event : Ty.t; RandomnessSource : Ty.t }.
Definition types (c : Config) : list Ty.t := [Event c; RandomnessSource c].
End author_filter.

(** ** The runtime *)

Section runtime.
Context `{FW : FrameWeights, PO : PerbillOps}.

Definition system_config : frame_system.Config := {|
  frame_system.AccountId := AccountId_type;
  frame_system.Call := Ty.outer Ty.Call;
  frame_system.Lookup := Ty.IdentityLookup AccountId_type;
  frame_system.Index := Index;
  frame_system.BlockNumber := BlockNumber;
  frame_system.Hash := Hash;
  frame_system.Hashing := Ty.BlakeTwo256;
  frame_system.Header := Ty.Header BlockNumber Ty.BlakeTwo256;
  frame_system.Event := Ty.outer Ty.Event;
  frame_system.Origin := Ty.outer Ty.Origin;
  frame_system.BlockHashCount := BlockHashCount;
  frame_system.BlockWeights := Some BlockWeights;
  frame_system.BlockLength := Some (max_block_length, NORMAL_DISPATCH_RATIO);
  frame_system.Version := Some VERSION;
  frame_system.PalletInfo := Ty.outer Ty.PalletInfo;
  frame_system.AccountData := Ty.AccountData Balance_type;
  frame_system.OnNewAccount := Ty.unit;
  frame_system.OnKilledAccount := Ty.unit;
  frame_system.DbWeight := Ty.unit;
  frame_system.BaseCallFilter := Ty.unit;
  frame_system.SystemWeightInfo := Ty.unit;
  frame_system.SS58Prefix := Some SS58Prefix;
|}.

Definition timestamp_config : pallet_timestamp.Config := {|
  pallet_timestamp.Moment := Ty.uint 64;
  pallet_timestamp.OnTimestampSet := Ty.unit;
  pallet_timestamp.MinimumPeriod := MINIMUM_PERIOD;
  pallet_timestamp.WeightInfo := Ty.unit;
|}.

Definition balances_config : pallet_balances.Config := {|
  pallet_balances.MaxLocks := Some MaxLocks;
  pallet_balances.Balance := Balance_type;
  pallet_balances.Event := Ty.outer Ty.Event;
  pallet_balances.DustRemoval := Ty.unit;
  pallet_balances.ExistentialDeposit := ExistentialDeposit;
  pallet_balances.AccountStore := Ty.pallet System;
  pallet_balances.WeightInfo := Ty.unit;
|}.

Definition transaction_payment_config : pallet_transaction_payment.Config := {|
  pallet_transaction_payment.OnChargeTransaction :=
    Ty.CurrencyAdapter (Ty.pallet Balances) Ty.unit;
  pallet_transaction_payment.TransactionByteFee := TransactionByteFee;
  pallet_transaction_payment.WeightToFee := Ty.IdentityFee Balance_type;
  pallet_transaction_payment.FeeMultiplierUpdate := Ty.unit;
|}.

Definition sudo_config : pallet_sudo.Config :=
  {| pallet_sudo.Call := Ty.outer Ty.Call; pallet_sudo.Event := Ty.outer Ty.Event |}.

Definition evm_config : pallet_evm.Config := {|
  pallet_evm.FeeCalculator := Ty.unit;
  pallet_evm.GasWeightMapping := Ty.MoonbeamGasWeightMapping;
  pallet_evm.CallOrigin := Ty.EnsureAddressSame;
  pallet_evm.WithdrawOrigin := Ty.EnsureAddressNever AccountId_type;
  pallet_evm.AddressMapping := Ty.IdentityAddressMapping;
  pallet_evm.Currency := Ty.pallet Balances;
  pallet_evm.Event := Ty.outer Ty.Event;
  pallet_evm.Runner := Ty.StackRunner;
  pallet_evm.Precompiles := Ty.Precompiles MoonbeamPrecompiles;
  pallet_evm.ChainId := Ty.pallet EthereumChainId_;
|}.

Definition scheduler_config : pallet_scheduler.Config := {|
  pallet_scheduler.Event := Ty.outer Ty.Event;
  pallet_scheduler.Origin := Ty.outer Ty.Origin;
  pallet_scheduler.PalletsOrigin := Ty.outer Ty.OriginCaller;
  pallet_scheduler.Call := Ty.outer Ty.Call;
  pallet_scheduler.MaximumWeight := MaximumSchedulerWeight;
  pallet_scheduler.ScheduleOrigin := ScheduleOrigin;
  pallet_scheduler.MaxScheduledPerBlock := Ty.unit;
  pallet_scheduler.WeightInfo := Ty.unit;
|}.

Definition democracy_pallet_config : pallet_democracy.Config := {|
  pallet_democracy.Proposal := Ty.outer Ty.Call;
  pallet_democracy.Event := Ty.outer Ty.Event;
  pallet_democracy.Currency := Ty.pallet Balances;
  pallet_democracy.constants := democracy_config;
  pallet_democracy.origins := democracy_origins;
  pallet_democracy.Slash := Ty.unit;
  pallet_democracy.Scheduler := Ty.pallet Scheduler;
  pallet_democracy.PalletsOrigin := Ty.outer Ty.OriginCaller;
  pallet_democracy.WeightInfo := Ty.unit;
|}.

Definition ethereum_config : pallet_ethereum.Config := {|
  pallet_ethereum.Event := Ty.outer Ty.Event;
  pallet_ethereum.FindAuthor := Ty.pallet AuthorInherent_;
  pallet_ethereum.StateRoot := Ty.IntermediateStateRoot;
  pallet_ethereum.BlockGasLimit := BlockGasLimit;
|}.

Definition parachain_system_config : parachain_system.Config := {|
  parachain_system.Event := Ty.outer Ty.Event;
  parachain_system.OnValidationData := Ty.unit;
  parachain_system.SelfParaId := Ty.pallet ParachainInfo_;
  parachain_system.DownwardMessageHandlers := Ty.unit;
  parachain_system.HrmpMessageHandlers := Ty.unit;
|}.

Definition stake_pallet_config : stake_config.Config := {|
  stake_config.Event := Ty.outer Ty.Event;
  stake_config.Currency := Ty.pallet Balances;
  stake_config.SetMonetaryPolicyOrigin := EnsureRoot;
  stake_config.constants := runtime_stake_config;
|}.

Definition author_inherent_config : author_inherent.Config := {|
  author_inherent.EventHandler := Ty.pallet Stake_;
  author_inherent.PreliminaryCanAuthor := Ty.pallet Stake_;
  author_inherent.FinalCanAuthor := Ty.pallet AuthorFilter_;
|}.

Definition author_filter_config : author_filter.Config := {|
  author_filter.Event := Ty.outer Ty.Event;
  author_filter.RandomnessSource := Ty.pallet RandomnessCollectiveFlip;
|}.

(** The associated types of each pallet of the runtime; a pallet with an empty [Config], or
    with none, has no types. *)
Definition types_of (p : Pallet) : list Ty.t :=
  match p with
  | System => frame_system.types system_config
  | Timestamp => pallet_timestamp.types timestamp_config
  | Balances => pallet_balances.types balances_config
  | Sudo => pallet_sudo.types sudo_config
  | RandomnessCollectiveFlip => []
  | ParachainSystem => parachain_system.types parachain_system_config
  | TransactionPayment => pallet_transaction_payment.types transaction_payment_config
  | ParachainInfo_ => []
  | EthereumChainId_ => []
  | EVM => pallet_evm.types evm_config
  | Ethereum => pallet_ethereum.types ethereum_config
  | Stake_ => stake_config.types stake_pallet_config
  | Scheduler => pallet_scheduler.types scheduler_config
  | Democracy => pallet_democracy.types democracy_pallet_config
  | AuthorInherent_ => author_inherent.types author_inherent_config
  | AuthorFilter_ => author_filter.types author_filter_config
  end.

(** The traits that a [Config] of the repository extends. *)
Definition supertraits (p : Pallet) : list Pallet :=
  match p with
  | Stake_ | AuthorInherent_ | EthereumChainId_ | ParachainInfo_ => [System]
  | AuthorFilter_ => [System; Stake_; ParachainSystem]
  | _ => []
  end.

(** The pallets whose module a type names. *)
Fixpoint pallets_in (t : Ty.t) : list Pallet :=
  match t with
  | Ty.pallet p => [p]
  | Ty.IdentityLookup t | Ty.AccountData t | Ty.IdentityFee t | Ty.EnsureAddressNever t =>
      pallets_in t
  | Ty.Header t u | Ty.CurrencyAdapter t u => pallets_in t ++ pallets_in u
  | _ => []
  end.

(** What a pallet is wired to. *)
Definition uses (p : Pallet) : list Pallet := (types_of p ≫= pallets_in) ++ supertraits p.

(** A pallet with an overarching event type, and one with an event in the runtime. *)
Definition has_event_type (p : Pallet) : bool := bool_decide (Ty.outer Ty.Event ∈ types_of p).
Definition parts_of (p : Pallet) : list PalletPart :=
  mjoin (snd <$> filter (λ x, x.1 = p) construct_runtime).
End runtime.

(** The traits of the repository, and who implements them: the author callbacks
    ([stake/src/lib.rs], [author-filter/src/lib.rs], [author-inherent/src/lib.rs]) and the
    two getters ([ethereum-chain-id/src/lib.rs], [parachain-info/src/lib.rs]). *)
Inductive RepoTrait := EventHandler_trait | CanAuthor_trait | FindAuthor_trait | Get_u64 | Get_ParaId.
#[export] Instance RepoTrait_eq_dec : EqDecision RepoTrait.
Proof. solve_decision. Defined.

Definition implementors (tr : RepoTrait) : list Ty.t :=
  match tr with
  | EventHandler_trait => [Ty.unit; Ty.pallet Stake_]
  | CanAuthor_trait => [Ty.unit; Ty.pallet Stake_; Ty.pallet AuthorFilter_]
  | FindAuthor_trait => [Ty.pallet AuthorInherent_]
  | Get_u64 => [Ty.pallet EthereumChainId_]
  | Get_ParaId => [Ty.pallet ParachainInfo_]
  end.

(** ** The runtimes of the tests *)

(** [impl System for Test] of the stake pallet ([mock.rs]) and of the author inherent, with
    what differs as arguments: the event, the account data and the prefix. *)
Definition test_system_config (event account_data : Ty.t) (prefix : option Z) :
    frame_system.Config := {|
  frame_system.AccountId := Ty.uint 64;
  frame_system.Call := Ty.unit;
  frame_system.Lookup := Ty.IdentityLookup (Ty.uint 64);
  frame_system.Index := Ty.uint 64;
  frame_system.BlockNumber := Ty.uint 64;
  frame_system.Hash := Ty.H256;
  frame_system.Hashing := Ty.BlakeTwo256;
  frame_system.Header := Ty.TestHeader;
  frame_system.Event := event;
  frame_system.Origin := Ty.outer Ty.Origin;
  frame_system.BlockHashCount := 250;
  frame_system.BlockWeights := None;
  frame_system.BlockLength := None;
  frame_system.Version := None;
  frame_system.PalletInfo := Ty.unit;
  frame_system.AccountData := account_data;
  frame_system.OnNewAccount := Ty.unit;
  frame_system.OnKilledAccount := Ty.unit;
  frame_system.DbWeight := Ty.unit;
  frame_system.BaseCallFilter := Ty.unit;
  frame_system.SystemWeightInfo := Ty.unit;
  frame_system.SS58Prefix := prefix;
|}.

Definition mock_system_config : frame_system.Config :=
  test_system_config (Ty.outer Ty.Event) (Ty.AccountData (Ty.uint 128)) (Some 42).
Definition author_tests_system_config : frame_system.Config :=
  test_system_config Ty.unit Ty.unit None.

Definition mock_balances_config : pallet_balances.Config := {|
  pallet_balances.MaxLocks := None;
  pallet_balances.Balance := Ty.uint 128;
  pallet_balances.Event := Ty.outer Ty.Event;
  pallet_balances.DustRemoval := Ty.unit;
  pallet_balances.ExistentialDeposit := 1;
  pallet_balances.AccountStore := Ty.pallet System;
  pallet_balances.WeightInfo := Ty.unit;
|}.

Definition mock_stake_config : stake_config.Config := {|
  stake_config.Event := Ty.outer Ty.Event;
  stake_config.Currency := Ty.pallet Balances;
  stake_config.SetMonetaryPolicyOrigin := EnsureRoot;
  stake_config.constants := mock_config;
|}.

Definition author_tests_config : author_inherent.Config := {|
  author_inherent.EventHandler := Ty.unit;
  author_inherent.PreliminaryCanAuthor := Ty.unit;
  author_inherent.FinalCanAuthor := Ty.unit;
|}.

(** ** The wiring is consistent *)

Section wiring.
Context `{FW : FrameWeights, PO : PerbillOps}.

(** Accounts are the addresses that transactions are signed for, in every pallet: the type
    that the signature projects to is the one that the EVM pallet's identity mapping works
    on, and lookups and extrinsics leave accounts as they are. *)
Lemma accounts_are_addresses :
  AccountId_type = Ty.H160 ∧ Address = AccountId_type ∧
  frame_system.AccountId system_config = Ty.H160 ∧
  frame_system.Lookup system_config = Ty.IdentityLookup Ty.H160 ∧
  pallet_evm.AddressMapping evm_config = Ty.IdentityAddressMapping ∧
  pallet_evm.WithdrawOrigin evm_config = Ty.EnsureAddressNever Ty.H160.
Proof. done. Qed.

(** Balances have one type, and all pallets that hold money hold it in one ledger. *)
Lemma one_ledger :
  pallet_balances.Balance balances_config = Ty.uint 128 ∧
  frame_system.AccountData system_config = Ty.AccountData (pallet_balances.Balance balances_config) ∧
  pallet_transaction_payment.WeightToFee transaction_payment_config =
    Ty.IdentityFee (pallet_balances.Balance balances_config) ∧
  (filter (λ p, Balances ∈ uses p) construct_runtime.*1 =
    [TransactionPayment; EVM; Stake_; Democracy]) ∧
  stake_config.Currency stake_pallet_config = pallet_evm.Currency evm_config ∧
  pallet_democracy.Currency democracy_pallet_config = pallet_evm.Currency evm_config.
Proof. split_and!; reflexivity. Qed.

(** Whoever has an overarching event type has an event in the runtime, and nobody else. *)
Lemma events_are_listed p :
  has_event_type p = bool_decide (Event_part ∈ parts_of p).
Proof. by destruct p. Qed.

(** Every slot of a trait of the repository is filled with an implementation of it. *)
Lemma slots_are_implemented :
  Forall (λ '(tr, t), t ∈ implementors tr)
    [(EventHandler_trait, author_inherent.EventHandler author_inherent_config);
     (CanAuthor_trait, author_inherent.PreliminaryCanAuthor author_inherent_config);
     (CanAuthor_trait, author_inherent.FinalCanAuthor author_inherent_config);
     (FindAuthor_trait, pallet_ethereum.FindAuthor ethereum_config);
     (Get_u64, pallet_evm.ChainId evm_config);
     (Get_ParaId, parachain_system.SelfParaId parachain_system_config);
     (EventHandler_trait, author_inherent.EventHandler author_tests_config);
     (CanAuthor_trait, author_inherent.FinalCanAuthor author_tests_config)].
Proof. apply (bool_decide_unpack _). reflexivity. Qed.

(** A rank that falls along the wiring. *)
Definition rank (p : Pallet) : nat :=
  match p with
  | System | Timestamp | Sudo | RandomnessCollectiveFlip => 0
  | Balances | ParachainInfo_ | EthereumChainId_ | Scheduler => 1
  | ParachainSystem | TransactionPayment | EVM | Stake_ | Democracy => 2
  | AuthorFilter_ => 3
  | AuthorInherent_ => 4
  | Ethereum => 5
  end%nat.

Lemma uses_rank p q : q ∈ uses p → (rank q < rank p)%nat.
Proof.
  assert (Forall (λ q, rank q < rank p)%nat (uses p)) as H.
  { apply (bool_decide_unpack _). by destruct p. }
  rewrite Forall_forall in H. apply H.
Qed.

(** No pallet depends on itself, through however many others, and every pallet that another
    is wired to is part of the runtime. *)
Lemma wiring_is_sound :
  (∀ p, ¬ tc (λ p q, q ∈ uses p) p p) ∧
  ∀ p q, q ∈ uses p → q ∈ construct_runtime.*1.
Proof.
  split.
  - assert (∀ p q, tc (λ p q, q ∈ uses p) p q → (rank q < rank p)%nat) as H.
    { induction 1 as [p q Hq|p q r Hq _ IH]; [by apply uses_rank|].
      apply uses_rank in Hq. lia. }
    intros p Hp%H. lia.
  - intros p q _. apply (bool_decide_unpack _). by destruct q.
Qed.

(** The origin for the monetary policy is the root, here and in the mock runtime, which is
    how the stake pallet's parameter is instantiated for the witnesses. *)
Lemma monetary_policy_is_root (o : RawOrigin) :
  SetMonetaryPolicyOrigin o = admits (stake_config.SetMonetaryPolicyOrigin stake_pallet_config) o ∧
  SetMonetaryPolicyOrigin o = admits (stake_config.SetMonetaryPolicyOrigin mock_stake_config) o.
Proof. done. Qed.

(** The mock runtimes differ from the runtime in their accounts, but agree with it in how
    the stake pallet is wired. *)
Lemma mock_wires_alike :
  stake_config.types mock_stake_config = stake_config.types stake_pallet_config ∧
  stake_config.SetMonetaryPolicyOrigin mock_stake_config =
    stake_config.SetMonetaryPolicyOrigin stake_pallet_config ∧
  pallet_balances.Balance mock_balances_config = pallet_balances.Balance balances_config ∧
  frame_system.AccountId mock_system_config ≠ frame_system.AccountId system_config.
Proof. by split_and!. Qed.
End wiring.
