(* ===== verification/RuntimeApis.v ===== *)
(** * The runtime APIs ([impl_runtime_apis!] in [src/runtime/src/lib.rs])

    What the node can ask the runtime for. The functions of Substrate and Frontier that the
    APIs forward to are fields of two records; the rest is the runtime's own: its version,
    its inherents, its filter, its parameters. An executive made of the blocks of [Block.v]
    shows what the APIs do together: a block built by them is the block they execute. *)

From S2P Require Import Prelude OrderedSet Frame StakeTypes Inflation Stake AuthorInherent.
From S2P Require Import AuthorFilter Runtime RuntimeApi Block Reference.

(** ** What is called *)

(** [frame_executive::Executive], on the state [W] of the chain; [None] is a panic,
    or an extrinsic that makes the block invalid. *)
Class Executive (W Header Xt ApplyResult Source Validity : Type) := {
  Executive_execute_block : Header * list Xt → W → option W;
  Executive_initialize_block : Header → W → option W;
  Executive_apply_extrinsic : Xt → W → option (ApplyResult * W);
  Executive_finalize_block : W → option (Header * W);
  Executive_validate_transaction : Source → Xt → W → Validity;
  Executive_offchain_worker : Header → W → option unit;
}.

(** As it documents: a block is executed by initializing it, applying its extrinsics in order,
    and finalizing it; the header that results has to be that of the block, which is
    left out here. *)
Fixpoint apply_all `{EX : Executive W Header Xt R So V} (xs : list Xt) (w : W) : option W :=
  match xs with
  | [] => Some w
  | x :: xs => '(_, w) ← Executive_apply_extrinsic x w; apply_all xs w
  end.
Class ExecutiveLaws `{EX : Executive W Header Xt R So V} : Prop :=
  execute_block_steps h xs w :
    Executive_execute_block (h, xs) w =
      (w ← Executive_initialize_block h w; w ← apply_all xs w;
       '(_, w) ← Executive_finalize_block w; Some w).

(** The pallets and the macros of Substrate and Frontier. *)
Record Substrate (W Xt Check Hash Metadata KeyTypeId EVMAccount Status EthBlock Receipt
    DispatchInfo FeeDetails : Type) := {
  Runtime_metadata : Metadata;
  check_extrinsics : InherentData → list Xt → W → Check;
  RandomnessCollectiveFlip_random_seed : W → Hash;
  SessionKeys_decode_into_raw_public_keys : list Z → option (list (list Z * KeyTypeId));
  SessionKeys_generate : option (list Z) → list Z;
  System_account_nonce : W → AccountId → Z;
  EVM_account_basic : W → AccountId → EVMAccount;
  EVM_account_codes : W → AccountId → list Z;
  unit_min_gas_price : Z;
  Ethereum_find_author : (list (list Z * list Z) → option AccountId) → W → AccountId;
  Ethereum_current_transaction_statuses : W → option (list Status);
  Ethereum_current_block : W → option EthBlock;
  Ethereum_current_receipts : W → option (list Receipt);
  TransactionPayment_query_info : W → Xt → Z → DispatchInfo;
  TransactionPayment_query_fee_details : W → Xt → Z → FeeDetails;
}.
Arguments Runtime_metadata {_ _ _ _ _ _ _ _ _ _ _ _} _.
Arguments check_extrinsics {_ _ _ _ _ _ _ _ _ _ _ _} _ _ _ _.
Arguments RandomnessCollectiveFlip_random_seed {_ _ _ _ _ _ _ _ _ _ _ _} _ _.
Arguments SessionKeys_decode_into_raw_public_keys {_ _ _ _ _ _ _ _ _ _ _ _} _ _.
Arguments SessionKeys_generate {_ _ _ _ _ _ _ _ _ _ _ _} _ _.
Arguments System_account_nonce {_ _ _ _ _ _ _ _ _ _ _ _} _ _ _.
Arguments EVM_account_basic {_ _ _ _ _ _ _ _ _ _ _ _} _ _ _.
Arguments EVM_account_codes {_ _ _ _ _ _ _ _ _ _ _ _} _ _ _.
Arguments unit_min_gas_price {_ _ _ _ _ _ _ _ _ _ _ _} _.
Arguments Ethereum_find_author {_ _ _ _ _ _ _ _ _ _ _ _} _ _ _.
Arguments Ethereum_current_transaction_statuses {_ _ _ _ _ _ _ _ _ _ _ _} _ _.
Arguments Ethereum_current_block {_ _ _ _ _ _ _ _ _ _ _ _} _ _.
Arguments Ethereum_current_receipts {_ _ _ _ _ _ _ _ _ _ _ _} _ _.
Arguments TransactionPayment_query_info {_ _ _ _ _ _ _ _ _ _ _ _} _ _ _ _.
Arguments TransactionPayment_query_fee_details {_ _ _ _ _ _ _ _ _ _ _ _} _ _ _ _.

(** ** The APIs *)

Section apis.
Context {Cur Header Xt R So V Check Hash Metadata KeyTypeId EVMAccount Status EthBlock : Type}.
Context {Receipt DispatchInfo FeeDetails Tx : Type}.
Context `{PO : PerbillOps, FW : FrameWeights, AC : AccountCodec}.
Local Notation W := (AuthorInherent.World (Host Cur)).
Context {EX : Executive W Header Xt R So V}.
Context (S : Substrate W Xt Check Hash Metadata KeyTypeId EVMAccount Status EthBlock Receipt
  DispatchInfo FeeDetails).
(** What the third-party pallets make of the inherent data, and the two views of an
    extrinsic. *)
Context (timestamp_create system_create : InherentData → option Z).
Context (of_inherent : Inherent → Xt) (function : Xt → RuntimeCall Tx).

(** [sp_api::Core] *)
Definition Core_version : RuntimeVersion := VERSION.
Definition Core_execute_block (block : Header * list Xt) : W → option W :=
  Executive_execute_block block.
Definition Core_initialize_block (header : Header) : W → option W :=
  Executive_initialize_block header.

(** [sp_api::Metadata] *)
Definition Metadata_metadata : Metadata := Runtime_metadata S.

(** [sp_block_builder::BlockBuilder] *)
Definition BlockBuilder_apply_extrinsic (extrinsic : Xt) : W → option (R * W) :=
  Executive_apply_extrinsic extrinsic.
Definition BlockBuilder_finalize_block : W → option (Header * W) := Executive_finalize_block.
Definition BlockBuilder_inherent_extrinsics (data : InherentData) : option (list Xt) :=
  fmap (M := list) of_inherent <$>
    create_extrinsics timestamp_create system_create construct_runtime data.
Definition BlockBuilder_check_inherents (block : Header * list Xt) (data : InherentData) (w : W) :
    Check :=
  check_extrinsics S data block.2 w.
Definition BlockBuilder_random_seed (w : W) : Hash := RandomnessCollectiveFlip_random_seed S w.

(** [TaggedTransactionQueue], [OffchainWorkerApi], [SessionKeys], [AccountNonceApi] *)
Definition Queue_validate_transaction (source : So) (tx : Xt) : W → V :=
  Executive_validate_transaction source tx.
Definition Offchain_offchain_worker (header : Header) : W → option unit :=
  Executive_offchain_worker header.
Definition SessionKeys_decode_session_keys (encoded : list Z) :
    option (list (list Z * KeyTypeId)) :=
  SessionKeys_decode_into_raw_public_keys S encoded.
Definition SessionKeys_generate_session_keys (seed : option (list Z)) : list Z :=
  SessionKeys_generate S seed.
Definition AccountNonce_account_nonce (account : AccountId) (w : W) : Z :=
  System_account_nonce S w account.

(** [TxPoolRuntimeApi] *)
Definition TxPool_extrinsic_filter (xts : list Xt) : list Tx :=
  extrinsic_filter (function <$> xts).

(** [EthereumRuntimeRPCApi], but for [chain_id], [storage_at], [call], [create] and
    [current_all], which are in [RuntimeApi.v]. The author is found by the configured
    [FindAuthor], the author inherent; the calculator of the gas price is the unit type. *)
Definition Ethereum_account_basic (address : AccountId) (w : W) : EVMAccount :=
  EVM_account_basic S w address.
Definition Ethereum_gas_price : Z := unit_min_gas_price S.
Definition Ethereum_account_code_at (address : AccountId) (w : W) : list Z :=
  EVM_account_codes S w address.
Definition Ethereum_author (w : W) : AccountId :=
  Ethereum_find_author S (AuthorInherent.find_author w) w.
Definition current_transaction_statuses (w : W) : option (list Status) :=
  Ethereum_current_transaction_statuses S w.
Definition current_block (w : W) : option EthBlock := Ethereum_current_block S w.
Definition current_receipts (w : W) : option (list Receipt) := Ethereum_current_receipts S w.
Definition current_block_gas_limit : Z := BlockGasLimit.

(** [TransactionPaymentApi] *)
Definition Payment_query_info (uxt : Xt) (len : Z) (w : W) : DispatchInfo :=
  TransactionPayment_query_info S w uxt len.
Definition Payment_query_fee_details (uxt : Xt) (len : Z) (w : W) : FeeDetails :=
  TransactionPayment_query_fee_details S w uxt len.

(** [current_all] is the three others together. *)
Lemma current_all_agrees w :
  current_all (Ethereum_current_block S w) (Ethereum_current_receipts S w)
    (Ethereum_current_transaction_statuses S w) =
  (current_block w, current_receipts w, current_transaction_statuses w).
Proof. done. Qed.
End apis.

(** ** The executive of the modelled blocks *)

Section blocks.
Context {Origin Cur : Type}.
Context `{FO : FrameOrigin Origin, MO : MonetaryPolicyOrigin Origin, CU : Currency Cur}.
Context `{PO : PerbillOps, US : UnstableSort, IO : IterationOrder, SC : StakeConfig}.
Context `{PC : PercentOps, RS : RandomnessSource, AC : AccountCodec}.
Context (none : Origin) (n : Z).
Local Notation W := (AuthorInherent.World (Host Cur)).
Local Notation E := (DispatchError AuthorInherent.Error).
Local Notation Xt := (Inherent + Extrinsic Origin Cur)%type.

Definition valid {A} (o : Outcome W E A) : option W :=
  match o with Done _ w => Some w | _ => None end.

Definition apply_xt (x : Xt) : Prog W E unit :=
  match x with inl i => apply_inherent none i | inr x => apply_extrinsic x end.

(** Block number [n]: initialize, apply, finalize. *)
#[local] Instance block_executive : Executive W unit Xt unit unit unit := {
  Executive_execute_block b w :=
    valid ((initialize_block;; for_each b.2 apply_xt;; finalize_block n) w);
  Executive_initialize_block _ w := valid (initialize_block w);
  Executive_apply_extrinsic x w := (tt,.) <$> valid (apply_xt x w);
  Executive_finalize_block w := (tt,.) <$> valid (finalize_block n w);
  Executive_validate_transaction _ _ _ := tt;
  Executive_offchain_worker _ _ := Some tt;
}.

Lemma valid_bind {A} (m : Prog W E A) (k : Prog W E unit) w :
  valid ((m;; k) w) = valid (m w) ≫= λ w, valid (k w).
Proof. unfold mbind, Prog_bind. by destruct (m w). Qed.

Lemma apply_all_for_each xs w : apply_all xs w = valid (for_each xs apply_xt w).
Proof.
  revert w. induction xs as [|x xs IH]; intros w; [done|].
  cbn [apply_all for_each]. rewrite valid_bind. cbn [Executive_apply_extrinsic block_executive].
  destruct (valid (apply_xt x w)) as [w'|]; [apply IH|done].
Qed.

#[local] Instance block_executive_laws : ExecutiveLaws (EX := block_executive).
Proof.
  intros h xs w. cbn [Executive_execute_block block_executive snd]. rewrite !valid_bind.
  cbn [Executive_initialize_block block_executive].
  destruct (valid (initialize_block w)) as [w1|]; cbn [mbind option_bind]; [|done].
  rewrite valid_bind, apply_all_for_each.
  destruct (valid (for_each xs apply_xt w1)) as [w2|]; cbn [mbind option_bind]; [|done].
  cbn [Executive_finalize_block block_executive]. by destruct (valid _).
Qed.

Lemma for_each_map {X Y} (f : X → Y) (body : Y → Prog W E unit) l w :
  for_each (f <$> l) body w = for_each l (λ x, body (f x)) w.
Proof.
  revert w. induction l as [|x l IH]; intros w; [done|].
  cbn [fmap list_fmap for_each]. unfold mbind, Prog_bind. destruct (body (f x) w); [apply IH|done..].
Qed.

(** A block that is built by the APIs of the block builder, from the inherents of the runtime
    and any extrinsics, is the block that [Core_execute_block] executes, and both are
    [execute_block] of [Block.v]. *)
Lemma api_builds_what_it_executes timestamp_create system_create data l xs w :
  create_extrinsics timestamp_create system_create construct_runtime data = Some l →
  let of_inherent : Inherent → Xt := inl in
  let ys := (of_inherent <$> l) ++ (inr <$> xs) in
  BlockBuilder_inherent_extrinsics timestamp_create system_create of_inherent data =
    Some (of_inherent <$> l) ∧
  Core_execute_block (tt, ys) w =
    (w ← Core_initialize_block tt w; w ← apply_all ys w;
     '(_, w) ← BlockBuilder_finalize_block w; Some w) ∧
  Core_execute_block (tt, ys) w = valid (execute_block none n l xs w).
Proof.
  intros Hl of_inherent ys. split; [|split].
  - unfold BlockBuilder_inherent_extrinsics. by rewrite Hl.
  - apply (execute_block_steps (EX := block_executive)).
  - unfold Core_execute_block. cbn [Executive_execute_block block_executive snd].
    unfold execute_block, block_body. rewrite !valid_bind.
    destruct (valid (initialize_block w)) as [w1|]; cbn [mbind option_bind]; [|done].
    rewrite !valid_bind. unfold ys. rewrite for_each_app, valid_bind, for_each_map.
    cbn [apply_xt]. destruct (valid (for_each l _ w1)) as [w2|]; cbn [mbind option_bind]; [|done].
    by rewrite for_each_map.
Qed.
End blocks.

(** The gas limit of a block is fifteen million, with the weights of this version of FRAME. *)
Lemma block_gas_limit `{FW : FrameWeights, FL : !FrameWeightsLaws} :
  current_block_gas_limit (PO := Reference.perbill_nearest) = 15000000.
Proof.
  unfold current_block_gas_limit, BlockGasLimit, MAXIMUM_BLOCK_WEIGHT, WEIGHT_PER_GAS.
  rewrite weight_per_second. by vm_compute.
Qed.
