(* ===== verification/Chain.v ===== *)
(** * Blocks in sequence

    The chain that grows on a genesis by accepted blocks. A block may contain any inherents
    and any extrinsics; what a block that is accepted does to the stake pallet is a list of
    calls, exactly one author in between, and the end of the block ([block_effect]). *)

From S2P Require Import Prelude OrderedSet Frame StakeTypes BondMap Inflation Stake StakeLogic.
From S2P Require Import Registry Rounds AuthorInherent AuthorFilter Runtime Block.

Section chain.
Context {Origin Cur : Type}.
Context `{FO : FrameOrigin Origin, MO : MonetaryPolicyOrigin Origin, CU : Currency Cur}.
Context `{PO : PerbillOps, US : UnstableSort, IO : IterationOrder, SC : StakeConfig}.
Context `{PC : PercentOps, RS : RandomnessSource, AC : AccountCodec}.
Context (none : Origin).
Local Notation BlockWorld := (AuthorInherent.World (Host Cur)).
Local Notation stake_of w := (stake (AuthorInherent.host w)).
Implicit Types (w : BlockWorld) (s : World Cur) (authors : list AccountId).

(** ** What extrinsics do to the stake pallet *)

(** [P] says which extrinsics are considered, in which worlds of the pallet. *)
Context (P : Extrinsic Origin Cur → World Cur → Prop).

Inductive call_step s : World Cur → Prop :=
| call_done origin call s' :
    P (StakeCall origin call) s → dispatch origin call s = Done tt s' → call_step s s'
| call_failed origin call e s' :
    P (StakeCall origin call) s → dispatch origin call s = Failed e s' → call_step s s'
| call_other f : P (OtherCall f) s → call_step s (set_currency (f (currency s)) s).

(** What the pallet has been told since [s]: calls, and the author, once there is one. *)
Inductive credited s : option AccountId → World Cur → Prop :=
| not_yet s1 : rtc call_step s s1 → credited s None s1
| noted a s1 s2 s3 :
    rtc call_step s s1 → a ∈ Validators s1 → Stake.note_author a s1 = Done tt s2 →
    rtc call_step s2 s3 → credited s (Some a) s3.

Definition in_block s w : Prop := credited s (AuthorInherent.Author w) (stake_of w).

(** [P] holds of each extrinsic when its turn comes. *)
Fixpoint all_along (xs : list (Extrinsic Origin Cur)) w : Prop :=
  match xs with
  | [] => True
  | x :: xs =>
      P x (stake_of w) ∧
      match apply_extrinsic x w with Done _ w' => all_along xs w' | _ => True end
  end.

Definition allowed (inherents : list Inherent) (xs : list (Extrinsic Origin Cur)) w : Prop :=
  match (initialize_block;; for_each inherents (apply_inherent none)) w with
  | Done _ w' => all_along xs w'
  | _ => True
  end.

Lemma always_allowed inherents xs w :
  (∀ x s, x ∈ xs → P x s) → allowed inherents xs w.
Proof.
  intros HP. unfold allowed. case_match; [|done..]. clear -HP. revert w0.
  induction xs as [|x xs IH]; intros w; cbn [all_along]; [done|].
  split; [apply HP; by left|]. case_match; [|done..]. apply IH. intros y s Hy. apply HP. by right.
Qed.

(** The block number [n + 1] on a chain of [n] blocks; the last author comes first. *)
Inductive chain_of (w0 : BlockWorld) : list AccountId → BlockWorld → Prop :=
| chain_start : chain_of w0 [] w0
| chain_block authors w inherents xs w' a :
    chain_of w0 authors w → allowed inherents xs w →
    execute_block none (Z.of_nat (S (length authors))) inherents xs w = Done tt w' →
    AuthorInherent.find_author w' [] = Some a →
    chain_of w0 (a :: authors) w'.

(** ** The effect of a block *)

Lemma credited_call s o s1 s2 : credited s o s1 → call_step s1 s2 → credited s o s2.
Proof.
  intros [s3 H|a s3 s4 s5 H1 Ha Hn H2] Hst; [constructor|econstructor]; eauto using rtc_r.
Qed.

Lemma set_author_credited s origin a w :
  in_block s w →
  wp (runtime_set_author origin a)
    (λ o, match o with Done _ w' | Failed _ w' => in_block s w' | Panicked => True end) w.
Proof.
  intros Hw. eapply wp_mono; [|apply (@set_author_outcome Origin (Host Cur) FO Stake_EventHandler
    FinalCanAuthor AC origin a w)].
  intros [u w'|e w'|]; [| |done].
  - intros (_ & HA & Hc & h & Hn & ->). unfold in_block in *. rewrite HA in Hw.
    unfold can_author, FinalCanAuthor in Hc. apply eligible_member in Hc.
    unfold AuthorInherent.note_author, Stake_EventHandler in Hn.
    destruct (Stake.note_author a (stake_of w)) as [[] s2|?|?] eqn:E; [|done..].
    injection Hn as <-. cbn. inversion Hw; subst. by econstructor; [..|apply rtc_refl].
  - by intros [-> _].
Qed.

Lemma inherent_credited s i w :
  in_block s w →
  wp (apply_inherent none i)
    (λ o, match o with Done _ w' => in_block s w' | _ => True end) w.
Proof.
  intros Hw. destruct i as [t|height|[a]]; cbn [apply_inherent]; [done|done|].
  eapply wp_mono; [|by apply set_author_credited]. by intros [].
Qed.

Lemma extrinsic_credited s x w :
  P x (stake_of w) → in_block s w →
  wp (apply_extrinsic x)
    (λ o, match o with Done _ w' => in_block s w' | _ => True end) w.
Proof.
  intros Hx Hw. destruct x as [origin call|origin new|origin b|f];
    unfold wp; cbn [apply_extrinsic].
  - destruct (dispatch origin call (stake_of w)) as [[] s'|e s'|] eqn:E; cbn [applied]; [..|done];
      (eapply credited_call; [exact Hw|]); [by eapply call_done|by eapply call_failed].
  - by destruct (AuthorFilter.set_eligible origin new _) as [? ?|? ?|].
  - pose proof (set_author_credited s origin b w Hw) as H. unfold wp in H.
    by destruct (runtime_set_author origin b w).
  - eapply credited_call; [exact Hw|]. by apply call_other.
Qed.

Lemma extrinsics_credited s xs w :
  all_along xs w → in_block s w →
  wp (for_each xs apply_extrinsic)
    (λ o, match o with Done _ w' => in_block s w' | _ => True end) w.
Proof.
  revert w. induction xs as [|x xs IH]; intros w; cbn [all_along for_each]; [done|].
  intros [Hx Hxs] Hw. apply wp_bind. pose proof (extrinsic_credited s x w Hx Hw) as H.
  unfold wp in *. destruct (apply_extrinsic x w) as [[] w'|?|?]; cbn [bind_post]; [|done..].
  by apply IH.
Qed.

Lemma body_effect inherents xs w :
  allowed inherents xs w →
  wp (block_body none inherents xs)
    (λ o, match o with Done _ w' => in_block (stake_of w) w' | _ => True end) w.
Proof.
  unfold allowed, block_body. intros Hxs.
  assert (wp (for_each inherents (apply_inherent none))
    (λ o, match o with Done _ w' => in_block (stake_of w) w' | _ => True end) (started w)) as H.
  { apply (wp_for_each (in_block (stake_of w))); [by constructor| |done].
    intros i w' _ Hw'. eapply wp_mono; [|by apply inherent_credited]. by intros []. }
  unfold wp, mbind, Prog_bind in *. rewrite initialize_block_runs in Hxs |- *.
  destruct (for_each inherents (apply_inherent none) (started w)) as [u w1|?|?]; [|done..].
  by apply (extrinsics_credited (stake_of w) xs w1).
Qed.

(** The end of the block. *)
Lemma finalize_effect n w w' :
  finalize_block n w = Done tt w' →
  ∃ a, AuthorInherent.Author w = Some a ∧ AuthorInherent.Author w' = Some a ∧
    on_finalize n (stake_of w) = Done tt (stake_of w').
Proof.
  unfold finalize_block, runtime_on_finalize, Stake_on_finalize. cbv zeta.
  destruct (on_finalize n (stake_of w)) as [[] s|?|?]; [|done..]. cbn [mbind option_bind].
  unfold AuthorInherent_on_finalize, AuthorInherent.on_finalize, mbind, Prog_bind, gets, assert.
  cbn [AuthorInherent.Author]. destruct (AuthorInherent.Author w) as [a|]; [|done].
  cbn. intros [= <-]. by exists a.
Qed.

(** A block that is accepted: calls, its author, who is a validator, calls, the end. *)
Lemma block_effect n inherents xs w w' :
  allowed inherents xs w → execute_block none n inherents xs w = Done tt w' →
  ∃ a s, AuthorInherent.Author w' = Some a ∧ credited (stake_of w) (Some a) s ∧
    on_finalize n s = Done tt (stake_of w').
Proof.
  intros Hx. pose proof (body_effect inherents xs w Hx) as H.
  unfold execute_block, wp, mbind, Prog_bind in *.
  destruct (block_body none inherents xs w) as [[] w1|?|?]; [|done..]. intros E.
  destruct (finalize_effect n w1 w' E) as (a & Ha & Ha' & Ef).
  exists a, (stake_of w1). unfold in_block in H. rewrite Ha in H. done.
Qed.

(** An invariant of the pallet and of who made the blocks. *)
Lemma chain_invariant (I : list AccountId → World Cur → Prop) w0 authors w :
  I [] (stake_of w0) →
  (∀ l s a s1 s', I l s → credited s (Some a) s1 →
    on_finalize (Z.of_nat (S (length l))) s1 = Done tt s' → I (a :: l) s') →
  chain_of w0 authors w → I authors (stake_of w).
Proof.
  intros H0 Hstep. induction 1 as [|authors w inherents xs w' a _ IH Hx E Ha]; [done|].
  destruct (block_effect _ inherents xs w w' Hx E) as (b & s & Hb & Hc & Ef).
  assert (b = a) as -> by (unfold AuthorInherent.find_author in Ha; congruence).
  by eapply Hstep.
Qed.

(** A relation that every step of a block satisfies leads along the chain. *)
Lemma credited_steps (R : World Cur → World Cur → Prop) s o s' :
  (∀ s1 s2, call_step s1 s2 → R s1 s2) →
  (∀ a s1 s2, Stake.note_author a s1 = Done tt s2 → R s1 s2) →
  credited s o s' → rtc R s s'.
Proof.
  intros Hcall Hnote. assert (∀ s1 s2, rtc call_step s1 s2 → rtc R s1 s2) as Hc.
  { intros s1 s2. by apply rtc_congruence with (f := id). }
  intros [s1 H|a s1 s2 s3 H1 _ Hn H2]; [by apply Hc|].
  trans s1; [by apply Hc|]. eapply rtc_l; [by eapply Hnote|by apply Hc].
Qed.

Lemma chain_steps (R : World Cur → World Cur → Prop) w0 authors w :
  (∀ s1 s2, call_step s1 s2 → R s1 s2) →
  (∀ a s1 s2, Stake.note_author a s1 = Done tt s2 → R s1 s2) →
  (∀ n s1 s2, on_finalize n s1 = Done tt s2 → R s1 s2) →
  chain_of w0 authors w → rtc R (stake_of w0) (stake_of w).
Proof.
  intros Hcall Hnote Hfin. apply (chain_invariant (λ _, rtc R (stake_of w0))); [done|].
  intros l s a s1 s' Hs Hc Ef. trans s; [done|].
  eapply rtc_r; [by eapply credited_steps|by eapply Hfin].
Qed.

Lemma call_step_chain s s' : call_step s s' → chain_step s s'.
Proof. intros [origin call s2 _ E|origin call e s2 _ E|f _]; by econstructor. Qed.

Lemma chain_of_reachable w0 authors w :
  chain_of w0 authors w → rtc chain_step (stake_of w0) (stake_of w).
Proof.
  apply chain_steps; [apply call_step_chain|..]; intros; by econstructor.
Qed.

(** ** The eligible ratio *)

Local Notation ratio_of w := (AuthorFilter.EligibleRatio (filter_world (AuthorInherent.host w))).

Lemma set_author_ratio origin a w :
  wp (runtime_set_author origin a)
    (λ o, match o with Done _ w' | Failed _ w' => ratio_of w' = ratio_of w | _ => True end) w.
Proof.
  eapply wp_mono; [|apply (@set_author_outcome Origin (Host Cur) FO Stake_EventHandler
    FinalCanAuthor AC origin a w)].
  intros [u w'|e w'|]; [|by intros [-> _]|done]. intros (_ & _ & _ & h & Hn & ->).
  unfold AuthorInherent.note_author, Stake_EventHandler in Hn.
  destruct (Stake.note_author a (stake_of w)); [|done..]. by injection Hn as <-.
Qed.

Section ratio.
(** [I] holds of every ratio that root sets. *)
Context (I : Z → Prop) (HI : ∀ origin new s,
  P (FilterCall origin new) s → ensure_root origin = true → I new).

Lemma extrinsics_ratio xs w :
  all_along xs w → I (ratio_of w) →
  wp (for_each xs apply_extrinsic) (λ o, match o with Done _ w' => I (ratio_of w') | _ => True end) w.
Proof using HI.
  revert w. induction xs as [|x xs IH]; intros w; cbn [all_along for_each]; [done|].
  intros [Hx Hxs] Hw. apply wp_bind.
  assert (wp (apply_extrinsic x) (λ o, match o with Done _ w' => I (ratio_of w') | _ => True end) w)
    as H.
  { destruct x as [origin call|origin new|origin b|f]; unfold wp; cbn [apply_extrinsic].
    - by destruct (dispatch origin call (stake_of w)).
    - unfold AuthorFilter.set_eligible, ensure. destruct (ensure_root origin) eqn:E; [|done].
      cbn. by apply (HI origin new (stake_of w)).
    - pose proof (set_author_ratio origin b w) as H. unfold wp in H.
      destruct (runtime_set_author origin b w); cbn; [by rewrite H..|done].
    - done. }
  unfold wp in *. destruct (apply_extrinsic x w) as [[] w'|?|?]; cbn [bind_post]; [|done..].
  by apply IH.
Qed.

(** It holds along the chain if it does at its start. *)
Lemma chain_ratio w0 authors w : I (ratio_of w0) → chain_of w0 authors w → I (ratio_of w).
Proof using HI.
  intros H0. induction 1 as [|authors w inherents xs w' a _ IH Hx E _]; [done|].
  assert (wp (initialize_block;; for_each inherents (apply_inherent none))
    (λ o, match o with Done _ w' => I (ratio_of w') | _ => True end) w) as Hi.
  { apply wp_bind, wp_initialize_block. cbn [bind_post]. apply (wp_for_each (λ w, I (ratio_of w))); [exact IH| |done].
    intros [t|height|[b]] w1 _ Hw1; cbn [apply_inherent]; [exact Hw1|exact Hw1|].
    eapply wp_mono; [|apply set_author_ratio]. by intros [u w2|e w2|]; [intros ->|..]. }
  unfold allowed in Hx. unfold execute_block, block_body in E. revert Hx Hi E.
  unfold wp, mbind, Prog_bind. rewrite initialize_block_runs.
  destruct (for_each inherents (apply_inherent none) (started w)) as [u w2|?|?]; [|done..].
  intros Hx Hi. pose proof (extrinsics_ratio xs w2 Hx Hi) as H. unfold wp in H.
  destruct (for_each xs apply_extrinsic w2) as [[] w3|?|?]; [|done..].
  unfold finalize_block, runtime_on_finalize, Stake_on_finalize. cbv zeta.
  destruct (on_finalize _ (stake_of w3)) as [[] s|?|?]; [|done..]. cbn [mbind option_bind].
  unfold AuthorInherent_on_finalize, AuthorInherent.on_finalize, mbind, Prog_bind, gets, assert.
  cbn [AuthorInherent.Author]. destruct (AuthorInherent.Author w3); [|done].
  cbn. by intros [= <-].
Qed.
End ratio.

(** ** What the calls of a block leave alone *)

Definition same_items s s' : Prop :=
  Round s' = Round s ∧ Validators s' = Validators s ∧ AtStake s' = AtStake s ∧
  Points s' = Points s ∧ AwardedPts s' = AwardedPts s.

#[export] Instance same_items_preorder : PreOrder same_items.
Proof. split; [by intros s|]. unfold same_items. intros s1 s2 s3. intuition congruence. Qed.

Lemma call_step_items s s' : call_step s s' → same_items s s'.
Proof.
  intros [origin call s2 _ E|origin call e s2 _ E|f _]; [..|done];
    pose proof (dispatch_rounds origin call s) as H; unfold wp in H; rewrite E in H;
    by destruct H as (_ & ? & ? & ? & _ & ? & ?).
Qed.

Lemma calls_items s s' : rtc call_step s s' → same_items s s'.
Proof.
  induction 1 as [|s1 s2 s3 Hst _ IH]; [done|]. etransitivity; [by apply call_step_items|done].
Qed.

(** The one author of a block gets its points; nothing else of the rounds changes. *)
Lemma credited_items s a s' :
  credited s (Some a) s' →
  a ∈ Validators s ∧ Round s' = Round s ∧ Validators s' = Validators s ∧
  AtStake s' = AtStake s ∧
  AwardedPts s' = <[(Round s, a):=get_or 0 (AwardedPts s) (Round s, a) ⊞ 20]> (AwardedPts s) ∧
  Points s' = <[Round s:=get_or 0 (Points s) (Round s) ⊞ 20]> (Points s).
Proof.
  intros H. inversion H as [|b s1 s2 s3 H1 Ha Hn H2]; subst.
  apply calls_items in H1 as (R1 & V1 & A1 & P1 & W1), H2 as (R2 & V2 & A2 & P2 & W2).
  unfold Stake.note_author in Hn. cbn in Hn. injection Hn as <-. revert R2 V2 A2 P2 W2. wsimpl.
  rewrite V1 in Ha. intros -> -> -> -> ->. by rewrite R1, V1, A1, P1, W1.
Qed.
End chain.
