(* ===== verification/ChainPoints.v ===== *)
(** * Points along a chain of blocks

    The rounds and the points of the stake pallet, as functions of who made which block. *)

From S2P Require Import Prelude OrderedSet Frame StakeTypes BondMap Inflation Stake StakeLogic.
From S2P Require Import Registry Rounds Payouts PayoutBound RoundTheorems.
From S2P Require Import AuthorInherent AuthorFilter Runtime Block Chain.

(** ** Counting blocks *)

Section counting.
Context `{SC : StakeConfig}.
Context {CF : StakeConfigLaws}.

Lemma blocks_pos : 0 < BlocksPerRound.
Proof using CF. apply rounds_fit. Qed.
Lemma blocks_nonzero : BlocksPerRound ≠ 0.
Proof using CF. pose proof blocks_pos. lia. Qed.

(** The round in which the block after [n] blocks is made; blocks are numbered from 1, and
    the block whose number is a multiple of [BlocksPerRound] ends the round. *)
Definition round_of (n : nat) : RoundIndex := 1 + Z.of_nat n / BlocksPerRound.

(** How many blocks of the round [r] have an author that satisfies [p]. *)
Fixpoint blocks_by (p : AccountId → bool) (r : RoundIndex) (authors : list AccountId) : Z :=
  match authors with
  | [] => 0
  | a :: authors =>
      (if (round_of (length authors) =? r) && p a then 1 else 0) + blocks_by p r authors
  end.
Definition anyone (_ : AccountId) : bool := true.

Lemma blocks_by_range p r l : 0 <= blocks_by p r l <= blocks_by anyone r l.
Proof.
  induction l as [|a l IH]; cbn [blocks_by]; [done|].
  unfold anyone at 1. destruct (round_of _ =? r), (p a); cbn; lia.
Qed.

(** All blocks of a round together: those that fit in it. *)
Lemma blocks_in_round r l :
  1 <= r →
  blocks_by anyone r l =
    0 `max` (BlocksPerRound `min` (Z.of_nat (length l) - (r - 1) * BlocksPerRound)).
Proof using CF.
  intros Hr. pose proof rounds_fit as Hb.
  induction l as [|a l IH]; cbn [blocks_by length]; [nia|].
  rewrite IH, Nat2Z.inj_succ. set (n := Z.of_nat (length l)) in *. unfold round_of, anyone. fold n.
  pose proof (Z.div_mod n _ blocks_nonzero) as Hd.
  pose proof (Z.mod_pos_bound n _ blocks_pos) as Hm.
  set (q := n / BlocksPerRound) in *. set (m := n mod BlocksPerRound) in *.
  destruct (Z.eqb_spec (1 + q) r) as [<-|Hne]; cbn [andb].
  - replace ((1 + q - 1) * BlocksPerRound) with (BlocksPerRound * q) by lia. lia.
  - assert (r - 1 < q ∨ q < r - 1) as [Hlt|Hlt] by lia.
    + assert ((r - 1) * BlocksPerRound + BlocksPerRound <= n) by nia. lia.
    + assert (n + 1 <= (r - 1) * BlocksPerRound) by nia. lia.
Qed.

Lemma blocks_bounds p r l : 1 <= r → 0 <= blocks_by p r l <= BlocksPerRound.
Proof using CF.
  intros Hr. pose proof (blocks_by_range p r l) as H. rewrite blocks_in_round in H by done.
  pose proof rounds_fit. lia.
Qed.

(** The current round is not full yet. *)
Lemma blocks_current p l :
  blocks_by p (round_of (length l)) l < BlocksPerRound.
Proof using CF.
  pose proof rounds_fit as Hb. pose proof (blocks_by_range p (round_of (length l)) l) as H.
  rewrite blocks_in_round in H; unfold round_of in *.
  - pose proof (Z.div_mod (Z.of_nat (length l)) _ blocks_nonzero).
    pose proof (Z.mod_pos_bound (Z.of_nat (length l)) _ blocks_pos). nia.
  - pose proof (Z.div_pos (Z.of_nat (length l)) _ ltac:(lia) blocks_pos). lia.
Qed.

(** The rounds that are past are full. *)
Lemma blocks_past r l :
  1 <= r < round_of (length l) → blocks_by anyone r l = BlocksPerRound.
Proof using CF.
  intros [Hr Hlt]. pose proof rounds_fit as Hb. rewrite blocks_in_round by done.
  unfold round_of in Hlt.
  pose proof (Z.mul_div_le (Z.of_nat (length l)) _ blocks_pos). nia.
Qed.

Lemma blocks_future p r l : round_of (length l) < r → blocks_by p r l = 0.
Proof using CF.
  intros Hlt. pose proof rounds_fit as Hb. unfold round_of in Hlt.
  pose proof (Z.div_pos (Z.of_nat (length l)) _ ltac:(lia) blocks_pos).
  pose proof (blocks_by_range p r l) as Hr. rewrite blocks_in_round in Hr by lia.
  pose proof (Z.mod_pos_bound (Z.of_nat (length l)) _ blocks_pos).
  pose proof (Z.div_mod (Z.of_nat (length l)) _ blocks_nonzero). nia.
Qed.

Lemma round_of_next n :
  round_of (S n) = if Z.of_nat (S n) mod BlocksPerRound =? 0 then round_of n + 1 else round_of n.
Proof using CF.
  pose proof rounds_fit as Hb. unfold round_of. rewrite Nat2Z.inj_succ.
  set (k := Z.of_nat n). pose proof (Z.div_mod k _ blocks_nonzero) as Hk.
  pose proof (Z.mod_pos_bound k _ blocks_pos) as Hm.
  unfold Z.succ. destruct (Z.eqb_spec ((k + 1) mod BlocksPerRound) 0) as [E|E].
  - apply Z.mod_divide in E as [j Hj]; [|lia].
    rewrite Hj, Z.div_mul by lia. nia.
  - assert (k mod BlocksPerRound + 1 ≠ BlocksPerRound) as Hn.
    { intros E1. apply E. rewrite Hk at 1.
      replace (BlocksPerRound * (k / BlocksPerRound) + k mod BlocksPerRound + 1)
        with ((k / BlocksPerRound + 1) * BlocksPerRound) by lia. by apply Z.mod_mul; lia. }
    f_equal. symmetry. apply (Z.div_unique _ _ _ (k mod BlocksPerRound + 1)); lia.
Qed.

Lemma round_of_pos n : 1 <= round_of n.
Proof using CF.
  pose proof rounds_fit. unfold round_of.
  pose proof (Z.div_pos (Z.of_nat n) _ ltac:(lia) blocks_pos). lia.
Qed.
End counting.

Lemma get_or_filter (m : gmap (Z * Z) Z) r0 r a :
  get_or 0 (filter (λ kv : Z * Z * Z, kv.1.1 ≠ r0) m) (r, a) =
    if decide (r = r0) then 0 else get_or 0 m (r, a).
Proof.
  unfold get_or. rewrite map_lookup_filter. destruct (m !! (r, a)) as [x|]; cbn.
  - destruct (decide (r = r0)) as [->|Hne].
    + by rewrite option_guard_False by naive_solver.
    + by rewrite option_guard_True by done.
  - by case_decide.
Qed.

(** ** The rounds and the points of the pallet *)

Section points.
Context {Origin Cur : Type}.
Context `{FO : FrameOrigin Origin, MO : MonetaryPolicyOrigin Origin, CU : Currency Cur}.
Context `{PO : PerbillOps, US : UnstableSort, IO : IterationOrder, SC : StakeConfig}.
Context {SL : UnstableSortLaws} {CF : StakeConfigLaws}.
Context `{PC : PercentOps, RS : RandomnessSource, AC : AccountCodec}.
Context (none : Origin) (P : Extrinsic Origin Cur → World Cur → Prop).
Local Notation BlockWorld := (AuthorInherent.World (Host Cur)).
Local Notation stake_of w := (stake (AuthorInherent.host w)).
Implicit Types (w : BlockWorld) (s : World Cur) (l : list AccountId).

Definition this (a b : AccountId) : bool := b =? a.

(** What the storage says of the points of a round: those of its blocks, until it is paid. *)
Definition points_count (round : RoundIndex) s l : Prop :=
  (∀ r a, get_or 0 (AwardedPts s) (r, a) =
    if round <? r + BondDuration then 20 * blocks_by (this a) r l else 0) ∧
  (∀ r, get_or 0 (Points s) r = 20 * blocks_by anyone r l) ∧
  ∀ r, round < r + BondDuration →
    awarded_points (AwardedPts s) r = 20 * blocks_by anyone r l.

Hypothesis duration : 1 <= BondDuration < U32.
Hypothesis points_fit : 20 * BlocksPerRound < U32.

(** The author of a block is credited. *)
Lemma count_author l s a s' :
  Round s = round_of (length l) → credited P s (Some a) s' → points_count (Round s) s l →
  points_count (Round s) s' (a :: l).
Proof using CF duration points_fit.
  intros HR Hc (HW & HP & HS). unfold points_count. destruct (credited_items P s a s' Hc) as (_ & _ & _ & _ & -> & ->).
  assert (∀ p, 20 * blocks_by p (Round s) l + 20 < U32) as Hfit.
  { intros p. rewrite HR. pose proof (blocks_current p l). lia. }
  assert (∀ p, 0 <= blocks_by p (Round s) l) as Hnn.
  { intros p. pose proof (blocks_by_range p (Round s) l). lia. }
  assert (get_or 0 (AwardedPts s) (Round s, a) ⊞ 20 = get_or 0 (AwardedPts s) (Round s, a) + 20)
    as Hadd.
  { rewrite HW. specialize (Hfit (this a)). specialize (Hnn (this a)).
    destruct (_ <? _); apply u32_small; lia. }
  split_and!; [intros r b; unfold get_or at 1|intros r; unfold get_or at 1|intros r Hr];
    cbn [blocks_by]; rewrite <-HR, ?lookup_insert.
  - unfold this at 1. destruct (decide ((Round s, a) = (r, b))) as [[= <- <-]|Hne].
    + cbn [default]. unfold id. rewrite Hadd, HW, !Z.eqb_refl.
      destruct (Z.ltb_spec (Round s) (Round s + BondDuration)); [|lia]. cbn [andb]. lia.
    + fold (get_or 0 (AwardedPts s) (r, b)). rewrite HW.
      destruct (Z.eqb_spec (Round s) r) as [<-|], (Z.eqb_spec a b) as [<-|]; done.
  - unfold anyone at 1. destruct (decide (Round s = r)) as [<-|Hne].
    + cbn [default]. unfold id. rewrite HP, Z.eqb_refl. cbn [andb].
      rewrite u32_small; [lia|]. specialize (Hfit anyone). specialize (Hnn anyone). lia.
    + fold (get_or 0 (Points s) r). rewrite HP.
      destruct (Z.eqb_spec (Round s) r); [done|]. cbn [andb]. lia.
  - rewrite awarded_points_insert, Hadd, HS by done. unfold anyone at 2.
    destruct (Round s =? r); cbn [andb]; lia.
Qed.

(** The end of a round drops the points of the round that is paid. *)
Lemma count_round l s s' :
  Round s + 1 < U32 → 1 <= Round s → round_change s s' →
  points_count (Round s) s l → points_count (Round s + 1) s' l.
Proof using CF duration.
  intros Hlt H1 Hch (HW & HP & HS).
  assert (Round s' = Round s + 1) as HR.
  { rewrite (change_round _ _ Hch). apply u32_small. lia. }
  split_and!; [|by intros r; rewrite (change_points _ _ Hch)|].
  2: { intros r Hr. rewrite (change_awarded _ _ Hch), <-HS, HR by lia.
       destruct (Z.gtb_spec (Round s + 1) BondDuration); [|done].
       apply awarded_points_filter. rewrite u32_small; lia. }
  intros r a. rewrite (change_awarded _ _ Hch), HR.
  destruct (Z.gtb_spec (Round s + 1) BondDuration) as [Hgt|Hle].
  - rewrite get_or_filter, u32_small by lia. rewrite HW.
    repeat case_decide; repeat case_match; lia.
  - rewrite HW. destruct (decide (1 <= r)); [repeat case_match; lia|].
    assert (blocks_by (this a) r l = 0) as ->; [|by repeat case_match].
    assert (∀ k : list AccountId, blocks_by (this a) r k = 0) as H; [|done].
    intros k. induction k as [|b k IH]; cbn [blocks_by]; [done|]. rewrite IH.
    pose proof (round_of_pos (length k)). destruct (Z.eqb_spec (round_of (length k)) r); [lia|done].
Qed.

Lemma credited_pool s o s1 : pool_inv s → credited P s o s1 → pool_inv s1.
Proof using SL CF IO.
  intros Hp Hc. assert (rtc chain_step s s1) as Hr.
  { eapply credited_steps; [apply call_step_chain| |exact Hc]. intros. by econstructor. }
  clear -Hr Hp SL CF. induction Hr as [|s s' s2 Hst _ IH]; [done|].
  apply IH. by apply (chain_step_pool s s' rounds_fit).
Qed.

(** At genesis no points have been awarded. *)
Lemma genesis_points (signed_by : AccountId → Origin) config c stakers s :
  genesis_build signed_by stakers (empty_world config c) = Done tt s →
  pool_inv s ∧ Round s = 1 ∧ Points s = ∅ ∧ AwardedPts s = ∅ ∧
  Validators s = sort (top_candidates (CandidatePool s)).
Proof using SL PO MO.
  intros E. set (I := λ s : World Cur, pool_inv s ∧ Points s = ∅ ∧ AwardedPts s = ∅).
  assert (wp (genesis_build signed_by stakers)
    (λ o, match o with
          | Done _ s => I s ∧ Round s = 1 ∧ Validators s = sort (top_candidates (CandidatePool s))
          | _ => True end) (empty_world config c)) as H;
    [|unfold wp in H; rewrite E in H; by destruct H as [(? & ? & ?) [? ?]]].
  unfold genesis_build. apply wp_bind. apply (wp_for_each I).
  - split; [apply empty_world_pool|done].
  - intros [[actor opt_val] balance] s1 _ (Hp & HP & HW).
    eapply wp_mono; [|apply wp_and; [by apply genesis_staker_pool|
      apply (genesis_staker_rounds signed_by actor opt_val balance)]].
    intros [u s2|e s2|] [H1 H2]; [|done..]. destruct H2 as (_ & H2 & H3). unfold I.
    split_and!; [done|congruence..].
  - intros s1 (Hp & HP & HW). cbn [bind_post]. apply wp_bind, wp_best_candidates; [done|].
    intros evs l. cbn [bind_post]. stake_run. unfold I.
    split_and!; try done. exact (selected_pool 1 s1 evs Hp).
Qed.

(** Along the chain. *)
Lemma chain_points w0 l w :
  pool_inv (stake_of w0) → Round (stake_of w0) = 1 →
  Points (stake_of w0) = ∅ → AwardedPts (stake_of w0) = ∅ →
  chain_of none P w0 l w → round_of (length l) < U32 →
  pool_inv (stake_of w) ∧ Round (stake_of w) = round_of (length l) ∧
  points_count (Round (stake_of w)) (stake_of w) l.
Proof using SL CF duration points_fit.
  intros Hp HR HP HW. pose proof blocks_pos as Hb.
  apply (chain_invariant none P (λ l s, round_of (length l) < U32 →
    pool_inv s ∧ Round s = round_of (length l) ∧ points_count (Round s) s l)).
  - intros _. split_and!; [done|done|]. split_and!; intros *; rewrite ?HP, ?HW; unfold get_or;
      rewrite ?lookup_empty; cbn; by repeat case_match.
  - clear l. intros l s a s1 s2 IH Hc Ef Hlt. cbn [length] in Hlt.
    pose proof (round_of_next (length l)) as Hn. pose proof (round_of_pos (length l)) as Hpos.
    destruct IH as (Hps & HRs & Hcount).
    { rewrite Hn in Hlt. destruct (_ =? 0); lia. }
    pose proof (count_author l s a s1 HRs Hc Hcount) as Hcount1.
    destruct (credited_items P s a s1 Hc) as (_ & HR1 & _).
    pose proof (credited_pool s (Some a) s1 Hps Hc) as Hp1.
    cbn [length]. rewrite Hn in Hlt |- *.
    destruct (Z.eqb_spec (Z.of_nat (S (length l)) mod BlocksPerRound) 0) as [E|E].
    + destruct (end_of_round _ s1 E Hp1) as (s3 & E3 & Hp3 & Hch). rewrite E3 in Ef.
      injection Ef as <-. rewrite <-HR1 in Hcount1.
      assert (Round s3 = Round s1 + 1) as HR3.
      { rewrite (change_round _ _ Hch). apply u32_small. lia. }
      split_and!; [done|lia|]. rewrite HR3. apply count_round; [lia..|done|done].
    + rewrite mid_round in Ef by done. injection Ef as <-. rewrite HR1. by split_and!.
Qed.
End points.
