(* ===== verification/BlockChain.v ===== *)
(** * Chains of blocks: what they guarantee

    Theorems on every chain of accepted blocks on a genesis: who is credited, when the chain
    can go on, and what a round pays. *)

From S2P Require Import Prelude OrderedSet Frame StakeTypes BondMap Inflation Stake StakeLogic.
From S2P Require Import Registry Books Solvency Rounds Payouts PayoutBound Widths Exposures.
From S2P Require Import AuthorInherent AuthorFilter Runtime Block.
From S2P Require Import Reference StakeTheorems RoundTheorems RuntimeTheorems BlockTheorems.
From S2P Require Import Chain ChainPoints.

Section chains.
Context {Origin Cur : Type}.
Context `{FO : FrameOrigin Origin, MO : MonetaryPolicyOrigin Origin, CU : Currency Cur}.
Context `{PO : PerbillOps, US : UnstableSort, IO : IterationOrder, SC : StakeConfig}.
Context {SL : UnstableSortLaws} {CF : StakeConfigLaws}.
Context `{PC : PercentOps, PL : !PercentLaws, RS : RandomnessSource, AC : AccountCodec}.
Context (none : Origin) (none_origin : ensure_none none = true).
Local Notation BlockWorld := (AuthorInherent.World (Host Cur)).
Local Notation stake_of w := (stake (AuthorInherent.host w)).
Implicit Types (w : BlockWorld) (s : World Cur) (l : list AccountId).

(** Any extrinsics. *)
Definition anything (_ : Extrinsic Origin Cur) (_ : World Cur) : Prop := True.

Lemma anything_allowed inherents xs w : allowed none anything inherents xs w.
Proof. by apply always_allowed. Qed.

(** C15. Along every chain of accepted blocks, whatever inherents and extrinsics they contain,
    the round is determined by the number of blocks, a round has [BlocksPerRound] blocks,
    and the points are exactly 20 for each block: [Points] of a round counts its blocks,
    and [AwardedPts] the blocks of each author in it, until the round is paid. The
    numbers of rounds and points fit their types. *)
Theorem blocks_are_credited (signed_by : AccountId → Origin) config c stakers w0 l w :
  1 <= BondDuration < U32 → 20 * BlocksPerRound < U32 →
  genesis_build signed_by stakers (empty_world config c) = Done tt (stake_of w0) →
  chain_of none anything w0 l w → round_of (length l) < U32 →
  Round (stake_of w) = 1 + Z.of_nat (length l) / BlocksPerRound ∧
  (∀ r, 1 <= r < Round (stake_of w) → blocks_by anyone r l = BlocksPerRound) ∧
  (∀ r, get_or 0 (Points (stake_of w)) r = 20 * blocks_by anyone r l) ∧
  (∀ r a, get_or 0 (AwardedPts (stake_of w)) (r, a) =
    if Round (stake_of w) <? r + BondDuration then 20 * blocks_by (this a) r l else 0).
Proof using SL CF.
  intros Hbd H20 E Hc Hlt. apply genesis_points in E as (Hp & HR & HP & HW & _).
  destruct (chain_points none anything Hbd H20 w0 l w Hp HR HP HW Hc Hlt)
    as (_ & HRw & HWw & HPw & _).
  split_and!; [done| |done|done]. intros r Hr. apply blocks_past. by rewrite <-HRw.
Qed.

(** ** When the chain goes on *)

(** At the boundaries of rounds the validators are the selection from the pool; within a
    round there are some, because each block has had one of them as its author. *)
Definition staffed (n : nat) s : Prop :=
  if decide (Z.of_nat n mod BlocksPerRound = 0)
  then Validators s = sort (top_candidates (CandidatePool s)) else Validators s ≠ [].

Lemma chain_validators (signed_by : AccountId → Origin) config c stakers w0 l w :
  genesis_build signed_by stakers (empty_world config c) = Done tt (stake_of w0) →
  chain_of none anything w0 l w →
  pool_inv (stake_of w) ∧ staffed (length l) (stake_of w).
Proof using SL CF.
  intros E Hc. apply genesis_points in E as (Hp & _ & _ & _ & HV).
  revert Hc. apply (chain_invariant none anything (λ l s, pool_inv s ∧ staffed (length l) s)).
  { split; [done|]. unfold staffed. by rewrite decide_True by apply Zmod_0_l. }
  clear l. intros l s a s1 s' [Hps _] Hcr Ef.
  pose proof (credited_pool anything s (Some a) s1 Hps Hcr) as Hp1. cbn [length]. unfold staffed.
  destruct (decide (Z.of_nat (S (length l)) mod BlocksPerRound = 0)) as [Hn|Hn].
  - destruct (end_of_round _ s1 Hn Hp1) as (s2 & E2 & Hp2 & Hch). rewrite E2 in Ef.
    injection Ef as <-. split; [done|].
    by rewrite (change_validators _ _ Hch), (change_pool _ _ Hch).
  - rewrite mid_round in Ef by done. injection Ef as <-. split; [done|].
    apply credited_items in Hcr as (Ha & _ & -> & _). intros Hnil. rewrite Hnil in Ha.
    by apply elem_of_nil in Ha.
Qed.

Lemma top_candidates_nil pool : 1 <= MaxValidators → top_candidates pool = [] ↔ pool = [].
Proof using SL.
  intros Hm. unfold top_candidates. split.
  - intros H%fmap_nil_inv. destruct pool as [|b pool]; [done|].
    destruct (sort_unstable_by _ (b :: pool)) as [|x l] eqn:E.
    + pose proof (sort_unstable_perm amount (b :: pool)) as Hp.
      rewrite E in Hp. by apply Permutation_nil_l in Hp.
    + apply (f_equal length) in H. rewrite length_take, length_rev in H. cbn in H. lia.
  - intros ->. pose proof (sort_unstable_perm amount []) as Hp.
    apply Permutation_nil_r in Hp. rewrite Hp. cbn [rev]. by rewrite take_nil.
Qed.

(** C14. When a chain of accepted blocks can go on. If the eligible ratio is at least one percent
    and the last block did not end a round or left an active candidate, then for every relay
    height there is a validator whose block goes through with any extrinsics. If all
    candidates are offline or leaving when a round ends, no block with any inherents and any
    extrinsics is accepted ever after: the chain has halted. And when root has set the ratio
    to zero, no block with the runtime's inherents goes through, whoever its author is. *)
Theorem chain_goes_on (signed_by : AccountId → Origin) config c stakers w0 l w :
  let ratio := AuthorFilter.EligibleRatio (filter_world (AuthorInherent.host w)) in
  let block n ts height a xs := execute_block none n (option_list (TimestampInherent <$> ts) ++
    [ValidationDataInherent height; AuthorInherentCall (AuthorInherent.set_author_call a)]) xs w in
  1 <= MaxValidators → 0 <= ratio <= 100 →
  genesis_build signed_by stakers (empty_world config c) = Done tt (stake_of w0) →
  chain_of none anything w0 l w →
  (1 <= ratio → Z.of_nat (length l) mod BlocksPerRound ≠ 0 ∨ CandidatePool (stake_of w) ≠ [] →
    ∀ height, ∃ a, a ∈ Validators (stake_of w) ∧
      ∀ n ts xs, ∃ w', block n ts height a xs = Done tt w') ∧
  (Z.of_nat (length l) mod BlocksPerRound = 0 → CandidatePool (stake_of w) = [] →
    ∀ n inherents xs w', execute_block none n inherents xs w ≠ Done tt w') ∧
  (ratio = 0 → ∀ n ts height a xs w', block n ts height a xs ≠ Done tt w').
Proof using none_origin SL CF PL.
  intros ratio block Hm Hratio E Hc.
  destruct (chain_validators signed_by config c stakers w0 l w E Hc) as [Hp HV].
  assert (reachable signed_by config c stakers (stake_of w)) as Hr.
  { exists tt, (stake_of w0). split; [done|]. by eapply chain_of_reachable. }
  assert (∀ n ts height a xs, match block n ts height a xs with
    | Done _ _ => AuthorFilter.can_author ratio (Validators (stake_of w)) (Some height) a = Some true
    | Failed _ _ => AuthorFilter.can_author ratio (Validators (stake_of w)) (Some height) a = Some false
    | Panicked => False
    end) as Hblock.
  { intros n ts height a xs. unfold block.
    pose proof (runtime_block none none_origin signed_by config c stakers n xs ts height a w Hr
      Hratio) as H. unfold wp in H. case_match; [by destruct H..|done]. }
  unfold staffed in HV. split_and!.
  - intros H1 Hor height. assert (Validators (stake_of w) ≠ []) as Hne.
    { case_decide as Hn; [|done]. destruct Hor as [?|Hpool]; [done|]. rewrite HV.
      intros Hnil. apply Hpool, top_candidates_nil; [done|].
      pose proof (sort_perm (top_candidates (CandidatePool (stake_of w)))) as Hs.
      rewrite Hnil in Hs. by apply Permutation_nil_l in Hs. }
    destruct (someone_is_drawn ratio (Validators (stake_of w)) height ltac:(lia) Hne)
      as (a & Ha & Hd). exists a. split; [done|]. intros n ts xs.
    specialize (Hblock n ts height a xs). rewrite Hd in Hblock.
    destruct (block n ts height a xs) as [[] w'|?|?]; [by eexists|done..].
  - intros Hn Hpool n inherents xs w' Ex. rewrite decide_True, Hpool in HV by done.
    rewrite (proj2 (top_candidates_nil [] Hm)) in HV by done.
    apply (block_effect none anything) in Ex as (a & s & _ & Hcr & _); [|apply anything_allowed].
    apply credited_items in Hcr as (Ha & _). rewrite HV in Ha. by apply elem_of_nil in Ha.
  - intros H0 n ts height a xs w' Ex. specialize (Hblock n ts height a xs).
    rewrite Ex, H0, nobody_is_drawn in Hblock. done.
Qed.

(** ** Orderly blocks *)

Context {CL : CurrencyLaws Cur} {BL : PerbillLaws} {PA : PerbillAccuracy}.
Context {IL : IterationOrderLaws}.

(** Calls with arguments of their types that do not merge nominations; other pallets do not
    release what the stake pallet has reserved. *)
Definition orderly_extrinsic (x : Extrinsic Origin Cur) s : Prop :=
  match x with
  | StakeCall origin call => orderly_call s origin call ∧ typed_call call
  | OtherCall f =>
      cur_valid (f (currency s)) ∧
      ∀ a, reserved_balance (currency s) a <= reserved_balance (f (currency s)) a
  | _ => True
  end.

(** Every step of such blocks is an orderly step, and one with arguments of their types. *)
Definition tidy_step s s' : Prop := orderly_step s s' ∧ typed_step s s'.

Lemma call_tidy s s' : call_step orderly_extrinsic s s' → tidy_step s s'.
Proof.
  intros [origin call s2 [Ho Ht] E|origin call e s2 [Ho Ht] E|f [Hv Hr]].
  - split; [by eapply orderly_dispatch|by eapply typed_dispatch].
  - split; [by eapply orderly_failed|by eapply typed_failed].
  - split; [by apply orderly_currency|apply typed_currency].
Qed.

Lemma author_tidy a s s' : Stake.note_author a s = Done tt s' → tidy_step s s'.
Proof. intros E. split; [by eapply orderly_author|by eapply typed_author]. Qed.

Lemma finalize_tidy n s s' : on_finalize n s = Done tt s' → tidy_step s s'.
Proof. intros E. split; [by eapply orderly_finalize|by eapply typed_finalize]. Qed.

(** What holds of the pallet along such steps. *)
Definition in_order s : Prop := sound s ∧ exposures_sum s ∧ typed s.

Lemma tidy_in_order s s' : rtc tidy_step s s' → in_order s → in_order s'.
Proof using SL CF CL BL IO.
  induction 1 as [|s1 s2 s3 [Ho Ht] _ IH]; [done|]. intros (Hs & He & Hty). apply IH.
  split_and!; [by eapply orderly_step_sound|by eapply orderly_step_exposures
    |by eapply typed_step_typed].
Qed.

Lemma genesis_in_order (signed_by : AccountId → Origin) config c stakers s :
  typed_inflation config → cur_valid c →
  Forall (λ '(_, _, balance), is_u128 balance) stakers →
  genesis_build signed_by stakers (empty_world config c) = Done tt s → in_order s.
Proof using SL CF CL MO PO BL IO.
  intros Hi Hc Hst E.
  destruct (chain_exposures signed_by config c stakers s s Hc Hst E) as [Hs He]; [done|].
  split_and!; [done|done|].
  pose proof (genesis_build_typed signed_by stakers _ Hst (empty_world_typed config c Hi)) as H.
  unfold wp in H. by rewrite E in H.
Qed.

(** C17. When a block of an orderly chain ends a round, the payments for the round [BondDuration]
    before, as they stand after the extrinsics of the block, together are at most the
    issuance of that round and two units for each payment, which rounding may add. The
    balances grow by exactly what the [Rewarded] events report, and no reserve is touched.
    All that is asked is that the configuration, the genesis and the arguments of the calls
    are of their types, and that rounds and points of a round fit theirs. *)
Theorem rounds_pay_their_issuance (signed_by : AccountId → Origin) config c stakers w0 l w
    inherents xs w1 :
  1 <= BondDuration < U32 → 20 * BlocksPerRound < U32 →
  typed_inflation config → cur_valid c →
  Forall (λ '(_, _, balance), is_u128 balance) stakers →
  genesis_build signed_by stakers (empty_world config c) = Done tt (stake_of w0) →
  chain_of none orderly_extrinsic w0 l w →
  allowed none orderly_extrinsic inherents xs w →
  block_body none inherents xs w = Done tt w1 →
  round_of (length l) + 1 < U32 →
  let s := stake_of w1 in
  let next := round_of (length l) + 1 in
  let issuance := compute_issuance s (get_or 0 (Staked s) (next ⊟ BondDuration)) in
  Round s = round_of (length l) ∧
  ∃ s' evs, pay_stakers next s = Done tt s' ∧ events s' = events s ++ evs ∧
    spent 0 evs <= issuance + 2 * payees evs ∧ issuance <= total_issuance (currency s) ∧
    (∀ a, free_balance (currency s') a = free_balance (currency s) a + rewards_of a evs) ∧
    (∀ a, reserved_balance (currency s') a = reserved_balance (currency s) a).
Proof using SL CF CL BL PA IL IO.
  intros Hbd H20 Hi Hc Hst E Hch Hx Eb Hlt s next issuance.
  pose proof (genesis_in_order signed_by config c stakers _ Hi Hc Hst E) as H0.
  apply genesis_points in E as (Hp & HR & HP & HW & _).
  destruct (chain_points none orderly_extrinsic Hbd H20 w0 l w Hp HR HP HW Hch ltac:(lia))
    as (_ & HRw & Hcount).
  pose proof (body_effect none orderly_extrinsic inherents xs w Hx) as Hb.
  unfold wp in Hb. rewrite Eb in Hb. unfold in_block in Hb. fold s in Hb.
  assert (in_order s) as (Hs & He & Ht).
  { apply (tidy_in_order (stake_of w)).
    - by eapply credited_steps; [apply call_tidy|apply author_tidy|].
    - apply (tidy_in_order (stake_of w0)); [|done].
      by eapply chain_steps; [apply call_tidy|apply author_tidy|apply finalize_tidy|]. }
  assert (Round s = Round (stake_of w) ∧ ∃ l', points_count (Round s) s l') as [HRs [l' Hl']].
  { destruct (AuthorInherent.Author w1) as [a|] eqn:Ea.
    - pose proof (count_author orderly_extrinsic Hbd H20 l _ a s HRw Hb Hcount) as Hc1.
      apply credited_items in Hb as (_ & HR1 & _). split; [done|]. exists (a :: l). by rewrite HR1.
    - inversion Hb as [s1 Hr|]; subst. apply calls_items in Hr as (HR1 & _ & _ & HP1 & HW1).
      split; [done|]. exists l. unfold points_count. by rewrite HR1, HP1, HW1. }
  split; [congruence|].
  apply payments_bounded; [apply Hs|done|done|]. intros Hnext.
  destruct Hl' as (_ & HPs & HSs). rewrite HPs, HSs; [done|].
  unfold next in *. rewrite u32_small by lia. lia.
Qed.
End chains.

(** ** Witnesses *)

#[local] Existing Instances mock_config percent_ceil percent_ceil_laws subject_sum plain_codec
  plain_codec_laws.

(** Chains on the genesis of [StakeTheorems.v]: the authors with the extrinsics of their
    blocks, the last block first. *)
Module Grown.
Import Demo.

Notation Blocks := (list (AccountId * list (Extrinsic RawOrigin Ledger))).

Definition inherents (a : AccountId) : list Inherent :=
  [TimestampInherent 6000; ValidationDataInherent 3;
   AuthorInherentCall (AuthorInherent.set_author_call a)].

Fixpoint build (l : Blocks) : AuthorInherent.World (Host Ledger) :=
  match l with
  | [] => block_start
  | (a, xs) :: l =>
      match execute_block None_ (Z.of_nat (S (length l))) (inherents a) xs (build l) with
      | Done _ w => w
      | _ => block_start
      end
  end.

Fixpoint accepted (l : Blocks) : bool :=
  match l with
  | [] => true
  | (a, xs) :: l =>
      match execute_block None_ (Z.of_nat (S (length l))) (inherents a) xs (build l) with
      | Done _ w => bool_decide (AuthorInherent.find_author w [] = Some a) && accepted l
      | _ => false
      end
  end.

Fixpoint admissible (P : Extrinsic RawOrigin Ledger → World Ledger → Prop) (l : Blocks) : Prop :=
  match l with
  | [] => True
  | (a, xs) :: l => allowed None_ P (inherents a) xs (build l) ∧ admissible P l
  end.

Lemma build_chain P l :
  accepted l = true → admissible P l → chain_of None_ P block_start l.*1 (build l).
Proof.
  induction l as [|[a xs] l IH]; [intros; constructor|].
  cbn [accepted admissible build fmap list_fmap fst].
  destruct (execute_block None_ _ (inherents a) xs (build l)) as [[] w|?|?] eqn:E; [|done..].
  intros [Ha%bool_decide_eq_true_1 Hl]%andb_true_iff [Hx Hadm].
  eapply chain_block; [by apply IH|exact Hx| |exact Ha]. by rewrite length_fmap.
Qed.

Lemma anything_admissible l : admissible anything l.
Proof.
  induction l as [|[a xs] l IH]; [done|]. split; [apply anything_allowed|done].
Qed.

(** Seven blocks, the third with a call and a second author. *)
Definition seven : Blocks :=
  [(1, []); (2, []); (2, []); (1, []);
   (1, [StakeCall (Signed 7) (Call_join_nominators 2 50); AuthorCall None_ 2]); (2, []); (1, [])].
Lemma seven_accepted : accepted seven = true.
Proof. vm_compute. reflexivity. Qed.

(** In the fifth block both candidates go offline. *)
Definition halted : Blocks :=
  [(1, [StakeCall (Signed 1) Call_go_offline; StakeCall (Signed 2) Call_go_offline]);
   (2, []); (2, []); (1, []); (1, [])].
Lemma halted_accepted : accepted halted = true.
Proof. vm_compute. reflexivity. Qed.

(** In the third block root sets the eligible ratio to zero. *)
Definition stopped : Blocks := [(1, [FilterCall Root 0]); (2, []); (1, [])].
Lemma stopped_accepted : accepted stopped = true.
Proof. vm_compute. reflexivity. Qed.

(** Nine blocks; the tenth ends round 2, and round 1 is paid. *)
Definition nine : Blocks := (2, []) :: (2, []) :: seven.
Lemma nine_accepted : accepted nine = true.
Proof. vm_compute. reflexivity. Qed.

Lemma nine_orderly : admissible orderly_extrinsic nine.
Proof.
  cbn [admissible nine seven]. split_and!; [..|done]; apply (always_allowed None_); intros x s Hx;
    [by apply elem_of_nil in Hx..| |by apply elem_of_nil in Hx|by apply elem_of_nil in Hx].
  repeat (apply elem_of_cons in Hx as [->|Hx]); [by repeat split|done|by apply elem_of_nil in Hx].
Qed.

Definition tenth : AuthorInherent.World (Host Ledger) :=
  match block_body None_ (inherents 1) [] (build nine) with Done _ w => w | _ => block_start end.
Lemma tenth_runs : block_body None_ (inherents 1) [] (build nine) = Done tt tenth.
Proof.
  unfold tenth. assert (match block_body None_ (inherents 1) [] (build nine) with
    | Done _ _ => true | _ => false end = true) as H by (vm_compute; reflexivity).
  by destruct (block_body None_ (inherents 1) [] (build nine)) as [[] w|e w|].
Qed.
End Grown.

Lemma mock_duration : 1 <= BondDuration < U32.
Proof. split; [vm_compute; congruence|vm_compute; reflexivity]. Qed.
Lemma mock_points : 20 * BlocksPerRound < U32.
Proof. vm_compute. reflexivity. Qed.

Lemma blocks_are_credited_witness :
  let s := stake (AuthorInherent.host (Grown.build Grown.seven)) in
  Round s = 2 ∧ get_or 0 (AwardedPts s) (1, 1) = 60 ∧ get_or 0 (AwardedPts s) (2, 1) = 20 ∧
  (∀ r, get_or 0 (Points s) r = 20 * blocks_by anyone r Grown.seven.*1) ∧
  ∀ r a, get_or 0 (AwardedPts s) (r, a) =
    if Round s <? r + BondDuration then 20 * blocks_by (this a) r Grown.seven.*1 else 0.
Proof.
  intros s. split; [vm_compute; reflexivity|]. split; [vm_compute; reflexivity|].
  split; [vm_compute; reflexivity|].
  assert (round_of (length Grown.seven.*1) < U32) as H by (vm_compute; reflexivity).
  exact (proj2 (proj2 (blocks_are_credited None_ Signed Demo.config (ledger Demo.balances)
    Demo.stakers block_start Grown.seven.*1 (Grown.build Grown.seven) mock_duration mock_points
    Demo.genesis_runs (Grown.build_chain anything _ Grown.seven_accepted
      (Grown.anything_admissible _)) H))).
Defined.

Lemma chain_goes_on_witness :
  CandidatePool (stake (AuthorInherent.host (Grown.build Grown.halted))) = [] ∧
  (∀ n inherents xs w',
    execute_block None_ n inherents xs (Grown.build Grown.halted) ≠ Done tt w') ∧
  (∀ n ts height a xs w', execute_block None_ n (option_list (TimestampInherent <$> ts) ++
      [ValidationDataInherent height; AuthorInherentCall (AuthorInherent.set_author_call a)])
      xs (Grown.build Grown.stopped) ≠ Done tt w') ∧
  ∀ height, ∃ a,
    a ∈ Validators (stake (AuthorInherent.host (Grown.build Grown.seven))) ∧
    ∀ n ts xs, ∃ w', execute_block None_ n (option_list (TimestampInherent <$> ts) ++
      [ValidationDataInherent height; AuthorInherentCall (AuthorInherent.set_author_call a)])
      xs (Grown.build Grown.seven) = Done tt w'.
Proof.
  assert (1 <= MaxValidators) as Hm by (vm_compute; congruence).
  assert (∀ l, Grown.accepted l = true → chain_of None_ anything block_start l.*1 (Grown.build l))
    as Hc.
  { intros l Hl. exact (Grown.build_chain anything l Hl (Grown.anything_admissible l)). }
  assert (CandidatePool (stake (AuthorInherent.host (Grown.build Grown.halted))) = []) as Hp
    by (vm_compute; reflexivity).
  pose proof (λ l Hr Hl, chain_goes_on None_ none_is_none Signed Demo.config
    (ledger Demo.balances) Demo.stakers block_start _ (Grown.build l) Hm Hr Demo.genesis_runs
    (Hc l Hl)) as Hgo.
  assert (∀ l, l = Grown.halted ∨ l = Grown.stopped ∨ l = Grown.seven →
    0 <= AuthorFilter.EligibleRatio (filter_world (AuthorInherent.host (Grown.build l))) <= 100)
    as Hr.
  { intros l [->|[->| ->]]; vm_compute; split; congruence. }
  assert (1 <= AuthorFilter.EligibleRatio (filter_world (AuthorInherent.host
    (Grown.build Grown.seven)))) as H1 by (vm_compute; congruence).
  assert (AuthorFilter.EligibleRatio (filter_world (AuthorInherent.host
    (Grown.build Grown.stopped))) = 0) as H0 by (vm_compute; reflexivity).
  assert (Z.of_nat (length Grown.seven.*1) mod BlocksPerRound ≠ 0) as Hn by (vm_compute; congruence).
  split; [exact Hp|]. split; [|split].
  - exact (proj1 (proj2 (Hgo Grown.halted (Hr _ (or_introl eq_refl)) Grown.halted_accepted))
      eq_refl Hp).
  - exact (proj2 (proj2 (Hgo Grown.stopped (Hr _ (or_intror (or_introl eq_refl)))
      Grown.stopped_accepted)) H0).
  - exact (proj1 (Hgo Grown.seven (Hr _ (or_intror (or_intror eq_refl))) Grown.seven_accepted)
      H1 (or_introl Hn)).
Defined.

Lemma demo_config_in_range : typed_inflation Demo.config.
Proof. repeat split; vm_compute; congruence. Qed.

Lemma rounds_pay_their_issuance_witness :
  let s := stake (AuthorInherent.host Grown.tenth) in
  let issuance := compute_issuance s (get_or 0 (Staked s) 1) in
  issuance = 90 ∧
  ∃ s' evs, pay_stakers 3 s = Done tt s' ∧ events s' = events s ++ evs ∧
    spent 0 evs <= issuance + 2 * payees evs ∧ issuance <= total_issuance (currency s) ∧
    (∀ a, free_balance (currency s') a = free_balance (currency s) a + rewards_of a evs) ∧
    (∀ a, reserved_balance (currency s') a = reserved_balance (currency s) a).
Proof.
  intros s issuance.
  assert (round_of (length Grown.nine.*1) + 1 < U32) as H by (vm_compute; reflexivity).
  assert (allowed None_ orderly_extrinsic (Grown.inherents 1) [] (Grown.build Grown.nine)) as Hx.
  { apply (always_allowed None_). intros x s1 Hx. by apply elem_of_nil in Hx. }
  split; [vm_compute; reflexivity|].
  exact (proj2 (rounds_pay_their_issuance None_ Signed Demo.config (ledger Demo.balances)
    Demo.stakers block_start Grown.nine.*1 (Grown.build Grown.nine) (Grown.inherents 1) []
    Grown.tenth mock_duration mock_points demo_config_in_range Demo.balances_valid
    Demo.stakers_in_range Demo.genesis_runs
    (Grown.build_chain orderly_extrinsic _ Grown.nine_accepted Grown.nine_orderly) Hx
    Grown.tenth_runs H)).
Defined.
