(* ===== verification/Account.v ===== *)
(** * Accounts and signatures ([src/runtime/account/src/lib.rs])

    Accounts are Ethereum addresses. A signature is checked by recovering the public key
    and comparing its address; the conversion of a public key to an account is another
    function, which does not hash. *)

From S2P Require Import Prelude Frame.

(** Byte arrays are lists of numbers below 256. *)
Notation Bytes := (list Z) (only parsing).

Inductive EcdsaVerifyError := BadRS | BadV | BadSignature.

(** Host functions and the conversion between hash types: outside the repository.
    A recovered key has 64 bytes, an address is the number its bytes denote. *)
Class Crypto := {
  keccak256 : Bytes → Bytes;
  secp256k1_ecdsa_recover : Bytes → Bytes → Bytes + EcdsaVerifyError;
  H160_from_H256 : Bytes → AccountId;
}.

(** [H160::from([u8; 20])]: the same bytes, big-endian. *)
Definition H160_of_bytes (l : Bytes) : AccountId := foldl (λ acc b, acc * 256 + b) 0 l.

(** [ecdsa::Public]: 33 bytes, the parity of the point and its first coordinate. *)
Record EcdsaPublic := { as_ref : Bytes }.

Record EthereumSignature := { signature_bytes : Bytes }.

(** [From<ecdsa::Signature> for EthereumSignature] *)
Definition EthereumSignature_from (x : Bytes) : EthereumSignature := {| signature_bytes := x |}.

Record EthereumSigner := { signer_bytes : Bytes }.

(** [IdentifyAccount for EthereumSigner] *)
Definition into_account (self : EthereumSigner) : AccountId := H160_of_bytes (signer_bytes self).

(** [From<[u8; 20]>] and [From<ecdsa::Public>] for [EthereumSigner] *)
Definition EthereumSigner_from_bytes (x : Bytes) : EthereumSigner := {| signer_bytes := x |}.
Definition EthereumSigner_from_public (x : EcdsaPublic) : EthereumSigner :=
  let m := take (33 - 13) (drop 13 (as_ref x)) in
  {| signer_bytes := m |}.

Section account.
Context `{CR : Crypto}.

(** The address of a recovered key, as [verify] and the transaction pool compute it. *)
Definition address_of_key (pubkey : Bytes) : AccountId := H160_from_H256 (keccak256 pubkey).

(** [Verify for EthereumSignature] *)
Definition verify (self : EthereumSignature) (msg : Bytes) (signer : AccountId) : bool :=
  let m := keccak256 msg in
  match secp256k1_ecdsa_recover (signature_bytes self) m with
  | inl pubkey => address_of_key pubkey =? signer
  | inr BadRS => false
  | inr BadV => false
  | inr BadSignature => false
  end.

(** A signature speaks for at most one account: the address of the key it recovers to. *)
Lemma verify_true self msg signer :
  verify self msg signer = true ↔
  ∃ pubkey, secp256k1_ecdsa_recover (signature_bytes self) (keccak256 msg) = inl pubkey ∧
    signer = address_of_key pubkey.
Proof.
  unfold verify. destruct (secp256k1_ecdsa_recover _ _) as [pk|[]]; [|naive_solver..].
  rewrite Z.eqb_eq. naive_solver.
Qed.

(** The conversion forgets the parity byte. *)
Lemma from_public_parity p q (x : Bytes) :
  EthereumSigner_from_public {| as_ref := p :: x |} =
  EthereumSigner_from_public {| as_ref := q :: x |}.
Proof. done. Qed.
End account.
