(* ===== verification/TxPool.v ===== *)
(** * The transaction pool RPC ([src/client/rpc/txpool], [src/client/rpc-core/txpool],
    [src/primitives/rpc/txpool])

    The three methods of the [txpool] namespace: the ready Ethereum transactions of the
    pool, grouped by sender and nonce, in full or in summary, and the pool's counters. *)

From S2P Require Import Prelude Frame Account Runtime.

(** [ethereum::Transaction], its action and its signature: the public fields the code
    reads. *)
Inductive TransactionAction := ActionCall (to : AccountId) | ActionCreate.

Record EthereumTransaction (Signature : Type) := {
  nonce : Z;
  gas_price : Z;
  gas_limit : Z;
  action : TransactionAction;
  value : Z;
  input : list Z;
  signature : Signature;
}.
Arguments nonce {Signature} _.
Arguments gas_price {Signature} _.
Arguments gas_limit {Signature} _.
Arguments action {Signature} _.
Arguments value {Signature} _.
Arguments input {Signature} _.
Arguments signature {Signature} _.

(** The crate [ethereum]: the parts of a signature, and the hash of the message that was
    signed ([TransactionMessage::from(txn).hash()]). *)
Class EthereumCrate (Signature : Type) := {
  sig_r : Signature → list Z;
  sig_s : Signature → list Z;
  standard_v : Signature → Z;
  message_hash : EthereumTransaction Signature → list Z;
}.

(** [types/content.rs] *)
Module Transaction.
Record t := {
  hash : list Z;
  nonce : Z;
  block_hash : option (list Z);
  block_number : option Z;
  from : AccountId;
  to : option AccountId;
  value : Z;
  gas_price : Z;
  gas : Z;
  input : list Z;
}.
End Transaction.

(** [types/inspect.rs] *)
Module Summary.
Record t := { to : option AccountId; value : Z; gas : Z; gas_price : Z }.
End Summary.

(** [TransactionMap<T>] and [TxPoolResult<T>] of [types/mod.rs] *)
Abbreviation TransactionMap T := (gmap Z (gmap Z T)).
Record TxPoolResult (T : Type) := { pending : T; queued : T }.
Arguments pending {T} _.
Arguments queued {T} _.

(** [trait Get] *)
Class GetT (Signature T : Type) :=
  get : list Z → AccountId → EthereumTransaction Signature → T.

Definition recipient (a : TransactionAction) : option AccountId :=
  match a with ActionCall to => Some to | _ => None end.

#[export] Instance Transaction_get {S} : GetT S Transaction.t := λ hash from_address txn,
  {| Transaction.hash := hash;
     Transaction.nonce := nonce txn;
     Transaction.block_hash := None;
     Transaction.block_number := None;
     Transaction.from := from_address;
     Transaction.to := recipient (action txn);
     Transaction.value := value txn;
     Transaction.gas_price := gas_price txn;
     Transaction.gas := gas_limit txn;
     Transaction.input := input txn |}.

#[export] Instance Summary_get {S} : GetT S Summary.t := λ _ _ txn,
  {| Summary.to := recipient (action txn);
     Summary.value := value txn;
     Summary.gas_price := gas_price txn;
     Summary.gas := gas_limit txn |}.

(** [jsonrpc_core::Error] as [internal_err] builds it. *)
Inductive ErrorCode := InternalError.
Record RpcError := { code : ErrorCode; message : string }.
Definition internal_err (message : string) : RpcError :=
  {| code := InternalError; message := message |}.

(** [PoolStatus]: the counters of the pool. *)
Record PoolStatus := { ready : Z; future : Z }.

(** ** Interfaces *)

(** The output of the format [{:?}] *)
Class Debug (T : Type) := debug : T → string.

(** The runtime API [TxPoolRuntimeApi], called at a block; a call may fail. *)
Class TxPoolRuntimeApi (BlockId Xt Tx ApiError : Type) :=
  extrinsic_filter_api : BlockId → list Xt → list Tx + ApiError.

(** The RPC trait [TxPool]: [content], [inspect] and [status], by the names that they are
    called with. *)
Class TxPoolT (Server : Type) := {
  txpool_content : Server → TxPoolResult (TransactionMap Transaction.t) + RpcError;
  txpool_inspect : Server → TxPoolResult (TransactionMap Summary.t) + RpcError;
  txpool_status : Server → TxPoolResult Z + RpcError;
}.

Module TxPool.
Section txpool.
Context {S Xt ApiError BlockId : Type} `{CR : Crypto, EC : EthereumCrate S}.
Context `{API : TxPoolRuntimeApi BlockId Xt (EthereumTransaction S) ApiError}.
Context `{DB : Debug ApiError}.

(** [TxPool]: what the code asks the client and the pool. *)
Record t := { best_hash : BlockId; ready_extrinsics : list Xt; pool_status : PoolStatus }.

Definition public_key (transaction : EthereumTransaction S) (hash : list Z) :
    list Z + EcdsaVerifyError :=
  let sig := sig_r (signature transaction) ++ sig_s (signature transaction) ++
             [standard_v (signature transaction)] in
  secp256k1_ecdsa_recover sig hash.

(** The sender of a transaction, the zero address when the signature does not recover. *)
Definition from_address (txn : EthereumTransaction S) : AccountId :=
  match public_key txn (message_hash txn) with
  | inl pk => address_of_key pk
  | inr _e => 0
  end.

(** The body of the loop: [out.entry(from).or_insert_with(..).insert(nonce, ..)]. *)
Definition map_entry {T} `{G : GetT S T} (out : TransactionMap T) (txn : EthereumTransaction S) :
    TransactionMap T :=
  let hash := message_hash txn in
  let from := from_address txn in
  <[from := <[nonce txn := get hash from txn]> (default ∅ (out !! from))]> out.

Definition map_build {T} `{G : GetT S T} (self : t) : TransactionMap T + RpcError :=
  match extrinsic_filter_api (best_hash self) (ready_extrinsics self) with
  | inl ethereum_txns => inl (foldl map_entry ∅ ethereum_txns)
  | inr err =>
      inr (internal_err ("fetch runtime extrinsic filter failed: " +:+ debug err))
  end.

Definition pending_only {T} (m : TransactionMap T + RpcError) :
    TxPoolResult (TransactionMap T) + RpcError :=
  match m with
  | inl pending => inl {| pending := pending; queued := ∅ |}
  | inr e => inr e
  end.

(** [TxPoolT for TxPool] *)
#[global] Instance server : TxPoolT t := {
  txpool_content self := pending_only (map_build self);
  txpool_inspect self := pending_only (map_build self);
  txpool_status self :=
    inl {| pending := ready (pool_status self); queued := future (pool_status self) |};
}.

(** The entry of a sender and a nonce. *)
Definition entry {T} (m : TransactionMap T) (a n : Z) : option T := m !! a ≫= λ m', m' !! n.

Definition matches (a n : Z) (txn : EthereumTransaction S) : Prop :=
  from_address txn = a ∧ nonce txn = n.
#[global] Instance matches_dec a n txn : Decision (matches a n txn).
Proof. unfold matches. apply _. Defined.

Definition shown {T} `{G : GetT S T} (txn : EthereumTransaction S) : T :=
  get (message_hash txn) (from_address txn) txn.

Lemma entry_map_entry {T} `{G : GetT S T} (m : TransactionMap T) txn a n :
  entry (map_entry m txn) a n =
    if decide (matches a n txn) then Some (shown txn) else entry m a n.
Proof.
  unfold entry, map_entry, matches, shown. cbv zeta.
  destruct (decide (from_address txn = a)) as [<-|Ha].
  - rewrite lookup_insert_eq. cbn [mbind option_bind].
    destruct (decide (nonce txn = n)) as [<-|Hn].
    + rewrite lookup_insert_eq. by rewrite decide_True.
    + rewrite lookup_insert_ne by done. rewrite decide_False by naive_solver.
      by destruct (m !! from_address txn); cbn.
  - rewrite lookup_insert_ne by done. by rewrite decide_False by naive_solver.
Qed.

(** The loop: the last transaction of each sender and nonce stays. *)
Lemma entry_foldl {T} `{G : GetT S T} (l : list (EthereumTransaction S)) a n :
  entry (foldl map_entry ∅ l) a n = shown <$> last (filter (matches a n) l).
Proof.
  induction l as [|x l IH] using rev_ind; [done|].
  rewrite foldl_app. cbn [foldl]. rewrite entry_map_entry, IH, filter_app.
  rewrite filter_cons, filter_nil. case_decide.
  - by rewrite last_snoc.
  - by rewrite app_nil_r.
Qed.

Lemma foldl_not_empty {T} `{G : GetT S T} (l : list (EthereumTransaction S)) a m :
  foldl map_entry (∅ : TransactionMap T) l !! a = Some m → m ≠ ∅.
Proof.
  revert m. induction l as [|x l IH] using rev_ind; intros m.
  { cbn. by rewrite lookup_empty. }
  rewrite foldl_app. cbn [foldl]. unfold map_entry at 1. cbv zeta.
  destruct (decide (from_address x = a)) as [<-|Ha].
  - rewrite lookup_insert_eq. intros [= <-]. apply insert_non_empty.
  - rewrite lookup_insert_ne by done. apply IH.
Qed.
End txpool.
End TxPool.
