(* ===== verification/Node.v ===== *)
(** * The node ([src/node/src])

    The parts of the node that decide something: how a block author is found and told to
    the runtime ([command.rs], [inherents.rs]), when blocks are sealed ([cli.rs],
    [service.rs]), which genesis the chain specifications describe ([chain_spec.rs]), and the
    two maintenance tasks that bound the Ethereum caches ([service.rs]). *)

From S2P Require Import Prelude Frame StakeTypes Inflation AuthorInherent Runtime.

(** ** Sealing ([cli.rs], [service.rs]) *)

Inductive Sealing := Instant | Manual | Interval (millis : Z).

(** [char::to_digit(10)] *)
Definition to_digit (c : Ascii.ascii) : option Z :=
  let n := Z.of_N (Ascii.N_of_ascii c) in
  if bool_decide (48 <= n <= 57) then Some (n - 48) else None.

(** [u64::from_str_radix(s, 10)]: digits, after an optional plus sign; no digits, another
    character and a number of more than 64 bits are errors. *)
Fixpoint parse_digits (l : list Ascii.ascii) (acc : Z) : option Z :=
  match l with
  | [] => Some acc
  | c :: l =>
      d ← to_digit c;
      let acc := acc * 10 + d in
      if acc <? U64 then parse_digits l acc else None
  end.
Definition from_str_radix_10 (s : string) : option Z :=
  match String.list_ascii_of_string s with
  | [] => None
  | c :: l =>
      let digits := if Ascii.eqb c (Ascii.ascii_of_nat 43) then l else c :: l in
      match digits with [] => None | _ => parse_digits digits 0 end
  end.

(** [FromStr for Sealing] *)
Definition Sealing_from_str (s : string) : Sealing + string :=
  if bool_decide (s = "instant") then inl Instant
  else if bool_decide (s = "manual") then inl Manual
  else match from_str_radix_10 s with
       | Some millis => inl (Interval millis)
       | None => inr "couldn't decode sealing param"%string
       end.

(** [EngineCommand::SealNewBlock], without the reply channel. *)
Record SealNewBlock := { create_empty : bool; finalize : bool; parent_hash : option Z }.

(** The stream of commands of the development service: one for each transaction imported
    into the pool, what the RPC sends, or one for each tick of a timer. *)
Definition commands_stream {Tx} (sealing : Sealing) (pool_imports : list Tx)
    (rpc : list SealNewBlock) (timer : Z → list unit) : list SealNewBlock :=
  match sealing with
  | Instant =>
      (λ _, {| create_empty := false; finalize := false; parent_hash := None |}) <$> pool_imports
  | Manual => rpc
  | Interval millis =>
      (λ _, {| create_empty := true; finalize := false; parent_hash := None |}) <$> timer millis
  end.

(** ** Maintenance of the Ethereum caches ([service.rs]) *)

Definition FILTER_RETAIN_THRESHOLD : Z := 100.
Definition TRANSACTION_RETAIN_THRESHOLD : Z := 5.

(** An entry of either cache: the block at which it was made, and what it holds. *)
Record Cached (T : Type) := { at_block : Z; content : T }.
Arguments at_block {T} _.
Arguments content {T} _.

(** [ConsensusLog] of [fp_consensus]: the log the source matches on, and the others. *)
Inductive ConsensusLog := EndBlock (block_hash : Z) (transaction_hashes : list Z) | OtherLog.

(** One step of the loop over a clone of the pool. *)
Definition filter_pool_step {T} (imported_number : Z) (locked : gmap Z (Cached T))
    (kv : Z * Cached T) : gmap Z (Cached T) :=
  let lifespan_limit := u64 (at_block kv.2 + FILTER_RETAIN_THRESHOLD) in
  if lifespan_limit <=? imported_number then delete kv.1 locked else locked.

(** The task [frontier-filter-pool], on the import of a block; a poisoned lock skips it. *)
Definition filter_pool_task {T} (poisoned : bool) (imported_number : Z)
    (pool : gmap Z (Cached T)) : gmap Z (Cached T) :=
  if poisoned then pool
  else foldl (filter_pool_step imported_number) pool (map_to_list pool).

(** The last log of the digest that [try_to] reads as a log of Frontier. *)
Fixpoint frontier_log {Log} (try_to : Log → option ConsensusLog) (rev_logs : list Log) :
    option ConsensusLog :=
  match rev_logs with
  | [] => None
  | log :: rest => match try_to log with Some l => Some l | None => frontier_log try_to rest end
  end.

(** The task [frontier-pending-transactions]. *)
Definition pending_transactions_task {T Log} (try_to : Log → option ConsensusLog)
    (poisoned : bool) (imported_number : Z) (logs : list Log) (pending : gmap Z (Cached T)) :
    gmap Z (Cached T) :=
  if poisoned then pending
  else
    let pending :=
      match frontier_log try_to (rev logs) with
      | Some (EndBlock _ transaction_hashes) =>
          filter (λ kv, kv.1 ∉ transaction_hashes) pending
      | _ => pending
      end in
    filter (λ kv, imported_number < u64 (at_block kv.2 + TRANSACTION_RETAIN_THRESHOLD)) pending.

Section retention.
Context {T : Type}.
Implicit Types (pool : gmap Z (Cached T)).

(** The loop removes entries by their key; what it leaves is a filter. *)
Lemma filter_pool_loop n l pool k :
  NoDup l.*1 →
  foldl (filter_pool_step n) pool l !! k =
    match (list_to_map l : gmap Z (Cached T)) !! k with
    | Some v =>
        if u64 (at_block v + FILTER_RETAIN_THRESHOLD) <=? n then None else pool !! k
    | None => pool !! k
    end.
Proof.
  revert pool. induction l as [|[k0 v0] l IH]; intros pool Hnd; cbn [foldl]; [done|].
  rewrite fmap_cons in Hnd. apply NoDup_cons in Hnd as [Hk0 Hnd]. cbn [fst] in Hk0.
  rewrite IH by done. cbn [list_to_map foldr]. unfold filter_pool_step. cbn [fst snd]. cbv zeta.
  destruct (decide (k0 = k)) as [->|Hk].
  - rewrite lookup_insert_eq. rewrite not_elem_of_list_to_map_1 by done.
    cbv iota. destruct (u64 _ <=? n); [by rewrite lookup_delete_eq|done].
  - rewrite lookup_insert_ne by done.
    assert (∀ b : bool, (if b then delete k0 pool else pool) !! k = pool !! k) as ->; [|done].
    intros []; [by rewrite lookup_delete_ne|done].
Qed.

Lemma filter_pool_task_lookup n pool k :
  filter_pool_task false n pool !! k =
    v ← pool !! k; if u64 (at_block v + FILTER_RETAIN_THRESHOLD) <=? n then None else Some v.
Proof.
  unfold filter_pool_task. rewrite filter_pool_loop by apply NoDup_fst_map_to_list.
  rewrite list_to_map_to_list. destruct (pool !! k); [|done]. cbn. by case_match.
Qed.

(** The log the task acts on is the last one in the digest. *)
Lemma frontier_log_last {Log} (try_to : Log → option ConsensusLog) logs :
  frontier_log try_to (rev logs) = last (omap try_to logs).
Proof.
  rewrite <-(rev_involutive logs) at 2. generalize (rev logs) as l. clear logs.
  induction l as [|x l IH]; [done|]. cbn [frontier_log rev].
  rewrite omap_app. cbn [omap list_omap]. destruct (try_to x); [by rewrite last_snoc|].
  by rewrite app_nil_r.
Qed.
End retention.

(** ** Inherent data providers ([inherents.rs]) *)

Inductive Provider :=
| AuthorProvider (encoded : list Z)
| MockTimestamp (duration : Z)
| MockValidationData
| RealTimestamp.

Section inherents.
Context `{AC : AccountCodec}.
(** [InherentDataProviders::register_provider]: outside the repository, as are the
    encodings of a timestamp and of validation data and the two identifiers. *)
Context (register_provider : list Provider → Provider → list Provider + string).
Context (encode_u64 : Z → list Z).
Context (TIMESTAMP_IDENTIFIER SYSTEM_INHERENT_IDENTIFIER : InherentIdentifier).

(** [register_provider(..)?] *)
Definition register (p : Provider) (r : list Provider + string) : list Provider + string :=
  match r with inl ps => register_provider ps p | inr e => inr e end.

Definition build_inherent_data_providers (author : option AccountId) (mock : bool) :
    list Provider + string :=
  let providers := inl [] in
  let providers :=
    match author with
    | Some account => register (AuthorProvider (encode account)) providers
    | None => providers
    end in
  if mock then
    register MockValidationData (register (MockTimestamp (MINIMUM_PERIOD * 2)) providers)
  else register RealTimestamp providers.

(** [MockTimestampInherentDataProvider::provide_inherent_data], with the thread's
    [TIMESTAMP]. *)
Definition mock_timestamp_provide (duration TIMESTAMP : Z) (data : InherentData) :
    Z * (InherentData + string) :=
  let x := u64 (TIMESTAMP + duration) in
  (x, put_data data TIMESTAMP_IDENTIFIER (encode_u64 x)).

(** The validation data of the mock: every field but the storage root is a default. *)
Record ValidationData := { block_number : Z; relay_storage_root : Z; max_pov_size : Z }.

Definition mock_validation_data (relay_storage_root : Z) : ValidationData :=
  {| block_number := 0; relay_storage_root := relay_storage_root; max_pov_size := 0 |}.

Definition mock_validation_provide (encode_system : ValidationData → list Z) (root : Z)
    (data : InherentData) : InherentData + string :=
  put_data data SYSTEM_INHERENT_IDENTIFIER (encode_system (mock_validation_data root)).

(** What a provider adds to the data of a block; [real] is the time of the real clock. *)
Definition provide (encode_system : ValidationData → list Z) (root TIMESTAMP real : Z)
    (p : Provider) (data : InherentData) : InherentData + string :=
  match p with
  | AuthorProvider author => AuthorInherent.provide_inherent_data author data
  | MockTimestamp duration => (mock_timestamp_provide duration TIMESTAMP data).2
  | MockValidationData => mock_validation_provide encode_system root data
  | RealTimestamp => put_data data TIMESTAMP_IDENTIFIER (encode_u64 real)
  end.

(** [InherentDataProviders::create_inherent_data]: all providers, in the order in which they
    have been registered. *)
Fixpoint create_inherent_data (encode_system : ValidationData → list Z) (root TIMESTAMP real : Z)
    (ps : list Provider) (data : InherentData) : InherentData + string :=
  match ps with
  | [] => inl data
  | p :: ps =>
      match provide encode_system root TIMESTAMP real p data with
      | inl data => create_inherent_data encode_system root TIMESTAMP real ps data
      | inr e => inr e
      end
  end.

(** [n] blocks of the development service, each with fresh inherent data: the timestamps. *)
Fixpoint mock_timestamps (n : nat) (TIMESTAMP : Z) : list Z :=
  match n with
  | O => []
  | S n =>
      let x := (mock_timestamp_provide (MINIMUM_PERIOD * 2) TIMESTAMP ∅).1 in
      x :: mock_timestamps n x
  end.

(** They are a slot, twice the minimum period, apart. *)
Lemma mock_timestamps_lookup n t i x :
  0 <= t → t + Z.of_nat n * (MINIMUM_PERIOD * 2) < U64 →
  mock_timestamps n t !! i = Some x → x = t + (Z.of_nat i + 1) * (MINIMUM_PERIOD * 2).
Proof.
  revert t i. induction n as [|n IH]; intros t i Ht Hfit; [done|].
  cbn [mock_timestamps mock_timestamp_provide fst]. cbv zeta. unfold MINIMUM_PERIOD in *.
  rewrite u64_small by (unfold U64 in *; lia).
  destruct i as [|i]; cbn [lookup list_lookup]; [intros [= <-]; lia|].
  intros ->%IH; lia.
Qed.
End inherents.

(** ** Chain specifications ([chain_spec.rs]) *)

Record Extensions := { relay_chain : string; para_id : Z }.

(** [GenesisConfig]: the pallets that the code configures with something. *)
Record GenesisConfig := {
  balances : list (AccountId * Balance);
  sudo_key : AccountId;
  parachain_id : Z;
  ethereum_chain_id : Z;
  stakers : list (AccountId * option AccountId * Balance);
  inflation_config : InflationInfo.t;
}.

Inductive ChainType := ChainDevelopment | ChainLocal.

Record ChainSpec := {
  spec_name : string;
  spec_id : string;
  chain_type : ChainType;
  genesis : GenesisConfig;
  extensions : Extensions;
}.

(** 6Be02d1d3665660d22FF9624b7BE0551ee1Ac91b *)
Definition Gerald : AccountId := 0x6be02d1d3665660d22ff9624b7be0551ee1ac91b.

Section chain_spec.
Context `{PO : PerbillOps}.
(** [ParaId::default()] *)
Context (ParaId_default : Z).

Definition moonbeam_inflation_config : InflationInfo.t := {|
  InflationInfo.expect :=
    {| Range.min := 100000 * GLMR; Range.ideal := 200000 * GLMR; Range.max := 500000 * GLMR |};
  InflationInfo.round :=
    {| Range.min := from_parts (perbill_from_percent 4 / 8766);
       Range.ideal := from_parts (perbill_from_percent 5 / 8766);
       Range.max := from_parts (perbill_from_percent 5 / 8766) |};
|}.

Definition testnet_genesis (root_key : AccountId)
    (stakers : list (AccountId * option AccountId * Balance))
    (inflation_config : InflationInfo.t) (endowed_accounts : list AccountId)
    (para_id chain_id : Z) : GenesisConfig := {|
  balances := (λ k, (k, Z.shiftl 1 80)) <$> endowed_accounts;
  sudo_key := root_key;
  parachain_id := para_id;
  ethereum_chain_id := chain_id;
  stakers := stakers;
  inflation_config := inflation_config;
|}.

Definition development_chain_spec : ChainSpec := {|
  spec_name := "Moonbase Development Testnet";
  spec_id := "development";
  chain_type := ChainDevelopment;
  genesis := testnet_genesis Gerald [(Gerald, None, 1000 * GLMR)] moonbeam_inflation_config
               [Gerald] ParaId_default 1281;
  extensions := {| relay_chain := "dev-service"; para_id := 0 |};
|}.

Definition get_chain_spec (para_id : Z) : ChainSpec := {|
  spec_name := "Moonbase Development Testnet";
  spec_id := "local_testnet";
  chain_type := ChainLocal;
  genesis := testnet_genesis Gerald [(Gerald, None, 1000 * GLMR)] moonbeam_inflation_config
               [Gerald] para_id 1280;
  extensions := {| relay_chain := "local_testnet"; para_id := para_id |};
|}.
End chain_spec.

(** ** Start-up ([command.rs]) *)

(** Where a chain specification comes from; parsing JSON is outside the repository. *)
Inductive SpecSource :=
| EmbeddedJson (path : string)
| DevelopmentSpec
| LocalSpec (para_id : Z)
| JsonFile (path : string).

Definition load_spec (id : string) (para_id : Z) : SpecSource + string :=
  if bool_decide (id = "alphanet") then
    inl (EmbeddedJson "specs/alphanet/parachain-embedded-specs-v6.json")
  else if bool_decide (id = "stagenet") then
    inl (EmbeddedJson "specs/stagenet/parachain-embedded-specs-v6.json")
  else if bool_decide (id = "dev" ∨ id = "development") then inl DevelopmentSpec
  else if bool_decide (id = "local") then inl (LocalSpec para_id)
  else if bool_decide (id = "") then
    inr ("You have not specified what chain to sync. In the future, this will default to " +:+
         "Moonbeam mainnet. Mainnet is not yet live so you must choose a spec.")%string
  else inl (JsonFile id).

(** The options of [RunCmd] and [Cli] that [run] looks at. *)
Record Options := {
  validator : bool;
  collator_flag : bool;
  author_id : option AccountId;
  dev_service : bool;
  dev : bool;
  parachain_id_option : option Z;
  sealing : Sealing;
}.

(** [SubstrateCli::load_spec for Cli] *)
Definition Cli_load_spec (cli : Options) (id : string) : SpecSource + string :=
  load_spec id (default 1000 (parachain_id_option cli)).

(** The service that [run] starts when there is no subcommand. *)
Inductive Service :=
| new_dev (sealing : Sealing) (author_id : option AccountId) (collator : bool)
| start_node (author_id : option AccountId) (id : Z) (collator : bool).

(** [genesis_block] and [polkadot_config] are the results of generating the genesis block
    and of configuring the relay chain node. *)
Definition run_node (cli : Options) (extension : option Extensions)
    (genesis_block polkadot_config : unit + string) : Service + string :=
  let collator := validator cli || collator_flag cli in
  if collator && bool_decide (author_id cli = None) then
    inr "Collator nodes must specify an author account id"%string
  else
    let relay_chain_id := relay_chain <$> extension in
    let para_id := para_id <$> extension in
    if dev_service cli || bool_decide (relay_chain_id = Some "dev-service"%string) then
      let collator := collator || dev cli in
      let author_id := match author_id cli with Some a => Some a | None => Some Gerald end in
      inl (new_dev (sealing cli) author_id collator)
    else
      let id :=
        match parachain_id_option cli with
        | Some id => id
        | None => default 1000 para_id
        end in
      match genesis_block, polkadot_config with
      | inr e, _ => inr e
      | _, inr err => inr ("Relay chain argument error: " +:+ err)%string
      | inl _, inl _ => inl (start_node (author_id cli) id collator)
      end.

(** Whether a service makes blocks, for whom, and whether its inherents are mocked
    ([new_partial] in [service.rs]). *)
Definition collates (s : Service) : bool :=
  match s with new_dev _ _ c => c | start_node _ _ c => c end.
Definition service_author (s : Service) : option AccountId :=
  match s with new_dev _ a _ => a | start_node a _ _ => a end.
Definition mock_inherents (s : Service) : bool :=
  match s with new_dev _ _ _ => true | start_node _ _ _ => false end.

Definition service_providers `{AC : AccountCodec}
    (register_provider : list Provider → Provider → list Provider + string) (s : Service) :
    list Provider + string :=
  build_inherent_data_providers register_provider (service_author s) (mock_inherents s).
