(* ===== verification/NodeTheorems.v ===== *)
(** * The node and its RPC: what they guarantee *)

From stdpp Require Import pretty.
From S2P Require Import Prelude OrderedSet Frame StakeTypes Inflation Stake AuthorInherent.
From S2P Require Import AuthorFilter Runtime Account TxPool Node Reference RuntimeTheorems.

(** ** The caches *)

Section caches.
Context {T Log : Type} (try_to : Log → option ConsensusLog).

(** C39. After the import of a block, the filter pool holds exactly the filters made less
    than 100 blocks before, and the pending transactions are exactly those made less than
    5 blocks before that the last Frontier log of the block does not list; no entry is
    changed. *)
Theorem ethereum_caches_are_bounded n logs (filters pending : gmap Z (Cached T)) k v :
  (∀ k v, filters !! k = Some v → 0 <= at_block v < U64 - FILTER_RETAIN_THRESHOLD) →
  (∀ k v, pending !! k = Some v → 0 <= at_block v < U64 - TRANSACTION_RETAIN_THRESHOLD) →
  (filter_pool_task false n filters !! k = Some v ↔
    filters !! k = Some v ∧ n < at_block v + 100) ∧
  (pending_transactions_task try_to false n logs pending !! k = Some v ↔
    pending !! k = Some v ∧ n < at_block v + 5 ∧
    ∀ block_hash hashes, last (omap try_to logs) = Some (EndBlock block_hash hashes) →
      k ∉ hashes).
Proof.
  intros Hf Hp. unfold FILTER_RETAIN_THRESHOLD, TRANSACTION_RETAIN_THRESHOLD in *. split.
  - rewrite filter_pool_task_lookup. unfold FILTER_RETAIN_THRESHOLD.
    destruct (filters !! k) as [v'|] eqn:E; cbn [mbind option_bind]; [|naive_solver].
    rewrite u64_small by (specialize (Hf _ _ E); lia).
    destruct (Z.leb_spec (at_block v' + 100) n); naive_solver lia.
  - unfold pending_transactions_task. cbv zeta. rewrite frontier_log_last.
    rewrite map_lookup_filter_Some. cbn [snd]. unfold TRANSACTION_RETAIN_THRESHOLD.
    assert (∀ m : gmap Z (Cached T), m ⊆ pending → m !! k = Some v →
      (n < u64 (at_block v + 5) ↔ n < at_block v + 5)) as Hu.
    { intros m Hm Hk. by rewrite u64_small by
        (specialize (Hp k v (lookup_weaken _ _ _ _ Hk Hm)); lia). }
    destruct (last (omap try_to logs)) as [[bh hs|]|].
    + split.
      * intros [Hk Hn]. rewrite (Hu _ (map_filter_subseteq _ _) Hk) in Hn.
        apply map_lookup_filter_Some in Hk as [Hk Hin]. naive_solver.
      * intros (Hk & Hn & Hin).
        assert (filter (λ kv : Z * Cached T, kv.1 ∉ hs) pending !! k = Some v) as Hk'.
        { apply map_lookup_filter_Some. naive_solver. }
        by rewrite (Hu _ (map_filter_subseteq _ _) Hk').
    + split; [intros [Hk Hn]|intros (Hk & Hn & _)]; pose proof (Hu _ (reflexivity _) Hk);
        naive_solver.
    + split; [intros [Hk Hn]|intros (Hk & Hn & _)]; pose proof (Hu _ (reflexivity _) Hk);
        naive_solver.
Qed.
End caches.

(** ** The transaction pool RPC *)

Section txpool.
Context {S ApiError BlockId : Type} `{CR : Crypto, EC : EthereumCrate S}.
Local Notation Xt := (RuntimeCall (EthereumTransaction S)).
Context `{API : TxPoolRuntimeApi BlockId Xt (EthereumTransaction S) ApiError}.
Context `{DB : Debug ApiError}.

(** C37. On a node whose runtime filters the pool as ours does, [txpool_content] and
    [txpool_inspect] show, for each sender and nonce, the last ready Ethereum transaction
    with them, and nothing else: both have the same entries, no sender has an empty list,
    and nothing is queued. When the runtime call fails, both are internal errors. *)
Theorem txpool_shows_ready_transactions (self : TxPool.t (Xt := Xt) (BlockId := BlockId)) :
  let pool := TxPool.ready_extrinsics self in
  (∀ best txs, extrinsic_filter_api best pool = inl txs → txs = extrinsic_filter pool) →
  match txpool_content self, txpool_inspect self with
  | inl full, inl short =>
      (∀ from nonce,
        let shown := last (filter (TxPool.matches from nonce)
          (omap (λ xt, match xt with Ethereum_transact t => Some t | _ => None end) pool)) in
        TxPool.entry (pending full) from nonce = TxPool.shown <$> shown ∧
        TxPool.entry (pending short) from nonce = TxPool.shown <$> shown) ∧
      (∀ from m, pending full !! from = Some m → m ≠ ∅) ∧
      queued full = ∅ ∧ queued short = ∅
  | inr e, inr e' =>
      e = e' ∧ code e = InternalError ∧
      ∃ err, extrinsic_filter_api (TxPool.best_hash self) pool = inr err
  | _, _ => False
  end.
Proof.
  intros pool Hapi. cbn [txpool_content txpool_inspect TxPool.server]. unfold TxPool.map_build.
  fold pool. destruct (extrinsic_filter_api _ pool) as [txs|err] eqn:E; cbn [TxPool.pending_only].
  - rewrite (Hapi _ txs E). cbn [pending queued].
    split_and!; [|apply TxPool.foldl_not_empty|done..].
    intros from nonce. cbv zeta. by rewrite !TxPool.entry_foldl.
  - split_and!; [done|done|by eexists].
Qed.
End txpool.

(** ** Signatures *)

Section signatures.
Context `{CR : Crypto}.

(** C40. The account of a public key is not the account that signs with it. Take the two
    keys with one first coordinate, and messages signed with each: unless their addresses
    collide, [verify] rejects the account [EthereumSigner::from] computes for at least one
    of the two. *)
Theorem public_key_conversion_misses_address (x m1 m2 pk1 pk2 : list Z) sig1 sig2 :
  secp256k1_ecdsa_recover (signature_bytes sig1) (keccak256 m1) = inl pk1 →
  secp256k1_ecdsa_recover (signature_bytes sig2) (keccak256 m2) = inl pk2 →
  address_of_key pk1 ≠ address_of_key pk2 →
  verify sig1 m1 (into_account (EthereumSigner_from_public {| as_ref := 2 :: x |})) &&
  verify sig2 m2 (into_account (EthereumSigner_from_public {| as_ref := 3 :: x |})) = false.
Proof.
  intros E1 E2 Hne. apply andb_false_iff.
  rewrite (from_public_parity 3 2 x). set (a := into_account _).
  destruct (verify sig1 m1 a) eqn:V1; [|by left]. destruct (verify sig2 m2 a) eqn:V2; [|by right].
  apply verify_true in V1 as (p1 & R1 & A1), V2 as (p2 & R2 & A2). congruence.
Qed.
End signatures.

(** ** Authors *)

Section authors.
Context `{AC : AccountCodec, AL : !AccountCodecLaws}.
Context (register_provider : list Provider → Provider → list Provider + string).

(** C34. Every service that makes blocks has an author, and tells the runtime: the author's
    provider is among those it registers, and the inherent made from its data states this
    author. An author on the command line is the one used. *)
Theorem collators_state_their_author cli extension genesis_block polkadot_config s ps :
  (∀ ps p ps', register_provider ps p = inl ps' → ps' = ps ++ [p]) →
  run_node cli extension genesis_block polkadot_config = inl s → collates s = true →
  service_providers register_provider s = inl ps →
  ∃ a, service_author s = Some a ∧ (∀ b, author_id cli = Some b → a = b) ∧
    AuthorProvider (encode a) ∈ ps ∧
    ∀ data data', AuthorInherent.provide_inherent_data (encode a) data = inl data' →
      AuthorInherent.create_inherent data' = Some (Some (AuthorInherent.set_author_call a)).
Proof using AL.
  intros Hreg E Hc Hps.
  assert (∃ a, service_author s = Some a ∧ ∀ b, author_id cli = Some b → a = b) as (a & Ha & Hb).
  { unfold run_node in E. destruct (author_id cli) as [a0|].
    - exists a0. rewrite andb_false_r in E. cbv zeta in E.
      split; [|naive_solver]. repeat case_match; simplify_eq; done.
    - rewrite bool_decide_true, andb_true_r in E by done. cbv zeta in E.
      destruct (validator cli || collator_flag cli) eqn:Ecol; [done|].
      repeat case_match; simplify_eq; cbn [collates service_author] in *; try done.
      by eexists. }
  exists a. split_and!; [done|done| |].
  - unfold service_providers, build_inherent_data_providers in Hps. rewrite Ha in Hps.
    cbv zeta in Hps. cbn [register] in Hps.
    destruct (register_provider [] _) as [l|] eqn:E1; [|by destruct (mock_inherents s)].
    apply Hreg in E1 as ->. cbn [app] in Hps. unfold register in Hps.
    destruct (mock_inherents s).
    + destruct (register_provider [_] _) as [l|] eqn:E2; [|done].
      apply Hreg in E2 as ->. apply Hreg in Hps as ->. set_solver.
    + apply Hreg in Hps as ->. set_solver.
  - unfold AuthorInherent.provide_inherent_data, put_data, AuthorInherent.create_inherent.
    intros data data'. case_match; [done|]. intros [= <-].
    by rewrite lookup_insert_eq, decode_encode.
Qed.
End authors.

(** ** The development chain *)

#[local] Existing Instance runtime_stake_config.

(** The genesis of a chain specification, as the stake pallet of the runtime builds it. *)
Definition spec_world (s : ChainSpec) : World Ledger :=
  empty_world (inflation_config (genesis s)) (ledger (balances (genesis s))).
Definition spec_genesis (s : ChainSpec) :
    Outcome (World Ledger) (DispatchError Stake.Error) unit :=
  genesis_build Signed (stakers (genesis s)) (spec_world s).

Lemma spec_genesis_runs p :
  ∃ w, spec_genesis (development_chain_spec p) = Done tt w ∧ Validators w = [Gerald] ∧
    Total w = 1000 * GLMR ∧ reserved_balance (currency w) Gerald = 1000 * GLMR.
Proof.
  change (spec_genesis (development_chain_spec p)) with (spec_genesis (development_chain_spec 0)).
  assert (match spec_genesis (development_chain_spec 0) with
    | Done _ w => bool_decide (Validators w = [Gerald]) && (Total w =? 1000 * GLMR) &&
        (reserved_balance (currency w) Gerald =? 1000 * GLMR)
    | _ => false end = true) as H by (vm_compute; reflexivity).
  destruct (spec_genesis (development_chain_spec 0)) as [[] w|?|]; [|done..].
  apply andb_true_iff in H as [[H1 H2]%andb_true_iff H3]. exists w.
  apply bool_decide_eq_true in H1. apply Z.eqb_eq in H2, H3. done.
Qed.

Section dev_chain.
Context `{PC : PercentOps, PL : !PercentLaws, RS : RandomnessSource, AC : AccountCodec}.

(** The draw among one validator. *)
Lemma sole_validator_eligible ratio a height b :
  0 < ratio <= 100 →
  AuthorFilter.can_author ratio [a] (Some height) b = Some (bool_decide (b = a)).
Proof.
  intros Hr. unfold AuthorFilter.can_author, AuthorFilter.eligible_authors.
  pose proof (percent_mul_ceil_up ratio 1 ltac:(lia) ltac:(lia)) as Hp.
  cbn [length mbind option_bind]. change (Z.of_nat 1) with 1.
  assert (percent_mul_ceil ratio 1 = 1) as -> by lia.
  change (Z.to_nat 1) with 1%nat. cbn [AuthorFilter.draw].
  rewrite decide_False by done. cbv zeta. cbn [length]. change (Z.of_nat 1) with 1.
  rewrite Z.mod_1_r. change (Z.to_nat 0) with 0%nat. cbn [lookup list_lookup mbind option_bind app].
  f_equal. apply bool_decide_ext. set_solver.
Qed.

(** The inherent, on a host whose stake pallet has one validator. *)
Lemma sole_validator_inherent a b ratio height logs events (s : World Ledger) :
  0 < ratio <= 100 → Validators s = [a] →
  let block := AuthorInherent.MkWorld None logs
                 (MkHost s (AuthorFilter.MkWorld ratio events) (Some height)) in
  if decide (b = a) then
    ∃ s', runtime_set_author None_ b block =
      Done tt (AuthorInherent.MkWorld (Some b)
        (logs ++ [(AuthorInherent.ENGINE_ID, encode b)])
        (MkHost s' (AuthorFilter.MkWorld ratio events) (Some height)))
  else
    runtime_set_author None_ b block = Failed (Module_ AuthorInherent.CannotBeAuthor) block.
Proof using PL.
  intros Hr Hv block.
  pose proof (@set_author_outcome RawOrigin (Host Ledger) _ Stake_EventHandler FinalCanAuthor AC
    None_ b block) as H.
  assert (@can_author _ FinalCanAuthor (AuthorInherent.host block) b =
    Some (bool_decide (b = a))) as Hc.
  { unfold can_author, FinalCanAuthor, block.
    cbn [AuthorInherent.host stake filter_world validation_data AuthorFilter.EligibleRatio].
    rewrite Hv. by apply sole_validator_eligible. }
  unfold wp in H. fold (runtime_set_author None_ b block) in H. rewrite Hc in H.
  unfold runtime_set_author in *.
  destruct (AuthorInherent.set_author None_ b block) as [[] w|e w|].
  - destruct H as (_ & _ & [= ->%bool_decide_eq_true] & h & Hn & ->). rewrite decide_True by done.
    unfold note_author, Stake_EventHandler in Hn. destruct (Stake.note_author _ _); [|done..].
    injection Hn as <-. by eexists.
  - destruct H as [-> H]. destruct (decide (b = a)) as [->|Hne].
    + rewrite bool_decide_true in H by done. cbn in H. unfold is_Some in H. naive_solver.
    + cbn in H. unfold is_Some in H. naive_solver.
  - by destruct H as [_ []].
Qed.

(** The development chain can author its blocks: its genesis bonds the default author
    and makes it the only validator; whatever the randomness and the eligible ratio, an
    inherent that states it is accepted at the mocked relay height, any other author is
    refused, and the block can be finished. Its inflation parameters are those that the
    pallet would compute from 4, 5 and 5 percent a year. *)
Lemma development_chain_authors ParaId_default ratio root logs events other :
  0 < ratio <= 100 → other ≠ Gerald →
  let spec := development_chain_spec ParaId_default in
  let config := inflation_config (genesis spec) in
  let height := block_number (mock_validation_data root) in
  ∃ w w',
    spec_genesis spec = Done tt w ∧ Validators w = [Gerald] ∧ Total w = 1000 * GLMR ∧
    reserved_balance (currency w) Gerald = 1000 * GLMR ∧
    let block := AuthorInherent.MkWorld None logs
                   (MkHost w (AuthorFilter.MkWorld ratio events) (Some height)) in
    runtime_set_author None_ Gerald block = Done tt w' ∧
    AuthorInherent.Author w' = Some Gerald ∧
    runtime_set_author None_ other block =
      Failed (Module_ AuthorInherent.CannotBeAuthor) block ∧
    is_Some (runtime_on_finalize true 1 w') ∧
    InflationInfo_new {| Range.min := perbill_from_percent 4; Range.ideal := perbill_from_percent 5;
                         Range.max := perbill_from_percent 5 |} (InflationInfo.expect config) =
      Some config ∧
    Range.is_valid (InflationInfo.expect config) = true ∧
    Range.is_valid (InflationInfo.round config) = true.
Proof using PL.
  intros Hr Ho spec config height.
  destruct (spec_genesis_runs ParaId_default) as (w & E & Hv & Ht & Hb).
  pose proof (sole_validator_inherent Gerald Gerald ratio height logs events w Hr Hv) as Hi.
  rewrite decide_True in Hi by done. destruct Hi as [s' Hi].
  pose proof (sole_validator_inherent Gerald other ratio height logs events w Hr Hv) as Hno.
  rewrite decide_False in Hno by done.
  exists w. eexists. cbv zeta.
  split_and!; [exact E|done|done|done|exact Hi|done|exact Hno|by eexists|..];
    vm_compute; reflexivity.
Qed.
End dev_chain.

(** ** Witnesses *)

#[local] Existing Instances percent_ceil percent_ceil_laws subject_sum plain_codec
  plain_codec_laws.

(** A pool of filters and one of transactions, at block 120 with transaction 2 included. *)
Lemma ethereum_caches_are_bounded_witness :
  let filters := {[1 := {| at_block := 20; content := tt |};
                   2 := {| at_block := 21; content := tt |}]} : gmap Z (Cached unit) in
  let pending := {[1 := {| at_block := 116; content := tt |};
                   2 := {| at_block := 117; content := tt |}]} : gmap Z (Cached unit) in
  let v := {| at_block := 116; content := tt |} in
  (filter_pool_task false 120 filters !! 1 = Some v ↔
    filters !! 1 = Some v ∧ 120 < at_block v + 100) ∧
  (pending_transactions_task Some false 120 [EndBlock 9 [2]] pending !! 1 = Some v ↔
    pending !! 1 = Some v ∧ 120 < at_block v + 5 ∧
    ∀ block_hash hashes,
      last (omap Some [EndBlock 9 [2]]) = Some (EndBlock block_hash hashes) → 1 ∉ hashes).
Proof.
  intros filters pending v.
  assert (map_Forall (λ _ v, 0 <= at_block v < U64 - FILTER_RETAIN_THRESHOLD) filters) as Hf.
  { refine (bool_decide_eq_true_1 _ _). vm_compute. reflexivity. }
  assert (map_Forall (λ _ v, 0 <= at_block v < U64 - TRANSACTION_RETAIN_THRESHOLD) pending) as Hp.
  { refine (bool_decide_eq_true_1 _ _). vm_compute. reflexivity. }
  exact (ethereum_caches_are_bounded Some 120 [EndBlock 9 [2]] filters pending 1 v Hf Hp).
Defined.

(** A toy cryptography: the key is the signature's first byte, a hash is the bytes. *)
#[local] Instance toy_crypto : Crypto := {
  keccak256 l := l;
  secp256k1_ecdsa_recover sig m :=
    match sig with b :: _ => if b =? 0 then inr BadRS else inl [b] | [] => inr BadSignature end;
  H160_from_H256 := H160_of_bytes;
}.
#[local] Instance toy_ethereum : EthereumCrate Z := {
  sig_r s := [s]; sig_s s := [s]; standard_v _ := 0; message_hash t := [nonce t];
}.

Definition toy_transaction (sender nonce value : Z) : EthereumTransaction Z := {|
  nonce := nonce; gas_price := 1; gas_limit := 21000; action := ActionCall 5; value := value;
  input := []; signature := sender;
|}.
Definition toy_pool : list (RuntimeCall (EthereumTransaction Z)) :=
  [Ethereum_transact (toy_transaction 3 0 10); Other_call [1];
   Ethereum_transact (toy_transaction 4 0 20); Ethereum_transact (toy_transaction 3 0 30)].
#[local] Instance toy_api : TxPoolRuntimeApi Z (RuntimeCall (EthereumTransaction Z))
    (EthereumTransaction Z) string := λ best pool,
  if best =? 0 then inr "no such block"%string else inl (extrinsic_filter pool).
#[local] Instance toy_debug : Debug string := id.
Definition toy_server : TxPool.t := {|
  TxPool.best_hash := 1;
  TxPool.ready_extrinsics := toy_pool;
  TxPool.pool_status := {| ready := 4; future := 0 |};
|}.

Lemma txpool_shows_ready_transactions_witness :
  match txpool_content toy_server, txpool_inspect toy_server with
  | inl full, inl short =>
      (∀ from nonce,
        let shown := last (filter (TxPool.matches from nonce)
          (omap (λ xt, match xt with Ethereum_transact t => Some t | _ => None end) toy_pool)) in
        TxPool.entry (pending full) from nonce = TxPool.shown <$> shown ∧
        TxPool.entry (pending short) from nonce = TxPool.shown <$> shown) ∧
      (∀ from m, pending full !! from = Some m → m ≠ ∅) ∧
      queued full = ∅ ∧ queued short = ∅
  | inr e, inr e' => e = e' ∧ code e = InternalError ∧ ∃ err, toy_api 1 toy_pool = inr err
  | _, _ => False
  end.
Proof.
  assert (∀ best txs, toy_api best toy_pool = inl txs → txs = extrinsic_filter toy_pool) as H.
  { intros best txs. unfold toy_api. destruct (best =? 0); [discriminate|]. by intros [= <-]. }
  exact (txpool_shows_ready_transactions toy_server H).
Defined.

Lemma public_key_conversion_misses_address_witness :
  verify {| signature_bytes := [7] |} [1]
    (into_account (EthereumSigner_from_public {| as_ref := 2 :: replicate 32 7 |})) &&
  verify {| signature_bytes := [8] |} [1]
    (into_account (EthereumSigner_from_public {| as_ref := 3 :: replicate 32 7 |})) = false.
Proof.
  assert (address_of_key [7] ≠ address_of_key [8]) as H by (vm_compute; congruence).
  exact (public_key_conversion_misses_address (replicate 32 7) [1] [1] [7] [8]
    {| signature_bytes := [7] |} {| signature_bytes := [8] |} eq_refl eq_refl H).
Defined.

(** [--dev] alone. *)
Definition dev_options : Options := {|
  validator := false; collator_flag := false; author_id := None; dev_service := false;
  dev := true; parachain_id_option := None; sealing := Instant;
|}.

Definition register_last (ps : list Provider) (p : Provider) : list Provider + string :=
  inl (ps ++ [p]).

Lemma collators_state_their_author_witness :
  ∃ a, service_author (new_dev Instant (Some Gerald) true) = Some a ∧
    (∀ b, author_id dev_options = Some b → a = b) ∧
    AuthorProvider (encode a) ∈ [AuthorProvider (encode Gerald); MockTimestamp 6000;
                                 MockValidationData] ∧
    ∀ data data', AuthorInherent.provide_inherent_data (encode a) data = inl data' →
      AuthorInherent.create_inherent data' = Some (Some (AuthorInherent.set_author_call a)).
Proof.
  assert (∀ ps p ps', register_last ps p = inl ps' → ps' = ps ++ [p]) as H
    by (unfold register_last; congruence).
  exact (collators_state_their_author register_last dev_options
    (Some (extensions (development_chain_spec 0))) (inl tt) (inl tt)
    (new_dev Instant (Some Gerald) true) _ H eq_refl eq_refl eq_refl).
Defined.
(** ** Sealing *)

Section sealing.

(** How a sealing is written on the command line; [Display for u64] is the decimal notation
    that stdpp's [pretty] writes. *)
Definition print_sealing (t : Sealing) : string :=
  match t with
  | Instant => "instant"
  | Manual => "manual"
  | Interval millis => pretty (Z.to_N millis)
  end.
Definition sealing_ok (t : Sealing) : Prop :=
  match t with Interval millis => 0 <= millis < U64 | _ => True end.

Lemma to_digit_pretty x : (x < 10)%N → to_digit (pretty_N_char x) = Some (Z.of_N x).
Proof.
  intros Hx. assert (∃ k, (k < 10)%nat ∧ x = N.of_nat k) as (k & Hk & ->).
  { exists (N.to_nat x). split; lia. }
  do 10 (destruct k as [|k]; [reflexivity|]). lia.
Qed.

Lemma parse_digits_pretty x s :
  (Z.of_N x < U64) →
  parse_digits (String.list_ascii_of_string (pretty_N_go x s)) 0 =
    parse_digits (String.list_ascii_of_string s) (Z.of_N x).
Proof.
  revert s. induction (N.lt_wf_0 x) as [x _ IH]; intros s Hx.
  destruct (decide (x = 0)%N) as [->|Hne]; [by rewrite pretty_N_go_0|].
  rewrite pretty_N_go_step by lia.
  assert (x `div` 10 < x)%N as Hlt by (apply N.div_lt; lia).
  rewrite IH by lia. cbn [String.list_ascii_of_string parse_digits].
  rewrite to_digit_pretty by (apply N.mod_lt; lia). cbn [mbind option_bind]. cbv zeta.
  assert (Z.of_N (x `div` 10) * 10 + Z.of_N (x `mod` 10) = Z.of_N x) as -> by
    (pose proof (N.div_mod x 10); lia).
  by rewrite (proj2 (Z.ltb_lt _ _)) by done.
Qed.

Lemma parse_digits_range l acc n :
  0 <= acc < U64 → parse_digits l acc = Some n → 0 <= n < U64.
Proof.
  revert acc. induction l as [|c l IH]; intros acc Hacc; cbn [parse_digits]; [by intros [= <-]|].
  unfold to_digit. case_bool_decide; cbn [mbind option_bind]; [|done]. cbv zeta.
  case_match eqn:E; [|done]. apply Z.ltb_lt in E. apply IH. lia.
Qed.

(** The first character of a number is a digit, not a sign. *)
Lemma from_str_pretty x :
  Z.of_N x < U64 → from_str_radix_10 (pretty x) = Some (Z.of_N x).
Proof.
  intros Hx. pose proof (parse_digits_pretty x "" Hx) as Hp. cbn [String.list_ascii_of_string] in Hp.
  unfold from_str_radix_10.
  unfold pretty, pretty_N. case_decide as H0; [by subst|].
  assert (∃ c l, String.list_ascii_of_string (pretty_N_go x "") = c :: l ∧ is_Some (to_digit c))
    as (c & l & El & Hc).
  { destruct (String.list_ascii_of_string _) as [|c l]; cbn [parse_digits] in Hp.
    - injection Hp. lia.
    - exists c, l. split; [done|]. destruct (to_digit c); [by eexists|done]. }
  rewrite El in *. destruct (Ascii.eqb_spec c (Ascii.ascii_of_nat 43)) as [->|]; [|done].
  by destruct Hc.
Qed.

Lemma sealing_from_str_ok s t : Sealing_from_str s = inl t → sealing_ok t.
Proof.
  unfold Sealing_from_str. do 2 (case_bool_decide; [by intros [= <-]|]).
  destruct (from_str_radix_10 s) as [n|] eqn:E; [|done]. intros [= <-].
  unfold from_str_radix_10 in E. repeat case_match; simplify_eq;
    by eapply parse_digits_range in E; [|unfold U64].
Qed.

(** C35. Every sealing but an interval of more than 64 bits is read back from how it is
    written, and a sealing that is read, however it was written, is one of these. *)
Theorem sealing_reads_what_is_written t :
  (Sealing_from_str (print_sealing t) = inl t ↔ sealing_ok t) ∧
  ∀ s, Sealing_from_str s = inl t → Sealing_from_str (print_sealing t) = inl t.
Proof.
  assert (sealing_ok t → Sealing_from_str (print_sealing t) = inl t) as Hok.
  { destruct t as [| |n]; [done..|]. cbn [sealing_ok print_sealing]. intros Hn.
    assert (Z.of_N (Z.to_N n) < U64) as Hlt by lia. apply from_str_pretty in Hlt as E.
    unfold Sealing_from_str.
    rewrite !bool_decide_false by (intros Heq; rewrite Heq in E; vm_compute in E; done).
    by rewrite E, Z2N.id by lia. }
  split; [split; [apply sealing_from_str_ok|done]|].
  intros s Hs. by eapply Hok, sealing_from_str_ok.
Qed.
End sealing.
