(* ===== verification/DevChain.v ===== *)
(** * The development chain

    A chain with one candidate goes on forever, as long as the candidate stays online, nobody
    else joins, and root leaves the author filter something to draw; so does the chain of
    the development service, with the inherent data that the service provides. *)

From S2P Require Import Prelude OrderedSet Frame StakeTypes BondMap Inflation Stake StakeLogic.
From S2P Require Import Registry Books Solvency Rounds Spec Refinement RoundRefinement.
From S2P Require Import AuthorInherent AuthorFilter Runtime Block.
From S2P Require Import Reference StakeTheorems RuntimeTheorems BlockTheorems Chain BlockChain.
From S2P Require Import Node NodeTheorems.

(** ** A chain with one candidate *)

Section sole.
Context {Origin Cur : Type}.
Context `{FO : FrameOrigin Origin, MO : MonetaryPolicyOrigin Origin, CU : Currency Cur}.
Context {CL : CurrencyLaws Cur}.
Context `{PO : PerbillOps, US : UnstableSort, IO : IterationOrder, SC : StakeConfig}.
Context {SL : UnstableSortLaws} {CF : StakeConfigLaws}.
Context `{PC : PercentOps, PL : !PercentLaws, RS : RandomnessSource, AC : AccountCodec}.
Context (none : Origin) (none_origin : ensure_none none = true).
Context (g : AccountId).
Local Notation BlockWorld := (AuthorInherent.World (Host Cur)).
Local Notation stake_of w := (stake (AuthorInherent.host w)).
Implicit Types (w : BlockWorld) (s : World Cur).












End sole.

(** ** The chain of the development service *)

#[local] Existing Instance runtime_stake_config.



Section dev_chain.
Context `{PC : PercentOps, PL : !PercentLaws, RS : RandomnessSource}.
Context `{AC : AccountCodec, AL : !AccountCodecLaws}.
Context (register_provider : list Provider → Provider → list Provider + string).
Context (encode_u64 : Z → list Z) (encode_system : ValidationData → list Z).
Context (TIMESTAMP_IDENTIFIER SYSTEM_INHERENT_IDENTIFIER : InherentIdentifier).
Context (timestamp_create system_create : InherentData → option Z).
Local Notation inherent_data := (create_inherent_data encode_u64 TIMESTAMP_IDENTIFIER
  SYSTEM_INHERENT_IDENTIFIER encode_system).

(** A provider is registered after the others. *)
Hypothesis register_appends : ∀ ps p, register_provider ps p = inl (ps ++ [p]).
Hypothesis identifiers_differ :
  NoDup [AuthorInherent.INHERENT_IDENTIFIER; TIMESTAMP_IDENTIFIER; SYSTEM_INHERENT_IDENTIFIER].
(** The parachain system reads the validation data that the node has put. *)
Hypothesis system_reads : ∀ data d,
  data !! SYSTEM_INHERENT_IDENTIFIER = Some (encode_system d) →
  system_create data = Some (block_number d).


End dev_chain.

#[local] Existing Instances percent_ceil percent_ceil_laws subject_sum plain_codec
  plain_codec_laws.

(** The genesis, and a block in which Gerald bonds more. *)
Module DevRun.



End DevRun.

