(* ===== verification/Service.v ===== *)
(** * Services and commands of the node ([src/node/src])

    What the node assembles, as programs that call third-party code in a fixed order:
    [new_partial], [start_node_impl] and [new_dev] of [service.rs], [create_full] of [rpc.rs],
    and [run] of [command.rs] with the sub-commands of [cli.rs]. The log of a program is the
    sequence of its calls; a call outside the repository may fail. *)

From S2P Require Import Prelude Frame StakeTypes Inflation AuthorInherent Runtime Node.

(** ** RPC handlers ([rpc.rs]) *)

Inductive Handler :=
| SystemApi (deny_unsafe : bool)
| TransactionPaymentApi
| EthApi (signers : list Z) (is_authority : bool)
| EthFilterApi (max_stored_filters : Z)
| NetApi
| Web3Api
| EthPubSubApi
| TxPoolApi
| ManualSealApi.

(** The sending end of the channel of manual seal; its capacity. *)
Record Sink := { capacity : Z }.

(** [FullDeps], as far as [create_full] looks at it: the pools are present or not. *)
Record FullDeps := {
  deny_unsafe : bool;
  is_authority : bool;
  pending_transactions : option unit;
  filter_pool : option unit;
  command_sink : option Sink;
}.

Definition create_full (deps : FullDeps) : list Handler :=
  [SystemApi (deny_unsafe deps); TransactionPaymentApi; EthApi [] (is_authority deps)] ++
  (match filter_pool deps with Some _ => [EthFilterApi 500] | None => [] end) ++
  [NetApi; Web3Api; EthPubSubApi; TxPoolApi] ++
  (match command_sink deps with Some _ => [ManualSealApi] | None => [] end).

(** ** Calls out of the repository *)

Inductive Task :=
| frontier_filter_pool
| frontier_pending_transactions
| authorship_task (commands : Sealing) (providers : list Provider).

(** The chain operations of [sc_cli], and the parts of a node they are given. *)
Inductive Operation := CheckBlockOp | ExportBlocksOp | ExportStateOp | ImportBlocksOp | RevertOp.
Inductive Part := Client | ImportQueue (providers : list Provider) | Database | ChainSpecPart | Backend.

Inductive Action :=
| new_full_parts
| import_queue (providers : list Provider)
| build_polkadot_full_node
| build_network (block_announce_validator : bool)
| build_offchain_workers
| spawn_tasks (rpc_extensions_builder : bool → list Handler)
| spawn_essential (t : Task)
| start_collator (para_id : Z) (providers : list Provider)
| start_full_node (para_id : Z)
| start_network
| create_runner
| build_spec
| purge_chain
| operation (op : Operation) (parts : list Part)
| write_file (path : string) (buf : list Byte.byte)
| write_stdout (buf : list Byte.byte).

Definition Log : Type := list Action.

(** [PartialComponents], as far as the callers use it. *)
Record PartialComponents := {
  providers : list Provider;
  pc_pending_transactions : option unit;
  pc_filter_pool : option unit;
}.

(** The configuration of a node: its role and whether its offchain workers run. *)
Record Configuration := { role_light : bool; offchain_worker_enabled : bool }.

Section services.
Context `{AC : AccountCodec}.
Context (register_provider : list Provider → Provider → list Provider + string).
(** The error of a call, if it fails. *)
Context (fails : Action → option string).

Local Notation M := (Prog Log string).

(** A call that cannot fail, and one that can. *)
Definition act (a : Action) : M unit := modify (λ log, log ++ [a]).
Definition call (a : Action) : M unit :=
  match fails a with Some e => fail e | None => act a end.
(** [r?] *)
Definition try_ {A} (r : A + string) : M A :=
  match r with inl a => mret a | inr e => fail e end.

Definition new_partial (author : option AccountId) (mock_inherents : bool) : M PartialComponents :=
  ps ← try_ (build_inherent_data_providers register_provider author mock_inherents);
  call new_full_parts;;
  call (import_queue ps);;
  mret {| providers := ps; pc_pending_transactions := Some tt; pc_filter_pool := Some tt |}.

(** The builder that both services hand to [spawn_tasks]. *)
Definition rpc_extensions_builder (collator : bool) (pc : PartialComponents)
    (sink : option Sink) (deny_unsafe : bool) : list Handler :=
  create_full {|
    deny_unsafe := deny_unsafe;
    is_authority := collator;
    pending_transactions := pc_pending_transactions pc;
    filter_pool := pc_filter_pool pc;
    command_sink := sink;
  |}.

(** The two maintenance tasks that both services spawn. *)
Definition spawn_maintenance (pc : PartialComponents) : M unit :=
  when (match pc_filter_pool pc with Some _ => true | None => false end)
    (act (spawn_essential frontier_filter_pool));;
  when (match pc_pending_transactions pc with Some _ => true | None => false end)
    (act (spawn_essential frontier_pending_transactions)).

Definition start_node_impl (config : Configuration) (author_id : option AccountId) (id : Z)
    (collator : bool) : M unit :=
  if role_light config then fail "Light client not supported!"%string
  else
    call build_polkadot_full_node;;
    pc ← new_partial author_id false;
    call (build_network true);;
    call (spawn_tasks (rpc_extensions_builder collator pc None));;
    spawn_maintenance pc;;
    (if collator then call (start_collator id (providers pc)) else call (start_full_node id));;
    act start_network.

(** The stream of commands and the sink, by the sealing. *)
Definition seal_sink (sealing : Sealing) : option Sink :=
  match sealing with Manual => Some {| capacity := 1000 |} | _ => None end.

Definition new_dev_service (config : Configuration) (sealing : Sealing)
    (author_id : option AccountId) (collator : bool) : M unit :=
  pc ← new_partial author_id true;
  call (build_network false);;
  when (offchain_worker_enabled config) (act build_offchain_workers);;
  when collator (act (spawn_essential (authorship_task sealing (providers pc))));;
  let command_sink := if collator then seal_sink sealing else None in
  call (spawn_tasks (rpc_extensions_builder collator pc command_sink));;
  spawn_maintenance pc;;
  act start_network.

(** [start_node], whose builder of RPC handlers of its own has no use. *)
Definition start_normal_node (config : Configuration) (author_id : option AccountId) (id : Z)
    (collator : bool) : M unit :=
  start_node_impl config author_id id collator.

Definition start_service (config : Configuration) (s : Service) : M unit :=
  match s with
  | new_dev sealing author_id collator => new_dev_service config sealing author_id collator
  | start_node author_id id collator => start_normal_node config author_id id collator
  end.

(** ** Sub-commands ([cli.rs], [command.rs]) *)

Record ExportGenesisStateCommand := {
  es_output : option string;
  es_parachain_id : Z;
  es_raw : bool;
  es_chain : option string;
}.
Record ExportGenesisWasmCommand := {
  ew_output : option string;
  ew_raw : bool;
  ew_chain : option string;
}.

Inductive Subcommand :=
| ExportGenesisState (params : ExportGenesisStateCommand)
| ExportGenesisWasm (params : ExportGenesisWasmCommand)
| BuildSpec
| CheckBlock
| ExportBlocks
| ExportState
| ImportBlocks
| PurgeChain
| Revert.

(** Chain specifications, genesis blocks and hexadecimal output are third-party code. *)
Context {Spec Header : Type}.
Context (open_spec : SpecSource → Spec + string).
Context (generate_genesis_block : Spec → Header + string).
Context (encode_header : Header → list Byte.byte).
Context (build_storage : Spec → gmap string (list Byte.byte) + string).
Context (CODE : string).
Context (hex_display : list Byte.byte → string).

(** [format!("0x{:?}", HexDisplay::from(..)).into_bytes()], unless [--raw]. *)
Definition output_buf (raw : bool) (bytes : list Byte.byte) : list Byte.byte :=
  if raw then bytes else String.list_byte_of_string ("0x" +:+ hex_display bytes).

Definition write_output (output : option string) (buf : list Byte.byte) : M unit :=
  match output with Some path => call (write_file path buf) | None => call (write_stdout buf) end.

Definition extract_genesis_wasm (chain_spec : Spec) : M (list Byte.byte) :=
  storage ← try_ (build_storage chain_spec);
  match storage !! CODE with
  | Some blob => mret blob
  | None => fail "Could not find wasm file in genesis state!"%string
  end.

Definition export_genesis_state (params : ExportGenesisStateCommand) : M unit :=
  source ← try_ (load_spec (default ""%string (es_chain params)) (es_parachain_id params));
  spec ← try_ (open_spec source);
  header ← try_ (generate_genesis_block spec);
  write_output (es_output params) (output_buf (es_raw params) (encode_header header)).

Definition export_genesis_wasm (cli : Options) (params : ExportGenesisWasmCommand) : M unit :=
  source ← try_ (Cli_load_spec cli (default ""%string (ew_chain params)));
  spec ← try_ (open_spec source);
  raw_wasm_blob ← extract_genesis_wasm spec;
  write_output (ew_output params) (output_buf (ew_raw params) raw_wasm_blob).

(** An operation on the parts of a node that is not started. *)
Definition run_operation (op : Operation) (parts : PartialComponents → list Part) : M unit :=
  call create_runner;;
  pc ← new_partial None false;
  call (operation op (parts pc)).

Definition run_subcommand (cli : Options) (subcommand : Subcommand) : M unit :=
  match subcommand with
  | BuildSpec => call create_runner;; call build_spec
  | CheckBlock => run_operation CheckBlockOp (λ pc, [Client; ImportQueue (providers pc)])
  | ExportBlocks => run_operation ExportBlocksOp (λ _, [Client; Database])
  | ExportState => run_operation ExportStateOp (λ _, [Client; ChainSpecPart])
  | ImportBlocks => run_operation ImportBlocksOp (λ pc, [Client; ImportQueue (providers pc)])
  | PurgeChain => call create_runner;; call purge_chain
  | Revert => run_operation RevertOp (λ _, [Client; Backend])
  | ExportGenesisState params => export_genesis_state params
  | ExportGenesisWasm params => export_genesis_wasm cli params
  end.

(** The whole of [run]. The extensions, the genesis block and the configuration of the
    relay chain node come from the configuration that the runner creates. *)
Definition run (cli : Options) (subcommand : option Subcommand) (config : Configuration)
    (extension : option Extensions) (genesis_block polkadot_config : unit + string) : M unit :=
  match subcommand with
  | Some subcommand => run_subcommand cli subcommand
  | None =>
      call create_runner;;
      s ← try_ (run_node cli extension genesis_block polkadot_config);
      start_service config s
  end.
End services.
