(* ===== verification/CommandLine.v ===== *)
(** * The command line of the node ([src/node/src/cli.rs], [src/node/src/command.rs])

    What the two command lines of a node say of themselves, and the command line of the relay
    chain node, which answers most questions as the [polkadot] command line inside it does. *)

From S2P Require Import Prelude Frame StakeTypes Inflation AuthorInherent Runtime RuntimeApi.
From S2P Require Import Node Service.

(** ** What a command line is asked ([CliConfiguration] of [sc_cli]) *)

(** The types of other crates that the answers contain. *)
Inductive Foreign :=
| SharedParams | ImportParams | NetworkParams | KeystoreParams | SocketAddr | PrometheusConfig
| TelemetryWorker | Role | TransactionPoolOptions | RpcMethods | ExtTransport.

Section command_line.
Context (foreign : Foreign → Type).

(** Every question that the code answers, with the answer. *)
Record CliConfiguration := {
  shared_params : foreign SharedParams;
  import_params : option (foreign ImportParams);
  network_params : option (foreign NetworkParams);
  keystore_params : option (foreign KeystoreParams);
  cli_base_path : option string + string;
  rpc_http (default_listen_port : Z) : option (foreign SocketAddr) + string;
  rpc_ipc : option string + string;
  rpc_ws (default_listen_port : Z) : option (foreign SocketAddr) + string;
  prometheus_config (default_listen_port : Z) : option (foreign PrometheusConfig) + string;
  (** [None] is a panic. *)
  init : option (foreign TelemetryWorker + string);
  cli_chain_id (is_dev : bool) : string + string;
  role (is_dev : bool) : foreign Role + string;
  transaction_pool : foreign TransactionPoolOptions + string;
  state_cache_child_ratio : option Z + string;
  rpc_methods : foreign RpcMethods + string;
  rpc_ws_max_connections : option Z + string;
  rpc_cors (is_dev : bool) : option (list string) + string;
  telemetry_external_transport : option (foreign ExtTransport) + string;
  default_heap_pages : option Z + string;
  force_authoring : bool + string;
  disable_grandpa : bool + string;
  max_runtime_instances : option Z + string;
  announce_block : bool + string;
}.

(** ** The relay chain node of a parachain node *)

(** [base] is the command line inside the [RunCmd] of [polkadot_cli]. *)
Record RelayChainCli := {
  base : CliConfiguration;
  chain_id : option string;
  base_path : option string;
}.

(** [polkadot_cli::RunCmd::from_iter] and [SharedParams::base_path] *)
Context (from_iter : list string → CliConfiguration).
Context (shared_base_path : foreign SharedParams → option string).

Definition RelayChainCli_new (base_path chain_id : option string) (relay_chain_args : list string) :
    RelayChainCli :=
  {| base := from_iter relay_chain_args; chain_id := chain_id; base_path := base_path |}.

(** The command line of the relay chain node, as [run] makes it: the path of the node with
    [join("polkadot")], the relay chain of the specification, the arguments after [--]. *)
Definition relay_chain_cli (join : string → string → string) (config_base_path : option string)
    (relay_chain_id : option string) (executable_name : string) (relaychain_args : list string) :
    RelayChainCli :=
  RelayChainCli_new ((λ x, join x "polkadot"%string) <$> config_base_path) relay_chain_id
    (executable_name :: relaychain_args).

Definition Relay_base_path (self : RelayChainCli) : option string + string :=
  inl (match shared_base_path (shared_params (base self)) with
       | Some p => Some p
       | None => base_path self
       end).

Definition Relay_chain_id (self : RelayChainCli) (is_dev : bool) : string + string :=
  match cli_chain_id (base self) is_dev with
  | inr e => inr e
  | inl id =>
      inl (if bool_decide (id = "")%string then default ""%string (chain_id self) else id)
  end.

(** [CliConfiguration for RelayChainCli] *)
Definition Relay_configuration (self : RelayChainCli) : CliConfiguration := {|
  shared_params := shared_params (base self);
  import_params := import_params (base self);
  network_params := network_params (base self);
  keystore_params := keystore_params (base self);
  cli_base_path := Relay_base_path self;
  rpc_http port := rpc_http (base self) port;
  rpc_ipc := rpc_ipc (base self);
  rpc_ws port := rpc_ws (base self) port;
  prometheus_config port := prometheus_config (base self) port;
  init := None;
  cli_chain_id := Relay_chain_id self;
  role is_dev := role (base self) is_dev;
  transaction_pool := transaction_pool (base self);
  state_cache_child_ratio := state_cache_child_ratio (base self);
  rpc_methods := rpc_methods (base self);
  rpc_ws_max_connections := rpc_ws_max_connections (base self);
  rpc_cors is_dev := rpc_cors (base self) is_dev;
  telemetry_external_transport := telemetry_external_transport (base self);
  default_heap_pages := default_heap_pages (base self);
  force_authoring := force_authoring (base self);
  disable_grandpa := disable_grandpa (base self);
  max_runtime_instances := max_runtime_instances (base self);
  announce_block := announce_block (base self);
|}.
End command_line.

(** [SubstrateCli::load_spec for RelayChainCli]: two embedded files; the rest is for
    [polkadot_cli]. *)
Inductive RelaySpecSource :=
| EmbeddedRelayJson (path : string)
| PolkadotSpec (id : string).

Definition Relay_load_spec (id : string) : RelaySpecSource :=
  if bool_decide (id = "moonbase_alpha_relay") then
    EmbeddedRelayJson "specs/alphanet/rococo-embedded-specs-v6.json"
  else if bool_decide (id = "moonbase_stage_relay") then
    EmbeddedRelayJson "specs/stagenet/rococo-embedded-specs-v6.json"
  else PolkadotSpec id.

(** [DefaultConfigurationValues for RelayChainCli] *)
Record DefaultPorts := {
  p2p_listen_port : Z; rpc_ws_listen_port : Z; rpc_http_listen_port : Z; prometheus_listen_port : Z;
}.
Definition relay_default_ports : DefaultPorts := {|
  p2p_listen_port := 30334;
  rpc_ws_listen_port := 9945;
  rpc_http_listen_port := 9934;
  prometheus_listen_port := 9616;
|}.

(** The extensions of the embedded specifications ([src/specs]). *)
Definition embedded_extensions (path : string) : option Extensions :=
  if bool_decide (path = "specs/alphanet/parachain-embedded-specs-v6.json") then
    Some {| relay_chain := "moonbase_alpha_relay"; para_id := 1000 |}
  else if bool_decide (path = "specs/stagenet/parachain-embedded-specs-v6.json") then
    Some {| relay_chain := "moonbase_stage_relay"; para_id := 1000 |}
  else None.

(** [parse_h160]; [H160::from_str] is third-party code. *)
Definition parse_h160 (H160_from_str : string → option AccountId) (input : string) :
    AccountId + string :=
  match H160_from_str input with
  | Some a => inl a
  | None => inr "Failed to parse H160"%string
  end.

(** ** What the command lines say of themselves ([SubstrateCli]) *)

Record SubstrateCli := {
  impl_name : string;
  impl_version : string;
  description : string;
  author : string;
  support_url : string;
  copyright_start_year : Z;
}.

Definition newline : string := String.String (Ascii.ascii_of_nat 10) "".

Section texts.
(** Two variables of the build environment, and [Self::executable_name()]. *)
Context (SUBSTRATE_CLI_IMPL_VERSION CARGO_PKG_AUTHORS executable_name : string).

Definition usage (program : string) : string :=
  "The command-line arguments provided first will be " +:+
  "passed to the parachain node, while the arguments provided after -- will be passed " +:+
  "to the relaychain node." +:+ newline +:+ newline +:+
  program +:+ " [parachain-args] -- [relaychain-args]".

(** [SubstrateCli for Cli] *)
Definition Cli_texts : SubstrateCli := {|
  impl_name := "Moonbase Parachain Collator";
  impl_version := SUBSTRATE_CLI_IMPL_VERSION;
  description :=
    "Moonbase Parachain Collator" +:+ newline +:+ newline +:+ usage executable_name;
  author := CARGO_PKG_AUTHORS;
  support_url := "support.anonymous.an";
  copyright_start_year := 2017;
|}.

(** [SubstrateCli for RelayChainCli] *)
Definition Relay_texts : SubstrateCli := {|
  impl_name := "Moonbeam Parachain Collator";
  impl_version := SUBSTRATE_CLI_IMPL_VERSION;
  description :=
    "Moonbeam Parachain Collator" +:+ newline +:+ newline +:+ usage "parachain-collator";
  author := CARGO_PKG_AUTHORS;
  support_url := "support.anonymous.an";
  copyright_start_year := 2017;
|}.
End texts.

(** [SubstrateCli::native_runtime_version for Cli] *)
Definition Cli_native_runtime_version : RuntimeVersion := VERSION.
