(* ===== verification/ServiceTheorems.v ===== *)
(** * Services and commands: what they do, in which order

    The calls of the two services and of the sub-commands, whatever fails among them, and
    the relay chains that the embedded specifications name. *)

From S2P Require Import Prelude Frame StakeTypes Inflation AuthorInherent Runtime Node.
From S2P Require Import Service CommandLine Reference RuntimeTheorems.

(** ** Calls, by their effect on the log *)

Section calls.
Context (fails : Action → option string).
Implicit Types (log l : Log).

Lemma wp_call a (Q : Outcome Log string unit → Prop) log :
  (∀ e, fails a = Some e → Q (Failed e log)) → (fails a = None → Q (Done tt (log ++ [a]))) →
  wp (call fails a) Q log.
Proof. intros HF HN. unfold wp, call. destruct (fails a); [by apply HF|by apply HN]. Qed.

Lemma wp_act a (Q : Outcome Log string unit → Prop) log :
  Q (Done tt (log ++ [a])) → wp (act a) Q log.
Proof. done. Qed.

Lemma wp_try {A} (r : A + string) (Q : Outcome Log string A → Prop) log :
  (∀ a, r = inl a → Q (Done a log)) → (∀ e, r = inr e → Q (Failed e log)) →
  wp (try_ r) Q log.
Proof. intros HD HF. unfold wp, try_. destruct r; [by apply HD|by apply HF]. Qed.

(** What [new_partial] does before it fails, and when it does not. *)
Lemma wp_new_partial `{AC : AccountCodec} register author mock
    (Q : Outcome Log string PartialComponents → Prop) log :
  (∀ e l, l = [] ∨ l = [new_full_parts] →
    (build_inherent_data_providers register author mock = inr e ∨ ∃ a, fails a = Some e) →
    Q (Failed e (log ++ l))) →
  (∀ ps, build_inherent_data_providers register author mock = inl ps →
    Q (Done {| providers := ps; pc_pending_transactions := Some tt; pc_filter_pool := Some tt |}
        (log ++ [new_full_parts; import_queue ps]))) →
  wp (new_partial register fails author mock) Q log.
Proof.
  intros HF HD. unfold new_partial. apply wp_bind, wp_try; intros x Ex; cbn [bind_post].
  2: { rewrite <-(app_nil_r log). apply HF; by left. }
  apply wp_bind, wp_call; intros; cbn [bind_post].
  { rewrite <-(app_nil_r log). apply HF; [by left|right; by eexists]. }
  apply wp_bind, wp_call; intros; cbn [bind_post].
  { apply HF; [by right|right; by eexists]. }
  apply wp_ret. rewrite <-app_assoc. by apply HD.
Qed.
End calls.

(** Run a service: each call fails or is added to the log. *)
Ltac call_step :=
  lazymatch goal with
  | |- wp (mbind _ _) _ _ => apply wp_bind
  | |- wp (mret _) _ _ => apply wp_ret
  | |- wp (fail _) _ _ => apply wp_fail
  | |- wp (call _ _) _ _ => apply wp_call; intros
  | |- wp (act _) _ _ => apply wp_act
  | |- wp (try_ _) _ _ => apply wp_try; intros
  | |- wp (when true _) _ _ => apply wp_when; [intros _|done]
  | |- wp (when false _) _ _ => apply wp_when; [done|intros _]
  | |- bind_post _ _ _ => cbn [bind_post]
  end.
Ltac call_run := repeat (call_step; cbn beta iota).

(** ** The services *)

(** What a node does once it has started, for a service whose providers are [ps]: the calls
    before [start_network]. *)
Definition starts (config : Configuration) (s : Service) (ps : list Provider) (l : Log) : Prop :=
  import_queue ps ∈ l ∧
  (∀ t, spawn_essential t ∈ l ↔
    t = frontier_filter_pool ∨ t = frontier_pending_transactions ∨
    (collates s = true ∧ ∃ sealing author, s = new_dev sealing author true ∧
      t = authorship_task sealing ps)) ∧
  (∀ id ps', start_collator id ps' ∈ l ↔
    ps' = ps ∧ ∃ author, s = start_node author id true) ∧
  (∃ apis, (∀ apis', spawn_tasks apis' ∈ l ↔ apis' = apis) ∧ ∀ unsafe,
    SystemApi unsafe ∈ apis unsafe ∧ TxPoolApi ∈ apis unsafe ∧
    EthApi [] (collates s) ∈ apis unsafe ∧ EthFilterApi 500 ∈ apis unsafe ∧
    (ManualSealApi ∈ apis unsafe ↔ ∃ author, s = new_dev Manual author true)) ∧
  (build_offchain_workers ∈ l → offchain_worker_enabled config = true).

Section services.
Context `{AC : AccountCodec}.
Context (register : list Provider → Provider → list Provider + string).
Context (fails : Action → option string).

(** The postcondition of the theorem below, for a log that grows from [log]. *)
Definition started (config : Configuration) (s : Service) (log : Log)
    (o : Outcome Log string unit) : Prop :=
  match o with
  | Done _ log' => ∃ ps l,
      log' = log ++ l ++ [start_network] ∧ (start_network ∉ l) ∧
      service_providers register s = inl ps ∧ starts config s ps l
  | Failed e log' => ∃ l,
      log' = log ++ l ∧ (start_network ∉ l) ∧
      ((∃ a, fails a = Some e) ∨ service_providers register s = inr e ∨
       (l = [] ∧ role_light config = true ∧ mock_inherents s = false))
  | Panicked => False
  end.

Lemma started_failed config s log l log' e :
  log' = log ++ l → start_network ∉ l →
  ((∃ a, fails a = Some e) ∨ service_providers register s = inr e) →
  started config s log (Failed e log').
Proof. intros -> Hl He. exists l. split_and!; [done|done|naive_solver]. Qed.

Lemma started_done config s log ps l :
  start_network ∉ l → service_providers register s = inl ps → starts config s ps l →
  started config s log (Done tt (log ++ l ++ [start_network])).
Proof. intros. exists ps, l. done. Qed.

#[local] Ltac no_network := rewrite ?elem_of_cons, elem_of_nil; naive_solver.
#[local] Ltac solve_failed := eapply started_failed; [reflexivity|no_network|naive_solver].
#[local] Ltac solve_starts :=
  unfold starts; split_and!;
  [ no_network
  | intros t; no_network
  | intros id' ps'; no_network
  | eexists; split; [intros apis'; no_network|]; intros unsafe;
    unfold rpc_extensions_builder, create_full; cbn; split_and!; no_network
  | no_network ].

Lemma start_node_impl_started config author id collator log :
  wp (start_node_impl register fails config author id collator)
    (started config (start_node author id collator) log) log.
Proof.
  unfold start_node_impl. destruct (role_light config) eqn:Hrole.
  { apply wp_fail. exists []. rewrite app_nil_r. split_and!; [done|set_solver|naive_solver]. }
  call_run; [apply (started_failed _ _ _ []); [by rewrite app_nil_r|set_solver|naive_solver]|].
  apply wp_new_partial.
  { intros e l Hl He. cbn [bind_post].
    apply (started_failed _ _ _ (build_polkadot_full_node :: l));
      [by rewrite <-app_assoc|destruct Hl as [-> | ->]; no_network|naive_solver]. }
  intros ps Hps. cbn [bind_post pc_filter_pool pc_pending_transactions Service.providers].
  unfold spawn_maintenance. cbn [pc_filter_pool pc_pending_transactions].
  destruct collator; call_run; rewrite <-?app_assoc; cbn [app].
  all: try solve_failed.
  - apply (started_done _ _ _ ps [_; _; _; _; _; _; _; _]); [no_network|done|solve_starts].
  - apply (started_done _ _ _ ps [_; _; _; _; _; _; _; _]); [no_network|done|solve_starts].
Qed.

Lemma new_dev_service_started config sealing author collator log :
  wp (new_dev_service register fails config sealing author collator)
    (started config (new_dev sealing author collator) log) log.
Proof.
  unfold new_dev_service. apply wp_bind, wp_new_partial.
  { intros e l Hl He. cbn [bind_post].
    apply (started_failed _ _ _ l); [done|destruct Hl as [-> | ->]; no_network|naive_solver]. }
  intros ps Hps. cbn [bind_post Service.providers]. unfold spawn_maintenance.
  cbn [pc_filter_pool pc_pending_transactions].
  destruct collator, (offchain_worker_enabled config) eqn:Hoff; call_run;
    rewrite <-?app_assoc; cbn [app].
  all: try solve_failed.
  - apply (started_done _ _ _ ps [_; _; _; _; _; _; _; _]); [no_network|done|].
    destruct sealing; solve_starts.
  - apply (started_done _ _ _ ps [_; _; _; _; _; _; _]); [no_network|done|].
    destruct sealing; solve_starts.
  - apply (started_done _ _ _ ps [_; _; _; _; _; _; _]); [no_network|done|solve_starts].
  - apply (started_done _ _ _ ps [_; _; _; _; _; _]); [no_network|done|solve_starts].
Qed.

(** C33. Without a sub-command the node either starts the service that [run_node] chose, or
    does not start at all. It starts with the network as its last call and, before it, an
    import queue over the service's providers, both maintenance tasks as essential tasks,
    the authorship task or the collator exactly when it makes blocks, with the same
    providers, and one set of RPC handlers, which serves manual seal exactly when the
    development service seals on command. It stops at the error of a call, of the choice or
    of the providers, or because a parachain node cannot be light, and then the network is
    not started. *)
Theorem run_starts_the_service {Spec Header} open_spec generate encode_header build_storage CODE
    hex_display cli config extension genesis_block polkadot_config log :
  match @run _ register fails Spec Header open_spec generate encode_header build_storage CODE
          hex_display cli None config extension genesis_block polkadot_config log with
  | Done _ log' => ∃ s ps l,
      run_node cli extension genesis_block polkadot_config = inl s ∧
      log' = log ++ create_runner :: l ++ [start_network] ∧ (start_network ∉ l) ∧
      service_providers register s = inl ps ∧ starts config s ps l
  | Failed e log' => ∃ l, log' = log ++ l ∧ (start_network ∉ l) ∧
      ((∃ a, fails a = Some e) ∨
       run_node cli extension genesis_block polkadot_config = inr e ∨
       ∃ s, run_node cli extension genesis_block polkadot_config = inl s ∧
         (service_providers register s = inr e ∨
          (role_light config = true ∧ mock_inherents s = false)))
  | Panicked => False
  end.
Proof.
  match goal with |- match ?r log with _ => _ end => wp_start r log end.
  unfold run. apply wp_bind, wp_call; intros Hr; cbn [bind_post].
  { intros Ha. exists []. rewrite app_nil_r. split_and!; [done|set_solver|left; by eexists]. }
  apply wp_bind, wp_try; intros s Es; cbn [bind_post].
  2: { exists [create_runner]. split_and!; [done|no_network|naive_solver]. }
  eapply (wp_mono _ (started config s (log ++ [create_runner]))).
  - intros [[] log'|e log'|]; cbn [started]; [|intros (l & -> & Hl & He)|done].
    + intros (ps & l & -> & Hl & Hps & Hst). exists s, ps, l. by rewrite <-app_assoc.
    + exists (create_runner :: l). rewrite <-app_assoc.
      split_and!; [done|by rewrite not_elem_of_cons|naive_solver].
  - destruct s; [apply new_dev_service_started|apply start_node_impl_started].
Qed.
End services.

(** ** Sub-commands *)

(** Calls that are part of running a node, and calls that write output. *)
Definition runs_node (a : Action) : bool :=
  match a with
  | build_polkadot_full_node | build_network _ | build_offchain_workers | spawn_tasks _
  | spawn_essential _ | start_collator _ _ | start_full_node _ | start_network => true
  | _ => false
  end.
Definition written (output : option string) (buf : list Byte.byte) : Action :=
  match output with Some path => write_file path buf | None => write_stdout buf end.
Definition is_write (a : Action) : bool :=
  match a with write_file _ _ | write_stdout _ => true | _ => false end.

(** The options, with this parachain id. *)
Definition with_parachain_id (cli : Options) (id : Z) : Options := {|
  validator := validator cli; collator_flag := collator_flag cli; author_id := author_id cli;
  dev_service := dev_service cli; dev := dev cli; parachain_id_option := Some id;
  sealing := sealing cli;
|}.

Section commands.
Context `{AC : AccountCodec}.
Context (register : list Provider → Provider → list Provider + string).
Context (fails : Action → option string).
Context {Spec Header : Type} (open_spec : SpecSource → Spec + string).
Context (generate : Spec → Header + string) (encode_header : Header → list Byte.byte).
Context (build_storage : Spec → gmap string (list Byte.byte) + string) (CODE : string).
Context (hex_display : list Byte.byte → string).

(** The specification that a node with these options would run. *)
Definition node_spec (cli : Options) (chain : option string) : Spec + string :=
  match Cli_load_spec cli (default ""%string chain) with
  | inl source => open_spec source
  | inr e => inr e
  end.

(** What a sub-command writes when it succeeds. *)
Definition output_of (cli : Options) (sub : Subcommand) (l : list Action) : Prop :=
  match sub with
  | ExportGenesisState params => ∃ spec header,
      node_spec (with_parachain_id cli (es_parachain_id params)) (es_chain params) = inl spec ∧
      generate spec = inl header ∧
      l = [written (es_output params)
             (output_buf hex_display (es_raw params) (encode_header header))]
  | ExportGenesisWasm params => ∃ spec storage blob,
      node_spec cli (ew_chain params) = inl spec ∧ build_storage spec = inl storage ∧
      storage !! CODE = Some blob ∧
      l = [written (ew_output params) (output_buf hex_display (ew_raw params) blob)]
  | _ => filter is_write l = [] ∧
      ∀ op parts, operation op parts ∈ l →
        ∃ ps, build_inherent_data_providers register None false = inl ps ∧
          import_queue ps ∈ l ∧ ∀ ps', ImportQueue ps' ∈ parts → ps' = ps
  end.

(** A log that grows by calls that run no node, and write nothing when they end early. *)
Definition quiet (cli : Options) (sub : Subcommand) (log : Log) (o : Outcome Log string unit) :
    Prop :=
  match o with
  | Done _ log' => ∃ l, log' = log ++ l ∧ filter runs_node l = [] ∧ output_of cli sub l
  | Failed _ log' => ∃ l, log' = log ++ l ∧ filter runs_node l = [] ∧ filter is_write l = []
  | Panicked => False
  end.

Lemma quiet_failed cli sub log l log' e :
  log' = log ++ l → filter runs_node l = [] → filter is_write l = [] →
  quiet cli sub log (Failed e log').
Proof. intros. by exists l. Qed.

#[local] Ltac solve_quiet :=
  first
    [ eapply quiet_failed; [by rewrite app_nil_r|done|done]
    | eapply quiet_failed; [reflexivity|done|done] ].

Lemma run_operation_quiet cli sub op parts log :
  (∀ l, output_of cli sub l ↔ output_of cli Revert l) →
  (∀ pc ps, ImportQueue ps ∈ parts pc → ps = providers pc) →
  wp (run_operation register fails op parts) (quiet cli sub log) log.
Proof.
  intros Hsub Hparts. unfold run_operation. call_run; [solve_quiet|]. apply wp_new_partial.
  { intros e l Hl He. cbn [bind_post]. rewrite <-app_assoc.
    destruct Hl as [-> | ->]; solve_quiet. }
  intros ps Hps. cbn [bind_post]. rewrite <-app_assoc. cbn [app]. call_run; [solve_quiet|].
  rewrite <-app_assoc. cbn [app]. eexists. split_and!; [reflexivity|done|]. apply Hsub. split; [done|].
  intros op' parts' Hin. exists ps. split_and!; [done|set_solver|].
  intros ps' Hps'. rewrite !elem_of_cons, elem_of_nil in Hin.
  destruct_or! Hin; try done. injection Hin as -> ->. by apply Hparts in Hps'.
Qed.

Lemma write_output_quiet cli sub output buf log :
  output_of cli sub [written output buf] →
  wp (write_output fails output buf) (quiet cli sub log) log.
Proof.
  intros Hsub. unfold write_output.
  destruct output; call_run; [solve_quiet| |solve_quiet|];
    eexists; (split_and!; [reflexivity|done|done]).
Qed.

(** No sub-command runs a node: none builds a network, spawns a task or starts a
    collator. Only the two export commands write, once, as their last call, and nothing is
    written when a sub-command fails; what they write is the header of the genesis block,
    or the code in the genesis storage, of the specification that a node with the same chain
    and parachain id would run, in hexadecimal unless raw. The chain operations that check
    blocks get the import queue of providers that name no author. *)
Theorem subcommands_run_no_node cli sub config extension genesis_block polkadot_config log :
  quiet cli sub log
    (run register fails open_spec generate encode_header build_storage CODE hex_display
       cli (Some sub) config extension genesis_block polkadot_config log).
Proof.
  match goal with |- quiet _ _ _ (?r log) => wp_start r log end.
  unfold run. destruct sub as [params|params| | | | | | |]; cbn [run_subcommand].
  - unfold export_genesis_state. call_run; try solve_quiet.
    apply write_output_quiet. do 2 eexists. split_and!; [|done|done].
    unfold node_spec, Cli_load_spec. cbn.
    match goal with H : load_spec _ _ = inl _ |- _ => cbn in H; by rewrite H end.
  - unfold export_genesis_wasm, extract_genesis_wasm. call_run; try solve_quiet.
    destruct (_ !! CODE) eqn:Hblob; call_run; [|solve_quiet].
    apply write_output_quiet. do 3 eexists. split_and!; [|done|done|done].
    unfold node_spec. match goal with H : Cli_load_spec _ _ = inl _ |- _ => by rewrite H end.
  - call_run; try solve_quiet. eexists. split_and!; [by rewrite <-app_assoc|done|].
    split; [done|set_solver].
  - apply run_operation_quiet; [done|set_solver].
  - apply run_operation_quiet; [done|set_solver].
  - apply run_operation_quiet; [done|set_solver].
  - apply run_operation_quiet; [done|set_solver].
  - call_run; try solve_quiet. eexists. split_and!; [by rewrite <-app_assoc|done|].
    split; [done|set_solver].
  - apply run_operation_quiet; [done|set_solver].
Qed.
End commands.

(** ** Relay chains *)

(** A node with no option but its chain. *)
Definition plain_options (s : Sealing) : Options := {|
  validator := false; collator_flag := false; author_id := None; dev_service := false;
  dev := false; parachain_id_option := None; sealing := s;
|}.

Section relay_chains.
Context (foreign : Foreign → Type) (from_iter : list string → CliConfiguration foreign).
Context (shared_base_path : foreign SharedParams → option string).
Context (join : string → string → string).

(** Each embedded specification can be run: its extensions name a relay chain that the
    node embeds as well, so the node starts as a parachain node of this parachain, and the
    relay chain node beside it loads that relay chain unless an argument after [--] names
    another one. Its data lies in a folder of its own below the node's, unless an argument
    says otherwise. *)
Theorem embedded_chains_know_their_relay id para path config_base_path name args is_dev
    genesis_block polkadot_config s :
  load_spec id para = inl (EmbeddedJson path) →
  ∃ extension relay_path,
    embedded_extensions path = Some extension ∧
    Relay_load_spec (relay_chain extension) = EmbeddedRelayJson relay_path ∧
    (genesis_block = inl tt → polkadot_config = inl tt →
      run_node (plain_options s) (Some extension) genesis_block polkadot_config =
        inl (start_node None (para_id extension) false)) ∧
    let cli := Relay_configuration foreign shared_base_path (relay_chain_cli foreign from_iter
                 join config_base_path (Some (relay_chain extension)) name args) in
    let own := from_iter (name :: args) in
    cli_chain_id foreign cli is_dev =
      match cli_chain_id foreign own is_dev with
      | inl ""%string => inl (relay_chain extension)
      | other => other
      end ∧
    cli_base_path foreign cli =
      inl match shared_base_path (shared_params foreign own) with
          | Some p => Some p
          | None => (λ x, join x "polkadot"%string) <$> config_base_path
          end.
Proof.
  intros E.
  assert (path = "specs/alphanet/parachain-embedded-specs-v6.json"%string ∨
          path = "specs/stagenet/parachain-embedded-specs-v6.json"%string) as Hpath.
  { unfold load_spec in E. repeat case_bool_decide; simplify_eq; auto. }
  destruct Hpath as [-> | ->]; do 2 eexists;
    (split_and!; [done|done|by intros -> ->|split; [|done]]);
    cbn; unfold Relay_chain_id; cbn; destruct (cli_chain_id _ _ is_dev) as [[|c own]|e]; done.
Qed.
End relay_chains.

(** A relay chain node whose arguments are read as [--chain], or nothing. *)
Definition no_foreign (_ : Foreign) : Type := unit.
Definition toy_from_iter (args : list string) : CliConfiguration no_foreign := {|
  shared_params := tt; import_params := None; network_params := None; keystore_params := None;
  cli_base_path := inl None; rpc_http _ := inl None; rpc_ipc := inl None; rpc_ws _ := inl None;
  prometheus_config _ := inl None; init := None;
  cli_chain_id _ := inl (default ""%string (last (tail args)));
  role _ := inl tt; transaction_pool := inl tt; state_cache_child_ratio := inl None;
  rpc_methods := inl tt; rpc_ws_max_connections := inl None; rpc_cors _ := inl None;
  telemetry_external_transport := inl None; default_heap_pages := inl None;
  force_authoring := inl false; disable_grandpa := inl false;
  max_runtime_instances := inl None; announce_block := inl true;
|}.
Definition toy_relay (extension : Extensions) : CliConfiguration no_foreign :=
  Relay_configuration no_foreign (λ _, None) (relay_chain_cli no_foreign toy_from_iter
    (λ a b, a +:+ "/" +:+ b) (Some "/data"%string) (Some (relay_chain extension))
    "moonbeam"%string []).

Lemma embedded_chains_know_their_relay_witness :
  ∃ extension relay_path,
    embedded_extensions "specs/alphanet/parachain-embedded-specs-v6.json" = Some extension ∧
    Relay_load_spec (relay_chain extension) = EmbeddedRelayJson relay_path ∧
    run_node (plain_options Instant) (Some extension) (inl tt) (inl tt) =
      inl (start_node None (para_id extension) false) ∧
    cli_chain_id no_foreign (toy_relay extension) false = inl (relay_chain extension) ∧
    cli_base_path no_foreign (toy_relay extension) = inl (Some "/data/polkadot"%string).
Proof.
  destruct (embedded_chains_know_their_relay no_foreign toy_from_iter (λ _, None)
    (λ a b, a +:+ "/" +:+ b)
    "alphanet" 1000 _ (Some "/data"%string) "moonbeam" [] false (inl tt) (inl tt) Instant eq_refl)
    as (extension & relay_path & H1 & H2 & H3 & H4 & H5).
  exists extension, relay_path. split_and!; [done|done|by apply H3|done|done].
Defined.

(** ** Concrete runs *)

#[local] Existing Instances plain_codec.

(** The collecting registry, and calls that succeed unless they are this one. *)
Definition append (ps : list Provider) (p : Provider) : list Provider + string := inl (ps ++ [p]).
Definition only_fails (b : Action → bool) (a : Action) : option string :=
  if b a then Some "broken"%string else None.

Definition toy_run (b : Action → bool) (sub : option Subcommand) (extension : Extensions) :=
  run append (only_fails b) (λ s, inl s) (λ _ : SpecSource, inl tt) (λ _, [])
    (λ _, inl {[ ":code" := [] ]}) ":code" (λ _, ""%string) (plain_options Manual) sub
    {| role_light := false; offchain_worker_enabled := true |} (Some extension) (inl tt) (inl tt) [].

(** The development service makes blocks for nobody unless [--dev], [--collator] or
    [--validator] is given; a parachain node does not either. *)
Example run_dev_service :
  match toy_run (λ _, false) None {| relay_chain := "dev-service"; para_id := 0 |} with
  | Done _ log => last log = Some start_network ∧ length log = 9%nat
  | _ => False
  end.
Proof. vm_compute. done. Qed.
Example run_parachain_node_fails :
  match toy_run (λ a, match a with start_full_node 1000 => true | _ => false end) None
          {| relay_chain := "moonbase_alpha_relay"; para_id := 1000 |} with
  | Failed e log => e = "broken"%string ∧ length log = 8%nat
  | _ => False
  end.
Proof. vm_compute. done. Qed.
