(* ===== verification/TokenDealer.v ===== *)
(** * The token dealer ([src/pallets/token-dealer/src/lib.rs])

    Tokens that leave for the relay chain or for another parachain are withdrawn here and
    announced in a message; tokens that arrive are deposited, or moved out of the account
    of the parachain they come from. *)

From S2P Require Import Prelude Frame.

(** The functions of [Currency] this pallet uses. An imbalance is an amount; dropping a
    negative one takes it off the issuance, dropping a positive one adds it. *)
Class DealerCurrency (Cur : Type) := {
  dealer_balance : Cur → AccountId → Balance;
  dealer_issuance : Cur → Balance;
  withdraw : Cur → AccountId → Balance → (Cur * Balance) + string;
  drop_negative : Cur → Balance → Cur;
  deposit_creating : Cur → AccountId → Balance → Cur * Balance;
  drop_positive : Cur → Balance → Cur;
  transfer : Cur → AccountId → AccountId → Balance → Cur + string;
}.

(** Their documented behaviour: a withdrawal takes the amount from one account, a transfer
    moves it, and a deposit adds "up to" the amount, which is the imbalance. *)
Class DealerCurrencyLaws (Cur : Type) `{!DealerCurrency Cur} : Prop := {
  withdraw_balance c who x c' imb b :
    withdraw c who x = inl (c', imb) →
    dealer_balance (drop_negative c' imb) b =
      dealer_balance c b - (if decide (b = who) then x else 0);
  withdraw_issuance c who x c' imb :
    withdraw c who x = inl (c', imb) →
    dealer_issuance (drop_negative c' imb) = dealer_issuance c - x;
  transfer_balance c from to x c' b :
    transfer c from to x = inl c' →
    dealer_balance c' b =
      dealer_balance c b - (if decide (b = from) then x else 0)
                         + (if decide (b = to) then x else 0);
  transfer_issuance c from to x c' :
    transfer c from to x = inl c' → dealer_issuance c' = dealer_issuance c;
  deposit_issuance c who x c' imb :
    deposit_creating c who x = (c', imb) →
    imb <= x ∧ dealer_issuance (drop_positive c' imb) = dealer_issuance c + imb;
}.

(** The senders of messages, with the state of the pallet that queues them; [None] is an
    error. *)
Class MessageSender (Queue Msg : Type) := send : Queue → Msg → option Queue.

(** A message that is sent is queued, after the others. *)
Class MessageQueue (Queue Msg : Type) `{!MessageSender Queue Msg} := {
  queued : Queue → list Msg;
  send_queued q m q' : send q m = Some q' → queued q' = queued q ++ [m];
}.

Module TokenDealer.

(** [XCMPMessage] *)
Inductive XCMPMessage := TransferToken (dest : AccountId) (amount : Balance).

(** What [UpwardMessage::transfer] makes of its arguments. *)
Record UpwardTransfer (Relay : Type) := { relay_dest : Relay; relay_amount : Balance }.
Arguments Build_UpwardTransfer {Relay} _ _.

(** [DownwardMessage]: the variant that is handled, and the others. *)
Inductive DownwardMessage (Relay : Type) :=
| TransferInto (dest : Relay) (amount : Z)
| OtherDownward.
Arguments TransferInto {Relay} _ _.
Arguments OtherDownward {Relay}.

Inductive Event (Relay : Type) :=
| TransferredTokensToRelayChain (dest : Relay) (amount : Balance)
| TransferredTokensFromRelayChain (dest : AccountId) (amount : Balance)
| TransferredTokensViaXCMP (src : Z) (dest : AccountId) (amount : Balance)
    (res : unit + string).
Arguments TransferredTokensToRelayChain {Relay} _ _.
Arguments TransferredTokensFromRelayChain {Relay} _ _.
Arguments TransferredTokensViaXCMP {Relay} _ _ _ _.

Record World (Cur Up Xcmp Relay : Type) := MkWorld {
  currency : Cur;
  upward : Up;
  xcmp : Xcmp;
  events : list (Event Relay);
}.
Arguments MkWorld {Cur Up Xcmp Relay} _ _ _ _.
Arguments currency {Cur Up Xcmp Relay} _.
Arguments upward {Cur Up Xcmp Relay} _.
Arguments xcmp {Cur Up Xcmp Relay} _.
Arguments events {Cur Up Xcmp Relay} _.

Section pallet.
Context {Origin Cur Up Xcmp Relay : Type} `{FO : FrameOrigin Origin, DC : DealerCurrency Cur}.
Context `{UM : MessageSender Up (UpwardTransfer Relay)}.
Context `{XM : MessageSender Xcmp (Z * XCMPMessage)}.
(** [ParaId::into_account], and the two uses of [convert_hack]; [None] is its panic. *)
Context (into_account : Z → AccountId).
Context (convert_account : Relay → option AccountId) (convert_amount : Z → option Balance).
Local Notation W := (World Cur Up Xcmp Relay).
Local Notation M := (Prog W (DispatchError Empty_set)).

Definition set_currency (c : Cur) (w : W) : W := MkWorld c (upward w) (xcmp w) (events w).
Definition deposit_event (e : Event Relay) : M unit :=
  modify (λ w, MkWorld (currency w) (upward w) (xcmp w) (events w ++ [e])).

(** [let _ = T::Currency::withdraw(..)?;] drops the imbalance at once. *)
Definition withdraw_from (who : AccountId) (amount : Balance) : M unit :=
  r ← gets (λ w, withdraw (currency w) who amount);
  match r with
  | inl (c, imb) => modify (set_currency (drop_negative c imb))
  | inr e => fail (External e)
  end.

Definition transfer_tokens_to_relay_chain (origin : Origin) (dest : Relay) (amount : Balance) :
    M unit :=
  who ← ok_or (ensure_signed origin) BadOrigin;
  withdraw_from who amount;;
  let msg := Build_UpwardTransfer dest amount in
  sent ← gets (λ w, send (upward w) msg);
  q ← expect sent;
  modify (λ w, MkWorld (currency w) q (xcmp w) (events w));;
  deposit_event (TransferredTokensToRelayChain dest amount).

Definition transfer_tokens_to_parachain_chain (origin : Origin) (para_id : Z)
    (dest : AccountId) (amount : Balance) : M unit :=
  who ← ok_or (ensure_signed origin) BadOrigin;
  withdraw_from who amount;;
  sent ← gets (λ w, send (xcmp w) (para_id, TransferToken dest amount));
  q ← expect sent;
  modify (λ w, MkWorld (currency w) (upward w) q (events w)).

Definition handle_downward_message (msg : DownwardMessage Relay) : M unit :=
  match msg with
  | TransferInto dest amount =>
      dest ← expect (convert_account dest);
      amount ← expect (convert_amount amount);
      modify (λ w, let '(c, imb) := deposit_creating (currency w) dest amount in
                   set_currency (drop_positive c imb) w);;
      deposit_event (TransferredTokensFromRelayChain dest amount)
  | OtherDownward => mret tt
  end.

Definition handle_xcmp_message (src : Z) (msg : XCMPMessage) : M unit :=
  let 'TransferToken dest amount := msg in
  let para_account := into_account src in
  res ← gets (λ w, transfer (currency w) para_account dest amount);
  match res with
  | inl c =>
      modify (set_currency c);;
      deposit_event (TransferredTokensViaXCMP src dest amount (inl tt))
  | inr e => deposit_event (TransferredTokensViaXCMP src dest amount (inr e))
  end.

(** ** What the transfers guarantee *)

(** [amount] has been taken from [who], and from the issuance. *)
Definition burned (who : AccountId) (amount : Balance) (w w' : W) : Prop :=
  (∀ b, dealer_balance (currency w') b =
        dealer_balance (currency w) b - (if decide (b = who) then amount else 0)) ∧
  dealer_issuance (currency w') = dealer_issuance (currency w) - amount.

Lemma wp_withdraw_from `{DL : !DealerCurrencyLaws Cur} who amount (w : W) Q :
  (∀ c, burned who amount w (set_currency c w) → Q (Done tt (set_currency c w))) →
  (∀ e, withdraw (currency w) who amount = inr e → Q (Failed (External e) w)) →
  wp (withdraw_from who amount) Q w.
Proof using.
  intros HD HF. unfold withdraw_from. apply wp_bind, wp_gets. cbn [bind_post].
  destruct (withdraw (currency w) who amount) as [[c imb]|e] eqn:E.
  - apply wp_modify, HD. split; [intros b|]; cbn [currency set_currency].
    + by eapply withdraw_balance.
    + by eapply withdraw_issuance.
  - by apply wp_fail, HF.
Qed.

(** *** All messages together *)

(** What an operation leaves, whether it fails or not. *)
Definition leaves (m : M unit) (w w' : W) : Prop :=
  m w = Done tt w' ∨ ∃ e, m w = Failed e w'.

Lemma leaves_wp (R : W → Prop) m w w' :
  wp m (λ o, match o with Done _ w' | Failed _ w' => R w' | Panicked => True end) w →
  leaves m w w' → R w'.
Proof. unfold wp. intros Hm H. by destruct H as [E|[e E]]; rewrite E in Hm. Qed.

(** The operations of the pallet, in any order. *)
Inductive dealer_step (w w' : W) : Prop :=
| to_relay_chain origin dest amount :
    leaves (transfer_tokens_to_relay_chain origin dest amount) w w' → dealer_step w w'
| to_parachain origin para_id dest amount :
    leaves (transfer_tokens_to_parachain_chain origin para_id dest amount) w w' →
    dealer_step w w'
| from_relay_chain msg : leaves (handle_downward_message msg) w w' → dealer_step w w'
| from_parachain src msg : leaves (handle_xcmp_message src msg) w w' → dealer_step w w'.

Context `{UQ : !MessageQueue Up (UpwardTransfer Relay), XQ : !MessageQueue Xcmp (Z * XCMPMessage)}.

Definition xcmp_amount (m : Z * XCMPMessage) : Balance :=
  let 'TransferToken _ amount := m.2 in amount.
(** What has arrived from the relay chain. *)
Definition arrived (e : Event Relay) : Balance :=
  match e with TransferredTokensFromRelayChain _ amount => amount | _ => 0 end.

(** The tokens on the chain and those that have left in messages, without those that have
    arrived. *)
Definition supply (w : W) : Z :=
  dealer_issuance (currency w) + zsum (relay_amount Relay) (queued (upward w)) +
  zsum xcmp_amount (queued (xcmp w)) - zsum arrived (events w).
End pallet.
End TokenDealer.
