(* ===== verification/DealerTheorems.v ===== *)
(** * The token dealer: what it guarantees *)

From S2P Require Import Prelude Frame TokenDealer Reference.

Section dealer.
Context {Origin Cur Up Xcmp Relay : Type} `{FO : FrameOrigin Origin, DC : DealerCurrency Cur}.
Context {DL : DealerCurrencyLaws Cur}.
Context `{UM : MessageSender Up (TokenDealer.UpwardTransfer Relay)}.
Context `{XM : MessageSender Xcmp (Z * TokenDealer.XCMPMessage)}.
Context (into_account : Z → AccountId).
Local Notation W := (TokenDealer.World Cur Up Xcmp Relay).
Local Notation burned := (TokenDealer.burned (Cur := Cur) (Up := Up) (Xcmp := Xcmp) (Relay := Relay)).

(** Tokens that leave for the relay chain are burned if and only if the message that
    announces the same amount is queued: a call that fails changes nothing, and one whose
    message cannot be queued panics. Tokens that arrive from a parachain only move, from
    that parachain's account, so the issuance stays; the event says whether they did. *)
Lemma dealer_moves_what_it_announces origin (dest : Relay) amount src to (w : W) :
  match TokenDealer.transfer_tokens_to_relay_chain origin dest amount w with
  | Done _ w' =>
      ∃ who, ensure_signed origin = Some who ∧ burned who amount w w' ∧
        send (TokenDealer.upward w) (TokenDealer.Build_UpwardTransfer dest amount) =
          Some (TokenDealer.upward w') ∧
        TokenDealer.events w' = TokenDealer.events w ++
          [TokenDealer.TransferredTokensToRelayChain dest amount]
  | Failed e w' =>
      w' = w ∧ (e = BadOrigin ∧ ensure_signed origin = None ∨
                ∃ who r, withdraw (TokenDealer.currency w) who amount = inr r ∧ e = External r)
  | Panicked =>
      send (TokenDealer.upward w) (TokenDealer.Build_UpwardTransfer dest amount) = None
  end ∧
  ∃ w' moved,
    TokenDealer.handle_xcmp_message into_account src (TokenDealer.TransferToken to amount) w =
      Done tt w' ∧
    TokenDealer.events w' = TokenDealer.events w ++
      [TokenDealer.TransferredTokensViaXCMP src to amount moved] ∧
    dealer_issuance (TokenDealer.currency w') = dealer_issuance (TokenDealer.currency w) ∧
    TokenDealer.upward w' = TokenDealer.upward w ∧ TokenDealer.xcmp w' = TokenDealer.xcmp w ∧
    ∀ b, dealer_balance (TokenDealer.currency w') b =
      dealer_balance (TokenDealer.currency w) b +
      match moved with
      | inl _ => (if decide (b = to) then amount else 0) -
                 (if decide (b = into_account src) then amount else 0)
      | inr _ => 0
      end.
Proof using DL.
  split.
  - wp_start (TokenDealer.transfer_tokens_to_relay_chain (Cur := Cur) (Xcmp := Xcmp)
      origin dest amount) w.
    unfold TokenDealer.transfer_tokens_to_relay_chain.
    apply wp_bind, wp_ok_or; [intros who Hwho|naive_solver]. cbn [bind_post].
    apply wp_bind, TokenDealer.wp_withdraw_from; [intros c Hc|intros e He; naive_solver].
    cbn [bind_post]. cbv zeta. apply wp_bind, wp_gets. cbn [bind_post].
    apply wp_bind, wp_expect; [intros q Hq|done]. cbn [bind_post].
    apply wp_bind, wp_modify. cbn [bind_post]. apply wp_modify. by exists who.
  - unfold TokenDealer.handle_xcmp_message.
    destruct (transfer (TokenDealer.currency w) (into_account src) to amount) as [c|e] eqn:E.
    + eexists _, (inl tt). split.
      { unfold mbind, Prog_bind, gets. cbn. rewrite E. reflexivity. }
      cbn. split_and!; try done; [by eapply transfer_issuance|]. intros b.
      rewrite (transfer_balance _ _ _ _ _ b E). lia.
    + eexists _, (inr e). split.
      { unfold mbind, Prog_bind, gets. cbn. rewrite E. reflexivity. }
      cbn. split_and!; try done. intros b. lia.
Qed.

(** ** All operations together *)

Context (convert_account : Relay → option AccountId) (convert_amount : Z → option Balance).
Context `{UQ : !MessageQueue Up (TokenDealer.UpwardTransfer Relay)}.
Context `{XQ : !MessageQueue Xcmp (Z * TokenDealer.XCMPMessage)}.
Local Notation supply := (TokenDealer.supply (Cur := Cur) (Up := Up) (Xcmp := Xcmp) (Relay := Relay)).

(** No deposit is dropped for being below the existential deposit. *)
Definition deposits_in_full : Prop :=
  ∀ (c c' : Cur) who x imb, deposit_creating c who x = (c', imb) → imb = x.
Definition conserved (w w' : W) : Prop :=
  supply w' <= supply w ∧ (deposits_in_full → supply w' = supply w).
Definition conserves (m : Prog W (DispatchError Empty_set) unit) : Prop :=
  ∀ w, wp m (λ o, match o with Done _ w' | Failed _ w' => conserved w w' | Panicked => True end) w.

#[local] Instance conserved_preorder : PreOrder conserved.
Proof.
  split; [by intros w|]. intros w1 w2 w3 [H1 E1] [H2 E2].
  split; [lia|]. intros H. rewrite E2, E1; done.
Qed.

Lemma same_supply w w' : supply w' = supply w → conserved w w'.
Proof. intros H. split; [lia|done]. Qed.

Lemma leaves_conserved m w w' : conserves m → TokenDealer.leaves m w w' → conserved w w'.
Proof. intros Hm. exact (TokenDealer.leaves_wp (conserved w) m w w' (Hm w)). Qed.

Lemma to_relay_chain_conserves origin dest amount :
  conserves (TokenDealer.transfer_tokens_to_relay_chain origin dest amount).
Proof using DL.
  intros w. unfold TokenDealer.transfer_tokens_to_relay_chain.
  apply wp_bind, wp_ok_or; [intros who Hwho|done]. cbn [bind_post].
  apply wp_bind, TokenDealer.wp_withdraw_from; [intros c [_ Hc]|done].
  cbn [bind_post]. cbv zeta. apply wp_bind, wp_gets. cbn [bind_post].
  apply wp_bind, wp_expect; [intros q Hq|done]. cbn [bind_post].
  apply wp_bind, wp_modify. cbn [bind_post]. apply wp_modify, same_supply.
  apply send_queued in Hq. unfold TokenDealer.supply. cbn -[zsum] in *. rewrite Hq, Hc, !zsum_app. cbn. lia.
Qed.

Lemma to_parachain_conserves origin para_id dest amount :
  conserves (TokenDealer.transfer_tokens_to_parachain_chain origin para_id dest amount).
Proof using DL.
  intros w. unfold TokenDealer.transfer_tokens_to_parachain_chain.
  apply wp_bind, wp_ok_or; [intros who Hwho|done]. cbn [bind_post].
  apply wp_bind, TokenDealer.wp_withdraw_from; [intros c [_ Hc]|done].
  cbn [bind_post]. apply wp_bind, wp_gets. cbn [bind_post].
  apply wp_bind, wp_expect; [intros q Hq|done]. cbn [bind_post]. apply wp_modify, same_supply.
  apply send_queued in Hq. unfold TokenDealer.supply. cbn -[zsum] in *. rewrite Hq, Hc, !zsum_app. cbn. lia.
Qed.

Lemma from_relay_chain_conserves msg :
  conserves (TokenDealer.handle_downward_message convert_account convert_amount msg).
Proof using DL.
  intros w. destruct msg as [dest amount|]; cbn [TokenDealer.handle_downward_message]; [|done].
  apply wp_bind, wp_expect; [intros who _|done]. cbn [bind_post].
  apply wp_bind, wp_expect; [intros x _|done]. cbn [bind_post].
  apply wp_bind, wp_modify. cbn [bind_post].
  destruct (deposit_creating (TokenDealer.currency w) who x) as [c imb] eqn:E.
  apply wp_modify. destruct (deposit_issuance _ _ _ _ _ E) as [Hle Hi].
  unfold conserved, TokenDealer.supply. cbn -[zsum]. rewrite Hi, zsum_app. cbn.
  split; [lia|]. intros Hfull. rewrite (Hfull _ _ _ _ _ E). lia.
Qed.

Lemma from_parachain_conserves src msg :
  conserves (TokenDealer.handle_xcmp_message into_account src msg).
Proof using DL.
  intros w. destruct msg as [dest amount]. cbn [TokenDealer.handle_xcmp_message]. cbv zeta.
  apply wp_bind, wp_gets. cbn [bind_post].
  destruct (transfer _ _ _ _) as [c|e] eqn:E.
  - apply wp_bind, wp_modify. cbn [bind_post]. apply wp_modify, same_supply.
    apply transfer_issuance in E. unfold TokenDealer.supply. cbn -[zsum]. rewrite E, zsum_app. cbn. lia.
  - apply wp_modify, same_supply. unfold TokenDealer.supply. cbn -[zsum]. rewrite zsum_app. cbn. lia.
Qed.

(** C38. Tokens are conserved. Whatever transfers are requested and whatever messages arrive,
    in any order, and whether they succeed or fail, the tokens on the chain and those in
    the messages it has sent are never more than there were at the start and have arrived
    from the relay chain since; they are exactly as many unless the currency drops a
    deposit that is too small. *)
Theorem tokens_are_conserved w w' :
  rtc (TokenDealer.dealer_step (Origin := Origin) into_account convert_account convert_amount)
    w w' →
  supply w' <= supply w ∧ (deposits_in_full → supply w' = supply w).
Proof using DL.
  change (rtc (TokenDealer.dealer_step (Origin := Origin) into_account convert_account
    convert_amount) w w' → conserved w w').
  induction 1 as [w|w1 w2 w3 Hst _ IH]; [done|]. trans w2; [|done].
  destruct Hst as [origin dest amount H|origin para_id dest amount H|msg H|src msg H];
    (eapply leaves_conserved; [|exact H]); auto using to_relay_chain_conserves,
      to_parachain_conserves, from_relay_chain_conserves, from_parachain_conserves.
Qed.
End dealer.

(** ** Witness *)

(** Balances without a minimum; every message is queued. *)
Record Purse := MkPurse { purses : gmap Z Z; coins : Z }.
Definition purse (c : Purse) (a : AccountId) : Z := default 0 (purses c !! a).
Definition purse_add (c : Purse) (a : AccountId) (x : Z) : gmap Z Z :=
  <[a := purse c a + x]> (purses c).

#[local] Instance purse_currency : DealerCurrency Purse := {
  dealer_balance := purse;
  dealer_issuance := coins;
  withdraw c who x :=
    if x <=? purse c who then inl (MkPurse (purse_add c who (- x)) (coins c), x)
    else inr "InsufficientBalance"%string;
  drop_negative c x := MkPurse (purses c) (coins c - x);
  deposit_creating c who x := (MkPurse (purse_add c who x) (coins c), x);
  drop_positive c x := MkPurse (purses c) (coins c + x);
  transfer c from to x :=
    if x <=? purse c from then
      let c' := MkPurse (purse_add c from (- x)) (coins c) in
      inl (MkPurse (purse_add c' to x) (coins c))
    else inr "InsufficientBalance"%string;
}.

Lemma purse_insert m n a x b :
  purse (MkPurse (<[a := x]> m) n) b = if decide (b = a) then x else purse (MkPurse m n) b.
Proof.
  unfold purse. cbn. case_decide; [subst; by rewrite lookup_insert_eq|].
  by rewrite lookup_insert_ne.
Qed.

#[local] Instance purse_laws : DealerCurrencyLaws Purse.
Proof.
  split; cbn; unfold purse_add.
  - intros c who x c' imb b. destruct (x <=? purse c who); [|done]. intros [= <- <-]. cbn.
    rewrite purse_insert. destruct (decide (b = who)) as [->|]; [lia|]. unfold purse; cbn. lia.
  - intros c who x c' imb. destruct (x <=? purse c who); [|done]. by intros [= <- <-].
  - intros c from to x c' b. destruct (x <=? purse c from); [|done]. intros [= <-].
    rewrite !purse_insert. change (purse (MkPurse (purses c) (coins c))) with (purse c).
    repeat case_decide; subst; lia.
  - intros c from to x c'. destruct (x <=? purse c from); [|done]. by intros [= <-].
  - intros c who x c' imb [= <- <-]. done.
Qed.

#[local] Instance queue_all {Msg} : MessageSender (list Msg) Msg := λ q m, Some (q ++ [m]).
#[local] Instance queue_all_queue {Msg} : MessageQueue (list Msg) Msg.
Proof. refine {| queued := id |}. by intros q m q' [= <-]. Defined.

Abbreviation DealerWorld := (TokenDealer.World Purse (list (TokenDealer.UpwardTransfer Z))
  (list (Z * TokenDealer.XCMPMessage)) Z).

(** Account 1 sends 30 to the relay chain and 20 to parachain 7, and cannot send 500 more;
    15 arrive from the relay chain, and 10 of the account of parachain 200 are moved. *)
Module Transfers.
Definition w0 : DealerWorld := TokenDealer.MkWorld (MkPurse {[1 := 100; 2000 := 50]} 150) [] [] [].
Definition left_by (m : Prog DealerWorld (DispatchError Empty_set) unit) (w : DealerWorld) :
    DealerWorld := match m w with Done _ w' | Failed _ w' => w' | Panicked => w end.
Definition w1 := left_by (TokenDealer.transfer_tokens_to_relay_chain (Signed 1) 9 30) w0.
Definition w2 := left_by (TokenDealer.transfer_tokens_to_parachain_chain (Signed 1) 7 8 20) w1.
Definition w3 := left_by (TokenDealer.transfer_tokens_to_relay_chain (Signed 1) 9 500) w2.
Definition w4 :=
  left_by (TokenDealer.handle_downward_message Some Some (TokenDealer.TransferInto 3 15)) w3.
Definition w5 :=
  left_by (TokenDealer.handle_xcmp_message (Z.mul 10) 200 (TokenDealer.TransferToken 4 10)) w4.

Lemma left_by_leaves m w : m w ≠ Panicked → TokenDealer.leaves m w (left_by m w).
Proof.
  unfold TokenDealer.leaves, left_by. destruct (m w) as [[] w'|e w'|]; [by left| |done].
  intros _. right. by exists e.
Qed.

Lemma transfers :
  rtc (TokenDealer.dealer_step (Origin := RawOrigin) (Z.mul 10) Some Some) w0 w5.
Proof.
  apply (rtc_l _ _ w1); [|apply (rtc_l _ _ w2); [|apply (rtc_l _ _ w3); [|
    apply (rtc_l _ _ w4); [|apply rtc_once]]]];
    [apply TokenDealer.to_relay_chain with (Signed 1) 9 30
    |apply TokenDealer.to_parachain with (Signed 1) 7 8 20
    |apply TokenDealer.to_relay_chain with (Signed 1) 9 500
    |apply TokenDealer.from_relay_chain with (TokenDealer.TransferInto 3 15)
    |apply TokenDealer.from_parachain with 200 (TokenDealer.TransferToken 4 10)];
    apply left_by_leaves; vm_compute; discriminate.
Qed.
End Transfers.

Lemma tokens_are_conserved_witness :
  dealer_issuance (TokenDealer.currency Transfers.w5) = 115 ∧
  TokenDealer.supply Transfers.w5 = TokenDealer.supply Transfers.w0.
Proof.
  split; [vm_compute; reflexivity|].
  assert (deposits_in_full (Cur := Purse)) as H by (intros c c' who x imb [= _ <-]; reflexivity).
  exact (proj2 (tokens_are_conserved (Z.mul 10) Some Some Transfers.w0 Transfers.w5
    Transfers.transfers) H).
Defined.
