(* ===== verification/Channels.v ===== *)
(** * Transfers between parachains, with both ends

    Chains that run the token dealer, and the channels between them. What a channel does is
    not in the repository: as documented, it hands each message to the chain it is for,
    once, in the order of sending. Everything that is sent is then accounted for at the
    other end: moved, refused there, or still on its way. *)

From S2P Require Import Prelude Frame TokenDealer DealerTheorems Reference.

Section network.
Context {Origin Cur Up Xcmp Relay : Type} `{FO : FrameOrigin Origin, DC : DealerCurrency Cur}.
Context {DL : DealerCurrencyLaws Cur}.
Context `{UM : MessageSender Up (TokenDealer.UpwardTransfer Relay)}.
Context `{XM : MessageSender Xcmp (Z * TokenDealer.XCMPMessage)}.
Context `{XQ : !MessageQueue Xcmp (Z * TokenDealer.XCMPMessage)}.
Context (into_account : Z → AccountId).
Context (convert_account : Relay → option AccountId) (convert_amount : Z → option Balance).
Local Notation W := (TokenDealer.World Cur Up Xcmp Relay).
Local Notation amount := TokenDealer.xcmp_amount.

(** The messages that a chain has sent to another, and how the other end of a channel
    announces what became of one: it was moved, or it was refused. *)
Definition outbox (dst : Z) (w : W) : list (Z * TokenDealer.XCMPMessage) :=
  filter (λ m, m.1 = dst) (queued (TokenDealer.xcmp w)).
Definition settled_as (moved : bool) (src : Z) (e : TokenDealer.Event Relay) : Balance :=
  match e with
  | TokenDealer.TransferredTokensViaXCMP src' _ x res =>
      if decide (src' = src) then
        match res with inl _ => if moved then x else 0 | inr _ => if moved then 0 else x end
      else 0
  | _ => 0
  end.
Definition settled (src : Z) (w : W) : Z :=
  zsum (settled_as true src) (TokenDealer.events w) +
  zsum (settled_as false src) (TokenDealer.events w).

(** [seen n src dst] messages of the channel have been handed over. *)
Record Network := Net { chains : gmap Z W; seen : Z → Z → nat }.

(** What a chain does by itself. *)
Inductive local_step (w w' : W) : Prop :=
| local_to_relay origin dest x :
    TokenDealer.leaves (TokenDealer.transfer_tokens_to_relay_chain origin dest x) w w' →
    local_step w w'
| local_to_parachain origin para_id dest x :
    TokenDealer.leaves
      (TokenDealer.transfer_tokens_to_parachain_chain origin para_id dest x) w w' →
    local_step w w'
| local_from_relay msg :
    TokenDealer.leaves
      (TokenDealer.handle_downward_message convert_account convert_amount msg) w w' →
    local_step w w'.

Inductive net_step (n : Network) : Network → Prop :=
| net_local i w w' :
    chains n !! i = Some w → local_step w w' →
    net_step n (Net (<[i:=w']> (chains n)) (seen n))
| net_deliver src dst ws wd m w' :
    chains n !! src = Some ws → chains n !! dst = Some wd →
    outbox dst ws !! seen n src dst = Some m →
    TokenDealer.handle_xcmp_message into_account src m.2 wd = Done tt w' →
    net_step n (Net (<[dst:=w']> (chains n))
      (λ s d, if decide (s = src ∧ d = dst) then S (seen n s d) else seen n s d)).

(** Nothing has been sent yet. *)
Definition fresh (n : Network) : Prop :=
  (∀ s d, seen n s d = 0%nat) ∧
  ∀ i w, chains n !! i = Some w →
    queued (TokenDealer.xcmp w) = [] ∧ TokenDealer.events w = [].

(** ** What the steps do to the two ends *)

(** The queue grows, and no delivery is announced. *)
Definition sends_only (w w' : W) : Prop :=
  (∃ l, queued (TokenDealer.xcmp w') = queued (TokenDealer.xcmp w) ++ l) ∧
  ∀ moved src, zsum (settled_as moved src) (TokenDealer.events w') =
    zsum (settled_as moved src) (TokenDealer.events w).

Lemma sends_nothing w w' :
  TokenDealer.xcmp w' = TokenDealer.xcmp w →
  (∃ l, TokenDealer.events w' = TokenDealer.events w ++ l ∧
    ∀ moved src, zsum (settled_as moved src) l = 0) → sends_only w w'.
Proof.
  intros Hq (l & He & Hl). split; [exists []; by rewrite Hq, app_nil_r|].
  intros moved src. rewrite He, zsum_app, Hl. lia.
Qed.

Lemma sends_only_refl w : sends_only w w.
Proof. apply sends_nothing; [done|]. exists []. by rewrite app_nil_r. Qed.

Lemma local_sends_only w w' : local_step w w' → sends_only w w'.
Proof using DL XQ.
  intros [origin dest x H|origin para_id dest x H|msg H];
    (eapply TokenDealer.leaves_wp; [|exact H]).
  - unfold TokenDealer.transfer_tokens_to_relay_chain.
    apply wp_bind, wp_ok_or; [intros who _|intros; apply sends_only_refl]. cbn [bind_post].
    apply wp_bind, TokenDealer.wp_withdraw_from; [intros c _|intros; apply sends_only_refl].
    cbn [bind_post]. cbv zeta. apply wp_bind, wp_gets. cbn [bind_post].
    apply wp_bind, wp_expect; [intros q _|done]. cbn [bind_post].
    apply wp_bind, wp_modify. cbn [bind_post]. apply wp_modify, sends_nothing; [done|].
    by eexists [_].
  - unfold TokenDealer.transfer_tokens_to_parachain_chain.
    apply wp_bind, wp_ok_or; [intros who _|intros; apply sends_only_refl]. cbn [bind_post].
    apply wp_bind, TokenDealer.wp_withdraw_from; [intros c _|intros; apply sends_only_refl].
    cbn [bind_post]. apply wp_bind, wp_gets. cbn [bind_post].
    apply wp_bind, wp_expect; [intros q Hq|done]. cbn [bind_post]. apply wp_modify.
    split; [|done]. apply send_queued in Hq. by eexists [_].
  - destruct msg as [dest x|]; cbn [TokenDealer.handle_downward_message];
      [|apply sends_only_refl].
    apply wp_bind, wp_expect; [intros who _|done]. cbn [bind_post].
    apply wp_bind, wp_expect; [intros y _|done]. cbn [bind_post].
    apply wp_bind, wp_modify. cbn [bind_post]. apply wp_modify, sends_nothing.
    + by destruct (deposit_creating _ _ _).
    + destruct (deposit_creating _ _ _). by eexists [_].
Qed.

(** A delivery leaves the queue, and announces the amount for its sender, once. *)
Lemma delivery src m w :
  ∃ w', TokenDealer.handle_xcmp_message into_account src m w = Done tt w' ∧
    TokenDealer.xcmp w' = TokenDealer.xcmp w ∧
    ∀ s, settled s w' = settled s w + (if decide (s = src) then amount (src, m) else 0).
Proof.
  destruct m as [dest x]. cbn [TokenDealer.handle_xcmp_message]. unfold settled.
  destruct (transfer (TokenDealer.currency w) (into_account src) dest x) as [c|e] eqn:E;
    (eexists; split;
      [unfold mbind, Prog_bind, gets; cbn; rewrite E; reflexivity|]);
    (split; [done|]); intros s; cbn -[zsum]; rewrite !zsum_app; cbn;
    destruct (decide (src = s)); destruct (decide (s = src)); subst; try done; lia.
Qed.

(** ** Accounts that agree *)

(** What has been handed over has been settled. *)
Definition accounted (n : Network) : Prop :=
  ∀ src dst ws wd, chains n !! src = Some ws → chains n !! dst = Some wd →
    (seen n src dst <= length (outbox dst ws))%nat ∧
    zsum amount (take (seen n src dst) (outbox dst ws)) = settled src wd.

Lemma outbox_grows dst w w' :
  sends_only w w' → ∃ l, outbox dst w' = outbox dst w ++ l.
Proof. intros [[l Hl] _]. unfold outbox. rewrite Hl, filter_app. by eexists. Qed.

Lemma accounted_local n i w w' :
  chains n !! i = Some w → sends_only w w' → accounted n →
  accounted (Net (<[i:=w']> (chains n)) (seen n)).
Proof.
  intros Hi Hw H src dst ws wd. cbn [chains seen].
  assert (∀ j v, <[i:=w']> (chains n) !! j = Some v →
    ∃ v0, chains n !! j = Some v0 ∧ sends_only v0 v) as Hold.
  { intros j v. rewrite lookup_insert. case_decide as Hj; [intros [= <-]; subst; by exists w|].
    intros Hv. exists v. split; [done|apply sends_only_refl]. }
  intros (ws0 & Hs & Hs')%Hold (wd0 & Hd & [_ Hd'])%Hold.
  destruct (H src dst ws0 wd0 Hs Hd) as [Hl Ha]. destruct (outbox_grows dst _ _ Hs') as [l ->].
  rewrite length_app. split; [lia|]. rewrite take_app_le by done. unfold settled.
  by rewrite !Hd'.
Qed.

Lemma accounted_step n n' : net_step n n' → accounted n → accounted n'.
Proof using DL XQ.
  intros [i w w' Hi Hw|src dst ws wd m w' Hs Hd Hm Hw] H.
  { eapply accounted_local; [done|by apply local_sends_only|done]. }
  destruct (delivery src m.2 wd) as (w2 & E & Hq & Hset). rewrite Hw in E. injection E as <-.
  intros s d vs vd. cbn [chains seen]. rewrite !lookup_insert.
  assert (∀ vs, (if decide (dst = s) then Some w' else chains n !! s) = Some vs →
    ∃ v0, chains n !! s = Some v0 ∧ outbox d vs = outbox d v0) as Hout.
  { intros v. case_decide as Hj; [intros [= <-]; subst|by exists v]. exists wd. split; [done|].
    unfold outbox. by rewrite Hq. }
  intros (vs0 & Hvs & ->)%Hout.
  assert (m.1 = dst) as Hm1.
  { apply list_elem_of_lookup_2, list_elem_of_filter in Hm. by destruct Hm. }
  destruct (decide (dst = d)) as [<-|Hd'].
  - intros [= <-]. destruct (H s dst vs0 wd Hvs Hd) as [Hl Ha]. rewrite Hset.
    destruct (decide (s = src)) as [->|Hne]; [|rewrite decide_False by tauto; split; [done|lia]].
    rewrite decide_True by done. rewrite Hs in Hvs. injection Hvs as ->.
    split; [by apply lookup_lt_Some in Hm|].
    rewrite (take_S_r _ _ _ Hm), zsum_app, Ha.
    assert (zsum amount [m] = amount (src, m.2)) as -> by (cbn; unfold amount; cbn; lia). done.
  - intros Hvd. rewrite decide_False by (intros [_ ?]; congruence). by apply H.
Qed.

(** What one chain sends to another is accounted for at the other end: it is what has been
    moved there, what has been refused, and what is still on its way; and what is on its
    way can always be handed over. *)
Theorem transfers_are_accounted n0 n src dst ws wd :
  fresh n0 → rtc net_step n0 n →
  chains n !! src = Some ws → chains n !! dst = Some wd →
  zsum amount (outbox dst ws) =
    zsum (settled_as true src) (TokenDealer.events wd) +
    zsum (settled_as false src) (TokenDealer.events wd) +
    zsum amount (drop (seen n src dst) (outbox dst ws)) ∧
  ((seen n src dst < length (outbox dst ws))%nat →
    ∃ n', net_step n n' ∧ seen n' src dst = S (seen n src dst)).
Proof using DL XQ.
  intros [H0 Hf] Hr Hs Hd. assert (accounted n) as H.
  { assert (accounted n0) as HI.
    { intros s d vs vd Hvs Hvd. rewrite H0. unfold outbox, settled.
      destruct (Hf _ _ Hvs) as [-> _], (Hf _ _ Hvd) as [_ ->]. split; [cbn; lia|done]. }
    clear -HI Hr DL XQ. induction Hr as [|n1 n2 n3 Hst _ IH]; [done|].
    by apply IH, (accounted_step n1). }
  destruct (H src dst ws wd Hs Hd) as [_ Ha]. split.
  - rewrite <-(take_drop (seen n src dst) (outbox dst ws)) at 1. rewrite zsum_app, Ha. done.
  - intros [m Hm]%lookup_lt_is_Some_2. destruct (delivery src m.2 wd) as (w' & E & _).
    eexists. split; [exact (net_deliver n src dst ws wd m w' Hs Hd Hm E)|].
    cbn. by rewrite decide_True.
Qed.
End network.

(** ** Two chains

    The account that a chain has on another ([into_account]) is not looked at by the sender:
    a transfer that it cannot cover is refused at the other end, after the tokens have been
    burned here, and nothing sends them back. *)

#[local] Existing Instances purse_currency purse_laws queue_all queue_all_queue.

Module TwoChains.
(** Account 1 of chain 200 has 100; chain 200 has 25 on chain 7, as the account 2000. *)
Definition c200 : DealerWorld := TokenDealer.MkWorld (MkPurse {[1 := 100]} 100) [] [] [].
Definition c7 : DealerWorld := TokenDealer.MkWorld (MkPurse {[2000 := 25]} 25) [] [] [].
Definition net0 : Network := Net {[200 := c200; 7 := c7]} (λ _ _, 0%nat).

(** It sends 20, and 20 once more. *)
Definition sent1 : DealerWorld :=
  Transfers.left_by (TokenDealer.transfer_tokens_to_parachain_chain (Signed 1) 7 8 20) c200.
Definition sent2 : DealerWorld :=
  Transfers.left_by (TokenDealer.transfer_tokens_to_parachain_chain (Signed 1) 7 8 20) sent1.
Definition hand_over (w : DealerWorld) : DealerWorld :=
  Transfers.left_by
    (TokenDealer.handle_xcmp_message (Z.mul 10) 200 (TokenDealer.TransferToken 8 20)) w.

Example second_transfer_is_lost :
  let w1 := hand_over c7 in
  let w2 := hand_over w1 in
  dealer_balance (TokenDealer.currency w2) 8 = 20 ∧
  dealer_balance (TokenDealer.currency w2) 2000 = 5 ∧
  dealer_issuance (TokenDealer.currency sent2) = 60 ∧
  dealer_issuance (TokenDealer.currency w2) = 25 ∧
  zsum TokenDealer.xcmp_amount (outbox (Relay := Z) 7 sent2) = 40 ∧
  zsum (settled_as true 200) (TokenDealer.events w2) = 20 ∧
  zsum (settled_as false 200) (TokenDealer.events w2) = 20.
Proof. vm_compute. by split_and!. Qed.

Lemma net0_fresh : fresh net0.
Proof.
  split; [done|]. intros i w. cbn. rewrite lookup_insert. case_decide; [by intros [= <-]|].
  intros [_ <-]%lookup_singleton_Some. done.
Qed.
End TwoChains.
